(* ===== verification/_CoqProject ===== *)
-Q . S2P
Prelude.v
Scheduler.v
SchedulerSystem.v
SchedulerTheorems.v
Names.v
Net.v
Limits.v
Capabilities.v
Domain.v
Health.v
Capability.v
Load.v
Select.v
SelectTheorems.v
Utf8.v
Ggml.v
Gguf.v
GgufSafety.v
GgufFixture.v
GgufRoundtrip.v
GgufVerify.v
Float64.v
Estimator.v
EstimatorTheorems.v
Metadata.v
MetadataTheorems.v
Frames.v
Sse.v
Rewriter.v
Keys.v
Affinity.v
Fallback.v
Placement.v
Budget.v
Classifier.v
Scoring.v
AutoRoute.v
Config.v
ConfigTheorems.v
Responses.v
Auth.v
Panel.v
Web.v
Exposure.v
ExposureTheorems.v
Generation.v
Engine.v
Streaming.v
StreamingTheorems.v
StreamingClient.v
Download.v
Catalog.v
Install.v
CatalogTheorems.v
InstallTheorems.v
Runtime.v
Supervisor.v
Backend.v
BackendTheorems.v
Manager.v
ManagerTheorems.v
Chat.v
Completions.v
CompletionsTheorems.v
Serve.v
ServeTheorems.v
Jobs.v
Control.v
Bench.v
Calibration.v
Trace.v
World.v
Relay.v
Proxy.v
Forward.v
WorldLogic.v
ProxyTheorems.v
ProxyDemo.v
ForwardTheorems.v
LeaseTheorems.v
