(* ===== verification/Prelude.v ===== *)
(** * Verification of the Lightweight inference gateway and router

    The program serves language models on CPU machines through an
    OpenAI-compatible HTTP interface.  A _gateway_ runs one model on one
    machine: it reads the model file, decides whether it fits in memory,
    supervises an engine process, decides who may call it, schedules the
    requests that compete for the engine's few slots, meters each API key and
    streams the answers.  A _router_ stands in front of several gateways
    ("nodes"): it validates a configuration, probes the nodes, keeps a book of
    what each can serve, decides which route and which deployment a request
    goes to, tries them in order, and relays the answer that comes back under
    the route's name.  This development models both, from a configuration and
    the bytes of a model file to the last frame a client reads, and proves what
    makes them correct.

    ** Parts, files and sources

    Paths are under [src/crates/], without the prefix [lightweight-].

    Shared
    - [Prelude.v]: machine integers with the bound each Rust operation
      observes ([saturating_*], [checked_*], wrapping), durations, [Result],
      the list operations of the standard library the sources use, and the
      lemmas the components share.
    - [Names.v]: [catalog/src/alias.rs] and the identifiers of
      [router/src/domain.rs].  [Utf8.v]: bytes and text.  [Net.v]: the standard
      library's reading of IP and socket addresses.  [Float64.v]: [f64] as the
      standard library's executable IEEE 754.

    The gateway
    - [Scheduler.v]: [gateway/src/scheduler.rs].  [Inner], [Waiter], [Running],
      [Ticket] and [Counters] are records; every method is one function on the
      state.  The mutex makes each critical section one step; a ticket's
      one-shot channel is its [t_granted] field.
      [SchedulerSystem.v]: callers as a transition system ([exec], one
      constructor per thing a caller or the operator can do) and its
      invariants by induction on reachability; [SchedulerTheorems.v]: the
      properties.
    - [Limits.v]: [gateway/src/limits.rs].  One usage record per key; the
      instants are arguments.
    - [Keys.v]: [store/src/api_keys.rs]: the key file, its
      operations as edits between a read and a write, an abstract ring of
      issued keys they refine, and their interleavings.
    - [Auth.v]: [gateway/src/auth.rs] and the guards of [routes.rs], [lib.rs]
      and [store_api.rs].  [Panel.v]: the route table and layers of [lib.rs]
      with the guard of every handler ([serve]), and the key endpoints in full
      ([key_request]), with its properties.
    - [Exposure.v], [ExposureTheorems.v]: what [cli/src/serve.rs] settles before
      anything is loaded ([settle]), [store/src/api_config.rs], and the binds
      endpoints of [store_api.rs].  [Web.v]: [gateway/src/web.rs].
    - [Ggml.v], [Gguf.v]: [core/src/ggml.rs] and the header reader of
      [gguf/src/value.rs], [error.rs] and [reader.rs], as an action over a
      cursor on the bytes of the file.  [GgufSafety.v]: a program logic for
      such actions and the safety of the reader.  [GgufFixture.v]: the writer
      of [gguf/src/fixture.rs].  [GgufRoundtrip.v], [GgufVerify.v]: reader and
      writer agree; what the check of the data shows.
    - [Estimator.v], [EstimatorTheorems.v]: the memory estimator of
      [memory/src/estimate.rs] and [estimator.rs].  [Metadata.v],
      [MetadataTheorems.v]: [gguf/src/metadata.rs] and [architecture.rs].
    - [Frames.v], [Sse.v]: the event-stream codec of [core/src/sse.rs].

    What a gateway runs
    - [Catalog.v], [CatalogTheorems.v]: [catalog/src/record.rs], [store.rs],
      [manifest.rs] and the model ids of [core/src/ids.rs].  [Download.v]:
      [download/src/fetch.rs] over a server and a disk.  [Install.v],
      [InstallTheorems.v]: [catalog/src/install.rs] and [hf.rs]: what an added
      model is.
    - [Runtime.v]: the engine itself, [backend-llamacpp/src/manifest.rs] and
      [acquire.rs]: the pinned builds and the unpacking of their archives.
      [Supervisor.v]: [supervisor.rs]: an engine's command line, launch, wait
      for readiness and retries.  [Backend.v], [BackendTheorems.v]:
      [backend.rs]: the one resident engine.
    - [Manager.v], [ManagerTheorems.v]: [gateway/src/manager.rs] and
      [catalog.rs]: loads and unloads of a gateway that is serving, as steps
      with a transition system of their interleavings.
    - [Jobs.v]: [gateway/src/jobs.rs] and the event stream of a job.
      [Control.v]: [gateway/src/control.rs]: adding, renaming, loading and
      removing models, and what a load would cost.
    - [Bench.v]: [record.rs], [store.rs] and [runner.rs] of [bench/src/], and
      [gateway/src/benchmark.rs]: measuring an engine.  [Calibration.v]: [fit.rs]
      and [apply.rs], the lookup of [gateway/src/state.rs], and the sweep of
      [cli/src/bench.rs]: what the measurements make of an estimate.

    What a gateway answers
    - [Chat.v]: the requests of [api/src/chat.rs] and [completions.rs] and what
      [inference/src/generation.rs] makes of them.  [Serve.v],
      [ServeTheorems.v]: the inference handlers of [gateway/src/routes.rs].
    - [Generation.v]: the events of [generation.rs], the failures of
      [inference/src/error.rs] and the chunks of [api/src/stream.rs].
      [Engine.v]: [backend-llamacpp/src/upstream.rs]: the engine's bytes as
      events.  [Streaming.v], [StreamingTheorems.v]: [gateway/src/stream.rs]:
      the guard of a request and the encoder of its stream.
      [StreamingClient.v]: what a client makes of it, against [aggregate].
      [Completions.v], [CompletionsTheorems.v]: [gateway/src/completions.rs].

    The router
    - [Config.v], [ConfigTheorems.v]: [router/src/config.rs] with the sections
      of [classifier/] and [auto_route.rs]: the file as written and everything
      between it and a running router.
    - [Domain.v]: nodes, deployments, routes and the validated topology,
      [router/src/domain.rs].  [Capabilities.v]: the body of
      GET /v1/capabilities, [api/src/capabilities.rs].
    - [Health.v]: [router/src/health.rs]: what probes leave in the book.
      [Capability.v]: [requirements.rs], [capability.rs] and the eligibility of
      [select.rs].  [Load.v]: [load.rs], with the interface [InFlight] that
      selection is proved against and the laws [LoadBook] discharges.
      [Select.v], [SelectTheorems.v]: the policies and the route summary of
      [select.rs].
    - [Affinity.v], [Fallback.v], [Placement.v], [Budget.v], [Classifier.v],
      [Scoring.v], [AutoRoute.v]: the files of those names under
      [router/src/].  Each holds its operations and its own theorems.
    - [Responses.v]: the answers of [error.rs].  [Trace.v]: [trace.rs] and the
      labels of [metrics.rs].  [Rewriter.v]: the [FrameRewriter]
      of [router/src/sse.rs], over an abstract JSON.
    - [World.v], [Relay.v], [Proxy.v], [Forward.v]: [router/src/proxy.rs], from
      the top of a request to the end of its stream, as actions on a world:
      the shared books, the clocks and a log of events.  [WorldLogic.v]: two
      program logics for such actions.  [ProxyTheorems.v],
      [ForwardTheorems.v], [LeaseTheorems.v]: the properties; [ProxyDemo.v]:
      a small router for their examples.

    ** How the parts meet

    A gateway request passes [Panel.serve], whose credential check is
    [Auth.identify] over the keys of [Keys.v] and whose metering is
    [Limits.limiter_admit]; [Serve.handle] reads its body, [serve_chat] checks
    it against the resident model of [Manager.v], counts it on the engine of
    [Backend.v] and takes a slot of [Scheduler.v]; [Streaming.v] or
    [Completions.v] answers it with the events of [Engine.v], and the guard
    gives the slot back.  [Exposure.settle] makes the policy [serve] runs with.
    [Manager.load_begin] resolves a name in [Catalog.v], opens the file with
    [Gguf.open], describes it with [Metadata.from_file] and judges it with
    [Estimator.v]; the coefficients are the
    shipped ones or those of [Calibration.v]'s lookup; [load_engine] has [Backend.v] install ([Runtime.v]) and
    start ([Supervisor.v]) an engine; [load_publish] sets the slots and limits
    of the scheduler.  [Config.validate_with_store] makes the
    [Topology] every router file reads; a routed request runs [Forward.v],
    which plans with [Select.v] over [Health.v], [Capability.v] and [Load.v],
    and tries the plan in [Proxy.v]; the stream goes through [Rewriter.v].

    ** What the theorems show

    - Scheduling: every slot in use belongs to exactly one permit or ticket
      ([slot_ownership]); no request waits while a slot is free
      ([work_conservation]); past the starvation ceiling only older requests
      go first, so the wait is bounded by the releases ([bounded_wait]); the
      slots in use never exceed the largest capacity configured
      ([capacity_bound]), though a lowered capacity is not enforced while
      requests wait ([release_hands_over]); callers take turns
      ([fair_between_callers]); the queue is served in rank order
      ([next_is_first]).
    - Admission of callers: no sixty-second window ever holds more than the
      ceiling; the key file admits exactly the keys issued and not revoked
      ([key_store_refines]); a request from another machine enters nothing
      that is not public without a key the policy holds
      ([remote_needs_a_key]); a revocation is live when it is answered, if the
      key file could be read again ([revocation_takes_hold]); no start settles
      on an open policy for a gateway that can be reached ([no_open_start]);
      the panel serves nothing outside its root.
    - Model files: no byte sequence takes the reader outside the file or past
      its limits ([header_reading_is_safe]); what the writer writes is what the reader reads; an opened
      file holds its weights, while their size fits in 64 bits; extraction
      never fails on an accepted file and reports exactly what is missing.
    - Memory: a load judged safe really fits, with its margin, in exact
      arithmetic; the largest safe context and slot count are the largest.
    - Models: a name means one model ([names_mean_one_model]); what is added is
      what was promised, and lies where it should; a resumed download is whole;
      a new name is everywhere or nowhere
      ([renaming_is_everywhere_or_nowhere]).
    - The engine: what is installed is what was pinned, and lies in its
      directory if the archive has no links ([engine_is_what_was_pinned]); at
      most one runs; only lost ports are retried, each failed attempt stopped
      before the next ([only_lost_ports_are_retried]); a load is judged before anything is stopped, and
      what is published is what runs ([published_is_what_runs]), as long as no
      unload crosses a load; the price shown is the price of the load
      ([preview_is_the_load]); whoever watches a job learns how it ended,
      unless the gateway is being stopped ([watcher_learns_the_outcome]).
    - Measurements: a benchmark measures its plan ([a_run_measures_its_plan]);
      a load finds the fit that was made of it, and only that one
      ([a_load_finds_its_measurement]); a calibration that is missing, damaged
      or not good enough changes no load, and an estimate that says it was
      measured was ([only_an_earned_fit_is_spent]).
    - Answers: a request is refused exactly for the documented reasons, or
      translated as a relation over its parts says ([chat_refused_exactly]); a
      chat that is served fits the window of the
      engine that runs ([begun_within_what_runs]); a stream is well formed,
      says what the collected answer would as long as the engine repeats what it
      announced, reaches its end, and gives its slot
      back once ([stream_is_well_formed], [streamed_is_collected],
      [text_stream_is_collected], [slot_goes_back_once]).
    - Configuration: what validation accepts is well formed, scoring included
      ([accepted_configuration]); lists and rules are refused exactly when
      their documented reasons hold.
    - Routing: a plan is exactly the available deployments that have no
      capability gap, in the order of the policy; availability comes from an
      observation of that node; refusals name the reason; what a route
      advertises, it serves; placement starts at most one load per node.
    - A routed request, whatever other tasks do to the shared books, the
      clocks show and the nodes answer: attempts follow the plan that the books
      it read give ([attempts_follow_the_plan]) and end at the first answer,
      after an overflow only climbing by what those books show
      ([attempts_end_at_the_first_answer]); each node is sent its own credential, fallback follows
      the configured chain, the request is counted once, and every slot is
      given back, as long as the others give back only what they took
      ([every_slot_is_given_back]).
    - Streams: chunk boundaries do not matter, encoding and decoding are
      inverse, and a client of the router sees the node's events under the
      route's name, with exactly one error frame when the stream was cut off.

    Some theorems show where the code departs from its documentation: a
    request can be overtaken by a later one of its own caller
    ([single_caller_overtakes]), an IPv4-mapped loopback peer counts as local
    ([mapped_loopback_counts_as_local]), Retry-After can be too early
    ([retry_after_too_soon]), a tensor of 2^64 bytes sizes to nothing and so
    does a cache ([phantom_weights_accepted], [overflowing_cache_is_free]), a
    character split between chunks is lost ([split_character_is_corrupted]),
    two key operations at once can bring a revoked key back
    ([revoked_key_returns]), a tunnelled panel request needs no key
    ([tunnelled_panel_needs_no_key]), a misspelt node is dropped from its
    route ([misnamed_node_is_dropped]),
    a negative head count in an array wraps ([negative_heads_wrap]), a name the
    engine sends late is lost ([late_name_is_lost]), a download that is already
    whole is stuck ([whole_partial_is_stuck]) and another link of that file
    name goes on from it ([second_link_resumes_the_first]), a half-unpacked
    engine is used ([half_installed_engine_is_used]), a link in its archive
    leads outside ([link_leads_outside]), a key whose revocation could not be
    read back stays live ([unread_revocation_stays_live]), an unload that crosses a
    load clears its name ([unload_crosses_load]), a swap that fails keeps the
    name of the model it stopped ([failed_swap_keeps_the_name]), a name given
    during a load is lost ([rename_during_load_is_lost]), the file of a model
    served by its path can be deleted ([served_file_is_deleted]) and is not
    listed as loaded ([served_by_path_is_not_listed]), a cancelled load ends as
    failed ([cancelled_load_is_failed]), completions per prompt have no bound
    ([completions_are_not_bounded]), text completions are never measured
    ([text_answers_are_not_measured]), the reserved token is not reserved
    ([window_is_filled]), /props keeps the slots of the start
    ([props_slots_are_not_live]), a concurrent client opens as a cold prompt did
    ([a_client_opens_as_a_cold_prompt_did]), and a fit can fall a byte short of
    its own sample ([a_fit_falls_short_of_its_own_sample]).

    ** Parameters

    What is not the program's own code is a parameter, with what is relied on
    as the laws of a class: lower-casing ([LowerCase], [LowerAscii]), JSON
    values and texts ([Json], [JsonLaws], [JsonNumbers], [JsonScalars],
    [JsonConstants], [ChunkJson]), SHA-256 ([Sha256]), what a web server answers
    ([Server]), the decoders of archives ([Unpack], [Decode],
    [EnclosedName]) and the calls on the file system that unpacks them
    ([FileSystem]), when a broadcast channel overtakes a receiver
    ([Broadcast]), the engine a benchmark drives and the format of a saved run
    ([BenchWorld], [CommandWorld], [RunFormat]),
    the keyed hash and the iteration order of a hash map ([SessionHash],
    [MapIter]), [exp2] ([Exp2]), [Debug] of a text ([StrDebug]), the URL parser
    and the table of header names ([UrlParser], [HeaderNames]) and the
    system's name lookup ([Lookup]).  Clocks, entropy, the environment, what a
    file holds and what another process answers are arguments.

    ** Bounds and fuel

    Loops that are not structural carry fuel that is proved enough, not
    assumed: the scheduler's granting loops are given the length of the queue,
    which each turn shortens; the frame searches are given the length of the
    buffer, which each frame shortens ([frames_upto_enough],
    [extract_upto_spec], [push_upto_spec]); a binary search is given the
    length of its table ([search_loop_spec]).  Everything else is structural;
    a loop over a count taken from a file runs on that count.
    [usize] is 64 bits.  Arithmetic the sources leave unchecked wraps, as a
    release build does.  Clock readings are arguments: a theorem that needs
    them in order says so.

    ** Not modelled

    What the machine and the engine's process do is an argument of the
    functions that meet it ([Machine], [LoadWorld], [Turn], [ServeWorld],
    [Circumstances], [Placing], [Installation]): exit codes are those of Unix;
    links and directories on the disk, permission bits, a
    client that leaves while an engine is asked to start, and the counters an
    engine is scraped for are left out.  So are the sentences and remedies of
    most failures, log lines, response headers and metrics, the gateway's
    description of itself and of its machine, conversations and stored
    settings, the router's administration views and credential file,
    the updater, system probing, the command line past what it
    settles, and the desktop and web interfaces: they are input and output
    around what is modelled, or observe it.  JSON, HTTP and file encodings are
    other crates'.  A label printed from a float ([parameters_label]) is left
    out. *)

From stdpp Require Import base list gmap strings numbers sorting.
From Stdlib Require Import ZArith Lia.

Open Scope Z_scope.

(** ** Machine integers

    Rust's fixed-width unsigned integers are kept in [Z]; each operation the
    sources use is written with the bound it observes.  [usize] is 64-bit on
    every platform the program ships to. *)

Abbreviation u8 := Z (only parsing).
Abbreviation u16 := Z (only parsing).
Abbreviation u32 := Z (only parsing).
Abbreviation u64 := Z (only parsing).
Abbreviation u128 := Z (only parsing).
Abbreviation usize := Z (only parsing).
(** [tokio::time::Instant] and [std::time::Duration], in nanoseconds. *)
Abbreviation Instant := Z (only parsing).
Abbreviation Duration := Z (only parsing).

Definition U32_MAX : Z := 2 ^ 32 - 1.
Definition U64_MAX : Z := 2 ^ 64 - 1.
Definition I64_MAX : Z := 2 ^ 63 - 1.

Definition in_u8 (z : Z) : Prop := 0 ≤ z ≤ 255.
Definition in_u32 (z : Z) : Prop := 0 ≤ z ≤ U32_MAX.
Definition in_u64 (z : Z) : Prop := 0 ≤ z ≤ U64_MAX.

(** [u64::saturating_add], [saturating_mul] and [saturating_sub]. *)
Definition sat_add64 (a b : u64) : u64 := Z.min (a + b) U64_MAX.
Definition sat_mul64 (a b : u64) : u64 := Z.min (a * b) U64_MAX.
Definition sat_sub (a b : Z) : Z := Z.max (a - b) 0.
Definition sat_add32 (a b : u32) : u32 := Z.min (a + b) U32_MAX.

(** [u64::checked_*]: [None] on overflow or division by zero. *)
Definition checked_add64 (a b : u64) : option u64 :=
  if a + b <=? U64_MAX then Some (a + b) else None.
Definition checked_mul64 (a b : u64) : option u64 :=
  if a * b <=? U64_MAX then Some (a * b) else None.
Definition checked_sub (a b : Z) : option Z :=
  if b <=? a then Some (a - b) else None.
Definition checked_div (a b : Z) : option Z :=
  if b =? 0 then None else Some (a / b).
Definition checked_rem (a b : Z) : option Z :=
  if b =? 0 then None else Some (a mod b).

(** [*] on [u64] as a release build runs it (no [overflow-checks] in the
    workspace profile): the product modulo 2^64. *)
Definition wrapping_mul64 (a b : u64) : u64 := (a * b) mod 2 ^ 64.

(** [u64::div_ceil]. *)
Definition div_ceil (a b : Z) : Z :=
  if 0 <? a mod b then a / b + 1 else a / b.

(** [u32::try_from(x).unwrap_or(u32::MAX)]. *)
Definition u32_or_max (a : Z) : u32 := if a <=? U32_MAX then a else U32_MAX.

Definition clamp (x lo hi : Z) : Z := if x <? lo then lo else if hi <? x then hi else x.

(** [Instant::saturating_duration_since], and [Duration::as_millis() as u64]. *)
Definition saturating_duration_since (now earlier : Instant) : Duration :=
  Z.max (now - earlier) 0.
Definition as_millis (d : Duration) : u64 := (d / 1000000) mod 2 ^ 64.
Definition from_secs (s : Z) : Duration := s * 1000000000.
Definition as_secs (d : Duration) : u64 := d / 1000000000.

(** ** Results *)

Inductive result (A E : Type) : Type :=
| Ok (a : A)
| Err (e : E).
Arguments Ok {A E} a.
Arguments Err {A E} e.

Definition res_bind {A B E} (m : result A E) (k : A → result B E) : result B E :=
  match m with
  | Ok a => k a
  | Err e => Err e
  end.

Definition ok_or {A E} (o : option A) (e : E) : result A E :=
  match o with
  | Some a => Ok a
  | None => Err e
  end.

Definition is_ok {A E} (m : result A E) : bool :=
  match m with
  | Ok _ => true
  | Err _ => false
  end.

Declare Scope rust_scope.
Delimit Scope rust_scope with rust.
(** Rust's [let x = e?; k] over [Result] and over [Option]. *)
Notation "'let?' x ':=' c1 'in' c2" := (res_bind c1 (fun x => c2))
  (at level 10, x binder, c1 at level 100, c2 at level 200)
  : rust_scope.
Notation "'let!' x ':=' c1 'in' c2" := (mbind (fun x => c2) c1)
  (at level 10, x binder, c1 at level 100, c2 at level 200)
  : rust_scope.
Open Scope rust_scope.

(** ** Iterator adapters *)

(** [Iterator::min_by_key] returns the first of several minimal elements:
    an element is kept unless a later one is strictly smaller. *)
Fixpoint min_by {A} (lt : A → A → bool) (l : list A) : option (nat * A) :=
  match l with
  | [] => None
  | x :: l' =>
      match min_by lt l' with
      | None => Some (0%nat, x)
      | Some (i, y) => if lt y x then Some (S i, y) else Some (0%nat, x)
      end
  end.

(** [iter().position(p)] followed by [remove(index)]. *)
Fixpoint remove_first {A} (p : A → bool) (l : list A) : list A :=
  match l with
  | [] => []
  | x :: l' => if p x then l' else x :: remove_first p l'
  end.

(** [iter_mut().find(p)] followed by an assignment through it. *)
Fixpoint update_first {A} (p : A → bool) (f : A → A) (l : list A) : list A :=
  match l with
  | [] => []
  | x :: l' => if p x then f x :: l' else x :: update_first p f l'
  end.

(** [iter().find(p)]. *)
Fixpoint find_first {A} (p : A → bool) (l : list A) : option A :=
  match l with
  | [] => None
  | x :: l' => if p x then Some x else find_first p l'
  end.

(** [iter().position(p)]. *)
Fixpoint position_of {A} (p : A → bool) (l : list A) : option nat :=
  match l with
  | [] => None
  | x :: l' => if p x then Some 0%nat else S <$> position_of p l'
  end.

(** [iter().filter(p).count()]. *)
Definition count_if {A} (p : A → bool) (l : list A) : nat := length (List.filter p l).

(** [sort_by]: stable, so an element goes after the ones that are not greater. *)
Fixpoint insert_by {A} (lt : A → A → bool) (x : A) (l : list A) : list A :=
  match l with
  | [] => [x]
  | y :: l' => if lt x y then x :: l else y :: insert_by lt x l'
  end.

Definition sort_by {A} (lt : A → A → bool) (l : list A) : list A :=
  fold_left (fun acc x => insert_by lt x acc) l [].

(** [slice::rotate_left]. *)
Definition rotate_left {A} (n : nat) (l : list A) : list A := drop n l ++ take n l.

(** ** Lemmas on the adapters *)

Section min_by.
Context {A : Type} (lt : A → A → bool).
Hypothesis lt_trans : ∀ x y z, lt x y = true → lt y z = true → lt x z = true.
Hypothesis lt_irrefl : ∀ x, lt x x = false.
Hypothesis lt_cotrans : ∀ x y z, lt x z = true → lt x y = true ∨ lt y z = true.

Lemma min_by_None l : min_by lt l = None ↔ l = [].
Proof.
  destruct l as [|x l]; simpl; [done|].
  destruct (min_by lt l) as [[i y]|]; [|done]. by case_match.
Qed.

Lemma min_by_lookup l i x : min_by lt l = Some (i, x) → l !! i = Some x.
Proof.
  revert i x. induction l as [|a l IH]; intros i x; simpl; [done|].
  destruct (min_by lt l) as [[j y]|] eqn:E.
  - case_match; intros [= <- <-]; [by apply IH|done].
  - by intros [= <- <-].
Qed.

Lemma min_by_min l i x y :
  min_by lt l = Some (i, x) → y ∈ l → lt y x = false.
Proof.
  revert i x. induction l as [|a l IH]; intros i x; simpl; [done|].
  destruct (min_by lt l) as [[j m]|] eqn:E; last first.
  { apply min_by_None in E as ->. intros [= <- <-] ->%list_elem_of_singleton. done. }
  specialize (IH j m eq_refl).
  destruct (lt m a) eqn:Hma; intros [= <- <-] [->|Hy]%elem_of_cons; auto.
  - destruct (lt a m) eqn:Ham; [|done].
    pose proof (lt_trans a m a Ham Hma) as H. by rewrite lt_irrefl in H.
  - destruct (lt y a) eqn:Hya; [|done].
    destruct (lt_cotrans y m a Hya) as [H|H]; [|congruence].
    rewrite IH in H; done.
Qed.

(** The first of the minimal elements: nothing before it is as small. *)
Lemma min_by_first l i x j y :
  min_by lt l = Some (i, x) → l !! j = Some y → (j < i)%nat → lt x y = true.
Proof.
  revert i x j. induction l as [|a l IH]; intros i x j; simpl; [done|].
  destruct (min_by lt l) as [[k m]|] eqn:E; last first.
  { intros [= <- <-]. lia. }
  destruct (lt m a) eqn:Hma; intros [= <- <-]; [|lia].
  destruct j as [|j]; simpl; [by intros [= ->]|].
  intros Hj Hlt. apply (IH k m j); auto. lia.
Qed.

(** An element nothing beats, with nothing as small in front, is chosen. *)
Lemma min_by_head a l :
  (∀ y, y ∈ l → lt y a = false) → min_by lt (a :: l) = Some (0%nat, a).
Proof.
  intros H. simpl. destruct (min_by lt l) as [[k m]|] eqn:E; [|done].
  rewrite H; [done|]. apply min_by_lookup in E. by eapply list_elem_of_lookup_2.
Qed.
End min_by.

(** [min_by_key] over an integer key. *)
Lemma min_by_key_min {A} (f : A → Z) l i x y :
  min_by (fun a b => f a <? f b) l = Some (i, x) → y ∈ l → f x ≤ f y.
Proof.
  intros Hm Hy. apply Z.ltb_ge.
  eapply (min_by_min (fun a b => f a <? f b)); [intros; lia..|exact Hm|exact Hy].
Qed.

(** [sort_by_key] is stable: its head is the element [min_by_key] returns. *)
Section sort_by.
Context {A : Type}.

Lemma insert_by_Permutation (lt : A → A → bool) x l : insert_by lt x l ≡ₚ x :: l.
Proof.
  induction l as [|y l IH]; simpl; [done|]. case_match; [done|].
  rewrite IH. apply Permutation_swap.
Qed.

Lemma sort_by_acc (lt : A → A → bool) l acc :
  fold_left (fun acc x => insert_by lt x acc) l acc ≡ₚ acc ++ l.
Proof.
  revert acc. induction l as [|x l IH]; intros acc; simpl; [by rewrite app_nil_r|].
  rewrite IH, insert_by_Permutation. simpl. apply Permutation_middle.
Qed.

Lemma sort_by_Permutation (lt : A → A → bool) l : sort_by lt l ≡ₚ l.
Proof. apply sort_by_acc. Qed.

(** Sorting by a strict weak order gives a list no element of which comes
    after a larger one. *)
Lemma sort_by_sorted (lt : A → A → bool) l :
  (∀ x y z, lt y x = false → lt z y = false → lt z x = false) →
  (∀ x y, lt x y = true → lt y x = false) →
  StronglySorted (λ x y, lt y x = false) (sort_by lt l).
Proof.
  intros Htr Has. unfold sort_by.
  assert (Hins : ∀ x k, StronglySorted (λ x y, lt y x = false) k →
    StronglySorted (λ x y, lt y x = false) (insert_by lt x k)).
  { intros x k. induction 1 as [|y k Hk IH Hy]; simpl; [repeat constructor|].
    destruct (lt x y) eqn:E.
    - constructor; [by constructor|]. constructor; [by apply Has|].
      eapply Forall_impl; [exact Hy|]. simpl. intros z Hz. eapply Htr; [|exact Hz]. by apply Has.
    - constructor; [done|]. rewrite insert_by_Permutation. by constructor. }
  assert (H : ∀ acc, StronglySorted (λ x y, lt y x = false) acc →
    StronglySorted (λ x y, lt y x = false) (fold_left (fun acc x => insert_by lt x acc) l acc));
    [|apply H; constructor].
  induction l as [|x l IH]; intros acc Hacc; simpl; [done|]. apply IH. by apply Hins.
Qed.

Lemma sort_by_head (f : A → Z) l i x :
  l !! i = Some x → (∀ y, y ∈ l → f x ≤ f y) →
  (∀ j y, l !! j = Some y → (j < i)%nat → f x < f y) →
  ∃ l', sort_by (fun a b => f a <? f b) l = x :: l'.
Proof.
  intros Hi Hmin Hfirst. rewrite <-(take_drop_middle l i x Hi) in Hmin |- *.
  assert (Hlt : ∀ y, y ∈ take i l → f x < f y).
  { intros y [j Hj]%list_elem_of_lookup. pose proof (lookup_lt_Some _ _ _ Hj).
    rewrite length_take in *. rewrite lookup_take in Hj.
    destruct (decide (j < i)%nat); [|done]. eapply Hfirst; eauto. }
  unfold sort_by. rewrite fold_left_app. simpl.
  set (acc := fold_left _ (take i l) []).
  assert (Hacc : ∀ y, y ∈ acc → f x < f y).
  { intros y. unfold acc. rewrite (sort_by_acc _ _ []). apply Hlt. }
  assert (insert_by (fun a b => f a <? f b) x acc = x :: acc) as ->.
  { destruct acc as [|y acc]; [done|]. simpl.
    destruct (Z.ltb_spec (f x) (f y)); [done|].
    specialize (Hacc y (list_elem_of_here _ _)). lia. }
  assert (Hge : ∀ y, y ∈ drop (S i) l → f x ≤ f y).
  { intros y Hy. apply Hmin. set_solver. }
  clearbody acc. clear - Hge. revert acc. induction (drop (S i) l) as [|y k IH]; intros acc.
  { by eexists. }
  simpl. destruct (Z.ltb_spec (f y) (f x)); [specialize (Hge y (list_elem_of_here _ _)); lia|].
  apply IH. intros z Hz. apply Hge. by apply list_elem_of_further.
Qed.
End sort_by.

Section sublists.
Context {A : Type}.
Implicit Types (l k : list A) (p : A → bool).

Lemma StronglySorted_sublist (R : A → A → Prop) l k :
  l `sublist_of` k → StronglySorted R k → StronglySorted R l.
Proof.
  induction 1 as [|x l k Hs IH|x l k Hs IH]; intros Hk; [done| |].
  - apply StronglySorted_inv in Hk as [Hk Hx]. constructor; [by apply IH|].
    rewrite Forall_forall in *. intros y Hy. apply Hx. by eapply sublist_subseteq.
  - apply StronglySorted_inv in Hk as [Hk _]. by apply IH.
Qed.

Lemma StronglySorted_snoc (R : A → A → Prop) l x :
  StronglySorted R l → (∀ y, y ∈ l → R y x) → StronglySorted R (l ++ [x]).
Proof.
  induction 1 as [|y l Hl IH Hy]; intros Hx; simpl; [repeat constructor|].
  constructor; [apply IH; set_solver|].
  rewrite Forall_app. split; [done|]. repeat constructor. set_solver.
Qed.

Lemma StronglySorted_lookup (R : A → A → Prop) l i j x y :
  StronglySorted R l → l !! i = Some x → l !! j = Some y → (i < j)%nat → R x y.
Proof.
  intros Hl. revert i j. induction Hl as [|a l Hl IH Ha]; intros i j; [done|].
  destruct i as [|i], j as [|j]; simpl; try lia.
  - intros [= ->] Hy _. rewrite Forall_forall in Ha. by eapply Ha, list_elem_of_lookup_2.
  - intros Hx Hy Hlt. eapply IH; eauto. lia.
Qed.

(** Deleting an index keeps every other element, and only moves it left. *)
Lemma lookup_delete_other l i j x y :
  l !! j = Some y → delete i l !! i = x → i ≠ j →
  ∃ j', delete i l !! j' = Some y ∧ (j' ≤ j)%nat ∧ ((i < j)%nat → (j' < j)%nat).
Proof.
  intros Hj _ Hne. destruct (decide (i < j)%nat) as [Hlt|Hge].
  - exists (j - 1)%nat. rewrite list_lookup_delete_ge by lia.
    replace (S (j - 1)) with j by lia. split; [done|lia].
  - exists j. rewrite list_lookup_delete_lt by lia. split; [done|lia].
Qed.

Lemma position_of_Some p l i :
  position_of p l = Some i → ∃ x, l !! i = Some x ∧ p x = true.
Proof.
  revert i. induction l as [|a l IH]; intros i; simpl; [done|].
  destruct (p a) eqn:E; [intros [= <-]; eauto|].
  destruct (position_of p l) as [j|]; simpl; [|done].
  intros [= <-]. by apply IH.
Qed.

Lemma position_of_None p l : position_of p l = None ↔ ∀ x, x ∈ l → p x = false.
Proof.
  induction l as [|a l IH]; simpl; [set_solver|].
  destruct (p a) eqn:E.
  - split; [done|]. intros H. rewrite H in E; [done|set_solver].
  - destruct (position_of p l) as [n|]; simpl; split; try done.
    + intros H. exfalso. assert (Some n = None); [|done]. apply IH. set_solver.
    + intros _ x [->|Hx]%elem_of_cons; [done|]. by apply IH.
Qed.

Lemma remove_first_sublist p l : remove_first p l `sublist_of` l.
Proof. induction l; simpl; [done|]. case_match; by constructor. Qed.

(** With distinct keys, removing the entry of a key removes that key alone. *)
Lemma elem_of_remove_first_key {K} (f : A → K) p (k : K) l x :
  (∀ a, p a = true ↔ f a = k) → NoDup (f <$> l) →
  x ∈ f <$> remove_first p l ↔ x ∈ f <$> l ∧ x ≠ k.
Proof.
  intros Hp. induction l as [|a l IH]; simpl; [set_solver|].
  intros [Ha Hl]%NoDup_cons. destruct (p a) eqn:E.
  - apply Hp in E as <-. set_solver.
  - assert (f a ≠ k) by (intros Hk; apply Hp in Hk; congruence).
    simpl. set_solver.
Qed.

Lemma length_remove_first p l x :
  x ∈ l → p x = true → S (length (remove_first p l)) = length l.
Proof.
  intros Hx Hpx. induction l as [|a l IH]; [set_solver|]. simpl.
  destruct (p a) eqn:E; [done|]. simpl. f_equal. apply IH.
  apply elem_of_cons in Hx as [->|]; [congruence|done].
Qed.

Lemma length_remove_first_le p l : (length (remove_first p l) ≤ length l)%nat.
Proof. apply sublist_length, remove_first_sublist. Qed.

Lemma update_first_fmap {B} (g : A → B) p f l :
  (∀ a, g (f a) = g a) → g <$> update_first p f l = g <$> l.
Proof. intros H. induction l as [|a l IH]; csimpl; [done|]. case_match; csimpl; by rewrite ?H, ?IH. Qed.

Lemma length_update_first p f l : length (update_first p f l) = length l.
Proof. induction l as [|a l IH]; simpl; [done|]. case_match; simpl; by rewrite ?IH. Qed.

Lemma find_first_Some p l x : find_first p l = Some x → x ∈ l ∧ p x = true.
Proof.
  induction l as [|a l IH]; simpl; [done|]. destruct (p a) eqn:E.
  - intros [= ->]. set_solver.
  - intros H%IH. set_solver.
Qed.

Lemma find_first_is_Some p l x : x ∈ l → p x = true → is_Some (find_first p l).
Proof.
  intros Hx Hp. induction l as [|a l IH]; [set_solver|]. simpl.
  destruct (p a) eqn:E; [eauto|]. apply IH.
  apply elem_of_cons in Hx as [->|]; [congruence|done].
Qed.

Lemma count_if_0 p l : count_if p l = 0%nat ↔ ∀ x, x ∈ l → p x = false.
Proof.
  unfold count_if. induction l as [|a l IH]; simpl; [set_solver|].
  destruct (p a) eqn:E; simpl.
  - split; [done|]. intros H. rewrite H in E; [done|set_solver].
  - rewrite IH. set_solver.
Qed.
(** A property of the members of a list, by evaluation. *)
Lemma elem_forallb p l x : x ∈ l → forallb p l = true → p x = true.
Proof. intros Hx Hl. rewrite forallb_forall in Hl. by apply Hl, list_elem_of_In. Qed.

Lemma find_first_ext p q l :
  (∀ x, x ∈ l → p x = q x) → find_first p l = find_first q l.
Proof.
  induction l as [|a l IH]; intros H; simpl; [done|].
  rewrite (H a (list_elem_of_here _ _)). case_match; [done|].
  apply IH. intros x Hx. apply H. by apply list_elem_of_further.
Qed.

End sublists.
