(* ===== verification/Scheduler.v ===== *)
(** * The gateway's request scheduler

    [crates/lightweight-gateway/src/scheduler.rs]: the peer keys a request is
    queued under, the two bands, the queue itself, and the three values that
    own a place in it ([SlotPermit], [Ticket], [PauseGuard]).

    A [Scheduler] is the content of the [Mutex<Inner>] together with the
    atomics around it.  Every method that takes the lock is one function on
    it, with the instant it reads ([Instant::now()]) as an argument.  The
    [oneshot] channel between a queued [Waiter] and its [Ticket] is the
    [tickets] map: a ticket that is still alive is an entry, and what has been
    sent to it is its [t_granted].  A send fails exactly when there is no
    entry.  [next_id] and the counters are [u64]s that only count up; they are
    exact for the first 2^64 - 1 requests. *)

From stdpp Require Import base list gmap strings numbers.
From S2P Require Import Prelude.

(** ** Peers *)

Inductive IpAddr := V4 (addr : Z) | V6 (addr : Z).

#[export] Instance IpAddr_eq_dec : EqDecision IpAddr.
Proof. solve_decision. Defined.

(** [IpAddr::to_canonical]: an IPv4-mapped address is its IPv4 address. *)
Definition to_canonical (ip : IpAddr) : IpAddr :=
  match ip with
  | V4 a => V4 a
  | V6 a => if Z.shiftr a 32 =? 0xFFFF then V4 (Z.land a (2 ^ 32 - 1)) else V6 a
  end.

(** [IpAddr::is_loopback]: 127.0.0.0/8, and [::1] alone. *)
Definition is_loopback (ip : IpAddr) : bool :=
  match ip with
  | V4 a => Z.shiftr a 24 =? 127
  | V6 a => a =? 1
  end.

Record SocketAddr := mkSocket { sock_ip : IpAddr; sock_port : Z }.

Record PeerKey := mkPeerKey { peer_ip : option IpAddr }.

#[export] Instance PeerKey_eq_dec : EqDecision PeerKey.
Proof. solve_decision. Defined.

Definition PeerKey_default : PeerKey := mkPeerKey None.

Definition from_socket (address : SocketAddr) : PeerKey :=
  mkPeerKey (Some (to_canonical (sock_ip address))).

Definition is_local (k : PeerKey) : bool :=
  match peer_ip k with
  | None => true
  | Some ip => is_loopback ip
  end.

(** [parse_ip] stands for [value.trim().parse::<IpAddr>().ok()]. *)
Definition resolve {T} (parse_ip : T → option IpAddr)
    (socket : option SocketAddr) (cf_connecting_ip : option T) (trust : bool)
    : PeerKey :=
  let fallback :=
    match socket with
    | Some address => from_socket address
    | None => PeerKey_default
    end in
  if trust && match socket with Some a => is_loopback (sock_ip a) | None => false end
  then match cf_connecting_ip ≫= parse_ip with
       | Some ip => mkPeerKey (Some (to_canonical ip))
       | None => fallback
       end
  else fallback.

(** ** Bands *)

Record BandLimits := mkLimits { prompt_tokens : u32; output_tokens : u32 }.

Definition for_context (n_ctx : u32) : BandLimits :=
  mkLimits (clamp (n_ctx / 8) 512 1024) (clamp (n_ctx / 32) 128 256).

Definition BandLimits_default : BandLimits := mkLimits 1024 256.

Inductive Band := Interactive | Bulk.

#[export] Instance Band_eq_dec : EqDecision Band.
Proof. solve_decision. Defined.

Definition Band_default : Band := Bulk.

Definition classify (prompt : u32) (requested_max_tokens : option u32)
    (limits : BandLimits) : Band :=
  if prompt_tokens limits <? prompt then Bulk
  else match requested_max_tokens with
       | Some budget => if output_tokens limits <? budget then Bulk else Interactive
       | None => Interactive
       end.

Definition band_as_str (b : Band) : string :=
  match b with Interactive => "interactive" | Bulk => "bulk" end.

Definition tier (b : Band) : Z := match b with Interactive => 1 | Bulk => 2 end.

Record SchedulerConfig := mkConfig {
  interactive : BandLimits;
  starvation_ceiling : Duration }.

Definition SchedulerConfig_default : SchedulerConfig :=
  mkConfig BandLimits_default (from_secs 60).

(** ** The state *)

Record Counters := mkCounters {
  admitted_immediately : u64;
  queued : u64;
  timed_out : u64;
  abandoned : u64;
  overtakes : u64;
  wait_ms_total : u64;
  wait_ms_max : u64 }.

Definition Counters_default : Counters := mkCounters 0 0 0 0 0 0 0.

Record Waiter := mkWaiter {
  w_id : u64;
  w_band : Band;
  w_peer : PeerKey;
  w_round : u32;
  w_enqueued : Instant }.

#[export] Instance Waiter_eq_dec : EqDecision Waiter.
Proof. solve_decision. Defined.

Record Running := mkRunning {
  r_id : u64;
  r_band : Band;
  r_started : Instant;
  r_id_and_model : option (string * string);
  r_prompt_tokens : u32 }.

Record Inner := mkInner {
  running : list Running;
  waiting : list Waiter;
  next_id : u64;
  paused : bool }.

Inductive Withdrawal := TimedOut | Abandoned.

(** A live [Ticket]; [t_granted] is the content of its [oneshot::Receiver]. *)
Record Ticket := mkTicket {
  t_band : Band;
  t_enqueued : Instant;
  t_granted : option u64;
  t_taken : bool;
  t_withdrawal : Withdrawal }.

Record Scheduler := mkScheduler {
  capacity : usize;
  config : SchedulerConfig;
  interactive_prompt_tokens : u32;
  interactive_output_tokens : u32;
  inner : Inner;
  counters : Counters;
  drained : Z;               (** calls of [drained.notify_waiters()] *)
  tickets : gmap Z Ticket }.

Definition new (cap : u32) (cfg : SchedulerConfig) : Scheduler :=
  mkScheduler (Z.max cap 1) cfg
    (prompt_tokens (interactive cfg)) (output_tokens (interactive cfg))
    (mkInner [] [] 0 false) Counters_default 0 ∅.

Definition band_limits (s : Scheduler) : BandLimits :=
  mkLimits (interactive_prompt_tokens s) (interactive_output_tokens s).

Definition with_inner (s : Scheduler) (i : Inner) : Scheduler :=
  mkScheduler (capacity s) (config s) (interactive_prompt_tokens s)
    (interactive_output_tokens s) i (counters s) (drained s) (tickets s).
Definition with_counters (s : Scheduler) (c : Counters) : Scheduler :=
  mkScheduler (capacity s) (config s) (interactive_prompt_tokens s)
    (interactive_output_tokens s) (inner s) c (drained s) (tickets s).
Definition with_tickets (s : Scheduler) (t : gmap Z Ticket) : Scheduler :=
  mkScheduler (capacity s) (config s) (interactive_prompt_tokens s)
    (interactive_output_tokens s) (inner s) (counters s) (drained s) t.
Definition with_running (s : Scheduler) (r : list Running) : Scheduler :=
  with_inner s (mkInner r (waiting (inner s)) (next_id (inner s)) (paused (inner s))).
Definition with_waiting (s : Scheduler) (w : list Waiter) : Scheduler :=
  with_inner s (mkInner (running (inner s)) w (next_id (inner s)) (paused (inner s))).
Definition with_paused (s : Scheduler) (p : bool) : Scheduler :=
  with_inner s (mkInner (running (inner s)) (waiting (inner s)) (next_id (inner s)) p).

(** The single-counter updates of the source's [fetch_add(1, Relaxed)]s. *)
Definition count_admitted (c : Counters) : Counters :=
  mkCounters (admitted_immediately c + 1) (queued c) (timed_out c) (abandoned c)
    (overtakes c) (wait_ms_total c) (wait_ms_max c).
Definition count_queued (c : Counters) : Counters :=
  mkCounters (admitted_immediately c) (queued c + 1) (timed_out c) (abandoned c)
    (overtakes c) (wait_ms_total c) (wait_ms_max c).
Definition count_withdrawal (r : Withdrawal) (c : Counters) : Counters :=
  match r with
  | TimedOut =>
      mkCounters (admitted_immediately c) (queued c) (timed_out c + 1) (abandoned c)
        (overtakes c) (wait_ms_total c) (wait_ms_max c)
  | Abandoned =>
      mkCounters (admitted_immediately c) (queued c) (timed_out c) (abandoned c + 1)
        (overtakes c) (wait_ms_total c) (wait_ms_max c)
  end.
Definition count_taken (overtaken waited : Z) (c : Counters) : Counters :=
  mkCounters (admitted_immediately c) (queued c) (timed_out c) (abandoned c)
    (overtakes c + overtaken) (wait_ms_total c + waited) (Z.max (wait_ms_max c) waited).

(** ** Who runs next *)

Definition Rank : Type := Z * Z * Z.

Definition rank (w : Waiter) (now : Instant) (ceiling : Duration) : Rank :=
  let aged_out := ceiling <=? saturating_duration_since now (w_enqueued w) in
  let tier := if aged_out then 0 else tier (w_band w) in
  let round := if aged_out then 0 else w_round w in
  (tier, round, w_enqueued w).

(** The derived [Ord] on the tuple: lexicographic. *)
Definition rank_lt (a b : Rank) : bool :=
  let '(a1, a2, a3) := a in
  let '(b1, b2, b3) := b in
  (a1 <? b1) || ((a1 =? b1) && ((a2 <? b2) || ((a2 =? b2) && (a3 <? b3)))).

Definition before (now : Instant) (ceiling : Duration) (v w : Waiter) : bool :=
  rank_lt (rank v now ceiling) (rank w now ceiling).

Definition take_next (s : Scheduler) (now : Instant) : option (Waiter * Scheduler) :=
  let ceiling := starvation_ceiling (config s) in
  let q := waiting (inner s) in
  match min_by (before now ceiling) q with
  | None => None
  | Some (index, w) =>
      let chosen_at := w_enqueued w in
      let overtaken := count_if (fun v => w_enqueued v <? chosen_at) q in
      let waited := as_millis (saturating_duration_since now chosen_at) in
      Some (w, with_counters (with_waiting s (delete index q))
                 (count_taken (Z.of_nat overtaken) waited (counters s)))
  end.

(** ** Taking a slot *)

Definition reserve_running (s : Scheduler) (band : Band) (now : Instant)
    : u64 * Scheduler :=
  let id := next_id (inner s) + 1 in
  (id, with_inner s
         (mkInner (running (inner s) ++ [mkRunning id band now None 0])
            (waiting (inner s)) id (paused (inner s)))).

(** Also [start_running]: the permit is the slot's id. *)
Definition take_free_slot (s : Scheduler) (band : Band) (now : Instant)
    : option (u64 * Scheduler) :=
  if negb (paused (inner s))
     && (Z.of_nat (length (running (inner s))) <? capacity s)
     && (match waiting (inner s) with [] => true | _ => false end)
  then Some (reserve_running (with_counters s (count_admitted (counters s))) band now)
  else None.

Definition push_waiter (s : Scheduler) (band : Band) (peer : PeerKey) (now : Instant)
    : u64 * Scheduler :=
  let id := next_id (inner s) + 1 in
  let round := count_if (fun w => bool_decide (w_peer w = peer)) (waiting (inner s)) in
  let w := mkWaiter id band peer (Z.of_nat round) now in
  let i := mkInner (running (inner s)) (waiting (inner s) ++ [w]) id (paused (inner s)) in
  let s1 := with_counters (with_inner s i) (count_queued (counters s)) in
  (id, with_tickets s1 (<[id := mkTicket band now None false Abandoned]> (tickets s))).

Definition try_admit (s : Scheduler) (now : Instant) : option (u64 * Scheduler) :=
  take_free_slot s Band_default now.

Definition admit_or_enqueue (s : Scheduler) (band : Band) (peer : PeerKey)
    (now : Instant) : (u64 + u64) * Scheduler :=
  match take_free_slot s band now with
  | Some (slot, s') => (inl slot, s')
  | None => let '(id, s') := push_waiter s band peer now in (inr id, s')
  end.

Definition enqueue (s : Scheduler) (band : Band) (peer : PeerKey) (now : Instant)
    : u64 * Scheduler :=
  push_waiter s band peer now.

(** ** Giving slots away *)

Definition is_slot (id : u64) (r : Running) : bool := r_id r =? id.

Definition hand_over (s : Scheduler) (w : Waiter) (now : Instant) : bool * Scheduler :=
  let '(id, s1) := reserve_running s (w_band w) now in
  match tickets s1 !! w_id w with
  | Some t =>
      (true, with_tickets s1
               (<[w_id w := mkTicket (t_band t) (t_enqueued t) (Some id) (t_taken t)
                              (t_withdrawal t)]> (tickets s1)))
  | None =>
      let s2 := with_running s1 (remove_first (is_slot id) (running (inner s1))) in
      (false, with_counters s2 (count_withdrawal Abandoned (counters s2)))
  end.

(** [release]'s [while let]: hand the freed slot to the next waiter that takes
    it.  Each turn removes a waiter, so [length waiting] turns are enough. *)
Fixpoint grant_one (fuel : nat) (s : Scheduler) (now : Instant) : Scheduler :=
  match fuel with
  | O => s
  | S fuel =>
      match take_next s now with
      | None => s
      | Some (w, s1) =>
          let '(took, s2) := hand_over s1 w now in
          if took then s2 else grant_one fuel s2 now
      end
  end.

(** The [while inner.running.len() < capacity] loop of [set_capacity] and
    [resume]. *)
Fixpoint grant_free (fuel : nat) (cap : usize) (s : Scheduler) (now : Instant)
    : Scheduler :=
  match fuel with
  | O => s
  | S fuel =>
      if Z.of_nat (length (running (inner s))) <? cap
      then match take_next s now with
           | None => s
           | Some (w, s1) => grant_free fuel cap (snd (hand_over s1 w now)) now
           end
      else s
  end.

Definition release (s : Scheduler) (id : u64) (now : Instant) : Scheduler :=
  let s1 := with_running s (remove_first (is_slot id) (running (inner s))) in
  let s2 :=
    match running (inner s1) with
    | [] => mkScheduler (capacity s1) (config s1) (interactive_prompt_tokens s1)
              (interactive_output_tokens s1) (inner s1) (counters s1) (drained s1 + 1)
              (tickets s1)
    | _ => s1
    end in
  if paused (inner s2) then s2
  else grant_one (length (waiting (inner s2))) s2 now.

(** [set_capacity]: the atomic store, then the critical section, which uses
    the local [capacity] it computed. *)
Definition set_capacity_store (s : Scheduler) (cap : u32) : Scheduler :=
  mkScheduler (Z.max cap 1) (config s) (interactive_prompt_tokens s)
    (interactive_output_tokens s) (inner s) (counters s) (drained s) (tickets s).

Definition set_capacity_grant (s : Scheduler) (cap : u32) (now : Instant) : Scheduler :=
  if paused (inner s) then s
  else grant_free (length (waiting (inner s))) (Z.max cap 1) s now.

Definition set_capacity (s : Scheduler) (cap : u32) (now : Instant) : Scheduler :=
  set_capacity_grant (set_capacity_store s cap) cap now.

Definition set_band_limits (s : Scheduler) (l : BandLimits) : Scheduler :=
  mkScheduler (capacity s) (config s) (prompt_tokens l) (output_tokens l)
    (inner s) (counters s) (drained s) (tickets s).

Definition pause (s : Scheduler) : Scheduler := with_paused s true.

Definition resume (s : Scheduler) (now : Instant) : Scheduler :=
  let s1 := with_paused s false in
  grant_free (length (waiting (inner s1))) (capacity s1) s1 now.

(** What [drain] tests each time it holds the lock. *)
Definition is_drained (s : Scheduler) : bool :=
  match running (inner s) with [] => true | _ => false end.

(** ** Tickets and permits *)

Definition is_waiter (id : u64) (w : Waiter) : bool := w_id w =? id.

Definition withdraw (s : Scheduler) (id : u64) (reason : Withdrawal)
    : bool * Scheduler :=
  match position_of (is_waiter id) (waiting (inner s)) with
  | Some index =>
      let s1 := with_waiting s (delete index (waiting (inner s))) in
      (true, with_counters s1 (count_withdrawal reason (counters s1)))
  | None => (false, s)
  end.

(** [Ticket::timed_out]. *)
Definition ticket_timed_out (s : Scheduler) (id : u64) : Scheduler :=
  match tickets s !! id with
  | Some t => with_tickets s (<[id := mkTicket (t_band t) (t_enqueued t) (t_granted t)
                                        (t_taken t) TimedOut]> (tickets s))
  | None => s
  end.

(** [Ticket::granted], once the channel holds a slot: the permit's slot. *)
Definition ticket_granted (s : Scheduler) (id : u64) : option (u64 * Scheduler) :=
  match tickets s !! id with
  | Some t =>
      match t_granted t with
      | Some slot =>
          if t_taken t then None
          else Some (slot, with_tickets s
                 (<[id := mkTicket (t_band t) (t_enqueued t) (t_granted t) true
                            (t_withdrawal t)]> (tickets s)))
      | None => None
      end
  | None => None
  end.

(** [Drop for Ticket] up to its [release]: the slot it still has to give
    back, if any.  The receiver goes with the ticket. *)
Definition drop_ticket_begin (s : Scheduler) (id : u64) : option u64 * Scheduler :=
  match tickets s !! id with
  | None => (None, s)
  | Some t =>
      let gone s := with_tickets s (delete id (tickets s)) in
      if t_taken t then (None, gone s)
      else let '(was_waiting, s1) := withdraw s id (t_withdrawal t) in
           if was_waiting then (None, gone s1) else (t_granted t, gone s1)
  end.

Definition drop_ticket (s : Scheduler) (id : u64) (now : Instant) : Scheduler :=
  match drop_ticket_begin s id with
  | (Some slot, s1) => release s1 slot now
  | (None, s1) => s1
  end.

(** [Ticket::position]. *)
Definition position (s : Scheduler) (id : u64) (now : Instant) : option u32 :=
  let q := waiting (inner s) in
  let ceiling := starvation_ceiling (config s) in
  match find_first (is_waiter id) q with
  | None => None
  | Some mine => Some (Z.of_nat (count_if (fun v => before now ceiling v mine) q))
  end.

(** [SlotPermit::describe] and [SlotPermit::in_band]. *)
Definition describe (s : Scheduler) (slot : u64) (id model : string) (tokens : u32)
    : Scheduler :=
  with_running s
    (update_first (is_slot slot)
       (fun r => mkRunning (r_id r) (r_band r) (r_started r) (Some (id, model)) tokens)
       (running (inner s))).

Definition in_band (s : Scheduler) (slot : u64) (band : Band) : Scheduler :=
  with_running s
    (update_first (is_slot slot)
       (fun r => mkRunning (r_id r) band (r_started r) (r_id_and_model r) (r_prompt_tokens r))
       (running (inner s))).

(** ** Views *)

Record QueueSnapshot := mkSnapshot {
  q_capacity : u32;
  q_running : u32;
  q_waiting : u32;
  q_waiting_interactive : u32;
  q_waiting_bulk : u32;
  q_counters : Counters }.

Definition snapshot (s : Scheduler) : QueueSnapshot :=
  let q := waiting (inner s) in
  let wi := count_if (fun w => bool_decide (w_band w = Interactive)) q in
  mkSnapshot (capacity s) (Z.of_nat (length (running (inner s)))) (Z.of_nat (length q))
    (Z.of_nat wi) (Z.of_nat (length q) - Z.of_nat wi) (counters s).

Record RunningRequest := mkRunningRequest {
  rr_id : option string;
  rr_model : option string;
  rr_band : string;
  rr_running_ms : u64;
  rr_prompt_tokens : u32 }.

Record WaitingRequest := mkWaitingRequest {
  wr_ticket : u64;
  wr_band : string;
  wr_waited_ms : u64;
  wr_position : u32 }.

Record Roster := mkRoster {
  ro_capacity : u32;
  ro_running : list RunningRequest;
  ro_waiting : list WaitingRequest }.

Definition roster (s : Scheduler) (now : Instant) : Roster :=
  let ceiling := starvation_ceiling (config s) in
  let q := waiting (inner s) in
  let entries :=
    map (fun w => mkWaitingRequest (w_id w) (band_as_str (w_band w))
                    (as_millis (saturating_duration_since now (w_enqueued w)))
                    (Z.of_nat (count_if (fun v => before now ceiling v w) q))) q in
  mkRoster (capacity s)
    (map (fun r => mkRunningRequest (fst <$> r_id_and_model r) (snd <$> r_id_and_model r)
                     (band_as_str (r_band r))
                     (as_millis (saturating_duration_since now (r_started r)))
                     (r_prompt_tokens r)) (running (inner s)))
    (sort_by (fun a b => wr_position a <? wr_position b) entries).
