(* ===== verification/SchedulerSystem.v ===== *)
(** * The scheduler at work

    The values that own a place in the queue of [Scheduler.v] and the events
    that move it: requests arriving, tickets claimed, timing out or dropped,
    permits and pause guards dropped, capacity and limits set by a model load.
    Each event is one critical section of the source; [exec] runs it, and
    [step] is the transition relation it generates.  The theorems are the
    module's own promises: no slot is lost or owned twice, nobody waits in
    front of an idle engine, the queue is fair between callers and nobody
    starves. *)

From stdpp Require Import base list gmap sets strings numbers relations sorting.
From S2P Require Import Prelude Scheduler.

(** ** The system *)

(** [permits] are the slots held by a live [SlotPermit], or by a [Ticket]
    whose drop has found a slot to give back and not released it yet;
    [guards] counts the live [PauseGuard]s; [pending] holds the capacities of
    the [set_capacity] calls between their store and their critical section. *)
Record World := mkWorld {
  sch : Scheduler;
  permits : gset Z;
  guards : nat;
  pending : list Z;
  clock : Instant }.

Definition init (cap : u32) (cfg : SchedulerConfig) : World :=
  mkWorld (new cap cfg) ∅ 0 [] 0.

Inductive Event :=
| EvTryAdmit
| EvAdmit (band : Band) (peer : PeerKey)
| EvClaim (ticket : u64)
| EvTimeout (ticket : u64)
| EvDropTicket (ticket : u64)
| EvDropPermit (slot : u64)
| EvPause
| EvDropGuard
| EvStoreCapacity (cap : u32)
| EvGrantCapacity (cap : u32)
| EvSetLimits (l : BandLimits)
| EvDescribe (slot : u64) (id model : string) (tokens : u32)
| EvInBand (slot : u64) (band : Band).

Definition opt_set (o : option Z) : gset Z :=
  match o with Some x => {[x]} | None => ∅ end.

(** One event at instant [now]; [None] when it cannot happen in this world
    (a ticket or permit that does not exist, a clock going backwards). *)
Definition exec (now : Instant) (e : Event) (w : World) : option World :=
  let 'mkWorld s P g p c := w in
  if now <? c then None else
  match e with
  | EvTryAdmit =>
      match try_admit s now with
      | Some (slot, s') => Some (mkWorld s' ({[slot]} ∪ P) g p now)
      | None => Some (mkWorld s P g p now)
      end
  | EvAdmit band peer =>
      match admit_or_enqueue s band peer now with
      | (inl slot, s') => Some (mkWorld s' ({[slot]} ∪ P) g p now)
      | (inr _, s') => Some (mkWorld s' P g p now)
      end
  | EvClaim id =>
      match ticket_granted s id with
      | Some (slot, s') => Some (mkWorld s' ({[slot]} ∪ P) g p now)
      | None => None
      end
  | EvTimeout id => Some (mkWorld (ticket_timed_out s id) P g p now)
  | EvDropTicket id =>
      let '(o, s') := drop_ticket_begin s id in Some (mkWorld s' (opt_set o ∪ P) g p now)
  | EvDropPermit slot =>
      if bool_decide (slot ∈ P)
      then Some (mkWorld (release s slot now) (P ∖ {[slot]}) g p now) else None
  | EvPause => Some (mkWorld (pause s) P (S g) p now)
  | EvDropGuard =>
      match g with
      | O => None
      | S g' => Some (mkWorld (resume s now) P g' p now)
      end
  | EvStoreCapacity cap =>
      Some (mkWorld (set_capacity_store s cap) P g (Z.max cap 1 :: p) now)
  | EvGrantCapacity cap =>
      if bool_decide (Z.max cap 1 ∈ p)
      then Some (mkWorld (set_capacity_grant s cap now) P g
                   (remove_first (Z.eqb (Z.max cap 1)) p) now)
      else None
  | EvSetLimits l => Some (mkWorld (set_band_limits s l) P g p now)
  | EvDescribe slot id model tokens =>
      if bool_decide (slot ∈ P)
      then Some (mkWorld (describe s slot id model tokens) P g p now) else None
  | EvInBand slot band =>
      if bool_decide (slot ∈ P)
      then Some (mkWorld (in_band s slot band) P g p now) else None
  end.

Inductive step : World → World → Prop :=
| step_exec now e w w' : exec now e w = Some w' → step w w'.

Definition reachable (cap : u32) (cfg : SchedulerConfig) (w : World) : Prop :=
  rtc step (init cap cfg) w.

(** A whole run, for witnesses. *)
Fixpoint exec_all (evs : list (Instant * Event)) (w : World) : option World :=
  match evs with
  | [] => Some w
  | (now, e) :: evs => let! w' := exec now e w in exec_all evs w'
  end.

(** ** The invariants *)

Definition rids (s : Scheduler) : list Z := r_id <$> running (inner s).
Definition wids (s : Scheduler) : list Z := w_id <$> waiting (inner s).

(** A slot that has been granted to a ticket nobody claimed yet. *)
Definition unclaimed (s : Scheduler) (slot id : Z) : Prop :=
  ∃ t, tickets s !! id = Some t ∧ t_granted t = Some slot ∧ t_taken t = false.

(** Every running entry has exactly one owner, and every live ticket without
    a grant is in the queue. *)
Record Owned (s : Scheduler) (P : gset Z) : Prop := {
  ow_run_nodup : NoDup (rids s);
  ow_run_le : ∀ x, x ∈ rids s → x ≤ next_id (inner s);
  ow_wait_nodup : NoDup (wids s);
  ow_ticket_le : ∀ id t, tickets s !! id = Some t → id ≤ next_id (inner s);
  ow_waiting : ∀ id, id ∈ wids s ↔ ∃ t, tickets s !! id = Some t ∧ t_granted t = None;
  ow_taken : ∀ id t, tickets s !! id = Some t → t_taken t = true → is_Some (t_granted t);
  ow_owner : ∀ slot, slot ∈ rids s ↔ slot ∈ P ∨ ∃ id, unclaimed s slot id;
  ow_unique : ∀ slot id1 id2, unclaimed s slot id1 → unclaimed s slot id2 → id1 = id2;
  ow_disjoint : ∀ slot id, unclaimed s slot id → slot ∉ P }.

(** The queue is in arrival order, and nobody arrived in the future. *)
Definition Ordered (q : list Waiter) (c : Instant) : Prop :=
  StronglySorted (λ v w, w_enqueued v ≤ w_enqueued w) q ∧
  ∀ w, w ∈ q → w_enqueued w ≤ c.

(** A caller has at most one waiting request whose turn is its first. *)
Definition OneFirst (q : list Waiter) : Prop :=
  ∀ v w, v ∈ q → w ∈ q → w_peer v = w_peer w → w_round v = 0 → w_round w = 0 → v = w.

(** Nobody waits in front of an idle slot, except between a [set_capacity]
    store and the critical section that follows it. *)
Definition Busy (w : World) : Prop :=
  paused (inner (sch w)) = true ∨ waiting (inner (sch w)) = [] ∨
  capacity (sch w) ≤ Z.of_nat (length (running (inner (sch w)))) ∨
  capacity (sch w) ∈ pending w.

(** ** The order *)

Lemma rank_lt_irrefl a : rank_lt a a = false.
Proof. destruct a as [[a1 a2] a3]. unfold rank_lt. lia. Qed.

Lemma rank_lt_trans a b c : rank_lt a b = true → rank_lt b c = true → rank_lt a c = true.
Proof. destruct a as [[] ?], b as [[] ?], c as [[] ?]. unfold rank_lt. lia. Qed.

Lemma rank_lt_cotrans a b c : rank_lt a c = true → rank_lt a b = true ∨ rank_lt b c = true.
Proof. destruct a as [[] ?], b as [[] ?], c as [[] ?]. unfold rank_lt. lia. Qed.

Section picking.
Context (now : Instant) (ceiling : Duration).

Lemma before_min q i w v :
  min_by (before now ceiling) q = Some (i, w) → v ∈ q → before now ceiling v w = false.
Proof.
  apply min_by_min; unfold before; intros; eauto using rank_lt_trans, rank_lt_irrefl,
    rank_lt_cotrans.
Qed.

(** An aged-out waiter ranks before everyone who arrived later. *)
Lemma aged_before v w :
  (ceiling <=? saturating_duration_since now (w_enqueued v)) = true →
  w_enqueued v ≤ w_enqueued w → before now ceiling w v = false.
Proof.
  unfold before, rank. intros Hv Hle. rewrite Hv. cbn.
  destruct (_ <=? saturating_duration_since now (w_enqueued w)); cbn; [lia|].
  destruct (w_band w); cbn; lia.
Qed.
End picking.

(** ** One grant *)

(** What [take_next] followed by a successful [hand_over] does to a state. *)
Record Granted (s s' : Scheduler) (i : nat) (w : Waiter) (now : Instant) : Prop := {
  gr_at : waiting (inner s) !! i = Some w;
  gr_first : ∀ v, v ∈ waiting (inner s) →
    before now (starvation_ceiling (config s)) v w = false;
  gr_earliest : ∀ j v, waiting (inner s) !! j = Some v → (j < i)%nat →
    before now (starvation_ceiling (config s)) w v = true;
  gr_running : running (inner s') =
    running (inner s) ++ [mkRunning (next_id (inner s) + 1) (w_band w) now None 0];
  gr_waiting : waiting (inner s') = delete i (waiting (inner s));
  gr_next_id : next_id (inner s') = next_id (inner s) + 1;
  gr_paused : paused (inner s') = paused (inner s);
  gr_capacity : capacity s' = capacity s;
  gr_config : config s' = config s;
  gr_tickets : ∃ t, tickets s !! w_id w = Some t ∧
    tickets s' = <[w_id w := mkTicket (t_band t) (t_enqueued t)
                     (Some (next_id (inner s) + 1)) (t_taken t) (t_withdrawal t)]>
                   (tickets s) }.

Lemma take_next_None s now : take_next s now = None ↔ waiting (inner s) = [].
Proof.
  unfold take_next. rewrite <-(min_by_None (before now (starvation_ceiling (config s)))).
  destruct (min_by _ _) as [[i w]|]; naive_solver.
Qed.

Lemma take_hand_over s now w s1 P :
  Owned s P → take_next s now = Some (w, s1) →
  ∃ i s2, hand_over s1 w now = (true, s2) ∧ Granted s s2 i w now.
Proof.
  intros HO. unfold take_next.
  destruct (min_by _ _) as [[i w']|] eqn:E; [|done]. intros [= <- <-].
  pose proof (min_by_lookup _ _ _ _ E) as Hi.
  destruct (proj1 (ow_waiting _ _ HO (w_id w'))) as (t & Ht & Hg).
  { apply list_elem_of_fmap_2. by eapply list_elem_of_lookup_2. }
  eexists i, _. unfold hand_over. simpl. rewrite Ht. split; [reflexivity|].
  constructor; simpl; eauto.
  - intros v Hv. by eapply before_min.
  - intros j v Hj Hlt. by eapply min_by_first.
Qed.

Lemma Granted_length s s' i w now :
  Granted s s' i w now →
  length (running (inner s')) = S (length (running (inner s))) ∧
  length (waiting (inner s)) = S (length (waiting (inner s'))).
Proof.
  intros []. rewrite gr_running0, gr_waiting0, length_app. simpl. split; [lia|].
  rewrite length_delete; [|done]. pose proof (lookup_lt_Some _ _ _ gr_at0). lia.
Qed.

(** ** The grant loops *)

Lemma grant_one_spec s now P :
  Owned s P →
  (waiting (inner s) = [] ∧ grant_one (length (waiting (inner s))) s now = s) ∨
  ∃ i w, Granted s (grant_one (length (waiting (inner s))) s now) i w now.
Proof.
  intros HO. destruct (waiting (inner s)) as [|w0 q] eqn:Hq; [by left|right]. simpl.
  destruct (take_next s now) as [[w s1]|] eqn:Ht.
  - destruct (take_hand_over _ _ _ _ _ HO Ht) as (i & s2 & Hh & HG).
    rewrite Hh. eauto.
  - apply take_next_None in Ht. congruence.
Qed.

(** Whatever a grant keeps, the capacity loops keep; and they only stop when
    the queue is empty or the slots are used up. *)
Lemma grant_free_ind (Q : Scheduler → Prop) P now cap :
  (∀ s s' i w, Owned s P → Q s → Z.of_nat (length (running (inner s))) < cap →
     Granted s s' i w now → Owned s' P ∧ Q s') →
  ∀ fuel s, Owned s P → Q s → (length (waiting (inner s)) ≤ fuel)%nat →
  let s' := grant_free fuel cap s now in
  Owned s' P ∧ Q s' ∧
  (waiting (inner s') = [] ∨ cap ≤ Z.of_nat (length (running (inner s')))).
Proof.
  intros HQ. induction fuel as [|fuel IH]; intros s HO HQs Hlen; simpl.
  { split_and!; try done. left. by apply nil_length_inv; lia. }
  destruct (Z.ltb_spec (Z.of_nat (length (running (inner s)))) cap) as [Hlt|Hge]; last first.
  { auto. }
  destruct (take_next s now) as [[w s1]|] eqn:Ht; last first.
  { apply take_next_None in Ht. auto. }
  destruct (take_hand_over _ _ _ _ _ HO Ht) as (i & s2 & Hh & HG). rewrite Hh. simpl.
  destruct (HQ s s2 i w HO HQs Hlt HG) as [HO2 HQ2].
  apply IH; try done. destruct (Granted_length _ _ _ _ _ HG). lia.
Qed.

(** ** Ownership is preserved *)

Lemma rids_Granted s s' i w now :
  Granted s s' i w now → rids s' = rids s ++ [next_id (inner s) + 1].
Proof. intros HG. unfold rids. by rewrite (gr_running _ _ _ _ _ HG), fmap_app. Qed.

Lemma wids_Granted s s' i w now :
  Granted s s' i w now → wids s' = delete i (wids s).
Proof. intros HG. unfold wids. by rewrite (gr_waiting _ _ _ _ _ HG), list_fmap_delete. Qed.

(** In a list without duplicates, deleting an index deletes that element. *)
Lemma elem_of_delete_nodup {A} (l : list A) i x y :
  NoDup l → l !! i = Some x → y ∈ delete i l ↔ y ∈ l ∧ y ≠ x.
Proof.
  intros Hl Hi. rewrite (delete_take_drop l i).
  rewrite <-(take_drop_middle l i x Hi) in Hl |- * at 3.
  apply NoDup_app in Hl as (H1 & H2 & [H3 H4]%NoDup_cons).
  rewrite !elem_of_app, elem_of_cons. set_solver.
Qed.

Lemma unclaimed_insert s s' slot id id' t :
  tickets s' = <[id := t]> (tickets s) →
  unclaimed s' slot id' ↔
  (id' = id ∧ t_granted t = Some slot ∧ t_taken t = false) ∨ (id' ≠ id ∧ unclaimed s slot id').
Proof.
  intros Ht. unfold unclaimed. rewrite Ht. destruct (decide (id' = id)) as [->|Hne].
  - rewrite lookup_insert_eq. naive_solver.
  - rewrite lookup_insert_ne by done. naive_solver.
Qed.

Lemma Owned_Granted s s' i w now P :
  Owned s P → Granted s s' i w now → Owned s' P.
Proof.
  intros HO HG. pose proof HG as [Hi _ _ _ _ Hn _ _ _ (t & Ht & Hts)].
  assert (Hw : wids s !! i = Some (w_id w)).
  { unfold wids. by rewrite list_lookup_fmap, Hi. }
  assert (Hg : t_granted t = None).
  { destruct (proj1 (ow_waiting _ _ HO (w_id w))) as (t' & Ht' & ?); [|congruence].
    by eapply list_elem_of_lookup_2. }
  assert (Htk : t_taken t = false).
  { destruct (t_taken t) eqn:E; [|done]. destruct (ow_taken _ _ HO _ _ Ht E). congruence. }
  assert (Hfresh : next_id (inner s) + 1 ∉ rids s).
  { intros Hin%(ow_run_le _ _ HO). lia. }
  pose proof (ow_owner _ _ HO) as Hown.
  assert (Hun : ∀ slot id, unclaimed s' slot id ↔
     (id = w_id w ∧ slot = next_id (inner s) + 1) ∨ unclaimed s slot id).
  { intros slot id. rewrite (unclaimed_insert _ _ _ _ _ _ Hts). simpl.
    split; [naive_solver|]. intros [[-> ->]|Hu]; [by left|].
    destruct (decide (id = w_id w)) as [->|]; [|by right].
    destruct Hu as (t' & ? & ? & ?). congruence. }
  constructor; rewrite ?(rids_Granted _ _ _ _ _ HG), ?(wids_Granted _ _ _ _ _ HG), ?Hn.
  - rewrite NoDup_app. split_and!;
      [by destruct HO|by intros y Hy ->%list_elem_of_singleton|apply NoDup_singleton].
  - intros x [Hx%(ow_run_le _ _ HO) | ->%list_elem_of_singleton]%elem_of_app; lia.
  - eapply sublist_NoDup; [apply (ow_wait_nodup _ _ HO)|apply sublist_delete].
  - intros id t'. rewrite Hts. destruct (decide (id = w_id w)) as [->|?].
    + intros _. pose proof (ow_ticket_le _ _ HO _ _ Ht). lia.
    + rewrite lookup_insert_ne by done. intros Hl%(ow_ticket_le _ _ HO). lia.
  - intros id. rewrite (elem_of_delete_nodup _ _ _ _ (ow_wait_nodup _ _ HO) Hw).
    rewrite (ow_waiting _ _ HO), Hts. destruct (decide (id = w_id w)) as [->|?].
    + rewrite lookup_insert_eq. naive_solver.
    + rewrite lookup_insert_ne by done. naive_solver.
  - intros id t'. rewrite Hts, lookup_insert. case_decide; simplify_eq.
    + intros [= <-]. simpl. eauto.
    + apply (ow_taken _ _ HO).
  - intros slot. setoid_rewrite Hun. rewrite elem_of_app, Hown, list_elem_of_singleton.
    naive_solver.
  - intros slot id1 id2. rewrite !Hun. intros [[-> ->]|H1] [[-> ?]|H2]; try done.
    + exfalso. apply Hfresh, Hown. eauto.
    + exfalso. apply Hfresh, Hown. subst. eauto.
    + by eapply (ow_unique _ _ HO).
  - intros slot id. rewrite Hun. intros [[-> ->]|H1].
    + intros Hin. apply Hfresh, Hown. auto.
    + by apply (ow_disjoint _ _ HO slot id).
Qed.

Lemma Owned_new cap cfg : Owned (new cap cfg) ∅.
Proof.
  assert (∀ slot id, ¬ unclaimed (new cap cfg) slot id).
  { intros slot id (t & Ht & _). simpl in Ht. by rewrite lookup_empty in Ht. }
  constructor; unfold rids, wids; simpl; try done; try apply NoDup_nil_2; try set_solver.
  all: intros *; rewrite ?lookup_empty; naive_solver.
Qed.

(** Ownership reads only these parts of the state. *)
Lemma Owned_ext s s' P :
  rids s' = rids s → wids s' = wids s → next_id (inner s') = next_id (inner s) →
  tickets s' = tickets s → Owned s P → Owned s' P.
Proof.
  intros Hr Hw Hn Ht HO.
  constructor; unfold unclaimed; rewrite ?Hr, ?Hw, ?Hn, ?Ht; by destruct HO.
Qed.

Lemma Owned_reserve s s' slot P band now :
  reserve_running s band now = (slot, s') → Owned s P → Owned s' ({[slot]} ∪ P).
Proof.
  unfold reserve_running. intros [= <- <-] HO.
  assert (Hfresh : next_id (inner s) + 1 ∉ rids s).
  { intros Hin%(ow_run_le _ _ HO). lia. }
  pose proof (ow_owner _ _ HO) as Hown.
  constructor; unfold unclaimed, rids, wids; simpl; rewrite ?fmap_app; simpl;
    fold (rids s); fold (wids s).
  - rewrite NoDup_app. split_and!;
      [by destruct HO|by intros y Hy ->%list_elem_of_singleton|apply NoDup_singleton].
  - intros x [Hx%(ow_run_le _ _ HO) | ->%list_elem_of_singleton]%elem_of_app; lia.
  - by destruct HO.
  - intros id t Hl%(ow_ticket_le _ _ HO). lia.
  - by destruct HO.
  - by destruct HO.
  - intros x. rewrite elem_of_app, Hown, list_elem_of_singleton. rewrite elem_of_union, elem_of_singleton; clear; tauto.
  - by destruct HO.
  - intros x id Hu. rewrite elem_of_union, elem_of_singleton.
    intros [->|Hin]; [apply Hfresh, Hown; right; eauto|]. by eapply (ow_disjoint _ _ HO).
Qed.

Lemma Owned_push s s' id P band peer now :
  push_waiter s band peer now = (id, s') → Owned s P → Owned s' P.
Proof.
  unfold push_waiter. intros [= <- <-] HO.
  set (id := next_id (inner s) + 1).
  assert (Hnone : tickets s !! id = None).
  { destruct (tickets s !! id) eqn:E; [|done]. apply (ow_ticket_le _ _ HO) in E. lia. }
  assert (Hw : id ∉ wids s).
  { rewrite (ow_waiting _ _ HO). intros (t & Ht & _). congruence. }
  match goal with |- Owned ?s' _ => assert (Hun : ∀ x i, unclaimed s' x i ↔ unclaimed s x i) end.
  { intros x i. rewrite (unclaimed_insert s _ _ id i) by reflexivity. simpl.
    split; [naive_solver|]. intros Hu. right. split; [|done].
    intros ->. destruct Hu as (t & Ht & _). congruence. }
  constructor; try setoid_rewrite Hun; unfold rids, wids; simpl; rewrite ?fmap_app; simpl;
    fold (rids s); fold (wids s); fold id.
  - by destruct HO.
  - intros x Hx%(ow_run_le _ _ HO). lia.
  - rewrite NoDup_app. split_and!;
      [by destruct HO|by intros y Hy ->%list_elem_of_singleton|apply NoDup_singleton].
  - intros i t. rewrite lookup_insert. case_decide; subst; [lia|].
    intros Hl%(ow_ticket_le _ _ HO). lia.
  - intros i. rewrite elem_of_app, (ow_waiting _ _ HO), list_elem_of_singleton, lookup_insert.
    case_decide; subst; naive_solver.
  - intros i t. rewrite lookup_insert. case_decide; [naive_solver|]. apply HO.
  - by destruct HO.
  - by destruct HO.
  - by destruct HO.
Qed.

Lemma is_slot_iff slot r : is_slot slot r = true ↔ r_id r = slot.
Proof. unfold is_slot. lia. Qed.

Lemma is_waiter_iff id w : is_waiter id w = true ↔ w_id w = id.
Proof. unfold is_waiter. lia. Qed.

(** Removing a running entry whose permit is being dropped. *)
Lemma Owned_remove s slot P :
  slot ∈ P → Owned s P →
  Owned (with_running s (remove_first (is_slot slot) (running (inner s)))) (P ∖ {[slot]}).
Proof.
  intros Hin HO.
  assert (Hr : ∀ x, x ∈ rids (with_running s (remove_first (is_slot slot) (running (inner s))))
            ↔ x ∈ rids s ∧ x ≠ slot).
  { intros x. unfold rids. simpl. apply elem_of_remove_first_key;
      [apply is_slot_iff|apply (ow_run_nodup _ _ HO)]. }
  assert (Hne : ∀ x id, unclaimed s x id → x ≠ slot).
  { intros x id Hu ->. by apply (ow_disjoint _ _ HO) in Hu. }
  pose proof (ow_owner _ _ HO) as Hown.
  constructor; unfold wids, unclaimed; simpl; fold (wids s); try (by destruct HO).
  - eapply sublist_NoDup; [apply (ow_run_nodup _ _ HO)|].
    apply fmap_sublist, remove_first_sublist.
  - intros x [Hx _]%Hr. by apply (ow_run_le _ _ HO).
  - intros x. rewrite Hr, Hown, elem_of_difference, elem_of_singleton. split.
    + intros [[?|[id ?]] ?]; eauto.
    + intros [[? ?]|[id Hu]]; [by eauto|]. split; [by eauto|]. by eapply Hne.
  - intros x id Hu. rewrite elem_of_difference. intros [Hx _].
    by eapply (ow_disjoint _ _ HO).
Qed.

(** The state a freed slot leaves, before it is given away. *)
Record Freed (s s2 : Scheduler) : Prop := {
  fr_waiting : waiting (inner s2) = waiting (inner s);
  fr_config : config s2 = config s;
  fr_capacity : capacity s2 = capacity s;
  fr_paused : paused (inner s2) = paused (inner s);
  fr_next_id : next_id (inner s2) = next_id (inner s);
  fr_length : S (length (running (inner s2))) = length (running (inner s)) }.

(** [release] frees one slot, and then gives it to at most one waiter: to
    nobody exactly when the scheduler is paused or nobody waits. *)
Lemma release_cases s slot now P :
  slot ∈ P → Owned s P →
  ∃ s2, Freed s s2 ∧ Owned s2 (P ∖ {[slot]}) ∧
    ((release s slot now = s2 ∧ (paused (inner s) = true ∨ waiting (inner s) = [])) ∨
     (paused (inner s) = false ∧ ∃ i w, Granted s2 (release s slot now) i w now)).
Proof.
  intros Hin HO. pose proof (Owned_remove _ _ _ Hin HO) as HO1. unfold release.
  set (s1 := with_running s _) in *.
  set (s2 := match running (inner s1) with [] => _ | _ => _ end).
  assert (HO2 : Owned s2 (P ∖ {[slot]})).
  { unfold s2. case_match; [|done]. by apply (Owned_ext s1). }
  assert (HF : Freed s s2).
  { assert (slot ∈ rids s) as (r & Hr & Hrin)%list_elem_of_fmap.
    { apply (ow_owner _ _ HO). auto. }
    assert (running (inner s2) = running (inner s1)) as Hr2 by (unfold s2; by case_match).
    constructor; try (unfold s2; by case_match). rewrite Hr2.
    eapply length_remove_first; [exact Hrin|]. by apply is_slot_iff. }
  clearbody s2. exists s2. split_and!; [done..|]. rewrite (fr_paused _ _ HF).
  destruct (paused (inner s)) eqn:E; [by left; auto|].
  destruct (grant_one_spec s2 now _ HO2) as [[He ->]|HG]; [|by right].
  left. split; [done|]. right. by rewrite <-(fr_waiting _ _ HF).
Qed.

Lemma Owned_release s slot P now :
  slot ∈ P → Owned s P → Owned (release s slot now) (P ∖ {[slot]}).
Proof.
  intros Hin HO.
  destruct (release_cases s slot now P Hin HO) as (s2 & _ & HO2 & [[-> _]|(_ & i & w & HG)]);
    [done|by eapply Owned_Granted].
Qed.

Lemma Owned_grant_free s now cap P :
  Owned s P → Owned (grant_free (length (waiting (inner s))) cap s now) P.
Proof.
  intros HO. eapply (grant_free_ind (λ _, True)); eauto.
  intros * HOs _ _ HG. split; [|done]. by eapply Owned_Granted.
Qed.

Lemma withdraw_spec s id reason b s' :
  withdraw s id reason = (b, s') →
  running (inner s') = running (inner s) ∧ next_id (inner s') = next_id (inner s) ∧
  paused (inner s') = paused (inner s) ∧ tickets s' = tickets s ∧
  capacity s' = capacity s ∧ config s' = config s ∧
  if b then (∃ i w, waiting (inner s) !! i = Some w ∧ w_id w = id ∧
                   waiting (inner s') = delete i (waiting (inner s)))
  else (id ∉ wids s) ∧ s' = s.
Proof.
  unfold withdraw. destruct (position_of _ _) as [i|] eqn:E.
  - apply position_of_Some in E as (w & Hi & Hw%is_waiter_iff).
    intros [= <- <-]. simpl. split_and!; eauto.
  - rewrite position_of_None in E. intros [= <- <-]. split_and!; try done.
    intros (w & -> & Hin)%list_elem_of_fmap. specialize (E w Hin).
    unfold is_waiter in E. lia.
Qed.

(** What dropping a ticket does: it leaves the queue, or its unclaimed slot is
    handed to the release that follows. *)
Lemma drop_ticket_begin_spec s id o s' P :
  Owned s P → drop_ticket_begin s id = (o, s') →
  running (inner s') = running (inner s) ∧ next_id (inner s') = next_id (inner s) ∧
  paused (inner s') = paused (inner s) ∧ tickets s' = delete id (tickets s) ∧
  capacity s' = capacity s ∧ config s' = config s ∧
  (∀ slot, o = Some slot ↔ unclaimed s slot id) ∧
  ((waiting (inner s') = waiting (inner s) ∧ id ∉ wids s) ∨
   ∃ i w, waiting (inner s) !! i = Some w ∧ w_id w = id ∧
          waiting (inner s') = delete i (waiting (inner s))).
Proof.
  intros HO. unfold drop_ticket_begin, unclaimed.
  destruct (tickets s !! id) as [t|] eqn:Ht; last first.
  { intros [= <- <-]. rewrite delete_id by done. split_and!; try done.
    - intros slot. split; [done|]. by intros (t' & ? & _).
    - left. split; [done|]. rewrite (ow_waiting _ _ HO). intros (t' & ? & _). congruence. }
  destruct (t_taken t) eqn:Htk.
  { intros [= <- <-]. simpl. split_and!; try done.
    - intros slot. split; [done|]. intros (t' & [= <-] & _ & ?). congruence.
    - left. split; [done|]. rewrite (ow_waiting _ _ HO). intros (t' & ? & ?).
      destruct (ow_taken _ _ HO id t Ht Htk). simplify_eq. }
  destruct (withdraw s id (t_withdrawal t)) as [b s1] eqn:Hw.
  apply withdraw_spec in Hw as (? & ? & ? & Hts & ? & ? & Hb). destruct b.
  - intros [= <- <-]. simpl. rewrite Hts.
    destruct Hb as (i & w & Hi & Hid & Hdel).
    assert (id ∈ wids s) as Hin.
    { rewrite <-Hid. apply list_elem_of_fmap_2. by eapply list_elem_of_lookup_2. }
    apply (ow_waiting _ _ HO) in Hin as (t' & ? & ?).
    split_and!; try done; [|right; by eauto].
    intros slot. split; [done|]. intros (t2 & [= <-] & ? & ?). congruence.
  - destruct Hb as [Hnin ->]. intros [= <- <-]. simpl.
    split_and!; try done; [|by left].
    intros slot. split; [by eauto|]. by intros (t' & [= <-] & ? & _).
Qed.

Lemma Owned_drop_ticket s id o s' P :
  drop_ticket_begin s id = (o, s') → Owned s P → Owned s' (opt_set o ∪ P).
Proof.
  intros Hd HO. pose proof (drop_ticket_begin_spec _ _ _ _ _ HO Hd)
    as (Hr & Hn & _ & Hts & _ & _ & Ho & Hw).
  assert (Hun : ∀ x i, unclaimed s' x i ↔ i ≠ id ∧ unclaimed s x i).
  { intros x i. unfold unclaimed. rewrite Hts, lookup_delete. case_decide; naive_solver. }
  assert (Hset : ∀ x, x ∈ opt_set o ↔ unclaimed s x id).
  { intros x. rewrite <-Ho. destruct o; simpl; set_solver. }
  assert (Hwids : ∀ x, x ∈ wids s' ↔ x ∈ wids s ∧ x ≠ id).
  { intros x. destruct Hw as [[Hq Hnin]|(i & w & Hi & <- & Hq)]; unfold wids.
    - rewrite Hq. fold (wids s). split; [|tauto]. intros Hx. split; [done|]. by intros ->.
    - rewrite Hq, list_fmap_delete. apply elem_of_delete_nodup; [apply (ow_wait_nodup _ _ HO)|].
      by rewrite list_lookup_fmap, Hi. }
  pose proof (ow_owner _ _ HO) as Hown.
  constructor; try setoid_rewrite Hun; unfold rids; rewrite ?Hr, ?Hn; fold (rids s).
  - by destruct HO.
  - by destruct HO.
  - destruct Hw as [[Hq _]|(i & w & _ & _ & Hq)]; unfold wids; rewrite Hq.
    + apply (ow_wait_nodup _ _ HO).
    + eapply sublist_NoDup; [apply (ow_wait_nodup _ _ HO)|apply fmap_sublist, sublist_delete].
  - intros i t. rewrite Hts, lookup_delete. case_decide; [done|]. apply HO.
  - intros i. rewrite Hwids, (ow_waiting _ _ HO), Hts, lookup_delete.
    case_decide; naive_solver.
  - intros i t. rewrite Hts, lookup_delete. case_decide; [done|]. apply HO.
  - intros x. rewrite Hown, elem_of_union, Hset. split.
    + intros [|[i Hi]]; [by auto|]. destruct (decide (i = id)) as [->|]; eauto.
    + intros [[|]|(i & _ & Hi)]; eauto.
  - intros x i1 i2 [_ H1] [_ H2]. by eapply (ow_unique _ _ HO).
  - intros x i [Hne Hu]. rewrite elem_of_union, Hset. intros [Hu'|Hin].
    + apply Hne. by eapply (ow_unique _ _ HO).
    + by eapply (ow_disjoint _ _ HO).
Qed.

Lemma Owned_claim s id slot s' P :
  ticket_granted s id = Some (slot, s') → Owned s P → Owned s' ({[slot]} ∪ P).
Proof.
  unfold ticket_granted. destruct (tickets s !! id) as [t|] eqn:Ht; [|done].
  destruct (t_granted t) as [x|] eqn:Hg; [|done].
  destruct (t_taken t) eqn:Htk; [done|]. intros [= -> <-] HO.
  match goal with |- Owned ?s' _ =>
    assert (Hun : ∀ x i, unclaimed s' x i ↔ i ≠ id ∧ unclaimed s x i) end.
  { intros x i. rewrite (unclaimed_insert s _ _ id i) by reflexivity. simpl. naive_solver. }
  assert (Hu : unclaimed s slot id) by (exists t; eauto).
  pose proof (ow_owner _ _ HO) as Hown.
  constructor; try setoid_rewrite Hun; simpl; unfold rids, wids; simpl;
    fold (rids s); fold (wids s); try (by destruct HO).
  - intros i t'. rewrite lookup_insert. case_decide; subst; [|apply HO].
    intros _. by apply (ow_ticket_le _ _ HO) in Ht.
  - intros i. rewrite (ow_waiting _ _ HO), lookup_insert. case_decide; naive_solver.
  - intros i t'. rewrite lookup_insert. case_decide; [|apply HO]. naive_solver.
  - intros x. rewrite Hown, elem_of_union, elem_of_singleton. split.
    + intros [|[i Hi]]; [by auto|]. destruct (decide (i = id)) as [->|]; [|by eauto].
      left. left. destruct Hi as (t' & ? & ? & _). congruence.
    + intros [[->|]|(i & _ & Hi)]; eauto.
  - intros x i1 i2 [_ H1] [_ H2]. by eapply (ow_unique _ _ HO).
  - intros x i [Hne Hx]. rewrite elem_of_union, elem_of_singleton. intros [->|Hin].
    + apply Hne. by eapply (ow_unique _ _ HO).
    + by eapply (ow_disjoint _ _ HO).
Qed.

Lemma Owned_timeout s id P : Owned s P → Owned (ticket_timed_out s id) P.
Proof.
  intros HO. unfold ticket_timed_out. destruct (tickets s !! id) as [t|] eqn:Ht; [|done].
  match goal with |- Owned ?s' _ => assert (Hun : ∀ x i, unclaimed s' x i ↔ unclaimed s x i) end.
  { intros x i. rewrite (unclaimed_insert s _ _ id i) by reflexivity. simpl.
    unfold unclaimed. destruct (decide (i = id)) as [->|]; naive_solver. }
  constructor; try setoid_rewrite Hun; simpl; unfold rids, wids; simpl;
    fold (rids s); fold (wids s); try (by destruct HO).
  - intros i t'. rewrite lookup_insert. case_decide; subst; [|apply HO].
    intros _. by apply (ow_ticket_le _ _ HO) in Ht.
  - intros i. rewrite (ow_waiting _ _ HO), lookup_insert. case_decide; naive_solver.
  - intros i t'. rewrite lookup_insert. case_decide; [|apply HO]. subst.
    intros [= <-]. simpl. by apply (ow_taken _ _ HO _ _ Ht).
Qed.

Lemma take_free_slot_spec s band now slot s' :
  take_free_slot s band now = Some (slot, s') →
  paused (inner s) = false ∧ Z.of_nat (length (running (inner s))) < capacity s ∧
  waiting (inner s) = [] ∧
  reserve_running (with_counters s (count_admitted (counters s))) band now = (slot, s').
Proof.
  unfold take_free_slot. destruct (paused (inner s)); [done|].
  destruct (Z.ltb_spec (Z.of_nat (length (running (inner s)))) (capacity s)); [|done].
  destruct (waiting (inner s)); [|done]. intros [= <- <-]. done.
Qed.

Lemma Owned_take_free s band now slot s' P :
  take_free_slot s band now = Some (slot, s') → Owned s P → Owned s' ({[slot]} ∪ P).
Proof.
  intros (_ & _ & _ & Hr)%take_free_slot_spec HO. eapply Owned_reserve; [exact Hr|].
  by apply (Owned_ext s).
Qed.

(** Running an event, split by what it was. *)
Ltac exec_inv H :=
  unfold exec in H;
  repeat match type of H with
  | context [if ?b then _ else _] => let E := fresh "E" in destruct b eqn:E; try discriminate H
  | context [match ?x with _ => _ end] =>
      first [is_var x; destruct x
            | let E := fresh "E" in destruct x eqn:E]; try discriminate H
  end; simplify_eq.

Lemma Owned_exec now e w w' :
  exec now e w = Some w' → Owned (sch w) (permits w) → Owned (sch w') (permits w').
Proof.
  intros H HO. destruct w as [s P g p c]. simpl in HO.
  destruct e; exec_inv H; simpl; try done.
  - by eapply Owned_take_free.
  - unfold admit_or_enqueue in E0. destruct (take_free_slot _ _ _) as [[]|] eqn:E1.
    + simplify_eq. by eapply Owned_take_free.
    + destruct (push_waiter _ _ _ _). simplify_eq.
  - unfold admit_or_enqueue in E0. destruct (take_free_slot _ _ _) as [[]|] eqn:E1;
      [done|]. destruct (push_waiter _ _ _ _) eqn:E2. simplify_eq. by eapply Owned_push.
  - by eapply Owned_claim.
  - by apply Owned_timeout.
  - by eapply Owned_drop_ticket.
  - rewrite bool_decide_eq_true in E0. by apply Owned_release.
  - by apply (Owned_ext s).
  - apply Owned_grant_free. by apply (Owned_ext s).
  - by apply (Owned_ext s).
  - unfold set_capacity_grant. case_match; [done|]. by apply Owned_grant_free.
  - by apply (Owned_ext s).
  - apply (Owned_ext s); try done. unfold rids. simpl. by apply update_first_fmap.
  - apply (Owned_ext s); try done. unfold rids. simpl. by apply update_first_fmap.
Qed.

Lemma reachable_Owned cap cfg w : reachable cap cfg w → Owned (sch w) (permits w).
Proof.
  unfold reachable. intros Hr. remember (init cap cfg) as w0 eqn:Hw0.
  assert (H0 : Owned (sch w0) (permits w0)) by (subst; apply Owned_new). clear Hw0.
  induction Hr as [|w0 w1 w2 [now e ? ? Hs] _ IH]; [done|]. apply IH.
  by eapply Owned_exec.
Qed.

(** ** How the queue moves *)

(** An event removes waiters, or adds one at the back with its turn counted. *)
Definition Moved (now : Instant) (n : u64) (q q' : list Waiter) : Prop :=
  q' `sublist_of` q ∨
  ∃ x, q' = q ++ [x] ∧ w_id x = n + 1 ∧ w_enqueued x = now ∧
       w_round x = Z.of_nat (count_if (fun v => bool_decide (w_peer v = w_peer x)) q).

Lemma grant_free_queue s now cap P :
  Owned s P →
  let s' := grant_free (length (waiting (inner s))) cap s now in
  waiting (inner s') `sublist_of` waiting (inner s) ∧ config s' = config s ∧
  capacity s' = capacity s ∧ paused (inner s') = paused (inner s).
Proof.
  intros HO. simpl.
  pose proof (grant_free_ind (λ s', waiting (inner s') `sublist_of` waiting (inner s) ∧
    config s' = config s ∧ capacity s' = capacity s ∧ paused (inner s') = paused (inner s))
    P now cap) as H.
  edestruct H as (_ & HQ & _); eauto.
  intros s1 s2 i w HO1 (Hs & Hc & Hcap & Hp) _ HG.
  split; [by eapply Owned_Granted|]. destruct HG. split_and!; try congruence.
  rewrite gr_waiting0. etrans; [apply sublist_delete|done].
Qed.

Lemma release_queue s slot now P :
  slot ∈ P → Owned s P →
  waiting (inner (release s slot now)) `sublist_of` waiting (inner s) ∧
  config (release s slot now) = config s ∧ capacity (release s slot now) = capacity s ∧
  paused (inner (release s slot now)) = paused (inner s).
Proof.
  intros Hin HO.
  destruct (release_cases s slot now P Hin HO) as (s2 & [] & HO2 & [[-> _]|(_ & i & w & [])]).
  - by rewrite fr_waiting0.
  - split_and!; try congruence. rewrite gr_waiting0, fr_waiting0. apply sublist_delete.
Qed.

Lemma exec_clock now e w w' :
  exec now e w = Some w' → clock w ≤ now ∧ clock w' = now.
Proof.
  intros H. destruct w as [s P g p c]. destruct e; exec_inv H; simpl; lia.
Qed.

Lemma exec_queue now e w w' :
  exec now e w = Some w' → Owned (sch w) (permits w) →
  Moved now (next_id (inner (sch w))) (waiting (inner (sch w))) (waiting (inner (sch w'))) ∧
  config (sch w') = config (sch w).
Proof.
  intros H HO. destruct w as [s P g p c]. simpl in HO.
  destruct e; exec_inv H; simpl;
    try (split; [by left|done]).
  - apply take_free_slot_spec in E0 as (_ & _ & Hw & Hr). injection Hr as <- <-.
    by split; [left|].
  - unfold admit_or_enqueue in E0. destruct (take_free_slot _ _ _) as [[]|] eqn:E1.
    + simplify_eq. apply take_free_slot_spec in E1 as (_ & _ & Hw & Hr).
      injection Hr as <- <-. by split; [left|].
    + destruct (push_waiter _ _ _ _). simplify_eq.
  - unfold admit_or_enqueue in E0. destruct (take_free_slot _ _ _) as [[]|] eqn:E1;
      [done|]. unfold push_waiter in E0. simplify_eq. split; [|done].
    right. eexists. split; [reflexivity|done].
  - unfold ticket_granted in E0. repeat (case_match; try done). simplify_eq.
    by split; [left|].
  - split; [left|]; unfold ticket_timed_out; by case_match.
  - destruct (drop_ticket_begin_spec _ _ _ _ _ HO E0) as (_&_&_&_&_&Hc&_&[[-> _]|(i&x&_&_&->)]).
    + by split; [left|].
    + split; [left; apply sublist_delete|done].
  - rewrite bool_decide_eq_true in E0.
    destruct (release_queue s slot now P E0 HO) as (? & ? & _). by split; [left|].
  - assert (HO' : Owned (with_paused s false) P) by by apply (Owned_ext s).
    destruct (grant_free_queue _ now (capacity s) _ HO') as (? & ? & _).
    by split; [left|].
  - unfold set_capacity_grant. case_match; [by split; [left|]|].
    destruct (grant_free_queue _ now (Z.max cap 1) _ HO) as (? & ? & _).
    by split; [left|].
Qed.

Lemma Moved_Ordered now n c q q' :
  c ≤ now → Moved now n q q' → Ordered q c → Ordered q' now.
Proof.
  intros Hc Hm [Hs Hle]. destruct Hm as [Hsub|(x & -> & _ & Hx & _)].
  - split; [by eapply StronglySorted_sublist|]. intros w Hw.
    etrans; [|exact Hc]. apply Hle. by eapply sublist_subseteq.
  - split.
    + apply StronglySorted_snoc; [done|]. intros y Hy%Hle. lia.
    + intros w [Hw%Hle | ->%list_elem_of_singleton]%elem_of_app; lia.
Qed.

(** Turns are counts, and only a caller's first waiting request has turn 0. *)
Definition Turns (q : list Waiter) : Prop := OneFirst q ∧ ∀ w, w ∈ q → 0 ≤ w_round w.

Lemma Moved_Turns now n q q' : Moved now n q q' → Turns q → Turns q'.
Proof.
  intros Hm [H1 Hr]. destruct Hm as [Hsub|(x & -> & _ & _ & Hx)].
  - apply sublist_subseteq in Hsub. split; [|by auto]. intros v w ??. by apply H1; apply Hsub.
  - assert (Hfirst : ∀ v, v ∈ q → w_peer v = w_peer x → w_round x ≠ 0).
    { intros v Hv Hp Hx0. assert (Hc : count_if (fun v => bool_decide (w_peer v = w_peer x)) q = 0%nat)
        by lia. rewrite count_if_0 in Hc. specialize (Hc v Hv).
      by rewrite bool_decide_eq_false in Hc. }
    split.
    + intros v w [Hv | ->%list_elem_of_singleton]%elem_of_app
        [Hw | ->%list_elem_of_singleton]%elem_of_app Hp Hv0 Hw0; try done.
      * by apply H1.
      * by destruct (Hfirst v Hv Hp).
      * by destruct (Hfirst w Hw (eq_sym Hp)).
    + intros w [Hw%Hr | ->%list_elem_of_singleton]%elem_of_app; lia.
Qed.

Lemma reachable_queue cap cfg w :
  reachable cap cfg w →
  Ordered (waiting (inner (sch w))) (clock w) ∧ Turns (waiting (inner (sch w))) ∧
  config (sch w) = cfg.
Proof.
  unfold reachable. intros Hr. remember (init cap cfg) as w0 eqn:Hw0.
  assert (H0 : Owned (sch w0) (permits w0) ∧ Ordered (waiting (inner (sch w0))) (clock w0) ∧
    Turns (waiting (inner (sch w0))) ∧ config (sch w0) = cfg).
  { subst. split_and!; try done; [apply Owned_new|split; simpl|split; simpl].
    - constructor.
    - intros v Hv. by apply not_elem_of_nil in Hv.
    - intros v ? Hv. by apply not_elem_of_nil in Hv.
    - intros v Hv. by apply not_elem_of_nil in Hv. }
  clear Hw0. induction Hr as [|w0 w1 w2 [now e ? ? Hs] _ IH]; [naive_solver|].
  destruct H0 as (HO & HOr & HT & Hc). apply IH.
  destruct (exec_queue _ _ _ _ Hs HO) as [Hm ?]. destruct (exec_clock _ _ _ _ Hs) as [? ->].
  split_and!; [by eapply Owned_exec|by eapply Moved_Ordered|by eapply Moved_Turns|congruence].
Qed.
