(* ===== verification/SchedulerTheorems.v ===== *)
(** * What the scheduler promises

    The properties of [Scheduler.v] over every run of [SchedulerSystem.v]:
    slot ownership, work conservation, the capacity bound, the order served,
    fairness between callers and the starvation bound; and two places where
    the code does not do what its comments say. *)

From stdpp Require Import base list gmap sets strings numbers relations sorting.
From S2P Require Import Prelude Scheduler SchedulerSystem.

(** ** Helper lemmas *)

Definition aged_out (w : Waiter) (now : Instant) (cfg : SchedulerConfig) : Prop :=
  starvation_ceiling cfg ≤ now - w_enqueued w.

Lemma aged_out_later w now now' cfg :
  aged_out w now cfg → now ≤ now' → aged_out w now' cfg.
Proof. unfold aged_out. lia. Qed.

Lemma aged_out_older v w now cfg :
  aged_out w now cfg → w_enqueued v ≤ w_enqueued w → aged_out v now cfg.
Proof. unfold aged_out. lia. Qed.

(** When anyone has aged out, the head of the queue is the next one served. *)
Lemma aged_out_fifo s s' i w j x now now' c :
  Granted s s' i w now' → Ordered (waiting (inner s)) c → now ≤ now' →
  waiting (inner s) !! j = Some x → aged_out x now (config s) → i = 0%nat.
Proof.
  intros HG [Hs Hle] Hnow Hj Hx. destruct i as [|i]; [done|exfalso].
  destruct (waiting (inner s)) as [|h q] eqn:Hq; [done|].
  assert (Hhx : w_enqueued h ≤ w_enqueued x).
  { destruct j; simplify_eq/=; [done|].
    apply (StronglySorted_lookup _ _ 0%nat (S j) h x Hs eq_refl Hj). lia. }
  assert (Hhw : w_enqueued h ≤ w_enqueued w).
  { pose proof (gr_at _ _ _ _ _ HG) as Hi. rewrite Hq in Hi.
    apply (StronglySorted_lookup _ _ 0%nat (S i) h w Hs eq_refl Hi). lia. }
  pose proof (gr_earliest _ _ _ _ _ HG 0%nat h) as Hb. rewrite Hq in Hb.
  specialize (Hb eq_refl ltac:(lia)). rewrite aged_before in Hb; [done| |done].
  pose proof (aged_out_later _ _ _ _ (aged_out_older _ _ _ _ Hx Hhx) Hnow).
  unfold aged_out, saturating_duration_since in *. lia.
Qed.

Lemma sublist_index {A B} (f : A → B) (l k : list A) i x :
  NoDup (f <$> k) → l `sublist_of` k → k !! i = Some x → x ∈ l →
  ∃ j, l !! j = Some x ∧ (j ≤ i)%nat.
Proof.
  intros Hk Hs. revert i. induction Hs as [|y l k Hs IH|y l k Hs IH]; intros i; [done| |];
    csimpl in Hk; apply NoDup_cons in Hk as [Hy Hk].
  - destruct i as [|i]; simpl; [intros [= ->]; exists 0%nat; auto|].
    intros Hi [->|Hx]%elem_of_cons; [exists 0%nat; split; [done|lia]|].
    destruct (IH Hk i Hi Hx) as (j & ? & ?). exists (S j). split; [done|lia].
  - destruct i as [|i]; simpl.
    + intros [= ->] Hx. destruct Hy. apply list_elem_of_fmap_2. by eapply sublist_subseteq.
    + intros Hi Hx. destruct (IH Hk i Hi Hx) as (j & ? & ?). exists j. split; [done|lia].
Qed.

(** Where a waiting request is after one event. *)
Lemma exec_index now e w w' i x :
  Owned (sch w) (permits w) → exec now e w = Some w' →
  waiting (inner (sch w)) !! i = Some x → x ∈ waiting (inner (sch w')) →
  ∃ j, waiting (inner (sch w')) !! j = Some x ∧ (j ≤ i)%nat.
Proof.
  intros HO He Hi Hx. destruct (exec_queue _ _ _ _ He HO) as [[Hs|(y & Hq & _)] _].
  - eapply (sublist_index w_id); eauto. by destruct HO.
  - exists i. rewrite Hq, lookup_app_l; [by split|]. by eapply lookup_lt_Some.
Qed.

Lemma release_Granted s slot now P :
  slot ∈ P → Owned s P → paused (inner s) = false → waiting (inner s) ≠ [] →
  ∃ s2 i x, Granted s2 (release s slot now) i x now ∧
    waiting (inner s2) = waiting (inner s) ∧ config s2 = config s.
Proof.
  intros Hin HO Hp Hq.
  destruct (release_cases s slot now P Hin HO)
    as (s2 & [] & _ & [[_ [?|?]]|(_ & i & x & HG)]); [congruence|done|].
  by exists s2, i, x.
Qed.

(** Runs in which at least [n] requests finish while nothing is paused. *)
Inductive runs : nat → World → World → Prop :=
| runs_nil w : runs 0 w w
| runs_finish n now slot w w' w'' :
    paused (inner (sch w)) = false → exec now (EvDropPermit slot) w = Some w' →
    runs n w' w'' → runs (S n) w w''
| runs_other n now e w w' w'' :
    exec now e w = Some w' → runs n w' w'' → runs n w w''.

(** A waiter that left the queue never rejoins it: a new one is newer. *)
Lemma exec_fresh now e w w' x :
  Owned (sch w) (permits w) → exec now e w = Some w' → w_id x ≤ next_id (inner (sch w)) →
  x ∉ waiting (inner (sch w)) → x ∉ waiting (inner (sch w')).
Proof.
  intros HO He Hle Hx Hin.
  destruct (exec_queue _ _ _ _ He HO) as [[Hs|(y & Hq & Hy & _)] _].
  - apply Hx. by eapply sublist_subseteq.
  - rewrite Hq in Hin. apply elem_of_app in Hin as [Hin | ->%list_elem_of_singleton];
      [done|lia].
Qed.

Lemma release_next_id s slot now P :
  slot ∈ P → Owned s P → next_id (inner s) ≤ next_id (inner (release s slot now)).
Proof.
  intros Hin HO.
  destruct (release_cases s slot now P Hin HO) as (s2 & [] & _ & [[-> _]|(_ & i & x & [])]);
    lia.
Qed.

Lemma grant_free_next_id s now cap P :
  Owned s P →
  next_id (inner s) ≤ next_id (inner (grant_free (length (waiting (inner s))) cap s now)).
Proof.
  intros HO.
  pose proof (grant_free_ind (λ s', next_id (inner s) ≤ next_id (inner s')) P now cap) as H.
  edestruct H as (_ & HQ & _); eauto; [|done].
  intros s1 s2 i w HO1 Hle _ HG. split; [by eapply Owned_Granted|]. destruct HG. lia.
Qed.

Lemma exec_next_id now e w w' :
  Owned (sch w) (permits w) → exec now e w = Some w' →
  next_id (inner (sch w)) ≤ next_id (inner (sch w')).
Proof.
  intros HO H. destruct w as [s P g p c]. simpl in HO.
  destruct e; exec_inv H; simpl; try done.
  - apply take_free_slot_spec in E0 as (_ & _ & _ & [= <- <-]). simpl. lia.
  - unfold admit_or_enqueue in E0. destruct (take_free_slot _ _ _) as [[]|] eqn:E1.
    + simplify_eq. apply take_free_slot_spec in E1 as (_ & _ & _ & [= <- <-]). simpl. lia.
    + destruct (push_waiter _ _ _ _). simplify_eq.
  - unfold admit_or_enqueue in E0. destruct (take_free_slot _ _ _) as [[]|] eqn:E1; [done|].
    unfold push_waiter in E0. simplify_eq. simpl. lia.
  - unfold ticket_granted in E0. repeat (case_match; try done). by simplify_eq.
  - unfold ticket_timed_out. by case_match.
  - destruct (drop_ticket_begin_spec _ _ _ _ _ HO E0) as (_ & -> & _). done.
  - rewrite bool_decide_eq_true in E0. by eapply release_next_id.
  - apply (grant_free_next_id (with_paused s false) now (capacity s) P).
    by apply (Owned_ext s).
  - unfold set_capacity_grant. case_match; [done|]. by eapply grant_free_next_id.
Qed.

Lemma runs_Owned n w w' :
  runs n w w' → Owned (sch w) (permits w) → Owned (sch w') (permits w').
Proof. induction 1; eauto using Owned_exec. Qed.

Lemma runs_gone n w w' x :
  runs n w w' → Owned (sch w) (permits w) → w_id x ≤ next_id (inner (sch w)) →
  x ∉ waiting (inner (sch w)) → x ∉ waiting (inner (sch w')).
Proof.
  induction 1 as [|n now slot w w' w'' _ He _ IH|n now e w w' w'' He _ IH];
    intros HO Hle Hx; [done| |];
    pose proof (exec_next_id _ _ _ _ HO He);
    (apply IH; [by eapply Owned_exec|lia|by eapply exec_fresh]).
Qed.

Lemma waiter_id_le s P x : Owned s P → x ∈ waiting (inner s) → w_id x ≤ next_id (inner s).
Proof.
  intros HO Hx. destruct (proj1 (ow_waiting _ _ HO (w_id x))) as (t & Ht & _).
  { by apply list_elem_of_fmap_2. }
  by eapply ow_ticket_le.
Qed.

(** A request finishing brings an aged-out waiter one place closer. *)
Lemma finish_index now slot w w' i x :
  Owned (sch w) (permits w) → Ordered (waiting (inner (sch w))) (clock w) →
  paused (inner (sch w)) = false → exec now (EvDropPermit slot) w = Some w' →
  waiting (inner (sch w)) !! i = Some x → aged_out x (clock w) (config (sch w)) →
  x ∈ waiting (inner (sch w')) →
  ∃ j, i = S j ∧ waiting (inner (sch w')) !! j = Some x.
Proof.
  intros HO HOr Hp He Hi Hx Hin. pose proof (exec_clock _ _ _ _ He) as [Hc _].
  destruct w as [s P g p c]. exec_inv He. simpl in *. rewrite bool_decide_eq_true in E0.
  destruct (release_Granted s slot now P E0 HO Hp) as (s2 & k & z & HG & Hq2 & Hc2).
  { intros Hnil. by rewrite Hnil in Hi. }
  assert (k = 0%nat) as ->.
  { eapply aged_out_fifo; [exact HG| |exact Hc| |]; rewrite ?Hq2, ?Hc2; eauto. }
  pose proof (gr_waiting _ _ _ _ _ HG) as Hdel. rewrite Hq2 in Hdel.
  pose proof (ow_wait_nodup _ _ HO) as Hnd. unfold wids in Hnd.
  destruct (waiting (inner s)) as [|h q]; [done|]. simpl in Hdel. rewrite Hdel in *.
  destruct i as [|i]; simplify_eq/=; [|by eauto].
  exfalso. apply NoDup_cons in Hnd as [Hnd _]. apply Hnd. by apply list_elem_of_fmap_2.
Qed.

Lemma runs_aged n w w' i x :
  runs n w w' → Owned (sch w) (permits w) →
  Ordered (waiting (inner (sch w))) (clock w) →
  waiting (inner (sch w)) !! i = Some x → aged_out x (clock w) (config (sch w)) →
  (i < n)%nat → x ∉ waiting (inner (sch w')).
Proof.
  intros Hr. revert i.
  induction Hr as [|n now slot w w' w'' Hp He Hr IH|n now e w w' w'' He Hr IH];
    intros i HO HOr Hi Hx Hlt; [lia| |];
    pose proof (exec_clock _ _ _ _ He) as [Hc Hc'];
    pose proof (exec_queue _ _ _ _ He HO) as [Hm Hcfg];
    pose proof (Moved_Ordered _ _ _ _ _ Hc Hm HOr) as HOr'; rewrite <-Hc' in HOr';
    pose proof (Owned_exec _ _ _ _ He HO) as HO';
    pose proof (waiter_id_le _ _ x HO (list_elem_of_lookup_2 _ _ _ Hi)) as Hid;
    pose proof (exec_next_id _ _ _ _ HO He) as Hn;
    assert (Hx' : aged_out x (clock w') (config (sch w')))
      by (rewrite Hcfg; eapply aged_out_later; [exact Hx|lia]);
    destruct (decide (x ∈ waiting (inner (sch w')))) as [Hw|Hw];
    [|by eapply runs_gone; [exact Hr|done|lia|]| |by eapply runs_gone; [exact Hr|done|lia|]].
  - destruct (finish_index _ _ _ _ _ _ HO HOr Hp He Hi Hx Hw) as (j & -> & Hj).
    eapply IH; eauto. lia.
  - destruct (exec_index _ _ _ _ _ _ HO He Hi Hw) as (j & Hj & Hji).
    eapply IH; eauto. lia.
Qed.

(** ** Nobody waits in front of an idle engine *)

Lemma release_Busy s slot now P :
  slot ∈ P → Owned s P →
  (paused (inner s) = true ∨ waiting (inner s) = [] ∨
   capacity s ≤ Z.of_nat (length (running (inner s)))) →
  let s' := release s slot now in
  paused (inner s') = true ∨ waiting (inner s') = [] ∨
  capacity s' ≤ Z.of_nat (length (running (inner s'))).
Proof.
  intros Hin HO Hb. simpl.
  destruct (release_cases s slot now P Hin HO)
    as (s2 & HF & _ & [[-> Hn]|(Hp & i & w & HG)]).
  - rewrite (fr_paused _ _ HF), (fr_waiting _ _ HF). destruct Hn; auto.
  - destruct (Granted_length _ _ _ _ _ HG) as [Hl1 Hl2]. pose proof (fr_waiting _ _ HF) as Hw.
    pose proof (fr_length _ _ HF). rewrite (gr_capacity _ _ _ _ _ HG), (fr_capacity _ _ HF).
    right. destruct Hb as [Hb|[Hb|Hb]]; [congruence| |right; lia].
    left. apply nil_length_inv. rewrite Hw, Hb in Hl2. simpl in Hl2. lia.
Qed.

Lemma remove_first_other (x c : Z) l :
  x ≠ c → x ∈ l → x ∈ remove_first (Z.eqb c) l.
Proof.
  intros Hne. induction l as [|y l IH]; [done|]. simpl. rewrite elem_of_cons.
  destruct (Z.eqb_spec c y) as [->|]; rewrite ?elem_of_cons; tauto.
Qed.

Lemma Busy_exec now e w w' :
  Owned (sch w) (permits w) → exec now e w = Some w' → Busy w → Busy w'.
Proof.
  intros HO H Hb. destruct w as [s P g p c]. simpl in HO. unfold Busy in *. simpl in Hb.
  destruct e; exec_inv H; simpl; try done.
  - apply take_free_slot_spec in E0 as (_ & _ & Hw & [= <- <-]). simpl. auto.
  - unfold admit_or_enqueue in E0. destruct (take_free_slot _ _ _) as [[]|] eqn:E1.
    + simplify_eq. apply take_free_slot_spec in E1 as (_ & _ & Hw & [= <- <-]). simpl. auto.
    + destruct (push_waiter _ _ _ _). simplify_eq.
  - unfold admit_or_enqueue in E0. destruct (take_free_slot _ _ _) as [[]|] eqn:E1; [done|].
    unfold push_waiter in E0. simplify_eq. simpl.
    unfold take_free_slot in E1. destruct (paused (inner s)); [auto|].
    destruct (Z.ltb_spec (Z.of_nat (length (running (inner s)))) (capacity s)); [|by auto].
    destruct (waiting (inner s)); [done|]. destruct Hb as [|[|[|]]]; try done; auto.
  - unfold ticket_granted in E0. repeat (case_match; try done). by simplify_eq.
  - unfold ticket_timed_out. by case_match.
  - destruct (drop_ticket_begin_spec _ _ _ _ _ HO E0)
      as (-> & _ & -> & _ & -> & _ & _ & [[-> _]|(i & x & Hi & _ & ->)]); [done|].
    destruct Hb as [|[Hb|[|]]]; auto. by rewrite Hb in Hi.
  - rewrite bool_decide_eq_true in E0. destruct (release_queue s slot now P E0 HO) as (_&_&Hc&_).
    destruct Hb as [Hb|[Hb|[Hb|Hb]]].
    1-3: destruct (release_Busy s slot now P E0 HO) as [|[|]]; auto.
    rewrite Hc. auto.
  - auto.
  - assert (HO' : Owned (with_paused s false) P) by by apply (Owned_ext s).
    destruct (grant_free_queue _ now (capacity s) _ HO') as (_ & _ & Hc & _).
    edestruct (grant_free_ind (λ _, True) P now (capacity s)) as (_ & _ & Hend);
      [| exact HO' | done | reflexivity |].
    { intros * HOs _ _ HG. split; [by eapply Owned_Granted|done]. }
    simpl in *. unfold resume. simpl. rewrite Hc. destruct Hend; auto.
  - right. right. right. set_solver.
  - rewrite bool_decide_eq_true in E0. unfold set_capacity_grant.
    destruct (paused (inner s)) eqn:Ep; [by auto|].
    destruct (grant_free_queue s now (Z.max cap 1) _ HO) as (Hsub & _ & Hc & _).
    edestruct (grant_free_ind (λ s', Z.of_nat (length (running (inner s)))
      ≤ Z.of_nat (length (running (inner s')))) P now (Z.max cap 1)) as (_ & Hmono & Hend);
      [| exact HO | done | reflexivity |].
    { intros s1 s2 * HOs Hle _ HG. split; [by eapply Owned_Granted|].
      destruct (Granted_length _ _ _ _ _ HG). lia. }
    rewrite Hc. destruct Hb as [Hb|[Hb|[Hb|Hb]]]; [congruence| | |].
    + right. left. apply sublist_nil_r. etrans; [exact Hsub|]. by rewrite Hb.
    + right. right. left. lia.
    + destruct (decide (capacity s = Z.max cap 1)) as [Heq|Hne].
      * rewrite Heq. destruct Hend; auto.
      * right. right. right.
        by apply remove_first_other.
  - by rewrite length_update_first.
  - by rewrite length_update_first.
Qed.

(** ** Never more running than the slots there are *)

(** Every capacity a run is given is at most [M]. *)
Definition capacities_at_most (M : Z) (evs : list (Instant * Event)) : Prop :=
  ∀ now cap, (now, EvStoreCapacity cap) ∈ evs → Z.max cap 1 ≤ M.

Record Bounded (M : Z) (w : World) : Prop := {
  bd_running : Z.of_nat (length (running (inner (sch w)))) ≤ M;
  bd_capacity : capacity (sch w) ≤ M;
  bd_pending : ∀ c, c ∈ pending w → c ≤ M }.

Lemma grant_free_running s now cap P M :
  Owned s P → Z.of_nat (length (running (inner s))) ≤ M → cap ≤ M →
  Z.of_nat (length (running (inner
    (grant_free (length (waiting (inner s))) cap s now)))) ≤ M.
Proof.
  intros HO Hle Hcap.
  edestruct (grant_free_ind (λ s', Z.of_nat (length (running (inner s'))) ≤ M) P now cap)
    as (_ & HQ & _); [| exact HO | exact Hle | reflexivity | exact HQ].
  intros s1 s2 i w HO1 H1 Hlt HG. split; [by eapply Owned_Granted|].
  destruct (Granted_length _ _ _ _ _ HG). lia.
Qed.

Lemma release_running s slot now P :
  slot ∈ P → Owned s P →
  (length (running (inner (release s slot now))) ≤ length (running (inner s)))%nat.
Proof.
  intros Hin HO.
  destruct (release_cases s slot now P Hin HO) as (s2 & [] & _ & [[-> _]|(_ & i & w & HG)]);
    [lia|]. destruct (Granted_length _ _ _ _ _ HG). lia.
Qed.

Lemma Bounded_exec M now e w w' :
  Owned (sch w) (permits w) → exec now e w = Some w' →
  (∀ cap, e = EvStoreCapacity cap → Z.max cap 1 ≤ M) → Bounded M w → Bounded M w'.
Proof.
  intros HO H HM [Hr Hc Hp]. destruct w as [s P g p c]. simpl in *.
  destruct e; exec_inv H; try (by constructor).
  - apply take_free_slot_spec in E0 as (_ & Hlt & _ & [= <- <-]).
    constructor; simpl; try done. rewrite length_app. simpl. lia.
  - unfold admit_or_enqueue in E0. destruct (take_free_slot _ _ _) as [[]|] eqn:E1.
    + simplify_eq. apply take_free_slot_spec in E1 as (_ & Hlt & _ & [= <- <-]).
      constructor; simpl; try done. rewrite length_app. simpl. lia.
    + destruct (push_waiter _ _ _ _). simplify_eq.
  - unfold admit_or_enqueue in E0. destruct (take_free_slot _ _ _) as [[]|] eqn:E1; [done|].
    unfold push_waiter in E0. simplify_eq. by constructor.
  - unfold ticket_granted in E0. repeat (case_match; try done). simplify_eq. by constructor.
  - unfold ticket_timed_out. case_match; by constructor.
  - destruct (drop_ticket_begin_spec _ _ _ _ _ HO E0) as (Hr' & _ & _ & _ & Hc' & _).
    constructor; simpl; rewrite ?Hr', ?Hc'; done.
  - rewrite bool_decide_eq_true in E0. pose proof (release_running s slot now P E0 HO).
    destruct (release_queue s slot now P E0 HO) as (_ & _ & Hc' & _).
    constructor; simpl; rewrite ?Hc'; try done. lia.
  - assert (HO' : Owned (with_paused s false) P) by by apply (Owned_ext s).
    destruct (grant_free_queue _ now (capacity s) _ HO') as (_ & _ & Hc' & _).
    constructor; simpl in *; [|unfold resume; simpl; by rewrite Hc'|done].
    by eapply (grant_free_running (with_paused s false) now (capacity s)).
  - constructor; simpl; [done|by apply HM|].
    intros x [->|Hx]%elem_of_cons; [by apply HM|by apply Hp].
  - rewrite bool_decide_eq_true in E0.
    destruct (grant_free_queue s now (Z.max cap 1) _ HO) as (_ & _ & Hc' & _).
    constructor; simpl; unfold set_capacity_grant.
    + case_match; [done|]. eapply grant_free_running; eauto.
    + case_match; [done|]. by rewrite Hc'.
    + intros x Hx. apply Hp. eapply sublist_subseteq; [|exact Hx].
      apply remove_first_sublist.
  - constructor; simpl; rewrite ?length_update_first; done.
  - constructor; simpl; rewrite ?length_update_first; done.
Qed.

(** ** Reading a run *)

Lemma exec_all_rtc evs w w' : exec_all evs w = Some w' → rtc step w w'.
Proof.
  revert w. induction evs as [|[now e] evs IH]; intros w; simpl; [by intros [= <-]|].
  destruct (exec now e w) as [w1|] eqn:He; [|done]. intros H. eapply rtc_l; eauto using step.
Qed.

Lemma exec_all_reachable cap cfg evs w :
  exec_all evs (init cap cfg) = Some w → reachable cap cfg w.
Proof. apply exec_all_rtc. Qed.

Lemma exec_all_ind (Q : World → Prop) evs :
  (∀ now e w w', (now, e) ∈ evs → exec now e w = Some w' → Q w → Q w') →
  ∀ w w', exec_all evs w = Some w' → Q w → Q w'.
Proof.
  induction evs as [|[now e] evs IH]; intros HQ w w'; simpl; [by intros [= <-]|].
  destruct (exec now e w) as [w1|] eqn:He; [|done]. intros H Hw.
  apply (IH (λ now e w w' Hin, HQ now e w w' (list_elem_of_further _ _ _ Hin)) w1 w' H).
  by apply (HQ now e w w1 (list_elem_of_here _ _)).
Qed.

Lemma reachable_inv (Q : World → Prop) cap cfg w :
  (∀ now e w w', Owned (sch w) (permits w) → exec now e w = Some w' → Q w → Q w') →
  Q (init cap cfg) → reachable cap cfg w → Q w.
Proof.
  unfold reachable. intros HQ H0 Hr.
  assert (HO : Owned (sch (init cap cfg)) (permits (init cap cfg))) by apply Owned_new.
  revert H0 HO. induction Hr as [|w0 w1 w2 [now e ? ? Hs] _ IH]; intros H0 HO; [done|].
  apply IH; [by eapply HQ|by eapply Owned_exec].
Qed.

(** A finished run, or the initial world when it cannot happen. *)
Definition run (cap : u32) (evs : list (Instant * Event)) : World :=
  default (init cap SchedulerConfig_default) (exec_all evs (init cap SchedulerConfig_default)).

Definition peer_at (a : Z) : PeerKey := mkPeerKey (Some (V4 a)).

(** One slot; one request running and three waiting from two callers. *)
Definition crowd : list (Instant * Event) :=
  [(0, EvAdmit Bulk (peer_at 1)); (1, EvAdmit Bulk (peer_at 1));
   (2, EvAdmit Bulk (peer_at 1)); (3, EvAdmit Interactive (peer_at 2))].

Definition minute : Z := from_secs 60.

(** ** Properties *)

(** C1: over every interleaving of arrivals, claims, timeouts, drops, pauses
    and capacity changes, each occupied slot has exactly one owner: a live
    permit, or the one ticket it was granted to and that has not claimed it;
    a live ticket without a grant is exactly a queued request.  So no slot
    is leaked, none is owned twice and no waiter is lost. *)
Theorem slot_ownership cap cfg w :
  reachable cap cfg w → Owned (sch w) (permits w).
Proof. apply reachable_Owned. Qed.

Lemma slot_ownership_witness :
  Owned (sch (run 1 crowd)) (permits (run 1 crowd)) ∧
  length (waiting (inner (sch (run 1 crowd)))) = 3%nat.
Proof.
  split; [|vm_compute; reflexivity].
  apply (slot_ownership 1 SchedulerConfig_default).
  apply (exec_all_reachable _ _ crowd). vm_compute. reflexivity.
Defined.

(** The queue is work-conserving.  In every reachable state with no
    [set_capacity] half done and nothing paused, either nobody waits or
    every slot of the capacity is occupied. *)
Theorem work_conservation cap cfg w :
  reachable cap cfg w → pending w = [] → paused (inner (sch w)) = false →
  waiting (inner (sch w)) = [] ∨
  capacity (sch w) ≤ Z.of_nat (length (running (inner (sch w)))).
Proof.
  intros Hr Hp Hpa.
  assert (Hb : Busy w).
  { eapply (reachable_inv Busy); [|right; left; reflexivity|exact Hr].
    intros. by eapply Busy_exec. }
  destruct Hb as [|[|[|Hb]]]; [congruence|by auto|by auto|].
  rewrite Hp in Hb. by apply not_elem_of_nil in Hb.
Qed.

Lemma work_conservation_witness :
  waiting (inner (sch (run 1 crowd))) = [] ∨
  capacity (sch (run 1 crowd)) ≤ Z.of_nat (length (running (inner (sch (run 1 crowd))))).
Proof.
  apply (work_conservation 1 SchedulerConfig_default).
  - apply (exec_all_reachable _ _ crowd). vm_compute. reflexivity.
  - vm_compute. reflexivity.
  - vm_compute. reflexivity.
Defined.

(** C6: the starvation guarantee.  Once a request has waited past the
    ceiling with [i] requests queued in front of it, then whatever else
    arrives, leaves or is reconfigured, it has left the queue by the time
    [i + 1] running requests finish outside a pause. *)
Theorem bounded_wait cap cfg w w' n i x :
  reachable cap cfg w → waiting (inner (sch w)) !! i = Some x →
  aged_out x (clock w) cfg → runs n w w' → (i < n)%nat →
  x ∉ waiting (inner (sch w')).
Proof.
  intros Hr Hi Hx Hn Hlt. pose proof (reachable_Owned _ _ _ Hr) as HO.
  destruct (reachable_queue _ _ _ Hr) as (HOr & _ & Hc).
  eapply runs_aged; eauto. by rewrite Hc.
Qed.

(** The bulk request at the head of the crowd has aged out while a fresh
    interactive one arrived: the next slot to be freed is its own. *)
Lemma bounded_wait_witness :
  ∃ x w', waiting (inner (sch (run 1 (crowd ++ [(minute + 1, EvAdmit Interactive (peer_at 3))])))) !! 0%nat = Some x ∧
    exec (minute + 1) (EvDropPermit 1)
      (run 1 (crowd ++ [(minute + 1, EvAdmit Interactive (peer_at 3))])) = Some w' ∧
    x ∉ waiting (inner (sch w')).
Proof.
  eexists _, _. split; [vm_compute; reflexivity|]. split; [vm_compute; reflexivity|].
  eapply (bounded_wait 1 SchedulerConfig_default
            (run 1 (crowd ++ [(minute + 1, EvAdmit Interactive (peer_at 3))])) _ 1 0).
  - apply (exec_all_reachable _ _ (crowd ++ [(minute + 1, EvAdmit Interactive (peer_at 3))])).
    vm_compute. reflexivity.
  - vm_compute. reflexivity.
  - unfold aged_out. vm_compute. discriminate.
  - eapply (runs_finish 0 (minute + 1) 1); [vm_compute; reflexivity| |apply runs_nil].
    vm_compute. reflexivity.
  - lia.
Defined.

(** The engine is never oversubscribed.  If the initial capacity and
    every capacity set during a run are at most [M], at most [M] requests
    hold a slot at the end of it. *)
Theorem capacity_bound cap cfg evs M w :
  exec_all evs (init cap cfg) = Some w → Z.max cap 1 ≤ M → capacities_at_most M evs →
  Z.of_nat (length (running (inner (sch w)))) ≤ M.
Proof.
  intros H Hcap HM. apply bd_running.
  assert (HQ : Owned (sch w) (permits w) ∧ Bounded M w); [|by destruct HQ].
  eapply (exec_all_ind (λ w, Owned (sch w) (permits w) ∧ Bounded M w)); [|exact H|].
  - intros now e v v' Hin He [HO HB]. split; [by eapply Owned_exec|].
    eapply Bounded_exec; eauto. intros c ->. by eapply HM.
  - split; [apply Owned_new|]. constructor; simpl; [lia|done|].
    intros c Hc. by apply not_elem_of_nil in Hc.
Qed.

Lemma capacity_bound_witness :
  Z.of_nat (length (running (inner (sch (run 1
    (crowd ++ [(4, EvStoreCapacity 2); (5, EvGrantCapacity 2)])))))) ≤ 2.
Proof.
  apply (capacity_bound 1 SchedulerConfig_default
           (crowd ++ [(4, EvStoreCapacity 2); (5, EvGrantCapacity 2)])).
  - vm_compute. reflexivity.
  - lia.
  - intros now c Hin. repeat (apply elem_of_cons in Hin as [Hin|Hin]; [simplify_eq; try lia|]).
    by apply not_elem_of_nil in Hin.
Defined.

(** The request a caller with nothing queued enqueues takes its first turn. *)
Lemma first_turn now band peer w w' x :
  Owned (sch w) (permits w) → exec now (EvAdmit band peer) w = Some w' →
  (∀ v, v ∈ waiting (inner (sch w)) → w_peer v ≠ peer) →
  x ∈ waiting (inner (sch w')) → w_peer x = peer → w_round x = 0.
Proof.
  intros HO He Hnone Hx Hp. destruct (exec_queue _ _ _ _ He HO) as [[Hs|(y & Hq & _ & _ & Hr)] _].
  - destruct (Hnone x); [by eapply sublist_subseteq|done].
  - rewrite Hq in Hx. apply elem_of_app in Hx as [Hx | ->%list_elem_of_singleton].
    + by destruct (Hnone x).
    + rewrite Hr. assert (count_if (fun v => bool_decide (w_peer v = w_peer y))
        (waiting (inner (sch w))) = 0%nat) as ->; [|done].
      apply count_if_0. intros v Hv. rewrite bool_decide_eq_false, Hp. by apply Hnone.
Qed.

Lemma before_round now c v x :
  before now c v x = true → w_band v = w_band x →
  (c <=? saturating_duration_since now (w_enqueued v)) = false →
  0 ≤ w_round v → w_round x = 0 → w_round v = 0.
Proof.
  unfold before, rank. intros Hb Hband Hv Hge Hx. rewrite Hv, Hband, Hx in Hb. cbn in Hb.
  destruct (c <=? saturating_duration_since now (w_enqueued x)); cbn in Hb; [|lia].
  destruct (w_band x); cbn in Hb; lia.
Qed.

(** Fairness between callers.  A caller with nothing queued sends a
    request that has to wait.  However many requests any other caller has
    queued, then or later, at most one of them that has not aged out and is
    of the same band stands between that request and a slot. *)
Theorem fair_between_callers cap cfg w w1 w2 now band peer x v1 v2 t :
  reachable cap cfg w →
  (∀ v, v ∈ waiting (inner (sch w)) → w_peer v ≠ peer) →
  exec now (EvAdmit band peer) w = Some w1 →
  x ∈ waiting (inner (sch w1)) → w_peer x = peer →
  rtc step w1 w2 → v1 ∈ waiting (inner (sch w2)) → v2 ∈ waiting (inner (sch w2)) →
  w_peer v1 = w_peer v2 → w_band v1 = w_band x → w_band v2 = w_band x →
  ¬ aged_out v1 t cfg → ¬ aged_out v2 t cfg → 0 < starvation_ceiling cfg →
  before t (starvation_ceiling cfg) v1 x = true →
  before t (starvation_ceiling cfg) v2 x = true → v1 = v2.
Proof.
  intros Hr Hnone He Hx Hp Hr2 Hv1 Hv2 Hpp Hb1 Hb2 Ha1 Ha2 Hpos H1 H2.
  pose proof (first_turn _ _ _ _ _ _ (reachable_Owned _ _ _ Hr) He Hnone Hx Hp) as H0.
  assert (Hw2 : reachable cap cfg w2).
  { unfold reachable. etrans; [exact Hr|]. eapply rtc_l; [by econstructor|exact Hr2]. }
  destruct (reachable_queue _ _ _ Hw2) as (_ & [Hone Hge] & _).
  apply Hone; try done; eapply before_round; eauto;
    unfold aged_out, saturating_duration_since in *; lia.
Qed.

(** Twelve queued requests of one caller: one is in front of the newcomer. *)
Definition flood : list (Instant * Event) :=
  (λ n : nat, (Z.of_nat n, EvAdmit Bulk (peer_at 1))) <$> seq 0 13.

Definition newcomer : Waiter := mkWaiter 14 Bulk (peer_at 2) 0 20.
Definition in_front : Waiter := mkWaiter 2 Bulk (peer_at 1) 0 1.
Definition flooded : World := run 1 (flood ++ [(20, EvAdmit Bulk (peer_at 2))]).

Lemma fair_between_callers_witness :
  waiting (inner (sch flooded)) !! 0%nat = Some in_front ∧
  waiting (inner (sch flooded)) !! 12%nat = Some newcomer ∧
  before 21 minute in_front newcomer = true ∧
  ∀ v, v ∈ waiting (inner (sch flooded)) → w_peer v = peer_at 1 → w_band v = Bulk →
    ¬ aged_out v 21 SchedulerConfig_default → before 21 minute v newcomer = true →
    v = in_front.
Proof.
  split; [vm_compute; reflexivity|]. split; [vm_compute; reflexivity|].
  split; [vm_compute; reflexivity|]. intros v Hv Hp Hb Ha Hbef.
  apply (fair_between_callers 1 SchedulerConfig_default (run 1 flood) flooded flooded
           20 Bulk (peer_at 2) newcomer v in_front 21).
  - apply (exec_all_reachable _ _ flood). vm_compute. reflexivity.
  - intros y Hy. vm_compute in Hy.
    repeat (apply elem_of_cons in Hy as [->|Hy]; [discriminate|]).
    by apply not_elem_of_nil in Hy.
  - vm_compute. reflexivity.
  - apply (list_elem_of_lookup_2 _ 12%nat). vm_compute. reflexivity.
  - reflexivity.
  - apply rtc_refl.
  - exact Hv.
  - apply (list_elem_of_lookup_2 _ 0%nat). vm_compute. reflexivity.
  - exact Hp.
  - exact Hb.
  - reflexivity.
  - exact Ha.
  - unfold aged_out. vm_compute. intros H. by apply H.
  - vm_compute. reflexivity.
  - exact Hbef.
  - vm_compute. reflexivity.
Defined.

Lemma count_if_pos {A} (p : A → bool) l x :
  x ∈ l → p x = true → 0 < Z.of_nat (count_if p l).
Proof.
  intros Hx Hp. destruct (count_if p l) eqn:E; [|lia].
  rewrite count_if_0 in E. by rewrite (E x Hx) in Hp.
Qed.

Lemma find_waiter s P x :
  Owned s P → x ∈ waiting (inner s) → find_first (is_waiter (w_id x)) (waiting (inner s)) = Some x.
Proof.
  intros HO Hx. pose proof (ow_wait_nodup _ _ HO) as Hnd. unfold wids in Hnd.
  induction (waiting (inner s)) as [|y q IH]; [by apply not_elem_of_nil in Hx|].
  csimpl in Hnd. apply NoDup_cons in Hnd as [Hy Hnd]. simpl. unfold is_waiter.
  destruct (Z.eqb_spec (w_id y) (w_id x)) as [Heq|Hne].
  - apply elem_of_cons in Hx as [->|Hx]; [done|].
    destruct Hy. rewrite Heq. by apply list_elem_of_fmap_2.
  - apply elem_of_cons in Hx as [->|Hx]; [done|by apply IH].
Qed.

(** The place a ticket reports, the roster shown to the operator and the
    queue agree: whoever [take_next] would serve at an instant reports
    position 0 then and is the first entry of the roster's waiting list, and
    anybody reporting position 0 ties with it in rank. *)
Theorem next_is_first cap cfg w now x s' :
  reachable cap cfg w → take_next (sch w) now = Some (x, s') →
  position (sch w) (w_id x) now = Some 0 ∧
  (wr_ticket <$> head (ro_waiting (roster (sch w) now))) = Some (w_id x) ∧
  ∀ y, y ∈ waiting (inner (sch w)) → position (sch w) (w_id y) now = Some 0 →
    rank y now (starvation_ceiling cfg) = rank x now (starvation_ceiling cfg).
Proof.
  intros Hr. pose proof (reachable_Owned _ _ _ Hr) as HO.
  destruct (reachable_queue _ _ _ Hr) as (_ & _ & Hc). unfold take_next, position, roster.
  rewrite Hc. set (c := starvation_ceiling cfg). set (q := waiting (inner (sch w))).
  destruct (min_by _ q) as [[i m]|] eqn:E; [|done]. intros [= <- _].
  pose proof (min_by_lookup _ _ _ _ E) as Hi.
  assert (Hm : m ∈ q) by by eapply list_elem_of_lookup_2.
  assert (Hmin : ∀ v, v ∈ q → before now c v m = false) by (intros; by eapply before_min).
  assert (H0 : count_if (fun v => before now c v m) q = 0%nat) by by apply count_if_0.
  split_and!.
  - pose proof (find_waiter _ _ _ HO Hm) as Hf. fold q in Hf. rewrite Hf. cbv beta iota. by rewrite H0.
  - cbn [ro_waiting]. edestruct (sort_by_head wr_position) as [l' ->];
      [erewrite list_lookup_fmap, Hi; reflexivity | | | done]; cbn [wr_position]; rewrite H0.
    + intros y (v & -> & _)%list_elem_of_fmap. cbn [wr_position]. lia.
    + intros j y Hj Hlt. rewrite list_lookup_fmap in Hj.
      destruct (q !! j) as [v|] eqn:Hv; [|done]. injection Hj as <-.
      by eapply count_if_pos, min_by_first.
  - intros y Hy. pose proof (find_waiter _ _ _ HO Hy) as Hf. fold q in Hf.
    rewrite Hf. cbv beta iota. intros [= Hy0].
    assert (Hyx : before now c m y = false).
    { eapply (proj1 (count_if_0 (fun v => before now c v y) q)); [lia|done]. }
    specialize (Hmin y Hy). unfold before in *.
    destruct (rank y now c) as [[a1 a2] a3], (rank m now c) as [[b1 b2] b3].
    unfold rank_lt in *. f_equal; [f_equal|]; lia.
Qed.

Lemma next_is_first_witness :
  position (sch (run 1 crowd)) 4 5 = Some 0.
Proof.
  eapply (next_is_first 1 SchedulerConfig_default (run 1 crowd) 5
            (mkWaiter 4 Interactive (peer_at 2) 0 3)).
  - apply (exec_all_reachable _ _ crowd). vm_compute. reflexivity.
  - vm_compute. reflexivity.
Defined.

(** A paused scheduler admits nothing.  Until a guard is dropped, no
    event adds a running request, and a finished one's slot stays free, so a
    drain only ever sees the running set shrink. *)
Theorem paused_admits_nothing now e w w' :
  Owned (sch w) (permits w) → paused (inner (sch w)) = true → exec now e w = Some w' →
  e ≠ EvDropGuard →
  paused (inner (sch w')) = true ∧ ∀ slot, slot ∈ rids (sch w') → slot ∈ rids (sch w).
Proof.
  intros HO Hp H He. destruct w as [s P g p c]. simpl in *.
  destruct e; exec_inv H; simpl; try done.
  - apply take_free_slot_spec in E0 as [? _]. congruence.
  - unfold admit_or_enqueue in E0. destruct (take_free_slot _ _ _) as [[]|] eqn:E1.
    + apply take_free_slot_spec in E1 as [? _]. congruence.
    + destruct (push_waiter _ _ _ _). simplify_eq.
  - unfold admit_or_enqueue in E0. destruct (take_free_slot _ _ _) as [[]|]; [done|].
    unfold push_waiter in E0. by simplify_eq.
  - unfold ticket_granted in E0. repeat (case_match; try done). by simplify_eq.
  - unfold ticket_timed_out. by case_match.
  - destruct (drop_ticket_begin_spec _ _ _ _ _ HO E0) as (Hr & _ & Hp' & _).
    unfold rids. by rewrite Hr, Hp'.
  - assert (Hsub : remove_first (is_slot slot) (running (inner s)) `sublist_of` running (inner s))
      by apply remove_first_sublist.
    unfold release, rids. simpl. destruct (remove_first _ _) eqn:E1; simpl; rewrite Hp; simpl.
    all: split; [done|]; intros x Hx.
    all: eapply sublist_subseteq; [by apply fmap_sublist|done].
  - unfold set_capacity_grant. by rewrite Hp.
  - split; [done|]. unfold rids. simpl. by rewrite update_first_fmap.
  - split; [done|]. unfold rids. simpl. by rewrite update_first_fmap.
Qed.

(** A request runs, another is queued, a guard is held; then the first ends. *)
Definition swap : list (Instant * Event) :=
  [(0, EvAdmit Bulk (peer_at 1)); (1, EvAdmit Bulk (peer_at 2)); (2, EvPause)].

Lemma paused_admits_nothing_witness :
  ∃ w', exec 3 (EvDropPermit 1) (run 1 swap) = Some w' ∧
    paused (inner (sch w')) = true ∧ ∀ slot, slot ∈ rids (sch w') → slot ∈ rids (sch (run 1 swap)).
Proof.
  eexists. split; [vm_compute; reflexivity|].
  apply (paused_admits_nothing 3 (EvDropPermit 1)).
  - apply (reachable_Owned 1 SchedulerConfig_default).
    apply (exec_all_reachable _ _ swap). vm_compute. reflexivity.
  - vm_compute. reflexivity.
  - vm_compute. reflexivity.
  - discriminate.
Defined.

(** What a finished request's slot becomes.  Outside a pause, if anyone
    waits the slot goes straight to a waiter: as many requests run as before
    and one fewer waits.  The capacity is not consulted, so after it has been
    lowered below the number running, further slots are handed out. *)
Theorem release_hands_over cap cfg w now slot w' :
  reachable cap cfg w → paused (inner (sch w)) = false → waiting (inner (sch w)) ≠ [] →
  exec now (EvDropPermit slot) w = Some w' →
  length (running (inner (sch w'))) = length (running (inner (sch w))) ∧
  S (length (waiting (inner (sch w')))) = length (waiting (inner (sch w))).
Proof.
  intros HO%reachable_Owned Hp Hq H. destruct w as [s P g p c]. exec_inv H. simpl in *.
  rewrite bool_decide_eq_true in E0.
  destruct (release_cases s slot now P E0 HO) as (s2 & HF & _ & [[_ [?|?]]|(_ & i & x & HG)]);
    [congruence|done|].
  destruct (Granted_length _ _ _ _ _ HG) as [-> Hl]. rewrite (fr_waiting _ _ HF) in Hl.
  by rewrite (fr_length _ _ HF), Hl.
Qed.

(** Two slots, both taken, one request waiting; the capacity drops to one. *)
Definition lowered : list (Instant * Event) :=
  [(0, EvAdmit Bulk (peer_at 1)); (1, EvAdmit Bulk (peer_at 1));
   (2, EvAdmit Bulk (peer_at 1)); (3, EvStoreCapacity 1); (3, EvGrantCapacity 1)].

(** One of the two finishes, and two still run against a capacity of one. *)
Lemma release_hands_over_witness :
  ∃ w', exec 4 (EvDropPermit 1) (run 2 lowered) = Some w' ∧ capacity (sch w') = 1 ∧
    length (running (inner (sch w'))) = 2%nat.
Proof.
  eexists. split; [vm_compute; reflexivity|]. split; [vm_compute; reflexivity|].
  eapply (release_hands_over 2 SchedulerConfig_default (run 2 lowered) 4 1).
  - apply (exec_all_reachable _ _ lowered). vm_compute. reflexivity.
  - vm_compute. reflexivity.
  - vm_compute. discriminate.
  - vm_compute. reflexivity.
Defined.

(** Five requests of one caller and one band on one slot: three have been
    served, the fourth still waits with the turn it was given behind them,
    and the fifth arrives. *)
Definition solo : list (Instant * Event) :=
  [(0, EvAdmit Bulk (peer_at 1)); (1, EvAdmit Bulk (peer_at 1));
   (2, EvAdmit Bulk (peer_at 1)); (3, EvAdmit Bulk (peer_at 1));
   (4, EvDropPermit 1); (5, EvClaim 2); (5, EvDropPermit 5);
   (6, EvClaim 3); (7, EvAdmit Bulk (peer_at 1)); (8, EvDropPermit 6)].

(** With a single caller the order is not the order of arrival.  A turn
    is counted against the requests queued when it is given and kept while
    they leave, so a request that arrives later can be given an earlier turn:
    there is a run of one caller and one band in which nothing has aged out
    and the later of two waiting requests is served first. *)
Theorem single_caller_overtakes :
  ∃ w w' x y, exec_all (take 9 solo) (init 1 SchedulerConfig_default) = Some w ∧
    waiting (inner (sch w)) = [x; y] ∧ w_peer x = w_peer y ∧ w_band x = w_band y ∧
    w_enqueued x < w_enqueued y ∧ ¬ aged_out x 8 SchedulerConfig_default ∧
    exec 8 (EvDropPermit 6) w = Some w' ∧ waiting (inner (sch w')) = [x] ∧
    overtakes (counters (sch w')) = 1.
Proof.
  eexists _, _, _, _. split; [vm_compute; reflexivity|].
  split; [vm_compute; reflexivity|]. split; [reflexivity|]. split; [reflexivity|].
  split; [reflexivity|]. split; [unfold aged_out; vm_compute; intros H; by apply H|].
  split; [vm_compute; reflexivity|]. split; vm_compute; reflexivity.
Qed.

(** Behind a trusted proxy, a forwarded address is honoured only when
    the socket's address is loopback before it is made canonical.  A proxy
    on this machine that connects over IPv4 to a dual-stack listener has an
    IPv4-mapped loopback address, so whatever it forwards is ignored and its
    remote clients count as local. *)
Theorem mapped_loopback_counts_as_local {T} (parse_ip : T → option IpAddr) v4 port forwarded :
  0 ≤ v4 < 2 ^ 32 → is_loopback (V4 v4) = true →
  is_local (resolve parse_ip (Some (mkSocket (V6 (0xFFFF * 2 ^ 32 + v4)) port)) forwarded true)
  = true.
Proof.
  intros Hv Hl.
  assert (Hs : (Z.shiftr (0xFFFF * 2 ^ 32 + v4) 32 =? 0xFFFF) = true).
  { rewrite Z.shiftr_div_pow2, Z.div_add_l, Z.div_small by lia. reflexivity. }
  assert (Hm : Z.land (0xFFFF * 2 ^ 32 + v4) (2 ^ 32 - 1) = v4).
  { change (2 ^ 32 - 1) with (Z.ones 32). rewrite Z.land_ones by lia.
    rewrite Z.add_comm, Z_mod_plus_full. by apply Z.mod_small. }
  assert (H1 : (0xFFFF * 2 ^ 32 + v4 =? 1) = false) by lia.
  unfold resolve, from_socket, to_canonical, is_local.
  cbv [sock_ip is_loopback peer_ip andb]. rewrite H1, Hs, Hm. exact Hl.
Qed.

(** [::ffff:127.0.0.1] forwarding 8.8.8.8 counts as local; 127.0.0.1 does not. *)
Lemma mapped_loopback_counts_as_local_witness :
  let parse s := if bool_decide (s = "8.8.8.8"%string) then Some (V4 0x08080808) else None in
  is_local (resolve parse (Some (mkSocket (V6 (0xFFFF * 2 ^ 32 + 0x7F000001)) 80))
              (Some "8.8.8.8"%string) true) = true ∧
  is_local (resolve parse (Some (mkSocket (V4 0x7F000001) 80)) (Some "8.8.8.8"%string) true)
    = false.
Proof.
  split; [|vm_compute; reflexivity].
  apply mapped_loopback_counts_as_local; [lia|vm_compute; reflexivity].
Defined.
