(* ===== verification/Names.v ===== *)
(** * Names

    How a model, a route, a node and a deployment are called:
    [crates/lightweight-catalog/src/alias.rs] and the identifier types of
    [crates/lightweight-router/src/domain.rs].

    A Rust [str] is the list of its characters, a [char] its code point.
    [to_lowercase] follows the Unicode case tables, which are not part of the
    program: it is the operation of the class [LowerCase], and nothing is
    assumed about it. *)

From stdpp Require Import base list gmap strings numbers.
From S2P Require Import Prelude.

Abbreviation char := Z (only parsing).
Definition str : Type := list Z.

(** A literal. *)
Fixpoint lit (s : string) : str :=
  match s with
  | EmptyString => []
  | String a s => Z.of_N (Ascii.N_of_ascii a) :: lit s
  end.

Class LowerCase := to_lowercase : str → str.

(** [char::is_whitespace]: the Unicode property White_Space. *)
Definition is_whitespace (c : char) : bool :=
  ((9 <=? c) && (c <=? 13)) || (c =? 32) || (c =? 0x85) || (c =? 0xA0) || (c =? 0x1680)
  || ((0x2000 <=? c) && (c <=? 0x200A)) || (c =? 0x2028) || (c =? 0x2029)
  || (c =? 0x202F) || (c =? 0x205F) || (c =? 0x3000).

(** [char::is_control]: the general category Cc. *)
Definition is_control (c : char) : bool :=
  ((0 <=? c) && (c <=? 0x1F)) || ((0x7F <=? c) && (c <=? 0x9F)).

Definition is_ascii_alphanumeric (c : char) : bool :=
  ((48 <=? c) && (c <=? 57)) || ((65 <=? c) && (c <=? 90)) || ((97 <=? c) && (c <=? 122)).

Definition ascii_lower (c : char) : char := if (65 <=? c) && (c <=? 90) then c + 32 else c.

(** Case folding of the ASCII letters alone, for concrete examples. *)
Definition ascii_case : LowerCase := fmap ascii_lower.

(** [str::eq_ignore_ascii_case]. *)
Definition eq_ignore_ascii_case (a b : str) : bool :=
  bool_decide (ascii_lower <$> a = ascii_lower <$> b).

Fixpoint trim_start (s : str) : str :=
  match s with
  | [] => []
  | c :: s' => if is_whitespace c then trim_start s' else s
  end.

(** [str::trim]. *)
Definition trim (s : str) : str := reverse (trim_start (reverse (trim_start s))).

(** A hexadecimal digit, in lower case. *)
Definition hex_digit (d : Z) : char := if d <? 10 then 48 + d else 87 + d.

(** ** Aliases *)

Definition MAX_ALIAS_CHARS : usize := 64.

Definition RESERVED_SELECTORS : list str := [lit "default"].

Definition is_reserved (name : str) : bool :=
  let name := trim name in
  existsb (fun reserved => eq_ignore_ascii_case reserved name) RESERVED_SELECTORS.

Inductive ModelSelector := SelDefault | SelNamed (name : str).

Definition ModelSelector_parse (requested : option str) : ModelSelector :=
  let trimmed := trim (default [] requested) in
  if bool_decide (trimmed = []) || is_reserved trimmed then SelDefault else SelNamed trimmed.

Definition lookup_key `{LowerCase} (name : str) : str := to_lowercase (trim name).

Definition same_name `{LowerCase} (a b : str) : bool :=
  bool_decide (lookup_key a = lookup_key b).

Inductive AliasProblem := APEmpty | APTooLong | APReserved | APCharacter (c : char) | APDotSegment.

Definition forbidden_in_alias (c : char) : bool :=
  (c =? 47) || (c =? 92) || (c =? 64) || is_control c.

Definition validate_alias (raw : str) : result str AliasProblem :=
  let alias := trim raw in
  if bool_decide (alias = []) then Err APEmpty
  else if MAX_ALIAS_CHARS <? Z.of_nat (length alias) then Err APTooLong
  else if is_reserved alias then Err APReserved
  else if bool_decide (alias = lit ".") || bool_decide (alias = lit "..") then Err APDotSegment
  else match find_first forbidden_in_alias alias with
       | Some bad => Err (APCharacter bad)
       | None => Ok alias
       end.

(** ** Identifiers of the router *)

Definition MAX_NODE_ID_CHARS : usize := 64.

Record NodeId := mkNodeId { node_str : str }.
Record DeploymentId := mkDeploymentId { deployment_str : str }.
Record RouteName := mkRouteName { route_str : str }.

#[export] Instance NodeId_eq_dec : EqDecision NodeId.
Proof. solve_decision. Defined.
#[export] Instance DeploymentId_eq_dec : EqDecision DeploymentId.
Proof. solve_decision. Defined.
#[export] Instance RouteName_eq_dec : EqDecision RouteName.
Proof. solve_decision. Defined.
#[export] Instance NodeId_countable : Countable NodeId.
Proof. refine (inj_countable' node_str mkNodeId _). by intros []. Defined.
#[export] Instance DeploymentId_countable : Countable DeploymentId.
Proof. refine (inj_countable' deployment_str mkDeploymentId _). by intros []. Defined.

(** The three refusals of [NodeId::parse], by the sentence they are told with. *)
Inductive NodeIdProblem := NIEmpty | NITooLong | NICharacter (c : char).

Definition allowed_in_node_id (c : char) : bool :=
  is_ascii_alphanumeric c || (c =? 46) || (c =? 95) || (c =? 45).

Definition NodeId_parse (raw : str) : result NodeId NodeIdProblem :=
  let id := trim raw in
  if bool_decide (id = []) then Err NIEmpty
  else if MAX_NODE_ID_CHARS <? Z.of_nat (length id) then Err NITooLong
  else match find_first (fun c => negb (allowed_in_node_id c)) id with
       | Some bad => Err (NICharacter bad)
       | None => Ok (mkNodeId id)
       end.

Definition DeploymentId_of (node : NodeId) (remote_model : str) : DeploymentId :=
  mkDeploymentId (node_str node ++ [47] ++ remote_model).

Definition RouteName_parse (raw : str) : result RouteName AliasProblem :=
  let? alias := validate_alias raw in Ok (mkRouteName alias).

(** [RouteName::matches]. *)
Definition name_matches `{LowerCase} (r : RouteName) (requested : str) : bool :=
  same_name (route_str r) requested.

(** ** Lemmas *)

Lemma trim_start_cases s :
  trim_start s = [] ∨ ∃ c k, trim_start s = c :: k ∧ is_whitespace c = false.
Proof.
  induction s as [|c s IH]; simpl; [by left|]. destruct (is_whitespace c) eqn:E; [done|].
  right. eauto.
Qed.

Lemma trim_start_fixed s :
  (∀ c, head s = Some c → is_whitespace c = false) → trim_start s = s.
Proof. destruct s as [|c s]; [done|]. intros H. simpl. by rewrite (H c eq_refl). Qed.

Lemma trim_start_head s c : head (trim_start s) = Some c → is_whitespace c = false.
Proof.
  destruct (trim_start_cases s) as [->|(d & k & -> & Hd)]; [done|]. by intros [= <-].
Qed.

Lemma trim_start_suffix s : trim_start s `suffix_of` s.
Proof.
  induction s as [|c s IH]; simpl; [done|]. case_match; [|done]. by apply suffix_cons_r.
Qed.

(** A name that has been trimmed once is left alone. *)
Lemma trim_idemp s : trim (trim s) = trim s.
Proof.
  unfold trim. set (t := trim_start s).
  assert (Ht : ∀ c, head t = Some c → is_whitespace c = false) by apply trim_start_head.
  set (u := trim_start (reverse t)).
  assert (Hu : ∀ c, head u = Some c → is_whitespace c = false) by apply trim_start_head.
  assert (Hsuf : u `suffix_of` reverse t) by apply trim_start_suffix.
  rewrite (trim_start_fixed (reverse u)).
  - by rewrite reverse_involutive, (trim_start_fixed u Hu).
  - intros c Hc. apply Ht. destruct Hsuf as [k Hk].
    assert (Hrev : t = reverse u ++ reverse k)
      by (by rewrite <-(reverse_involutive t), Hk, reverse_app).
    rewrite Hrev. by destruct (reverse u).
Qed.

Lemma find_first_None {A} (p : A → bool) l :
  find_first p l = None ↔ ∀ x, x ∈ l → p x = false.
Proof.
  split.
  - intros H x Hx. destruct (p x) eqn:E; [|done].
    destruct (find_first_is_Some p l x Hx E). congruence.
  - intros H. destruct (find_first p l) eqn:E; [|done].
    apply find_first_Some in E as [Hx Hp]. rewrite H in Hp; done.
Qed.

Lemma validate_alias_Ok raw a :
  validate_alias raw = Ok a →
  a = trim raw ∧ a ≠ [] ∧ Z.of_nat (length a) ≤ MAX_ALIAS_CHARS ∧ is_reserved a = false ∧
  a ≠ lit "." ∧ a ≠ lit ".." ∧ ∀ c, c ∈ a → forbidden_in_alias c = false.
Proof.
  unfold validate_alias. case_bool_decide; [done|].
  destruct (Z.ltb_spec MAX_ALIAS_CHARS (Z.of_nat (length (trim raw)))); [done|].
  destruct (is_reserved (trim raw)) eqn:?; [done|].
  case_bool_decide; [done|]. case_bool_decide; [done|]. simpl.
  destruct (find_first _ _) eqn:E; [done|]. intros [= <-].
  by split_and!; [..|apply find_first_None].
Qed.

Lemma NodeId_parse_Ok raw n :
  NodeId_parse raw = Ok n →
  node_str n = trim raw ∧ node_str n ≠ [] ∧
  Z.of_nat (length (node_str n)) ≤ MAX_NODE_ID_CHARS ∧
  ∀ c, c ∈ node_str n → allowed_in_node_id c = true.
Proof.
  unfold NodeId_parse. case_bool_decide; [done|].
  destruct (Z.ltb_spec MAX_NODE_ID_CHARS (Z.of_nat (length (trim raw)))); [done|].
  destruct (find_first _ _) eqn:E; [done|]. intros [= <-]. split_and!; try done.
  intros c Hc. rewrite find_first_None in E. specialize (E c Hc).
  by destruct (allowed_in_node_id c).
Qed.

(** A list splits at its first separator in one way. *)
Lemma app_sep_inj {A} (sep : A) l1 l2 k1 k2 :
  sep ∉ l1 → sep ∉ l2 → l1 ++ [sep] ++ k1 = l2 ++ [sep] ++ k2 → l1 = l2 ∧ k1 = k2.
Proof.
  revert l2. induction l1 as [|a l1 IH]; intros [|b l2] H1 H2 H; simplify_eq/=.
  - done.
  - by destruct H2; apply list_elem_of_here.
  - by destruct H1; apply list_elem_of_here.
  - destruct (IH l2) as [-> ->]; [..|done].
    + intros Hin. apply H1. by apply list_elem_of_further.
    + intros Hin. apply H2. by apply list_elem_of_further.
    + done.
Qed.

(** ** Properties *)

(** An accepted alias can always be used to reach its model.  It is
    stored trimmed, accepting it again changes nothing, and as the [model]
    of a request it is read as that name and never as the default selector;
    it holds no character that breaks a path or a context suffix. *)
Theorem alias_roundtrip raw a :
  validate_alias raw = Ok a →
  validate_alias a = Ok a ∧ ModelSelector_parse (Some raw) = SelNamed a ∧
  ModelSelector_parse (Some a) = SelNamed a ∧
  Z.of_nat (length a) ≤ 64 ∧ ∀ c, c ∈ a → forbidden_in_alias c = false.
Proof.
  intros H. pose proof (validate_alias_Ok _ _ H) as (Ha & Hne & Hlen & Hres & _ & _ & Hc).
  assert (Ht : trim a = a) by (rewrite Ha; apply trim_idemp).
  split_and!; try done.
  - unfold validate_alias in H |- *. rewrite Ht. by rewrite <-Ha in H.
  - unfold ModelSelector_parse. simpl. rewrite <-Ha, Hres.
    by rewrite bool_decide_eq_false_2.
  - unfold ModelSelector_parse. simpl. rewrite Ht, Hres.
    by rewrite bool_decide_eq_false_2.
Qed.

Lemma alias_roundtrip_witness :
  validate_alias (lit "Coder") = Ok (lit "Coder") ∧
  ModelSelector_parse (Some (lit "  Coder ")) = SelNamed (lit "Coder") ∧
  validate_alias (lit " DeFault") = Err APReserved.
Proof.
  destruct (alias_roundtrip (lit "  Coder ") (lit "Coder") eq_refl) as (H1 & H2 & _).
  split_and!; [exact H1 | exact H2 | reflexivity].
Defined.

(** A deployment id names exactly one node and one model: ids built from
    accepted node ids are equal only for the same node and model. *)
Theorem deployment_id_injective raw1 raw2 n1 n2 m1 m2 :
  NodeId_parse raw1 = Ok n1 → NodeId_parse raw2 = Ok n2 →
  DeploymentId_of n1 m1 = DeploymentId_of n2 m2 → n1 = n2 ∧ m1 = m2.
Proof.
  intros (_ & _ & _ & H1)%NodeId_parse_Ok (_ & _ & _ & H2)%NodeId_parse_Ok [= H].
  destruct n1 as [s1], n2 as [s2]. simpl in *.
  apply (app_sep_inj 47) in H as [-> ->]; [done| |].
  - by intros Hin%H1.
  - by intros Hin%H2.
Qed.

Lemma deployment_id_injective_witness :
  lit "QwenCoder" = lit "QwenCoder" ∧
  DeploymentId_of (mkNodeId (lit "dell-7820")) (lit "QwenCoder")
    = mkDeploymentId (lit "dell-7820/QwenCoder").
Proof.
  split; [|reflexivity].
  apply (deployment_id_injective (lit " dell-7820") (lit "dell-7820")
           (mkNodeId (lit "dell-7820")) (mkNodeId (lit "dell-7820"))); reflexivity.
Defined.
