(* ===== verification/Net.v ===== *)
(** * Reading network addresses

    [str::parse] into [IpAddr] and [SocketAddr], of the standard library, as
    the configurations and the proxy header use it.  Each reader takes the
    text and returns what it read with the rest. *)

From stdpp Require Import base strings numbers list.
From S2P Require Import Prelude Scheduler Names.

Definition Reads (A : Type) : Type := str → option (A * str).

(** [char::to_digit]. *)
Definition to_digit (radix : Z) (c : char) : option Z :=
  let d := if (48 <=? c) && (c <=? 57) then Some (c - 48)
           else if (97 <=? c) && (c <=? 122) then Some (c - 87)
           else if (65 <=? c) && (c <=? 90) then Some (c - 55)
           else None in
  match d with Some d => if d <? radix then Some d else None | None => None end.

Fixpoint read_digits (radix : Z) (s : str) : list Z * str :=
  match s with
  | [] => ([], [])
  | c :: s' =>
      match to_digit radix c with
      | Some d => let '(ds, rest) := read_digits radix s' in (d :: ds, rest)
      | None => ([], s)
      end
  end.

Definition of_digits (radix : Z) (ds : list Z) : Z := foldl (fun n d => n * radix + d) 0 ds.

Definition read_number (radix bound : Z) (max_digits : option nat) (zero_prefix : bool) : Reads Z :=
  fun s =>
    let '(ds, rest) := read_digits radix s in
    if bool_decide (ds = []) then None
    else if match max_digits with Some m => (m <? length ds)%nat | None => false end then None
    else if negb zero_prefix && bool_decide (head ds = Some 0) && (1 <? length ds)%nat then None
    else let n := of_digits radix ds in
         if bound <? n then None else Some (n, rest).

Definition read_given (c : char) : Reads unit :=
  fun s => match s with
           | d :: s => if d =? c then Some (tt, s) else None
           | [] => None
           end.

(** A separator before every item but the first. *)
Definition read_separator {A} (sep : char) (index : nat) (inner : Reads A) : Reads A :=
  fun s => if bool_decide (index = 0%nat) then inner s
           else let! '(_, s) := read_given sep s in inner s.

Definition read_octet (index : nat) : Reads Z :=
  read_separator 46 index (read_number 10 255 (Some 3%nat) false).

Definition read_ipv4 : Reads Z := fun s =>
  let! '(a, s) := read_octet 0 s in
  let! '(b, s) := read_octet 1 s in
  let! '(c, s) := read_octet 2 s in
  let! '(d, s) := read_octet 3 s in
  Some (of_digits 256 [a; b; c; d], s).

(** The groups of an IPv6 address, up to [room] of them, and whether the last
    two were written as an IPv4 address. *)
Fixpoint read_groups (room index : nat) (s : str) : list Z * bool * str :=
  match room with
  | O => ([], false, s)
  | S room =>
      match (if bool_decide (room = 0%nat) then None else read_separator 58 index read_ipv4 s) with
      | Some (v4, s) => ([v4 / 65536; v4 mod 65536], true, s)
      | None =>
          match read_separator 58 index (read_number 16 65535 (Some 4%nat) true) s with
          | Some (g, s) => let '(gs, v4, s) := read_groups room (S index) s in (g :: gs, v4, s)
          | None => ([], false, s)
          end
      end
  end.

Definition read_ipv6 : Reads Z := fun s =>
  let '(front, v4, s) := read_groups 8 0 s in
  if bool_decide (length front = 8%nat) then Some (of_digits 65536 front, s)
  else if (v4 : bool) then None
  else
    let! '(_, s) := read_given 58 s in
    let! '(_, s) := read_given 58 s in
    let '(back, _, s) := read_groups (8 - (length front + 1)) 0 s in
    Some (of_digits 65536
            (front ++ replicate (8 - length front - length back) 0 ++ back), s).

(** The whole text must be read. *)
Definition whole {A} (r : option (A * str)) : option A :=
  match r with Some (a, []) => Some a | _ => None end.

Definition read_ip : Reads IpAddr := fun s =>
  match read_ipv4 s with
  | Some (a, s) => Some (V4 a, s)
  | None => let! '(a, s) := read_ipv6 s in Some (V6 a, s)
  end.

Definition read_port : Reads Z := fun s =>
  let! '(_, s) := read_given 58 s in read_number 10 65535 None true s.

Definition read_scope : Reads Z := fun s =>
  let! '(_, s) := read_given 37 s in read_number 10 U32_MAX None true s.

(** A scope id is read and, mattering to no test of an address, dropped. *)
Definition read_socket : Reads SocketAddr := fun s =>
  match (let! '(a, s) := read_ipv4 s in let! '(p, s) := read_port s in
         Some (mkSocket (V4 a) p, s)) with
  | Some r => Some r
  | None =>
      let! '(_, s) := read_given 91 s in
      let! '(a, s) := read_ipv6 s in
      let s := match read_scope s with Some (_, s) => s | None => s end in
      let! '(_, s) := read_given 93 s in
      let! '(p, s) := read_port s in
      Some (mkSocket (V6 a) p, s)
  end.

(** [str::parse::<IpAddr>] and [str::parse::<SocketAddr>]. *)
Definition parse_ip (s : str) : option IpAddr := whole (read_ip s).
Definition parse_socket (s : str) : option SocketAddr := whole (read_socket s).

(** [str::parse] into an unsigned integer: one [+] is let by. *)
Definition parse_unsigned (bound : Z) (s : str) : option Z :=
  let s := match s with 43 :: s => s | s => s end in
  whole (read_number 10 bound None true s).

(** What a few texts are. *)
Lemma addresses_read :
  parse_ip (lit "127.0.0.1") = Some (V4 0x7F000001) ∧
  parse_ip (lit "127.0.0.01") = None ∧ parse_ip (lit "256.0.0.1") = None ∧
  parse_ip (lit "::1") = Some (V6 1) ∧
  parse_ip (lit "::ffff:127.0.0.1") = Some (V6 0xFFFF7F000001) ∧
  parse_ip (lit "fd00::1") = Some (V6 (0xfd00 * 2 ^ 112 + 1)) ∧
  parse_ip (lit "1:2:3:4:5:6:7::8") = None ∧ parse_ip (lit "1::2::3") = None ∧
  parse_socket (lit "[::1]:11500") = Some (mkSocket (V6 1) 11500) ∧
  parse_socket (lit "10.0.0.1:65536") = None ∧ parse_socket (lit "10.0.0.1") = None.
Proof. by vm_compute. Qed.
