(* ===== verification/Limits.v ===== *)
(** * Per-key request limits

    [crates/lightweight-gateway/src/limits.rs]: the rolling per-minute and the
    per-day ceiling of each named key.  [limiter_admit] ([RateLimiter::admit]) is one critical section; the
    instant it read before taking the lock and its two readings of the wall
    clock are arguments. *)

From stdpp Require Import base gmap strings numbers sorting list.
From S2P Require Import Prelude Names.

Definition MINUTE : Duration := from_secs 60.
Definition DAY_SECS : u64 := 86400.

Record RateLimit := mkRateLimit { per_minute : option u32; per_day : option u32 }.

Record Usage := mkUsage {
  recent : list Instant;
  day_count : u32;
  day : u64;
  total : u64;
  last_used : u64 }.

Definition Usage_default : Usage := mkUsage [] 0 0 0 0.

Inductive Ceiling := PerMinute | PerDay.

Record Throttled := mkThrottled { retry_after : u64; which : Ceiling }.

Record RateLimiter := mkLimiter { keys : gmap str Usage }.

Definition RateLimiter_new : RateLimiter := mkLimiter ∅.

(** [Instant::duration_since], which saturates at zero. *)
Definition duration_since (now earlier : Instant) : Duration :=
  saturating_duration_since now earlier.

(** The [while let] at the head of the window. *)
Fixpoint prune (now : Instant) (l : list Instant) : list Instant :=
  match l with
  | [] => []
  | front :: l' => if MINUTE <=? duration_since now front then prune now l' else l
  end.

(** Roll the day over when it changed. *)
Definition roll_day (today : u64) (u : Usage) : Usage :=
  if bool_decide (day u = today) then u
  else mkUsage (recent u) 0 today (total u) (last_used u).

(** The two ceilings, in the order they are tried. *)
Definition over_minute (limit : RateLimit) (now : Instant) (u : Usage) : option Throttled :=
  match per_minute limit with
  | Some m =>
      if m <=? Z.of_nat (length (recent u)) mod 2 ^ 32
      then let oldest := default now (head (recent u)) in
           let wait := sat_sub MINUTE (duration_since now oldest) in
           Some (mkThrottled (Z.max (as_secs wait) 1) PerMinute)
      else None
  | None => None
  end.

Definition over_day (limit : RateLimit) (unix : u64) (u : Usage) : option Throttled :=
  match per_day limit with
  | Some m =>
      if m <=? day_count u
      then Some (mkThrottled (Z.max (DAY_SECS - unix mod DAY_SECS) 1) PerDay)
      else None
  | None => None
  end.

(** [u0] is the wall clock read on entry, [u1] the one read on the way out. *)
Definition admit_usage (now : Instant) (u0 u1 : u64) (limit : RateLimit) (u : Usage)
    : result unit Throttled * Usage :=
  let u := mkUsage (prune now (recent u)) (day_count u) (day u) (total u) (last_used u) in
  let u := roll_day (u0 / DAY_SECS) u in
  match over_minute limit now u with
  | Some t => (Err t, u)
  | None =>
      match over_day limit u1 u with
      | Some t => (Err t, u)
      | None =>
          (Ok tt, mkUsage (recent u ++ [now]) ((day_count u + 1) mod 2 ^ 32) (day u)
                    ((total u + 1) mod 2 ^ 64) u1)
      end
  end.

Definition limiter_admit (l : RateLimiter) (key : str) (now : Instant) (u0 u1 : u64)
    (limit : RateLimit) : result unit Throttled * RateLimiter :=
  let '(r, u) := admit_usage now u0 u1 limit (default Usage_default (keys l !! key)) in
  (r, mkLimiter (<[key := u]> (keys l))).

Record UsageSnapshot := mkUsageSnapshot {
  us_total : u64;
  us_last_used : option u64;
  us_in_last_minute : u32;
  us_today : u32 }.

Definition UsageSnapshot_default : UsageSnapshot := mkUsageSnapshot 0 None 0 0.

Definition limit_snapshot (l : RateLimiter) (key : str) (now : Instant) : UsageSnapshot :=
  match keys l !! key with
  | None => UsageSnapshot_default
  | Some u =>
      mkUsageSnapshot (total u)
        (if last_used u =? 0 then None else Some (last_used u))
        (Z.of_nat (count_if (fun t => duration_since now t <? MINUTE) (recent u)) mod 2 ^ 32)
        (day_count u)
  end.

Definition forget (l : RateLimiter) (key : str) : RateLimiter :=
  mkLimiter (delete key (keys l)).

(** ** Sequences of calls *)

Inductive Call :=
| CallAdmit (key : str) (now : Instant) (u0 u1 : u64) (limit : RateLimit)
| CallForget (key : str).

(** The limiter after the calls, and when it admitted a request of [k]. *)
Fixpoint run_calls (k : str) (cs : list Call) (l : RateLimiter) (log : list Instant)
    : RateLimiter * list Instant :=
  match cs with
  | [] => (l, log)
  | CallAdmit key now u0 u1 limit :: cs =>
      let '(r, l') := limiter_admit l key now u0 u1 limit in
      run_calls k cs l' (if bool_decide (key = k) && is_ok r then log ++ [now] else log)
  | CallForget key :: cs => run_calls k cs (forget l key) log
  end.

(** The instants of the calls never go back, starting from [c]. *)
Fixpoint in_order (c : Instant) (cs : list Call) : Prop :=
  match cs with
  | [] => True
  | CallAdmit _ now _ _ _ :: cs => c ≤ now ∧ in_order now cs
  | CallForget _ :: cs => in_order c cs
  end.

(** Every call for [k] carries the same per-minute ceiling, and [k] is not
    forgotten. *)
Definition metered (k : str) (m : u32) (cs : list Call) : Prop :=
  ∀ c, c ∈ cs → match c with
                | CallAdmit key _ _ _ limit => key = k → per_minute limit = Some m
                | CallForget key => key ≠ k
                end.

(** Admitted in the minute that ends at [t]. *)
Definition in_minute (t : Instant) (log : list Instant) : nat :=
  count_if (fun a => (t - MINUTE <? a) && (a <=? t)) log.

(** ** The rolling window *)

Lemma prune_split now l :
  (∀ a, a ∈ l → a ≤ now) →
  ∃ gone, l = gone ++ prune now l ∧ ∀ a, a ∈ gone → a + MINUTE ≤ now.
Proof.
  induction l as [|x l IH]; intros Hl; simpl.
  { exists []. split; [done|]. by intros a ?%not_elem_of_nil. }
  destruct (Z.leb_spec MINUTE (duration_since now x)) as [Hx|Hx].
  - destruct IH as (gone & Heq & Hg). { intros a Ha. apply Hl. by apply list_elem_of_further. }
    exists (x :: gone). split; [by rewrite Heq at 1|].
    intros a [->|Ha]%elem_of_cons; [|by apply Hg].
    unfold duration_since, saturating_duration_since, MINUTE, from_secs in *. lia.
  - exists []. split; [done|]. by intros a ?%not_elem_of_nil.
Qed.

Lemma prune_prune now now' l :
  now ≤ now' → prune now' (prune now l) = prune now' l.
Proof.
  intros Hle. induction l as [|x l IH]; simpl; [done|].
  destruct (Z.leb_spec MINUTE (duration_since now x)) as [Hx|Hx]; [|done].
  destruct (Z.leb_spec MINUTE (duration_since now' x)); [done|].
  unfold duration_since, saturating_duration_since, MINUTE, from_secs in *. lia.
Qed.

Lemma count_if_app {A} (p : A → bool) l k : count_if p (l ++ k) = (count_if p l + count_if p k)%nat.
Proof. unfold count_if. by rewrite List.filter_app, length_app. Qed.

Lemma count_if_le {A} (p : A → bool) l : (count_if p l ≤ length l)%nat.
Proof. apply filter_length_le. Qed.

(** What the window of a metered key says about its log. *)
Record Window (m : u32) (c : Instant) (r log : list Instant) : Prop := {
  win_split : ∃ old, log = old ++ r ∧ ∀ a, a ∈ old → a + MINUTE ≤ c;
  win_past : ∀ a, a ∈ log → a ≤ c;
  win_size : Z.of_nat (length r) ≤ m;
  win_bound : ∀ t, Z.of_nat (in_minute t log) ≤ m }.

Lemma Window_prune m c now r log :
  c ≤ now → Window m c r log → Window m now (prune now r) log.
Proof.
  intros Hc [(old & Hlog & Hold) Hpast Hsize Hbound].
  destruct (prune_split now r) as (gone & Hr & Hgone).
  { intros a Ha. specialize (Hpast a). rewrite Hlog, elem_of_app in Hpast.
    specialize (Hpast (or_intror Ha)). lia. }
  constructor; try done.
  - exists (old ++ gone). split; [by rewrite Hlog, Hr at 1; rewrite app_assoc|].
    intros a [Ha%Hold|Ha%Hgone]%elem_of_app; lia.
  - intros a Ha%Hpast. lia.
  - assert (length r = length gone + length (prune now r))%nat by (by rewrite Hr at 1; rewrite length_app).
    lia.
Qed.

Lemma Window_push m now r log :
  Window m now r log → Z.of_nat (length r) < m → Window m now (r ++ [now]) (log ++ [now]).
Proof.
  intros [(old & Hlog & Hold) Hpast Hsize Hbound] Hlt. constructor.
  - exists old. by rewrite Hlog, app_assoc.
  - intros a [Ha%Hpast | ->%list_elem_of_singleton]%elem_of_app; lia.
  - rewrite length_app. simpl. lia.
  - intros t. unfold in_minute. rewrite count_if_app.
    destruct ((t - MINUTE <? now) && (now <=? t)) eqn:Ew.
    + apply andb_true_iff in Ew as [Hlo%Z.ltb_lt Hhi%Z.leb_le].
      rewrite Hlog, count_if_app.
      assert (count_if (fun a => (t - MINUTE <? a) && (a <=? t)) old = 0%nat) as ->.
      { apply count_if_0. intros a Ha%Hold. lia. }
      pose proof (count_if_le (fun a => (t - MINUTE <? a) && (a <=? t)) r).
      pose proof (count_if_le (fun a => (t - MINUTE <? a) && (a <=? t)) [now]). simpl in *. lia.
    + specialize (Hbound t). unfold in_minute in Hbound.
      assert (count_if (fun a => (t - MINUTE <? a) && (a <=? t)) [now] = 0%nat) as ->; [|lia].
      apply count_if_0. by intros a ->%list_elem_of_singleton.
Qed.

Lemma roll_day_recent today u : recent (roll_day today u) = recent u.
Proof. unfold roll_day. by case_bool_decide. Qed.

Lemma admit_usage_window m c now u0 u1 limit u log :
  0 ≤ m ≤ U32_MAX → per_minute limit = Some m → c ≤ now → Window m c (recent u) log →
  let '(r, u') := admit_usage now u0 u1 limit u in
  Window m now (recent u') (if is_ok r then log ++ [now] else log).
Proof.
  intros Hm Hlim Hc HW. unfold admit_usage.
  set (u1' := mkUsage (prune now (recent u)) _ _ _ _).
  pose proof (roll_day_recent (u0 / DAY_SECS) u1') as Hrec.
  apply (Window_prune _ _ now) in HW; [|done].
  assert (Hu1 : recent u1' = prune now (recent u)) by done. rewrite Hu1 in Hrec.
  destruct (over_minute limit now (roll_day _ u1')) as [t|] eqn:Em.
  { simpl. by rewrite Hrec. }
  destruct (over_day limit u1 _) as [t|]; [simpl; by rewrite Hrec|].
  simpl. rewrite Hrec. apply Window_push; [done|].
  unfold over_minute in Em. rewrite Hlim, Hrec in Em.
  pose proof (win_size _ _ _ _ HW).
  rewrite Z.mod_small in Em by (unfold U32_MAX in *; lia).
  destruct (Z.leb_spec m (Z.of_nat (length (prune now (recent u))))); [done|lia].
Qed.

(** The rolling window holds at every instant.  Whatever calls are made
    for whatever keys, in the order of their instants, a key metered at [m]
    requests a minute has at most [m] requests admitted in every sixty-second
    window, wherever the window is placed. *)
Theorem window_never_exceeded k m c cs :
  0 ≤ m ≤ U32_MAX → in_order c cs → metered k m cs →
  ∀ t, Z.of_nat (in_minute t (snd (run_calls k cs RateLimiter_new []))) ≤ m.
Proof.
  intros Hm Ho Hk.
  assert (Hgen : ∀ l log, Window m c (recent (default Usage_default (keys l !! k))) log →
    ∀ t, Z.of_nat (in_minute t (snd (run_calls k cs l log))) ≤ m).
  { revert c Ho Hk. induction cs as [|[key now u0 u1 limit|key] cs IH]; intros c Ho Hk l log HW.
    - simpl. apply HW.
    - destruct Ho as [Hc Ho]. simpl. unfold limiter_admit.
      assert (Hk' : metered k m cs) by (intros x Hx; apply Hk; by apply list_elem_of_further).
      specialize (Hk _ (list_elem_of_here _ _)). simpl in Hk.
      case_bool_decide as Hkey.
      + subst key. pose proof (admit_usage_window m c now u0 u1 limit _ log Hm (Hk eq_refl) Hc HW) as HA.
        destruct (admit_usage _ _ _ _ _) as [r u']. simpl. apply (IH now Ho Hk').
        simpl. by rewrite lookup_insert_eq.
      + destruct (admit_usage _ _ _ _ _) as [r u']. simpl. apply (IH now Ho Hk').
        simpl. rewrite lookup_insert_ne by done.
        destruct HW as [(old & ? & Hold) Hpast ? ?]. constructor; try done.
        * exists old. split; [done|]. intros a Ha%Hold. lia.
        * intros a Ha%Hpast. lia.
    - simpl. apply (IH c Ho); [intros x Hx; apply Hk; by apply list_elem_of_further|].
      specialize (Hk _ (list_elem_of_here _ _)). simpl in *. by rewrite lookup_delete_ne. }
  apply Hgen. constructor; simpl.
  - exists []. split; [done|]. by intros a ?%not_elem_of_nil.
  - by intros a ?%not_elem_of_nil.
  - rewrite lookup_empty. simpl. lia.
  - intros t. change (in_minute t []) with 0%nat. lia.
Qed.

Definition two_a_minute : RateLimit := mkRateLimit (Some 2) None.

Definition burst : list Call :=
  [CallAdmit (lit "k") 0 0 0 two_a_minute; CallAdmit (lit "k") 1 0 0 two_a_minute;
   CallAdmit (lit "k") 2 0 0 two_a_minute; CallAdmit (lit "k") MINUTE 0 0 two_a_minute].

(** The third is refused, the fourth admitted: two in any minute. *)
Lemma window_never_exceeded_witness :
  Z.of_nat (in_minute MINUTE (snd (run_calls (lit "k") burst RateLimiter_new []))) ≤ 2 ∧
  snd (run_calls (lit "k") burst RateLimiter_new []) = [0; 1; MINUTE].
Proof.
  split; [|vm_compute; reflexivity].
  apply (window_never_exceeded (lit "k") 2 0 burst).
  - unfold U32_MAX. lia.
  - simpl. unfold MINUTE, from_secs. lia.
  - intros c Hc. unfold burst in Hc.
    repeat (apply elem_of_cons in Hc as [->|Hc]; [reflexivity|]). by apply not_elem_of_nil in Hc.
Defined.

(** A refusal leaves no trace.  After a refused call, every later call
    (later instant, wall clock not set back) is decided, and leaves the key,
    exactly as if the refused one had never been made: a caller that keeps
    trying does not push its own next turn away. *)
Theorem refusal_leaves_no_trace now u0 u1 limit u t u' now' v0 v1 limit' :
  admit_usage now u0 u1 limit u = (Err t, u') →
  now ≤ now' → day u ≤ u0 / DAY_SECS → u0 ≤ v0 →
  admit_usage now' v0 v1 limit' u' = admit_usage now' v0 v1 limit' u.
Proof.
  intros H Hnow Hday Hu. unfold admit_usage in H.
  set (p := mkUsage (prune now (recent u)) _ _ _ _) in H.
  assert (Hu' : u' = roll_day (u0 / DAY_SECS) p).
  { destruct (over_minute _ _ _); [by simplify_eq|]. destruct (over_day _ _ _); by simplify_eq. }
  subst u'. clear H. unfold admit_usage.
  assert (Heq : roll_day (v0 / DAY_SECS)
      (mkUsage (prune now' (recent (roll_day (u0 / DAY_SECS) p)))
         (day_count (roll_day (u0 / DAY_SECS) p)) (day (roll_day (u0 / DAY_SECS) p))
         (total (roll_day (u0 / DAY_SECS) p)) (last_used (roll_day (u0 / DAY_SECS) p)))
    = roll_day (v0 / DAY_SECS)
        (mkUsage (prune now' (recent u)) (day_count u) (day u) (total u) (last_used u))).
  { rewrite roll_day_recent. unfold p at 1. simpl. rewrite prune_prune by done.
    assert (u0 / DAY_SECS ≤ v0 / DAY_SECS) by (apply Z.div_le_mono; [done|lia]).
    unfold roll_day, p. simpl. repeat (case_bool_decide; simpl in *); try congruence; try lia; f_equal; lia. }
  by rewrite Heq.
Qed.

Lemma refusal_leaves_no_trace_witness :
  let u := mkUsage [0; 1] 2 0 2 5 in
  ∃ t u', admit_usage 2 10 10 two_a_minute u = (Err t, u') ∧
    admit_usage (MINUTE + 1) 70 70 two_a_minute u' =
    admit_usage (MINUTE + 1) 70 70 two_a_minute u.
Proof.
  simpl. eexists _, _. split; [vm_compute; reflexivity|].
  eapply (refusal_leaves_no_trace 2 10 10 two_a_minute (mkUsage [0; 1] 2 0 2 5)).
  - vm_compute. reflexivity.
  - vm_compute. discriminate.
  - vm_compute. discriminate.
  - lia.
Defined.

(** The advertised wait can be too short.  [retry_after] drops the
    fraction of a second, so a key at its per-minute ceiling whose oldest
    request is not a whole number of seconds old, and that retries exactly
    when told to, is refused again. *)
Theorem retry_after_too_soon limit m now u0 u1 u oldest r v0 v1 :
  per_minute limit = Some m → 0 ≤ m ≤ Z.of_nat (length (recent u)) →
  Z.of_nat (length (recent u)) ≤ U32_MAX →
  head (recent u) = Some oldest → oldest ≤ now < oldest + MINUTE →
  from_secs 1 < oldest + MINUTE - now → (oldest + MINUTE - now) mod from_secs 1 ≠ 0 →
  fst (admit_usage now u0 u1 limit u) = Err r →
  let u' := snd (admit_usage now u0 u1 limit u) in
  let retry_at := now + from_secs (retry_after r) in
  ∃ r', fst (admit_usage retry_at v0 v1 limit u') = Err r' ∧ which r' = PerMinute.
Proof.
  intros Hlim Hm Hlen Hhead Hnow Hwait Hfrac Hfirst.
  assert (Hkeep : ∀ now', now' < oldest + MINUTE → prune now' (recent u) = recent u).
  { intros now' Hlt. destruct (recent u) as [|x l]; [done|]. simplify_eq/=.
    destruct (Z.leb_spec MINUTE (duration_since now' oldest)); [|done].
    unfold duration_since, saturating_duration_since, MINUTE, from_secs in *. lia. }
  assert (Hover : ∀ now' today v, recent v = recent u →
    over_minute limit now' (roll_day today v) =
    Some (mkThrottled (Z.max (as_secs (sat_sub MINUTE (duration_since now' oldest))) 1) PerMinute)).
  { intros now' today v Hv. unfold over_minute. rewrite Hlim, roll_day_recent, Hv, Hhead. simpl.
    rewrite Z.mod_small by (unfold U32_MAX in *; lia).
    by destruct (Z.leb_spec m (Z.of_nat (length (recent u)))); [|lia]. }
  revert Hfirst. unfold admit_usage at 1 2. rewrite (Hkeep now) by lia.
  rewrite Hover by done. simpl. intros [= <-]. simpl.
  assert (Hr : Z.max (as_secs (sat_sub MINUTE (duration_since now oldest))) 1
               = (oldest + MINUTE - now) / from_secs 1).
  { unfold as_secs, sat_sub, duration_since, saturating_duration_since.
    unfold MINUTE, from_secs in *.
    replace (Z.max (60 * 1000000000 - Z.max (now - oldest) 0) 0)
      with (oldest + 60 * 1000000000 - now) by lia.
    change (1 * 1000000000) with 1000000000 in *.
    apply Z.max_l. apply Z.div_le_lower_bound; lia. }
  rewrite Hr. unfold admit_usage. rewrite roll_day_recent. simpl.
  assert (Hlt : now + from_secs ((oldest + MINUTE - now) / from_secs 1) < oldest + MINUTE).
  { pose proof (Z.div_mod (oldest + MINUTE - now) (from_secs 1) ltac:(done)) as Hd.
    pose proof (Z.mod_pos_bound (oldest + MINUTE - now) (from_secs 1) ltac:(done)).
    unfold from_secs in *. lia. }
  rewrite (Hkeep _ Hlt), Hover by done. simpl. eauto.
Qed.

(** One request a minute, retried half a second into the window. *)
Lemma retry_after_too_soon_witness :
  ∃ r', fst (admit_usage (500000000 + from_secs 59) 60 60 (mkRateLimit (Some 1) None)
               (mkUsage [0] 1 0 1 1)) = Err r' ∧ which r' = PerMinute.
Proof.
  apply (retry_after_too_soon (mkRateLimit (Some 1) None) 1 500000000 1 1 (mkUsage [0] 1 0 1 1)
    0 (mkThrottled 59 PerMinute) 60 60); vm_compute; done.
Defined.
