(* ===== verification/Capabilities.v ===== *)
(** * The capabilities contract

    [crates/lightweight-api/src/capabilities.rs]: the body of
    [GET /v1/capabilities], which a gateway writes and the router reads. *)

From stdpp Require Import base gmap strings numbers list.
From S2P Require Import Prelude Names.

Definition PROTOCOL_NAME : str := lit "lightweight-public-inference".
Definition PROTOCOL_VERSION : u32 := 1.

Record ProtocolInfo := mkProtocol {
  protocol_name : str;
  protocol_version : u32;
  compatible_versions : list u32 }.

Record ServerInfo := mkServer { server_name : str; server_version : str }.

Record EndpointSet := mkEndpoints {
  ep_models : str;
  ep_chat_completions : str;
  ep_completions : str }.

Record FeatureSet := mkFeatures {
  streaming : bool;
  sse_done : bool;
  usage_chunk : bool;
  chat_completions : bool;
  completions : bool;
  tools : bool;
  tool_call_deltas : bool;
  tool_choice : bool;
  parallel_tool_calls : bool;
  reasoning_content : bool }.

Record CapabilityModel := mkCapModel { cm_id : str; cm_context_length : u32 }.

Record CapabilityState := mkCapState {
  model_loaded : bool;
  state_model : option CapabilityModel }.

Record CapabilityLimits := mkCapLimits { limit_max_concurrent_requests : u32 }.

Record CapabilitiesBody := mkBody {
  body_object : str;
  body_protocol : ProtocolInfo;
  body_server : ServerInfo;
  body_endpoints : EndpointSet;
  body_features : FeatureSet;
  body_state : CapabilityState;
  body_limits : CapabilityLimits }.

Definition CapabilitiesBody_new (server_version : str) (model : option CapabilityModel)
    (max_concurrent_requests : u32) : CapabilitiesBody :=
  mkBody (lit "capability.list")
    (mkProtocol PROTOCOL_NAME PROTOCOL_VERSION [PROTOCOL_VERSION])
    (mkServer (lit "Lightweight") server_version)
    (mkEndpoints (lit "/v1/models") (lit "/v1/chat/completions") (lit "/v1/completions"))
    (mkFeatures true true true true true true true true true true)
    (mkCapState (bool_decide (is_Some model)) model)
    (mkCapLimits max_concurrent_requests).
