(* ===== verification/Domain.v ===== *)
(** * The router's vocabulary

    [crates/lightweight-router/src/domain.rs]: nodes, deployments, routes and
    the validated topology that holds them, with the verdicts and reasons the
    rest of the router speaks in. *)

From stdpp Require Import base gmap strings numbers list.
From S2P Require Import Prelude Names Capabilities.

(** ** Nodes and deployments *)

Record Secret := mkSecret { expose : str }.

Inductive NodeAuth :=
| AuthNone
| AuthBearer (env : str) (secret : Secret).

(** [NodeAuth::header_value]: [Bearer <secret>]. *)
Definition header_value (a : NodeAuth) : option str :=
  match a with
  | AuthNone => None
  | AuthBearer _ secret => Some (lit "Bearer " ++ expose secret)
  end.

Definition auth_kind (a : NodeAuth) : str :=
  match a with AuthNone => lit "none" | AuthBearer _ _ => lit "bearer" end.

(** [base_url] is the text of the [reqwest::Url]. *)
Record Node := mkNode {
  node_id : NodeId;
  base_url : str;
  enabled : bool;
  auth : NodeAuth }.

(** [trim_end_matches('/')]. *)
Fixpoint drop_slashes (s : str) : str :=
  match s with
  | [] => []
  | c :: s' => if c =? 47 then drop_slashes s' else s
  end.

Definition endpoint (n : Node) (path : str) : str :=
  reverse (drop_slashes (reverse (base_url n))) ++ path.

Record Deployment := mkDeployment {
  deployment_id : DeploymentId;
  deployment_node : NodeId;
  remote_model : str }.

(** ** Routes *)

Inductive RoutePolicy := Priority | RoundRobin | LeastBusy.

Record RoutePlacement := mkPlacement {
  min_ready : u32;
  warm_standby : u32;
  allowed : list DeploymentId }.

Definition target (p : RoutePlacement) : u32 := sat_add32 (min_ready p) (warm_standby p).

Record Route := mkRoute {
  route_name : RouteName;
  policy : RoutePolicy;
  route_deployments : list DeploymentId;
  description : option str;
  placement : option RoutePlacement }.

(** ** Verdicts *)

Inductive NodeHealth := Unknown | Healthy | Unhealthy.

Inductive UnavailableReason := NodeDisabled | NodeUnknown | NodeUnhealthy | ModelNotServed.

#[export] Instance UnavailableReason_eq_dec : EqDecision UnavailableReason.
Proof. solve_decision. Defined.

Inductive DeploymentHealth := Available | Unavailable (reason : UnavailableReason).

Definition is_available (h : DeploymentHealth) : bool :=
  match h with Available => true | Unavailable _ => false end.

Inductive CapabilityGap :=
| ChatUnsupported
| CompletionUnsupported
| ToolsUnsupported
| ToolChoiceUnsupported
| ReasoningUnsupported
| ContextTooSmall
| Unobserved.

#[export] Instance CapabilityGap_eq_dec : EqDecision CapabilityGap.
Proof. solve_decision. Defined.

(** The derived [Ord] on the gaps: declaration order. *)
Definition gap_ord (g : CapabilityGap) : Z :=
  match g with
  | ChatUnsupported => 0
  | CompletionUnsupported => 1
  | ToolsUnsupported => 2
  | ToolChoiceUnsupported => 3
  | ReasoningUnsupported => 4
  | ContextTooSmall => 5
  | Unobserved => 6
  end.

Definition CapabilitySet : Type := FeatureSet.

Definition intersect (a b : CapabilitySet) : CapabilitySet :=
  mkFeatures (streaming a && streaming b) (sse_done a && sse_done b)
    (usage_chunk a && usage_chunk b) (chat_completions a && chat_completions b)
    (completions a && completions b) (tools a && tools b)
    (tool_call_deltas a && tool_call_deltas b) (tool_choice a && tool_choice b)
    (parallel_tool_calls a && parallel_tool_calls b)
    (reasoning_content a && reasoning_content b).

Definition CapabilitySet_none : CapabilitySet :=
  mkFeatures false false false false false false false false false false.

Inductive RoutingReason :=
| ExplicitSingleDeployment
| PrimaryHealthy
| PrimaryUnavailableFallback
| PrimaryFailedFallback
| ByRoundRobin
| RoundRobinFailover
| ByLeastBusy
| LeastBusyTiebreak
| LeastBusyFailover
| ContextOverflowFailover
| SessionAffinity.

Record RoutingDecision := mkDecision {
  dec_route : RouteName;
  dec_deployment : DeploymentId;
  dec_node : NodeId;
  dec_reason : RoutingReason }.

Inductive RoutingFailure :=
| UnknownRoute (requested : str)
| NoDefaultRoute
| RouteUnavailable (route : RouteName)
| CapabilityMismatch (route : RouteName) (unmet : list CapabilityGap)
    (unfit : list (DeploymentId * list CapabilityGap)).

(** ** The topology *)

Record Topology := mkTopology {
  nodes : list Node;
  deployments : list Deployment;
  routes : list Route;
  default_route_index : option nat }.

(** [Topology::node], [deployment], [route], [routes_using] and
    [default_route]. *)
Definition find_node (t : Topology) (id : NodeId) : option Node :=
  find_first (fun n => bool_decide (node_id n = id)) (nodes t).

Definition find_deployment (t : Topology) (id : DeploymentId) : option Deployment :=
  find_first (fun d => bool_decide (deployment_id d = id)) (deployments t).

Definition find_route (t : Topology) (name : RouteName) : option Route :=
  find_first (fun r => bool_decide (route_name r = name)) (routes t).

Definition routes_using (t : Topology) (d : DeploymentId) : list RouteName :=
  map route_name (List.filter (fun r => bool_decide (d ∈ route_deployments r)) (routes t)).

Definition default_route (t : Topology) : option Route :=
  let! index := default_route_index t in routes t !! index.

(** [Topology::resolve]. *)
Definition resolve_route `{LowerCase} (t : Topology) (requested : option str)
    : result Route RoutingFailure :=
  match ModelSelector_parse requested with
  | SelDefault => ok_or (default_route t) NoDefaultRoute
  | SelNamed name =>
      ok_or (find_first (fun r => name_matches (route_name r) name) (routes t))
            (UnknownRoute name)
  end.

(** What [crate::config] guarantees of a topology it built
    ([ConfigTheorems.v]): the invariants listed on the type but one, that
    every route has a deployment, which it does not guarantee. *)
Record WellFormed `{LowerCase} (t : Topology) : Prop := {
  wf_nodes : NoDup (node_id <$> nodes t);
  wf_deployments : NoDup (deployment_id <$> deployments t);
  wf_routes : NoDup ((fun r => lookup_key (route_str (route_name r))) <$> routes t);
  wf_names : ∀ r, r ∈ routes t → ∃ raw, RouteName_parse raw = Ok (route_name r);
  wf_deployment_node : ∀ d, d ∈ deployments t → is_Some (find_node t (deployment_node d));
  wf_route_deployment : ∀ r id, r ∈ routes t → id ∈ route_deployments r →
    is_Some (find_deployment t id);
  wf_route_nodup : ∀ r, r ∈ routes t → NoDup (route_deployments r);
  wf_default : ∀ i, default_route_index t = Some i → (i < length (routes t))%nat }.

(** ** Lemmas *)

(** Looking an entry up by a key the list does not repeat finds it. *)
Lemma find_first_key {A K} `{EqDecision K} (f : A → K) l x :
  NoDup (f <$> l) → x ∈ l → find_first (fun y => bool_decide (f y = f x)) l = Some x.
Proof.
  induction l as [|a l IH]; [by intros _ ?%not_elem_of_nil|].
  csimpl. intros [Ha Hl]%NoDup_cons Hx. case_bool_decide as Hf.
  - apply elem_of_cons in Hx as [->|Hx]; [done|].
    destruct Ha. rewrite Hf. by apply list_elem_of_fmap_2.
  - apply elem_of_cons in Hx as [->|Hx]; [done|by apply IH].
Qed.

Lemma find_deployment_Some t id d :
  find_deployment t id = Some d → d ∈ deployments t ∧ deployment_id d = id.
Proof. intros [H1 H2]%find_first_Some. by apply bool_decide_eq_true in H2. Qed.

Lemma find_node_Some t id n : find_node t id = Some n → n ∈ nodes t ∧ node_id n = id.
Proof. intros [H1 H2]%find_first_Some. by apply bool_decide_eq_true in H2. Qed.

(** ** Properties *)

(** The name a client sends means one route.  In a validated topology a
    request naming a route, with its own spelling, reaches that route and no
    other; any other answer is that of a route whose name matches or of the
    configured default, and a name that matches none is refused. *)
Theorem resolve_exact `{LowerCase} (t : Topology) (r : Route) :
  WellFormed t → r ∈ routes t →
  resolve_route t (Some (route_str (route_name r))) = Ok r ∧
  ∀ requested r', resolve_route t requested = Ok r' →
    (ModelSelector_parse requested = SelDefault ∧ default_route t = Some r') ∨
    ∃ name, ModelSelector_parse requested = SelNamed name ∧
      same_name (route_str (route_name r')) name = true.
Proof.
  intros HW Hr. split.
  - destruct (wf_names _ HW _ Hr) as [raw Hraw]. unfold RouteName_parse in Hraw.
    destruct (validate_alias raw) as [a|] eqn:Ha; [|done]. simpl in Hraw.
    injection Hraw as Hraw. unfold resolve_route. rewrite <-Hraw. simpl.
    assert (Hsel : ModelSelector_parse (Some a) = SelNamed a).
    { pose proof (validate_alias_Ok _ _ Ha) as (Hat & Hne & _ & Hres & _).
      assert (Ht : trim a = a) by (rewrite Hat; apply trim_idemp).
      unfold ModelSelector_parse. simpl. rewrite Ht, Hres. by rewrite bool_decide_eq_false_2. }
    rewrite Hsel. unfold name_matches, same_name.
    pose proof (find_first_key _ _ _ (wf_routes _ HW) Hr) as Hf.
    simpl in Hf. rewrite <-Hraw in Hf. simpl in Hf. by rewrite Hf.
  - intros requested r'. unfold resolve_route.
    destruct (ModelSelector_parse requested) as [|name].
    + destruct (default_route t); simpl; [|done]. intros [= ->]. by left.
    + destruct (find_first _ _) as [r0|] eqn:E; [|done]. intros [= ->].
      apply find_first_Some in E as [_ E]. right. by exists name.
Qed.

(** ** A small topology, for concrete examples *)

Definition laptop : NodeId := mkNodeId (lit "laptop").
Definition tower : NodeId := mkNodeId (lit "tower").
Definition on_laptop : DeploymentId := DeploymentId_of laptop (lit "Qwen").
Definition on_tower : DeploymentId := DeploymentId_of tower (lit "Qwen").

Definition placed_route (p : RoutePolicy) (pl : option RoutePlacement) : Route :=
  mkRoute (mkRouteName (lit "Coder")) p [on_laptop; on_tower] None pl.

Definition placed_topology (p : RoutePolicy) (pl : option RoutePlacement) : Topology :=
  mkTopology
    [mkNode laptop (lit "http://laptop:8080/") true AuthNone;
     mkNode tower (lit "http://tower:8080/") true AuthNone]
    [mkDeployment on_laptop laptop (lit "Qwen"); mkDeployment on_tower tower (lit "Qwen")]
    [placed_route p pl] (Some 0%nat).

Definition demo_route (p : RoutePolicy) : Route := placed_route p None.
Definition demo_topology (p : RoutePolicy) : Topology := placed_topology p None.

Lemma placed_wf p pl : @WellFormed ascii_case (placed_topology p pl).
Proof.
  constructor.
  - apply (bool_decide_unpack _). vm_compute. exact I.
  - apply (bool_decide_unpack _). vm_compute. exact I.
  - apply (bool_decide_unpack _). vm_compute. exact I.
  - intros r ->%list_elem_of_singleton. exists (lit "Coder"). reflexivity.
  - intros d [->|[->|[]%not_elem_of_nil]%elem_of_cons]%elem_of_cons; vm_compute; eauto.
  - intros r id ->%list_elem_of_singleton.
    intros [->|[->|[]%not_elem_of_nil]%elem_of_cons]%elem_of_cons; vm_compute; eauto.
  - intros r ->%list_elem_of_singleton. apply (bool_decide_unpack _). vm_compute. exact I.
  - intros i [= <-]. simpl. lia.
Qed.

Lemma demo_wf p : @WellFormed ascii_case (demo_topology p).
Proof. apply placed_wf. Qed.

Lemma resolve_exact_witness :
  @resolve_route ascii_case (demo_topology Priority) (Some (lit "Coder"))
    = Ok (demo_route Priority) ∧
  @resolve_route ascii_case (demo_topology Priority) (Some (lit " cODER "))
    = Ok (demo_route Priority) ∧
  @resolve_route ascii_case (demo_topology Priority) (Some (lit "Fast"))
    = Err (UnknownRoute (lit "Fast")).
Proof.
  split; [|split; vm_compute; reflexivity].
  apply (@resolve_exact ascii_case (demo_topology Priority) (demo_route Priority)).
  - apply demo_wf.
  - by apply list_elem_of_singleton.
Defined.
