(* ===== verification/Health.v ===== *)
(** * What the router believes about each node

    [crates/lightweight-router/src/health.rs]: the probe outcomes, the book
    they are recorded in and the one availability rule.  The two [RwLock]ed
    maps are two fields of the book; [record] is one step, as it is called
    from one task per node.  [SystemTime] is an integer. *)

From stdpp Require Import base gmap strings numbers list.
From S2P Require Import Prelude Names Capabilities Domain.

Abbreviation SystemTime := Z (only parsing).

Record ServedModel := mkServed { sm_id : str; sm_context_length : u32 }.

Record Observation := mkObservation {
  served : option ServedModel;
  features : CapabilitySet;
  ob_max_concurrent_requests : u32;
  ob_version : str }.

Record NodeStatus := mkStatus {
  health : NodeHealth;
  consecutive_failures : u32;
  last_checked : option SystemTime;
  last_seen : option SystemTime;
  last_error : option str;
  observed : option Observation }.

Definition NodeStatus_default : NodeStatus := mkStatus Unknown 0 None None None None.

(** [NodeStatus::served]. *)
Definition status_served (s : NodeStatus) : option ServedModel :=
  let! o := observed s in served o.

Inductive Outcome := Success (o : Observation) | Failure (reason : str).

Definition apply (status : NodeStatus) (outcome : Outcome) (threshold : u32)
    (at_ : SystemTime) : NodeStatus :=
  match outcome with
  | Success observation =>
      mkStatus Healthy 0 (Some at_) (Some at_) None (Some observation)
  | Failure reason =>
      let failures := sat_add32 (consecutive_failures status) 1 in
      mkStatus (if threshold <=? failures then Unhealthy else health status)
        failures (Some at_) (last_seen status) (Some reason) (observed status)
  end.

Record DeploymentObservation := mkDObservation {
  capabilities : CapabilitySet;
  context_length : u32;
  max_concurrent_requests : u32;
  observed_at : SystemTime }.

Record HealthBook := mkBook {
  threshold : u32;
  hb_nodes : gmap NodeId NodeStatus;
  deployments_of : gmap NodeId (list (DeploymentId * str));
  hb_deployments : gmap DeploymentId DeploymentObservation }.

Definition HealthBook_new (t : Topology) (threshold : u32) : HealthBook :=
  mkBook threshold
    (foldl (fun m n => <[node_id n := NodeStatus_default]> m) ∅ (nodes t))
    (foldl (fun m d => <[deployment_node d :=
                          default [] (m !! deployment_node d)
                          ++ [(deployment_id d, remote_model d)]]> m) ∅ (deployments t))
    ∅.

Section with_case.
Context `{LowerCase}.

Definition observe_deployments (b : HealthBook) (node : NodeId) (o : Observation)
    (at_ : SystemTime) : HealthBook :=
  match served o with
  | None => b
  | Some sm =>
      match deployments_of b !! node with
      | None => b
      | Some listed =>
          mkBook (threshold b) (hb_nodes b) (deployments_of b)
            (foldl (fun m p =>
                      if same_name (snd p) (sm_id sm)
                      then <[fst p := mkDObservation (features o) (sm_context_length sm)
                                        (ob_max_concurrent_requests o) at_]> m
                      else m) (hb_deployments b) listed)
      end
  end.

Definition record (b : HealthBook) (node : NodeId) (outcome : Outcome) (at_ : SystemTime)
    : HealthBook :=
  let b := match outcome with
           | Success o => observe_deployments b node o at_
           | Failure _ => b
           end in
  match hb_nodes b !! node with
  | Some status =>
      mkBook (threshold b) (<[node := apply status outcome (threshold b) at_]> (hb_nodes b))
        (deployments_of b) (hb_deployments b)
  | None => b
  end.

Definition forget_model (b : HealthBook) (node : NodeId) : HealthBook :=
  match hb_nodes b !! node with
  | Some status =>
      match observed status with
      | Some o =>
          let o := mkObservation None (features o) (ob_max_concurrent_requests o) (ob_version o) in
          let status := mkStatus (health status) (consecutive_failures status)
                          (last_checked status) (last_seen status) (last_error status) (Some o) in
          mkBook (threshold b) (<[node := status]> (hb_nodes b)) (deployments_of b)
            (hb_deployments b)
      | None => b
      end
  | None => b
  end.

Definition status (b : HealthBook) (node : NodeId) : NodeStatus :=
  default NodeStatus_default (hb_nodes b !! node).

Definition availability (node : Node) (d : Deployment) (s : NodeStatus) : DeploymentHealth :=
  if negb (enabled node) then Unavailable NodeDisabled
  else match health s with
       | Unknown => Unavailable NodeUnknown
       | Unhealthy => Unavailable NodeUnhealthy
       | Healthy =>
           match status_served s with
           | Some sm => if same_name (sm_id sm) (remote_model d) then Available
                        else Unavailable ModelNotServed
           | None => Unavailable ModelNotServed
           end
       end.

(** [HealthBook::availability]. *)
Definition book_availability (b : HealthBook) (node : Node) (d : Deployment)
    : DeploymentHealth :=
  availability node d (status b (node_id node)).

(** ** Reading a probe's answer *)

(** The two refusals, by what they name. *)
Inductive ProbeProblem := WrongProtocol (name : str) | WrongVersions (versions : list u32).

Definition observe (body : CapabilitiesBody) : result Observation ProbeProblem :=
  let name := protocol_name (body_protocol body) in
  let versions := compatible_versions (body_protocol body) in
  if negb (bool_decide (name = PROTOCOL_NAME)) then Err (WrongProtocol name)
  else if negb (bool_decide (PROTOCOL_VERSION ∈ versions)) then Err (WrongVersions versions)
  else
    let model := if model_loaded (body_state body) then state_model (body_state body) else None in
    Ok (mkObservation
          ((fun m => mkServed (cm_id m) (cm_context_length m)) <$> model)
          (body_features body) (limit_max_concurrent_requests (body_limits body))
          (server_version (body_server body))).
End with_case.

(** ** The verdict of a sequence of probes *)

(** The failures since the last success. *)
Fixpoint trailing (outs : list Outcome) (acc : Z) : Z :=
  match outs with
  | [] => acc
  | Success _ :: outs => trailing outs 0
  | Failure _ :: outs => trailing outs (acc + 1)
  end.

Definition is_success (o : Outcome) : bool :=
  match o with Success _ => true | Failure _ => false end.

(** A status after a history of outcomes, oldest first, at their instants. *)
Definition probed (threshold : u32) (outs : list (Outcome * SystemTime)) : NodeStatus :=
  foldl (fun s p => apply s (fst p) threshold (snd p)) NodeStatus_default outs.

Lemma trailing_snoc outs o acc :
  trailing (outs ++ [o]) acc = if is_success o then 0 else trailing outs acc + 1.
Proof. revert acc. induction outs as [|[] outs IH]; intros acc; simpl; [by destruct o|..]; apply IH. Qed.

Lemma trailing_nonneg outs acc : 0 ≤ acc → 0 ≤ trailing outs acc.
Proof. revert acc. induction outs as [|[] outs IH]; intros acc ?; simpl; [done|..]; apply IH; lia. Qed.

(** The health verdict is a function of the probe history alone.  With a
    threshold of at least one, a node is unhealthy exactly when its last
    [threshold] probes all failed; otherwise it is healthy if any probe ever
    succeeded, and unknown if none has. *)
Theorem health_verdict threshold outs :
  1 ≤ threshold ≤ U32_MAX →
  health (probed threshold outs) =
  if threshold <=? trailing (fst <$> outs) 0 then Unhealthy
  else if existsb is_success (fst <$> outs) then Healthy else Unknown.
Proof.
  intros Ht.
  assert (H : health (probed threshold outs) =
    (if threshold <=? trailing (fst <$> outs) 0 then Unhealthy
     else if existsb is_success (fst <$> outs) then Healthy else Unknown) ∧
    consecutive_failures (probed threshold outs) = Z.min (trailing (fst <$> outs) 0) U32_MAX);
    [|by destruct H].
  induction outs as [|[o at_] outs [IH1 IH2]] using rev_ind.
  { simpl. destruct (Z.leb_spec threshold 0); [lia|]. by unfold U32_MAX. }
  unfold probed. rewrite fmap_app, foldl_app. simpl.
  rewrite trailing_snoc, existsb_app. fold (probed threshold outs).
  pose proof (trailing_nonneg (fst <$> outs) 0 ltac:(lia)) as Hpos.
  destruct o as [o|reason]; simpl.
  - destruct (Z.leb_spec threshold 0); [lia|]. rewrite orb_true_r. by unfold U32_MAX.
  - rewrite IH1, IH2, orb_false_r. unfold sat_add32. split; [|lia].
    destruct (Z.leb_spec threshold (Z.min (Z.min (trailing (fst <$> outs) 0) U32_MAX + 1) U32_MAX)),
      (Z.leb_spec threshold (trailing (fst <$> outs) 0 + 1)),
      (Z.leb_spec threshold (trailing (fst <$> outs) 0)); try lia; done.
Qed.

(** One success, then two failures against a threshold of three. *)
Lemma health_verdict_witness :
  let ok := Success (mkObservation None CapabilitySet_none 1 (lit "0.4.0")) in
  let bad := Failure (lit "timed out") in
  health (probed 3 [(ok, 1); (bad, 2); (bad, 3)]) = Healthy ∧
  health (probed 3 [(ok, 1); (bad, 2); (bad, 3); (bad, 4)]) = Unhealthy.
Proof.
  split.
  - apply (health_verdict 3 [(Success (mkObservation None CapabilitySet_none 1 (lit "0.4.0")), 1);
      (Failure (lit "timed out"), 2); (Failure (lit "timed out"), 3)]). by vm_compute.
  - apply (health_verdict 3 [(Success (mkObservation None CapabilitySet_none 1 (lit "0.4.0")), 1);
      (Failure (lit "timed out"), 2); (Failure (lit "timed out"), 3);
      (Failure (lit "timed out"), 4)]). by vm_compute.
Defined.

(** The two ends of the probe agree.  Whatever model and limits a gateway
    reports, the router accepts its body and learns exactly those, with every
    feature the gateway offers. *)
Theorem observe_roundtrip version model limit :
  observe (CapabilitiesBody_new version model limit) =
  Ok (mkObservation ((fun m => mkServed (cm_id m) (cm_context_length m)) <$> model)
        (mkFeatures true true true true true true true true true true) limit version).
Proof. by destruct model. Qed.

(** ** The book stays coherent *)

Section coherent.
Context `{LowerCase} (t : Topology).

(** The books a router with topology [t] can have. *)
Inductive book_reachable : HealthBook → Prop :=
| book_new th : book_reachable (HealthBook_new t th)
| book_record b n o at_ : book_reachable b → book_reachable (record b n o at_)
| book_forget b n : book_reachable b → book_reachable (forget_model b n).

(** What a node last reported is what is filed under its deployments. *)
Definition filed (o : Observation) (sm : ServedModel) (e : DeploymentObservation) : Prop :=
  capabilities e = features o ∧ context_length e = sm_context_length sm ∧
  max_concurrent_requests e = ob_max_concurrent_requests o.

Definition Coherent (b : HealthBook) : Prop :=
  ∀ d o sm, d ∈ deployments t → observed (status b (deployment_node d)) = Some o →
    served o = Some sm → same_name (remote_model d) (sm_id sm) = true →
    ∃ e, hb_deployments b !! deployment_id d = Some e ∧ filed o sm e.

(** The deployments listed under a node are those of the topology. *)
Definition Listed (b : HealthBook) : Prop :=
  ∀ n id m, (id, m) ∈ default [] (deployments_of b !! n) ↔
    ∃ d, d ∈ deployments t ∧ deployment_node d = n ∧ deployment_id d = id ∧ remote_model d = m.

Lemma Listed_new th : Listed (HealthBook_new t th).
Proof.
  unfold Listed, HealthBook_new. simpl.
  induction (deployments t) as [|d ds IH] using rev_ind; intros n id m.
  - simpl. rewrite lookup_empty. simpl. rewrite elem_of_nil. split; [done|].
    intros (d & Hd & _). by apply not_elem_of_nil in Hd.
  - rewrite foldl_app. simpl. rewrite lookup_insert. case_decide as Hn.
    + subst n. simpl. rewrite elem_of_app, IH, list_elem_of_singleton. split.
      * intros [(d' & ? & ?)|[= -> ->]]; [exists d'|exists d]; by rewrite elem_of_app, ?list_elem_of_singleton; auto.
      * intros (d' & [Hd | ->%list_elem_of_singleton]%elem_of_app & ? & <- & <-); [left; by eauto|by right].
    + rewrite IH. split.
      * intros (d' & ? & ?). exists d'. rewrite elem_of_app. by auto.
      * intros (d' & [Hd | ->%list_elem_of_singleton]%elem_of_app & ? & ?); [by eauto|done].
Qed.

(** Filing writes the observation under each matching entry of the list, and
    under nothing else. *)
Definition file (p : DeploymentId * str → bool) (v : DeploymentObservation)
    (m : gmap DeploymentId DeploymentObservation) (l : list (DeploymentId * str)) :=
  foldl (fun m q => if p q then <[fst q := v]> m else m) m l.

Lemma file_miss p v l m k :
  (∀ q, q ∈ l → p q = true → fst q ≠ k) → file p v m l !! k = m !! k.
Proof.
  revert m. induction l as [|q l IH]; intros m Hl; simpl; [done|].
  rewrite IH by (intros; apply Hl; [by apply list_elem_of_further|done]).
  destruct (p q) eqn:E; [|done]. rewrite lookup_insert_ne; [done|].
  apply Hl; [apply list_elem_of_here|done].
Qed.

Lemma file_keep p v l m k : m !! k = Some v → file p v m l !! k = Some v.
Proof.
  revert m. induction l as [|q l IH]; intros m Hm; simpl; [done|]. apply IH.
  destruct (p q); [|done]. rewrite lookup_insert. by case_decide.
Qed.

Lemma file_hit p v l m q : q ∈ l → p q = true → file p v m l !! fst q = Some v.
Proof.
  intros Hq Hp. revert m. induction l as [|r l IH]; intros m; [by apply not_elem_of_nil in Hq|].
  simpl. apply elem_of_cons in Hq as [->|Hq]; [|by apply IH].
  rewrite Hp. apply file_keep. by rewrite lookup_insert_eq.
Qed.

Lemma observe_deployments_fields b n o at_ :
  threshold (observe_deployments b n o at_) = threshold b ∧
  hb_nodes (observe_deployments b n o at_) = hb_nodes b ∧
  deployments_of (observe_deployments b n o at_) = deployments_of b.
Proof. unfold observe_deployments. by repeat case_match. Qed.

(** The deployments of one node are not those of another. *)
Lemma deployment_of_one_node d1 d2 :
  WellFormed t → d1 ∈ deployments t → d2 ∈ deployments t →
  deployment_id d1 = deployment_id d2 → d1 = d2.
Proof.
  intros HW H1 H2 Heq.
  pose proof (find_first_key _ _ _ (wf_deployments _ HW) H1) as F1.
  pose proof (find_first_key _ _ _ (wf_deployments _ HW) H2) as F2.
  rewrite Heq in F1. congruence.
Qed.

Lemma observe_other b n o at_ d :
  WellFormed t → Listed b → d ∈ deployments t → deployment_node d ≠ n →
  hb_deployments (observe_deployments b n o at_) !! deployment_id d =
  hb_deployments b !! deployment_id d.
Proof.
  intros HW HL Hd Hn. unfold observe_deployments. destruct (served o) as [sm|]; [|done].
  destruct (deployments_of b !! n) as [l|] eqn:El; [|done]. simpl.
  apply (file_miss (fun q => same_name (snd q) (sm_id sm))). intros [id m] Hq _ Heq.
  simpl in Heq. specialize (HL n id m). rewrite El in HL. simpl in HL.
  apply HL in Hq as (d' & Hd' & <- & <- & _). apply Hn.
  by rewrite (deployment_of_one_node d d' HW Hd Hd').
Qed.

Lemma observe_own b n o at_ d sm :
  Listed b → d ∈ deployments t → deployment_node d = n → served o = Some sm →
  same_name (remote_model d) (sm_id sm) = true →
  ∃ e, hb_deployments (observe_deployments b n o at_) !! deployment_id d = Some e ∧ filed o sm e.
Proof.
  intros HL Hd Hn Hs Hsame. unfold observe_deployments. rewrite Hs.
  assert (Hin : (deployment_id d, remote_model d) ∈ default [] (deployments_of b !! n))
    by (apply HL; by exists d).
  destruct (deployments_of b !! n) as [l|]; simpl in *; [|by apply not_elem_of_nil in Hin].
  eexists. split.
  - by apply (file_hit (fun q => same_name (snd q) (sm_id sm)) _ l _ _ Hin).
  - done.
Qed.

Lemma record_listed b n o at_ : Listed b → Listed (record b n o at_).
Proof.
  intros HL. assert (deployments_of (record b n o at_) = deployments_of b) as Heq.
  { unfold record. destruct o as [o|]; simpl; [|by destruct (hb_nodes b !! n)].
    destruct (observe_deployments_fields b n o at_) as (_ & _ & ?).
    by destruct (hb_nodes _ !! n). }
  unfold Listed. by rewrite Heq.
Qed.

Lemma forget_listed b n : Listed b → Listed (forget_model b n).
Proof. unfold forget_model. by repeat case_match. Qed.

Lemma apply_observed s o th at_ :
  observed (apply s o th at_) = match o with Success x => Some x | Failure _ => observed s end.
Proof. by destruct o. Qed.

Lemma record_coherent b n o at_ :
  WellFormed t → Listed b → Coherent b → Coherent (record b n o at_).
Proof.
  intros HW HL HC d x sm Hd Hobs Hs Hsame. unfold record, status in *.
  set (b1 := match o with Success x => observe_deployments b n x at_ | _ => b end) in *.
  assert (Hnodes : hb_nodes b1 = hb_nodes b).
  { unfold b1. destruct o; [|done]. apply observe_deployments_fields. }
  rewrite Hnodes in *. destruct (decide (deployment_node d = n)) as [Hn|Hn].
  - destruct (hb_nodes b !! n) as [s|] eqn:Es; simpl in *.
    + rewrite Hn, lookup_insert_eq in Hobs. simpl in Hobs. rewrite apply_observed in Hobs.
      destruct o as [y|]; simpl in *; [simplify_eq; by eapply observe_own|].
      eapply HC; eauto. unfold status. by rewrite Hn, Es.
    + rewrite Hn, Hnodes, Es in Hobs. done.
  - assert (Hl : hb_deployments b1 !! deployment_id d = hb_deployments b !! deployment_id d).
    { unfold b1. destruct o; [|done]. by apply observe_other. }
    assert (Hst : observed (status b (deployment_node d)) = Some x).
    { destruct (hb_nodes b !! n); simpl in Hobs; [|by rewrite Hnodes in Hobs].
      by rewrite lookup_insert_ne in Hobs. }
    destruct (hb_nodes b !! n); simpl; rewrite Hl; eapply HC; eauto.
Qed.

Lemma forget_coherent b n : Coherent b → Coherent (forget_model b n).
Proof.
  intros HC d x sm Hd Hobs Hs Hsame.
  assert (Hst : observed (status b (deployment_node d)) = Some x).
  { unfold forget_model, status in *. destruct (hb_nodes b !! n) as [s|] eqn:Es; [|done].
    destruct (observed s) eqn:Eo; [|done]. simpl in Hobs. rewrite lookup_insert in Hobs.
    case_decide; [|done]. simpl in Hobs. by simplify_eq/=. }
  assert (hb_deployments (forget_model b n) = hb_deployments b) as ->.
  { unfold forget_model. by repeat case_match. }
  by eapply HC.
Qed.

Lemma book_coherent b : WellFormed t → book_reachable b → Listed b ∧ Coherent b.
Proof.
  intros HW. induction 1 as [th|b n o at_ _ [HL HC]|b n _ [HL HC]].
  - split; [apply Listed_new|]. intros d o sm Hd Hobs.
    assert (Hdef : ∀ n, status (HealthBook_new t th) n = NodeStatus_default); [|by rewrite Hdef in Hobs].
    intros n. unfold status, HealthBook_new. simpl.
    induction (nodes t) as [|x ns IH] using rev_ind; [done|].
    rewrite foldl_app. simpl. rewrite lookup_insert. by case_decide.
  - split; [by apply record_listed|by apply record_coherent].
  - split; [by apply forget_listed|by apply forget_coherent].
Qed.
End coherent.

(** The router never routes blind.  In every book a validated topology
    can come to have, a deployment that may take traffic has an observation
    on file, and that observation is what its node reported in the probe the
    availability verdict rests on. *)
Theorem available_is_observed `{LowerCase} t b d n :
  WellFormed t → book_reachable t b → d ∈ deployments t →
  find_node t (deployment_node d) = Some n → book_availability b n d = Available →
  ∃ o sm e, observed (status b (node_id n)) = Some o ∧ served o = Some sm ∧
    hb_deployments b !! deployment_id d = Some e ∧ capabilities e = features o ∧
    context_length e = sm_context_length sm ∧
    max_concurrent_requests e = ob_max_concurrent_requests o.
Proof.
  intros HW Hb Hd Hn Hav. apply find_node_Some in Hn as [_ Hn].
  destruct (book_coherent t b HW Hb) as [_ HC].
  unfold book_availability, availability, status_served in Hav.
  destruct (enabled n); [|done]. destruct (health _); try done. simpl in Hav.
  destruct (observed (status b (node_id n))) as [o|] eqn:Eo; [|done]. simpl in Hav.
  destruct (served o) as [sm|] eqn:Es; [|done].
  destruct (same_name (sm_id sm) (remote_model d)) eqn:Esame; [|done].
  destruct (HC d o sm) as (e & He & ? & ? & ?); [done|by rewrite <-Hn|done| |].
  - unfold same_name in *. rewrite bool_decide_eq_true in *. done.
  - by exists o, sm, e.
Qed.

Definition demo_observation : Observation :=
  mkObservation (Some (mkServed (lit "qwen") 4096))
    (mkFeatures true true true true true true true true true true) 2 (lit "0.4.0").

Definition demo_book (p : RoutePolicy) : HealthBook :=
  @record ascii_case (HealthBook_new (demo_topology p) 3) laptop (Success demo_observation) 7.

Lemma available_is_observed_witness :
  ∃ e, hb_deployments (demo_book Priority) !! on_laptop = Some e ∧ context_length e = 4096.
Proof.
  destruct (@available_is_observed ascii_case (demo_topology Priority) (demo_book Priority)
    (mkDeployment on_laptop laptop (lit "Qwen"))
    (mkNode laptop (lit "http://laptop:8080/") true AuthNone))
    as (o & sm & e & Ho & Hs & He & _ & Hc & _).
  - apply demo_wf.
  - apply book_record, book_new.
  - apply list_elem_of_here.
  - vm_compute. reflexivity.
  - vm_compute. reflexivity.
  - exists e. split; [exact He|]. vm_compute in Ho. injection Ho as <-.
    simpl in Hs. injection Hs as <-. exact Hc.
Defined.
