(* ===== verification/Capability.v ===== *)
(** * Which deployments can serve a request

    The first two steps of a routing decision: [eligible] of
    [crates/lightweight-router/src/select.rs] keeps the deployments that can
    take traffic, and [crates/lightweight-router/src/capability.rs] those of
    them that can serve what [requirements.rs] says this request needs. *)

From stdpp Require Import base gmap strings numbers sorting list.
From S2P Require Import Prelude Names Capabilities Domain Health.

(** ** What a request needs *)

Inductive Endpoint := ChatCompletions | Completions.

Inductive ToolChoiceRequirement :=
| TCUnspecified | TCAuto | TCNone | TCRequired | TCFunction.

Record RequestRequirements := mkNeeds {
  need_endpoint : option Endpoint;
  need_tools : bool;
  need_tool_choice : ToolChoiceRequirement;
  need_reasoning : bool;
  prompt_tokens : option u32;
  max_tokens : option u32 }.

Definition needs_none : RequestRequirements := mkNeeds None false TCUnspecified false None None.

Definition needs_tool_choice (n : RequestRequirements) : bool :=
  match need_tool_choice n with
  | TCRequired | TCFunction => true
  | TCNone => need_tools n
  | TCUnspecified | TCAuto => false
  end.

Definition required_context (n : RequestRequirements) : option u32 :=
  (fun tokens => sat_add32 tokens 1) <$> prompt_tokens n.

Definition BYTES_PER_TOKEN_CEILING : usize := 6.

(** [str::len]: the UTF-8 bytes of the text. *)
Definition utf8_len (c : char) : Z :=
  if c <? 0x80 then 1 else if c <? 0x800 then 2 else if c <? 0x10000 then 3 else 4.
Definition str_len (s : str) : usize := foldr (fun c n => utf8_len c + n) 0 s.

Definition tokens_at_least (bytes : usize) : u32 :=
  u32_or_max (div_ceil bytes BYTES_PER_TOKEN_CEILING).

(** The parts of [GenerationRequest] the requirements are read from. *)
Inductive ToolChoice :=
| ChooseUnspecified | ChooseAuto | ChooseNone | ChooseRequired | ChooseFunction (name : str).
Inductive ReasoningControl := ReasonDefault | ReasonDisabled | ReasonEffort (level : str).
Inductive Prompt := PromptChat (contents : list str) | PromptText (text : str).

Record GenerationRequest := mkGeneration {
  gen_prompt : Prompt;
  gen_tools : list str;
  gen_tool_choice : ToolChoice;
  gen_reasoning : ReasoningControl }.

Definition chat_bytes (g : GenerationRequest) : usize :=
  match gen_prompt g with
  | PromptChat contents => foldr (fun m n => str_len m + n) 0 contents
  | PromptText text => str_len text
  end.

Definition chat_requirements (g : GenerationRequest) (max_tokens : option u32)
    : RequestRequirements :=
  let tool_choice :=
    match gen_tool_choice g with
    | ChooseUnspecified => TCUnspecified
    | ChooseAuto => TCAuto
    | ChooseNone => TCNone
    | ChooseRequired => TCRequired
    | ChooseFunction _ => TCFunction
    end in
  mkNeeds (Some ChatCompletions) (negb (bool_decide (gen_tools g = []))) tool_choice
    (match gen_reasoning g with ReasonEffort _ => true | _ => false end)
    (Some (tokens_at_least (chat_bytes g))) max_tokens.

(** The [/v1/completions] arm of [extract], over the expanded prompts. *)
Definition completion_requirements (prompts : list str) (max_tokens : option u32)
    : RequestRequirements :=
  let largest := foldr (fun p n => Z.max (str_len p) n) 0 prompts in
  mkNeeds (Some Completions) false TCUnspecified false (Some (tokens_at_least largest)) max_tokens.

(** ** The eligible deployments *)

Record Candidate := mkCandidate {
  cand_deployment : DeploymentId;
  cand_node : NodeId;
  cand_remote_model : str;
  cand_position : nat }.

#[export] Instance Candidate_eq_dec : EqDecision Candidate.
Proof. solve_decision. Defined.

Record Eligible := mkEligible {
  el_route : RouteName;
  candidates : list Candidate;
  skipped : list (DeploymentId * UnavailableReason);
  unfit : list (DeploymentId * list CapabilityGap);
  route_size : nat }.

Section with_case.
Context `{LowerCase}.

(** The body of [eligible]'s loop: one deployment of the route. *)
Definition consider (t : Topology) (book : gmap NodeId NodeStatus) (position : nat)
    (id : DeploymentId) : option (Candidate + DeploymentId * UnavailableReason) :=
  let! deployment := find_deployment t id in
  let! node := find_node t (deployment_node deployment) in
  let status := default NodeStatus_default (book !! node_id node) in
  match availability node deployment status with
  | Available =>
      Some (inl (mkCandidate (deployment_id deployment) (node_id node)
                   (remote_model deployment) position))
  | Unavailable reason => Some (inr (deployment_id deployment, reason))
  end.

Definition sort_out (t : Topology) (book : gmap NodeId NodeStatus) (ids : list DeploymentId)
    (start : nat) : list Candidate * list (DeploymentId * UnavailableReason) :=
  (fix go (position : nat) (ids : list DeploymentId) {struct ids} :=
     match ids with
     | [] => ([], [])
     | id :: ids =>
         let '(cs, sk) := go (S position) ids in
         match consider t book position id with
         | Some (inl c) => (c :: cs, sk)
         | Some (inr s) => (cs, s :: sk)
         | None => (cs, sk)
         end
     end) start ids.

Definition eligible (t : Topology) (route : Route) (book : gmap NodeId NodeStatus)
    : result Eligible RoutingFailure :=
  let '(cs, sk) := sort_out t book (route_deployments route) 0 in
  match cs with
  | [] => Err (RouteUnavailable (route_name route))
  | _ => Ok (mkEligible (route_name route) cs sk [] (length (route_deployments route)))
  end.
End with_case.

(** ** Capability filtering *)

Definition gaps (needs : RequestRequirements) (seen : option DeploymentObservation)
    : list CapabilityGap :=
  let requires_anything :=
    bool_decide (is_Some (need_endpoint needs)) || need_tools needs || needs_tool_choice needs
    || need_reasoning needs || bool_decide (is_Some (prompt_tokens needs)) in
  match seen with
  | None => if requires_anything then [Unobserved] else []
  | Some seen =>
      let f := capabilities seen in
      (match need_endpoint needs with
       | Some ChatCompletions => if negb (chat_completions f) then [ChatUnsupported] else []
       | Some Completions => if negb (completions f) then [CompletionUnsupported] else []
       | None => []
       end)
      ++ (if need_tools needs && negb (tools f) then [ToolsUnsupported] else [])
      ++ (if needs_tool_choice needs && negb (tools f && tool_choice f)
          then [ToolChoiceUnsupported] else [])
      ++ (if need_reasoning needs && negb (reasoning_content f)
          then [ReasoningUnsupported] else [])
      ++ (match required_context needs with
          | Some required => if context_length seen <? required then [ContextTooSmall] else []
          | None => []
          end)
  end.

(** [Vec::dedup]: of equal neighbours the first stays. *)
Fixpoint dedup (l : list CapabilityGap) : list CapabilityGap :=
  match l with
  | [] => []
  | x :: l' =>
      match l' with
      | y :: _ => if bool_decide (x = y) then dedup l' else x :: dedup l'
      | [] => [x]
      end
  end.

Definition filter_loop (needs : RequestRequirements)
    (seen : gmap DeploymentId DeploymentObservation) (cs : list Candidate)
    (uf : list (DeploymentId * list CapabilityGap))
    : list Candidate * list (DeploymentId * list CapabilityGap) :=
  foldl (fun acc c =>
           let found := gaps needs (seen !! cand_deployment c) in
           match found with
           | [] => (fst acc ++ [c], snd acc)
           | _ => (fst acc, snd acc ++ [(cand_deployment c, found)])
           end) ([], uf) cs.

(** [capability::filter]. *)
Definition filter_capable (e : Eligible) (needs : RequestRequirements)
    (seen : gmap DeploymentId DeploymentObservation) : result Eligible RoutingFailure :=
  let '(fit, uf) := filter_loop needs seen (candidates e) (unfit e) in
  match fit with
  | _ :: _ => Ok (mkEligible (el_route e) fit (skipped e) uf (route_size e))
  | [] =>
      let a_down_deployment_would_do :=
        existsb (fun s => match seen !! fst s with
                          | Some o => bool_decide (gaps needs (Some o) = [])
                          | None => false
                          end) (skipped e) in
      if a_down_deployment_would_do then Err (RouteUnavailable (el_route e))
      else
        let unmet := dedup (sort_by (fun a b => gap_ord a <? gap_ord b) (concat (snd <$> uf))) in
        Err (CapabilityMismatch (el_route e) unmet uf)
  end.

(** ** Lemmas *)

Definition serves (needs : RequestRequirements)
    (seen : gmap DeploymentId DeploymentObservation) (c : Candidate) : bool :=
  match gaps needs (seen !! cand_deployment c) with [] => true | _ => false end.

Lemma serves_gaps needs seen c :
  serves needs seen c = true ↔ gaps needs (seen !! cand_deployment c) = [].
Proof. unfold serves. by destruct (gaps _ _). Qed.

Lemma filter_loop_spec needs seen cs uf :
  filter_loop needs seen cs uf =
  (List.filter (serves needs seen) cs,
   uf ++ ((λ c, (cand_deployment c, gaps needs (seen !! cand_deployment c))) <$>
          List.filter (negb ∘ serves needs seen) cs)).
Proof.
  unfold filter_loop.
  assert (Hgen : ∀ fit, foldl (fun acc c =>
      match gaps needs (seen !! cand_deployment c) with
      | [] => (fst acc ++ [c], snd acc)
      | _ => (fst acc, snd acc ++ [(cand_deployment c, gaps needs (seen !! cand_deployment c))])
      end) (fit, uf) cs =
    (fit ++ List.filter (serves needs seen) cs,
     uf ++ ((λ c, (cand_deployment c, gaps needs (seen !! cand_deployment c))) <$>
            List.filter (negb ∘ serves needs seen) cs))); [|by rewrite (Hgen [])].
  revert uf. induction cs as [|c cs IH]; intros uf fit; simpl; [by rewrite !app_nil_r|].
  assert (Hs : serves needs seen c =
    match gaps needs (seen !! cand_deployment c) with [] => true | _ => false end) by done.
  rewrite Hs. destruct (gaps needs (seen !! cand_deployment c)) as [|g gs] eqn:E; simpl;
    rewrite IH; csimpl; rewrite ?E, <-?app_assoc; done.
Qed.

Lemma elem_of_dedup g l : g ∈ dedup l ↔ g ∈ l.
Proof.
  induction l as [|x l IH]; [done|]. simpl. destruct l as [|y l]; [done|].
  case_bool_decide as Hxy.
  - subst. rewrite IH, !elem_of_cons. tauto.
  - rewrite elem_of_cons, IH, !elem_of_cons. tauto.
Qed.

Lemma dedup_head x l : ∃ k, dedup (x :: l) = x :: k.
Proof.
  revert x. induction l as [|y l IH]; intros x; [by exists []|]. simpl.
  case_bool_decide as Hxy; [subst; apply IH|by eexists].
Qed.

Lemma dedup_sorted l :
  StronglySorted (λ a b, (gap_ord b <? gap_ord a) = false) l →
  StronglySorted (λ a b, gap_ord a < gap_ord b) (dedup l).
Proof.
  induction 1 as [|x l Hl IH Hx]; [constructor|]. simpl. destruct l as [|y l]; [repeat constructor|].
  case_bool_decide as Hxy; [done|]. constructor; [done|]. rewrite Forall_forall in *.
  intros z Hz. rewrite elem_of_dedup in Hz.
  assert (Hxy' : gap_ord x < gap_ord y).
  { specialize (Hx y (list_elem_of_here _ _)). apply Z.ltb_ge in Hx.
    assert (gap_ord x ≠ gap_ord y) by (intros He; apply Hxy; by destruct x, y). lia. }
  apply elem_of_cons in Hz as [->|Hz]; [done|].
  apply StronglySorted_inv in Hl as [_ Hy]. rewrite Forall_forall in Hy.
  specialize (Hy z Hz). apply Z.ltb_ge in Hy. lia.
Qed.

Lemma gap_sort_sorted l :
  StronglySorted (λ a b, gap_ord a < gap_ord b)
    (dedup (sort_by (fun a b => gap_ord a <? gap_ord b) l)).
Proof. apply dedup_sorted, sort_by_sorted; intros; lia. Qed.

(** What [gaps] being empty means, requirement by requirement. *)
Lemma gaps_nil needs o :
  gaps needs (Some o) = [] ↔
  (need_endpoint needs = Some ChatCompletions → chat_completions (capabilities o) = true) ∧
  (need_endpoint needs = Some Completions → completions (capabilities o) = true) ∧
  (need_tools needs = true → tools (capabilities o) = true) ∧
  (needs_tool_choice needs = true →
     tools (capabilities o) = true ∧ tool_choice (capabilities o) = true) ∧
  (need_reasoning needs = true → reasoning_content (capabilities o) = true) ∧
  (∀ c, required_context needs = Some c → c ≤ context_length o).
Proof.
  unfold gaps. rewrite !app_nil.
  assert (Hc : match required_context needs with
               | Some r => if context_length o <? r then [ContextTooSmall] else []
               | None => [] end = [] ↔
               ∀ c, required_context needs = Some c → c ≤ context_length o).
  { destruct (required_context needs) as [r|]; [|by split].
    destruct (Z.ltb_spec (context_length o) r); split; try done.
    - intros Hr. specialize (Hr r eq_refl). lia.
    - by intros _ c [= <-]. }
  rewrite Hc. clear Hc.
  destruct (need_endpoint needs) as [[]|], (chat_completions _), (completions _),
    (need_tools needs), (needs_tool_choice needs), (need_reasoning needs), (tools _),
    (tool_choice _), (reasoning_content _); simpl; intuition congruence.
Qed.

(** A deployment that offers no less serves no less. *)
Lemma gaps_intersect needs a b c1 c2 m1 m2 t1 t2 :
  c1 ≤ c2 →
  gaps needs (Some (mkDObservation (intersect a b) c1 m1 t1)) = [] →
  gaps needs (Some (mkDObservation a c2 m2 t2)) = [] ∧
  gaps needs (Some (mkDObservation b c2 m2 t2)) = [].
Proof.
  intros Hc. rewrite !gaps_nil. unfold intersect. simpl. rewrite !andb_true_iff.
  intros (H1 & H2 & H3 & H4 & H5 & H6).
  split; (split_and!; [tauto|tauto|tauto|tauto|tauto|]); intros c Hr; specialize (H6 c Hr); lia.
Qed.

Section sorting_out.
Context `{LowerCase} (t : Topology) (book : gmap NodeId NodeStatus).

Lemma sort_out_cons id ids k :
  sort_out t book (id :: ids) k =
  let '(cs, sk) := sort_out t book ids (S k) in
  match consider t book k id with
  | Some (inl c) => (c :: cs, sk)
  | Some (inr s) => (cs, s :: sk)
  | None => (cs, sk)
  end.
Proof. reflexivity. Qed.

Lemma elem_of_sort_out ids k c :
  c ∈ fst (sort_out t book ids k) ↔
  ∃ i id, ids !! i = Some id ∧ consider t book (k + i) id = Some (inl c).
Proof.
  revert k. induction ids as [|id ids IH]; intros k.
  { simpl. split; [by intros ?%not_elem_of_nil|]. by intros (i & id & ? & _). }
  rewrite sort_out_cons. specialize (IH (S k)).
  destruct (sort_out t book ids (S k)) as [cs sk]. simpl in IH.
  assert (Hsplit : (∃ i id', (id :: ids) !! i = Some id' ∧ consider t book (k + i) id' = Some (inl c)) ↔
    consider t book k id = Some (inl c) ∨ c ∈ cs).
  { rewrite IH. split.
    - intros ([|i] & id' & Hi & Hcon); simplify_eq/=.
      + left. by rewrite Nat.add_0_r in Hcon.
      + right. exists i, id'. by rewrite Nat.add_succ_r in Hcon.
    - intros [Hcon|(i & id' & Hi & Hcon)].
      + exists 0%nat, id. by rewrite Nat.add_0_r.
      + exists (S i), id'. by rewrite Nat.add_succ_r. }
  rewrite Hsplit. destruct (consider t book k id) as [[c'|s]|]; simpl; rewrite ?elem_of_cons;
    split; intuition congruence.
Qed.

Lemma elem_of_skipped ids k s :
  s ∈ snd (sort_out t book ids k) ↔
  ∃ i id, ids !! i = Some id ∧ consider t book (k + i) id = Some (inr s).
Proof.
  revert k. induction ids as [|id ids IH]; intros k.
  { simpl. split; [by intros ?%not_elem_of_nil|]. by intros (i & id & ? & _). }
  rewrite sort_out_cons. specialize (IH (S k)).
  destruct (sort_out t book ids (S k)) as [cs sk]. simpl in IH.
  assert (Hsplit : (∃ i id', (id :: ids) !! i = Some id' ∧ consider t book (k + i) id' = Some (inr s)) ↔
    consider t book k id = Some (inr s) ∨ s ∈ sk).
  { rewrite IH. split.
    - intros ([|i] & id' & Hi & Hcon); simplify_eq/=.
      + left. by rewrite Nat.add_0_r in Hcon.
      + right. exists i, id'. by rewrite Nat.add_succ_r in Hcon.
    - intros [Hcon|(i & id' & Hi & Hcon)].
      + exists 0%nat, id. by rewrite Nat.add_0_r.
      + exists (S i), id'. by rewrite Nat.add_succ_r. }
  rewrite Hsplit. destruct (consider t book k id) as [[c'|s']|]; simpl; rewrite ?elem_of_cons;
    split; intuition congruence.
Qed.

Lemma consider_inl k id c :
  consider t book k id = Some (inl c) →
  cand_deployment c = id ∧ cand_position c = k ∧
  ∃ d n, find_deployment t id = Some d ∧ find_node t (deployment_node d) = Some n ∧
    availability n d (default NodeStatus_default (book !! node_id n)) = Available ∧
    c = mkCandidate id (node_id n) (remote_model d) k.
Proof.
  unfold consider. destruct (find_deployment t id) as [d|] eqn:Ed; [|done].
  simpl. destruct (find_node t (deployment_node d)) as [n|] eqn:En; [|done].
  simpl. destruct (availability _ _ _) eqn:Ea; [|done]. intros [= <-].
  apply find_deployment_Some in Ed as Hd. destruct Hd as [_ <-].
  split_and!; try done. by exists d, n.
Qed.

Lemma consider_inr k id s :
  consider t book k id = Some (inr s) →
  fst s = id ∧
  ∃ d n, find_deployment t id = Some d ∧ find_node t (deployment_node d) = Some n ∧
    availability n d (default NodeStatus_default (book !! node_id n)) = Unavailable (snd s).
Proof.
  unfold consider. destruct (find_deployment t id) as [d|] eqn:Ed; [|done].
  simpl. destruct (find_node t (deployment_node d)) as [n|] eqn:En; [|done].
  simpl. destruct (availability _ _ _) eqn:Ea; [done|]. intros [= <-].
  apply find_deployment_Some in Ed as Hd. destruct Hd as [_ <-].
  split; [done|]. by exists d, n.
Qed.

(** Candidates come in configured order. *)
Lemma sort_out_sorted ids k :
  StronglySorted (λ a b, (cand_position a < cand_position b)%nat) (fst (sort_out t book ids k)).
Proof.
  revert k. induction ids as [|id ids IH]; intros k; [constructor|].
  rewrite sort_out_cons. specialize (IH (S k)).
  assert (Hgt : ∀ c, c ∈ fst (sort_out t book ids (S k)) → (k < cand_position c)%nat).
  { intros c (i & id' & _ & Hc)%elem_of_sort_out. apply consider_inl in Hc as (_ & -> & _). lia. }
  destruct (sort_out t book ids (S k)) as [cs sk]. simpl in *.
  destruct (consider t book k id) as [[c|s]|] eqn:E; simpl; try done.
  constructor; [done|]. apply consider_inl in E as (_ & -> & _). rewrite Forall_forall. auto.
Qed.

Lemma sort_out_nodup ids k :
  NoDup ids → NoDup (cand_deployment <$> fst (sort_out t book ids k)).
Proof.
  intros Hnd. revert k. induction Hnd as [|id ids Hid Hnd IH]; intros k; [constructor|].
  rewrite sort_out_cons. specialize (IH (S k)).
  assert (Hin : ∀ c, c ∈ fst (sort_out t book ids (S k)) → cand_deployment c ∈ ids).
  { intros c (i & id' & Hi & Hc)%elem_of_sort_out. apply consider_inl in Hc as (-> & _).
    by eapply list_elem_of_lookup_2. }
  destruct (sort_out t book ids (S k)) as [cs sk]. simpl in *.
  destruct (consider t book k id) as [[c|s]|] eqn:E; simpl; try done.
  csimpl. constructor; [|done]. apply consider_inl in E as (-> & _).
  intros (c' & -> & Hc')%list_elem_of_fmap. by apply Hid, Hin.
Qed.
End sorting_out.

(** ** Properties *)

(** Eligibility is exactly availability.  In a validated topology each
    deployment of a route is a candidate if and only if it can take traffic,
    and otherwise is skipped with the reason it cannot; the route is refused
    as unavailable, never as unknown, exactly when none can. *)
Theorem eligible_exact `{LowerCase} t r book id d n :
  WellFormed t → r ∈ routes t → id ∈ route_deployments r →
  find_deployment t id = Some d → find_node t (deployment_node d) = Some n →
  let h := availability n d (default NodeStatus_default (book !! node_id n)) in
  match eligible t r book with
  | Ok e => (h = Available ↔ id ∈ cand_deployment <$> candidates e) ∧
            ∀ reason, h = Unavailable reason ↔ (id, reason) ∈ skipped e
  | Err f => f = RouteUnavailable (route_name r) ∧ h ≠ Available
  end.
Proof.
  intros HW Hr Hid Hd Hn h. apply list_elem_of_lookup in Hid as [i Hi].
  pose proof (find_deployment_Some _ _ _ Hd) as [_ Hdid].
  assert (Hcon : ∀ k, consider t book k id = match h with
    | Available => Some (inl (mkCandidate id (node_id n) (remote_model d) k))
    | Unavailable reason => Some (inr (id, reason)) end).
  { intros k. unfold consider. rewrite Hd. simpl. rewrite Hn. simpl. fold h. rewrite Hdid. by destruct h. }
  assert (Hav : h = Available ↔ id ∈ cand_deployment <$> fst (sort_out t book (route_deployments r) 0)).
  { rewrite list_elem_of_fmap. split.
    - intros Ha. exists (mkCandidate id (node_id n) (remote_model d) i). split; [done|].
      apply elem_of_sort_out. exists i, id. by rewrite Hcon, Ha.
    - intros (c & -> & (j & id' & _ & Hc)%elem_of_sort_out).
      apply consider_inl in Hc as Hc'. destruct Hc' as (Heq & _). subst id'.
      rewrite Hcon in Hc. by destruct h. }
  assert (Hun : ∀ reason, h = Unavailable reason ↔
      (id, reason) ∈ snd (sort_out t book (route_deployments r) 0)).
  { intros reason. rewrite elem_of_skipped. split.
    - intros Ha. exists i, id. by rewrite Hcon, Ha.
    - intros (j & id' & _ & Hc). apply consider_inr in Hc as Hc'. destruct Hc' as (Heq & _).
      simpl in Heq. subst id'. rewrite Hcon in Hc. destruct h; by simplify_eq. }
  unfold eligible. destruct (sort_out t book (route_deployments r) 0) as [[|c cs] sk].
  - split; [done|]. rewrite Hav. simpl. apply not_elem_of_nil.
  - by split.
Qed.

Definition demo_statuses (p : RoutePolicy) : gmap NodeId NodeStatus := hb_nodes (demo_book p).

(** The laptop serves its model; the tower has never been probed. *)
Lemma eligible_exact_witness :
  ∃ e, @eligible ascii_case (demo_topology Priority) (demo_route Priority)
         (demo_statuses Priority) = Ok e ∧ (on_tower, NodeUnknown) ∈ skipped e.
Proof.
  pose proof (@eligible_exact ascii_case (demo_topology Priority) (demo_route Priority)
    (demo_statuses Priority) on_tower (mkDeployment on_tower tower (lit "Qwen"))
    (mkNode tower (lit "http://tower:8080/") true AuthNone) (demo_wf Priority)
    (list_elem_of_here _ _) (list_elem_of_further _ _ _ (list_elem_of_here _ _))
    eq_refl eq_refl) as Hx.
  destruct (eligible _ _ _) as [e|f] eqn:E.
  - exists e. split; [reflexivity|]. apply Hx. vm_compute. reflexivity.
  - exfalso. vm_compute in E. discriminate E.
Defined.

(** The filter succeeds with the candidates that serve, or none does. *)
Lemma filter_Ok e needs seen e' :
  filter_capable e needs seen = Ok e' →
  candidates e' = List.filter (serves needs seen) (candidates e) ∧ candidates e' ≠ [].
Proof.
  unfold filter_capable. rewrite filter_loop_spec.
  destruct (List.filter (serves needs seen) (candidates e)) as [|c cs] eqn:E.
  - by destruct (existsb _ (skipped e)).
  - by intros [= <-].
Qed.

Lemma filter_Err e needs seen f c :
  filter_capable e needs seen = Err f → c ∈ candidates e → serves needs seen c = false.
Proof.
  unfold filter_capable. rewrite filter_loop_spec.
  destruct (List.filter (serves needs seen) (candidates e)) as [|x xs] eqn:E; [|done].
  intros _ Hc. destruct (serves needs seen c) eqn:Es; [|done].
  assert (Hin : In c (List.filter (serves needs seen) (candidates e)))
    by (apply filter_In; by rewrite <-list_elem_of_In).
  by rewrite E in Hin.
Qed.

(** Capability filtering is exact on every branch.  It keeps precisely
    the candidates without a gap, in their order; when none is left it says
    to wait if a deployment that is down was last seen able to serve the
    request, and otherwise names each unmet requirement once, in a fixed
    order, none left out and none invented. *)
Theorem filter_exact e needs seen :
  match filter_capable e needs seen with
  | Ok e' =>
      candidates e' = List.filter (serves needs seen) (candidates e) ∧ candidates e' ≠ [] ∧
      skipped e' = skipped e ∧ el_route e' = el_route e ∧ route_size e' = route_size e
  | Err (RouteUnavailable route) =>
      route = el_route e ∧ (∀ c, c ∈ candidates e → serves needs seen c = false) ∧
      ∃ s o, s ∈ skipped e ∧ seen !! fst s = Some o ∧ gaps needs (Some o) = []
  | Err (CapabilityMismatch route unmet uf) =>
      route = el_route e ∧ (∀ c, c ∈ candidates e → serves needs seen c = false) ∧
      (∀ g, g ∈ unmet ↔ ∃ x, x ∈ uf ∧ g ∈ snd x) ∧
      (∀ c, c ∈ candidates e →
         (cand_deployment c, gaps needs (seen !! cand_deployment c)) ∈ uf) ∧
      StronglySorted (λ a b, gap_ord a < gap_ord b) unmet
  | Err _ => False
  end.
Proof.
  pose proof (filter_Err e needs seen) as Hnone. revert Hnone.
  unfold filter_capable. rewrite filter_loop_spec.
  destruct (List.filter (serves needs seen) (candidates e)) as [|c cs] eqn:E; [|by intros _; split_and!].
  destruct (existsb _ (skipped e)) eqn:Ex; intros Hnone0;
    pose proof (λ c, Hnone0 _ c eq_refl) as Hnone; clear Hnone0.
  - split_and!; try done. apply existsb_exists in Ex as ([id why] & Hin & Hs).
    simpl in Hs. destruct (seen !! id) as [o|] eqn:Eo; [|done].
    apply bool_decide_eq_true in Hs. exists (id, why), o. by rewrite list_elem_of_In.
  - split_and!; try done.
    + intros g. rewrite elem_of_dedup, sort_by_Permutation, list_elem_of_In, in_concat.
      setoid_rewrite <-list_elem_of_In. split.
      * intros (gs & (x & -> & Hx)%list_elem_of_fmap & Hg). by exists x.
      * intros (x & Hx & Hg). exists (snd x). split; [by apply list_elem_of_fmap_2|done].
    + intros c Hc. apply elem_of_app. right.
      apply (list_elem_of_fmap_2 (λ c, (cand_deployment c, gaps needs (seen !! cand_deployment c)))).
      apply list_elem_of_In, filter_In. rewrite <-list_elem_of_In. simpl. by rewrite Hnone.
    + apply gap_sort_sorted.
Qed.
