(* ===== verification/Load.v ===== *)
(** * What the router has in flight

    [crates/lightweight-router/src/load.rs]: one counter per deployment, one
    [Lease] per upstream attempt.  [InFlight] is what the selector relies on,
    and [LoadBook] is the implementation of it. *)

From stdpp Require Import base gmap strings numbers list.
From S2P Require Import Prelude Names Domain.

(** The counter a lease gives back when it is dropped; a lease on a
    deployment outside the topology counts nothing. *)
Record Lease := mkLease { lease_counter : option DeploymentId }.

#[export] Instance Lease_eq_dec : EqDecision Lease.
Proof. solve_decision. Defined.

(** ** The interface the selector is written against *)

Class InFlight (L : Type) := {
  active : L → DeploymentId → u64;
  acquire : L → DeploymentId → Lease * L }.

(** A slot taken on a counted deployment is seen by the next reader, and
    nothing else moves. *)
Class InFlightLaws (L : Type) `{InFlight L} := {
  counted : L → DeploymentId → Prop;
  acquire_counted l d : counted l d →
    fst (acquire l d) = mkLease (Some d) ∧
    ∀ d', active (snd (acquire l d)) d' = active l d' + (if bool_decide (d' = d) then 1 else 0);
  acquire_uncounted l d : ¬ counted l d →
    fst (acquire l d) = mkLease None ∧ snd (acquire l d) = l }.

(** ** The book *)

Record LoadBook := mkLoadBook { counters : gmap DeploymentId u64 }.

Definition LoadBook_new (t : Topology) : LoadBook :=
  mkLoadBook (foldl (fun m d => <[deployment_id d := 0]> m) ∅ (deployments t)).

Definition book_acquire (b : LoadBook) (d : DeploymentId) : Lease * LoadBook :=
  match counters b !! d with
  | Some n => (mkLease (Some d), mkLoadBook (<[d := n + 1]> (counters b)))
  | None => (mkLease None, b)
  end.

Definition book_active (b : LoadBook) (d : DeploymentId) : u64 := default 0 (counters b !! d).

(** [LoadBook::snapshot]. *)
Definition load_snapshot (b : LoadBook) : gmap DeploymentId u64 := counters b.

(** [Drop for Lease]: [fetch_sub(1)], which wraps. *)
Definition drop_lease (b : LoadBook) (l : Lease) : LoadBook :=
  match lease_counter l with
  | Some d => match counters b !! d with
              | Some n => mkLoadBook (<[d := (n - 1) mod 2 ^ 64]> (counters b))
              | None => b
              end
  | None => b
  end.

#[export] Instance LoadBook_InFlight : InFlight LoadBook :=
  { active := book_active; acquire := book_acquire }.

#[export] Instance LoadBook_laws : InFlightLaws LoadBook.
Proof.
  refine {| counted b d := is_Some (counters b !! d) |}.
  - intros b d [n Hn]. simpl. unfold book_acquire, book_active. rewrite Hn. simpl.
    split; [done|]. intros d'. rewrite lookup_insert.
    destruct (decide (d = d')) as [<-|Hne].
    + rewrite Hn, bool_decide_eq_true_2 by done. done.
    + rewrite bool_decide_eq_false_2 by done. lia.
  - intros b d Hn. simpl. unfold book_acquire. destruct (counters b !! d); [|done].
    destruct Hn. eauto.
Defined.

(** ** Attempts taking and giving back slots *)

(** The book and the leases alive. *)
Record InUse := mkInUse { in_book : LoadBook; leases : list Lease }.

Inductive use_step : InUse → InUse → Prop :=
| use_acquire b ls d :
    use_step (mkInUse b ls)
      (mkInUse (snd (book_acquire b d)) (fst (book_acquire b d) :: ls))
| use_drop b ls i l :
    ls !! i = Some l → use_step (mkInUse b ls) (mkInUse (drop_lease b l) (delete i ls)).

Definition holding (d : DeploymentId) (ls : list Lease) : nat :=
  count_if (fun l => bool_decide (lease_counter l = Some d)) ls.

(** Every counter is the number of live leases on it. *)
Definition Balanced (u : InUse) : Prop :=
  ∀ d, match counters (in_book u) !! d with
       | Some n => n = Z.of_nat (holding d (leases u))
       | None => holding d (leases u) = 0%nat
       end.

Lemma holding_cons d l ls :
  holding d (l :: ls) = ((if bool_decide (lease_counter l = Some d) then 1 else 0) + holding d ls)%nat.
Proof. unfold holding, count_if. simpl. by destruct (bool_decide (lease_counter l = Some d)). Qed.

Lemma holding_delete d ls i l :
  ls !! i = Some l →
  holding d ls = ((if bool_decide (lease_counter l = Some d) then 1 else 0) + holding d (delete i ls))%nat.
Proof.
  revert i. induction ls as [|x ls IH]; intros [|i] Hi; simplify_eq/=.
  - apply holding_cons.
  - rewrite !holding_cons, (IH i Hi). lia.
Qed.

Lemma Balanced_step u u' :
  use_step u u' → (Z.of_nat (length (leases u)) < 2 ^ 64) → Balanced u → Balanced u'.
Proof.
  intros [b ls d|b ls i l Hi] Hlen HB d'; specialize (HB d') as Hd'; simpl in *.
  - unfold book_acquire. destruct (counters b !! d) as [n|] eqn:Hd; simpl.
    + rewrite holding_cons, lookup_insert. simpl. destruct (decide (d = d')) as [<-|Hne].
      * rewrite Hd in Hd'. rewrite bool_decide_eq_true_2 by done. lia.
      * rewrite bool_decide_eq_false_2 by congruence. done.
    + by rewrite holding_cons.
  - rewrite (holding_delete d' ls i l Hi) in Hd'. destruct l as [[d|]]; [|done].
    specialize (HB d). simpl in HB. rewrite (holding_delete d ls i _ Hi) in HB.
    cbn [lease_counter] in *. rewrite bool_decide_eq_true_2 in HB by done.
    unfold drop_lease. cbn [lease_counter]. destruct (counters b !! d) as [n|] eqn:Hd; simpl; [|lia].
    rewrite lookup_insert. destruct (decide (d = d')) as [<-|Hne].
    + assert (Hle : (holding d (delete i ls) ≤ length (delete i ls))%nat).
      { unfold holding, count_if. apply filter_length_le. }
      rewrite length_delete in Hle by done. rewrite Z.mod_small; lia.
    + rewrite bool_decide_eq_false_2 in Hd' by congruence. done.
Qed.

(** Runs whose live leases never reach 2^64. *)
Definition use_run : InUse → InUse → Prop :=
  rtc (λ u u', use_step u u' ∧ Z.of_nat (length (leases u)) < 2 ^ 64).

(** The load the router reads is exact.  Whatever the order in which
    attempts take and drop their leases, a deployment's counter equals the
    number of leases on it that are alive; when every attempt is over, every
    counter is zero again. *)
Theorem load_exact t u :
  use_run (mkInUse (LoadBook_new t) []) u →
  (∀ d, d ∈ deployments t →
     book_active (in_book u) (deployment_id d) = Z.of_nat (holding (deployment_id d) (leases u))) ∧
  (leases u = [] → ∀ d, book_active (in_book u) d = 0).
Proof.
  intros Hr.
  assert (H0 : Balanced (mkInUse (LoadBook_new t) [])).
  { intros d. simpl. unfold holding, count_if. simpl.
    induction (deployments t) as [|x ds IH] using rev_ind; [done|].
    rewrite foldl_app. simpl. rewrite lookup_insert. by case_decide. }
  assert (HB : Balanced u).
  { clear -Hr H0. revert H0. induction Hr as [|u1 u2 u3 [Hs Hl] _ IH]; intros HB; [done|].
    apply IH. by eapply Balanced_step. }
  split.
  - intros d _. specialize (HB (deployment_id d)). unfold book_active.
    destruct (counters (in_book u) !! deployment_id d); simpl; lia.
  - intros Hnil d. specialize (HB d). rewrite Hnil in HB. unfold book_active, holding, count_if in *.
    destruct (counters (in_book u) !! d); simpl in *; lia.
Qed.

Lemma load_exact_witness :
  book_active (snd (book_acquire (LoadBook_new (demo_topology LeastBusy)) on_tower)) on_tower = 1.
Proof.
  apply (proj1 (load_exact (demo_topology LeastBusy)
    (mkInUse (snd (book_acquire (LoadBook_new (demo_topology LeastBusy)) on_tower))
             [fst (book_acquire (LoadBook_new (demo_topology LeastBusy)) on_tower)])
    ltac:(apply rtc_once; split; [apply use_acquire|simpl; lia]))
    (mkDeployment on_tower tower (lit "Qwen"))).
  apply list_elem_of_further, list_elem_of_here.
Defined.
