(* ===== verification/Select.v ===== *)
(** * Choosing where a request goes

    [crates/lightweight-router/src/select.rs]: the three policies, the plan a
    request walks, session affinity and the route summary.  The selector is
    the list of per-route cursors and an [InFlight] load source; planning is
    one step on it, as the cursor is drawn by one atomic add and least-busy
    reads, chooses and reserves under the route's lock. *)

From stdpp Require Import base gmap strings numbers sorting list.
From S2P Require Import Prelude Names Capabilities Domain Health Capability Load.

(** ** Plans *)

Inductive Reassignment :=
| StickyUnhealthy | StickyUnavailable | StickyCapabilityMismatch
| StickyContextOverflow | StickyFailed.

Inductive Selection :=
| SelectedPriority
| SelectedRoundRobin (cursor : u64) (selected_index : usize)
| SelectedLeastBusy (active_before : u64) (concurrency_limit : option u32) (tied : bool)
| SelectedAffinity.

Inductive Sticky := Hit | Broken (why : Reassignment).

Record Plan := mkPlan {
  plan_route : RouteName;
  plan_policy : RoutePolicy;
  plan_candidates : list Candidate;
  plan_skipped : list (DeploymentId * UnavailableReason);
  plan_unfit : list (DeploymentId * list CapabilityGap);
  selection : Selection;
  reservation : option Lease;
  plan_sticky : option Sticky;
  plan_route_size : nat }.

(** [Plan::from]. *)
Definition Plan_from (e : Eligible) (p : RoutePolicy) (s : Selection) : Plan :=
  mkPlan (el_route e) p (candidates e) (skipped e) (unfit e) s None None (route_size e).

Definition with_reservation (p : Plan) (l : option Lease) : Plan :=
  mkPlan (plan_route p) (plan_policy p) (plan_candidates p) (plan_skipped p) (plan_unfit p)
    (selection p) l (plan_sticky p) (plan_route_size p).
Definition with_sticky (p : Plan) (s : option Sticky) : Plan :=
  mkPlan (plan_route p) (plan_policy p) (plan_candidates p) (plan_skipped p) (plan_unfit p)
    (selection p) (reservation p) s (plan_route_size p).

Definition is_hit (p : Plan) : bool :=
  match plan_sticky p with Some Hit => true | _ => false end.

Definition decision (p : Plan) (attempt : nat) : option RoutingDecision :=
  let! c := plan_candidates p !! attempt in
  let first := bool_decide (attempt = 0%nat) in
  let reason :=
    if first && is_hit p then SessionAffinity
    else match plan_policy p with
         | Priority =>
             if bool_decide (plan_route_size p = 1%nat) then ExplicitSingleDeployment
             else if negb first then PrimaryFailedFallback
             else if bool_decide (cand_position c = 0%nat) then PrimaryHealthy
             else PrimaryUnavailableFallback
         | RoundRobin => if negb first then RoundRobinFailover else ByRoundRobin
         | LeastBusy =>
             if negb first then LeastBusyFailover
             else match selection p with
                  | SelectedLeastBusy _ _ true => LeastBusyTiebreak
                  | _ => ByLeastBusy
                  end
         end in
  Some (mkDecision (plan_route p) (cand_deployment c) (cand_node c) reason).

(** ** The policies *)

Definition order_priority (e : Eligible) : Plan := Plan_from e Priority SelectedPriority.

Definition with_candidates (e : Eligible) (cs : list Candidate) : Eligible :=
  mkEligible (el_route e) cs (skipped e) (unfit e) (route_size e).

Definition order_round_robin (e : Eligible) (cursor : u64) : Plan :=
  let len := Z.max (Z.of_nat (length (candidates e))) 1 in
  let start := cursor mod len in
  Plan_from (with_candidates e (rotate_left (Z.to_nat start) (candidates e)))
    RoundRobin (SelectedRoundRobin cursor start).

Record LoadOf := mkLoad { load_active : u64; load_limit : option u32 }.

(** [Load::capacity]. *)
Definition load_capacity (l : LoadOf) : option u64 :=
  match load_limit l with
  | Some limit => if 0 <? limit then Some limit else None
  | None => None
  end.

(** The products are exact: 64 by 32 bits in [u128]. *)
Definition compare_load (a b : LoadOf) : comparison :=
  match load_capacity a, load_capacity b with
  | Some limit_a, Some limit_b => (load_active a * limit_b) ?= (load_active b * limit_a)
  | Some _, None => Lt
  | None, Some _ => Gt
  | None, None => load_active a ?= load_active b
  end.

(** The comparator of [sort_by]: load, then configured position. *)
Definition busier (a b : Candidate * LoadOf) : bool :=
  match compare_load (snd a) (snd b) with
  | Lt => true
  | Gt => false
  | Eq => bool_decide (cand_position (fst a) < cand_position (fst b))%nat
  end.

Definition unknown_load : LoadOf := mkLoad 0 None.

Definition rank_loads (cs : list Candidate) (loads : list LoadOf) : list (Candidate * LoadOf) :=
  sort_by busier (imap (fun i c => (c, default unknown_load (loads !! i))) cs).

Definition order_least_busy (e : Eligible) (loads : list LoadOf) : Plan :=
  let ranked := rank_loads (candidates e) loads in
  let '(active_before, limit) :=
    match ranked with
    | (_, l) :: _ =>
        (load_active l, let! c := load_capacity l in if c <=? U32_MAX then Some c else None)
    | [] => (0, None)
    end in
  let tied :=
    match ranked with
    | (_, a) :: (_, b) :: _ => match compare_load a b with Eq => true | _ => false end
    | _ => false
    end in
  Plan_from (with_candidates e (fst <$> ranked)) LeastBusy
    (SelectedLeastBusy active_before limit tied).

(** ** The selector *)

Record Selector (L : Type) := mkSelector { cursors : list u64; load : L }.
Arguments mkSelector {L} cursors load.
Arguments cursors {L} s.
Arguments load {L} s.

Definition Selector_new (t : Topology) : Selector LoadBook :=
  mkSelector (map (fun _ => 0) (routes t)) (LoadBook_new t).

(** Where the sticky deployment stands after both filters. *)
Definition sticky_standing (e : Eligible) (sticky : DeploymentId) : result nat Reassignment :=
  match position_of (fun c => bool_decide (cand_deployment c = sticky)) (candidates e) with
  | Some index => Ok index
  | None =>
      if existsb (fun x => bool_decide (fst x = sticky)) (unfit e)
      then Err StickyCapabilityMismatch
      else match find_first (fun x => bool_decide (fst x = sticky)) (skipped e) with
           | Some (_, NodeUnhealthy) | Some (_, NodeUnknown) => Err StickyUnhealthy
           | _ => Err StickyUnavailable
           end
  end.

Section selecting.
Context `{LowerCase} {L : Type} `{InFlight L}.

Definition route_index (t : Topology) (r : Route) : option nat :=
  position_of (fun x => bool_decide (route_name x = route_name r)) (routes t).

Definition loads (l : L) (cs : list Candidate)
    (seen : gmap DeploymentId DeploymentObservation) : list LoadOf :=
  map (fun c => mkLoad (active l (cand_deployment c))
                  (max_concurrent_requests <$> seen !! cand_deployment c)) cs.

(** Reserve a slot on the first choice. *)
Definition reserve (l : L) (p : Plan) : Plan * L :=
  match plan_candidates p with
  | first :: _ =>
      let '(lease, l') := acquire l (cand_deployment first) in
      (with_reservation p (Some lease), l')
  | [] => (with_reservation p None, l)
  end.

(** [candidates.remove(index)] and [insert(0, first)]. *)
Definition to_front (i : nat) (cs : list Candidate) : list Candidate :=
  match cs !! i with
  | Some first => first :: delete i cs
  | None => cs
  end.

Definition plan_sticky_hit (p : RoutePolicy) (known : bool) (e : Eligible) (index : nat)
    (l : L) (seen : gmap DeploymentId DeploymentObservation) : Plan * L :=
  let plan :=
    match p, known with
    | RoundRobin, true =>
        Plan_from (with_candidates e (rotate_left index (candidates e))) RoundRobin
          SelectedAffinity
    | LeastBusy, true =>
        match candidates e !! index with
        | Some first =>
            let rest := with_candidates e (delete index (candidates e)) in
            let ordered := order_least_busy rest (loads l (candidates rest) seen) in
            mkPlan (plan_route ordered) (plan_policy ordered)
              (first :: plan_candidates ordered) (plan_skipped ordered) (plan_unfit ordered)
              SelectedAffinity None None (plan_route_size ordered)
        | None => Plan_from e LeastBusy SelectedAffinity
        end
    | _, _ => Plan_from (with_candidates e (to_front index (candidates e))) p SelectedAffinity
    end in
  reserve l (with_sticky plan (Some Hit)).

(** The policy's own turn: the ordered plan, and the cursors after it. *)
Definition policy_order (s : Selector L) (r : Route) (state : option (nat * u64)) (e : Eligible)
    (seen : gmap DeploymentId DeploymentObservation) : Plan * list u64 :=
  match policy r, state with
  | RoundRobin, Some (i, cursor) =>
      (order_round_robin e cursor, <[i := (cursor + 1) mod 2 ^ 64]> (cursors s))
  | LeastBusy, Some _ =>
      (order_least_busy e (loads (load s) (candidates e) seen), cursors s)
  | _, _ => (order_priority e, cursors s)
  end.

(** The route's cursor, with its index among the routes. *)
Definition route_state (s : Selector L) (t : Topology) (r : Route) : option (nat * u64) :=
  let! i := route_index t r in
  let! c := cursors s !! i in Some (i, c).

Definition plan_with_affinity (s : Selector L) (t : Topology) (r : Route)
    (book : gmap NodeId NodeStatus) (seen : gmap DeploymentId DeploymentObservation)
    (needs : RequestRequirements) (sticky : option DeploymentId)
    : result Plan RoutingFailure * Selector L :=
  match (let? e := eligible t r book in filter_capable e needs seen) with
  | Err f => (Err f, s)
  | Ok e =>
      let state := route_state s t r in
      let standing := sticky_standing e <$> sticky in
      let broken := match standing with Some (Err why) => Some (Broken why) | _ => None end in
      match standing with
      | Some (Ok index) =>
          let '(p, l) := plan_sticky_hit (policy r) (bool_decide (is_Some state)) e index
                           (load s) seen in
          (Ok p, mkSelector (cursors s) l)
      | _ =>
          let '(p, cs) := policy_order s r state e seen in
          let '(p, l) := reserve (load s) p in
          (Ok (with_sticky p broken), mkSelector cs l)
      end
  end.

Definition plan_request (s : Selector L) (t : Topology) (r : Route)
    (book : gmap NodeId NodeStatus) (seen : gmap DeploymentId DeploymentObservation)
    (needs : RequestRequirements) : result Plan RoutingFailure * Selector L :=
  plan_with_affinity s t r book seen needs None.
End selecting.

(** ** What a route promises *)

Record RouteSummary := mkSummary {
  sum_available : bool;
  sum_context_length : option u32;
  sum_capabilities : CapabilitySet;
  sum_max_concurrent_requests : option u32 }.

(** The loop of [summarize]: context, capabilities, concurrency and whether
    every candidate had been observed. *)
Definition summary_step (seen : gmap DeploymentId DeploymentObservation)
    (acc : option u32 * option CapabilitySet * option u32 * bool) (c : Candidate)
    : option u32 * option CapabilitySet * option u32 * bool :=
  let '(context, caps, concurrency, all) := acc in
  match seen !! cand_deployment c with
  | None => (context, caps, concurrency, false)
  | Some o =>
      (Some (match context with Some x => Z.min x (context_length o) | None => context_length o end),
       Some (match caps with Some x => intersect x (capabilities o) | None => capabilities o end),
       Some (match concurrency with
             | Some x => Z.min x (max_concurrent_requests o)
             | None => max_concurrent_requests o
             end),
       all)
  end.

Definition summarize `{LowerCase} (t : Topology) (r : Route) (book : gmap NodeId NodeStatus)
    (seen : gmap DeploymentId DeploymentObservation) : RouteSummary :=
  match eligible t r book with
  | Err _ => mkSummary false None CapabilitySet_none None
  | Ok e =>
      let '(context, caps, concurrency, all) :=
        foldl (summary_step seen) (None, None, None, true) (candidates e) in
      if negb all then mkSummary true None CapabilitySet_none None
      else mkSummary true context (default CapabilitySet_none caps) concurrency
  end.
