(* ===== verification/SelectTheorems.v ===== *)
(** * What a plan guarantees

    The properties of [Select.v]: whatever the policy and the session, a plan
    is an ordering of exactly the deployments that can serve the request; the
    order is the policy's; the summary a client reads promises no more than
    every deployment it might be sent to. *)

From stdpp Require Import base gmap strings numbers sorting list.
From S2P Require Import Prelude Names Capabilities Domain Health Capability Load Select.

(** ** Orderings are permutations *)

Lemma rotate_left_Permutation {A} n (l : list A) : rotate_left n l ≡ₚ l.
Proof. unfold rotate_left. rewrite Permutation_app_comm. by rewrite take_drop. Qed.

Lemma fst_imap {A B} (g : nat → B) (l : list A) : fst <$> imap (λ i x, (x, g i)) l = l.
Proof.
  revert g. induction l as [|x l IH]; intros g; [done|]. csimpl. f_equal. apply (IH (g ∘ S)).
Qed.

Lemma rank_loads_Permutation cs ls : fst <$> rank_loads cs ls ≡ₚ cs.
Proof.
  unfold rank_loads. rewrite sort_by_Permutation.
  by rewrite (fst_imap (λ i, default unknown_load (ls !! i))).
Qed.

Lemma to_front_Permutation i cs : to_front i cs ≡ₚ cs.
Proof.
  unfold to_front. destruct (cs !! i) as [c|] eqn:E; [|done]. by rewrite <-delete_Permutation.
Qed.

Section planning.
Context `{LowerCase} {L : Type} `{InFlight L}.

Lemma reserve_candidates l p : plan_candidates (fst (reserve l p)) = plan_candidates p.
Proof. unfold reserve. destruct (plan_candidates p) eqn:E; [|destruct (acquire _ _)]; done. Qed.

Lemma order_least_busy_Permutation e ls : plan_candidates (order_least_busy e ls) ≡ₚ candidates e.
Proof.
  rewrite <-(rank_loads_Permutation (candidates e) ls). unfold order_least_busy.
  by destruct (rank_loads _ _) as [|[c l] k].
Qed.

Lemma plan_sticky_hit_Permutation p known e i l seen c :
  candidates e !! i = Some c →
  plan_candidates (fst (plan_sticky_hit p known e i l seen)) ≡ₚ candidates e.
Proof.
  intros Hi. unfold plan_sticky_hit. rewrite reserve_candidates.
  destruct p, known; try apply to_front_Permutation; [apply rotate_left_Permutation|].
  rewrite Hi. cbn [plan_candidates with_sticky]. rewrite order_least_busy_Permutation.
  symmetry. by apply delete_Permutation.
Qed.

Lemma sticky_standing_Ok e d i :
  sticky_standing e d = Ok i → ∃ c, candidates e !! i = Some c ∧ cand_deployment c = d.
Proof.
  unfold sticky_standing. destruct (position_of _ _) as [j|] eqn:E.
  - intros [= <-]. apply position_of_Some in E as (c & Hc & Hd).
    apply bool_decide_eq_true in Hd. by exists c.
  - repeat case_match; done.
Qed.

Lemma plan_Permutation s t r book seen needs sticky p s' :
  plan_with_affinity s t r book seen needs sticky = (Ok p, s') →
  ∃ e0 e, eligible t r book = Ok e0 ∧ filter_capable e0 needs seen = Ok e ∧
    plan_candidates p ≡ₚ candidates e.
Proof.
  unfold plan_with_affinity. destruct (eligible t r book) as [e0|] eqn:E0; [|done]. simpl.
  destruct (filter_capable e0 needs seen) as [e|] eqn:E1; [|done].
  intros Hp. exists e0, e. split_and!; try done. revert Hp.
  assert (Hord : plan_candidates (fst (policy_order s r (route_state s t r) e seen))
    ≡ₚ candidates e).
  { unfold policy_order. destruct (policy r); [done| |]; destruct (route_state s t r) as [[]|];
      simpl; try done; [apply rotate_left_Permutation|apply order_least_busy_Permutation]. }
  assert (Hrest : ∀ broken, (let '(p0, cs) := policy_order s r (route_state s t r) e seen in
      let '(p1, l) := reserve (load s) p0 in
      (Ok (with_sticky p1 broken) : result Plan RoutingFailure, mkSelector cs l)) = (Ok p, s') →
      plan_candidates p ≡ₚ candidates e).
  { intros broken. destruct (policy_order _ _ _ _ _) as [p0 cs]. simpl in Hord.
    pose proof (reserve_candidates (load s) p0) as Hr.
    destruct (reserve (load s) p0) as [p1 l]. intros [= <- _]. simpl in *. by rewrite Hr. }
  destruct (sticky_standing e <$> sticky) as [[i|why]|] eqn:Es; [|by apply Hrest..].
  destruct sticky as [d|]; [|done]. simpl in Es. injection Es as Es.
  apply sticky_standing_Ok in Es as (c & Hc & _).
  pose proof (plan_sticky_hit_Permutation (policy r)
    (bool_decide (is_Some (route_state s t r))) e i (load s) seen c Hc) as Hperm.
  destruct (plan_sticky_hit _ _ _ _ _ _) as [p0 l]. intros [= <- _]. done.
Qed.
End planning.

Lemma eligible_fields `{LowerCase} t r book e :
  eligible t r book = Ok e →
  candidates e = fst (sort_out t book (route_deployments r) 0) ∧
  skipped e = snd (sort_out t book (route_deployments r) 0) ∧ unfit e = [] ∧
  el_route e = route_name r ∧ route_size e = length (route_deployments r).
Proof.
  unfold eligible. destruct (sort_out _ _ _ _) as [[|c cs] sk]; [done|]. by intros [= <-].
Qed.

Lemma filter_sublist {A} (p : A → bool) l : List.filter p l `sublist_of` l.
Proof. induction l as [|x l IH]; simpl; [done|]. case_match; by constructor. Qed.

(** C7: a request only ever goes where it can be served.  Whatever the policy
    and the session, the plan of a request to a route of a validated topology
    is not empty, tries no deployment twice, and the deployments in it are
    exactly the route's deployments that can take traffic now and have no
    capability gap for this request; so neither the first choice nor any
    failover can reach another. *)
Theorem plan_is_exactly_the_capable `{LowerCase} {L} `{InFlight L}
    (s : Selector L) t r book seen needs sticky p s' :
  WellFormed t → r ∈ routes t →
  plan_with_affinity s t r book seen needs sticky = (Ok p, s') →
  plan_candidates p ≠ [] ∧ NoDup (cand_deployment <$> plan_candidates p) ∧
  ∀ id, id ∈ cand_deployment <$> plan_candidates p ↔
    id ∈ route_deployments r ∧
    (∃ d n, find_deployment t id = Some d ∧ find_node t (deployment_node d) = Some n ∧
       availability n d (default NodeStatus_default (book !! node_id n)) = Available) ∧
    gaps needs (seen !! id) = [].
Proof.
  intros HW Hr Hp. destruct (plan_Permutation _ _ _ _ _ _ _ _ _ Hp) as (e0 & e & He0 & He & Hperm).
  apply eligible_fields in He0 as (Hc0 & _). apply filter_Ok in He as [Hce Hne].
  split_and!.
  - intros Hnil. rewrite Hnil in Hperm. by apply Permutation_nil_l in Hperm.
  - rewrite Hperm, Hce. eapply sublist_NoDup; [|apply fmap_sublist, filter_sublist].
    rewrite Hc0. apply sort_out_nodup, (wf_route_nodup _ HW _ Hr).
  - intros id. rewrite Hperm, Hce, list_elem_of_fmap. split.
    + intros (c & -> & Hc). apply list_elem_of_In, filter_In in Hc as [Hc Hs].
      rewrite <-list_elem_of_In, Hc0 in Hc.
      apply elem_of_sort_out in Hc as (i & id & Hi & Hcon).
      apply consider_inl in Hcon as (-> & _ & d & n & Hd & Hn & Ha & Heq).
      split_and!; [by eapply list_elem_of_lookup_2|by exists d, n|].
      apply serves_gaps in Hs. by subst c.
    + intros (Hid & (d & n & Hd & Hn & Ha) & Hg). apply list_elem_of_lookup in Hid as [i Hi].
      exists (mkCandidate id (node_id n) (remote_model d) i). split; [done|].
      apply list_elem_of_In, filter_In. rewrite <-list_elem_of_In, Hc0. split.
      * apply elem_of_sort_out. exists i, id. split; [done|].
        unfold consider. rewrite Hd. simpl. rewrite Hn. simpl. rewrite Ha.
        by rewrite (proj2 (find_deployment_Some _ _ _ Hd)).
      * by apply serves_gaps.
Qed.

(** Both nodes serve the model; the laptop's context is too small. *)
Definition both_up (p : RoutePolicy) : HealthBook :=
  @record ascii_case (demo_book p) tower
    (Success (mkObservation (Some (mkServed (lit "Qwen") 32768))
                (mkFeatures true true true true true true true true true true) 4 (lit "0.4.0"))) 8.

Definition long_chat : RequestRequirements :=
  mkNeeds (Some ChatCompletions) true TCAuto false (Some 9000) None.

Lemma plan_is_exactly_the_capable_witness :
  ∃ p s', @plan_with_affinity ascii_case LoadBook _ (Selector_new (demo_topology RoundRobin))
      (demo_topology RoundRobin) (demo_route RoundRobin) (hb_nodes (both_up RoundRobin))
      (hb_deployments (both_up RoundRobin)) long_chat (Some on_laptop) = (Ok p, s') ∧
    (on_laptop ∈ cand_deployment <$> plan_candidates p → False) ∧
    on_tower ∈ cand_deployment <$> plan_candidates p.
Proof.
  destruct (plan_with_affinity _ _ _ _ _ _ _) as [[p|f] s'] eqn:E;
    [|vm_compute in E; discriminate E].
  exists p, s'. split; [reflexivity|].
  destruct (@plan_is_exactly_the_capable ascii_case LoadBook _ _ _ _ _ _ _ _ _ _
    (demo_wf RoundRobin) (list_elem_of_here _ _) E) as (_ & _ & Hiff).
  split.
  - intros (_ & _ & Hg)%Hiff. vm_compute in Hg. discriminate Hg.
  - apply Hiff. split; [|split].
    + apply list_elem_of_further, list_elem_of_here.
    + exists (mkDeployment on_tower tower (lit "Qwen")),
        (mkNode tower (lit "http://tower:8080/") true AuthNone).
      split; [reflexivity|]. split; vm_compute; reflexivity.
    + vm_compute. reflexivity.
Defined.

(** ** Session affinity *)

Lemma rotate_left_head {A} i (l : list A) x : l !! i = Some x → head (rotate_left i l) = Some x.
Proof.
  intros Hi. unfold rotate_left.
  rewrite <-(take_drop_middle l i x Hi) at 1. rewrite drop_app_length'; [done|].
  rewrite length_take. apply lookup_lt_Some in Hi. lia.
Qed.

Lemma plan_sticky_hit_head `{InFlight L} p known e i l seen c :
  candidates e !! i = Some c →
  head (plan_candidates (fst (plan_sticky_hit p known e i l seen))) = Some c ∧
  plan_sticky (fst (plan_sticky_hit p known e i l seen)) = Some Hit.
Proof.
  intros Hi. unfold plan_sticky_hit.
  assert (Hst : ∀ q, plan_sticky (fst (reserve l (with_sticky q (Some Hit)))) = Some Hit).
  { intros q. unfold reserve. destruct (plan_candidates _); [done|]. by destruct (acquire _ _). }
  split; [|apply Hst]. rewrite reserve_candidates.
  destruct p, known; simpl; unfold to_front; rewrite ?Hi; try done.
  by apply rotate_left_head.
Qed.

(** Session affinity is a preference and never more.  If the session's
    deployment can serve the request it goes first and the policy takes no
    turn: no cursor moves.  If it cannot, the request is planned exactly as
    one without a session, and only the reason is noted. *)
Theorem affinity_is_a_preference `{LowerCase} {L} `{InFlight L}
    (s : Selector L) t r book seen needs d p s' :
  plan_with_affinity s t r book seen needs (Some d) = (Ok p, s') →
  ((cand_deployment <$> head (plan_candidates p)) = Some d ∧ plan_sticky p = Some Hit ∧
   cursors s' = cursors s) ∨
  ((d ∉ (cand_deployment <$> plan_candidates p)) ∧ (∃ why, plan_sticky p = Some (Broken why)) ∧
   ∃ p0, plan_request s t r book seen needs = (Ok p0, s') ∧ p = with_sticky p0 (plan_sticky p)).
Proof.
  intros Hplan. pose proof (plan_Permutation _ _ _ _ _ _ _ _ _ Hplan) as (e1 & e2 & He1 & He2 & Hperm).
  revert Hplan. unfold plan_request, plan_with_affinity. rewrite He1. simpl. rewrite He2.
  destruct (sticky_standing e2 d) as [i|why] eqn:Es; simpl.
  - apply sticky_standing_Ok in Es as (c & Hc & Hd).
    pose proof (plan_sticky_hit_head (policy r)
      (bool_decide (is_Some (route_state s t r))) e2 i (load s) seen c Hc) as [Hh Hs].
    destruct (plan_sticky_hit _ _ _ _ _ _) as [p0 l]. intros [= <- <-]. left. simpl in *.
    rewrite Hh. simpl. by rewrite Hd.
  - destruct (policy_order _ _ _ _ _) as [p0 cs]. destruct (reserve (load s) p0) as [p1 l].
    intros [= <- <-]. right. simpl in *. split_and!; [|by eexists|by eexists].
    rewrite Hperm. intros (c & Heq & Hc)%list_elem_of_fmap.
    unfold sticky_standing in Es. destruct (position_of _ _) as [j|] eqn:Ep; [done|].
    rewrite position_of_None in Ep. specialize (Ep c Hc). apply bool_decide_eq_false in Ep. done.
Qed.

Lemma affinity_is_a_preference_witness :
  ∃ p s', @plan_with_affinity ascii_case LoadBook _ (Selector_new (demo_topology RoundRobin))
      (demo_topology RoundRobin) (demo_route RoundRobin) (hb_nodes (both_up RoundRobin))
      (hb_deployments (both_up RoundRobin)) needs_none (Some on_tower) = (Ok p, s') ∧
    (cand_deployment <$> head (plan_candidates p)) = Some on_tower.
Proof.
  destruct (plan_with_affinity _ _ _ _ _ _ _) as [[p|f] s'] eqn:E;
    [|vm_compute in E; discriminate E].
  exists p, s'. split; [reflexivity|].
  destruct (@affinity_is_a_preference ascii_case LoadBook _ _ _ _ _ _ _ _ _ _ E)
    as [(Hh & _)|(Hno & _)]; [exact Hh|].
  exfalso. apply Hno. vm_compute in E. injection E as <- _. vm_compute.
  apply list_elem_of_here.
Defined.

(** ** Least busy *)

Definition nonneg (l : LoadOf) : Prop := 0 ≤ load_active l.

Lemma load_capacity_pos l c : load_capacity l = Some c → 0 < c.
Proof.
  unfold load_capacity. destruct (load_limit l) as [x|]; [|done].
  destruct (Z.ltb_spec 0 x); [|done]. by intros [= <-].
Qed.

(** The load a comparison is about, as a fraction. *)
Lemma compare_load_spec a b :
  match load_capacity a, load_capacity b with
  | Some la, Some lb => 0 < la ∧ 0 < lb ∧
      compare_load a b = (load_active a * lb ?= load_active b * la)
  | Some _, None => compare_load a b = Lt
  | None, Some _ => compare_load a b = Gt
  | None, None => compare_load a b = (load_active a ?= load_active b)
  end.
Proof.
  unfold compare_load. destruct (load_capacity a) eqn:Ea, (load_capacity b) eqn:Eb; try done.
  apply load_capacity_pos in Ea, Eb. done.
Qed.

Definition load_le (a b : LoadOf) : Prop := compare_load a b ≠ Gt.

Lemma load_le_trans a b c : load_le a b → load_le b c → load_le a c.
Proof.
  unfold load_le. pose proof (compare_load_spec a b) as H1.
  pose proof (compare_load_spec b c) as H2. pose proof (compare_load_spec a c) as H3.
  destruct (load_capacity a) as [la|], (load_capacity b) as [lb|], (load_capacity c) as [lc|];
    destruct_and?; repeat match goal with E : compare_load _ _ = _ |- _ => rewrite E; clear E end;
    rewrite ?Z.compare_gt_iff; try done; [nia|lia].
Qed.

Lemma compare_load_antisym a b : compare_load b a = CompOpp (compare_load a b).
Proof.
  unfold compare_load. destruct (load_capacity a), (load_capacity b); try done;
    by rewrite Z.compare_antisym.
Qed.

(** The order of the ranked list: no busier, and on a tie no later. *)
Definition no_busier (x y : Candidate * LoadOf) : Prop :=
  load_le (snd x) (snd y) ∧
  (load_le (snd y) (snd x) → (cand_position (fst x) ≤ cand_position (fst y))%nat).

Lemma busier_false x y : busier y x = false ↔ no_busier x y.
Proof.
  unfold busier, no_busier, load_le. rewrite (compare_load_antisym (snd x) (snd y)).
  destruct (compare_load (snd x) (snd y)); simpl; rewrite ?bool_decide_eq_false.
  - split; [intros; split; [done|intros; lia]|]. intros [_ Hle] Hlt. specialize (Hle ltac:(done)). lia.
  - split; [|done]. intros _. split; [done|]. intros Hc. by destruct Hc.
  - split; [done|]. intros [Hc _]. by destruct Hc.
Qed.

Lemma no_busier_trans x y z : no_busier x y → no_busier y z → no_busier x z.
Proof.
  intros [H1 H2] [H3 H4]. split; [by eapply load_le_trans|]. intros Hzx.
  transitivity (cand_position (fst y)); [apply H2|apply H4]; by eapply load_le_trans.
Qed.

Lemma rank_loads_sorted cs ls : StronglySorted no_busier (rank_loads cs ls).
Proof.
  assert (Hs : StronglySorted (λ x y, busier y x = false) (rank_loads cs ls)).
  { apply sort_by_sorted.
    - intros x y z. rewrite !busier_false. apply no_busier_trans.
    - intros x y. rewrite busier_false. unfold busier, no_busier, load_le.
      rewrite (compare_load_antisym (snd x) (snd y)).
      destruct (compare_load (snd x) (snd y)); simpl; intros Hb; try done;
        (split; [done|]); intros Hc; apply bool_decide_eq_true in Hb; lia. }
  induction Hs as [|x l _ IH Hx]; constructor; [done|].
  eapply Forall_impl; [exact Hx|]. intros y. simpl. by rewrite busier_false.
Qed.

(** The load least-busy reads for a candidate. *)
Definition load_of `{InFlight L} (l : L) (seen : gmap DeploymentId DeploymentObservation)
    (c : Candidate) : LoadOf :=
  mkLoad (active l (cand_deployment c)) (max_concurrent_requests <$> seen !! cand_deployment c).

Lemma rank_loads_aligned `{InFlight L} (l : L) seen cs c x :
  (c, x) ∈ rank_loads cs (loads l cs seen) → x = load_of l seen c.
Proof.
  unfold rank_loads. rewrite sort_by_Permutation. intros (i & Hi)%list_elem_of_lookup.
  rewrite list_lookup_imap in Hi. destruct (cs !! i) as [c'|] eqn:Hc; [|done].
  simplify_eq/=. unfold loads. by rewrite list_lookup_fmap, Hc.
Qed.

Lemma StronglySorted_fmap {A B} (f : A → B) (R : A → A → Prop) (S : B → B → Prop) l :
  (∀ x y, x ∈ l → y ∈ l → R x y → S (f x) (f y)) → StronglySorted R l →
  StronglySorted S (f <$> l).
Proof.
  intros HRS. induction 1 as [|x l Hl IH Hx]; [constructor|]. csimpl. constructor.
  - apply IH. intros y z Hy Hz. apply HRS; by apply list_elem_of_further.
  - rewrite Forall_fmap. rewrite Forall_forall in *. intros y Hy. simpl.
    apply HRS; [apply list_elem_of_here|by apply list_elem_of_further|by apply Hx].
Qed.

Lemma route_state_known `{LowerCase} {L} (s : Selector L) t r :
  r ∈ routes t → length (cursors s) = length (routes t) → is_Some (route_state s t r).
Proof.
  intros Hr Hlen. unfold route_state, route_index.
  destruct (position_of _ (routes t)) as [i|] eqn:E; simpl.
  - apply position_of_Some in E as (x & Hx & _). apply lookup_lt_Some in Hx.
    destruct (lookup_lt_is_Some_2 (cursors s) i) as [c ->]; [lia|]. simpl. eauto.
  - rewrite position_of_None in E. specialize (E r Hr). by rewrite bool_decide_eq_false in E.
Qed.

(** Least-busy sends a request to the least busy capable deployment and
    counts it there at once.  The plan is sorted by normalised load as read
    when it was made, ties by configured order; the slot taken on the first
    choice is visible to the next reader, and no other load moves. *)
Theorem least_busy_order `{LowerCase} {L} `{InFlightLaws L}
    (s : Selector L) t r book seen needs p s' :
  r ∈ routes t → policy r = LeastBusy → length (cursors s) = length (routes t) →
  plan_request s t r book seen needs = (Ok p, s') →
  StronglySorted (λ c d, no_busier (c, load_of (load s) seen c) (d, load_of (load s) seen d))
    (plan_candidates p) ∧
  ∃ first, head (plan_candidates p) = Some first ∧
    (counted (load s) (cand_deployment first) →
     reservation p = Some (mkLease (Some (cand_deployment first))) ∧
     ∀ d, active (load s') d =
       active (load s) d + (if bool_decide (d = cand_deployment first) then 1 else 0)).
Proof.
  intros Hr Hpol Hlen Hplan.
  destruct (plan_Permutation _ _ _ _ _ _ _ _ _ Hplan) as (e1 & e2 & He1 & He2 & Hperm).
  destruct (filter_Ok _ _ _ _ He2) as [_ Hne].
  revert Hplan. unfold plan_request, plan_with_affinity. rewrite He1. simpl. rewrite He2.
  destruct (route_state_known s t r Hr Hlen) as [[i cur] Hst]. unfold policy_order.
  rewrite Hpol, Hst. set (p0 := order_least_busy e2 _).
  assert (Hp0 : plan_candidates p0 =
    fst <$> rank_loads (candidates e2) (loads (load s) (candidates e2) seen)).
  { unfold p0, order_least_busy. by destruct (rank_loads _ _) as [|[]]. }
  pose proof (reserve_candidates (load s) p0) as Hres.
  intros Heq. assert (Hpc : plan_candidates p = plan_candidates p0).
  { destruct (reserve (load s) p0) as [p1 l]. simplify_eq/=. done. }
  split.
  - rewrite Hpc, Hp0. eapply StronglySorted_fmap; [|apply rank_loads_sorted].
    intros [c x] [d y] Hc Hd. apply rank_loads_aligned in Hc as ->, Hd as ->. done.
  - destruct (plan_candidates p) as [|first rest] eqn:Epc.
    { exfalso. apply Hne. by apply Permutation_nil_l in Hperm. }
    exists first. split; [done|]. intros Hc.
    destruct (acquire_counted (load s) (cand_deployment first) Hc) as [Hl Hact].
    unfold reserve in Heq. rewrite <-Hpc in Heq.
    destruct (acquire (load s) (cand_deployment first)) as [lease l']. simpl in *.
    simplify_eq/=. done.
Qed.

(** A tower with four slots and one busy beats a laptop with two and one. *)
Definition one_each : Selector LoadBook :=
  mkSelector [0] (snd (book_acquire (snd (book_acquire (LoadBook_new (demo_topology LeastBusy))
                   on_laptop)) on_tower)).

Lemma least_busy_order_witness :
  ∃ p s', @plan_request ascii_case LoadBook _ one_each (demo_topology LeastBusy)
      (demo_route LeastBusy) (hb_nodes (both_up LeastBusy)) (hb_deployments (both_up LeastBusy))
      needs_none = (Ok p, s') ∧
    (cand_deployment <$> plan_candidates p) = [on_tower; on_laptop] ∧
    active (load s') on_tower = active (load one_each) on_tower + 1.
Proof.
  destruct (plan_request _ _ _ _ _ _) as [[p|f] s'] eqn:E; [|vm_compute in E; discriminate E].
  exists p, s'. split; [reflexivity|].
  assert (Hc : (cand_deployment <$> plan_candidates p) = [on_tower; on_laptop])
    by (vm_compute in E; injection E as <- _; reflexivity).
  split; [exact Hc|].
  destruct (@least_busy_order ascii_case LoadBook _ LoadBook_laws one_each
    (demo_topology LeastBusy) (demo_route LeastBusy) _ _ _ _ _
    (list_elem_of_here _ _) eq_refl eq_refl E) as (_ & first & Hf & Hact).
  assert (Hd : cand_deployment first = on_tower).
  { destruct (plan_candidates p) as [|c k]; [discriminate Hf|]. injection Hf as ->.
    injection Hc as Hc _. exact Hc. }
  destruct Hact as [_ Hact].
  - rewrite Hd. vm_compute. by eexists.
  - rewrite Hact, Hd. by rewrite bool_decide_eq_true_2.
Defined.

(** ** Round robin *)

Lemma rotate_lookup {A} (l : list A) (c : Z) i :
  0 ≤ c → (i < length l)%nat →
  l !! Z.to_nat ((c + Z.of_nat i) mod Z.of_nat (length l)) =
  rotate_left (Z.to_nat (c mod Z.of_nat (length l))) l !! i.
Proof.
  intros Hc Hi. set (n := Z.of_nat (length l)). assert (Hn : 0 < n) by lia.
  pose proof (Z.mod_pos_bound c n Hn) as Hs. set (s := c mod n) in *.
  assert (Hmod : (c + Z.of_nat i) mod n = if s + Z.of_nat i <? n then s + Z.of_nat i else s + Z.of_nat i - n).
  { rewrite <-Zplus_mod_idemp_l. fold s. destruct (Z.ltb_spec (s + Z.of_nat i) n).
    - by apply Z.mod_small; lia.
    - symmetry. apply Z.mod_unique_pos with 1; lia. }
  rewrite Hmod. unfold rotate_left. destruct (Z.ltb_spec (s + Z.of_nat i) n) as [Hlt|Hge].
  - rewrite lookup_app_l by (rewrite length_drop; lia). rewrite lookup_drop. f_equal. lia.
  - rewrite lookup_app_r by (rewrite length_drop; lia). rewrite length_drop, lookup_take.
    rewrite decide_True by lia. f_equal. lia.
Qed.

Lemma round_robin_head e c i :
  0 ≤ c → (i < length (candidates e))%nat →
  head (plan_candidates (order_round_robin e (c + Z.of_nat i))) =
  rotate_left (Z.to_nat (c mod Z.of_nat (length (candidates e)))) (candidates e) !! i.
Proof.
  intros Hc Hi. rewrite <-rotate_lookup by done. unfold order_round_robin. simpl.
  rewrite Z.max_l by lia. set (k := Z.to_nat _).
  assert (Hk : (k < length (candidates e))%nat).
  { pose proof (Z.mod_pos_bound (c + Z.of_nat i) (Z.of_nat (length (candidates e)))). lia. }
  destruct (lookup_lt_is_Some_2 _ _ Hk) as [x Hx]. rewrite Hx. by apply rotate_left_head.
Qed.

(** Round-robin is fair.  As many consecutive requests as the eligible
    set has members, planned over the same set, start once at each member. *)
Theorem round_robin_fair e c :
  0 ≤ c →
  ((λ i, head (plan_candidates (order_round_robin e (c + Z.of_nat i)))) <$>
     seq 0 (length (candidates e))) ≡ₚ Some <$> candidates e.
Proof.
  intros Hc.
  rewrite <-(rotate_left_Permutation (Z.to_nat (c mod Z.of_nat (length (candidates e))))
               (candidates e)) at 2.
  set (l := rotate_left _ _).
  assert (Hlen : length l = length (candidates e)).
  { apply Permutation_length, rotate_left_Permutation. }
  apply eq_subrelation; [apply _|]. apply list_eq. intros i.
  rewrite !list_lookup_fmap. destruct (decide (i < length (candidates e))%nat) as [Hi|Hi].
  - rewrite lookup_seq_lt by done. cbn -[order_round_robin Z.of_nat].
    rewrite round_robin_head by done. fold l.
    rewrite <-Hlen in Hi. by destruct (lookup_lt_is_Some_2 _ _ Hi) as [x ->].
  - rewrite lookup_seq_ge by lia. rewrite (lookup_ge_None_2 l) by lia. done.
Qed.

Lemma round_robin_fair_witness :
  let e := mkEligible (mkRouteName (lit "Coder"))
             [mkCandidate on_laptop laptop (lit "Qwen") 0; mkCandidate on_tower tower (lit "Qwen") 1]
             [] [] 2 in
  ((λ i, head (plan_candidates (order_round_robin e (7 + Z.of_nat i)))) <$> seq 0 2)
    ≡ₚ Some <$> candidates e.
Proof. intros e. apply (round_robin_fair e 7). lia. Defined.

(** ** The summary *)

(** What holds under a summary holds of every observation it was taken over. *)
Definition covers (caps : CapabilitySet) (ctx : u32) (o : DeploymentObservation) : Prop :=
  ∀ needs m at_, gaps needs (Some (mkDObservation caps ctx m at_)) = [] →
    gaps needs (Some o) = [].

Lemma covers_refl o : covers (capabilities o) (context_length o) o.
Proof. intros needs m at_. by rewrite !gaps_nil. Qed.

Lemma covers_meet caps ctx caps' ctx' o :
  (covers caps ctx o ∨ covers caps' ctx' o) →
  covers (intersect caps caps') (Z.min ctx ctx') o.
Proof.
  intros [Hc|Hc] needs m at_ Hg; apply (Hc needs m at_).
  - by eapply (gaps_intersect needs caps caps' _ ctx); [|exact Hg]; lia.
  - by eapply (gaps_intersect needs caps caps' _ ctx'); [|exact Hg]; lia.
Qed.

Lemma summary_covers seen cs context caps conc :
  foldl (summary_step seen) (None, None, None, true) cs = (context, caps, conc, true) →
  (cs = [] ∧ context = None ∧ caps = None) ∨
  ∃ ctx k, context = Some ctx ∧ caps = Some k ∧
    ∀ c, c ∈ cs → ∃ o, seen !! cand_deployment c = Some o ∧ covers k ctx o.
Proof.
  revert context caps conc. induction cs as [|c cs IH] using rev_ind; intros context caps conc.
  { intros [= <- <- _]. by left. }
  rewrite foldl_app. simpl.
  destruct (foldl (summary_step seen) _ cs) as [[[cx cp] cc] all] eqn:E. unfold summary_step.
  destruct (seen !! cand_deployment c) as [o|] eqn:Eo; [|done].
  intros [= <- <- _ ->]. right. destruct (IH _ _ _ eq_refl) as [(-> & -> & ->)|(ctx & k & -> & -> & Hall)].
  - eexists _, _. split_and!; try done. intros c' ->%list_elem_of_singleton. exists o.
    split; [done|apply covers_refl].
  - eexists _, _. split_and!; try done. intros c' [Hc' | ->%list_elem_of_singleton]%elem_of_app.
    + destruct (Hall c' Hc') as (o' & Ho' & Hcov). exists o'. split; [done|].
      apply covers_meet. by left.
    + exists o. split; [done|]. apply covers_meet. right. apply covers_refl.
Qed.

Lemma filter_all {A} (p : A → bool) l : (∀ x, x ∈ l → p x = true) → List.filter p l = l.
Proof.
  induction l as [|x l IH]; intros Hl; simpl; [done|]. rewrite Hl by apply list_elem_of_here.
  f_equal. apply IH. intros y Hy. apply Hl. by apply list_elem_of_further.
Qed.

Lemma plan_total `{LowerCase} {L} `{InFlight L} (s : Selector L) t r book seen needs sticky e0 e :
  eligible t r book = Ok e0 → filter_capable e0 needs seen = Ok e →
  ∃ p s', plan_with_affinity s t r book seen needs sticky = (Ok p, s').
Proof.
  intros He0 He. unfold plan_with_affinity. rewrite He0. simpl. rewrite He.
  destruct (sticky_standing e <$> sticky) as [[i|why]|].
  - destruct (plan_sticky_hit _ _ _ _ _ _). eauto.
  - destruct (policy_order _ _ _ _ _) as [p cs]. destruct (reserve _ _). eauto.
  - destruct (policy_order _ _ _ _ _) as [p cs]. destruct (reserve _ _). eauto.
Qed.

(** A route never advertises more than it can serve.  A request whose
    needs fit what the summary says (its features and its context) is never
    refused, and may be sent to every deployment that is eligible: none of
    them is ruled out for it. *)
Theorem summary_is_honoured `{LowerCase} {L} `{InFlight L}
    (sel : Selector L) t r book seen needs ctx :
  let s := summarize t r book seen in
  sum_available s = true → sum_context_length s = Some ctx →
  gaps needs (Some (mkDObservation (sum_capabilities s) ctx 0 0)) = [] →
  ∃ e p sel', eligible t r book = Ok e ∧
    plan_request sel t r book seen needs = (Ok p, sel') ∧ plan_candidates p ≡ₚ candidates e.
Proof.
  simpl. unfold summarize. destruct (eligible t r book) as [e|] eqn:Ee; [|done].
  destruct (foldl _ _ _) as [[[cx cp] cc] all] eqn:Ef. destruct all; [|done]. simpl.
  intros _ -> Hg. destruct (summary_covers _ _ _ _ _ Ef) as [(_ & ? & _)|(x & k & [= ->] & -> & Hall)];
    [done|].
  assert (Hserves : ∀ c, c ∈ candidates e → serves needs seen c = true).
  { intros c Hc. destruct (Hall c Hc) as (o & Ho & Hcov). apply serves_gaps. rewrite Ho.
    by apply (Hcov needs 0 0). }
  destruct (filter_capable e needs seen) as [e'|f] eqn:Efc.
  - destruct (plan_total sel t r book seen needs None e e' Ee Efc) as (p & sel' & Hp).
    exists e, p, sel'. split_and!; [done..|].
    destruct (plan_Permutation _ _ _ _ _ _ _ _ _ Hp) as (e1 & e2 & He1 & He2 & Hperm).
    destruct (filter_Ok _ _ _ _ Efc) as [Hc' _]. rewrite filter_all in Hc' by done.
    rewrite Ee in He1. injection He1 as ->. rewrite Efc in He2. injection He2 as <-.
    by rewrite Hperm, Hc'.
  - exfalso. apply eligible_fields in Ee as Hel. unfold eligible in Ee.
    destruct (sort_out _ _ _ _) as [[|c cs] sk]; [done|]. destruct Hel as [Hcs _]. simpl in Hcs.
    assert (Hc : serves needs seen c = true) by (apply Hserves; rewrite Hcs; apply list_elem_of_here).
    rewrite (filter_Err _ _ _ _ c Efc) in Hc; [done|rewrite Hcs; apply list_elem_of_here].
Qed.

Lemma summary_is_honoured_witness :
  ∃ e p sel', @eligible ascii_case (demo_topology Priority) (demo_route Priority)
      (hb_nodes (both_up Priority)) = Ok e ∧
    @plan_request ascii_case LoadBook _ (Selector_new (demo_topology Priority))
      (demo_topology Priority) (demo_route Priority) (hb_nodes (both_up Priority))
      (hb_deployments (both_up Priority))
      (mkNeeds (Some ChatCompletions) true TCRequired true (Some 4000) None) = (Ok p, sel') ∧
    plan_candidates p ≡ₚ candidates e.
Proof.
  apply (@summary_is_honoured ascii_case LoadBook _ _ _ _ _ _ _ 4096);
    vm_compute; reflexivity.
Defined.
