(* ===== verification/Utf8.v ===== *)
(** * Bytes

    Little-endian integers and UTF-8 text, as the Rust standard library reads
    and writes them: the encodings the GGUF reader and its writer share. *)

From stdpp Require Import base gmap strings numbers list.
From S2P Require Import Prelude Names.

Abbreviation byte := Z (only parsing).
Definition is_byte (b : byte) : Prop := 0 ≤ b < 256.

(** [uN::from_le_bytes] and [uN::to_le_bytes]. *)
Fixpoint from_le (bs : list byte) : Z :=
  match bs with
  | [] => 0
  | b :: bs => b + 256 * from_le bs
  end.

Fixpoint to_le (n : nat) (z : Z) : list byte :=
  match n with
  | O => []
  | S n => z mod 256 :: to_le n (z / 256)
  end.

(** [str::as_bytes]. *)
Definition utf8_char (c : char) : list byte :=
  if c <? 0x80 then [c]
  else if c <? 0x800 then [0xC0 + c / 64; 0x80 + c mod 64]
  else if c <? 0x10000 then [0xE0 + c / 4096; 0x80 + c / 64 mod 64; 0x80 + c mod 64]
  else [0xF0 + c / 262144; 0x80 + c / 4096 mod 64; 0x80 + c / 64 mod 64; 0x80 + c mod 64].

Definition utf8_encode (s : str) : list byte := concat (utf8_char <$> s).

(** A [char]: a Unicode scalar value. *)
Definition is_char (c : char) : bool :=
  (0 <=? c) && (c <=? 0x10FFFF) && negb ((0xD800 <=? c) && (c <=? 0xDFFF)).

Definition cont (b : byte) : bool := (0x80 <=? b) && (b <=? 0xBF).

(** [String::from_utf8]: the well-formed sequences and no others. *)
Fixpoint utf8_decode (l : list byte) : option str :=
  match l with
  | [] => Some []
  | b0 :: l1 =>
      if b0 <? 0x80 then cons b0 <$> utf8_decode l1
      else match l1 with
      | [] => None
      | b1 :: l2 =>
          if (0xC2 <=? b0) && (b0 <=? 0xDF) && cont b1
          then cons ((b0 - 0xC0) * 64 + (b1 - 0x80)) <$> utf8_decode l2
          else match l2 with
          | [] => None
          | b2 :: l3 =>
              let c := (b0 - 0xE0) * 4096 + (b1 - 0x80) * 64 + (b2 - 0x80) in
              if (0xE0 <=? b0) && (b0 <=? 0xEF) && cont b1 && cont b2
                 && (0x800 <=? c) && is_char c
              then cons c <$> utf8_decode l3
              else match l3 with
              | [] => None
              | b3 :: l4 =>
                  let c := (b0 - 0xF0) * 262144 + (b1 - 0x80) * 4096
                           + (b2 - 0x80) * 64 + (b3 - 0x80) in
                  if (0xF0 <=? b0) && (b0 <=? 0xF4) && cont b1 && cont b2 && cont b3
                     && (0x10000 <=? c) && is_char c
                  then cons c <$> utf8_decode l4
                  else None
              end
          end
      end
  end.

(** ** Lemmas *)

Lemma length_to_le n z : length (to_le n z) = n.
Proof. revert z. induction n as [|n IH]; intros z; simpl; [done|]. by rewrite IH. Qed.

Lemma from_to_le_mod n z : from_le (to_le n z) = z mod 256 ^ Z.of_nat n.
Proof.
  revert z. induction n as [|n IH]; intros z; [simpl; by rewrite Z.mod_1_r|].
  cbn [to_le from_le]. rewrite IH, Nat2Z.inj_succ, Z.pow_succ_r by lia.
  rewrite Z.rem_mul_r; lia.
Qed.

Lemma from_to_le n z : 0 ≤ z < 256 ^ Z.of_nat n → from_le (to_le n z) = z.
Proof. intros Hz. rewrite from_to_le_mod. by apply Z.mod_small. Qed.

Lemma from_le_bound bs : Forall is_byte bs → 0 ≤ from_le bs < 256 ^ Z.of_nat (length bs).
Proof.
  induction 1 as [|b bs Hb _ IH]; cbn [from_le length]; [lia|].
  rewrite Nat2Z.inj_succ, Z.pow_succ_r by lia. unfold is_byte in Hb. lia.
Qed.

Lemma to_le_bytes n z : Forall is_byte (to_le n z).
Proof.
  revert z. induction n as [|n IH]; intros z; simpl; constructor; [|done].
  apply Z.mod_pos_bound. lia.
Qed.

(** Reading one encoded character back, whatever follows it. *)
Lemma utf8_decode_char c l :
  is_char c = true → utf8_decode (utf8_char c ++ l) = cons c <$> utf8_decode l.
Proof.
  intros Hc. assert (Hr : 0 ≤ c ≤ 0x10FFFF ∧ (c < 0xD800 ∨ 0xDFFF < c)).
  { unfold is_char in Hc. lia. }
  assert (H64 : ∀ z, 0 ≤ z mod 64 < 64) by (intros; apply Z.mod_pos_bound; lia).
  assert (Hcont : ∀ z, cont (0x80 + z mod 64) = true).
  { intros z. specialize (H64 z). unfold cont. lia. }
  assert (Hd1 : c = c / 64 * 64 + c mod 64) by (pose proof (Z.div_mod c 64); lia).
  assert (Hd2 : c / 64 = c / 4096 * 64 + c / 64 mod 64).
  { pose proof (Z.div_mod (c / 64) 64) as Hd. rewrite Z.div_div in Hd by lia.
    change (64 * 64) with 4096 in Hd. lia. }
  assert (Hd3 : c / 4096 = c / 262144 * 64 + c / 4096 mod 64).
  { pose proof (Z.div_mod (c / 4096) 64) as Hd. rewrite Z.div_div in Hd by lia.
    change (4096 * 64) with 262144 in Hd. lia. }
  pose proof (H64 c) as M1. pose proof (H64 (c / 64)) as M2. pose proof (H64 (c / 4096)) as M3.
  unfold utf8_char. destruct (Z.ltb_spec c 0x80) as [H1|H1]; cbn [app utf8_decode].
  { by rewrite (proj2 (Z.ltb_lt _ _) H1). }
  destruct (Z.ltb_spec c 0x800) as [H2|H2]; cbn [app utf8_decode].
  { rewrite (proj2 (Z.ltb_ge _ _)) by lia. rewrite Hcont.
    replace (((0xC2 <=? 0xC0 + c / 64) && (0xC0 + c / 64 <=? 0xDF)) && true) with true by lia.
    f_equal. f_equal. lia. }
  destruct (Z.ltb_spec c 0x10000) as [H3|H3]; cbn [app utf8_decode].
  { rewrite (proj2 (Z.ltb_ge _ _)) by lia. rewrite !Hcont.
    replace ((0xC2 <=? 0xE0 + c / 4096) && (0xE0 + c / 4096 <=? 0xDF) && true) with false by lia.
    replace ((0xE0 + c / 4096 - 0xE0) * 4096 + (0x80 + c / 64 mod 64 - 0x80) * 64
             + (0x80 + c mod 64 - 0x80)) with c by lia.
    rewrite Hc. replace (_ && _) with true by lia. done. }
  rewrite (proj2 (Z.ltb_ge _ _)) by lia. rewrite !Hcont.
  replace ((0xC2 <=? 0xF0 + c / 262144) && (0xF0 + c / 262144 <=? 0xDF) && true) with false by lia.
  replace ((0xF0 + c / 262144 - 0xF0) * 262144 + (0x80 + c / 4096 mod 64 - 0x80) * 4096
           + (0x80 + c / 64 mod 64 - 0x80) * 64 + (0x80 + c mod 64 - 0x80)) with c by lia.
  rewrite Hc. 
  replace ((0xE0 <=? 0xF0 + c / 262144) && (0xF0 + c / 262144 <=? 0xEF)) with false by lia.
  cbn [andb]. replace (_ && _) with true by lia. done.
Qed.

Lemma utf8_roundtrip s :
  Forall (λ c, is_char c = true) s → utf8_decode (utf8_encode s) = Some s.
Proof.
  induction 1 as [|c s Hc _ IH]; [done|]. unfold utf8_encode. csimpl.
  rewrite utf8_decode_char by done. fold (utf8_encode s). by rewrite IH.
Qed.
