(* ===== verification/Ggml.v ===== *)
(** * The ggml tensor type table

    [crates/lightweight-core/src/ggml.rs]: the element types, their ids and
    names, and the block geometry every size in the program is computed from. *)

From stdpp Require Import base gmap strings numbers list.
From S2P Require Import Prelude Names.

Inductive GgmlType :=
  | F32 | F16 | Q4_0 | Q4_1 | Q5_0 | Q5_1 | Q8_0 | Q8_1 | Q2_K | Q3_K | Q4_K | Q5_K | Q6_K
  | Q8_K | IQ2_XXS | IQ2_XS | IQ3_XXS | IQ1_S | IQ4_NL | IQ3_S | IQ2_S | IQ4_XS | I8 | I16
  | I32 | I64 | F64 | IQ1_M | BF16 | TQ1_0 | TQ2_0 | MXFP4 | NVFP4 | Q1_0 | Q2_0
  | GUnknown (id : u32).

#[export] Instance GgmlType_eq_dec : EqDecision GgmlType.
Proof. solve_decision. Defined.

(** [GgmlType::ALL]. *)
Definition ALL : list GgmlType :=
  [F32; F16; Q4_0; Q4_1; Q5_0; Q5_1; Q8_0; Q8_1; Q2_K; Q3_K; Q4_K; Q5_K; Q6_K; Q8_K;
  IQ2_XXS; IQ2_XS; IQ3_XXS; IQ1_S; IQ4_NL; IQ3_S; IQ2_S; IQ4_XS; I8; I16; I32; I64; F64;
  IQ1_M; BF16; TQ1_0; TQ2_0; MXFP4; NVFP4; Q1_0; Q2_0].

Definition from_id (id : u32) : GgmlType :=
  match id with
  | 0 => F32 | 1 => F16 | 2 => Q4_0 | 3 => Q4_1 | 6 => Q5_0 | 7 => Q5_1 | 8 => Q8_0
  | 9 => Q8_1 | 10 => Q2_K | 11 => Q3_K | 12 => Q4_K | 13 => Q5_K | 14 => Q6_K | 15 => Q8_K
  | 16 => IQ2_XXS | 17 => IQ2_XS | 18 => IQ3_XXS | 19 => IQ1_S | 20 => IQ4_NL | 21 => IQ3_S
  | 22 => IQ2_S | 23 => IQ4_XS | 24 => I8 | 25 => I16 | 26 => I32 | 27 => I64 | 28 => F64
  | 29 => IQ1_M | 30 => BF16 | 34 => TQ1_0 | 35 => TQ2_0 | 39 => MXFP4 | 40 => NVFP4
  | 41 => Q1_0 | 42 => Q2_0
  | other => GUnknown other
  end.

(** [GgmlType::id]. *)
Definition type_id (t : GgmlType) : u32 :=
  match t with
  | F32 => 0 | F16 => 1 | Q4_0 => 2 | Q4_1 => 3 | Q5_0 => 6 | Q5_1 => 7 | Q8_0 => 8
  | Q8_1 => 9 | Q2_K => 10 | Q3_K => 11 | Q4_K => 12 | Q5_K => 13 | Q6_K => 14 | Q8_K => 15
  | IQ2_XXS => 16 | IQ2_XS => 17 | IQ3_XXS => 18 | IQ1_S => 19 | IQ4_NL => 20 | IQ3_S => 21
  | IQ2_S => 22 | IQ4_XS => 23 | I8 => 24 | I16 => 25 | I32 => 26 | I64 => 27 | F64 => 28
  | IQ1_M => 29 | BF16 => 30 | TQ1_0 => 34 | TQ2_0 => 35 | MXFP4 => 39 | NVFP4 => 40
  | Q1_0 => 41 | Q2_0 => 42
  | GUnknown id => id
  end.

(** [GgmlType::name]. *)
Definition type_name (t : GgmlType) : str :=
  lit (match t with
  | F32 => "f32" | F16 => "f16" | Q4_0 => "q4_0" | Q4_1 => "q4_1" | Q5_0 => "q5_0"
  | Q5_1 => "q5_1" | Q8_0 => "q8_0" | Q8_1 => "q8_1" | Q2_K => "q2_K" | Q3_K => "q3_K"
  | Q4_K => "q4_K" | Q5_K => "q5_K" | Q6_K => "q6_K" | Q8_K => "q8_K"
  | IQ2_XXS => "iq2_xxs" | IQ2_XS => "iq2_xs" | IQ3_XXS => "iq3_xxs" | IQ1_S => "iq1_s"
  | IQ4_NL => "iq4_nl" | IQ3_S => "iq3_s" | IQ2_S => "iq2_s" | IQ4_XS => "iq4_xs"
  | I8 => "i8" | I16 => "i16" | I32 => "i32" | I64 => "i64" | F64 => "f64"
  | IQ1_M => "iq1_m" | BF16 => "bf16" | TQ1_0 => "tq1_0" | TQ2_0 => "tq2_0"
  | MXFP4 => "mxfp4" | NVFP4 => "nvfp4" | Q1_0 => "q1_0" | Q2_0 => "q2_0"
  | GUnknown _ => "unknown"
  end).

Definition block_size (t : GgmlType) : option u64 :=
  match t with
  | F32 => Some 1 | F16 => Some 1 | Q4_0 => Some 32 | Q4_1 => Some 32 | Q5_0 => Some 32
  | Q5_1 => Some 32 | Q8_0 => Some 32 | Q8_1 => Some 32 | Q2_K => Some 256
  | Q3_K => Some 256 | Q4_K => Some 256 | Q5_K => Some 256 | Q6_K => Some 256
  | Q8_K => Some 256 | IQ2_XXS => Some 256 | IQ2_XS => Some 256 | IQ3_XXS => Some 256
  | IQ1_S => Some 256 | IQ4_NL => Some 32 | IQ3_S => Some 256 | IQ2_S => Some 256
  | IQ4_XS => Some 256 | I8 => Some 1 | I16 => Some 1 | I32 => Some 1 | I64 => Some 1
  | F64 => Some 1 | IQ1_M => Some 256 | BF16 => Some 1 | TQ1_0 => Some 256
  | TQ2_0 => Some 256 | MXFP4 => Some 32 | NVFP4 => Some 64 | Q1_0 => Some 128
  | Q2_0 => Some 64
  | GUnknown _ => None
  end.

Definition type_size (t : GgmlType) : option u64 :=
  match t with
  | F32 => Some 4 | F16 => Some 2 | Q4_0 => Some 18 | Q4_1 => Some 20 | Q5_0 => Some 22
  | Q5_1 => Some 24 | Q8_0 => Some 34 | Q8_1 => Some 36 | Q2_K => Some 84
  | Q3_K => Some 110 | Q4_K => Some 144 | Q5_K => Some 176 | Q6_K => Some 210
  | Q8_K => Some 292 | IQ2_XXS => Some 66 | IQ2_XS => Some 74 | IQ3_XXS => Some 98
  | IQ1_S => Some 50 | IQ4_NL => Some 18 | IQ3_S => Some 110 | IQ2_S => Some 82
  | IQ4_XS => Some 136 | I8 => Some 1 | I16 => Some 2 | I32 => Some 4 | I64 => Some 8
  | F64 => Some 8 | IQ1_M => Some 56 | BF16 => Some 2 | TQ1_0 => Some 54 | TQ2_0 => Some 66
  | MXFP4 => Some 17 | NVFP4 => Some 36 | Q1_0 => Some 18 | Q2_0 => Some 18
  | GUnknown _ => None
  end.

(** The product is [*] on [u64], which a release build wraps. *)
Definition bytes_for_elements (t : GgmlType) (elements : u64) : option u64 :=
  match block_size t, type_size t with
  | Some bs, Some ts => Some (wrapping_mul64 (div_ceil elements bs) ts)
  | _, _ => None
  end.

Definition is_quantized (t : GgmlType) : bool :=
  match block_size t with Some bs => 1 <? bs | None => false end.

Definition is_known (t : GgmlType) : bool :=
  match t with GUnknown _ => false | _ => true end.

Definition from_name (name : str) : option GgmlType :=
  find_first (fun t => eq_ignore_ascii_case (type_name t) name) ALL.

(** ** Lemmas *)

Lemma type_tables_agree t :
  match block_size t, type_size t with
  | Some bs, Some ts => is_known t = true ∧ 1 ≤ bs ≤ 256 ∧ 1 ≤ ts ≤ 292
  | None, None => is_known t = false
  | _, _ => False
  end.
Proof. destruct t; simpl; lia || done. Qed.

Lemma div_ceil_spec a b : 0 ≤ a → 0 < b → a ≤ div_ceil a b * b < a + b.
Proof.
  intros Ha Hb. unfold div_ceil. pose proof (Z.div_mod a b ltac:(lia)).
  pose proof (Z.mod_pos_bound a b Hb). destruct (Z.ltb_spec 0 (a mod b)); lia.
Qed.

(** ** Properties *)

(** Type identities round-trip.  Every id is kept through [from_id], the
    known types are given back by their ids, and every known type is found
    again by its own name in any ASCII casing, and by no other name. *)
Theorem ggml_type_roundtrip :
  (∀ id, type_id (from_id id) = id) ∧
  (∀ t, is_known t = true → from_id (type_id t) = t) ∧
  (∀ t name, is_known t = true → ascii_lower <$> name = ascii_lower <$> type_name t →
     from_name name = Some t) ∧
  (∀ name t, from_name name = Some t → ascii_lower <$> name = ascii_lower <$> type_name t).
Proof.
  split_and!.
  - intros id. unfold from_id. repeat case_match; done.
  - intros [] H; done.
  - intros t name Hk Hn. unfold from_name.
    rewrite (find_first_ext _ (fun u => bool_decide
      (ascii_lower <$> type_name u = ascii_lower <$> type_name t))).
    + destruct t; try done; vm_compute; reflexivity.
    + intros u _. unfold eq_ignore_ascii_case. by rewrite Hn.
  - intros name t [_ Ht]%find_first_Some. unfold eq_ignore_ascii_case in Ht.
    by apply bool_decide_eq_true in Ht.
Qed.

(** A tensor's size is exact while it fits.  When the rounded-up blocks
    times the block's bytes fit in 64 bits the size is exactly that: no less
    than every element needs and less than one block more. *)
Theorem bytes_exact t elements bs ts :
  block_size t = Some bs → type_size t = Some ts → in_u64 elements →
  div_ceil elements bs * ts ≤ U64_MAX →
  ∃ size, bytes_for_elements t elements = Some size ∧
    size = div_ceil elements bs * ts ∧ elements * ts ≤ size * bs < (elements + bs) * ts.
Proof.
  intros Hb Ht He Hfit. pose proof (type_tables_agree t) as Htab. rewrite Hb, Ht in Htab.
  destruct Htab as (_ & Hbs & Hts). unfold bytes_for_elements. rewrite Hb, Ht.
  destruct (div_ceil_spec elements bs) as [Hlo Hhi]; [unfold in_u64 in He; lia|lia|].
  eexists. split; [reflexivity|]. unfold wrapping_mul64. rewrite Z.mod_small.
  - split; [done|]. nia.
  - unfold U64_MAX, in_u64 in *. split; [nia|lia].
Qed.

Lemma bytes_exact_witness :
  ∃ size, bytes_for_elements Q4_K 300 = Some size ∧ size = 288.
Proof.
  destruct (bytes_exact Q4_K 300 256 144 eq_refl eq_refl) as (size & H & -> & _).
  - unfold in_u64, U64_MAX. lia.
  - vm_compute. discriminate.
  - eexists. split; [exact H|]. vm_compute. reflexivity.
Defined.
