(* ===== verification/Gguf.v ===== *)
(** * The GGUF header reader

    [crates/lightweight-gguf/src]: [value.rs], [error.rs] and [reader.rs].
    The file is its list of bytes; the cursor's [inner] is what is left of it.
    Every method of [Cursor] is an action of the monad [Reader], which stops
    at the first error, as [?] does.  Reading a file that is there and
    readable does not fail, so [GgufError::Open] does not occur here;
    [GgufError::Read] is what [read_exact] gives past the end.

    A float is its bits.  Paths are left out of the errors. *)

From stdpp Require Import base gmap strings numbers list.
From S2P Require Import Prelude Names Utf8 Ggml.

(** ** Errors *)

Inductive What := WMetadataKeys | WTensors | WStringBytes | WBytesToSkip | WArrayElements
| WAlignment.

Inductive GgufError :=
| EOpen
| ERead (offset : u64)
| EBadMagic (found : list byte)
| EUnsupportedVersion (found min max : u32)
| ETruncated (offset needed available : u64)
| EUnknownValueType (key : str) (value_type : u32) (offset : u64)
| ENestedArray (key : str) (offset : u64)
| EInvalidUtf8 (key : str) (offset : u64)
| EMetadataTooLarge (claimed limit : u64)
| EImplausibleCount (what : What) (claimed available offset : u64)
| ETooManyDimensions (name : str) (dims limit : u32)
| EDimensionOverflow (name : str).

(** [GgufError::offset]. *)
Definition error_offset (e : GgufError) : option u64 :=
  match e with
  | ERead offset | ETruncated offset _ _ | EUnknownValueType _ _ offset
  | ENestedArray _ offset | EImplausibleCount _ _ _ offset | EInvalidUtf8 _ offset => Some offset
  | _ => None
  end.

(** ** Values *)

Inductive GgufValueType :=
| VTU8 | VTI8 | VTU16 | VTI16 | VTU32 | VTI32 | VTF32 | VTBool | VTString | VTArray
| VTU64 | VTI64 | VTF64.

#[export] Instance GgufValueType_eq_dec : EqDecision GgufValueType.
Proof. solve_decision. Defined.

Definition from_tag (tag : u32) : option GgufValueType :=
  match tag with
  | 0 => Some VTU8 | 1 => Some VTI8 | 2 => Some VTU16 | 3 => Some VTI16 | 4 => Some VTU32
  | 5 => Some VTI32 | 6 => Some VTF32 | 7 => Some VTBool | 8 => Some VTString
  | 9 => Some VTArray | 10 => Some VTU64 | 11 => Some VTI64 | 12 => Some VTF64
  | _ => None
  end.

Definition fixed_width (t : GgufValueType) : option u64 :=
  match t with
  | VTU8 | VTI8 | VTBool => Some 1
  | VTU16 | VTI16 => Some 2
  | VTU32 | VTI32 | VTF32 => Some 4
  | VTU64 | VTI64 | VTF64 => Some 8
  | VTString | VTArray => None
  end.

Record ArraySummary := mkArray {
  element_type : GgufValueType;
  arr_len : u64;
  arr_offset : u64;
  byte_len : u64 }.

Inductive GgufValue :=
| VU8 (v : Z) | VI8 (v : Z) | VU16 (v : Z) | VI16 (v : Z) | VU32 (v : Z) | VI32 (v : Z)
| VU64 (v : Z) | VI64 (v : Z) | VF32 (bits : Z) | VF64 (bits : Z) | VBool (v : bool)
| VString (v : str) | VArray (v : ArraySummary).

Definition value_type (v : GgufValue) : GgufValueType :=
  match v with
  | VU8 _ => VTU8 | VI8 _ => VTI8 | VU16 _ => VTU16 | VI16 _ => VTI16 | VU32 _ => VTU32
  | VI32 _ => VTI32 | VU64 _ => VTU64 | VI64 _ => VTI64 | VF32 _ => VTF32 | VF64 _ => VTF64
  | VBool _ => VTBool | VString _ => VTString | VArray _ => VTArray
  end.

Definition as_u64 (v : GgufValue) : option u64 :=
  match v with
  | VU8 v | VU16 v | VU32 v | VU64 v => Some v
  | VI8 v | VI16 v | VI32 v | VI64 v => if 0 <=? v then Some v else None
  | _ => None
  end.

Definition as_u32 (v : GgufValue) : option u32 :=
  let! v := as_u64 v in if v <=? U32_MAX then Some v else None.

Definition as_bool (v : GgufValue) : option bool :=
  match v with VBool b => Some b | _ => None end.

Definition value_as_str (v : GgufValue) : option str :=
  match v with VString s => Some s | _ => None end.

Definition as_array (v : GgufValue) : option ArraySummary :=
  match v with VArray a => Some a | _ => None end.

Definition fixed_array_byte_len (t : GgufValueType) (len : u64) : option u64 :=
  let! w := fixed_width t in checked_mul64 w len.

Definition ensure_fits (what : What) (claimed available offset : u64) : result unit GgufError :=
  if available <? claimed then Err (EImplausibleCount what claimed available offset) else Ok tt.

(** ** The cursor *)

Record ReadLimits := mkReadLimits { max_metadata_bytes : u64; max_string_bytes : u64 }.

Definition ReadLimits_default : ReadLimits :=
  mkReadLimits (64 * 1024 * 1024) (16 * 1024 * 1024).

Record Cursor := mkCursor {
  inner : list byte;
  offset : u64;
  file_size : u64;
  limits : ReadLimits }.

Definition Reader (A : Type) : Type := Cursor → result (A * Cursor) GgufError.

#[export] Instance Reader_ret : MRet Reader := fun A a c => Ok (a, c).
#[export] Instance Reader_bind : MBind Reader := fun A B f m c =>
  match m c with
  | Ok (a, c') => f a c'
  | Err e => Err e
  end.

Definition fail {A} (e : GgufError) : Reader A := fun _ => Err e.
Definition lift {A} (r : result A GgufError) : Reader A :=
  fun c => match r with Ok a => Ok (a, c) | Err e => Err e end.
Definition get_cursor : Reader Cursor := fun c => Ok (c, c).

Definition remaining (c : Cursor) : u64 := sat_sub (file_size c) (offset c).

Definition need (bytes : u64) : Reader unit := fun c =>
  if remaining c <? bytes then Err (ETruncated (offset c) bytes (remaining c)) else Ok (tt, c).

Definition check_metadata_budget : Reader unit := fun c =>
  if max_metadata_bytes (limits c) <? offset c
  then Err (EMetadataTooLarge (offset c) (max_metadata_bytes (limits c)))
  else Ok (tt, c).

(** [inner.read_exact] and the advance of [offset]. *)
Definition read_exact (n : u64) : Reader (list byte) := fun c =>
  if Z.of_nat (length (inner c)) <? n then Err (ERead (offset c))
  else Ok (take (Z.to_nat n) (inner c),
           mkCursor (drop (Z.to_nat n) (inner c)) (sat_add64 (offset c) n) (file_size c) (limits c)).

Definition read_array (n : u64) : Reader (list byte) := need n;; read_exact n.

(** [usize] is 64 bits wide, so [usize::try_from] succeeds. *)
Definition read_bytes (len : u64) : Reader (list byte) := need len;; read_exact len.

(** [seek_relative] moves without reading, also past the end. *)
Definition skip (len : u64) : Reader unit :=
  need len;;
  c ← get_cursor;
  (if I64_MAX <? len
   then fail (EImplausibleCount WBytesToSkip len (remaining c) (offset c))
   else fun c => Ok (tt, mkCursor (drop (Z.to_nat len) (inner c)) (sat_add64 (offset c) len)
                           (file_size c) (limits c))).

Definition read_u8 : Reader u8 := bs ← read_array 1; mret (from_le bs).
Definition read_u16 : Reader Z := bs ← read_array 2; mret (from_le bs).
Definition read_u32 : Reader u32 := bs ← read_array 4; mret (from_le bs).
Definition read_u64 : Reader u64 := bs ← read_array 8; mret (from_le bs).

(** [v as iN]. *)
Definition as_signed (bits : Z) (v : Z) : Z := if v <? 2 ^ (bits - 1) then v else v - 2 ^ bits.

Definition read_string (context : str) : Reader str :=
  len ← read_u64;
  c ← get_cursor;
  if max_string_bytes (limits c) <? len
  then fail (EImplausibleCount WStringBytes len (max_string_bytes (limits c)) (offset c))
  else
    bytes ← read_bytes len;
    lift (ok_or (utf8_decode bytes) (EInvalidUtf8 context (offset c))).

(** The [for _ in 0..len] over the strings of an array. *)
Fixpoint skip_strings (n : nat) : Reader unit :=
  match n with
  | O => mret tt
  | S n =>
      element_len ← read_u64;
      c ← get_cursor;
      (if max_string_bytes (limits c) <? element_len
       then fail (EImplausibleCount WStringBytes element_len (max_string_bytes (limits c)) (offset c))
       else skip element_len);;
      skip_strings n
  end.

Definition read_array_summary (key : str) : Reader ArraySummary :=
  c0 ← get_cursor;
  tag ← read_u32;
  et ← lift (ok_or (from_tag tag) (EUnknownValueType key tag (offset c0)));
  (if bool_decide (et = VTArray) then fail (ENestedArray key (offset c0)) else mret tt);;
  len ← read_u64;
  c1 ← get_cursor;
  bl ← (if bool_decide (et = VTString)
        then lift (ensure_fits WArrayElements (sat_mul64 len 8) (remaining c1) (offset c1));;
             skip_strings (Z.to_nat len);;
             c2 ← get_cursor;
             mret (sat_sub (offset c2) (offset c1))
        else bl ← lift (ok_or (fixed_array_byte_len et len)
                          (EImplausibleCount WArrayElements len (remaining c1) (offset c1)));
             skip bl;;
             mret bl);
  mret (mkArray et len (offset c1) bl).

Definition read_value (key : str) (vt : GgufValueType) : Reader GgufValue :=
  match vt with
  | VTU8 => v ← read_u8; mret (VU8 v)
  | VTI8 => v ← read_u8; mret (VI8 (as_signed 8 v))
  | VTU16 => v ← read_u16; mret (VU16 v)
  | VTI16 => v ← read_u16; mret (VI16 (as_signed 16 v))
  | VTU32 => v ← read_u32; mret (VU32 v)
  | VTI32 => v ← read_u32; mret (VI32 (as_signed 32 v))
  | VTU64 => v ← read_u64; mret (VU64 v)
  | VTI64 => v ← read_u64; mret (VI64 (as_signed 64 v))
  | VTF32 => v ← read_u32; mret (VF32 v)
  | VTF64 => v ← read_u64; mret (VF64 v)
  | VTBool => v ← read_u8; mret (VBool (negb (v =? 0)))
  | VTString => v ← read_string key; mret (VString v)
  | VTArray => v ← read_array_summary key; mret (VArray v)
  end.

Definition read_kv : Reader (str * GgufValue) :=
  key ← read_string (lit "<key>");
  c ← get_cursor;
  tag ← read_u32;
  vt ← lift (ok_or (from_tag tag) (EUnknownValueType key tag (offset c)));
  value ← read_value key vt;
  mret (key, value).

(** ** Tensors *)

Definition MAX_DIMS : u32 := 4.

Record TensorInfo := mkTensor {
  t_name : str;
  t_dims : list u64;
  n_dims : u32;
  ggml_type : GgmlType;
  t_offset : u64 }.

Definition elements_of (dims : list u64) : option u64 :=
  foldl (fun acc d => let! a := acc in checked_mul64 a d) (Some 1) dims.

Definition elements (t : TensorInfo) : option u64 := elements_of (t_dims t).

Definition byte_size (t : TensorInfo) : option u64 :=
  let! e := elements t in bytes_for_elements (ggml_type t) e.

(** The [for index in 0..n_dims] that fills the extents. *)
Fixpoint read_dims (n : nat) : Reader (list u64) :=
  match n with
  | O => mret []
  | S n => d ← read_u64; ds ← read_dims n; mret (d :: ds)
  end.

Definition read_tensor_info : Reader TensorInfo :=
  name ← read_string (lit "<tensor name>");
  nd ← read_u32;
  (if MAX_DIMS <? nd then fail (ETooManyDimensions name nd MAX_DIMS) else mret tt);;
  extents ← read_dims (Z.to_nat nd);
  id ← read_u32;
  off ← read_u64;
  let dims := extents ++ replicate (4 - length extents) 1 in
  let info := mkTensor name dims nd (from_id id) off in
  match elements info with
  | None => fail (EDimensionOverflow name)
  | Some _ => mret info
  end.

(** ** The file *)

Definition MAGIC : list byte := [71; 71; 85; 70].
Definition MIN_VERSION : u32 := 2.
Definition MAX_VERSION : u32 := 3.
Definition DEFAULT_ALIGNMENT : u64 := 32.
Definition ALIGNMENT_KEY : str := lit "general.alignment".
Definition MIN_KV_BYTES : u64 := 12.
Definition MIN_TENSOR_BYTES : u64 := 24.

Record GgufFile := mkFile {
  f_version : u32;
  f_alignment : u64;
  f_metadata : gmap str GgufValue;
  f_tensors : list TensorInfo;
  data_offset : u64;
  f_file_size : u64 }.

Definition is_power_of_two (z : u64) : bool := (0 <? z) && (Z.land z (z - 1) =? 0).

Definition resolve_alignment (metadata : gmap str GgufValue) : result u64 GgufError :=
  match metadata !! ALIGNMENT_KEY with
  | None => Ok DEFAULT_ALIGNMENT
  | Some value =>
      let alignment := default 0 (as_u64 value) in
      if (alignment =? 0) || negb (is_power_of_two alignment)
      then Err (EImplausibleCount WAlignment alignment DEFAULT_ALIGNMENT 0)
      else Ok alignment
  end.

Definition align_up (offset alignment : u64) : u64 :=
  match checked_rem offset alignment with
  | None | Some 0 => offset
  | Some remainder => sat_add64 offset (sat_sub alignment remainder)
  end.

Definition verify_one (f : GgufFile) (t : TensorInfo) : result unit GgufError :=
  match byte_size t with
  | None => Ok tt
  | Some size =>
      let start := sat_add64 (data_offset f) (t_offset t) in
      if f_file_size f <? sat_add64 start size
      then Err (ETruncated start size (sat_sub (f_file_size f) start))
      else Ok tt
  end.

Fixpoint verify_tensors (f : GgufFile) (ts : list TensorInfo) : result unit GgufError :=
  match ts with
  | [] => Ok tt
  | t :: ts => let? _ := verify_one f t in verify_tensors f ts
  end.

Definition verify_tensor_data_present (f : GgufFile) : result unit GgufError :=
  verify_tensors f (f_tensors f).

Fixpoint read_kvs (n : nat) (metadata : gmap str GgufValue) : Reader (gmap str GgufValue) :=
  match n with
  | O => mret metadata
  | S n => kv ← read_kv; check_metadata_budget;; read_kvs n (<[fst kv := snd kv]> metadata)
  end.

Fixpoint read_tensors (n : nat) : Reader (list TensorInfo) :=
  match n with
  | O => mret []
  | S n => t ← read_tensor_info; check_metadata_budget;; ts ← read_tensors n; mret (t :: ts)
  end.

Definition parse (verify_data : bool) : Reader GgufFile :=
  magic ← read_array 4;
  (if bool_decide (magic = MAGIC) then mret tt else fail (EBadMagic magic));;
  version ← read_u32;
  (if (MIN_VERSION <=? version) && (version <=? MAX_VERSION) then mret tt
   else fail (EUnsupportedVersion version MIN_VERSION MAX_VERSION));;
  tensor_count ← read_u64;
  kv_count ← read_u64;
  c1 ← get_cursor;
  lift (ensure_fits WMetadataKeys (sat_mul64 kv_count MIN_KV_BYTES) (remaining c1) (offset c1));;
  metadata ← read_kvs (Z.to_nat kv_count) ∅;
  alignment ← lift (resolve_alignment metadata);
  c2 ← get_cursor;
  lift (ensure_fits WTensors (sat_mul64 tensor_count MIN_TENSOR_BYTES) (remaining c2) (offset c2));;
  tensors ← read_tensors (Z.to_nat tensor_count);
  c3 ← get_cursor;
  let data_offset :=
    match tensors with [] => offset c3 | _ => align_up (offset c3) alignment end in
  let file := mkFile version alignment metadata tensors data_offset (file_size c3) in
  (if verify_data then lift (verify_tensor_data_present file) else mret tt);;
  mret file.

Definition open_inner (file : list byte) (lim : ReadLimits) (verify_data : bool)
    : result GgufFile GgufError :=
  let? r := parse verify_data (mkCursor file 0 (Z.of_nat (length file)) lim) in Ok (fst r).

(** [GgufFile::open] and [open_header_only]. *)
Definition open (file : list byte) : result GgufFile GgufError :=
  open_inner file ReadLimits_default true.
Definition open_header_only (file : list byte) : result GgufFile GgufError :=
  open_inner file ReadLimits_default false.

(** Totals over the tensors. *)
Definition parameter_count (f : GgufFile) : option u64 :=
  foldl (fun acc t => let! a := acc in let! e := elements t in checked_add64 a e)
    (Some 0) (f_tensors f).

Definition weight_bytes (f : GgufFile) : option u64 :=
  foldl (fun acc t => let! a := acc in let! e := byte_size t in checked_add64 a e)
    (Some 0) (f_tensors f).

Definition tensor_data_bytes (f : GgufFile) : u64 := sat_sub (f_file_size f) (data_offset f).

Definition get_u64 (f : GgufFile) (key : str) : option u64 :=
  let! v := f_metadata f !! key in as_u64 v.
Definition get_u32 (f : GgufFile) (key : str) : option u32 :=
  let! v := f_metadata f !! key in as_u32 v.
Definition get_str (f : GgufFile) (key : str) : option str :=
  let! v := f_metadata f !! key in value_as_str v.
Definition get_array (f : GgufFile) (key : str) : option ArraySummary :=
  let! v := f_metadata f !! key in as_array v.
Definition get_bool (f : GgufFile) (key : str) : option bool :=
  let! v := f_metadata f !! key in as_bool v.
