(* ===== verification/GgufSafety.v ===== *)
(** * The reader stays inside the file

    No malformed file takes the reader of [Gguf.v] out of bounds: every
    action keeps the cursor inside the file, [read_exact] is never asked for
    bytes that are not there, every error points into the file, and no string
    is longer than its ceiling. *)

From stdpp Require Import base gmap strings numbers list.
From S2P Require Import Prelude Names Utf8 Ggml Gguf.

(** ** The cursor's invariant *)

Record Valid (N : u64) (L : ReadLimits) (c : Cursor) : Prop := {
  va_size : file_size c = N;
  va_limits : limits c = L;
  va_offset : 0 ≤ offset c;
  va_inner : offset c + Z.of_nat (length (inner c)) = N;
  va_bytes : Forall is_byte (inner c) }.

(** An error a user can act on: not an I/O error, and inside the file. *)
Definition located (N : u64) (e : GgufError) : Prop :=
  (∀ o, e ≠ ERead o) ∧ ∀ o, error_offset e = Some o → 0 ≤ o ≤ N.

Definition safe {A} (N : u64) (L : ReadLimits) (m : Reader A) (Q : A → Prop) : Prop :=
  ∀ c, Valid N L c →
    match m c with
    | Ok (a, c') => Valid N L c' ∧ offset c ≤ offset c' ∧ Q a
    | Err e => located N e
    end.

Section safe.
Context (N : u64) (L : ReadLimits) (HN : 0 ≤ N ≤ U64_MAX).

Lemma safe_bind {A B} (m : Reader A) (f : A → Reader B) Q R :
  safe N L m Q → (∀ a, Q a → safe N L (f a) R) → safe N L (m ≫= f) R.
Proof.
  intros Hm Hf c Hc. unfold mbind, Reader_bind. specialize (Hm c Hc).
  destruct (m c) as [[a c']|e]; [|done]. destruct Hm as (Hc' & Hle & Ha).
  specialize (Hf a Ha c' Hc'). destruct (f a c') as [[b c'']|e]; [|done].
  destruct Hf as (? & ? & ?). split_and!; [done|lia|done].
Qed.

Lemma safe_ret {A} (a : A) (Q : A → Prop) : Q a → safe N L (mret a) Q.
Proof. intros Ha c Hc. simpl. split_and!; [done|lia|done]. Qed.

Lemma safe_mono {A} (m : Reader A) (Q R : A → Prop) :
  safe N L m Q → (∀ a, Q a → R a) → safe N L m R.
Proof.
  intros Hm HQ c Hc. specialize (Hm c Hc). destruct (m c) as [[a c']|e]; [|done]. naive_solver.
Qed.

Lemma safe_fail {A} e (Q : A → Prop) : located N e → safe N L (fail e) Q.
Proof. intros He c Hc. done. Qed.

Lemma safe_lift {A} (r : result A GgufError) (Q : A → Prop) :
  (∀ a, r = Ok a → Q a) → (∀ e, r = Err e → located N e) → safe N L (lift r) Q.
Proof.
  intros Ha He c Hc. unfold lift. destruct r as [a|e]; [split_and!; [done|lia|by apply Ha]|by apply He].
Qed.

Lemma safe_cursor : safe N L get_cursor (Valid N L).
Proof. intros c Hc. simpl. split_and!; [done|lia|done]. Qed.

Lemma located_offset e o : error_offset e = Some o → (∀ o, e ≠ ERead o) → 0 ≤ o ≤ N → located N e.
Proof. intros He Hne Ho. split; [done|]. intros o'. rewrite He. by intros [= <-]. Qed.

Lemma located_none e : error_offset e = None → located N e.
Proof. intros He. split; [by intros o ->|]. intros o. by rewrite He. Qed.

Lemma Valid_offset_le c : Valid N L c → 0 ≤ offset c ≤ N.
Proof. intros []. lia. Qed.

(** The errors raised at the cursor are located. *)
Lemma located_at c e :
  Valid N L c → error_offset e = Some (offset c) → (∀ o, e ≠ ERead o) → located N e.
Proof. intros Hc He Hne. eapply located_offset; [done|done|by apply Valid_offset_le]. Qed.

(** The bytes are there once [need] has passed. *)
Lemma need_read n c :
  0 ≤ n → Valid N L c →
  match (need n;; read_exact n) c with
  | Ok (a, c') => Valid N L c' ∧ offset c' = offset c + n ∧ Z.of_nat (length a) = n ∧
      Forall is_byte a
  | Err e => located N e
  end.
Proof.
  intros Hn Hc. pose proof (Valid_offset_le c Hc) as Ho. destruct Hc as [Hs Hl H0 Hi Hb].
  unfold mbind, Reader_bind, need. unfold remaining, sat_sub. rewrite Hs.
  destruct (Z.ltb_spec (Z.max (N - offset c) 0) n) as [Hlt|Hge].
  { by eapply located_offset. }
  unfold read_exact. destruct (Z.ltb_spec (Z.of_nat (length (inner c))) n); [lia|].
  split_and!.
  - constructor; simpl; try done; unfold sat_add64; [lia| |by apply Forall_drop].
    rewrite length_drop. lia.
  - simpl. unfold sat_add64. lia.
  - rewrite length_take. lia.
  - by apply Forall_take.
Qed.

Lemma safe_read_array n : 0 ≤ n → safe N L (read_array n) (λ bs, Z.of_nat (length bs) = n ∧ Forall is_byte bs).
Proof.
  intros Hn c Hc. pose proof (need_read n c Hn Hc) as H. unfold read_array.
  destruct ((need n;; read_exact n) c) as [[a c']|e]; [|done].
  destruct H as (? & ? & ? & ?). split_and!; [done|lia|done..].
Qed.

Lemma safe_skip n : 0 ≤ n → safe N L (skip n) (λ _, True).
Proof.
  intros Hn c Hc. pose proof (Valid_offset_le c Hc) as Ho. pose proof Hc as [Hs Hl H0 Hi Hb].
  unfold skip, mbind, Reader_bind, need, get_cursor. unfold remaining, sat_sub. rewrite Hs.
  destruct (Z.ltb_spec (Z.max (N - offset c) 0) n) as [Hlt|Hge]; [by eapply located_offset|].
  destruct (I64_MAX <? n); [by eapply located_offset|].
  split_and!; simpl; [|unfold sat_add64; lia|done].
  constructor; simpl; try done; unfold sat_add64; [lia| |by apply Forall_drop].
  rewrite length_drop. lia.
Qed.

Lemma safe_read_int n :
  0 ≤ n → safe N L (bs ← read_array n; mret (from_le bs)) (λ v, 0 ≤ v < 256 ^ n).
Proof.
  intros Hn. eapply safe_bind; [by apply safe_read_array|]. intros bs [Hl Hb].
  apply safe_ret. rewrite <-Hl. by apply from_le_bound.
Qed.

Lemma safe_read_u32 : safe N L read_u32 in_u32.
Proof.
  eapply safe_mono; [apply (safe_read_int 4); lia|]. intros v. unfold in_u32, U32_MAX. lia.
Qed.

Lemma safe_read_u64 : safe N L read_u64 in_u64.
Proof.
  eapply safe_mono; [apply (safe_read_int 8); lia|]. intros v. unfold in_u64, U64_MAX. lia.
Qed.
End safe.

Create HintDb gguf.
#[export] Hint Resolve safe_read_array safe_skip safe_cursor safe_read_u32 safe_read_u64 : gguf.
#[export] Hint Resolve Valid_offset_le : gguf.

(** ** The actions, from the bottom up *)

Section actions.
Context (N : u64) (L : ReadLimits) (HN : 0 ≤ N ≤ U64_MAX).

Lemma safe_ok_or {A} (o : option A) e (Q : A → Prop) :
  (∀ a, o = Some a → Q a) → located N e → safe N L (lift (ok_or o e)) Q.
Proof. intros Ha He. apply safe_lift; destruct o; simpl; intros ? [= <-]; auto. Qed.

Lemma safe_ensure_fits what claimed c :
  Valid N L c →
  safe N L (lift (ensure_fits what claimed (remaining c) (offset c))) (λ _, True).
Proof.
  intros Hc. apply safe_lift; [done|]. unfold ensure_fits. intros e. case_match; [|done].
  intros [= <-]. by eapply located_at.
Qed.

(** A string is no longer than its ceiling. *)
Definition short (s : str) : Prop :=
  ∃ bytes, utf8_decode bytes = Some s ∧ Z.of_nat (length bytes) ≤ max_string_bytes L.

Lemma safe_read_string context : safe N L (read_string context) short.
Proof.
  unfold read_string. eapply safe_bind; [by eauto with gguf|]. intros len [Hlen _].
  eapply safe_bind; [by eauto with gguf|]. intros c Hc.
  destruct (Z.ltb_spec (max_string_bytes (limits c)) len) as [Hlt|Hge].
  - apply safe_fail. by eapply located_at.
  - eapply safe_bind; [by apply safe_read_array|]. intros bytes [Hb _].
    apply safe_ok_or.
    + intros s Hs. exists bytes. split; [done|]. rewrite (va_limits _ _ _ Hc) in Hge. lia.
    + by eapply located_at.
Qed.

Lemma safe_skip_strings n : safe N L (skip_strings n) (λ _, True).
Proof.
  induction n as [|n IH]; simpl; [by apply safe_ret|].
  eapply safe_bind; [by eauto with gguf|]. intros len [Hlen _].
  eapply safe_bind; [by eauto with gguf|]. intros c Hc.
  eapply safe_bind; [|intros _ _; exact IH]. case_match; [|by apply safe_skip].
  apply safe_fail. by eapply located_at.
Qed.

Lemma safe_read_array_summary key : safe N L (read_array_summary key) (λ _, True).
Proof.
  unfold read_array_summary. eapply safe_bind; [by eauto with gguf|]. intros c0 Hc0.
  pose proof (Valid_offset_le _ _ _ Hc0) as Ho0.
  eapply safe_bind; [by eauto with gguf|]. intros tag _.
  eapply safe_bind; [by apply (safe_ok_or _ _ (λ _, True)); [|by eapply located_offset]|]. intros et _.
  eapply (safe_bind _ _ _ _ (λ _, True)).
  { case_bool_decide; [apply safe_fail; by eapply located_offset|by apply safe_ret]. }
  intros _ _. eapply safe_bind; [by eauto with gguf|]. intros len [Hlen _].
  eapply safe_bind; [by eauto with gguf|]. intros c1 Hc1.
  eapply (safe_bind _ _ _ _ (λ _, True)); [|intros; by apply safe_ret].
  case_bool_decide.
  - eapply safe_bind; [by apply safe_ensure_fits|]. intros _ _.
    eapply safe_bind; [by apply safe_skip_strings|]. intros _ _.
    eapply safe_bind; [by eauto with gguf|]. intros; by apply safe_ret.
  - eapply (safe_bind _ _ _ _ (λ bl, 0 ≤ bl)).
    + apply safe_ok_or.
      * intros bl. unfold fixed_array_byte_len, checked_mul64.
        destruct (fixed_width et) as [w|] eqn:Hw; [|done]. simpl. case_match; [|done].
        intros [= <-]. assert (0 ≤ w) by (destruct et; simplify_eq/=; lia). nia.
      * by eapply located_at.
    + intros bl Hbl. eapply safe_bind; [by eauto with gguf|]. intros; by apply safe_ret.
Qed.

(** An array's elements are inside the file, as many of its element's width as
    its header counts. *)
Definition inside (a : ArraySummary) : Prop :=
  0 ≤ arr_offset a ∧ 0 ≤ arr_len a ∧ arr_offset a + byte_len a ≤ N ∧
  ∀ w, fixed_width (element_type a) = Some w → byte_len a = w * arr_len a.

Lemma bind_Ok {A B} (m : Reader A) (f : A → Reader B) c b c'' :
  (m ≫= f) c = Ok (b, c'') → ∃ a c', m c = Ok (a, c') ∧ f a c' = Ok (b, c'').
Proof. unfold mbind, Reader_bind. destruct (m c) as [[a c']|]; [eauto|done]. Qed.

Lemma lift_Ok {A} (r : result A GgufError) c a c' :
  lift r c = Ok (a, c') → r = Ok a ∧ c' = c.
Proof. unfold lift. destruct r; [by intros [= <- <-]|done]. Qed.

Lemma safe_Ok {A} (m : Reader A) Q c a c' :
  safe N L m Q → Valid N L c → m c = Ok (a, c') → Valid N L c' ∧ offset c ≤ offset c' ∧ Q a.
Proof. intros Hm Hc Heq. specialize (Hm c Hc). by rewrite Heq in Hm. Qed.

Lemma skip_inside n c u c' :
  0 ≤ n → Valid N L c → skip n c = Ok (u, c') → offset c + n ≤ N.
Proof.
  intros Hn Hc Hs. pose proof Hc as [Hsz _ _ _ _]. pose proof (Valid_offset_le _ _ _ Hc).
  unfold skip, mbind, Reader_bind, need, get_cursor, remaining, sat_sub in Hs. rewrite Hsz in Hs.
  destruct (Z.ltb_spec (Z.max (N - offset c) 0) n); [done|lia].
Qed.

Lemma fixed_byte_len et len bl :
  0 ≤ len → fixed_array_byte_len et len = Some bl →
  0 ≤ bl ∧ ∀ w, fixed_width et = Some w → bl = w * len.
Proof.
  unfold fixed_array_byte_len, checked_mul64. intros Hl.
  destruct (fixed_width et) as [w|] eqn:Hw; [|done]. simpl. case_match; [|done].
  intros [= <-]. assert (0 ≤ w) by (destruct et; simplify_eq/=; lia).
  split; [nia|]. by intros w' [= <-].
Qed.

Lemma summary_inside key c a c' :
  Valid N L c → read_array_summary key c = Ok (a, c') → inside a.
Proof.
  intros Hc Hr. unfold read_array_summary in Hr.
  apply bind_Ok in Hr as (c0 & c0' & [= <- <-] & Hr).
  apply bind_Ok in Hr as (tag & c1 & H1 & Hr).
  apply (safe_Ok _ in_u32) in H1 as (Hc1 & _ & _); [|by eauto with gguf|done].
  apply bind_Ok in Hr as (et & c1' & H1 & Hr).
  apply lift_Ok in H1 as [_ ->].
  apply bind_Ok in Hr as ([] & c1' & H2 & Hr).
  destruct (bool_decide (et = VTArray)); [done|]. injection H2 as <-.
  apply bind_Ok in Hr as (len & c2 & H3 & Hr).
  apply (safe_Ok _ in_u64) in H3 as (Hc2 & _ & Hlen & _); [|by eauto with gguf|done].
  apply bind_Ok in Hr as (c2b & c2' & [= <- <-] & Hr).
  apply bind_Ok in Hr as (bl & c3 & H4 & [= <- <-]).
  pose proof (Valid_offset_le _ _ _ Hc2) as Ho2. unfold inside. simpl. case_bool_decide as Het.
  - apply bind_Ok in H4 as ([] & c2' & H5 & H4).
    apply lift_Ok in H5 as [_ ->].
    apply bind_Ok in H4 as ([] & c4 & H6 & H4).
    apply (safe_Ok _ (λ _, True)) in H6 as (Hc4 & Hle & _); [|by apply safe_skip_strings|done].
    apply bind_Ok in H4 as (c4b & c4' & [= <- <-] & [= <- <-]).
    pose proof (Valid_offset_le _ _ _ Hc4). subst et. unfold sat_sub. split_and!; [lia..|done].
  - apply bind_Ok in H4 as (bl' & c2' & H5 & H4). apply lift_Ok in H5 as [H5 ->].
    destruct (fixed_array_byte_len et len) as [bl2|] eqn:Hbl; [|done]. injection H5 as <-.
    apply bind_Ok in H4 as ([] & c4 & H6 & [= <- <-]).
    apply fixed_byte_len in Hbl as [Hp Hw]; [|done]. apply skip_inside in H6; [|done..].
    split_and!; [lia..|done].
Qed.

(** Every string among the values is short, every array inside the file. *)
Definition short_value (v : GgufValue) : Prop :=
  match v with VString s => short s | VArray a => inside a | _ => True end.

Lemma safe_read_value key vt : safe N L (read_value key vt) short_value.
Proof.
  destruct vt; simpl;
    try (eapply safe_bind; [apply (safe_read_int N L HN); lia|intros; by apply safe_ret]).
  - eapply safe_bind; [apply safe_read_string|]. intros; by apply safe_ret.
  - eapply (safe_bind _ _ _ _ inside); [|intros; by apply safe_ret].
    intros c Hc. pose proof (safe_read_array_summary key c Hc) as Hs.
    destruct (read_array_summary key c) as [[a c']|e] eqn:Hr; [|done].
    destruct Hs as (? & ? & _). split; [done|]. split; [done|].
    exact (summary_inside _ _ _ _ Hc Hr).
Qed.

Lemma safe_read_kv : safe N L read_kv (λ kv, short (fst kv) ∧ short_value (snd kv)).
Proof.
  unfold read_kv. eapply safe_bind; [apply safe_read_string|]. intros key Hkey.
  eapply safe_bind; [by eauto with gguf|]. intros c Hc.
  eapply safe_bind; [by eauto with gguf|]. intros tag _.
  eapply (safe_bind _ _ _ _ (λ _, True)).
  { apply safe_ok_or; [done|]. by eapply located_at. }
  intros vt _. eapply safe_bind; [apply safe_read_value|]. intros v Hv. by apply safe_ret.
Qed.

Lemma safe_budget : safe N L check_metadata_budget (λ _, True).
Proof.
  intros c Hc. unfold check_metadata_budget.
  destruct (_ <? _); [by apply located_none|].
  split_and!; [done|lia|done].
Qed.

Definition short_metadata (m : gmap str GgufValue) : Prop :=
  ∀ k v, m !! k = Some v → short k ∧ short_value v.

Lemma safe_read_kvs n m : short_metadata m → safe N L (read_kvs n m) short_metadata.
Proof.
  revert m. induction n as [|n IH]; intros m Hm; simpl; [by apply safe_ret|].
  eapply safe_bind; [apply safe_read_kv|]. intros [k v] [Hk Hv].
  eapply safe_bind; [apply safe_budget|]. intros _ _. apply IH.
  intros k' v'. simpl. rewrite lookup_insert. case_decide; [|apply Hm].
  intros [= <-]. by subst.
Qed.

Lemma safe_read_dims n : safe N L (read_dims n) (λ ds, length ds = n ∧ Forall in_u64 ds).
Proof.
  induction n as [|n IH]; simpl; [by apply safe_ret|].
  eapply safe_bind; [by eauto with gguf|]. intros d Hd.
  eapply safe_bind; [apply IH|]. intros ds [Hds Hr]. apply safe_ret. simpl. rewrite Hds. by auto.
Qed.

Definition sized_tensor (t : TensorInfo) : Prop :=
  short (t_name t) ∧ length (t_dims t) = 4%nat ∧ Forall in_u64 (t_dims t) ∧
  in_u64 (t_offset t) ∧ is_Some (elements t).

Lemma safe_read_tensor_info : safe N L read_tensor_info sized_tensor.
Proof.
  unfold read_tensor_info. eapply safe_bind; [apply safe_read_string|]. intros name Hname.
  eapply safe_bind; [by eauto with gguf|]. intros nd [Hnd _].
  eapply (safe_bind _ _ _ _ (λ _, nd ≤ 4)).
  { unfold MAX_DIMS. destruct (Z.ltb_spec 4 nd); [apply safe_fail; by apply located_none|by apply safe_ret]. }
  intros _ Hle. eapply safe_bind; [apply safe_read_dims|]. intros ds [Hds Hr].
  eapply safe_bind; [by eauto with gguf|]. intros id _.
  eapply safe_bind; [by eauto with gguf|]. intros off Hoff.
  destruct (elements _) as [e|] eqn:He; [|apply safe_fail; by apply located_none].
  apply safe_ret. split_and!; [done| | |done|by eexists]; cbn [t_dims].
  - rewrite length_app, length_replicate. rewrite Hds. lia.
  - apply Forall_app. split; [done|]. apply Forall_replicate. unfold in_u64, U64_MAX. lia.
Qed.

Lemma safe_read_tensors n :
  safe N L (read_tensors n) (λ ts, Forall sized_tensor ts ∧ length ts = n).
Proof.
  induction n as [|n IH]; simpl; [by apply safe_ret|].
  eapply safe_bind; [apply safe_read_tensor_info|]. intros t Ht.
  eapply safe_bind; [apply safe_budget|]. intros _ _.
  eapply safe_bind; [apply IH|]. intros ts [Hts <-]. apply safe_ret. by split; [constructor|].
Qed.

(** What a header that was read satisfies, wherever it ends. *)
Definition well_read (f : GgufFile) : Prop :=
  short_metadata (f_metadata f) ∧
  (Forall sized_tensor (f_tensors f) ∧ Z.of_nat (length (f_tensors f)) ≤ U64_MAX) ∧
  f_file_size f = N ∧ 2 ≤ f_version f ≤ 3 ∧
  resolve_alignment (f_metadata f) = Ok (f_alignment f).

(** What a header that was accepted satisfies: it ends in the file and within
    the metadata ceiling, unless it has neither a key nor a tensor and is only
    its magic, its version and its two counts. *)
Definition accepted (f : GgufFile) : Prop :=
  well_read f ∧
  ∃ header_end, 0 ≤ header_end ≤ N ∧
    (header_end ≤ max_metadata_bytes L ∨
     header_end = 24 ∧ f_metadata f = ∅ ∧ f_tensors f = []) ∧
    data_offset f = match f_tensors f with
                    | [] => header_end
                    | _ => align_up header_end (f_alignment f)
                    end.

Lemma safe_parse : safe N L (parse false) well_read.
Proof.
  unfold parse. eapply safe_bind; [by apply safe_read_array|]. intros magic _.
  eapply (safe_bind _ _ _ _ (λ _, True)).
  { case_bool_decide; [by apply safe_ret|apply safe_fail; by apply located_none]. }
  intros _ _. eapply safe_bind; [by eauto with gguf|]. intros version _.
  eapply (safe_bind _ _ _ _ (λ _, 2 ≤ version ≤ 3)).
  { unfold MIN_VERSION, MAX_VERSION.
    destruct ((2 <=? version) && (version <=? 3)) eqn:Hv; [apply safe_ret; lia|].
    apply safe_fail. by apply located_none. }
  intros _ Hver. eapply safe_bind; [by eauto with gguf|]. intros tc Htc.
  eapply safe_bind; [by eauto with gguf|]. intros kc _.
  eapply safe_bind; [by eauto with gguf|]. intros c1 Hc1.
  eapply safe_bind; [by apply safe_ensure_fits|]. intros _ _.
  eapply safe_bind; [apply safe_read_kvs; by intros k v; rewrite lookup_empty|]. intros md Hmd.
  eapply (safe_bind _ _ _ _ (λ al, resolve_alignment md = Ok al)).
  { apply safe_lift; [done|]. unfold resolve_alignment. intros e. destruct (md !! _); [|done].
    case_match; [|done]. intros [= <-]. eapply located_offset; [done|done|lia]. }
  intros al Hal. eapply safe_bind; [by eauto with gguf|]. intros c2 Hc2.
  eapply safe_bind; [by apply safe_ensure_fits|]. intros _ _.
  eapply safe_bind; [apply safe_read_tensors|]. intros ts [Hts Hlen].
  eapply safe_bind; [by eauto with gguf|]. intros c3 Hc3.
  eapply (safe_bind _ _ _ _ (λ _, True)); [by apply safe_ret|]. intros _ _. apply safe_ret.
  unfold in_u64 in Htc. split_and!; simpl; try done; [lia|by destruct Hc3|lia..].
Qed.

(** *** Where it ends *)

Lemma budget_Ok c u c' :
  check_metadata_budget c = Ok (u, c') → c' = c ∧ offset c ≤ max_metadata_bytes (limits c).
Proof. unfold check_metadata_budget. destruct (Z.ltb_spec (max_metadata_bytes (limits c)) (offset c)); [done|]. by intros [= _ <-]. Qed.

Lemma kvs_end n m c md c' :
  read_kvs n m c = Ok (md, c') →
  (n = 0%nat ∧ c' = c ∧ md = m) ∨ offset c' ≤ max_metadata_bytes (limits c').
Proof.
  revert m c. induction n as [|n IH]; intros m c Hr; [injection Hr as <- <-; by left|]. right.
  apply bind_Ok in Hr as (kv & c1 & _ & Hr). apply bind_Ok in Hr as (u & c2 & Hb & Hr).
  apply budget_Ok in Hb as [-> Hb]. apply IH in Hr as [(_ & -> & _)|Hr]; done.
Qed.

Lemma tensors_end n c ts c' :
  read_tensors n c = Ok (ts, c') →
  (ts = [] ∧ c' = c) ∨ offset c' ≤ max_metadata_bytes (limits c').
Proof.
  revert c ts. induction n as [|n IH]; intros c ts Hr; [injection Hr as <- <-; by left|]. right.
  apply bind_Ok in Hr as (t & c1 & _ & Hr). apply bind_Ok in Hr as (u & c2 & Hb & Hr).
  apply budget_Ok in Hb as [-> Hb]. apply bind_Ok in Hr as (ts' & c3 & Hr & [= _ <-]).
  apply IH in Hr as [(_ & ->)|Hr]; done.
Qed.

Lemma int_end n c v c' :
  0 ≤ n → Valid N L c → (bs ← read_array n; mret (from_le bs)) c = Ok (v, c') →
  Valid N L c' ∧ offset c' = offset c + n.
Proof.
  intros Hn Hc Hr. apply bind_Ok in Hr as (bs & c1 & Hr & [= _ <-]).
  pose proof (need_read N L HN n c Hn Hc) as H. unfold read_array in Hr. rewrite Hr in H.
  by destruct H as (? & ? & _).
Qed.

Lemma parse_end f c c' :
  Valid N L c → offset c = 0 → parse false c = Ok (f, c') →
  (offset c' ≤ max_metadata_bytes (limits c') ∨
   offset c' = 24 ∧ f_metadata f = ∅ ∧ f_tensors f = []) ∧
  data_offset f = match f_tensors f with
                  | [] => offset c'
                  | _ => align_up (offset c') (f_alignment f)
                  end.
Proof.
  intros Hc H0 Hr. unfold parse in Hr.
  apply bind_Ok in Hr as (magic & c1 & Hm & Hr).
  pose proof (need_read N L HN 4 c ltac:(lia) Hc) as H4. unfold read_array in Hm. rewrite Hm in H4.
  destruct H4 as (Hc1 & Ho1 & _).
  apply bind_Ok in Hr as ([] & c2 & Hm2 & Hr). case_bool_decide; [injection Hm2 as <-|done].
  apply bind_Ok in Hr as (version & c2 & Hv & Hr). apply int_end in Hv as [Hc2 Ho2]; [|lia|done].
  apply bind_Ok in Hr as ([] & c3 & Hv & Hr). destruct (_ && _); [injection Hv as <-|done].
  apply bind_Ok in Hr as (tc & c3 & Ht & Hr). apply int_end in Ht as [Hc3 Ho3]; [|lia|done].
  apply bind_Ok in Hr as (kc & c4 & Hk & Hr). apply int_end in Hk as [Hc4 Ho4]; [|lia|done].
  apply bind_Ok in Hr as (? & ? & [= <- <-] & Hr).
  apply bind_Ok in Hr as (? & c5 & He & Hr). apply lift_Ok in He as [_ ->].
  apply bind_Ok in Hr as (md & c6 & Hkv & Hr).
  apply bind_Ok in Hr as (al & c7 & Hal & Hr). apply lift_Ok in Hal as [_ ->].
  apply bind_Ok in Hr as (? & ? & [= <- <-] & Hr).
  apply bind_Ok in Hr as (? & c8 & He & Hr). apply lift_Ok in He as [_ ->].
  apply bind_Ok in Hr as (ts & c9 & Hts & Hr).
  apply bind_Ok in Hr as (? & ? & [= <- <-] & Hr).
  apply bind_Ok in Hr as (? & ? & [= _ <-] & [= <- <-]). simpl. split; [|done].
  apply kvs_end in Hkv. apply tensors_end in Hts as [[-> ->]|?]; [|by left].
  destruct Hkv as [(_ & -> & ->)|?]; [|by left]. right. split; [lia|done].
Qed.
End actions.

(** ** Properties *)

Lemma open_inner_cases file lim :
  Forall is_byte file → Z.of_nat (length file) ≤ U64_MAX →
  match open_inner file lim false with
  | Ok f => accepted (Z.of_nat (length file)) lim f
  | Err e => located (Z.of_nat (length file)) e
  end.
Proof.
  intros Hb Hn. unfold open_inner. set (c0 := mkCursor _ _ _ _).
  assert (Hc0 : Valid (Z.of_nat (length file)) lim c0) by by constructor.
  pose proof (safe_parse (Z.of_nat (length file)) lim ltac:(lia) c0 Hc0) as H.
  destruct (parse false c0) as [[f c]|e] eqn:Hp; simpl; [|done].
  destruct H as (Hc & _ & Hf). split; [done|].
  apply (parse_end (Z.of_nat (length file)) lim ltac:(lia)) in Hp as [He Hd]; [|done..].
  exists (offset c). split_and!; [by destruct Hc|destruct Hc; lia| |done].
  by rewrite <-(va_limits _ _ _ Hc).
Qed.

(** C33: a malformed model cannot take the reader outside the file.  Whatever
    the bytes of a file and whatever the limits, reading its header either
    gives an error that is located inside the file, never a read past its
    end, or a header of a supported version whose every key, string and
    tensor name is within the string ceiling, whose every array has as many
    elements as it counts, all of them in the file, whose every tensor has a
    counted number of elements, which ends within the metadata ceiling (or is
    the 24 bytes of a header with neither keys nor tensors), and whose data
    section starts at its end rounded up to an alignment that was checked. *)
Theorem header_reading_is_safe file lim :
  Forall is_byte file → Z.of_nat (length file) ≤ U64_MAX →
  match open_inner file lim false with
  | Ok f => accepted (Z.of_nat (length file)) lim f
  | Err e => located (Z.of_nat (length file)) e
  end.
Proof. apply open_inner_cases. Qed.

(** A header cut off inside its first count. *)
Lemma header_reading_is_safe_witness :
  match open_header_only (MAGIC ++ to_le 4 3 ++ [1; 2]) with
  | Ok f => accepted 10 ReadLimits_default f
  | Err e => located 10 e
  end ∧ open_header_only (MAGIC ++ to_le 4 3 ++ [1; 2]) = Err (ETruncated 8 8 2).
Proof.
  split; [|vm_compute; reflexivity].
  apply (header_reading_is_safe (MAGIC ++ to_le 4 3 ++ [1; 2]) ReadLimits_default).
  - repeat constructor; vm_compute; done.
  - vm_compute. discriminate.
Defined.
