(* ===== verification/GgufFixture.v ===== *)
(** * The GGUF writer

    [crates/lightweight-gguf/src/fixture.rs]: the second implementation of
    the format, which builds the files the tests read, and what the reader of
    [Gguf.v] gives back for what it wrote. *)

From stdpp Require Import base gmap strings numbers list.
From S2P Require Import Prelude Names Utf8 Ggml Gguf.

Definition MAX_FIXTURE_DATA_BYTES : u64 := 64 * 1024 * 1024.

Inductive FixtureValue :=
| FxU8 (v : Z) | FxI8 (v : Z) | FxU16 (v : Z) | FxI16 (v : Z) | FxU32 (v : Z) | FxI32 (v : Z)
| FxU64 (v : Z) | FxI64 (v : Z) | FxF32 (bits : Z) | FxF64 (bits : Z) | FxBool (v : bool)
| FxStr (s : str)
| FxU32Array (items : list Z) | FxU64Array (items : list Z) | FxF32Array (items : list Z)
| FxStrArray (items : list str).

Record FixtureTensor := mkFixtureTensor {
  fx_name : str;
  fx_dims : list u64;
  fx_type : GgmlType }.

Record GgufBuilder := mkBuilder {
  b_version : u32;
  b_alignment : u64;
  b_metadata : list (str * FixtureValue);
  b_tensors : list FixtureTensor }.

Definition GgufBuilder_new : GgufBuilder := mkBuilder MAX_VERSION DEFAULT_ALIGNMENT [] [].

Definition builder_version (b : GgufBuilder) (version : u32) : GgufBuilder :=
  mkBuilder version (b_alignment b) (b_metadata b) (b_tensors b).

Definition builder_kv (b : GgufBuilder) (key : str) (value : FixtureValue) : GgufBuilder :=
  mkBuilder (b_version b) (b_alignment b) (b_metadata b ++ [(key, value)]) (b_tensors b).

Definition builder_alignment (b : GgufBuilder) (alignment : u64) : GgufBuilder :=
  builder_kv (mkBuilder (b_version b) alignment (b_metadata b) (b_tensors b))
    ALIGNMENT_KEY (FxU32 (alignment mod 2 ^ 32)).

Definition builder_tensor (b : GgufBuilder) (name : str) (dims : list u64) (t : GgmlType)
    : GgufBuilder :=
  mkBuilder (b_version b) (b_alignment b) (b_metadata b)
    (b_tensors b ++ [mkFixtureTensor name dims t]).

(** ** Encoding *)

Definition write_string (s : str) : list byte :=
  to_le 8 (Z.of_nat (length (utf8_encode s))) ++ utf8_encode s.

Definition write_array_header (element_tag : u32) (len : nat) : list byte :=
  to_le 4 9 ++ to_le 4 element_tag ++ to_le 8 (Z.of_nat len).

Definition write_value (v : FixtureValue) : list byte :=
  match v with
  | FxU8 v => to_le 4 0 ++ to_le 1 v
  | FxI8 v => to_le 4 1 ++ to_le 1 v
  | FxU16 v => to_le 4 2 ++ to_le 2 v
  | FxI16 v => to_le 4 3 ++ to_le 2 v
  | FxU32 v => to_le 4 4 ++ to_le 4 v
  | FxI32 v => to_le 4 5 ++ to_le 4 v
  | FxF32 bits => to_le 4 6 ++ to_le 4 bits
  | FxBool v => to_le 4 7 ++ to_le 1 (if v then 1 else 0)
  | FxStr s => to_le 4 8 ++ write_string s
  | FxU64 v => to_le 4 10 ++ to_le 8 v
  | FxI64 v => to_le 4 11 ++ to_le 8 v
  | FxF64 bits => to_le 4 12 ++ to_le 8 bits
  | FxU32Array items => write_array_header 4 (length items) ++ concat (to_le 4 <$> items)
  | FxU64Array items => write_array_header 10 (length items) ++ concat (to_le 8 <$> items)
  | FxF32Array items => write_array_header 6 (length items) ++ concat (to_le 4 <$> items)
  | FxStrArray items => write_array_header 8 (length items) ++ concat (write_string <$> items)
  end.

Definition write_kv (kv : str * FixtureValue) : list byte :=
  write_string (fst kv) ++ write_value (snd kv).

(** [dims.iter().product()], which a release build wraps, and the bytes the
    writer gives the tensor. *)
Definition product (dims : list u64) : u64 := foldl wrapping_mul64 1 dims.
Definition data_bytes (t : FixtureTensor) : u64 :=
  default (product (fx_dims t)) (bytes_for_elements (fx_type t) (product (fx_dims t))).

Definition write_tensor (data_size : u64) (t : FixtureTensor) : list byte :=
  write_string (fx_name t) ++ to_le 4 (Z.of_nat (length (fx_dims t)))
  ++ concat (to_le 8 <$> fx_dims t) ++ to_le 4 (type_id (fx_type t)) ++ to_le 8 data_size.

(** The tensor loop: the entries, and the data they add up to. *)
Fixpoint write_tensors (data_size : u64) (ts : list FixtureTensor) : list byte * u64 :=
  match ts with
  | [] => ([], data_size)
  | t :: ts =>
      let '(bytes, total) := write_tensors (sat_add64 data_size (data_bytes t)) ts in
      (write_tensor data_size t ++ bytes, total)
  end.

Definition header (b : GgufBuilder) : list byte :=
  MAGIC ++ to_le 4 (b_version b) ++ to_le 8 (Z.of_nat (length (b_tensors b)))
  ++ to_le 8 (Z.of_nat (length (b_metadata b)))
  ++ concat (write_kv <$> b_metadata b) ++ fst (write_tensors 0 (b_tensors b)).

(** The padding up to the data section. *)
Definition padding (b : GgufBuilder) (len : Z) : nat :=
  if negb (bool_decide (b_tensors b = [])) && (0 <? b_alignment b)
  then let remainder := len mod b_alignment b in
       if remainder =? 0 then 0%nat else Z.to_nat (b_alignment b - remainder)
  else 0%nat.

(** [None] is the panic of the [assert!]. *)
Definition build (b : GgufBuilder) : option (list byte) :=
  let out := header b in
  let data_size := snd (write_tensors 0 (b_tensors b)) in
  let out := out ++ replicate (padding b (Z.of_nat (length out))) 0 in
  if data_size <=? MAX_FIXTURE_DATA_BYTES
  then Some (out ++ replicate (Z.to_nat data_size) 0)
  else None.

(** ** What the reader should give back *)

(** The value read back, when its type tag is at [off]. *)
Definition decoded (off : u64) (v : FixtureValue) : GgufValue :=
  let array t (n : nat) (bytes : Z) := VArray (mkArray t (Z.of_nat n) (off + 16) bytes) in
  match v with
  | FxU8 v => VU8 v | FxI8 v => VI8 v | FxU16 v => VU16 v | FxI16 v => VI16 v
  | FxU32 v => VU32 v | FxI32 v => VI32 v | FxU64 v => VU64 v | FxI64 v => VI64 v
  | FxF32 b => VF32 b | FxF64 b => VF64 b | FxBool b => VBool b | FxStr s => VString s
  | FxU32Array l => array VTU32 (length l) (4 * Z.of_nat (length l))
  | FxU64Array l => array VTU64 (length l) (8 * Z.of_nat (length l))
  | FxF32Array l => array VTF32 (length l) (4 * Z.of_nat (length l))
  | FxStrArray l => array VTString (length l) (Z.of_nat (length (concat (write_string <$> l))))
  end.

Definition blen (bs : list byte) : Z := Z.of_nat (length bs).

Fixpoint decoded_kvs (off : u64) (kvs : list (str * FixtureValue)) (m : gmap str GgufValue)
    : gmap str GgufValue :=
  match kvs with
  | [] => m
  | kv :: kvs =>
      decoded_kvs (off + blen (write_kv kv)) kvs
        (<[fst kv := decoded (off + blen (write_string (fst kv))) (snd kv)]> m)
  end.

Fixpoint decoded_tensors (data_size : u64) (ts : list FixtureTensor) : list TensorInfo :=
  match ts with
  | [] => []
  | t :: ts =>
      mkTensor (fx_name t) (fx_dims t ++ replicate (4 - length (fx_dims t)) 1)
        (Z.of_nat (length (fx_dims t))) (fx_type t) data_size
      :: decoded_tensors (sat_add64 data_size (data_bytes t)) ts
  end.

Definition decoded_file (b : GgufBuilder) (size : u64) : GgufFile :=
  mkFile (b_version b) (b_alignment b) (decoded_kvs 24 (b_metadata b) ∅)
    (decoded_tensors 0 (b_tensors b))
    (match b_tensors b with [] => blen (header b) | _ => align_up (blen (header b)) (b_alignment b) end)
    size.
