(* ===== verification/GgufRoundtrip.v ===== *)
(** * Reading back what was written

    The writer of [GgufFixture.v] and the reader of [Gguf.v] agree: a built
    file is read back as the header it was built from. *)

From stdpp Require Import base gmap strings numbers list.
From S2P Require Import Prelude Names Utf8 Ggml Gguf GgufFixture.

Section roundtrip.
Context (L : ReadLimits) (N : u64) (HI : N ≤ I64_MAX).

(** At [off], [m] reads exactly [bs] and gives [a], whatever follows. *)
Definition reads {A} (off : u64) (m : Reader A) (bs : list byte) (a : A) : Prop :=
  ∀ rest, 0 ≤ off → off + blen bs + blen rest = N →
    m (mkCursor (bs ++ rest) off N L) = Ok (a, mkCursor rest (off + blen bs) N L).

Lemma blen_app bs bs' : blen (bs ++ bs') = blen bs + blen bs'.
Proof. unfold blen. rewrite length_app. lia. Qed.

Lemma blen_nonneg bs : 0 ≤ blen bs.
Proof. unfold blen. lia. Qed.

Lemma blen_to_le n z : blen (to_le n z) = Z.of_nat n.
Proof. unfold blen. by rewrite length_to_le. Qed.

Lemma reads_bind {A B} off (m : Reader A) (k : A → Reader B) bs bs' a b :
  reads off m bs a → reads (off + blen bs) (k a) bs' b → reads off (m ≫= k) (bs ++ bs') b.
Proof.
  intros Hm Hk rest H0 HN. unfold mbind, Reader_bind. rewrite blen_app in *.
  pose proof (blen_nonneg bs). rewrite <-app_assoc. rewrite (Hm (bs' ++ rest));
    [|done|rewrite blen_app; lia].
  rewrite (Hk rest); [|lia..]. f_equal. f_equal. f_equal. lia.
Qed.

Lemma reads_ret {A} off (a : A) : reads off (mret a) [] a.
Proof. intros rest _ _. unfold mret, Reader_ret, blen. simpl. by rewrite Z.add_0_r. Qed.

(** An action that reads nothing before one that does. *)
Lemma reads_bind_nil {A B} off (m : Reader A) (k : A → Reader B) bs a b :
  reads off m [] a → reads off (k a) bs b → reads off (m ≫= k) bs b.
Proof.
  intros Hm Hk. rewrite <-(app_nil_l bs). eapply reads_bind; [exact Hm|].
  replace (off + blen []) with off by (unfold blen; simpl; lia). done.
Qed.

Lemma reads_bind_last {A B} off (m : Reader A) (k : A → Reader B) bs a b :
  reads off m bs a → reads (off + blen bs) (k a) [] b → reads off (m ≫= k) bs b.
Proof. intros Hm Hk. rewrite <-(app_nil_r bs). by eapply reads_bind. Qed.

Lemma reads_bind_ret {A B} off (m : Reader A) (f : A → B) bs a :
  reads off m bs a → reads off (x ← m; mret (f x)) bs (f a).
Proof. intros Hm. eapply reads_bind_last; [exact Hm|apply reads_ret]. Qed.

Lemma reads_cursor {B} off (k : Cursor → Reader B) bs b :
  (∀ c, offset c = off → limits c = L → file_size c = N → blen bs ≤ remaining c →
     reads off (k c) bs b) →
  reads off (get_cursor ≫= k) bs b.
Proof.
  intros Hk rest H0 HN. unfold mbind, Reader_bind, get_cursor. apply Hk; try done.
  unfold remaining, sat_sub. simpl. pose proof (blen_nonneg rest). pose proof (blen_nonneg bs). lia.
Qed.

Lemma reads_lift {A} off (r : result A GgufError) a : r = Ok a → reads off (lift r) [] a.
Proof. intros ->. apply reads_ret. Qed.

Lemma I64_U64 : I64_MAX ≤ U64_MAX.
Proof. unfold I64_MAX, U64_MAX. lia. Qed.

Lemma reads_array off n bs : blen bs = n → reads off (read_array n) bs bs.
Proof.
  intros Hn rest H0 HN. pose proof (blen_nonneg rest). pose proof (blen_nonneg bs).
  pose proof I64_U64. unfold read_array, mbind, Reader_bind, need, remaining, sat_sub. simpl.
  destruct (Z.ltb_spec (Z.max (N - off) 0) n); [lia|].
  unfold read_exact. simpl. unfold blen in *. rewrite length_app.
  destruct (Z.ltb_spec (Z.of_nat (length bs + length rest)) n); [lia|].
  replace (Z.to_nat n) with (length bs) by lia.
  rewrite take_app_length, drop_app_length. f_equal. f_equal. f_equal. unfold sat_add64. lia.
Qed.

Lemma reads_skip off bs : reads off (skip (blen bs)) bs tt.
Proof.
  intros rest H0 HN. pose proof (blen_nonneg rest). pose proof (blen_nonneg bs).
  pose proof I64_U64. unfold skip, mbind, Reader_bind, need, get_cursor, remaining, sat_sub. simpl.
  destruct (Z.ltb_spec (Z.max (N - off) 0) (blen bs)); [lia|].
  destruct (Z.ltb_spec I64_MAX (blen bs)); [lia|]. cbn [inner offset file_size limits].
  replace (Z.to_nat (blen bs)) with (length bs) by (unfold blen; lia).
  rewrite drop_app_length. f_equal. f_equal. f_equal. unfold sat_add64. lia.
Qed.

Lemma reads_le off n v :
  reads off (bs ← read_array (Z.of_nat n); mret (from_le bs)) (to_le n v) (v mod 256 ^ Z.of_nat n).
Proof.
  rewrite <-from_to_le_mod. apply reads_bind_ret. apply reads_array. apply blen_to_le.
Qed.

Lemma reads_u32 off v : in_u32 v → reads off read_u32 (to_le 4 v) v.
Proof.
  intros Hv. pose proof (reads_le off 4 v) as H. rewrite Z.mod_small in H; [done|].
  unfold in_u32, U32_MAX in Hv. lia.
Qed.

Lemma reads_u64 off v : in_u64 v → reads off read_u64 (to_le 8 v) v.
Proof.
  intros Hv. pose proof (reads_le off 8 v) as H. rewrite Z.mod_small in H; [done|].
  unfold in_u64, U64_MAX in Hv. lia.
Qed.

(** A string the writer may write: characters, within the ceiling. *)
Definition ok_str (s : str) : Prop :=
  Forall (λ c, is_char c = true) s ∧ blen (utf8_encode s) ≤ max_string_bytes L ∧
  blen (utf8_encode s) ≤ U32_MAX.

Lemma in_u64_small z : 0 ≤ z ≤ U32_MAX → in_u64 z.
Proof. unfold in_u64, U32_MAX, U64_MAX. lia. Qed.

Lemma reads_string off ctx s : ok_str s → reads off (read_string ctx) (write_string s) s.
Proof.
  intros (Hc & Hl & Hu). unfold read_string, write_string.
  eapply reads_bind; [apply reads_u64, in_u64_small; fold (blen (utf8_encode s)); pose proof (blen_nonneg (utf8_encode s)); lia|].
  apply reads_cursor. intros c Ho HL _ _. rewrite HL. fold (blen (utf8_encode s)).
  destruct (Z.ltb_spec (max_string_bytes L) (blen (utf8_encode s))); [lia|].
  eapply reads_bind_last; [by apply reads_array|].
  apply reads_lift. by rewrite utf8_roundtrip.
Qed.

(** ** Values *)

Definition signed (bits v : Z) : Prop := - 2 ^ (bits - 1) ≤ v < 2 ^ (bits - 1).
Definition unsigned (bits v : Z) : Prop := 0 ≤ v < 2 ^ bits.

(** A value the writer may write: every number within its type. *)
Definition ok_value (v : FixtureValue) : Prop :=
  match v with
  | FxU8 v => unsigned 8 v | FxI8 v => signed 8 v
  | FxU16 v => unsigned 16 v | FxI16 v => signed 16 v
  | FxU32 v | FxF32 v => unsigned 32 v | FxI32 v => signed 32 v
  | FxU64 v | FxF64 v => unsigned 64 v | FxI64 v => signed 64 v
  | FxBool _ => True
  | FxStr s => ok_str s
  | FxU32Array l | FxF32Array l => Z.of_nat (length l) ≤ U32_MAX
  | FxU64Array l => Z.of_nat (length l) ≤ U32_MAX
  | FxStrArray l => Z.of_nat (length l) ≤ U32_MAX ∧ Forall ok_str l
  end.

Lemma as_signed_mod bits v :
  1 ≤ bits → signed bits v → as_signed bits (v mod 2 ^ bits) = v.
Proof.
  intros Hb Hv. unfold as_signed, signed in *.
  assert (Hp : 2 ^ bits = 2 * 2 ^ (bits - 1)) by (rewrite <-Z.pow_succ_r by lia; f_equal; lia).
  assert (0 < 2 ^ (bits - 1)) by (apply Z.pow_pos_nonneg; lia).
  destruct (Z_lt_le_dec v 0).
  - rewrite <-(Z.mod_unique_pos v (2 ^ bits) (-1) (v + 2 ^ bits)) by lia.
    destruct (Z.ltb_spec (v + 2 ^ bits) (2 ^ (bits - 1))); lia.
  - rewrite Z.mod_small by lia. destruct (Z.ltb_spec v (2 ^ (bits - 1))); lia.
Qed.

Lemma blen_concat_fixed {A} (f : A → list byte) n l :
  (∀ x, blen (f x) = n) → blen (concat (f <$> l)) = n * Z.of_nat (length l).
Proof.
  intros Hf. induction l as [|x l IH]; [unfold blen; simpl; lia|].
  csimpl. rewrite blen_app, Hf, IH. lia.
Qed.

(** The tail of an array's summary, over elements of a fixed width. *)
Lemma reads_fixed_array off key et tag w items (bytes : list byte) :
  from_tag tag = Some et → in_u32 tag → fixed_width et = Some w → 0 < w →
  Z.of_nat (length (items : list Z)) ≤ U32_MAX → blen bytes = w * Z.of_nat (length items) →
  reads off (read_array_summary key) (to_le 4 tag ++ to_le 8 (Z.of_nat (length items)) ++ bytes)
    (mkArray et (Z.of_nat (length items)) (off + 12) (w * Z.of_nat (length items))).
Proof.
  intros Htag Hu Hw Hpos Hlen Hb.
  unfold read_array_summary. apply reads_cursor. intros c0 _ _ _ _.
  eapply reads_bind; [by apply reads_u32|].
  eapply reads_bind_nil; [apply reads_lift; by rewrite Htag|].
  eapply reads_bind_nil.
  { rewrite bool_decide_eq_false_2; [apply reads_ret|]. by intros ->. }
  eapply reads_bind; [apply reads_u64, in_u64_small; lia|].
  apply reads_cursor. intros c1 Ho1 HL1 _ Hrem. rewrite bool_decide_eq_false_2 by (by intros ->).
  eapply reads_bind_last.
  - eapply reads_bind_nil.
    + apply reads_lift. unfold fixed_array_byte_len. rewrite Hw. simpl. unfold checked_mul64.
      destruct (Z.leb_spec (w * Z.of_nat (length items)) U64_MAX); [done|].
      exfalso. destruct et; simplify_eq/=; unfold U64_MAX, U32_MAX in *; lia.
    + rewrite <-Hb. eapply reads_bind_last; [apply reads_skip|]. apply reads_ret.
  - rewrite Ho1, !blen_to_le. replace (off + Z.of_nat 4 + Z.of_nat 8) with (off + 12) by lia.
    rewrite Hb. apply reads_ret.
Qed.

Lemma reads_skip_strings off l :
  Forall ok_str l → reads off (skip_strings (length l)) (concat (write_string <$> l)) tt.
Proof.
  intros Hl. revert off. induction Hl as [|s l (Hc & Hs & Hu) Hl IH]; intros off; [apply reads_ret|].
  rewrite fmap_cons. cbn [concat length skip_strings]. unfold write_string at 1.
  rewrite <-app_assoc.
  eapply reads_bind; [apply reads_u64, in_u64_small; fold (blen (utf8_encode s));
    pose proof (blen_nonneg (utf8_encode s)); lia|].
  apply reads_cursor. intros c Ho HL _ _. rewrite HL. fold (blen (utf8_encode s)).
  destruct (Z.ltb_spec (max_string_bytes L) (blen (utf8_encode s))); [lia|].
  eapply reads_bind; [apply reads_skip|apply IH].
Qed.

Lemma blen_strings l : 8 * Z.of_nat (length l) ≤ blen (concat (write_string <$> l)).
Proof.
  induction l as [|s l IH]; [done|]. rewrite fmap_cons. cbn [concat length].
  rewrite blen_app. unfold write_string at 1. rewrite blen_app, blen_to_le. pose proof (blen_nonneg (utf8_encode s)). lia.
Qed.

Lemma reads_string_array off key l :
  Z.of_nat (length l) ≤ U32_MAX → Forall ok_str l →
  reads off (read_array_summary key)
    (to_le 4 8 ++ to_le 8 (Z.of_nat (length l)) ++ concat (write_string <$> l))
    (mkArray VTString (Z.of_nat (length l)) (off + 12) (blen (concat (write_string <$> l)))).
Proof.
  intros Hlen Hl. unfold read_array_summary. apply reads_cursor. intros c0 _ _ _ _.
  eapply reads_bind; [by apply reads_u32|].
  eapply reads_bind_nil; [by apply reads_lift|].
  eapply reads_bind_nil; [apply reads_ret|].
  eapply reads_bind; [apply reads_u64, in_u64_small; lia|].
  apply reads_cursor. intros c1 Ho1 HL1 _ Hrem. rewrite bool_decide_eq_true_2 by done.
  rewrite Nat2Z.id. eapply reads_bind_last.
  - eapply reads_bind_nil.
    + apply reads_lift. unfold ensure_fits. pose proof (blen_strings l).
      destruct (Z.ltb_spec (remaining c1) (sat_mul64 (Z.of_nat (length l)) 8)); [|done].
      unfold sat_mul64 in *. lia.
    + eapply reads_bind_last; [by apply reads_skip_strings|].
      apply reads_cursor. intros c2 Ho2 _ _ _. rewrite Ho2, Ho1. unfold sat_sub.
      pose proof (blen_nonneg (concat (write_string <$> l))).
      replace (Z.max _ 0) with (blen (concat (write_string <$> l))) by lia. apply reads_ret.
  - rewrite Ho1, !blen_to_le. replace (off + Z.of_nat 4 + Z.of_nat 8) with (off + 12) by lia.
    apply reads_ret.
Qed.

(** A scalar behind its tag: an integer of [n] bytes, then a constructor. *)
Lemma reads_scalar off n (mk : Z → GgufValue) v w :
  w = v mod 256 ^ Z.of_nat n →
  reads off (x ← (bs ← read_array (Z.of_nat n); mret (from_le bs)); mret (mk x)) (to_le n v) (mk w).
Proof. intros ->. apply reads_bind_ret, reads_le. Qed.

Lemma unsigned_small n v : unsigned (8 * Z.of_nat n) v → v = v mod 256 ^ Z.of_nat n.
Proof.
  intros Hv. unfold unsigned in Hv. rewrite Z.pow_mul_r in Hv by lia.
  symmetry. by apply Z.mod_small.
Qed.

Lemma reads_typed off key err v :
  ok_value v →
  reads off (tag ← read_u32;
             vt ← lift (ok_or (from_tag tag) (err tag));
             value ← read_value key vt;
             mret (key, value)) (write_value v) (key, decoded off v).
Proof.
  intros Hv.
  assert (Hshape : ∀ tag vt bytes a, in_u32 tag → from_tag tag = Some vt →
    reads (off + 4) (read_value key vt) bytes a →
    reads off (tag ← read_u32; vt ← lift (ok_or (from_tag tag) (err tag));
               value ← read_value key vt; mret (key, value)) (to_le 4 tag ++ bytes) (key, a)).
  { intros tag vt bytes a Hu Ht Hr. eapply reads_bind; [by apply reads_u32|].
    eapply reads_bind_nil; [apply reads_lift; by rewrite Ht|].
    eapply reads_bind_last; [rewrite blen_to_le; exact Hr|apply reads_ret]. }
  destruct v as [v|v|v|v|v|v|v|v|v|v|v|s|l|l|l|l]; unfold write_value, write_array_header;
    rewrite <-?app_assoc; (eapply Hshape; [by vm_compute|reflexivity|]); cbn [ok_value] in Hv; cbn [read_value decoded].
  - by apply (reads_scalar _ 1 VU8), unsigned_small.
  - rewrite <-(as_signed_mod 8 v) at 2 by (done || lia).
    by apply (reads_scalar _ 1 (λ x, VI8 (as_signed 8 x))).
  - by apply (reads_scalar _ 2 VU16), unsigned_small.
  - rewrite <-(as_signed_mod 16 v) at 2 by (done || lia).
    by apply (reads_scalar _ 2 (λ x, VI16 (as_signed 16 x))).
  - by apply (reads_scalar _ 4 VU32), unsigned_small.
  - rewrite <-(as_signed_mod 32 v) at 2 by (done || lia).
    by apply (reads_scalar _ 4 (λ x, VI32 (as_signed 32 x))).
  - by apply (reads_scalar _ 8 VU64), unsigned_small.
  - rewrite <-(as_signed_mod 64 v) at 2 by (done || lia).
    by apply (reads_scalar _ 8 (λ x, VI64 (as_signed 64 x))).
  - by apply (reads_scalar _ 4 VF32), unsigned_small.
  - by apply (reads_scalar _ 8 VF64), unsigned_small.
  - destruct v.
    + by apply (reads_scalar _ 1 (λ x, VBool (negb (x =? 0))) 1 1).
    + by apply (reads_scalar _ 1 (λ x, VBool (negb (x =? 0))) 0 0).
  - by apply reads_bind_ret, reads_string.
  - replace (off + 16) with (off + 4 + 12) by lia. apply (reads_bind_ret _ _ VArray).
    apply (reads_fixed_array _ key VTU32 4 4); try done. by apply blen_concat_fixed, blen_to_le.
  - replace (off + 16) with (off + 4 + 12) by lia. apply (reads_bind_ret _ _ VArray).
    apply (reads_fixed_array _ key VTU64 10 8); try done. by apply blen_concat_fixed, blen_to_le.
  - replace (off + 16) with (off + 4 + 12) by lia. apply (reads_bind_ret _ _ VArray).
    apply (reads_fixed_array _ key VTF32 6 4); try done. by apply blen_concat_fixed, blen_to_le.
  - replace (off + 16) with (off + 4 + 12) by lia. apply (reads_bind_ret _ _ VArray).
    apply reads_string_array; naive_solver.
Qed.

Definition ok_kv (kv : str * FixtureValue) : Prop := ok_str (fst kv) ∧ ok_value (snd kv).

Lemma reads_kv off kv :
  ok_kv kv →
  reads off read_kv (write_kv kv)
    (fst kv, decoded (off + blen (write_string (fst kv))) (snd kv)).
Proof.
  intros [Hk Hv]. unfold read_kv, write_kv. eapply reads_bind; [by apply reads_string|].
  apply reads_cursor. intros c _ _ _ _.
  by apply (reads_typed _ _ (λ tag, EUnknownValueType (fst kv) tag (offset c))).
Qed.

Lemma reads_budget off : off ≤ max_metadata_bytes L → reads off check_metadata_budget [] tt.
Proof.
  intros Hle rest H0 HN. unfold check_metadata_budget. simpl.
  destruct (Z.ltb_spec (max_metadata_bytes L) off); [lia|]. unfold blen. simpl.
  by rewrite Z.add_0_r.
Qed.

Lemma reads_kvs off kvs m :
  Forall ok_kv kvs → off + blen (concat (write_kv <$> kvs)) ≤ max_metadata_bytes L →
  reads off (read_kvs (length kvs) m) (concat (write_kv <$> kvs)) (decoded_kvs off kvs m).
Proof.
  intros Hk. revert off m. induction Hk as [|kv kvs Hkv Hk IH]; intros off m Hmax; [apply reads_ret|].
  rewrite fmap_cons in *. cbn [concat length read_kvs decoded_kvs] in *. rewrite blen_app in Hmax.
  pose proof (blen_nonneg (concat (write_kv <$> kvs))).
  eapply reads_bind; [by apply reads_kv|].
  eapply reads_bind_nil; [apply reads_budget; lia|]. apply IH. lia.
Qed.

(** ** Tensors *)

(** A tensor the writer may write. *)
Definition ok_tensor (t : FixtureTensor) : Prop :=
  ok_str (fx_name t) ∧ (length (fx_dims t) ≤ 4)%nat ∧ Forall in_u64 (fx_dims t) ∧
  is_Some (elements_of (fx_dims t ++ replicate (4 - length (fx_dims t)) 1)) ∧
  in_u32 (type_id (fx_type t)) ∧ from_id (type_id (fx_type t)) = fx_type t.

Lemma reads_dims off ds :
  Forall in_u64 ds → reads off (read_dims (length ds)) (concat (to_le 8 <$> ds)) ds.
Proof.
  intros Hd. revert off. induction Hd as [|d ds Hd _ IH]; intros off; [apply reads_ret|].
  rewrite fmap_cons. cbn [concat length read_dims]. eapply reads_bind; [by apply reads_u64|].
  eapply reads_bind_last; [apply IH|apply reads_ret].
Qed.

Lemma reads_tensor off ds t :
  ok_tensor t → in_u64 ds →
  reads off read_tensor_info (write_tensor ds t)
    (mkTensor (fx_name t) (fx_dims t ++ replicate (4 - length (fx_dims t)) 1)
       (Z.of_nat (length (fx_dims t))) (fx_type t) ds).
Proof.
  intros (Hn & Hl & Hd & [e He] & Hu & Hid) Hds. unfold read_tensor_info, write_tensor.
  eapply reads_bind; [by apply reads_string|].
  eapply reads_bind; [apply reads_u32; unfold in_u32, U32_MAX; lia|].
  eapply reads_bind_nil.
  { unfold MAX_DIMS. destruct (Z.ltb_spec 4 (Z.of_nat (length (fx_dims t)))); [lia|]. apply reads_ret. }
  rewrite Nat2Z.id. eapply reads_bind; [by apply reads_dims|].
  eapply reads_bind; [by apply reads_u32|].
  eapply reads_bind_last; [by apply reads_u64|].
  cbv zeta. unfold elements. cbn [t_dims]. rewrite He, Hid. apply reads_ret.
Qed.

Lemma sat_add64_in a b : in_u64 a → 0 ≤ b → in_u64 (sat_add64 a b).
Proof. unfold in_u64, sat_add64, U64_MAX. lia. Qed.

Lemma data_bytes_nonneg t : 0 ≤ data_bytes t.
Proof.
  assert (Hp : ∀ acc, 0 ≤ acc → 0 ≤ foldl wrapping_mul64 acc (fx_dims t)).
  { induction (fx_dims t) as [|d ds IH]; intros acc Hacc; simpl; [done|]. apply IH.
    unfold wrapping_mul64. apply Z.mod_pos_bound. lia. }
  unfold data_bytes, bytes_for_elements, product. destruct (block_size (fx_type t)), (type_size (fx_type t)); simpl;
    try (apply Hp; lia). unfold wrapping_mul64. apply Z.mod_pos_bound. lia.
Qed.

Lemma reads_tensors off ds ts :
  Forall ok_tensor ts → in_u64 ds →
  off + blen (fst (write_tensors ds ts)) ≤ max_metadata_bytes L →
  reads off (read_tensors (length ts)) (fst (write_tensors ds ts)) (decoded_tensors ds ts).
Proof.
  intros Ht. revert off ds. induction Ht as [|t ts Ht _ IH]; intros off ds Hds Hmax; [apply reads_ret|].
  cbn [write_tensors length read_tensors decoded_tensors] in *.
  specialize (IH (off + blen (write_tensor ds t)) (sat_add64 ds (data_bytes t))).
  destruct (write_tensors (sat_add64 ds (data_bytes t)) ts) as [bytes total]. cbn [fst snd] in *.
  rewrite blen_app in Hmax. pose proof (blen_nonneg bytes).
  eapply reads_bind; [by apply reads_tensor|].
  eapply reads_bind_nil; [apply reads_budget; lia|].
  eapply reads_bind_last; [|apply reads_ret].
  apply IH; [apply sat_add64_in; [done|apply data_bytes_nonneg]|lia].
Qed.

(** ** The data the header declares is there *)

Lemma checked_product ds a e :
  in_u64 a → Forall in_u64 ds →
  foldl (fun acc d => let! a := acc in checked_mul64 a d) (Some a) ds = Some e →
  foldl wrapping_mul64 a ds = e ∧ in_u64 e.
Proof.
  intros Ha Hd. revert a Ha. induction Hd as [|d ds Hd _ IH]; intros a Ha; simpl.
  { by intros [= <-]. }
  unfold checked_mul64 at 2. destruct (Z.leb_spec (a * d) U64_MAX) as [Hle|Hgt].
  - assert (Hw : wrapping_mul64 a d = a * d).
    { unfold wrapping_mul64. apply Z.mod_small. unfold in_u64, U64_MAX in *. nia. }
    rewrite Hw. apply IH. unfold in_u64 in *. nia.
  - intros H. exfalso. clear -H. induction ds; simpl in H; [done|auto].
Qed.

Lemma elements_product t :
  ok_tensor t →
  elements_of (fx_dims t ++ replicate (4 - length (fx_dims t)) 1) = Some (product (fx_dims t)).
Proof.
  intros (_ & _ & Hd & [e He] & _). rewrite He. f_equal.
  assert (H1 : Forall in_u64 (replicate (4 - length (fx_dims t)) 1)).
  { apply Forall_replicate. unfold in_u64, U64_MAX. lia. }
  unfold elements_of in He. apply checked_product in He as [He _];
    [|unfold in_u64, U64_MAX; lia|by apply Forall_app].
  rewrite foldl_app in He. fold (product (fx_dims t)) in He. rewrite <-He.
  assert (Hp : in_u64 (product (fx_dims t))).
  { unfold product. clear. assert (Hgen : ∀ acc, in_u64 acc → in_u64 (foldl wrapping_mul64 acc (fx_dims t))).
    { induction (fx_dims t) as [|d ds IH]; intros acc Hacc; simpl; [done|]. apply IH.
      unfold wrapping_mul64, in_u64, U64_MAX. pose proof (Z.mod_pos_bound (acc * d) (2 ^ 64)). lia. }
    apply Hgen. unfold in_u64, U64_MAX. lia. }
  clear -Hp. induction (4 - length (fx_dims t))%nat as [|k IH]; simpl; [done|].
  unfold wrapping_mul64 at 2. rewrite Z.mul_1_r, Z.mod_small; [done|].
  unfold in_u64, U64_MAX in Hp. lia.
Qed.

Lemma write_tensors_mono ds ts :
  ds ≤ U64_MAX → ds ≤ snd (write_tensors ds ts) ≤ U64_MAX.
Proof.
  revert ds. induction ts as [|t ts IH]; intros ds Hds; simpl; [lia|].
  specialize (IH (sat_add64 ds (data_bytes t)) ltac:(unfold sat_add64; lia)).
  destruct (write_tensors _ ts). simpl in *. pose proof (data_bytes_nonneg t).
  unfold sat_add64 in *. lia.
Qed.

Lemma tensor_in_data ds ts t size :
  Forall ok_tensor ts → in_u64 ds → snd (write_tensors ds ts) < U64_MAX →
  t ∈ decoded_tensors ds ts → byte_size t = Some size →
  ds ≤ t_offset t ∧ 0 ≤ size ∧ t_offset t + size ≤ snd (write_tensors ds ts).
Proof.
  intros Hok. revert ds. induction Hok as [|x ts Hx _ IH]; intros ds Hds Htot Hin Hsize.
  { by apply not_elem_of_nil in Hin. }
  cbn [decoded_tensors write_tensors] in *. pose proof (data_bytes_nonneg x) as Hnn.
  pose proof (write_tensors_mono (sat_add64 ds (data_bytes x)) ts
    ltac:(unfold sat_add64; lia)) as Hm.
  specialize (IH (sat_add64 ds (data_bytes x)) ltac:(by apply sat_add64_in)).
  destruct (write_tensors (sat_add64 ds (data_bytes x)) ts) as [bytes total]. cbn [fst snd] in *.
  apply elem_of_cons in Hin as [->|Hin].
  - cbn [t_offset]. unfold byte_size, elements in Hsize. cbn [t_dims ggml_type] in Hsize.
    rewrite elements_product in Hsize by done. simpl in Hsize.
    assert (Hd : data_bytes x = size) by (unfold data_bytes; by rewrite Hsize).
    unfold sat_add64, in_u64 in *. lia.
  - destruct (IH Htot Hin Hsize). unfold sat_add64 in *. lia.
Qed.

Lemma resolve_alignment_pos m a : resolve_alignment m = Ok a → 0 < a.
Proof.
  unfold resolve_alignment. destruct (m !! ALIGNMENT_KEY) as [v|]; [|by intros [= <-]].
  destruct (as_u64 v) as [x|]; simpl; [|done]. unfold is_power_of_two.
  destruct ((x =? 0) || _) eqn:E; [done|]. intros [= <-]. lia.
Qed.

Lemma align_up_padding b len :
  b_tensors b ≠ [] → 0 < b_alignment b → 0 ≤ len →
  len + Z.of_nat (padding b len) ≤ U64_MAX →
  align_up len (b_alignment b) = len + Z.of_nat (padding b len).
Proof.
  intros Ht Ha Hl Hfit. unfold align_up, checked_rem, padding in *.
  rewrite (bool_decide_eq_false_2 (b_tensors b = [])) in * by done.
  destruct (Z.eqb_spec (b_alignment b) 0); [lia|].
  destruct (Z.ltb_spec 0 (b_alignment b)); [|lia]. simpl in *.
  pose proof (Z.mod_pos_bound len (b_alignment b) Ha) as Hm.
  destruct (Z.eqb_spec (len mod b_alignment b) 0) as [Hz|Hz].
  - rewrite Hz. lia.
  - destruct (len mod b_alignment b) eqn:Er; try lia. unfold sat_add64, sat_sub. lia.
Qed.

(** ** The whole file *)

(** A builder whose file the reader accepts under the limits [L]. *)
Record ok_builder (b : GgufBuilder) : Prop := {
  ok_version : 2 ≤ b_version b ≤ 3;
  ok_kvs : Forall ok_kv (b_metadata b);
  ok_tensors : Forall ok_tensor (b_tensors b);
  ok_counts : Z.of_nat (length (b_metadata b)) ≤ U32_MAX ∧
              Z.of_nat (length (b_tensors b)) ≤ U32_MAX;
  ok_header : blen (header b) ≤ max_metadata_bytes L;
  ok_alignment :
    resolve_alignment (decoded_kvs 24 (b_metadata b) ∅) = Ok (b_alignment b) }.

Lemma verify_decoded b f :
  ok_builder b → build b = Some f → blen f ≤ I64_MAX →
  verify_tensor_data_present (decoded_file b (blen f)) = Ok tt.
Proof.
  intros [_ _ Hts _ _ Hal] Hb Hfit. unfold build in Hb.
  destruct (Z.leb_spec (snd (write_tensors 0 (b_tensors b))) MAX_FIXTURE_DATA_BYTES) as [Hmax|];
    [|done].
  set (total := snd (write_tensors 0 (b_tensors b))) in *.
  apply resolve_alignment_pos in Hal. pose proof I64_U64.
  pose proof (write_tensors_mono 0 (b_tensors b) ltac:(unfold U64_MAX; lia)) as Hm. fold total in Hm.
  assert (Hsize : blen f = blen (header b) + Z.of_nat (padding b (blen (header b))) + total).
  { assert (Hf : f = (header b ++ replicate (padding b (Z.of_nat (length (header b)))) 0)
      ++ replicate (Z.to_nat total) 0) by congruence.
    rewrite Hf, !blen_app. unfold blen at 2 3. rewrite !length_replicate. unfold blen. lia. }
  rewrite Hsize in Hfit |- *. clear Hsize Hb. pose proof (blen_nonneg (header b)).
  unfold verify_tensor_data_present. cbn [f_tensors decoded_file].
  assert (Hall : ∀ t, t ∈ decoded_tensors 0 (b_tensors b) → verify_one
    (decoded_file b (blen (header b) + Z.of_nat (padding b (blen (header b))) + total)) t = Ok tt).
  { intros t Hin. unfold verify_one. destruct (byte_size t) as [size|] eqn:Es; [|done].
    destruct (tensor_in_data 0 (b_tensors b) t size) as (H1 & H2 & H3); try done.
    { fold total. unfold MAX_FIXTURE_DATA_BYTES, U64_MAX in *. lia. }
    fold total in H3. cbn [data_offset f_file_size decoded_file].
    assert (Hdo : match b_tensors b with [] => blen (header b)
                  | _ => align_up (blen (header b)) (b_alignment b) end
                  = blen (header b) + Z.of_nat (padding b (blen (header b)))).
    { destruct (b_tensors b) eqn:Et; [by apply not_elem_of_nil in Hin|].
      apply align_up_padding; [by rewrite Et|done|done|lia]. }
    rewrite Hdo. match goal with |- context [?x <? ?y] => destruct (Z.ltb_spec x y) end; [|done].
    unfold sat_add64 in *. lia. }
  clear -Hall. induction (decoded_tensors 0 (b_tensors b)) as [|t ts IH]; [done|]. simpl.
  rewrite Hall by apply list_elem_of_here. simpl. apply IH. intros. apply Hall.
  by apply list_elem_of_further.
Qed.

Lemma blen_kvs kvs : 12 * Z.of_nat (length kvs) ≤ blen (concat (write_kv <$> kvs)).
Proof.
  induction kvs as [|[k v] kvs IH]; [done|]. rewrite fmap_cons. cbn [concat length].
  rewrite blen_app. unfold write_kv at 1. cbn [fst snd]. rewrite blen_app.
  assert (8 ≤ blen (write_string k)).
  { unfold write_string. rewrite blen_app, blen_to_le. pose proof (blen_nonneg (utf8_encode k)). lia. }
  assert (4 ≤ blen (write_value v)).
  { unfold write_value, write_array_header. destruct v; rewrite <-?app_assoc, blen_app, blen_to_le;
      match goal with |- _ ≤ _ + blen ?x => pose proof (blen_nonneg x) end; lia. }
  lia.
Qed.

Lemma blen_tensors ds ts : 24 * Z.of_nat (length ts) ≤ blen (fst (write_tensors ds ts)).
Proof.
  revert ds. induction ts as [|t ts IH]; intros ds; [done|]. cbn [write_tensors].
  specialize (IH (sat_add64 ds (data_bytes t))). destruct (write_tensors _ ts) as [bytes total].
  cbn [fst length] in *. rewrite blen_app. unfold write_tensor, write_string.
  rewrite !blen_app, !blen_to_le. pose proof (blen_nonneg (utf8_encode (fx_name t))).
  pose proof (blen_nonneg (concat (to_le 8 <$> fx_dims t))). lia.
Qed.

Lemma reads_fits {B} off what n k bs (r : unit → Reader B) b :
  0 ≤ n → k * n ≤ blen bs → reads off (r tt) bs b →
  reads off (c ← get_cursor;
             lift (ensure_fits what (sat_mul64 n k) (remaining c) (offset c)) ≫= r) bs b.
Proof.
  intros Hn Hk Hr. apply reads_cursor. intros c _ _ _ Hrem.
  eapply reads_bind_nil; [|exact Hr]. apply reads_lift. unfold ensure_fits.
  destruct (Z.ltb_spec (remaining c) (sat_mul64 n k)); [|done]. unfold sat_mul64 in *. lia.
Qed.

(** Everything before the data section. *)
Lemma reads_parse b :
  ok_builder b → reads 0 (parse false) (header b) (decoded_file b N).
Proof.
  intros [Hv Hk Ht [Hc1 Hc2] Hh Ha].
  assert (Hlen : blen (header b) = 24 + blen (concat (write_kv <$> b_metadata b))
                                   + blen (fst (write_tensors 0 (b_tensors b)))).
  { unfold header. rewrite !blen_app, !blen_to_le. change (blen MAGIC) with 4. lia. }
  pose proof (blen_kvs (b_metadata b)) as Hkv. pose proof (blen_tensors 0 (b_tensors b)) as Htn.
  pose proof (blen_nonneg (concat (write_kv <$> b_metadata b))).
  pose proof (blen_nonneg (fst (write_tensors 0 (b_tensors b)))).
  unfold parse, header.
  eapply reads_bind; [by apply reads_array|].
  eapply reads_bind_nil; [rewrite bool_decide_eq_true_2 by done; apply reads_ret|].
  eapply reads_bind; [apply reads_u32; unfold in_u32, U32_MAX; lia|].
  eapply reads_bind_nil.
  { replace ((MIN_VERSION <=? b_version b) && (b_version b <=? MAX_VERSION)) with true
      by (unfold MIN_VERSION, MAX_VERSION; lia). apply reads_ret. }
  eapply reads_bind; [apply reads_u64, in_u64_small; lia|].
  eapply reads_bind; [apply reads_u64, in_u64_small; lia|].
  apply reads_fits; [lia|rewrite blen_app; unfold MIN_KV_BYTES; lia|].
  rewrite !blen_to_le, !Nat2Z.id. change (0 + blen MAGIC + Z.of_nat 4 + Z.of_nat 8 + Z.of_nat 8) with 24.
  eapply reads_bind; [apply reads_kvs; [done|lia]|].
  eapply reads_bind_nil; [by apply reads_lift|].
  apply reads_fits; [lia|unfold MIN_TENSOR_BYTES; lia|].
  eapply reads_bind_last.
  { apply reads_tensors; [done|unfold in_u64, U64_MAX; lia|lia]. }
  apply reads_cursor. intros c3 Ho _ Hs _. rewrite Hs, Ho.
  eapply reads_bind_nil; [apply reads_ret|].
  assert (Hdo : match decoded_tensors 0 (b_tensors b) with
    | [] => 24 + blen (concat (write_kv <$> b_metadata b))
            + blen (fst (write_tensors 0 (b_tensors b)))
    | _ => align_up (24 + blen (concat (write_kv <$> b_metadata b))
            + blen (fst (write_tensors 0 (b_tensors b)))) (b_alignment b) end
    = data_offset (decoded_file b N)).
  { unfold decoded_file. cbn [data_offset]. rewrite Hlen. by destruct (b_tensors b). }
  rewrite Hdo. apply reads_ret.
Qed.
End roundtrip.

(** [parse] with the check of the data is [parse] without, then the check. *)
Lemma parse_verify c :
  parse true c = match parse false c with
                 | Ok (f, c') => match verify_tensor_data_present f with
                                 | Ok _ => Ok (f, c')
                                 | Err e => Err e
                                 end
                 | Err e => Err e
                 end.
Proof.
  unfold parse, mbind, Reader_bind, mret, Reader_ret, lift, get_cursor.
  repeat (case_match; try done). all: simplify_eq; congruence.
Qed.
