(* ===== verification/GgufVerify.v ===== *)
(** * What an opened model file promises

    The check of [verify_tensor_data_present] in
    [crates/lightweight-gguf/src/reader.rs]: what it shows of a file that
    opened, where the arithmetic under it gives way, and a file the writer
    and the reader agree on. *)

From stdpp Require Import base gmap strings numbers list.
From S2P Require Import Prelude Names Utf8 Ggml Gguf GgufSafety GgufFixture GgufRoundtrip.

(** ** Lemmas *)

(** [Ok] of the loop is [Ok] of every tensor. *)
Lemma verify_tensors_Ok f ts t :
  verify_tensors f ts = Ok tt → t ∈ ts → verify_one f t = Ok tt.
Proof.
  induction ts as [|u ts IH]; [by intros _ ?%not_elem_of_nil|]. simpl.
  destruct (verify_one f u) as [[]|] eqn:E; [|done]. simpl. intros H.
  by intros [->|?]%elem_of_cons; [|apply IH].
Qed.

Lemma verify_one_bound f t size :
  f_file_size f < U64_MAX → in_u64 (t_offset t) → 0 ≤ data_offset f → 0 ≤ size →
  byte_size t = Some size → verify_one f t = Ok tt →
  data_offset f + t_offset t + size ≤ f_file_size f.
Proof.
  intros Hf Ho Hd Hs Hb. unfold verify_one. rewrite Hb.
  match goal with |- context [?x <? ?y] => destruct (Z.ltb_spec x y) as [?|Hle] end; [done|].
  intros _. unfold sat_add64 in Hle. lia.
Qed.

(** Rounding up lands on a multiple and goes no further than it must, unless
    the sum is cut off at the largest offset. *)
Lemma align_up_spec offset alignment :
  0 ≤ offset → 0 < alignment → align_up offset alignment < U64_MAX →
  align_up offset alignment mod alignment = 0 ∧
  offset ≤ align_up offset alignment < offset + alignment.
Proof.
  intros Ho Ha. unfold align_up, checked_rem. destruct (Z.eqb_spec alignment 0); [lia|].
  pose proof (Z.mod_pos_bound offset alignment Ha) as Hm.
  destruct (offset mod alignment) as [|r|r] eqn:Er; [by rewrite Er; lia| |lia].
  unfold sat_add64, sat_sub. intros Hlt.
  replace (Z.min (offset + Z.max (alignment - Zpos r) 0) U64_MAX)
    with (offset - Zpos r + alignment) in * by lia.
  split; [|lia]. rewrite <-Er, Z.add_mod, Zminus_mod_idemp_r, Z.sub_diag by lia.
  rewrite Z.mod_same by lia. reflexivity.
Qed.

Lemma open_inner_verified file lim f :
  open_inner file lim true = Ok f →
  open_inner file lim false = Ok f ∧ verify_tensor_data_present f = Ok tt.
Proof.
  unfold open_inner. rewrite parse_verify. destruct (parse false _) as [[g c]|]; [|done].
  destruct (verify_tensor_data_present g) as [[]|] eqn:Hv; [|done]. simpl. by intros [= <-].
Qed.

Lemma open_inner_accepted file lim f :
  Forall is_byte file → blen file ≤ U64_MAX →
  open_inner file lim false = Ok f → accepted (blen file) lim f.
Proof.
  intros Hb Hn Ho. unfold blen in *. pose proof (open_inner_cases file lim Hb Hn) as H.
  by rewrite Ho in H.
Qed.

(** The size of a tensor of a known type, while it fits. *)
Lemma byte_size_fits t e bs ts :
  elements t = Some e → block_size (ggml_type t) = Some bs → type_size (ggml_type t) = Some ts →
  0 ≤ div_ceil e bs * ts ≤ U64_MAX → byte_size t = Some (div_ceil e bs * ts).
Proof.
  intros He Hb Ht Hfit. unfold byte_size, bytes_for_elements. rewrite He. simpl. rewrite Hb, Ht.
  unfold wrapping_mul64. rewrite Z.mod_small; [done|]. unfold U64_MAX in Hfit. lia.
Qed.

(** A small model: three keys, an alignment of its own and two tensors. *)
Definition tiny : GgufBuilder :=
  builder_tensor
    (builder_tensor
       (builder_kv
          (builder_kv (builder_alignment GgufBuilder_new 64)
             (lit "general.architecture") (FxStr (lit "llama")))
          (lit "tokenizer.ggml.tokens") (FxStrArray [lit "a"; lit "bc"]))
       (lit "token_embd.weight") [32; 2] Q4_0)
    (lit "output_norm.weight") [3] F32.

(** Closes the range and length conditions of [ok_builder] by evaluation. *)
Ltac solve_ok_str :=
  first [ done | lia | by vm_compute | by eexists; vm_compute
        | vm_compute; discriminate | vm_compute; lia ].

Definition tiny_file : list byte := default [] (build tiny).

(** Bytes, decided by evaluation. *)
Lemma bytes_dec l : forallb (fun b => (0 <=? b) && (b <? 256)) l = true → Forall is_byte l.
Proof.
  rewrite forallb_forall. intros H. apply Forall_forall. intros x Hx%list_elem_of_In%H.
  unfold is_byte. lia.
Qed.

(** ** Properties *)

(** C37: the writer and the reader of the format agree.  For every builder
    within the reader's limits, whatever its metadata and tensors, opening
    the built file succeeds and gives back exactly its version, alignment,
    every key with its value (an array as its type, length and place),
    every tensor with its extents, type and offset, and the start of the
    data section; the check that the data is there passes. *)
Theorem gguf_roundtrip L b file :
  ok_builder L b → build b = Some file → blen file ≤ I64_MAX →
  open_inner file L true = Ok (decoded_file b (blen file)).
Proof.
  intros Hok Hb HI. unfold open_inner.
  assert (Hf : ∃ tail, file = header b ++ tail).
  { unfold build in Hb. case_match; [|done]. injection Hb as <-. rewrite <-app_assoc. by eexists. }
  destruct Hf as [tail Hf].
  pose proof (reads_parse L (blen file) HI b Hok tail ltac:(lia)) as Hp.
  rewrite Hf, blen_app in Hp. specialize (Hp ltac:(lia)). rewrite <-blen_app, <-Hf in Hp.
  rewrite parse_verify. unfold blen in Hp at 1. rewrite Hp.
  rewrite (verify_decoded L b file Hok Hb HI). done.
Qed.

Lemma gguf_roundtrip_witness :
  open_inner tiny_file ReadLimits_default true = Ok (decoded_file tiny (blen tiny_file)).
Proof.
  apply (gguf_roundtrip ReadLimits_default tiny tiny_file).
  - split.
    + split; vm_compute; discriminate.
    + repeat constructor; simpl; solve_ok_str.
    + repeat constructor; simpl; solve_ok_str.
    + split; vm_compute; discriminate.
    + vm_compute. discriminate.
    + vm_compute. reflexivity.
  - vm_compute. reflexivity.
  - vm_compute. discriminate.
Defined.

(** An opened file holds the weights it declares.  When [open] accepts a
    file, the whole of every tensor of a known type whose size fits in 64
    bits lies between an aligned start of the data section and the end of the
    file: a download cut short anywhere in such a tensor is refused. *)
Theorem opened_weights_present file lim f t e bs ts :
  Forall is_byte file → blen file < U64_MAX → open_inner file lim true = Ok f →
  t ∈ f_tensors f → elements t = Some e →
  block_size (ggml_type t) = Some bs → type_size (ggml_type t) = Some ts →
  div_ceil e bs * ts ≤ U64_MAX →
  data_offset f mod f_alignment f = 0 ∧
  data_offset f + t_offset t + div_ceil e bs * ts ≤ blen file.
Proof.
  intros Hb Hn [Ho Hv]%open_inner_verified Ht He Hbs Hts Hfit.
  apply open_inner_accepted in Ho as ((_ & [Hsz _] & HN & _ & Hal) & h & Hh & _ & Hd); [|done|lia].
  rewrite Forall_forall in Hsz. destruct (Hsz t Ht) as (_ & _ & Hdims & Hoff & _).
  apply resolve_alignment_pos in Hal.
  assert (Hd' : data_offset f = align_up h (f_alignment f)).
  { destruct (f_tensors f); [by apply not_elem_of_nil in Ht|done]. }
  assert (Hda : 0 ≤ data_offset f).
  { rewrite Hd'. unfold align_up, checked_rem, sat_add64, sat_sub.
    destruct (f_alignment f =? 0); [lia|]. destruct (h mod f_alignment f); unfold U64_MAX; lia. }
  assert (He0 : 0 ≤ e).
  { unfold elements, elements_of in He. apply checked_product in He as [_ He]; [|unfold in_u64, U64_MAX; lia|done].
    unfold in_u64 in He. lia. }
  pose proof (type_tables_agree (ggml_type t)) as Htab. rewrite Hbs, Hts in Htab.
  destruct (div_ceil_spec e bs He0) as [Hlo _]; [lia|].
  assert (0 ≤ div_ceil e bs * ts) by nia.
  assert (Hend : data_offset f + t_offset t + div_ceil e bs * ts ≤ f_file_size f).
  { apply verify_one_bound; [lia|done|done|lia| |by eapply verify_tensors_Ok].
    by apply byte_size_fits. }
  split; [|lia]. rewrite Hd'. apply align_up_spec; [lia|done|]. unfold in_u64 in Hoff. lia.
Qed.

Definition tiny_norm : TensorInfo :=
  mkTensor (lit "output_norm.weight") [3; 1; 1; 1] 1 F32 36.

Lemma opened_weights_present_witness :
  data_offset (decoded_file tiny 368) mod 64 = 0 ∧
  data_offset (decoded_file tiny 368) + t_offset tiny_norm + div_ceil 3 1 * 4 ≤ blen tiny_file.
Proof.
  apply (opened_weights_present tiny_file ReadLimits_default (decoded_file tiny 368) tiny_norm 3 1 4).
  - apply bytes_dec. vm_compute. reflexivity.
  - vm_compute. reflexivity.
  - vm_compute. reflexivity.
  - apply list_elem_of_lookup_2 with 1%nat. vm_compute. reflexivity.
  - reflexivity.
  - reflexivity.
  - reflexivity.
  - vm_compute. discriminate.
Defined.

(** The header of a model of one F32 tensor of 2^31 by 2^31 elements, padded
    to its data section, with no data. *)
Definition phantom_file : list byte :=
  MAGIC ++ to_le 4 3 ++ to_le 8 1 ++ to_le 8 0
  ++ write_string (lit "w") ++ to_le 4 2 ++ to_le 8 (2 ^ 31) ++ to_le 8 (2 ^ 31)
  ++ to_le 4 0 ++ to_le 8 0 ++ replicate 31 0.

Definition phantom : GgufFile :=
  mkFile 3 32 ∅ [mkTensor (lit "w") [2 ^ 31; 2 ^ 31; 1; 1] 2 F32 0] 96 96.

(** An opened file may hold none of its weights.  A file of 96 bytes
    that declares one F32 tensor of 2^31 by 2^31 elements, 2^64 bytes of
    weights, is accepted with the data check on: the tensor's size wraps to
    zero, so the check passes and the total of the weights is 0 bytes. *)
Theorem phantom_weights_accepted :
  open phantom_file = Ok phantom ∧ blen phantom_file = 96 ∧
  parameter_count phantom = Some (2 ^ 62) ∧ weight_bytes phantom = Some 0 ∧
  div_ceil (2 ^ 62) 1 * 4 = 2 ^ 64.
Proof.
  split; [vm_compute; reflexivity|]. split; [vm_compute; reflexivity|].
  split; [vm_compute; reflexivity|]. split; vm_compute; reflexivity.
Qed.
