(* ===== verification/Float64.v ===== *)
(** * Double-precision numbers

    The [f64] operations the sources use, over the executable specification of
    IEEE 754 in the standard library: 53 bits of precision, rounding to
    nearest, ties to even. *)

From Stdlib Require Import ZArith SpecFloat.
From stdpp Require Import base numbers.
From S2P Require Import Prelude.

Abbreviation f64 := spec_float (only parsing).

(** [n as f64]. *)
Definition f64_of (z : Z) : f64 := binary_normalize 53 1024 z 0 false.

Definition f64_add : f64 → f64 → f64 := SFadd 53 1024.
Definition f64_mul : f64 → f64 → f64 := SFmul 53 1024.
Definition f64_div : f64 → f64 → f64 := SFdiv 53 1024.

(** [f64::max], which prefers the number to a NaN. *)
Definition f64_max (x y : f64) : f64 :=
  match SFcompare x y with
  | Some Lt => y
  | Some _ => x
  | None => match x with S754_nan => y | _ => x end
  end.

(** [x < y], [x <= y] and [x > y], all false of a NaN, and [is_finite]. *)
Definition f64_lt (x y : f64) : bool :=
  match SFcompare x y with Some Lt => true | _ => false end.
Definition f64_le (x y : f64) : bool :=
  match SFcompare x y with Some Lt | Some Eq => true | _ => false end.
Definition f64_gt (x y : f64) : bool :=
  match SFcompare x y with Some Gt => true | _ => false end.
Definition is_finite (x : f64) : bool :=
  match x with S754_zero _ | S754_finite _ _ _ => true | _ => false end.

(** [(lo..=hi).contains(&x)]. *)
Definition f64_within (lo hi x : f64) : bool := f64_le lo x && f64_le x hi.

(** The magnitude of a finite number, rounded down or up to an integer. *)
Definition floor_of (m : positive) (e : Z) : Z :=
  if 0 <=? e then Zpos m * 2 ^ e else Zpos m / 2 ^ (- e).
Definition ceil_of (m : positive) (e : Z) : Z :=
  if 0 <=? e then Zpos m * 2 ^ e else div_ceil (Zpos m) (2 ^ (- e)).

(** [f64::ceil]. *)
Definition f64_ceil (x : f64) : f64 :=
  match x with
  | S754_finite false m e => f64_of (ceil_of m e)
  | S754_finite true m e => if floor_of m e =? 0 then S754_zero true else f64_of (- floor_of m e)
  | _ => x
  end.

(** [x as u64]: towards zero, clamped, a NaN to zero. *)
Definition f64_to_u64 (x : f64) : u64 :=
  match x with
  | S754_finite false m e => Z.min (floor_of m e) U64_MAX
  | S754_infinity false => U64_MAX
  | _ => 0
  end.

(** [Duration::from_secs_f64], to the nearest nanosecond, ties to even; [None]
    is its panic, of a negative number, a NaN or one too big. *)
Definition round_half_even (n d : Z) : Z :=
  let q := n / d in
  match 2 * (n mod d) ?= d with
  | Lt => q
  | Gt => q + 1
  | Eq => if Z.even q then q else q + 1
  end.

Definition from_secs_f64 (x : f64) : option Duration :=
  match x with
  | S754_zero _ => Some 0
  | S754_finite false m e =>
      let nanos := if 0 <=? e then Zpos m * 2 ^ e * 1000000000
                   else round_half_even (Zpos m * 1000000000) (2 ^ (- e)) in
      if nanos <? 2 ^ 64 * 1000000000 then Some nanos else None
  | _ => None
  end.

Lemma f64_to_u64_range x : in_u64 (f64_to_u64 x).
Proof.
  unfold in_u64. destruct x as [s|s| |s m e]; simpl; [unfold U64_MAX; lia| |unfold U64_MAX; lia|].
  - destruct s; unfold U64_MAX; lia.
  - destruct s; [unfold U64_MAX; lia|]. unfold floor_of. destruct (Z.leb_spec 0 e).
    + assert (0 < 2 ^ e) by (apply Z.pow_pos_nonneg; lia). unfold U64_MAX. nia.
    + pose proof (Z.div_pos (Zpos m) (2 ^ (- e)) ltac:(lia) ltac:(apply Z.pow_pos_nonneg; lia)).
      unfold U64_MAX. lia.
Qed.
