(* ===== verification/Estimator.v ===== *)
(** * Memory estimation and admission

    [crates/lightweight-memory/src/estimate.rs] and [estimator.rs], with what
    they use of [core/src/units.rs], [core/src/runtime.rs] and
    [gguf/src/metadata.rs]: what a model load would cost, whether it fits, and
    the largest context and concurrency that do.  [Bytes] is a [u64]; a
    missing item is named by its constructor, not by its sentence. *)

From Stdlib Require Import SpecFloat.
From stdpp Require Import base gmap strings numbers sorting list.
From S2P Require Import Prelude Names Ggml Float64.

Abbreviation Bytes := Z (only parsing).
Definition from_mib (mib : u64) : Bytes := sat_mul64 mib (1024 * 1024).

(** ** What the estimate reads *)

Inductive LoadMode := LMAuto | LMNone | LMMmap | LMMlock | LMMmapMlock.

(** The parameters that change what a model costs to hold. *)
Record RuntimeParams := mkParams {
  n_ctx : u32;
  n_batch : u32;
  n_ubatch : u32;
  n_parallel : u32;
  cache_type_k : GgmlType;
  cache_type_v : GgmlType;
  threads : option u32;
  threads_batch : option u32;
  poll : option u8;
  cache_reuse : option u32;
  cpu_range : option (u32 * u32);
  cpu_strict : bool;
  load_mode : option LoadMode }.

Definition RuntimeParams_default : RuntimeParams :=
  mkParams 4096 2048 512 1 F16 F16 None None None None None false None.

Definition with_context (p : RuntimeParams) (n : u32) : RuntimeParams :=
  mkParams n (n_batch p) (n_ubatch p) (n_parallel p) (cache_type_k p) (cache_type_v p)
    (threads p) (threads_batch p) (poll p) (cache_reuse p) (cpu_range p) (cpu_strict p) (load_mode p).

(** [RuntimeParams { n_parallel: slots, ..base }]. *)
Definition with_parallel (p : RuntimeParams) (slots : u32) : RuntimeParams :=
  mkParams (n_ctx p) (n_batch p) (n_ubatch p) slots (cache_type_k p) (cache_type_v p)
    (threads p) (threads_batch p) (poll p) (cache_reuse p) (cpu_range p) (cpu_strict p) (load_mode p).

Definition CONTEXT_PRESETS : list u32 := [2048; 4096; 8192; 16384; 32768; 65536; 131072].

Definition context_presets_for (model_max : option u64) : list u32 :=
  match model_max with
  | None => CONTEXT_PRESETS
  | Some model_max =>
      let ceiling := u32_or_max model_max in
      let presets := List.filter (fun preset => preset <=? ceiling) CONTEXT_PRESETS in
      let presets :=
        if negb (existsb (Z.eqb ceiling) presets) && (512 <=? ceiling)
        then presets ++ [ceiling] else presets in
      sort_by Z.ltb presets
  end.

(** The fields of [ModelMetadata] the estimate reads. *)
Record ModelMetadata := mkMetadata {
  md_context_length : option u64;
  block_count : option u64;
  embedding_length : option u64;
  feed_forward_length : option u64;
  head_count : option u64;
  head_count_kv : option (list u64);
  key_length : option u64;
  value_length : option u64;
  vocab_size : option u64;
  md_weight_bytes : option u64 }.

Definition head_dim_k (m : ModelMetadata) : option u64 :=
  match key_length m with
  | Some n => Some n
  | None => let! e := embedding_length m in let! h := head_count m in checked_div e h
  end.

Definition head_dim_v (m : ModelMetadata) : option u64 :=
  match value_length m with Some n => Some n | None => head_dim_k m end.

Definition kv_heads_for_layer (m : ModelMetadata) (layer : nat) : option u64 :=
  let! heads := head_count_kv m in
  match heads with
  | [] => None
  | [h] => Some h
  | _ => heads !! layer
  end.

Record MemorySnapshot := mkSnapshot {
  ms_total : Bytes; ms_available : Bytes; ms_free : Bytes;
  ms_swap_total : Bytes; ms_swap_free : Bytes }.

(** ** The answer *)

Inductive Verdict := Safe | Tight | Insufficient.
#[export] Instance Verdict_eq_dec : EqDecision Verdict.
Proof. solve_decision. Defined.

Definition is_admissible (v : Verdict) : bool :=
  match v with Safe | Tight => true | Insufficient => false end.

Inductive Confidence := Measured | Coarse | Partial.

(** What was needed and absent. *)
Inductive Missing :=
| MissingWeightSize | MissingBlockCount | MissingHeadDimension | MissingHeadCountKv
| MissingHeadCountKvForLayer (layer : nat) | MissingGeometry (t : GgmlType)
| MissingVocabSize | MissingEmbeddingLength.

Record ComputeModel := mkComputeModel {
  activation_factor : f64;
  scratch_factor : f64;
  engine_baseline : Bytes;
  host_overhead : Bytes;
  measured : bool }.

Definition ComputeModel_default : ComputeModel :=
  mkComputeModel (f64_of 8) (f64_of 4) (from_mib 64) (from_mib 450) false.
Definition ComputeModel_headless : ComputeModel :=
  mkComputeModel (f64_of 8) (f64_of 4) (from_mib 64) (from_mib 48) false.

Record Budget := mkBudget { b_snapshot : MemorySnapshot; b_reclaimable : Bytes }.

Definition Budget_of (s : MemorySnapshot) : Budget := mkBudget s 0.
Definition reclaiming (b : Budget) (r : Bytes) : Budget := mkBudget (b_snapshot b) r.
Definition spendable (b : Budget) : Bytes := sat_add64 (ms_available (b_snapshot b)) (b_reclaimable b).

Record Estimate := mkEstimate {
  e_weights : Bytes;
  e_kv_cache : Bytes;
  e_compute : Bytes;
  e_overhead : Bytes;
  e_total : Bytes;
  e_budget : Bytes;
  e_reclaimable : Bytes;
  e_margin : Bytes;
  verdict : Verdict;
  confidence : Confidence;
  kv_bytes_per_token : u64;
  max_context_that_fits : option u32;
  missing : list Missing;
  e_snapshot : MemorySnapshot;
  e_params : RuntimeParams }.

Definition shortfall (e : Estimate) : Bytes := sat_sub (sat_add64 (e_total e) (e_margin e)) (e_budget e).

Inductive SettingsSection := SecStorage | SecLogging | SecApi | SecInference | SecModels.

(** The machine-actionable part of a remedy. *)
Inductive RemedyAction :=
| ReduceContext (to_tokens : u32)
| QuantizeKvCache (cache_type : str) (saves_bytes : u64)
| UseQuantization (model_id quantization : str) (weight_bytes : u64)
| UseSmallerModel (max_weight_bytes : u64)
| FreeMemory (needed_bytes : u64)
| FreeDisk (needed_bytes : u64)
| SelectSupportedArchitecture (supported : list str)
| RetryAfter (seconds : u32)
| ForceLoad
| OpenSettings (section : SettingsSection).

Definition remedies (e : Estimate) : list RemedyAction :=
  if is_admissible (verdict e) then []
  else
    (match max_context_that_fits e with Some c => [ReduceContext c] | None => [] end)
    ++ (if bool_decide (cache_type_k (e_params e) = F16) && (from_mib 256 <? e_kv_cache e)
        then [QuantizeKvCache (lit "q8_0")
                (sat_sub (e_kv_cache e) (sat_mul64 (e_kv_cache e) 34 / 64))]
        else [])
    ++ [UseSmallerModel (sat_sub (sat_sub (e_budget e) (e_margin e)) (e_overhead e));
        FreeMemory (shortfall e)]
    ++ (match confidence e with Partial => [OpenSettings SecModels] | _ => [] end).

(** ** The estimator *)

Definition MIN_MARGIN : Bytes := 512 * 1024 * 1024.
Definition MARGIN_FRACTION : f64 := f64_div (f64_of 15) (f64_of 100).
Definition MIN_USEFUL_CONTEXT : u32 := 512.
Definition CORES_PER_SLOT : u32 := 4.

Definition bits_per_element (t : GgmlType) : option f64 :=
  let! bs := block_size t in
  let! ts := type_size t in
  Some (f64_div (f64_of (ts * 8)) (f64_of bs)).

Definition bytes_per_element (kind : GgmlType) : result f64 Missing :=
  ok_or ((fun bits => f64_div bits (f64_of 8)) <$> bits_per_element kind) (MissingGeometry kind).

Definition sized (kind : GgmlType) (elements : u64) : result u64 Missing :=
  ok_or (bytes_for_elements kind elements) (MissingGeometry kind).

Record KvCache := mkKv { kv_bytes : Bytes; kv_per_token : u64 }.
Definition KvCache_UNKNOWN : KvCache := mkKv 0 0.

Definition cache_elements (p : RuntimeParams) (kv_heads head_dim : u64) : u64 :=
  sat_mul64 (sat_mul64 (sat_mul64 (n_ctx p) kv_heads) head_dim) (Z.max (n_parallel p) 1).

Section kv.
Context (m : ModelMetadata) (p : RuntimeParams) (dk dv : u64) (bpe_k bpe_v : f64).

(** The layers from [layer] on: the bytes so far and the cost of a token. *)
Fixpoint kv_layers (n layer : nat) (bytes : u64) (per_token : f64) : result (u64 * f64) Missing :=
  match n with
  | O => Ok (bytes, per_token)
  | S n =>
      let? kv_heads := ok_or (kv_heads_for_layer m layer) (MissingHeadCountKvForLayer layer) in
      if kv_heads =? 0 then kv_layers n (S layer) bytes per_token
      else
        let? k := sized (cache_type_k p) (cache_elements p kv_heads dk) in
        let bytes := sat_add64 bytes k in
        let? v := sized (cache_type_v p) (cache_elements p kv_heads dv) in
        let bytes := sat_add64 bytes v in
        let heads := f64_of (sat_mul64 kv_heads (Z.max (n_parallel p) 1)) in
        let per_token :=
          f64_add per_token
            (f64_mul heads (f64_add (f64_mul (f64_of dk) bpe_k) (f64_mul (f64_of dv) bpe_v))) in
        kv_layers n (S layer) bytes per_token
  end.
End kv.

(** The cache, and what was missing for it. *)
Definition kv_cache_bytes (m : ModelMetadata) (p : RuntimeParams) : KvCache * list Missing :=
  match block_count m with
  | None => (KvCache_UNKNOWN, [MissingBlockCount])
  | Some layers =>
      match head_dim_k m, head_dim_v m with
      | Some dk, Some dv =>
          match head_count_kv m with
          | None => (KvCache_UNKNOWN, [MissingHeadCountKv])
          | Some _ =>
              match (let? bpe_k := bytes_per_element (cache_type_k p) in
                     let? bpe_v := bytes_per_element (cache_type_v p) in
                     let? r := kv_layers m p dk dv bpe_k bpe_v (Z.to_nat layers) 0 0 (f64_of 0) in
                     Ok (mkKv (fst r) (f64_to_u64 (f64_ceil (snd r))))) with
              | Ok kv => (kv, [])
              | Err reason => (KvCache_UNKNOWN, [reason])
              end
          end
      | _, _ => (KvCache_UNKNOWN, [MissingHeadDimension])
      end
  end.

Definition compute_bytes (cm : ComputeModel) (m : ModelMetadata) (p : RuntimeParams)
    : Bytes * list Missing :=
  let ubatch := f64_of (Z.max (n_ubatch p) 1) in
  let '(logits, gone) :=
    match vocab_size m with
    | Some vocab => (f64_mul (f64_mul (f64_of vocab) ubatch) (f64_of 4), [])
    | None => (f64_of 0, [MissingVocabSize])
    end in
  let embedding := f64_of (default 0 (embedding_length m)) in
  let ffn := f64_of (default 0 (feed_forward_length m)) in
  let gone := gone ++ (if SFeqb embedding (f64_of 0) then [MissingEmbeddingLength] else []) in
  let activations := f64_mul (f64_mul (f64_mul (activation_factor cm) ubatch) embedding) (f64_of 4) in
  let scratch :=
    f64_mul (f64_mul (f64_mul (scratch_factor cm) ubatch) (f64_max embedding ffn)) (f64_of 4) in
  (f64_to_u64 (f64_max (f64_add (f64_add logits activations) scratch) (f64_of 0)), gone).

Definition margin_for (budget : Bytes) : Bytes :=
  let proportional := f64_to_u64 (f64_mul (f64_of budget) MARGIN_FRACTION) in
  if MIN_MARGIN <? proportional then proportional else MIN_MARGIN.

Definition solve_max_context (budget fixed : Bytes) (per_token : u64) : option u32 :=
  if per_token =? 0 then None
  else
    let! spare := checked_sub budget fixed in
    let! tokens := checked_div spare per_token in
    let tokens := u32_or_max tokens in
    if MIN_USEFUL_CONTEXT <=? tokens then Some tokens else None.

Definition estimate_against (cm : ComputeModel) (m : ModelMetadata) (p : RuntimeParams) (b : Budget)
    : Estimate :=
  let '(weights, gone0) :=
    match md_weight_bytes m with
    | Some bytes => (bytes, [])
    | None => (0, [MissingWeightSize])
    end in
  let '(kv, gone1) := kv_cache_bytes m p in
  let '(compute, gone2) := compute_bytes cm m p in
  let overhead := sat_add64 (engine_baseline cm) (host_overhead cm) in
  let gone := gone0 ++ gone1 ++ gone2 in
  let total := sat_add64 (sat_add64 (sat_add64 weights (kv_bytes kv)) compute) overhead in
  let budget := spendable b in
  let margin := margin_for budget in
  let verdict :=
    if sat_add64 total margin <=? budget then Safe
    else if total <=? budget then Tight else Insufficient in
  let confidence :=
    match gone with
    | _ :: _ => Partial
    | [] => if measured cm then Measured else Coarse
    end in
  let fixed := sat_add64 (sat_add64 (sat_add64 weights compute) overhead) margin in
  let max_context :=
    let! fits := solve_max_context budget fixed (kv_per_token kv) in
    let fits :=
      match md_context_length m with Some mx => Z.min fits (u32_or_max mx) | None => fits end in
    if MIN_USEFUL_CONTEXT <=? fits then Some fits else None in
  mkEstimate weights (kv_bytes kv) compute overhead total budget (b_reclaimable b) margin verdict
    confidence (kv_per_token kv) max_context gone (b_snapshot b) p.

Definition estimate (cm : ComputeModel) (m : ModelMetadata) (p : RuntimeParams) (s : MemorySnapshot)
    : Estimate := estimate_against cm m p (Budget_of s).

Definition is_safe (cm : ComputeModel) (m : ModelMetadata) (b : Budget) (p : RuntimeParams) : bool :=
  bool_decide (verdict (estimate_against cm m p b) = Safe).

Definition largest_safe_context_against (cm : ComputeModel) (m : ModelMetadata)
    (base : RuntimeParams) (b : Budget) (ceiling : option u32) : option u32 :=
  let presets := context_presets_for (md_context_length m) in
  let presets :=
    match ceiling with
    | Some c => List.filter (fun preset => preset <=? c) presets
    | None => presets
    end in
  find_first (fun n => is_safe cm m b (with_context base n)) (reverse presets).

Definition largest_safe_context (cm : ComputeModel) (m : ModelMetadata) (base : RuntimeParams)
    (s : MemorySnapshot) (ceiling : option u32) : option u32 :=
  largest_safe_context_against cm m base (Budget_of s) ceiling.

Inductive ConcurrencySource := Requested | Fitted | ReducedToFit.

Record ConcurrencyChoice := mkChoice { slots : u32; source : ConcurrencySource; cores : u32 }.

(** The loop [for slots in (1..=from_cores).rev()]. *)
Fixpoint step_down (cm : ComputeModel) (m : ModelMetadata) (base : RuntimeParams) (b : Budget)
    (n : nat) : option u32 :=
  match n with
  | O => None
  | S n' =>
      if is_safe cm m b (with_parallel base (Z.of_nat n)) then Some (Z.of_nat n)
      else step_down cm m base b n'
  end.

Definition choose_concurrency (cm : ComputeModel) (requested : option u32) (cores : u32)
    (m : option ModelMetadata) (base : RuntimeParams) (b : Budget) : ConcurrencyChoice :=
  match requested with
  | Some slots => mkChoice (Z.max slots 1) Requested cores
  | None =>
      let from_cores := Z.max (cores / CORES_PER_SLOT) 1 in
      match m with
      | None => mkChoice from_cores Fitted cores
      | Some m =>
          match step_down cm m base b (Z.to_nat from_cores) with
          | Some slots =>
              mkChoice slots (if slots =? from_cores then Fitted else ReducedToFit) cores
          | None => mkChoice 1 (if from_cores =? 1 then Fitted else ReducedToFit) cores
          end
      end
  end.
