(* ===== verification/EstimatorTheorems.v ===== *)
(** * What an admission verdict promises

    The properties of [Estimator.v]: a safe verdict against the memory a load
    really takes, and the two searches that ask for it. *)

From stdpp Require Import base gmap strings numbers sorting list.
From S2P Require Import Prelude Names Ggml Float64 Estimator.

(** ** The cache a load really takes *)

(** Bytes of one side of one layer's cache, in unbounded arithmetic. *)
Definition side_bytes (t : GgmlType) (elements : Z) : Z :=
  match block_size t, type_size t with
  | Some bs, Some ts => div_ceil elements bs * ts
  | _, _ => 0
  end.

(** Cells of a layer: a window per sequence, a vector per head and token. *)
Definition cells (p : RuntimeParams) (heads dim : Z) : Z :=
  n_ctx p * heads * dim * Z.max (n_parallel p) 1.

Definition layer_bytes (m : ModelMetadata) (p : RuntimeParams) (dk dv : Z) (layer : nat) : Z :=
  let heads := default 0 (kv_heads_for_layer m layer) in
  side_bytes (cache_type_k p) (cells p heads dk) + side_bytes (cache_type_v p) (cells p heads dv).

Fixpoint layers_bytes (m : ModelMetadata) (p : RuntimeParams) (dk dv : Z) (n layer : nat) : Z :=
  match n with
  | O => 0
  | S n => layer_bytes m p dk dv layer + layers_bytes m p dk dv n (S layer)
  end.

Definition true_cache (m : ModelMetadata) (p : RuntimeParams) : Z :=
  match block_count m, head_dim_k m, head_dim_v m with
  | Some n, Some dk, Some dv => layers_bytes m p dk dv (Z.to_nat n) 0
  | _, _, _ => 0
  end.

(** Numbers as the file and the machine give them. *)
Record sane (m : ModelMetadata) (p : RuntimeParams) : Prop := {
  sane_ctx : 0 ≤ n_ctx p;
  sane_dims : ∀ dk dv, head_dim_k m = Some dk → head_dim_v m = Some dv → 0 ≤ dk ∧ 0 ≤ dv;
  sane_heads : ∀ layer h, kv_heads_for_layer m layer = Some h → 0 ≤ h;
  sane_weights : ∀ w, md_weight_bytes m = Some w → 0 ≤ w }.

(** No side of a layer overflows 64 bits, in cells or in bytes. *)
Definition no_overflow (m : ModelMetadata) (p : RuntimeParams) : Prop :=
  ∀ layer h t d, kv_heads_for_layer m layer = Some h →
    (t = cache_type_k p ∧ head_dim_k m = Some d) ∨ (t = cache_type_v p ∧ head_dim_v m = Some d) →
    cells p h d ≤ U64_MAX ∧ side_bytes t (cells p h d) ≤ U64_MAX.

Lemma sat_mul_min x y : 0 ≤ x → 0 ≤ y → sat_mul64 (Z.min x U64_MAX) y = Z.min (x * y) U64_MAX.
Proof.
  intros Hx Hy. unfold sat_mul64. assert (0 < U64_MAX) by (unfold U64_MAX; lia).
  destruct (Z.min_spec x U64_MAX) as [[? ->]|[? ->]]; [done|].
  destruct (Z.eq_dec y 0) as [->|]; [by rewrite !Z.mul_0_r|]. nia.
Qed.

Lemma cache_elements_exact p h d :
  0 ≤ n_ctx p → 0 ≤ h → 0 ≤ d → cells p h d ≤ U64_MAX → cache_elements p h d = cells p h d.
Proof.
  intros Hn Hh Hd Hfit. unfold cache_elements, cells in *.
  change (sat_mul64 (n_ctx p) h) with (Z.min (n_ctx p * h) U64_MAX).
  rewrite !sat_mul_min by nia. nia.
Qed.

Lemma sized_exact t n k :
  0 ≤ n → side_bytes t n ≤ U64_MAX → sized t n = Ok k → k = side_bytes t n ∧ 0 ≤ k.
Proof.
  intros Hn Hfit. unfold sized, bytes_for_elements, side_bytes in *.
  pose proof (type_tables_agree t) as Htab.
  destruct (block_size t) as [bs|], (type_size t) as [ts|]; try done. simpl.
  destruct Htab as (_ & Hbs & Hts). destruct (div_ceil_spec n bs Hn ltac:(lia)) as [Hlo _].
  assert (0 ≤ div_ceil n bs) by nia. intros [= <-]. unfold wrapping_mul64.
  rewrite Z.mod_small by (unfold U64_MAX in *; nia). split; [done|nia].
Qed.

Section layers.
Context (m : ModelMetadata) (p : RuntimeParams) (dk dv : Z) (bk bv : Float64.f64).
Hypothesis Hs : sane m p.
Hypothesis Ho : no_overflow m p.
Hypothesis Hdk : head_dim_k m = Some dk.
Hypothesis Hdv : head_dim_v m = Some dv.

Lemma side_bytes_0 t : side_bytes t 0 = 0.
Proof. unfold side_bytes. by destruct t. Qed.

(** What the loop adds up, when it succeeds. *)
Lemma kv_layers_exact n layer bytes pt r :
  0 ≤ bytes → kv_layers m p dk dv bk bv n layer bytes pt = Ok r →
  0 ≤ layers_bytes m p dk dv n layer ∧
  Z.min (bytes + layers_bytes m p dk dv n layer) U64_MAX ≤ fst r ∧ 0 ≤ fst r.
Proof.
  destruct Hs as [Hctx Hdims Hheads _]. destruct (Hdims dk dv Hdk Hdv) as [Hk0 Hv0].
  revert layer bytes pt. induction n as [|n IH]; intros layer bytes pt Hb.
  { intros [= <-]. simpl. lia. }
  cbn [kv_layers layers_bytes]. unfold layer_bytes.
  destruct (kv_heads_for_layer m layer) as [h|] eqn:Eh; [|done]. cbn [ok_or res_bind].
  change (default 0 (Some h)) with h.
  pose proof (Hheads _ _ Eh) as Hh.
  destruct (Z.eqb_spec h 0) as [->|Hne].
  { intros H. apply IH in H; [|done]. unfold cells. rewrite !Z.mul_0_r, !Z.mul_0_l, !side_bytes_0. lia. }
  destruct (Ho layer h (cache_type_k p) dk Eh ltac:(by left)) as [Hck Hsk].
  destruct (Ho layer h (cache_type_v p) dv Eh ltac:(by right)) as [Hcv Hsv].
  rewrite !cache_elements_exact by done.
  assert (Hpos : ∀ d, 0 ≤ d → 0 ≤ cells p h d) by (intros d Hd; unfold cells; nia).
  destruct (sized (cache_type_k p) _) as [k|] eqn:Ek; [|done].
  apply sized_exact in Ek as [-> Hk]; [|by apply Hpos|done]. cbn [res_bind].
  destruct (sized (cache_type_v p) _) as [v|] eqn:Ev; [|done].
  apply sized_exact in Ev as [-> Hv]; [|by apply Hpos|done]. cbn [res_bind].
  intros H. apply IH in H; [|unfold sat_add64, U64_MAX; lia]. unfold sat_add64 in H. lia.
Qed.
End layers.

Lemma kv_cache_true m p kv gone :
  sane m p → no_overflow m p → kv_cache_bytes m p = (kv, gone) → gone = [] →
  Z.min (true_cache m p) U64_MAX ≤ kv_bytes kv ∧ 0 ≤ kv_bytes kv.
Proof.
  intros Hs Ho. unfold kv_cache_bytes, true_cache.
  destruct (block_count m) as [n|]; [|by intros [= <- <-]].
  destruct (head_dim_k m) as [dk|] eqn:Edk; [|by intros [= <- <-]].
  destruct (head_dim_v m) as [dv|] eqn:Edv; [|by intros [= <- <-]].
  destruct (head_count_kv m); [|by intros [= <- <-]].
  destruct (bytes_per_element (cache_type_k p)) as [bk|]; [|by intros [= <- <-]]. cbn [res_bind].
  destruct (bytes_per_element (cache_type_v p)) as [bv|]; [|by intros [= <- <-]]. cbn [res_bind].
  destruct (kv_layers _ _ _ _ _ _ _ _ _ _) as [r|] eqn:El; [|by intros [= <- <-]]. cbn [res_bind].
  intros [= <- <-] _. cbn [kv_bytes].
  destruct (kv_layers_exact m p dk dv bk bv Hs Ho Edk Edv _ _ _ _ _ ltac:(reflexivity) El) as (_ & H & H').
  split; [exact H|exact H'].
Qed.

Lemma compute_range cm m p : in_u64 (fst (compute_bytes cm m p)).
Proof. unfold compute_bytes. destruct (vocab_size m); apply f64_to_u64_range. Qed.

Lemma margin_floor b : MIN_MARGIN ≤ margin_for b.
Proof. unfold margin_for. match goal with |- context [?x <? ?y] => destruct (Z.ltb_spec x y) end; lia. Qed.

(** ** Properties *)

(** C32: a safe verdict is a promise kept in exact arithmetic.  When a load is
    judged safe with nothing missing and no side of its cache overflows 64
    bits, then the weights, the whole cache of every sequence counted layer by
    layer and block by block, the compute buffers, both overheads and at least
    the minimum margin together fit into what is available and about to be
    released. *)
Theorem safe_verdict_is_sound cm m p b :
  sane m p → no_overflow m p → 0 ≤ engine_baseline cm → 0 ≤ host_overhead cm →
  spendable b < U64_MAX → let e := estimate_against cm m p b in
  verdict e = Safe → missing e = [] →
  ∃ w, md_weight_bytes m = Some w ∧
    w + true_cache m p + e_compute e + engine_baseline cm + host_overhead cm + MIN_MARGIN
    ≤ ms_available (b_snapshot b) + b_reclaimable b.
Proof.
  intros Hs Ho Hb Hh Hsp. unfold estimate_against. pose proof (compute_range cm m p) as Hc.
  destruct (kv_cache_bytes m p) as [kv gone1] eqn:Ekv. destruct (compute_bytes cm m p) as [c gone2].
  pose proof (margin_floor (spendable b)) as Hm.
  destruct (md_weight_bytes m) as [w|] eqn:Ew; [|by destruct gone1].
  cbn [fst verdict missing e_compute app] in *. intros Hv [-> _]%app_nil.
  destruct (kv_cache_true m p kv [] Hs Ho Ekv eq_refl) as [Hkv Hkv0]. pose proof (sane_weights _ _ Hs w Ew).
  exists w. split; [done|].
  match type of Hv with context [?x <=? ?y] => destruct (Z.leb_spec x y) as [Hle|] end.
  2: { by destruct (_ <=? _) in Hv. }
  unfold spendable, sat_add64, in_u64, MIN_MARGIN in *. lia.
Qed.

(** A model like those the program serves: 32 layers of 8 key-value heads. *)
Definition llama_8b : ModelMetadata :=
  mkMetadata (Some 131072) (Some 32) (Some 4096) (Some 14336) (Some 32) (Some [8]) None None
    (Some 128256) (Some (from_mib 4500)).
Definition machine (gib : Z) : MemorySnapshot := mkSnapshot (64 * 2 ^ 30) (gib * 2 ^ 30) 0 0 0.

Lemma llama_sane n : 0 ≤ n → sane llama_8b (with_context RuntimeParams_default n).
Proof.
  intros Hn. split; [done|..].
  - intros dk dv [= <-] [= <-]. split; vm_compute; discriminate.
  - intros layer h [= <-]. lia.
  - intros w [= <-]. vm_compute. discriminate.
Qed.

Lemma safe_verdict_is_sound_witness :
  verdict (estimate_against ComputeModel_default llama_8b (with_context RuntimeParams_default 8192)
    (Budget_of (machine 16))) = Safe ∧
  ∃ w, md_weight_bytes llama_8b = Some w ∧
    w + true_cache llama_8b (with_context RuntimeParams_default 8192)
      + e_compute (estimate_against ComputeModel_default llama_8b
          (with_context RuntimeParams_default 8192) (Budget_of (machine 16)))
      + engine_baseline ComputeModel_default + host_overhead ComputeModel_default + MIN_MARGIN
    ≤ ms_available (machine 16) + 0.
Proof.
  split; [vm_compute; reflexivity|].
  apply (safe_verdict_is_sound ComputeModel_default llama_8b (with_context RuntimeParams_default 8192)
           (Budget_of (machine 16))).
  - apply llama_sane. lia.
  - intros layer h t d [= <-] [[-> [= <-]]|[-> [= <-]]]; split; vm_compute; discriminate.
  - vm_compute. discriminate.
  - vm_compute. discriminate.
  - vm_compute. reflexivity.
  - vm_compute. reflexivity.
  - vm_compute. reflexivity.
Defined.

(** Without the condition on overflow the promise is not kept: a file that
    declares 2^43 key-value heads is judged safe, with nothing missing and no
    cache at all. *)
Example overflowing_cache_is_free :
  let m := mkMetadata (Some 131072) (Some 1) (Some 4096) (Some 14336) (Some 32) (Some [2 ^ 43])
             None None (Some 128256) (Some (from_mib 4500)) in
  let p := with_context RuntimeParams_default 8192 in
  let e := estimate_against ComputeModel_default m p (Budget_of (machine 16)) in
  verdict e = Safe ∧ missing e = [] ∧ e_kv_cache e = 0 ∧ true_cache m p = 2 ^ 65.
Proof. vm_compute. done. Qed.

(** ** The searches *)

(** A context the program offers for a model trained for [model_max] tokens. *)
Definition offered (model_max : option u64) (n : u32) : Prop :=
  match model_max with
  | None => n ∈ CONTEXT_PRESETS
  | Some mx => (n ∈ CONTEXT_PRESETS ∧ n ≤ u32_or_max mx) ∨ (n = u32_or_max mx ∧ 512 ≤ n)
  end.

Lemma presets_offered mx n : n ∈ context_presets_for mx ↔ offered mx n.
Proof.
  destruct mx as [mx|]; [|done]. unfold context_presets_for, offered.
  rewrite sort_by_Permutation. set (c := u32_or_max mx).
  assert (Hf : ∀ k, k ∈ List.filter (λ preset, preset <=? c) CONTEXT_PRESETS ↔ k ∈ CONTEXT_PRESETS ∧ k ≤ c).
  { intros k. rewrite list_elem_of_In, filter_In, <-list_elem_of_In, Z.leb_le. done. }
  assert (Hex : existsb (Z.eqb c) (List.filter (λ preset, preset <=? c) CONTEXT_PRESETS) = true
    ↔ c ∈ CONTEXT_PRESETS).
  { rewrite existsb_exists. split.
    - intros (x & Hx & ->%Z.eqb_eq). rewrite <-list_elem_of_In in Hx. by apply Hf in Hx as [? _].
    - intros Hc. exists c. rewrite <-list_elem_of_In, Z.eqb_refl, Hf. split; [split; [done|lia]|done]. }
  destruct (existsb _ _) eqn:E; cbn [negb andb].
  - rewrite Hf. split; [by left|]. intros [H|[-> H]]; [done|]. split; [by apply Hex|lia].
  - destruct (Z.leb_spec 512 c).
    + rewrite elem_of_app, Hf, list_elem_of_singleton. naive_solver lia.
    + rewrite Hf. naive_solver lia.
Qed.

Lemma presets_sorted mx : StronglySorted (λ a b, (b <? a) = false) (context_presets_for mx).
Proof.
  destruct mx as [mx|]; [|repeat constructor]. apply sort_by_sorted; intros; lia.
Qed.

Lemma StronglySorted_filter {A} (R : A → A → Prop) (f : A → bool) l :
  StronglySorted R l → StronglySorted R (List.filter f l).
Proof.
  induction 1 as [|x l Hl IH Hx]; [constructor|]. cbn [List.filter]. destruct (f x); [|done].
  constructor; [done|]. rewrite Forall_forall in *. intros y Hy. apply Hx.
  apply list_elem_of_In, filter_In in Hy as [Hy _]. by apply list_elem_of_In.
Qed.

(** The first hit from the end of a sorted list is the greatest. *)
Lemma find_last_greatest (f : Z → bool) l :
  StronglySorted (λ a b, (b <? a) = false) l →
  match find_first f (reverse l) with
  | Some n => n ∈ l ∧ f n = true ∧ ∀ k, k ∈ l → n < k → f k = false
  | None => ∀ k, k ∈ l → f k = false
  end.
Proof.
  induction l as [|x l IH] using rev_ind; intros Hl; [by intros k ?%not_elem_of_nil|].
  rewrite reverse_snoc. cbn [find_first].
  apply StronglySorted_app in Hl as (Hx & Hs & _).
  assert (Hx' : ∀ k, k ∈ l → k ≤ x) by (intros k Hk; specialize (Hx k x Hk (list_elem_of_here _ _)); lia).
  specialize (IH Hs). destruct (f x) eqn:Ef.
  - split_and!; [apply elem_of_app; right; apply list_elem_of_here|done|].
    intros k [Hk| ->%list_elem_of_singleton]%elem_of_app Hlt; [specialize (Hx' k Hk); lia|lia].
  - destruct (find_first f (reverse l)) as [n|].
    + destruct IH as (Hn & Hfn & Hmax). split_and!; [apply elem_of_app; by left|done|].
      intros k [Hk| ->%list_elem_of_singleton]%elem_of_app Hlt; [by apply Hmax|done].
    + intros k [Hk| ->%list_elem_of_singleton]%elem_of_app; [by apply IH|done].
Qed.

Lemma is_safe_iff cm m b p : is_safe cm m b p = true ↔ verdict (estimate_against cm m p b) = Safe.
Proof. unfold is_safe. by rewrite bool_decide_eq_true. Qed.

(** The context search is exact.  Among the contexts offered for the model
    and allowed by the caller's ceiling, it returns one that is judged safe
    for the very budget the load will be judged by, and no larger one is; it
    returns none exactly when none is safe. *)
Theorem largest_safe_context_exact cm m base b ceiling :
  let allowed n := offered (md_context_length m) n ∧ (∀ c, ceiling = Some c → n ≤ c) in
  let safe n := verdict (estimate_against cm m (with_context base n) b) = Safe in
  match largest_safe_context_against cm m base b ceiling with
  | Some n => allowed n ∧ safe n ∧ ∀ k, allowed k → n < k → ¬ safe k
  | None => ∀ k, allowed k → ¬ safe k
  end.
Proof.
  intros allowed safe. unfold largest_safe_context_against.
  set (l := match ceiling with Some c => _ | None => _ end).
  assert (Hin : ∀ n, n ∈ l ↔ allowed n).
  { intros n. unfold l, allowed. destruct ceiling as [c|].
    - rewrite list_elem_of_In, filter_In, <-list_elem_of_In, presets_offered, Z.leb_le.
      split; [intros [? ?]; split; [done|by intros ? [= <-]]|intros [? H]; split; [done|by apply H]].
    - rewrite presets_offered. split; [done|by intros [? _]]. }
  assert (Hs : StronglySorted (λ a b, (b <? a) = false) l).
  { unfold l. destruct ceiling; [apply StronglySorted_filter|]; apply presets_sorted. }
  pose proof (find_last_greatest (fun n => is_safe cm m b (with_context base n)) l Hs) as H.
  assert (Hno : ∀ k, is_safe cm m b (with_context base k) = false → ¬ safe k).
  { intros k Hk Hsafe. apply is_safe_iff in Hsafe. congruence. }
  destruct (find_first _ _) as [n|].
  - destruct H as (Hn & Hf & Hmax). split_and!; [by apply Hin|by apply is_safe_iff|].
    intros k Hk Hlt. apply Hno, Hmax; [by apply Hin|done].
  - intros k Hk. apply Hno, H. by apply Hin.
Qed.

Lemma step_down_spec cm m base b n :
  match step_down cm m base b n with
  | Some s => 1 ≤ s ≤ Z.of_nat n ∧ is_safe cm m b (with_parallel base s) = true ∧
      ∀ k, s < k ≤ Z.of_nat n → is_safe cm m b (with_parallel base k) = false
  | None => ∀ k, 1 ≤ k ≤ Z.of_nat n → is_safe cm m b (with_parallel base k) = false
  end.
Proof.
  induction n as [|n IH]; [intros k Hk; lia|]. cbn [step_down].
  destruct (is_safe cm m b (with_parallel base (Z.of_nat (S n)))) eqn:E.
  - split_and!; [lia|lia|done|]. intros k Hk. lia.
  - destruct (step_down cm m base b n) as [s|].
    + destruct IH as (Hs & Hf & Hmax). split_and!; [lia|lia|done|]. intros k Hk.
      destruct (Z.eq_dec k (Z.of_nat (S n))) as [->|]; [done|]. apply Hmax. lia.
    + intros k Hk. destruct (Z.eq_dec k (Z.of_nat (S n))) as [->|]; [done|]. apply IH. lia.
Qed.

(** The number of slots is the largest the machine can afford.  A request
    for a number is honoured; otherwise the choice is between one and a slot
    per four cores, is safe whenever any such number is, and then no larger
    one is; and it is reported as fitted exactly when the cores, not the
    memory, set it. *)
Theorem concurrency_choice_exact cm requested n m base b :
  let choice := choose_concurrency cm requested n (Some m) base b in
  let most := Z.max (n / CORES_PER_SLOT) 1 in
  let safe k := verdict (estimate_against cm m (with_parallel base k) b) = Safe in
  match requested with
  | Some k => slots choice = Z.max k 1 ∧ source choice = Requested
  | None =>
      1 ≤ slots choice ≤ most ∧
      (∀ k, 1 ≤ k ≤ most → safe k → safe (slots choice) ∧ k ≤ slots choice) ∧
      (source choice = Fitted ↔ slots choice = most)
  end.
Proof.
  intros choice most safe. unfold choice, choose_concurrency. destruct requested as [k|]; [done|].
  cbn zeta. fold most. pose proof (step_down_spec cm m base b (Z.to_nat most)) as H.
  assert (Hm : 1 ≤ most) by (unfold most; lia). rewrite Z2Nat.id in H by lia.
  destruct (step_down _ _ _ _ _) as [s|].
  - destruct H as (Hs & Hf & Hmax). cbn [slots source]. split_and!; [lia|lia| |].
    + intros k Hk Hsafe. split; [by apply is_safe_iff|]. destruct (Z.le_gt_cases k s) as [|Hgt]; [done|].
      apply is_safe_iff in Hsafe. rewrite Hmax in Hsafe by lia. done.
    + destruct (Z.eqb_spec s most); naive_solver.
  - cbn [slots source]. split_and!; [lia|lia| |].
    + intros k Hk Hsafe%is_safe_iff. by rewrite H in Hsafe.
    + destruct (Z.eqb_spec most 1); naive_solver.
Qed.
