(* ===== verification/Metadata.v ===== *)
(** * Model metadata

    [crates/lightweight-gguf/src/metadata.rs] and [architecture.rs], with
    [read_u64_array] of [reader.rs]: what the gateway learns of a model from
    the header of its file.  The part of the Rust [ModelMetadata] the memory
    estimate reads is [Estimator.ModelMetadata]; [Extracted] is that record and
    the other fields.  [read_u64_array] opens the file a second time, so the
    bytes it finds are an argument ([None] when it cannot be opened). *)

From Stdlib Require Import SpecFloat.
From stdpp Require Import base gmap strings numbers sorting list.
From S2P Require Import Prelude Names Utf8 Ggml Gguf Float64 Estimator.

(** ** Architectures *)

(** [<[u8] as Ord>::cmp], which is [str]'s order on the encoded text. *)
Fixpoint bytes_cmp (a b : list byte) : comparison :=
  match a, b with
  | [], [] => Eq
  | [], _ => Lt
  | _, [] => Gt
  | x :: a, y :: b => match x ?= y with Eq => bytes_cmp a b | c => c end
  end.
Definition str_cmp (a b : str) : comparison := bytes_cmp (utf8_encode a) (utf8_encode b).

(** [slice::binary_search_by]: the window halves until one element is left. *)
Fixpoint search_loop {A} (fuel : nat) (f : A → comparison) (l : list A) (base size : nat) : nat :=
  match fuel with
  | O => base
  | S fuel =>
      if (size <=? 1)%nat then base
      else
        let half := Nat.div2 size in
        let mid := (base + half)%nat in
        let base :=
          match f <$> l !! mid with Some Gt => base | _ => mid end in
        search_loop fuel f l base (size - half)%nat
  end.

Definition binary_search_by {A} (f : A → comparison) (l : list A) : option nat :=
  match l with
  | [] => None
  | _ =>
      let base := search_loop (length l) f l 0%nat (length l) in
      match f <$> l !! base with Some Eq => Some base | _ => None end
  end.

Definition SUPPORTED : list str := lit <$> [
  "afmoe"; "apertus"; "arcee"; "arctic"; "arwkv7"; "baichuan"; "bailingmoe"; "bailingmoe2";
  "bailingmoe3"; "bert"; "bitnet"; "bloom"; "chameleon"; "chatglm"; "clip"; "codeshell";
  "cogvlm"; "cohere2"; "cohere2moe"; "command-r"; "dbrx"; "deci"; "deepseek"; "deepseek2";
  "deepseek2-ocr"; "deepseek32"; "deepseek4"; "dflash"; "dots1"; "dots3note"; "dream";
  "eagle3"; "ernie4_5"; "ernie4_5-moe"; "eurobert"; "exaone"; "exaone-moe"; "exaone4";
  "falcon"; "falcon-h1"; "gemma"; "gemma-embedding"; "gemma2"; "gemma3"; "gemma3n";
  "gemma4"; "gemma4-assistant"; "glm-dsa"; "glm4"; "glm4moe"; "gpt-oss"; "gpt2"; "gptj";
  "gptneox"; "granite"; "granite_swa"; "granitehybrid"; "granitemoe"; "graniteswitch";
  "grok"; "grovemoe"; "hunyuan-dense"; "hunyuan-moe"; "hunyuan_vl"; "hy_v3"; "internlm2";
  "jais"; "jais2"; "jamba"; "jina-bert-v2"; "jina-bert-v3"; "kimi-k3"; "kimi-linear";
  "laguna"; "lfm2"; "lfm2moe"; "llada"; "llada-moe"; "llama"; "llama-embed"; "llama4";
  "maincoder"; "mamba"; "mamba2"; "mellum"; "mimo2"; "minicpm"; "minicpm3"; "minimax-01";
  "minimax-m2"; "minimax-m3"; "mistral3"; "mistral4"; "modern-bert"; "mpt"; "muse-glimmer";
  "nanbeige"; "nemotron"; "nemotron_h"; "nemotron_h_moe"; "neo-bert"; "nomic-bert";
  "nomic-bert-moe"; "olmo"; "olmo2"; "olmoe"; "openelm"; "orion"; "paddleocr";
  "pangu-embedded"; "phi2"; "phi3"; "phimoe"; "plamo"; "plamo2"; "plamo3"; "plm";
  "pockettts"; "qwen"; "qwen2"; "qwen2moe"; "qwen2vl"; "qwen3"; "qwen35"; "qwen35moe";
  "qwen3moe"; "qwen3next"; "qwen3tts"; "qwen3vl"; "qwen3vlmoe"; "refact"; "rnd1"; "rwkv6";
  "rwkv6qwen2"; "rwkv7"; "seed_oss"; "smallthinker"; "smollm3"; "stablelm"; "starcoder";
  "starcoder2"; "step35"; "t5"; "t5encoder"; "talkie"; "wavtokenizer-dec"; "xverse"].

Definition is_supported (architecture : str) : bool :=
  match binary_search_by (fun candidate => str_cmp candidate architecture) SUPPORTED with
  | Some _ => true
  | None => false
  end.

(** [zip] of the bytes and [take_while] equal, counted. *)
Fixpoint shared_prefix (a b : list byte) : nat :=
  match a, b with
  | x :: a, y :: b => if x =? y then S (shared_prefix a b) else 0%nat
  | _, _ => 0%nat
  end.

(** More shared bytes first, then by name. *)
Definition nearer (a b : nat * str) : bool :=
  if (fst a =? fst b)%nat
  then match str_cmp (snd a) (snd b) with Lt => true | _ => false end
  else (fst b <? fst a)%nat.

Definition nearest (architecture : str) (limit : nat) : list str :=
  let needle := utf8_encode (ascii_lower <$> architecture) in
  let scored := omap (fun candidate =>
    let shared := shared_prefix (utf8_encode candidate) needle in
    if (3 <=? shared)%nat then Some (shared, candidate) else None) SUPPORTED in
  snd <$> take limit (sort_by nearer scored).

(** ** Quantization *)

Record QuantStat := mkStat {
  qs_tensors : u64;
  qs_elements : u64;
  qs_bytes : option u64 }.

(** [by_type] is an ordered map: its entries in the order of their keys. *)
Record QuantMix := mkMix {
  dominant : option GgmlType;
  by_type : list (GgmlType * QuantStat) }.

(** The derived [Ord] of [GgmlType]: the variants are declared in the order of
    their ids, [Unknown] last. *)
Definition type_rank (t : GgmlType) : Z :=
  match t with GUnknown id => 2 ^ 32 + id | t => type_id t end.

Definition stat_zero : QuantStat := mkStat 0 0 (Some 0).

Definition tally_one (t : TensorInfo) (s : QuantStat) : QuantStat :=
  mkStat (sat_add64 (qs_tensors s) 1)
    (sat_add64 (qs_elements s) (default 0 (elements t)))
    (match qs_bytes s, byte_size t with
     | Some running, Some size => Some (sat_add64 running size)
     | _, _ => None
     end).

(** [entry(type).or_insert(zero)] and the update of what it points at. *)
Fixpoint tally (m : list (GgmlType * QuantStat)) (t : TensorInfo) : list (GgmlType * QuantStat) :=
  match m with
  | [] => [(ggml_type t, tally_one t stat_zero)]
  | (k, s) :: rest =>
      if bool_decide (k = ggml_type t) then (k, tally_one t s) :: rest
      else if type_rank (ggml_type t) <? type_rank k
      then (ggml_type t, tally_one t stat_zero) :: m
      else (k, s) :: tally rest t
  end.

(** [max_by_key]: the last of several maxima. *)
Definition dominant_of (m : list (GgmlType * QuantStat)) : option (GgmlType * QuantStat) :=
  foldl (fun best kv =>
    match best with
    | None => Some kv
    | Some b => if qs_elements (snd kv) <? qs_elements (snd b) then best else Some kv
    end) None m.

(** [QuantMix::from_file]. *)
Definition quant_mix (f : GgufFile) : QuantMix :=
  let by_type := foldl tally [] (f_tensors f) in
  mkMix (fst <$> dominant_of by_type) by_type.

(** ** Floats of a header *)

(** The value of an IEEE encoding with [mw] mantissa and [ew] exponent bits, as
    an [f64]; widening an [f32] is exact. *)
Definition float_of_bits (mw ew bits : Z) : f64 :=
  let s := Z.testbit bits (mw + ew) in
  let e := Z.land (Z.shiftr bits mw) (2 ^ ew - 1) in
  let m := Z.land bits (2 ^ mw - 1) in
  let bias := 2 ^ (ew - 1) - 1 in
  let signed z := if s then - z else z in
  if e =? 2 ^ ew - 1 then if m =? 0 then S754_infinity s else S754_nan
  else if e =? 0 then binary_normalize 53 1024 (signed m) (1 - bias - mw) s
  else binary_normalize 53 1024 (signed (m + 2 ^ mw)) (e - bias - mw) s.

Definition as_f64 (v : GgufValue) : option f64 :=
  match v with
  | VF32 bits => Some (float_of_bits 23 8 bits)
  | VF64 bits => Some (float_of_bits 52 11 bits)
  | _ => None
  end.

Definition get_f64 (f : GgufFile) (key : str) : option f64 :=
  let! v := f_metadata f !! key in as_f64 v.

(** ** Array contents *)

(** The loop of [read_u64_array] from element [index] on; [rest] is what the
    reopened file still holds from there. *)
Fixpoint read_elements (n : nat) (width off : u64) (index : Z) (rest : list byte)
    : result (list u64) GgufError :=
  match n with
  | O => Ok []
  | S n =>
      if 8 <? width then Err (ETruncated off width 8)
      else if Z.of_nat (length rest) <? width
      then Err (ERead (sat_add64 off (sat_mul64 index width)))
      else
        let slot := take (Z.to_nat width) rest in
        let? out := read_elements n width off (index + 1) (drop (Z.to_nat width) rest) in
        Ok (from_le slot :: out)
  end.

Definition read_u64_array (f : GgufFile) (now : option (list byte)) (key : str)
    : result (option (list u64)) GgufError :=
  match get_array f key with
  | None => Ok ((fun v => [v]) <$> get_u64 f key)
  | Some summary =>
      match fixed_width (element_type summary) with
      | None => Ok None
      | Some width =>
          let? file := ok_or now EOpen in
          let? out := read_elements (Z.to_nat (arr_len summary)) width (arr_offset summary) 0
                        (drop (Z.to_nat (arr_offset summary)) file) in
          Ok (Some out)
      end
  end.

(** ** Extraction *)

Record TokenizerMeta := mkTokenizer {
  tk_model : option str;
  tk_pre : option str;
  bos_token_id : option u32;
  eos_token_id : option u32;
  eot_token_id : option u32;
  padding_token_id : option u32;
  add_bos_token : option bool;
  add_eos_token : option bool;
  token_count : option u64;
  has_chat_template : bool;
  chat_template_len : option u64 }.

(** [ModelMetadata]: [model] holds the fields of the record [Estimator] names
    so. *)
Record Extracted := mkExtracted {
  architecture : str;
  supported : bool;
  md_name : option str;
  model : ModelMetadata;
  sliding_window : option u64;
  rope_freq_base : option f64;
  tokenizer : TokenizerMeta;
  file_type : option u32;
  quantization : QuantMix;
  tensor_count : u64;
  param_count : option u64;
  gguf_version : u32;
  md_alignment : u64;
  missing : list str }.

(** The closure [key]: the architecture is interpolated into every lookup. *)
Definition arch_key (architecture group : str) : str := architecture ++ lit "." ++ group.

(** The closure [want_u64], with the list it pushes to. *)
Definition want_u64 (f : GgufFile) (k : str) (missing : list str) : option u64 * list str :=
  match get_u64 f k with
  | Some v => (Some v, missing)
  | None => (None, missing ++ [k])
  end.

Definition tokenizer_of (f : GgufFile) : TokenizerMeta :=
  let token_count := arr_len <$> get_array f (lit "tokenizer.ggml.tokens") in
  let chat_template := get_str f (lit "tokenizer.chat_template") in
  mkTokenizer
    (get_str f (lit "tokenizer.ggml.model"))
    (get_str f (lit "tokenizer.ggml.pre"))
    (get_u32 f (lit "tokenizer.ggml.bos_token_id"))
    (get_u32 f (lit "tokenizer.ggml.eos_token_id"))
    (get_u32 f (lit "tokenizer.ggml.eot_token_id"))
    (get_u32 f (lit "tokenizer.ggml.padding_token_id"))
    (get_bool f (lit "tokenizer.ggml.add_bos_token"))
    (get_bool f (lit "tokenizer.ggml.add_eos_token"))
    token_count
    (bool_decide (is_Some chat_template))
    ((fun t => Z.of_nat (length (utf8_encode t))) <$> chat_template).

Definition from_file (f : GgufFile) (now : option (list byte)) : result Extracted GgufError :=
  let arch := default [] (get_str f (lit "general.architecture")) in
  let key group := arch_key arch (lit group) in
  let '(context_length, missing) := want_u64 f (key "context_length") [] in
  let '(block_count, missing) := want_u64 f (key "block_count") missing in
  let '(embedding_length, missing) := want_u64 f (key "embedding_length") missing in
  let '(feed_forward_length, missing) := want_u64 f (key "feed_forward_length") missing in
  let '(head_count, missing) := want_u64 f (key "attention.head_count") missing in
  let key_length := get_u64 f (key "attention.key_length") in
  let value_length := get_u64 f (key "attention.value_length") in
  let sliding_window := get_u64 f (key "attention.sliding_window") in
  let rope_freq_base := get_f64 f (key "rope.freq_base") in
  let kv_key := key "attention.head_count_kv" in
  let? head_count_kv := read_u64_array f now kv_key in
  let missing := match head_count_kv with None => missing ++ [kv_key] | Some _ => missing end in
  let tokenizer := tokenizer_of f in
  let vocab_size :=
    match token_count tokenizer with Some n => Some n | None => get_u64 f (key "vocab_size") end in
  Ok (mkExtracted arch (is_supported arch) (get_str f (lit "general.name"))
        (mkMetadata context_length block_count embedding_length feed_forward_length head_count
           head_count_kv key_length value_length vocab_size (weight_bytes f))
        sliding_window rope_freq_base tokenizer (get_u32 f (lit "general.file_type"))
        (quant_mix f) (Z.of_nat (length (f_tensors f))) (parameter_count f) (f_version f)
        (f_alignment f) missing).

(** ** What is derived from it *)

Definition has_per_layer_kv_heads (m : Extracted) : bool :=
  match head_count_kv (model m) with Some heads => (1 <? length heads)%nat | None => false end.

Definition gqa_ratio (m : Extracted) : option u64 :=
  let! head_count := head_count (model m) in
  if head_count =? 0 then None
  else
    let! heads := head_count_kv (model m) in
    let! kv_heads := find_first (fun heads => 0 <? heads) heads in
    checked_div head_count kv_heads.

Definition ftype_name (file_type : u32) : option str :=
  match file_type with
  | 0 => Some (lit "F32") | 1 => Some (lit "F16") | 2 => Some (lit "Q4_0")
  | 3 => Some (lit "Q4_1") | 7 => Some (lit "Q8_0") | 8 => Some (lit "Q5_0")
  | 9 => Some (lit "Q5_1") | 10 => Some (lit "Q2_K") | 11 => Some (lit "Q3_K_S")
  | 12 => Some (lit "Q3_K_M") | 13 => Some (lit "Q3_K_L") | 14 => Some (lit "Q4_K_S")
  | 15 => Some (lit "Q4_K_M") | 16 => Some (lit "Q5_K_S") | 17 => Some (lit "Q5_K_M")
  | 18 => Some (lit "Q6_K") | 19 => Some (lit "IQ2_XXS") | 20 => Some (lit "IQ2_XS")
  | 21 => Some (lit "Q2_K_S") | 22 => Some (lit "IQ3_XS") | 23 => Some (lit "IQ3_XXS")
  | 24 => Some (lit "IQ1_S") | 25 => Some (lit "IQ4_NL") | 26 => Some (lit "IQ3_S")
  | 27 => Some (lit "IQ3_M") | 28 => Some (lit "IQ2_S") | 29 => Some (lit "IQ2_M")
  | 30 => Some (lit "IQ4_XS") | 31 => Some (lit "IQ1_M") | 32 => Some (lit "BF16")
  | 36 => Some (lit "TQ1_0") | 37 => Some (lit "TQ2_0") | 38 => Some (lit "MXFP4_MOE")
  | 39 => Some (lit "NVFP4") | 40 => Some (lit "Q1_0") | 41 => Some (lit "Q2_0")
  | 1024 => Some (lit "GUESSED")
  | _ => None
  end.

Definition ascii_upper (c : char) : char := if (97 <=? c) && (c <=? 122) then c - 32 else c.

Definition quantization_label (m : Extracted) : str :=
  match file_type m ≫= ftype_name with
  | Some name => name
  | None =>
      match dominant (quantization m) with
      | Some ty => ascii_upper <$> type_name ty
      | None => lit "unknown"
      end
  end.

Definition is_complete_for_estimation (m : Extracted) : bool :=
  bool_decide (is_Some (block_count (model m))) && bool_decide (is_Some (head_dim_k (model m)))
  && bool_decide (is_Some (head_dim_v (model m)))
  && bool_decide (is_Some (head_count_kv (model m)))
  && bool_decide (is_Some (md_weight_bytes (model m))).
