(* ===== verification/MetadataTheorems.v ===== *)
(** * Properties of model metadata

    The lookup of an architecture against the plain membership it stands for,
    the table of tensor types against the totals of the file, and extraction
    from a file the reader accepted. *)

From Stdlib Require Import SpecFloat.
From stdpp Require Import base gmap strings numbers sorting list.
From S2P Require Import Prelude Names Utf8 Ggml Gguf GgufSafety GgufFixture GgufRoundtrip.
From S2P Require Import GgufVerify Float64 Estimator Metadata.

(** ** Binary search *)

Section search.
Context {A : Type} (f : A → comparison) (l : list A).

(** The elements before one that is not greater than the target are less. *)
Definition ascending : Prop :=
  ∀ i j x y, (i < j)%nat → l !! i = Some x → l !! j = Some y → f y ≠ Gt → f x = Lt.
Hypothesis Hl : ascending.

(** Every match is in the window, however often it is halved. *)
Definition window (base size : nat) : Prop :=
  (base + size ≤ length l)%nat ∧
  ∀ i x, l !! i = Some x → f x = Eq → (base ≤ i < base + size)%nat.

Lemma search_loop_spec fuel base size :
  (0 < size ≤ fuel)%nat → window base size → window (search_loop fuel f l base size) 1.
Proof.
  revert base size. induction fuel as [|fuel IH]; intros base size Hs [Hb Hw]; simpl; [lia|].
  destruct (Nat.leb_spec size 1); [replace size with 1%nat in * by lia; done|].
  pose proof (Nat.div2_odd size) as Hodd. set (half := Nat.div2 size) in *.
  assert (Hh : (0 < half < size ∧ half ≤ size - half)%nat).
  { destruct (Nat.odd size); simpl in Hodd; lia. }
  destruct (lookup_lt_is_Some_2 l (base + half)) as [m Hm]; [lia|]. rewrite Hm. simpl.
  apply IH; [lia|]. destruct (f m) eqn:Hf; (split; [lia|]); intros i x Hi Hx;
    specialize (Hw i x Hi Hx).
  - destruct (decide (i < base + half)%nat) as [Hlt|]; [|lia].
    rewrite (Hl i (base + half)%nat x m) in Hx; [done|done..|by rewrite Hf].
  - destruct (decide (i < base + half)%nat) as [Hlt|]; [|lia].
    rewrite (Hl i (base + half)%nat x m) in Hx; [done|done..|by rewrite Hf].
  - destruct (decide (i = base + half)%nat) as [->|]; [congruence|].
    destruct (decide (base + half < i)%nat) as [Hlt|]; [|lia].
    rewrite (Hl (base + half)%nat i m x) in Hf; [done|done..|by rewrite Hx].
Qed.

Lemma binary_search_by_spec :
  match binary_search_by f l with
  | Some i => ∃ x, l !! i = Some x ∧ f x = Eq
  | None => ∀ x, x ∈ l → f x ≠ Eq
  end.
Proof.
  assert (Hb : binary_search_by f l =
    match f <$> l !! search_loop (length l) f l 0 (length l) with
    | Some Eq => Some (search_loop (length l) f l 0 (length l)) | _ => None end).
  { by destruct l. }
  rewrite Hb. clear Hb. set (base := search_loop _ _ _ _ _).
  destruct (decide (l = [])) as [Hn|Hn].
  { unfold base. rewrite Hn. by intros x ?%not_elem_of_nil. }
  assert (Hw : window base 1).
  { apply search_loop_spec; [by destruct l; simpl in *; [|lia]|]. split; [lia|].
    intros i x Hi%lookup_lt_Some _. lia. }
  destruct Hw as [Hlen Hw]. destruct (lookup_lt_is_Some_2 l base) as [m Hm]; [lia|].
  rewrite Hm. simpl.
  assert (Hno : f m ≠ Eq → ∀ x, x ∈ l → f x ≠ Eq).
  { intros Hne x [i Hi]%list_elem_of_lookup_1 Hx. apply Hw in Hi as ?; [|done].
    replace i with base in Hi by lia. congruence. }
  destruct (f m) eqn:Hf; [by exists m|by apply Hno..].
Qed.
End search.

(** ** The order of architecture names *)

Lemma bytes_cmp_Eq a b : bytes_cmp a b = Eq ↔ a = b.
Proof.
  revert b. induction a as [|x a IH]; intros [|y b]; simpl; try done.
  destruct (Z.compare_spec x y) as [->| |]; split; try done; try (intros [= -> ?]; lia).
  - by intros ->%IH.
  - intros [= ->]. by apply IH.
Qed.

Lemma bytes_cmp_trans a b c : bytes_cmp a b = Lt → bytes_cmp b c ≠ Gt → bytes_cmp a c = Lt.
Proof.
  revert b c. induction a as [|x a IH]; intros [|y b] [|z c]; simpl; try done.
  destruct (Z.compare_spec x y) as [->| |]; try done.
  - destruct (Z.compare_spec y z); try done. apply IH.
  - intros _. destruct (Z.compare_spec y z); intros ?; try done;
      by rewrite (proj2 (Z.compare_lt_iff x z)) by lia.
Qed.

Lemma str_cmp_Eq a b :
  Forall (λ c, is_char c = true) a → Forall (λ c, is_char c = true) b →
  str_cmp a b = Eq ↔ a = b.
Proof.
  intros Ha Hb. unfold str_cmp. rewrite bytes_cmp_Eq. split; [|by intros ->].
  intros He. apply utf8_roundtrip in Ha, Hb. congruence.
Qed.

(** [StronglySorted] from neighbours, as an evaluation. *)
Fixpoint rising (l : list str) : bool :=
  match l with
  | a :: (b :: _) as l' => match str_cmp a b with Lt => rising l' | _ => false end
  | _ => true
  end.

Lemma rising_sorted l : rising l = true → StronglySorted (λ a b, str_cmp a b = Lt) l.
Proof.
  intros Hr. apply Sorted_StronglySorted.
  { intros a b c Hab Hbc. unfold str_cmp in *. eapply bytes_cmp_trans; [done|by rewrite Hbc]. }
  induction l as [|a [|b l] IH]; [by constructor..|]. cbn [rising] in Hr.
  destruct (str_cmp a b) eqn:E; try done. constructor; [by apply IH|by constructor].
Qed.

Lemma sorted_ascending l t :
  StronglySorted (λ a b, str_cmp a b = Lt) l → ascending (λ c, str_cmp c t) l.
Proof.
  intros Hs i j x y Hij Hi Hj Hy. eapply bytes_cmp_trans; [|exact Hy].
  exact (StronglySorted_lookup _ _ _ _ _ _ Hs Hi Hj Hij).
Qed.

Lemma supported_chars : Forall (λ s, Forall (λ c, is_char c = true) s) SUPPORTED.
Proof.
  apply Forall_forall. intros s Hs%list_elem_of_In. apply Forall_forall.
  intros c Hc%list_elem_of_In. revert c Hc. apply forallb_forall. revert s Hs.
  apply (forallb_forall (forallb is_char)). vm_compute. reflexivity.
Qed.

(** ** Totals *)

Section totals.
Context (π : QuantStat → option Z) (size : TensorInfo → option Z) (good : TensorInfo → Prop).
Hypothesis Hstep : ∀ t s a d,
  π s = Some a → size t = Some d → π (tally_one t s) = Some (sat_add64 a d).
Hypothesis Hzero : π stat_zero = Some 0.
Hypothesis Hsize : ∀ t d, good t → size t = Some d → 0 ≤ d.

(** One column of the table, added up without a bound. *)
Fixpoint column (m : list (GgmlType * QuantStat)) : option Z :=
  match m with
  | [] => Some 0
  | kv :: m => let! a := π (snd kv) in let! b := column m in Some (a + b)
  end.

(** The running total of the file, which is checked. *)
Definition total (acc : option Z) (ts : list TensorInfo) : option Z :=
  foldl (fun acc t => let! a := acc in let! e := size t in checked_add64 a e) acc ts.

Lemma column_tally m t d w :
  Forall (λ kv, ∀ a, π (snd kv) = Some a → 0 ≤ a) m → column m = Some w → good t →
  size t = Some d → w + d ≤ U64_MAX →
  column (tally m t) = Some (w + d) ∧
  Forall (λ kv, ∀ a, π (snd kv) = Some a → 0 ≤ a) (tally m t).
Proof.
  intros Hm Hw Hg Hd Hfit. pose proof (Hsize _ _ Hg Hd) as Hd0.
  assert (Hnew : ∀ a, π (tally_one t stat_zero) = Some a → a = sat_add64 0 d).
  { intros a. rewrite (Hstep _ _ _ _ Hzero Hd). by intros [= <-]. }
  revert w Hw Hfit. induction Hm as [|[k s] m Hs Hm IH]; intros w Hw Hfit; simpl in *.
  { injection Hw as <-. rewrite (Hstep _ _ _ _ Hzero Hd). simpl. unfold sat_add64.
    split; [f_equal; lia|]. constructor; [|done]. intros a ->%Hnew. unfold sat_add64, U64_MAX. lia. }
  destruct (π s) as [a|] eqn:Ea; [|done]. destruct (column m) as [b|] eqn:Eb; [|done].
  simpl in Hw. injection Hw as <-. specialize (Hs a eq_refl).
  assert (Hb0 : 0 ≤ b).
  { clear -Hm Eb. revert b Eb. induction Hm as [|[k s] m Hs Hm IH]; intros b; simpl; [intros [= <-]; lia|].
    destruct (π s) eqn:E; [|done]. destruct (column m); [|done]. simpl. intros [= <-].
    specialize (Hs _ E). specialize (IH _ eq_refl). lia. }
  case_bool_decide; [|destruct (_ <? _)]; simpl.
  - rewrite (Hstep _ _ _ _ Ea Hd), Eb. simpl. unfold sat_add64. split; [f_equal; lia|].
    constructor; [|done]. intros a'. simpl. rewrite (Hstep _ _ _ _ Ea Hd). intros [= <-].
    unfold sat_add64, U64_MAX. lia.
  - rewrite (Hstep _ _ _ _ Hzero Hd), Ea, Eb. simpl. unfold sat_add64. split; [f_equal; lia|].
    constructor; [|constructor; [|done]].
    + intros a' ->%Hnew. unfold sat_add64, U64_MAX. lia.
    + intros a'. simpl. rewrite Ea. by intros [= <-].
  - destruct (IH b eq_refl) as [-> HF]; [lia|]. rewrite Ea. simpl. split; [f_equal; lia|].
    constructor; [|done]. intros a'. simpl. rewrite Ea. by intros [= <-].
Qed.

Lemma total_None ts : total None ts = None.
Proof. by induction ts. Qed.

Lemma column_total m w ts w' :
  Forall (λ kv, ∀ a, π (snd kv) = Some a → 0 ≤ a) m → Forall good ts → column m = Some w →
  total (Some w) ts = Some w' → column (foldl tally m ts) = Some w'.
Proof.
  intros Hm Hg. revert m w Hm. induction Hg as [|t ts Hg Hts IH]; intros m w Hm Hw Ht; simpl in *;
    [congruence|].
  destruct (size t) as [d|] eqn:Hd; simpl in Ht; [|by rewrite total_None in Ht].
  unfold checked_add64 in Ht. destruct (Z.leb_spec (w + d) U64_MAX); [|by rewrite total_None in Ht].
  destruct (column_tally m t d w) as [Hc HF]; [done..|]. by eapply IH.
Qed.

(** A tensor that cannot be sized leaves its type, and the column, without one. *)
Lemma column_lost ts m t :
  (∀ u s, π s = None → π (tally_one u s) = None) → (∀ u s, size u = None → π (tally_one u s) = None) →
  t ∈ ts → size t = None → column (foldl tally m ts) = None.
Proof.
  intros Hkeep Hlose Hin Ht.
  assert (Hn : ∀ m u, column m = None → column (tally m u) = None).
  { intros m' u. induction m' as [|[k s] m' IH]; simpl; [done|]. intros Hc.
    case_bool_decide; [|destruct (_ <? _)]; simpl.
    - destruct (π s) eqn:E; [|by rewrite Hkeep]. simpl in Hc. destruct (column m'); [done|].
      simpl. by destruct (π (tally_one u s)).
    - destruct (π (tally_one u stat_zero)); [|done]. simpl. by rewrite Hc.
    - destruct (π s); [|done]. simpl in *. rewrite IH; [done|]. by destruct (column m'). }
  assert (Hm : ∀ m, column (tally m t) = None).
  { intros m'. induction m' as [|[k s] m' IH]; simpl; [by rewrite Hlose|].
    case_bool_decide; [|destruct (_ <? _)]; simpl; [by rewrite Hlose..|].
    rewrite IH. by destruct (π s). }
  revert m. induction ts as [|u ts IH]; intros m; [by apply not_elem_of_nil in Hin|]. simpl.
  apply elem_of_cons in Hin as [<-|Hin]; [|by apply IH].
  specialize (Hm m). revert Hm. generalize (tally m t). clear IH.
  induction ts as [|v ts IH]; intros m' Hc; simpl; [done|]. apply IH. by apply Hn.
Qed.
End totals.

(** An architecture is supported exactly when it is listed.  The binary
    search of the table, whose halving is only meaningful because the table
    is sorted, answers what a scan of the table would, for every text. *)
Theorem supported_exactly_listed a :
  Forall (λ c, is_char c = true) a → is_supported a = bool_decide (a ∈ SUPPORTED).
Proof.
  intros Ha. unfold is_supported.
  assert (Hs : ascending (λ c, str_cmp c a) SUPPORTED).
  { apply sorted_ascending, rising_sorted. vm_compute. reflexivity. }
  pose proof (binary_search_by_spec _ _ Hs) as H. pose proof supported_chars as Hc.
  rewrite Forall_forall in Hc. destruct (binary_search_by _ _) as [i|].
  - destruct H as (x & Hx%list_elem_of_lookup_2 & He). symmetry. apply bool_decide_eq_true.
    apply str_cmp_Eq in He as <-; [done|by apply Hc|done].
  - symmetry. apply bool_decide_eq_false. intros Hin. apply (H a Hin). by apply str_cmp_Eq; [apply Hc|..].
Qed.

Lemma supported_exactly_listed_witness :
  is_supported (lit "gemma3") = bool_decide (lit "gemma3" ∈ SUPPORTED) ∧
  is_supported (lit "gemma3") = true ∧ is_supported (lit "Gemma3") = false.
Proof.
  split; [|split; vm_compute; reflexivity].
  apply supported_exactly_listed. repeat constructor.
Defined.

(** ** The table of types *)

Lemma elements_nonneg t e : elements t = Some e → Forall in_u64 (t_dims t) → 0 ≤ e.
Proof.
  intros He Hd. unfold elements, elements_of in He.
  apply checked_product in He as [_ He]; [|unfold in_u64, U64_MAX; lia|done].
  unfold in_u64 in He. lia.
Qed.

Lemma byte_size_nonneg t b : byte_size t = Some b → 0 ≤ b.
Proof.
  unfold byte_size, bytes_for_elements. destruct (elements t); [|done]. simpl.
  destruct (block_size (ggml_type t)), (type_size (ggml_type t)); try done. intros [= <-].
  apply Z.mod_pos_bound. lia.
Qed.

Lemma total_count acc ts :
  acc + Z.of_nat (length ts) ≤ U64_MAX →
  total (λ _, Some 1) (Some acc) ts = Some (acc + Z.of_nat (length ts)).
Proof.
  revert acc. induction ts as [|t ts IH]; intros acc Hl; simpl in *; [f_equal; lia|].
  unfold checked_add64. destruct (Z.leb_spec (acc + 1) U64_MAX); [|lia].
  fold (total (λ _, Some 1)). etrans; [apply IH; lia|]. f_equal. lia.
Qed.

Lemma dominant_of_spec (m : list (GgmlType * QuantStat)) best kv :
  foldl (fun best kv =>
    match best with
    | None => Some kv
    | Some b => if qs_elements (snd kv) <? qs_elements (snd b) then best else Some kv
    end) best m = Some kv →
  (kv ∈ m ∨ best = Some kv) ∧
  ∀ k : GgmlType * QuantStat, k ∈ m ∨ best = Some k →
    qs_elements (snd k) ≤ qs_elements (snd kv).
Proof.
  revert best. induction m as [|x m IH]; intros best; simpl.
  { intros ->. split; [by right|]. intros k [?%not_elem_of_nil|[= ->]]; [done|lia]. }
  intros [Hin Hmax]%IH. destruct best as [b|].
  - destruct (Z.ltb_spec (qs_elements (snd x)) (qs_elements (snd b))).
    + split; [set_solver|]. intros k [[->|Hk]%elem_of_cons|[= <-]].
      * transitivity (qs_elements (snd b)); [lia|by auto].
      * by auto.
      * by auto.
    + split; [set_solver|]. intros k [[->|Hk]%elem_of_cons|[= <-]].
      * by auto.
      * by auto.
      * transitivity (qs_elements (snd x)); [lia|by auto].
  - split; [set_solver|]. intros k [[->|Hk]%elem_of_cons|[=]]; by auto.
Qed.

Lemma open_accepted file lim v f :
  Forall is_byte file → blen file ≤ U64_MAX → open_inner file lim v = Ok f →
  accepted (blen file) lim f.
Proof.
  intros Hb Hn Ho. apply open_inner_accepted; [done..|]. destruct v; [|done].
  by apply open_inner_verified in Ho as [Ho _].
Qed.

(** The table of tensor types adds up to the file.  For every file the
    reader accepts, the tensors counted by type are all its tensors; when the
    parameters of the file can be totalled, the types' elements add up to that
    total, and when its weights can be, so do the types' bytes, with nothing
    lost to saturation on the way; a tensor that cannot be sized leaves
    neither a total nor a sum; and no type holds more elements than the one
    named dominant. *)
Theorem quantization_adds_up file lim v f :
  Forall is_byte file → blen file ≤ U64_MAX → open_inner file lim v = Ok f →
  column (Some ∘ qs_tensors) (by_type (quant_mix f)) = Some (Z.of_nat (length (f_tensors f))) ∧
  (∀ n, parameter_count f = Some n →
     column (Some ∘ qs_elements) (by_type (quant_mix f)) = Some n) ∧
  (∀ w, weight_bytes f = Some w → column qs_bytes (by_type (quant_mix f)) = Some w) ∧
  (∀ t, t ∈ f_tensors f → byte_size t = None →
     weight_bytes f = None ∧ column qs_bytes (by_type (quant_mix f)) = None) ∧
  (∀ ty, dominant (quant_mix f) = Some ty → ∃ s, (ty, s) ∈ by_type (quant_mix f) ∧
     ∀ k s', (k, s') ∈ by_type (quant_mix f) → qs_elements s' ≤ qs_elements s).
Proof.
  intros Hb Hn Ho. destruct (open_accepted _ _ _ _ Hb Hn Ho) as ((_ & [Hts Hlen] & _) & _).
  split_and!.
  - eapply (column_total _ (λ _, Some 1) (λ _, True)); [by intros t s a d [= <-] [= <-]|done|
      by intros t d _ [= <-]|done|by apply Forall_true|done|]. etrans; [by apply total_count|]. done.
  - intros n Hp.
    eapply (column_total (Some ∘ qs_elements) elements (sized_tensor lim));
      [|done| |done|done|done|exact Hp].
    + intros t s a d [= <-] He. unfold tally_one. simpl. by rewrite He.
    + intros t d (_ & _ & Hd & _) He. by eapply elements_nonneg.
  - intros w Hw. eapply (column_total qs_bytes byte_size (λ _, True));
      [|done|by intros t b _; apply byte_size_nonneg|done|by apply Forall_true|done|exact Hw].
    intros t s a d Ha Hd. unfold tally_one. simpl. by rewrite Ha, Hd.
  - intros t Hin Ht. split.
    + unfold weight_bytes. change (total byte_size (Some 0) (f_tensors f) = None).
      generalize (Some 0). clear -Hin Ht. induction (f_tensors f) as [|u ts IH]; intros acc.
      { by apply not_elem_of_nil in Hin. }
      simpl. apply elem_of_cons in Hin as [<-|Hin]; [|by apply IH].
      rewrite Ht. destruct acc; apply total_None.
    + eapply (column_lost _ byte_size); [..|exact Hin|exact Ht].
      * intros u s Hs. unfold tally_one. simpl. by rewrite Hs.
      * intros u s Hs. unfold tally_one. simpl. rewrite Hs. by destruct (qs_bytes s).
  - intros ty Hd. unfold quant_mix in *. simpl in *. unfold dominant_of in Hd.
    destruct (foldl _ _ _) as [[k s]|] eqn:E; [|done]. injection Hd as <-.
    apply dominant_of_spec in E as [[Hin|[=]] Hmax]. exists s. split; [done|].
    intros k' s' Hk. apply (Hmax (k', s')). by left.
Qed.

Lemma quantization_adds_up_witness :
  open tiny_file = Ok (decoded_file tiny 368) ∧
  by_type (quant_mix (decoded_file tiny 368)) = [(F32, mkStat 1 3 (Some 12)); (Q4_0, mkStat 1 64 (Some 36))] ∧
  column qs_bytes (by_type (quant_mix (decoded_file tiny 368))) = Some 48.
Proof.
  split; [vm_compute; reflexivity|]. split; [vm_compute; reflexivity|].
  apply (quantization_adds_up tiny_file ReadLimits_default true (decoded_file tiny 368)).
  - apply bytes_dec. vm_compute. reflexivity.
  - vm_compute. discriminate.
  - vm_compute. reflexivity.
  - vm_compute. reflexivity.
Defined.

(** ** Extraction *)

Lemma read_elements_spec n width off index rest :
  0 < width ≤ 8 → Z.of_nat n * width ≤ blen rest →
  ∃ l, read_elements n width off index rest = Ok l ∧ length l = n ∧
    ∀ i h, l !! i = Some h →
      h = from_le (take (Z.to_nat width) (drop (i * Z.to_nat width) rest)).
Proof.
  intros Hw. revert index rest. induction n as [|n IH]; intros index rest Hlen; simpl.
  { by exists []. }
  unfold blen in *. destruct (Z.ltb_spec 8 width); [lia|].
  destruct (Z.ltb_spec (Z.of_nat (length rest)) width); [lia|].
  destruct (IH (index + 1) (drop (Z.to_nat width) rest)) as (l & -> & Hl & Hi).
  { rewrite length_drop. lia. }
  simpl. eexists. split; [done|]. split; [simpl; lia|].
  intros [|i] h; simpl; [by intros [= <-]|]. intros ->%Hi. by rewrite drop_drop.
Qed.

(** What the array read gives for an accepted file that has not changed. *)
Lemma read_u64_array_spec file lim f key :
  accepted (blen file) lim f →
  ∃ r, read_u64_array f (Some file) key = Ok r ∧
    match get_array f key with
    | None => r = (λ v, [v]) <$> get_u64 f key
    | Some a =>
        match fixed_width (element_type a) with
        | None => r = None
        | Some w => ∃ heads, r = Some heads ∧ Z.of_nat (length heads) = arr_len a ∧
            ∀ i h, heads !! i = Some h →
              h = from_le (take (Z.to_nat w)
                    (drop (Z.to_nat (arr_offset a) + i * Z.to_nat w)%nat file))
        end
    end.
Proof.
  intros ((Hmd & _) & _). unfold read_u64_array.
  destruct (get_array f key) as [a|] eqn:Ha; [|by eexists].
  destruct (fixed_width _) as [w|] eqn:Hw; [|by eexists]. simpl.
  unfold get_array in Ha. destruct (f_metadata f !! key) as [v|] eqn:Hv; [|done].
  simpl in Ha. destruct v; simplify_eq/=. apply Hmd in Hv as [_ (Ho & Hl & Hfit & Hb)].
  specialize (Hb _ Hw). assert (0 < w ≤ 8) by (destruct (element_type a); simplify_eq/=; lia).
  destruct (read_elements_spec (Z.to_nat (arr_len a)) w (arr_offset a) 0
              (drop (Z.to_nat (arr_offset a)) file)) as (l & -> & Hlen & Hi); [done| |].
  { unfold blen in *. rewrite length_drop. nia. }
  eexists. split; [done|]. exists l. split_and!; [done|lia|].
  intros i h ->%Hi. by rewrite drop_drop.
Qed.

(** The keys [from_file] looks for, and whether the file answers them. *)
Definition wanted (f : GgufFile) : list str :=
  arch_key (default [] (get_str f (lit "general.architecture"))) <$>
    [lit "context_length"; lit "block_count"; lit "embedding_length";
     lit "feed_forward_length"; lit "attention.head_count"].
Definition kv_key_of (f : GgufFile) : str :=
  arch_key (default [] (get_str f (lit "general.architecture"))) (lit "attention.head_count_kv").

Definition unanswered (f : GgufFile) (k : str) : bool := bool_decide (get_u64 f k = None).
Definition unanswered_kv (f : GgufFile) : bool :=
  match get_array f (kv_key_of f) with
  | Some a => bool_decide (fixed_width (element_type a) = None)
  | None => unanswered f (kv_key_of f)
  end.

Lemma want_u64_spec f k missing :
  want_u64 f k missing =
  (get_u64 f k, missing ++ if unanswered f k then [k] else []).
Proof.
  unfold want_u64, unanswered. destruct (get_u64 f k); simpl; [by rewrite app_nil_r|done].
Qed.

(** Keys pushed one after the other are the keys that pass the test. *)
Lemma pushed_five (p : str → bool) a b c d e :
  List.filter p [a; b; c; d; e] =
  (((([] ++ if p a then [a] else []) ++ if p b then [b] else []) ++ if p c then [c] else [])
     ++ if p d then [d] else []) ++ if p e then [e] else [].
Proof. simpl. by destruct (p a), (p b), (p c), (p d), (p e). Qed.

(** Extraction never fails on an accepted file, and never invents.  For
    every file the reader accepts, read again unchanged, extraction gives the
    metadata: the keys reported missing are exactly the looked-for keys the
    file does not answer, in the order looked for, each numeric field is the
    file's answer or nothing, and a per-layer list of key-value heads has
    one entry for each element the header counts, decoded from the bytes of
    that element. *)
Theorem extraction_is_faithful file lim v f :
  Forall is_byte file → blen file ≤ U64_MAX → open_inner file lim v = Ok f →
  ∃ m, from_file f (Some file) = Ok m ∧
    missing m = List.filter (unanswered f) (wanted f)
                ++ (if unanswered_kv f then [kv_key_of f] else []) ∧
    (head_count_kv (model m) = None ↔ unanswered_kv f = true) ∧
    [md_context_length (model m); block_count (model m); embedding_length (model m);
     feed_forward_length (model m); head_count (model m)] = get_u64 f <$> wanted f ∧
    ∀ a w, get_array f (kv_key_of f) = Some a → fixed_width (element_type a) = Some w →
      ∃ heads, head_count_kv (model m) = Some heads ∧ Z.of_nat (length heads) = arr_len a ∧
        ∀ i h, heads !! i = Some h →
          h = from_le (take (Z.to_nat w)
                (drop (Z.to_nat (arr_offset a) + i * Z.to_nat w)%nat file)).
Proof.
  intros Hb Hn Ho. pose proof (open_accepted _ _ _ _ Hb Hn Ho) as Hacc.
  destruct (read_u64_array_spec file lim f (kv_key_of f) Hacc) as (r & Hr & Hspec).
  assert (Hnone : r = None ↔ unanswered_kv f = true).
  { unfold unanswered_kv, unanswered. destruct (get_array f (kv_key_of f)) as [a|].
    - destruct (fixed_width _); rewrite bool_decide_eq_true; [|by rewrite Hspec].
      by destruct Hspec as (? & -> & _).
    - rewrite bool_decide_eq_true, Hspec. by destruct (get_u64 _ _). }
  unfold from_file, kv_key_of in *. rewrite !want_u64_spec. rewrite Hr. cbn [res_bind].
  eexists. split; [reflexivity|]. cbn [missing model head_count_kv]. split_and!.
  - unfold wanted. cbn [fmap list_fmap]. rewrite pushed_five.
    destruct r; destruct (unanswered_kv f); [by discriminate (proj2 Hnone eq_refl)| |done|by discriminate (proj1 Hnone eq_refl)].
    by rewrite app_nil_r.
  - done.
  - done.
  - intros a w Ha Hw. rewrite Ha, Hw in Hspec. exact Hspec.
Qed.

(** A hybrid model of four layers, two of them with attention. *)
Definition hybrid : GgufBuilder :=
  builder_kv
    (builder_kv
       (builder_kv GgufBuilder_new (lit "general.architecture") (FxStr (lit "lfm2")))
       (lit "lfm2.block_count") (FxU32 4))
    (lit "lfm2.attention.head_count_kv") (FxU32Array [0; 8; 0; 8]).
Definition hybrid_file : list byte := default [] (build hybrid).

Lemma extraction_is_faithful_witness :
  ∃ f m, open hybrid_file = Ok f ∧ from_file f (Some hybrid_file) = Ok m ∧
    head_count_kv (model m) = Some [0; 8; 0; 8] ∧
    missing m = [lit "lfm2.context_length"; lit "lfm2.embedding_length";
                 lit "lfm2.feed_forward_length"; lit "lfm2.attention.head_count"].
Proof.
  destruct (open hybrid_file) as [f|] eqn:Ho; [|vm_compute in Ho; discriminate].
  destruct (extraction_is_faithful hybrid_file ReadLimits_default true f) as (m & Hm & _).
  - apply bytes_dec. vm_compute. reflexivity.
  - vm_compute. discriminate.
  - exact Ho.
  - exists f, m. split; [done|]. split; [exact Hm|].
    assert (E : match open hybrid_file with
                | Ok f => match from_file f (Some hybrid_file) with
                          | Ok m => (head_count_kv (model m), missing m) | Err _ => (None, []) end
                | Err _ => (None, []) end =
                (Some [0; 8; 0; 8],
                 [lit "lfm2.context_length"; lit "lfm2.embedding_length";
                  lit "lfm2.feed_forward_length"; lit "lfm2.attention.head_count"]))
      by (vm_compute; reflexivity).
    rewrite Ho, Hm in E. injection E as -> ->. by split.
Defined.

(** The header of a model whose key-value head counts are [value], encoded
    with its tag. *)
Definition heads_file (value : list byte) : list byte :=
  MAGIC ++ to_le 4 3 ++ to_le 8 0 ++ to_le 8 1
  ++ write_string (lit ".attention.head_count_kv") ++ value.

Definition heads_of (file : list byte) : option (list u64) :=
  match open file with
  | Ok f => match from_file f (Some file) with Ok m => head_count_kv (model m) | Err _ => None end
  | Err _ => None
  end.

(** A negative head count is refused as a scalar and wraps in an array.  A
    header that gives -1 heads as one [i32] has no head count, as a reader of
    corrupt values should say; the same -1 as the first of two [i32] elements
    is read as 4294967295 heads, and two [f32] elements are read as the
    integers of their encodings. *)
Theorem negative_heads_wrap :
  heads_of (heads_file (to_le 4 5 ++ to_le 4 (2 ^ 32 - 1))) = None ∧
  heads_of (heads_file (to_le 4 9 ++ to_le 4 5 ++ to_le 8 2 ++ to_le 4 (2 ^ 32 - 1) ++ to_le 4 8))
    = Some [4294967295; 8] ∧
  heads_of (heads_file (to_le 4 9 ++ to_le 4 6 ++ to_le 8 2
                          ++ to_le 4 0x41000000 ++ to_le 4 0x41000000))
    = Some [1090519040; 1090519040].
Proof. split_and!; vm_compute; reflexivity. Qed.

(** [is_complete_for_estimation] asks for less than the estimate does. *)
Definition headless : Extracted :=
  mkExtracted (lit "llama") true None
    (mkMetadata (Some 4096) (Some 32) None None None (Some [8]) (Some 128) (Some 128) None (Some 0))
    None None (mkTokenizer None None None None None None None None None false None) None
    (mkMix None []) 0 None 3 32 [].

Example complete_yet_partial :
  is_complete_for_estimation headless = true ∧
  confidence (estimate ComputeModel_default (model headless) RuntimeParams_default
                (mkSnapshot (64 * 2 ^ 30) (16 * 2 ^ 30) 0 0 0)) = Partial.
Proof. split; vm_compute; reflexivity. Qed.
