(* ===== verification/Frames.v ===== *)
(** * Frames of an event stream

    Where a server-sent event ends: the search shared by the codec of
    [crates/lightweight-core/src/sse.rs] (over characters) and the rewriter of
    [crates/lightweight-router/src/sse.rs] (over bytes).  Both are lists of
    numbers and every terminator is ASCII, so one development serves both;
    [cut_utf8] says they find the same frames. *)

From stdpp Require Import base gmap strings numbers list.
From S2P Require Import Prelude Names Utf8.

Definition CR : Z := 13.
Definition LF : Z := 10.

(** [slice::starts_with] and [str::starts_with]. *)
Fixpoint starts_with (needle l : list Z) : bool :=
  match needle, l with
  | [], _ => true
  | _, [] => false
  | x :: needle, y :: l => (x =? y) && starts_with needle l
  end.

(** [haystack.windows(needle.len()).position(..)], and [str::find]. *)
Fixpoint find (haystack needle : list Z) : option nat :=
  if starts_with needle haystack then Some 0%nat
  else match haystack with
       | [] => None
       | _ :: haystack => S <$> find haystack needle
       end.

Definition TERMINATORS : list (list Z) :=
  [[CR; LF; CR; LF]; [LF; LF]; [CR; CR]; [LF; CR; LF]].

Definition candidate (buffer terminator : list Z) : option (nat * nat) :=
  let! at_ := find buffer terminator in Some (at_, (at_ + length terminator)%nat).

(** The length of the first frame's own lines, and that plus its terminator. *)
Definition frame_end (buffer : list Z) : option (nat * nat) :=
  snd <$> min_by (fun a b => (fst a <? fst b)%nat) (omap (candidate buffer) TERMINATORS).

(** [text.split(['\n', '\r'])]. *)
Fixpoint split_at_any (p : Z → bool) (l : list Z) : list (list Z) :=
  match l with
  | [] => [[]]
  | x :: l =>
      match split_at_any p l with
      | [] => [[x]]
      | first :: rest => if p x then [] :: first :: rest else (x :: first) :: rest
      end
  end.

Definition is_eol (c : Z) : bool := (c =? LF) || (c =? CR).

(** [text.split(['\n', '\r']).filter(|line| !line.is_empty())]. *)
Definition lines_of (text : list Z) : list (list Z) :=
  List.filter (fun line => negb (bool_decide (line = []))) (split_at_any is_eol text).

(** [value.strip_prefix(' ').unwrap_or(value)]. *)
Definition strip_space (value : str) : str :=
  match value with
  | c :: value' => if c =? 32 then value' else value
  | [] => []
  end.

(** ** The search as one scan *)

Definition terminator_at (l : list Z) : option nat :=
  if starts_with [CR; LF; CR; LF] l then Some 4%nat
  else if starts_with [LF; LF] l then Some 2%nat
  else if starts_with [CR; CR] l then Some 2%nat
  else if starts_with [LF; CR; LF] l then Some 3%nat
  else None.

Definition shift (e : nat * nat) : nat * nat := (S (fst e), S (snd e)).

Fixpoint cut (l : list Z) : option (nat * nat) :=
  match terminator_at l with
  | Some n => Some (0%nat, n)
  | None => match l with
            | [] => None
            | _ :: l => shift <$> cut l
            end
  end.

(** The complete frames of a buffer, each as its own lines and as the whole of
    it, and what is left. *)
Fixpoint frames_upto (fuel : nat) (l : list Z) : list (list Z * list Z) * list Z :=
  match fuel with
  | O => ([], l)
  | S fuel =>
      match frame_end l with
      | None => ([], l)
      | Some (content, total) =>
          let '(fs, rest) := frames_upto fuel (drop total l) in
          ((take content l, take total l) :: fs, rest)
      end
  end.

Definition frames (l : list Z) : list (list Z * list Z) * list Z := frames_upto (length l) l.

Definition best (l : list Z) (Ts : list (list Z)) : option (nat * nat) :=
  snd <$> min_by (fun a b => (fst a <? fst b)%nat) (omap (candidate l) Ts).

Lemma best_cons l T Ts :
  best l (T :: Ts) =
  match candidate l T, best l Ts with
  | None, r => r
  | Some c, None => Some c
  | Some c, Some r => if (fst r <? fst c)%nat then Some r else Some c
  end.
Proof.
  unfold best. change (omap (candidate l) (T :: Ts)) with
    (match candidate l T with Some c => c :: omap (candidate l) Ts | None => omap (candidate l) Ts end).
  destruct (candidate l T) as [c|]; [|done]. cbn [min_by].
  destruct (min_by _ (omap (candidate l) Ts)) as [[i y]|]; simpl; [|done].
  by destruct (fst y <? fst c)%nat.
Qed.

Lemma candidate_cons x l T :
  T ≠ [] → candidate (x :: l) T =
  if starts_with T (x :: l) then Some (0%nat, length T) else shift <$> candidate l T.
Proof.
  intros HT. unfold candidate. destruct T as [|t T]; [done|]. cbn [find].
  destruct (starts_with (t :: T) (x :: l)); [done|]. by destruct (find l (t :: T)).
Qed.

Lemma best_step x l Ts :
  (∀ T, T ∈ Ts → T ≠ []) →
  best (x :: l) Ts =
  match find_first (fun T => starts_with T (x :: l)) Ts with
  | Some T => Some (0%nat, length T)
  | None => shift <$> best l Ts
  end.
Proof.
  intros HT. induction Ts as [|T Ts IH]; [done|].
  rewrite !best_cons, IH, candidate_cons.
  2: { apply HT, list_elem_of_here. } 2: { intros U HU. by apply HT, list_elem_of_further. }
  cbn [find_first]. destruct (starts_with T (x :: l)).
  - destruct (find_first _ Ts); [done|]. by destruct (best l Ts).
  - destruct (find_first _ Ts); [by destruct (candidate l T)|].
    destruct (candidate l T) as [[a b]|], (best l Ts) as [[c d]|]; try done. simpl.
    change (S c <? S a)%nat with (c <? a)%nat. by destruct (c <? a)%nat.
Qed.

Lemma frame_end_cut l : frame_end l = cut l.
Proof.
  induction l as [|x l IH]; [reflexivity|]. change (frame_end (x :: l)) with (best (x :: l) TERMINATORS).
  rewrite best_step.
  - change (best l TERMINATORS) with (frame_end l). rewrite IH. cbn [cut]. unfold terminator_at.
    unfold TERMINATORS. cbn [find_first].
    destruct (starts_with [CR; LF; CR; LF] _); [done|]. destruct (starts_with [LF; LF] _); [done|].
    destruct (starts_with [CR; CR] _); [done|]. by destruct (starts_with [LF; CR; LF] _).
  - intros T. unfold TERMINATORS. rewrite !elem_of_cons, elem_of_nil. naive_solver.
Qed.

(** Case analysis on the characters a pattern compares. *)
Ltac eqb_cases :=
  repeat (match goal with |- context [?x =? ?y] => destruct (Z.eqb_spec x y) end;
          subst; cbn [andb orb negb] in *; try lia); try done.

Lemma terminator_at_app l k n : terminator_at l = Some n → terminator_at (l ++ k) = Some n.
Proof.
  unfold terminator_at, CR, LF.
  destruct l as [|a [|b [|c [|d l]]]]; cbn [starts_with app]; rewrite ?andb_false_r; eqb_cases.
Qed.

Lemma terminator_at_short x l k :
  terminator_at (x :: l) = None → is_Some (cut l) → terminator_at ((x :: l) ++ k) = None.
Proof.
  destruct l as [|b [|c [|d l]]]; cbn [cut app]; unfold terminator_at, CR, LF;
    cbn [starts_with]; rewrite ?andb_false_r; [by intros _ [? ?]..| |].
  - eqb_cases; by intros ? [? ?].
  - by intros H _.
Qed.

(** A frame that has ended stays where it is, whatever arrives after it. *)
Lemma cut_app l k e : cut l = Some e → cut (l ++ k) = Some e.
Proof.
  revert e. induction l as [|x l IH]; intros e; [done|].
  rewrite <-app_comm_cons. cbn [cut]. destruct (terminator_at (x :: l)) as [n|] eqn:Ht.
  - intros [= <-]. pose proof (terminator_at_app _ k _ Ht) as H. rewrite <-app_comm_cons in H. by rewrite H.
  - destruct (cut l) as [e'|] eqn:Hc; [|done]. intros [= <-].
    pose proof (terminator_at_short _ _ k Ht ltac:(by rewrite Hc)) as H. rewrite <-app_comm_cons in H.
    by rewrite H, (IH e').
Qed.

Lemma terminator_at_bound l n : terminator_at l = Some n → (2 ≤ n ≤ length l)%nat.
Proof.
  unfold terminator_at, CR, LF.
  destruct l as [|a [|b [|c [|d l]]]]; cbn [starts_with length]; rewrite ?andb_false_r;
    repeat case_match; intros; simplify_eq; lia.
Qed.

Lemma cut_bound l c t : cut l = Some (c, t) → (c + 2 ≤ t ≤ length l)%nat.
Proof.
  revert c t. induction l as [|x l IH]; intros c t; [done|]. cbn [cut].
  destruct (terminator_at (x :: l)) as [n|] eqn:Ht.
  - intros [= <- <-]. apply terminator_at_bound in Ht. lia.
  - destruct (cut l) as [[c' t']|]; [|done]. intros [= <- <-].
    destruct (IH c' t' eq_refl). cbn [length]. lia.
Qed.

Lemma frame_end_bound l c t : frame_end l = Some (c, t) → (c + 2 ≤ t ≤ length l)%nat.
Proof. rewrite frame_end_cut. apply cut_bound. Qed.

(** ** Frames *)

Lemma frames_upto_enough n m l :
  (length l ≤ n)%nat → (length l ≤ m)%nat → frames_upto n l = frames_upto m l.
Proof.
  revert m l. induction n as [|n IH]; intros [|m] l Hn Hm; try (destruct l; [done|simpl in *; lia]).
  cbn [frames_upto]. destruct (frame_end l) as [[c t]|] eqn:E; [|done].
  apply frame_end_bound in E.
  rewrite (IH m); [done|rewrite length_drop; lia..].
Qed.

Lemma frames_unfold l :
  frames l = match frame_end l with
             | None => ([], l)
             | Some (content, total) =>
                 let '(fs, rest) := frames (drop total l) in
                 ((take content l, take total l) :: fs, rest)
             end.
Proof.
  unfold frames at 1. destruct l as [|x l]; [reflexivity|]. cbn [length frames_upto].
  destruct (frame_end (x :: l)) as [[c t]|] eqn:E; [|done].
  apply frame_end_bound in E. unfold frames.
  rewrite (frames_upto_enough _ (length (drop t (x :: l)))); [done|rewrite length_drop; simpl in *; lia|lia].
Qed.

(** The rule of induction over the frames of a buffer. *)
Lemma frames_ind (P : list Z → Prop) :
  (∀ l, frame_end l = None → P l) →
  (∀ l c t, frame_end l = Some (c, t) → P (drop t l) → P l) → ∀ l, P l.
Proof.
  intros H0 H1 l. induction ((well_founded_ltof _ (@length Z)) l) as [l _ IH].
  destruct (frame_end l) as [[c t]|] eqn:E; [|by apply H0]. eapply H1; [done|]. apply IH.
  apply frame_end_bound in E. unfold ltof. rewrite length_drop. lia.
Qed.

Lemma frames_app a b :
  frames (a ++ b) =
  let '(fs, r) := frames a in let '(gs, r') := frames (r ++ b) in (fs ++ gs, r').
Proof.
  induction a as [l E|l c t E IH] using frames_ind; rewrite (frames_unfold l), E.
  - by destruct (frames (l ++ b)).
  - rewrite (frames_unfold (l ++ b)), frame_end_cut, (cut_app l b (c, t)) by (by rewrite <-frame_end_cut).
    apply frame_end_bound in E.
    rewrite !take_app_le, drop_app_le, IH by lia. destruct (frames (drop t l)) as [fs r].
    by destruct (frames (r ++ b)).
Qed.

(** Nothing is lost or reordered. *)
Lemma frames_concat l : let '(fs, r) := frames l in concat (snd <$> fs) ++ r = l.
Proof.
  induction l as [l E|l c t E IH] using frames_ind; rewrite (frames_unfold l), E; [done|].
  destruct (frames (drop t l)) as [fs r]. rewrite fmap_cons. cbn [concat snd].
  by rewrite <-app_assoc, IH, take_drop.
Qed.

Lemma frames_content l f c : f ∈ fst (frames l) → c ∈ fst f → c ∈ l.
Proof.
  induction l as [l E|l b t E IH] using frames_ind; rewrite (frames_unfold l), E.
  { by intros ?%not_elem_of_nil. }
  destruct (frames (drop t l)) as [fs r]. cbn [fst]. intros [->|Hf]%elem_of_cons Hc.
  - cbn [fst] in Hc. rewrite <-(take_drop b l). apply elem_of_app. by left.
  - rewrite <-(take_drop t l). apply elem_of_app. right. by apply IH.
Qed.

Lemma frames_rest l : frame_end (snd (frames l)) = None.
Proof.
  induction l as [l E|l c t E IH] using frames_ind; rewrite (frames_unfold l), E; [done|].
  by destruct (frames (drop t l)).
Qed.

(** ** Characters and their bytes *)

Lemma utf8_char_ascii c : c < 0x80 → utf8_char c = [c].
Proof. intros Hc. unfold utf8_char. by destruct (Z.ltb_spec c 0x80); [|lia]. Qed.

Lemma utf8_char_high c b : 0x80 ≤ c → b ∈ utf8_char c → 0x80 ≤ b.
Proof.
  intros Hc. unfold utf8_char. destruct (Z.ltb_spec c 0x80); [lia|].
  assert (∀ x y, 0 ≤ x → 0 < y → 0 ≤ x / y ∧ 0 ≤ x mod y) as Hnn.
  { intros x y. split; [by apply Z.div_pos|by apply Z.mod_pos_bound]. }
  repeat case_match; rewrite !elem_of_cons, elem_of_nil; intros Hb;
    pose proof (Hnn c 64); pose proof (Hnn c 4096); pose proof (Hnn c 262144);
    pose proof (Hnn (c / 64) 64); pose proof (Hnn (c / 4096) 64); lia.
Qed.

Lemma utf8_encode_cons c t : utf8_encode (c :: t) = utf8_char c ++ utf8_encode t.
Proof. reflexivity. Qed.

Lemma utf8_encode_app s t : utf8_encode (s ++ t) = utf8_encode s ++ utf8_encode t.
Proof. unfold utf8_encode. by rewrite fmap_app, concat_app. Qed.

Lemma utf8_char_head c : ∃ b bs, utf8_char c = b :: bs.
Proof. unfold utf8_char. repeat case_match; eauto. Qed.

(** A pattern of ASCII characters is found in the bytes where it is found in
    the text. *)
Lemma starts_with_utf8 needle t :
  Forall (λ c, c < 0x80) needle → starts_with needle (utf8_encode t) = starts_with needle t.
Proof.
  intros Hn. revert t. induction Hn as [|x needle Hx _ IH]; intros [|c t]; [done..|].
  rewrite utf8_encode_cons. destruct (Z.ltb_spec c 0x80) as [Hc|Hc].
  - rewrite utf8_char_ascii by done. cbn [app starts_with]. by rewrite IH.
  - destruct (utf8_char_head c) as (b & bs & Hb).
    assert (0x80 ≤ b) by (apply (utf8_char_high c); [done|rewrite Hb; apply list_elem_of_here]).
    rewrite Hb. cbn [app starts_with].
    by rewrite (proj2 (Z.eqb_neq x b)), (proj2 (Z.eqb_neq x c)) by lia.
Qed.

Lemma terminator_at_utf8 t : terminator_at (utf8_encode t) = terminator_at t.
Proof. unfold terminator_at. by rewrite !starts_with_utf8 by (repeat constructor; by vm_compute). Qed.

Lemma terminator_at_other b l : is_eol b = false → terminator_at (b :: l) = None.
Proof. unfold is_eol, terminator_at, CR, LF. cbn [starts_with]. intros Hb. eqb_cases. Qed.

Lemma cut_skip bs l :
  (∀ b, b ∈ bs → is_eol b = false) →
  cut (bs ++ l) = (λ e, (length bs + fst e, length bs + snd e)%nat) <$> cut l.
Proof.
  induction bs as [|b bs IH]; intros Hb.
  - simpl. by destruct (cut l) as [[c t]|].
  - rewrite <-app_comm_cons. cbn [cut].
    rewrite terminator_at_other by (apply Hb, list_elem_of_here).
    rewrite IH by (intros; apply Hb; by apply list_elem_of_further).
    by destruct (cut l) as [[c t]|].
Qed.

Lemma high_not_eol b : 0x80 ≤ b → is_eol b = false.
Proof. unfold is_eol, CR, LF. lia. Qed.

Lemma terminator_at_take l n : terminator_at l = Some n → utf8_encode (take n l) = take n l.
Proof.
  unfold terminator_at, CR, LF.
  destruct l as [|a [|b [|c [|d l]]]]; cbn [starts_with]; rewrite ?andb_false_r, ?andb_true_r;
    eqb_cases; by intros [= <-].
Qed.

Lemma cut_utf8 t :
  cut (utf8_encode t) =
  (λ e, (length (utf8_encode (take (fst e) t)), length (utf8_encode (take (snd e) t)))) <$> cut t.
Proof.
  induction t as [|c t IH]; [reflexivity|].
  rewrite utf8_encode_cons. destruct (Z.ltb_spec c 0x80) as [Hc|Hc].
  - rewrite utf8_char_ascii by done. cbn [app cut].
    replace (terminator_at (c :: utf8_encode t)) with (terminator_at (c :: t)).
    2: { rewrite <-terminator_at_utf8, utf8_encode_cons, utf8_char_ascii by done. done. }
    destruct (terminator_at (c :: t)) as [n|] eqn:Ht.
    + cbn [fmap option_fmap option_map fst snd].
      rewrite (terminator_at_take _ _ Ht), length_take. apply terminator_at_bound in Ht.
      rewrite Nat.min_l by lia. done.
    + rewrite IH. destruct (cut t) as [[a b]|]; [|done]. unfold shift. simpl.
      rewrite !utf8_encode_cons, utf8_char_ascii by done. done.
  - rewrite cut_skip, IH by (intros; apply high_not_eol; by eapply utf8_char_high). cbn [cut].
    rewrite terminator_at_other by (by apply high_not_eol). destruct (cut t) as [[a b]|]; [|done]. unfold shift. simpl.
    by rewrite !utf8_encode_cons, !length_app.
Qed.

(** ** Lines *)

Definition is_line (l : list Z) : Prop := l ≠ [] ∧ ∀ c, c ∈ l → is_eol c = false.

(** [lines.join("\n")]. *)
Fixpoint join_lines (ls : list (list Z)) : list Z :=
  match ls with
  | [] => []
  | [l] => l
  | l :: ls => l ++ LF :: join_lines ls
  end.

Lemma join_lines_cons l ls : ls ≠ [] → join_lines (l :: ls) = l ++ LF :: join_lines ls.
Proof. by destruct ls. Qed.

Lemma split_at_any_ne p l : split_at_any p l ≠ [].
Proof. destruct l; simpl; [done|]. destruct (split_at_any p l); [done|]. by destruct (p z). Qed.

Lemma split_at_any_skip p l r f rest :
  (∀ c, c ∈ l → p c = false) → split_at_any p r = f :: rest →
  split_at_any p (l ++ r) = (l ++ f) :: rest.
Proof.
  intros Hl Hr. induction l as [|x l IH]; [done|]. rewrite <-app_comm_cons. cbn [split_at_any].
  rewrite IH by (intros; apply Hl; by apply list_elem_of_further).
  by rewrite (Hl x) by apply list_elem_of_here.
Qed.

Lemma split_at_any_sep p l x r :
  (∀ c, c ∈ l → p c = false) → p x = true →
  split_at_any p (l ++ x :: r) = l :: split_at_any p r.
Proof.
  intros Hl Hx. destruct (split_at_any p r) as [|f rest] eqn:Hr; [by apply split_at_any_ne in Hr|].
  rewrite (split_at_any_skip p l (x :: r) [] (f :: rest)); [by rewrite app_nil_r|done|].
  cbn [split_at_any]. by rewrite Hr, Hx.
Qed.

Lemma split_at_any_one p l : (∀ c, c ∈ l → p c = false) → split_at_any p l = [l].
Proof.
  intros Hl. pose proof (split_at_any_skip p l [] [] [] Hl eq_refl) as H. by rewrite !app_nil_r in H.
Qed.

Lemma lines_of_join ls : Forall is_line ls → lines_of (join_lines ls) = ls.
Proof.
  unfold lines_of. induction 1 as [|l ls [Hne Hl] Hls IH]; [reflexivity|].
  destruct ls as [|l' ls].
  - cbn [join_lines]. rewrite split_at_any_one by done. simpl. by rewrite bool_decide_eq_false_2.
  - rewrite join_lines_cons, split_at_any_sep by done. cbn [List.filter]. rewrite IH.
    by rewrite bool_decide_eq_false_2.
Qed.

Lemma cut_lines ls k :
  ls ≠ [] → Forall is_line ls →
  cut (join_lines ls ++ LF :: LF :: k)
  = Some (length (join_lines ls), (length (join_lines ls) + 2)%nat).
Proof.
  intros Hls Hok. induction Hok as [|l ls [Hne Hl] Hok IH]; [done|].
  destruct ls as [|l' ls].
  - cbn [join_lines]. rewrite cut_skip by done. simpl. by rewrite Nat.add_0_r.
  - rewrite join_lines_cons, <-app_assoc, cut_skip by done. rewrite <-app_comm_cons. cbn [cut].
    assert (Hx : ∃ x y, join_lines (l' :: ls) = x :: y ∧ is_eol x = false).
    { apply Forall_cons in Hok as [[Hne' Hl'] _]. destruct l' as [|x l']; [done|].
      destruct ls as [|m ms]; [exists x, l'|exists x, (l' ++ LF :: join_lines (m :: ms))];
        (split; [done|apply Hl', list_elem_of_here]). }
    destruct Hx as (x & y & Hx & Hex).
    assert (Ht : terminator_at (LF :: join_lines (l' :: ls) ++ LF :: LF :: k) = None).
    { rewrite Hx. unfold is_eol in Hex. unfold terminator_at, CR, LF in *. cbn [starts_with app].
      eqb_cases. }
    rewrite Ht, IH by done. cbn [fmap option_fmap option_map shift fst snd].
    rewrite length_app. cbn [length]. f_equal. f_equal; lia.
Qed.

(** ** Frames of texts and of their parts *)

Lemma utf8_take_drop n t : utf8_encode t = utf8_encode (take n t) ++ utf8_encode (drop n t).
Proof. by rewrite <-utf8_encode_app, take_drop. Qed.

Definition encode_frame (f : str * str) : list byte * list byte :=
  (utf8_encode (fst f), utf8_encode (snd f)).

(** A text and its bytes have the same frames. *)
Lemma frames_utf8 t :
  frames (utf8_encode t) = let '(fs, r) := frames t in (encode_frame <$> fs, utf8_encode r).
Proof.
  induction t as [t E|t c n E IH] using frames_ind; rewrite (frames_unfold t), E;
    rewrite frames_unfold, frame_end_cut, cut_utf8, <-frame_end_cut, E; [done|].
  cbn [fmap option_fmap option_map fst snd].
  assert (Ht : ∀ k, take (length (utf8_encode (take k t))) (utf8_encode t) = utf8_encode (take k t)).
  { intros k. by rewrite (utf8_take_drop k t), take_app_length. }
  rewrite !Ht. rewrite (utf8_take_drop n t) at 1. rewrite drop_app_length, IH.
  by destruct (frames (drop n t)).
Qed.

Lemma terminator_at_exact l n : terminator_at l = Some n → terminator_at (take n l) = Some n.
Proof.
  unfold terminator_at, CR, LF. destruct l as [|a [|b [|c [|d l]]]]; cbn [starts_with];
    rewrite ?andb_false_r, ?andb_true_r; eqb_cases; by intros [= <-].
Qed.

Lemma cut_exact l c t : cut l = Some (c, t) → cut (take t l) = Some (c, t).
Proof.
  revert c t. induction l as [|x l IH]; intros c t; [done|]. cbn [cut].
  destruct (terminator_at (x :: l)) as [n|] eqn:Ht.
  - intros [= <- <-]. pose proof (terminator_at_exact _ _ Ht) as H. apply terminator_at_bound in Ht.
    destruct n as [|n]; [lia|]. cbn [take cut] in *. by rewrite H.
  - destruct (cut l) as [[c' t']|] eqn:Hc; [|done]. intros [= <- <-]. cbn [take cut snd].
    destruct (terminator_at (x :: take t' l)) as [n|] eqn:Ht'.
    + exfalso. apply (terminator_at_app _ (drop t' l)) in Ht'. cbn [app] in Ht'.
      rewrite take_drop in Ht'. congruence.
    + by rewrite (IH c' t').
Qed.

(** One complete frame and nothing more. *)
Definition one_frame (f : list Z * list Z) : Prop :=
  frame_end (snd f) = Some (length (fst f), length (snd f)) ∧ fst f = take (length (fst f)) (snd f).

Lemma frames_one_frame l f : f ∈ fst (frames l) → one_frame f.
Proof.
  induction l as [l E|l c t E IH] using frames_ind; rewrite (frames_unfold l), E.
  { by intros ?%not_elem_of_nil. }
  destruct (frames (drop t l)) as [fs r]. cbn [fst] in *. intros [->|Hf]%elem_of_cons; [|by apply IH].
  apply frame_end_bound in E as Hb. rewrite frame_end_cut in E. apply cut_exact in E.
  unfold one_frame. cbn [fst snd]. rewrite !length_take, !Nat.min_l by lia.
  rewrite frame_end_cut, E, take_take, Nat.min_l by lia. done.
Qed.

Lemma frames_cons f k :
  one_frame f → frames (snd f ++ k) = let '(fs, r) := frames k in (f :: fs, r).
Proof.
  intros [He Hc]. rewrite frame_end_cut in He.
  rewrite frames_unfold, frame_end_cut, (cut_app _ _ _ He), drop_app_length, take_app_length.
  apply cut_bound in He. rewrite take_app_le by lia. rewrite <-Hc. by destruct f.
Qed.

Lemma frames_of_frames fs :
  (∀ f, f ∈ fs → one_frame f) → frames (concat (snd <$> fs)) = (fs, []).
Proof.
  induction fs as [|f fs IH]; intros Hfs; [reflexivity|]. rewrite fmap_cons. cbn [concat].
  rewrite frames_cons by (apply Hfs, list_elem_of_here).
  rewrite IH by (intros g Hg; by apply Hfs, list_elem_of_further). done.
Qed.

(** What a prefix of a stream leaves unread is no longer than a frame of the
    stream, or than what the stream leaves. *)
Lemma frames_prefix_rest l s t :
  l = s ++ t →
  (length (snd (frames s)) ≤ length (snd (frames l)))%nat ∨
  ∃ f, f ∈ fst (frames l) ∧ (length (snd (frames s)) ≤ length (snd f))%nat.
Proof.
  intros ->. rewrite frames_app. pose proof (frames_rest s) as Hq. destruct (frames s) as [gs q].
  cbn [snd] in *. pose proof (frames_concat (q ++ t)) as Hcat.
  pose proof (frames_one_frame (q ++ t)) as Hone.
  destruct (frames (q ++ t)) as [[|f fs] r]; cbn [fst snd] in *.
  - left. cbn in Hcat. subst r. rewrite length_app. lia.
  - right. exists f. split; [apply elem_of_app; right; apply list_elem_of_here|].
    destruct (Nat.le_gt_cases (length q) (length (snd f))) as [|Hlt]; [done|exfalso].
    rewrite fmap_cons in Hcat. cbn [concat] in Hcat. rewrite <-app_assoc in Hcat.
    assert (Hpre : q = snd f ++ drop (length (snd f)) q).
    { rewrite <-(take_drop (length (snd f)) q) at 1. f_equal.
      apply (f_equal (take (length (snd f)))) in Hcat.
      rewrite take_app_length, take_app_le in Hcat by lia. done. }
    destruct (Hone f (list_elem_of_here _ _)) as [He _]. rewrite frame_end_cut in *.
    apply (cut_app _ (drop (length (snd f)) q)) in He. rewrite <-Hpre in He. congruence.
Qed.
