(* ===== verification/Sse.v ===== *)
(** * Server-sent events

    [crates/lightweight-core/src/sse.rs]: the incremental decoder the gateway
    reads its engine with, and the encoder it writes its own stream with.
    The decoder's buffer is a [String], here the list of its characters; its
    length, which the limit is about, is counted in bytes as the code does. *)

From stdpp Require Import base gmap strings numbers list.
From S2P Require Import Prelude Names Utf8 Frames.

Definition DONE_DATA : str := lit "[DONE]".

Record SseEvent := mkEvent { event : option str; data : str; id : option str }.

Definition SseEvent_data (payload : str) : SseEvent := mkEvent None payload None.

Definition is_done (e : SseEvent) : bool := bool_decide (trim (data e) = DONE_DATA).

Inductive SseDecodeError := FrameTooLarge (limit : usize).

Record SseDecoder := mkDecoder {
  buffer : str;
  ready : list SseEvent;
  limit : usize;
  poisoned : bool }.

Definition DEFAULT_FRAME_LIMIT : usize := 8 * 1024 * 1024.

Definition with_limit (limit : usize) : SseDecoder := mkDecoder [] [] limit false.
Definition SseDecoder_new : SseDecoder := with_limit DEFAULT_FRAME_LIMIT.

(** ** [String::from_utf8_lossy]: one replacement character for each maximal
    prefix of a well-formed sequence that is cut short, and for each byte that
    starts none. *)

Definition REPLACEMENT : char := 0xFFFD.

Definition second_of_three (b0 b1 : byte) : bool :=
  ((b0 =? 0xE0) && (0xA0 <=? b1) && (b1 <=? 0xBF))
  || ((0xE1 <=? b0) && (b0 <=? 0xEC) && cont b1)
  || ((b0 =? 0xED) && (0x80 <=? b1) && (b1 <=? 0x9F))
  || ((0xEE <=? b0) && (b0 <=? 0xEF) && cont b1).

Definition second_of_four (b0 b1 : byte) : bool :=
  ((b0 =? 0xF0) && (0x90 <=? b1) && (b1 <=? 0xBF))
  || ((0xF1 <=? b0) && (b0 <=? 0xF3) && cont b1)
  || ((b0 =? 0xF4) && (0x80 <=? b1) && (b1 <=? 0x8F)).

Fixpoint from_utf8_lossy (l : list byte) : str :=
  match l with
  | [] => []
  | b0 :: l1 =>
      if b0 <? 0x80 then b0 :: from_utf8_lossy l1
      else match l1 with
      | [] => [REPLACEMENT]
      | b1 :: l2 =>
          if (0xC2 <=? b0) && (b0 <=? 0xDF) && cont b1
          then (b0 - 0xC0) * 64 + (b1 - 0x80) :: from_utf8_lossy l2
          else if second_of_three b0 b1 then
            match l2 with
            | [] => [REPLACEMENT]
            | b2 :: l3 =>
                if cont b2
                then (b0 - 0xE0) * 4096 + (b1 - 0x80) * 64 + (b2 - 0x80) :: from_utf8_lossy l3
                else REPLACEMENT :: from_utf8_lossy l2
            end
          else if second_of_four b0 b1 then
            match l2 with
            | [] => [REPLACEMENT]
            | b2 :: l3 =>
                if cont b2 then
                  match l3 with
                  | [] => [REPLACEMENT]
                  | b3 :: l4 =>
                      if cont b3
                      then (b0 - 0xF0) * 262144 + (b1 - 0x80) * 4096 + (b2 - 0x80) * 64
                           + (b3 - 0x80) :: from_utf8_lossy l4
                      else REPLACEMENT :: from_utf8_lossy l3
                  end
                else REPLACEMENT :: from_utf8_lossy l2
            end
          else REPLACEMENT :: from_utf8_lossy l1
      end
  end.

(** ** One frame *)

Record FrameEnd := mkFrameEnd { frame_bytes : nat; content_bytes : nat }.

Definition find_frame_end (buffer : str) : option FrameEnd :=
  (fun e => mkFrameEnd (snd e) (fst e)) <$> frame_end buffer.

(** [str::split_once(':')]. *)
Fixpoint split_once (sep : char) (l : str) : option (str * str) :=
  match l with
  | [] => None
  | c :: l =>
      if c =? sep then Some ([], l)
      else (fun p => (c :: fst p, snd p)) <$> split_once sep l
  end.

(** The event so far, and whether a [data] field has been seen. *)
Definition parse_line (st : SseEvent * bool) (line : str) : SseEvent * bool :=
  let '(e, has_data) := st in
  if starts_with [58] line then st
  else
    let '(field, value) :=
      match split_once 58 line with
      | Some (field, value) => (field, strip_space value)
      | None => (line, [])
      end in
    if bool_decide (field = lit "data") then
      (mkEvent (event e) ((if has_data then data e ++ [LF] else data e) ++ value) (id e), true)
    else if bool_decide (field = lit "event") then
      (mkEvent (Some value) (data e) (id e), has_data)
    else if bool_decide (field = lit "id") then
      (mkEvent (event e) (data e) (Some value), has_data)
    else st.

Definition parse_frame (frame : str) : option SseEvent :=
  let '(e, has_data) := foldl parse_line (mkEvent None [] None, false) (lines_of frame) in
  if has_data then Some e else None.

(** ** The decoder *)

(** The [loop] of [extract]; every round removes a frame from the buffer. *)
Fixpoint extract_upto (fuel : nat) (d : SseDecoder) : result unit SseDecodeError * SseDecoder :=
  match fuel with
  | O => (Ok tt, d)
  | S fuel =>
      match find_frame_end (buffer d) with
      | None =>
          if limit d <? Z.of_nat (length (utf8_encode (buffer d)))
          then (Err (FrameTooLarge (limit d)), mkDecoder [] (ready d) (limit d) true)
          else (Ok tt, d)
      | Some fe =>
          let frame := take (content_bytes fe) (buffer d) in
          extract_upto fuel
            (mkDecoder (drop (frame_bytes fe) (buffer d))
               (match parse_frame frame with Some e => ready d ++ [e] | None => ready d end)
               (limit d) (poisoned d))
      end
  end.

Definition extract (d : SseDecoder) : result unit SseDecodeError * SseDecoder :=
  extract_upto (S (length (buffer d))) d.

Definition feed (d : SseDecoder) (chunk : list byte) : result unit SseDecodeError * SseDecoder :=
  if poisoned d then (Err (FrameTooLarge (limit d)), d)
  else extract (mkDecoder (buffer d ++ from_utf8_lossy chunk) (ready d) (limit d) (poisoned d)).

Definition next_event (d : SseDecoder) : option SseEvent * SseDecoder :=
  match ready d with
  | [] => (None, d)
  | e :: es => (Some e, mkDecoder (buffer d) es (limit d) (poisoned d))
  end.

Definition drain (d : SseDecoder) : list SseEvent * SseDecoder :=
  (ready d, mkDecoder (buffer d) [] (limit d) (poisoned d)).

Definition has_pending (d : SseDecoder) : bool := negb (bool_decide (buffer d = [])).

(** A reader's loop: chunks are fed until one is refused. *)
Fixpoint feed_all (d : SseDecoder) (chunks : list (list byte))
    : result unit SseDecodeError * SseDecoder :=
  match chunks with
  | [] => (Ok tt, d)
  | chunk :: chunks =>
      match feed d chunk with
      | (Ok _, d') => feed_all d' chunks
      | (Err e, d') => (Err e, d')
      end
  end.

(** ** The encoder *)

(** [line.trim_end_matches('\r')]. *)
Fixpoint drop_crs (l : str) : str :=
  match l with
  | c :: l' => if c =? CR then drop_crs l' else l
  | [] => []
  end.
Definition trim_end_crs (line : str) : str := reverse (drop_crs (reverse line)).

(** [payload.split('\n')]. *)
Definition split_lf (payload : str) : list str := split_at_any (fun c => c =? LF) payload.

Definition encode_data (payload : str) : str :=
  concat ((fun line => lit "data: " ++ trim_end_crs line ++ [LF]) <$> split_lf payload) ++ [LF].

Definition encode_comment (text : str) : str :=
  concat ((fun line => lit ": " ++ trim_end_crs line ++ [LF]) <$> split_lf text) ++ [LF].

Definition encode_done : str := encode_data DONE_DATA.

(** ** Text and its bytes *)

Lemma utf8_decode_lossy n l s :
  (length l ≤ n)%nat → utf8_decode l = Some s → from_utf8_lossy l = s.
Proof.
  revert l s. induction n as [|n IH]; intros [|b0 l1] s Hn.
  { by intros [= <-]. } { simpl in Hn. lia. } { by intros [= <-]. }
  assert (Hcons : ∀ c t, (length t ≤ n)%nat → cons c <$> utf8_decode t = Some s →
    c :: from_utf8_lossy t = s).
  { intros c t Ht. destruct (utf8_decode t) eqn:E; [|done]. intros [= <-]. f_equal. by apply IH. }
  cbn [length] in Hn. cbn [utf8_decode from_utf8_lossy].
  destruct (b0 <? 0x80); [apply Hcons; lia|].
  destruct l1 as [|b1 l2]; [done|]. cbn [length] in Hn.
  destruct ((0xC2 <=? b0) && (b0 <=? 0xDF) && cont b1) eqn:E2; [apply Hcons; lia|].
  destruct l2 as [|b2 l3]; [done|]. cbn [length] in Hn. cbv zeta.
  match goal with |- (if ?g then _ else _) = _ → _ => destruct g eqn:E3 end.
  - unfold second_of_three, cont, is_char in *.
    match goal with |- context [if ?g then _ else _] => replace g with true by lia end.
    match goal with |- context [if ?g then _ else _] => replace g with true by lia end.
    apply Hcons; lia.
  - destruct l3 as [|b3 l4]; [done|]. cbn [length] in Hn.
    match goal with |- (if ?g then _ else _) = _ → _ => destruct g eqn:E4; [|done] end.
    unfold second_of_three, second_of_four, cont, is_char in *.
    match goal with |- context [if ?g then _ else _] => replace g with false by lia end.
    match goal with |- context [if ?g then _ else _] => replace g with true by lia end.
    match goal with |- context [if ?g then _ else _] => replace g with true by lia end.
    match goal with |- context [if ?g then _ else _] => replace g with true by lia end.
    apply Hcons; lia.
Qed.

Lemma lossy_encode s : Forall (λ c, is_char c = true) s → from_utf8_lossy (utf8_encode s) = s.
Proof. intros Hs. eapply utf8_decode_lossy; [reflexivity|]. by apply utf8_roundtrip. Qed.

(** ** The decoder against the frames of the text *)

Definition events_of (fs : list (str * str)) : list SseEvent := omap (λ f, parse_frame (fst f)) fs.

(** What the decoder is after a text: its events, and the text left over. *)
Definition after (d : SseDecoder) (text : str) : SseDecoder :=
  let '(fs, r) := frames text in
  mkDecoder r (ready d ++ events_of fs) (limit d) (poisoned d).

Definition overfull (d : SseDecoder) : bool :=
  limit d <? Z.of_nat (length (utf8_encode (buffer d))).

Lemma extract_upto_spec d n :
  (length (buffer d) < n)%nat →
  extract_upto n d =
  let d' := after d (buffer d) in
  if overfull d' then (Err (FrameTooLarge (limit d)), mkDecoder [] (ready d') (limit d) true)
  else (Ok tt, d').
Proof.
  destruct d as [b r lim p]. unfold after, overfull. cbn [buffer ready limit poisoned].
  revert r n. induction b as [b E|b c t E IH] using frames_ind; intros r [|n] Hn; try lia;
    cbn [extract_upto]; unfold find_frame_end; cbn [buffer ready limit poisoned];
    rewrite (frames_unfold b), E.
  - cbn [fmap option_fmap option_map events_of omap list_omap buffer ready limit poisoned].
    rewrite app_nil_r. done.
  - cbn [fmap option_fmap option_map frame_bytes content_bytes fst snd].
    apply frame_end_bound in E as Hb. rewrite IH by (rewrite length_drop; lia).
    destruct (frames (drop t b)) as [fs rest].
    assert (He : ∀ r, match parse_frame (take c b) with Some e => r ++ [e] | None => r end
      ++ events_of fs = r ++ events_of ((take c b, take t b) :: fs)).
    { intros r'. unfold events_of. cbn [omap list_omap fst]. destruct (parse_frame _); [|done].
      by rewrite <-app_assoc. }
    by rewrite He.
Qed.

Lemma feed_text d s :
  poisoned d = false → Forall (λ c, is_char c = true) s →
  feed d (utf8_encode s) =
  let d' := after d (buffer d ++ s) in
  if overfull d' then (Err (FrameTooLarge (limit d)), mkDecoder [] (ready d') (limit d) true)
  else (Ok tt, d').
Proof.
  intros Hp Hs. unfold feed. rewrite Hp, lossy_encode by done. unfold extract.
  rewrite extract_upto_spec by (simpl; lia). unfold after. cbn [buffer ready limit poisoned].
  destruct (frames _). by rewrite Hp.
Qed.

(** Reading a text and then another is reading them together. *)
Lemma after_after d s t :
  after (after d (buffer d ++ s)) (buffer (after d (buffer d ++ s)) ++ t)
  = after d (buffer d ++ s ++ t).
Proof.
  unfold after. rewrite (app_assoc (buffer d)), (frames_app (buffer d ++ s) t).
  destruct (frames (buffer d ++ s)) as [fs r]. cbn [buffer ready limit poisoned].
  destruct (frames (r ++ t)) as [gs r']. unfold events_of. by rewrite omap_app, <-app_assoc.
Qed.

Lemma after_nil d : frame_end (buffer d) = None → after d (buffer d ++ []) = d.
Proof.
  intros H. unfold after. rewrite app_nil_r, frames_unfold, H. destruct d. simpl. by rewrite app_nil_r.
Qed.

Lemma after_rest d t : frame_end (buffer (after d t)) = None.
Proof. unfold after. pose proof (frames_rest t). by destruct (frames t). Qed.

Lemma after_fields d t : limit (after d t) = limit d ∧ poisoned (after d t) = poisoned d.
Proof. unfold after. by destruct (frames t). Qed.

(** Chunks that are all accepted leave the decoder as their text does. *)
Lemma feed_all_after d texts d' :
  poisoned d = false → frame_end (buffer d) = None → Forall (Forall (λ c, is_char c = true)) texts →
  feed_all d (utf8_encode <$> texts) = (Ok tt, d') → d' = after d (buffer d ++ concat texts).
Proof.
  intros Hp Hf Hc. revert d Hp Hf. induction Hc as [|s texts Hs _ IH]; intros d Hp Hf.
  - cbn [concat fmap list_fmap feed_all]. intros [= <-]. by rewrite after_nil.
  - rewrite fmap_cons. cbn [feed_all concat]. rewrite feed_text by done. cbv zeta.
    destruct (overfull _); [done|]. destruct (after_fields d (buffer d ++ s)) as [_ Hp'].
    intros H%IH; [|by rewrite Hp'|apply after_rest]. by rewrite H, after_after.
Qed.

Lemma feed_all_room d texts d' :
  poisoned d = false → overfull d = false → Forall (Forall (λ c, is_char c = true)) texts →
  feed_all d (utf8_encode <$> texts) = (Ok tt, d') → overfull d' = false.
Proof.
  intros Hp Ho Hc. revert d Hp Ho. induction Hc as [|s texts Hs _ IH]; intros d Hp Ho.
  - by intros [= <-].
  - rewrite fmap_cons. cbn [feed_all]. rewrite feed_text by done. cbv zeta.
    destruct (overfull (after _ _)) eqn:E; [done|]. apply IH; [|done].
    by destruct (after_fields d (buffer d ++ s)) as [_ ->].
Qed.

(** If no prefix leaves too much behind, every chunk is accepted. *)
Lemma feed_all_Ok d texts :
  poisoned d = false → frame_end (buffer d) = None → Forall (Forall (λ c, is_char c = true)) texts →
  (∀ s t, concat texts = s ++ t → overfull (after d (buffer d ++ s)) = false) →
  feed_all d (utf8_encode <$> texts) = (Ok tt, after d (buffer d ++ concat texts)).
Proof.
  intros Hp Hf Hc Hroom. revert d Hp Hf Hroom. induction Hc as [|s texts Hs _ IH]; intros d Hp Hf Hroom.
  - cbn [concat fmap list_fmap feed_all]. by rewrite after_nil.
  - rewrite fmap_cons. cbn [feed_all concat]. rewrite feed_text by done. cbv zeta.
    rewrite (Hroom s (concat texts)) by done. destruct (after_fields d (buffer d ++ s)) as [_ Hp'].
    rewrite IH; [by rewrite after_after|by rewrite Hp'|apply after_rest|].
    intros s' t Hst. rewrite after_after. apply (Hroom (s ++ s') t). cbn [concat].
    by rewrite Hst, app_assoc.
Qed.

(** ** What the encoder writes *)

Definition no_cr (s : str) : Prop := ∀ c, c ∈ s → c ≠ CR.

Lemma join_split p : join_lines (split_lf p) = p.
Proof.
  unfold split_lf. induction p as [|x p IH]; [done|]. cbn [split_at_any].
  destruct (split_at_any _ p) as [|f rest] eqn:E; [by apply split_at_any_ne in E|].
  destruct (Z.eqb_spec x LF) as [->|Hx].
  - by rewrite join_lines_cons, IH by done.
  - rewrite <-IH. by destruct rest.
Qed.

Lemma split_lf_lines p line c : line ∈ split_lf p → c ∈ line → c ≠ LF ∧ c ∈ p.
Proof.
  unfold split_lf. revert line. induction p as [|x p IH]; intros line.
  { cbn. by intros ->%list_elem_of_singleton ?%not_elem_of_nil. }
  cbn [split_at_any]. destruct (split_at_any _ p) as [|f rest] eqn:E; [by apply split_at_any_ne in E|].
  assert (Hin : ∀ l, l ∈ f :: rest → c ∈ l → c ≠ LF ∧ c ∈ x :: p).
  { intros l Hl Hc. destruct (IH l Hl Hc). split; [done|by apply list_elem_of_further]. }
  destruct (Z.eqb_spec x LF) as [->|Hx].
  - intros [->|Hl]%elem_of_cons; [by intros ?%not_elem_of_nil|by apply Hin].
  - intros [->|Hl]%elem_of_cons.
    + intros [->|Hc]%elem_of_cons; [split; [done|apply list_elem_of_here]|].
      apply (Hin f); [apply list_elem_of_here|done].
    + apply Hin. by apply list_elem_of_further.
Qed.

Lemma trim_end_crs_id l : no_cr l → trim_end_crs l = l.
Proof.
  intros Hl. unfold trim_end_crs. rewrite <-(reverse_involutive l) at 2. f_equal.
  destruct (reverse l) as [|c r] eqn:E; [done|]. cbn [drop_crs].
  destruct (Z.eqb_spec c CR) as [->|]; [|done]. exfalso. apply (Hl CR); [|done].
  apply elem_of_reverse. rewrite E. apply list_elem_of_here.
Qed.

Lemma concat_lines pre ls :
  ls ≠ [] → concat ((λ l, pre ++ l ++ [LF]) <$> ls) = join_lines ((λ l, pre ++ l) <$> ls) ++ [LF].
Proof.
  intros Hls. induction ls as [|l ls IH]; [done|]. destruct ls as [|m ls].
  - cbn [fmap list_fmap concat join_lines]. by rewrite app_nil_r, app_assoc.
  - rewrite !(fmap_cons _ l (m :: ls)). cbn [concat]. rewrite IH, join_lines_cons by done.
    by rewrite <-!app_assoc.
Qed.

(** The lines of an encoded text without carriage returns, each behind the
    same ASCII prefix. *)
Lemma encoded_lines pre p :
  no_cr p → concat ((λ line, pre ++ trim_end_crs line ++ [LF]) <$> split_lf p) ++ [LF]
  = join_lines ((λ l, pre ++ l) <$> split_lf p) ++ [LF; LF].
Proof.
  intros Hp. rewrite (list_fmap_ext _ (λ l, pre ++ l ++ [LF])).
  - rewrite concat_lines by apply split_at_any_ne. by rewrite <-app_assoc.
  - intros i l Hl%list_elem_of_lookup_2. rewrite trim_end_crs_id; [done|].
    intros c Hc. apply Hp. by eapply split_lf_lines.
Qed.

Lemma prefixed_is_line pre p :
  is_line pre → no_cr p → Forall is_line ((λ l, pre ++ l) <$> split_lf p).
Proof.
  intros [Hne Hpre] Hp. apply Forall_fmap, Forall_forall. intros l Hl. split; [by destruct pre|].
  intros c [Hc|Hc]%elem_of_app; [by apply Hpre|]. destruct (split_lf_lines p l c Hl Hc) as [H1 H2].
  apply Hp in H2. unfold is_eol. lia.
Qed.

(** The two prefixes are lines. *)
Lemma literal_is_line l : l ≠ [] → forallb (λ c, negb (is_eol c)) l = true → is_line l.
Proof.
  intros Hl Hc. split; [done|]. intros c Hin. apply (elem_forallb _ _ _ Hin) in Hc.
  by apply negb_true_iff.
Qed.

Lemma comment_is_line : is_line (lit ": ").
Proof. by apply literal_is_line. Qed.

Lemma data_is_line : is_line (lit "data: ").
Proof. by apply literal_is_line. Qed.

(** One encoded message is one frame, whatever follows it. *)
Lemma encoded_frame pre p k :
  is_line pre → no_cr p →
  let text := join_lines ((λ l, pre ++ l) <$> split_lf p) in
  frames (text ++ LF :: LF :: k)
  = let '(fs, r) := frames k in ((text, text ++ [LF; LF]) :: fs, r).
Proof.
  intros Hpre Hp text.
  assert (Hcut : cut (text ++ LF :: LF :: k) = Some (length text, (length text + 2)%nat)).
  { apply cut_lines; [by intros H%fmap_nil_inv%split_at_any_ne|by apply prefixed_is_line]. }
  rewrite frames_unfold, frame_end_cut, Hcut, take_app_length. change (LF :: LF :: k) with ([LF; LF] ++ k).
  rewrite (app_assoc text), drop_app_length', take_app_length' by (by rewrite length_app).
  done.
Qed.

Lemma parse_data_line e has l :
  parse_line (e, has) (lit "data: " ++ l)
  = (mkEvent (event e) ((if has then data e ++ [LF] else data e) ++ l) (id e), true).
Proof. reflexivity. Qed.

Lemma parse_data_lines e ls :
  ls ≠ [] →
  foldl parse_line (e, true) ((λ l, lit "data: " ++ l) <$> ls)
  = (mkEvent (event e) (data e ++ LF :: join_lines ls) (id e), true).
Proof.
  intros Hls. revert e. induction ls as [|l ls IH]; intros e; [done|].
  rewrite fmap_cons. cbn [foldl]. rewrite parse_data_line. destruct ls as [|m ls].
  - cbn [fmap list_fmap foldl join_lines]. by rewrite <-app_assoc.
  - rewrite IH by done. cbn [event data id]. rewrite (join_lines_cons l (m :: ls)) by done.
    by rewrite <-!app_assoc.
Qed.

Lemma parse_encoded_data p :
  no_cr p → parse_frame (join_lines ((λ l, lit "data: " ++ l) <$> split_lf p)) = Some (SseEvent_data p).
Proof.
  intros Hp. unfold parse_frame. rewrite lines_of_join.
  2: { apply prefixed_is_line; [apply data_is_line|done]. }
  rewrite <-(join_split p) at 2. destruct (split_lf p) as [|l ls] eqn:E; [by apply split_at_any_ne in E|].
  rewrite fmap_cons. cbn [foldl]. rewrite parse_data_line. destruct ls as [|m ls]; [reflexivity|].
  by rewrite parse_data_lines.
Qed.

Lemma parse_comment_lines st ls :
  foldl parse_line st ((λ l, lit ": " ++ l) <$> ls) = st.
Proof. induction ls as [|l ls IH]; [done|]. rewrite fmap_cons. cbn [foldl]. by destruct st. Qed.

Lemma drop_crs_chars l c : c ∈ drop_crs l → c ∈ l.
Proof.
  induction l as [|x l IH]; [done|]. cbn [drop_crs]. destruct (x =? CR); [|done].
  intros H. by apply list_elem_of_further, IH.
Qed.

Lemma encode_data_chars p c : c ∈ encode_data p → c ∈ p ∨ c ∈ lit "data: " ++ [LF].
Proof.
  unfold encode_data. intros [Hc|Hc]%elem_of_app; [|right; apply elem_of_app; by right].
  apply list_elem_of_In, in_concat in Hc as (line & Hl & Hc).
  apply list_elem_of_In in Hl. apply list_elem_of_In in Hc.
  apply list_elem_of_fmap in Hl as (l & -> & Hl). rewrite !elem_of_app in Hc.
  rewrite elem_of_app. destruct Hc as [Hc|[Hc|Hc]]; [by right; left| |by right; right].
  left. unfold trim_end_crs in Hc. rewrite elem_of_reverse in Hc.
  apply drop_crs_chars in Hc. rewrite elem_of_reverse in Hc.
  by destruct (split_lf_lines p l c Hl Hc).
Qed.

(** ** Messages *)

(** What a stream of the gateway is made of. *)
Inductive Message := MData (payload : str) | MComment (text : str).

Definition encode_message (m : Message) : str :=
  match m with MData p => encode_data p | MComment t => encode_comment t end.

Definition message_event (m : Message) : option SseEvent :=
  match m with MData p => Some (SseEvent_data p) | MComment _ => None end.

Definition message_text (m : Message) : str := match m with MData p => p | MComment t => t end.

(** Text without carriage returns. *)
Definition plain (m : Message) : Prop := no_cr (message_text m).

Lemma frames_message m k :
  plain m →
  ∃ content, frames (encode_message m ++ k)
    = (let '(fs, r) := frames k in ((content, encode_message m) :: fs, r)) ∧
    parse_frame content = message_event m.
Proof.
  intros Hm. destruct m as [p|t]; unfold plain in Hm; cbn [message_text] in Hm;
    cbn [encode_message message_event]; unfold encode_data, encode_comment;
    rewrite encoded_lines, <-app_assoc by done; cbn [app];
    rewrite encoded_frame by (done || apply data_is_line || apply comment_is_line);
    eexists; (split; [done|]).
  - by apply parse_encoded_data.
  - unfold parse_frame. rewrite lines_of_join by (apply prefixed_is_line; [apply comment_is_line|done]).
    by rewrite parse_comment_lines.
Qed.

Lemma frames_messages ms :
  Forall plain ms →
  let '(fs, r) := frames (concat (encode_message <$> ms)) in
  events_of fs = omap message_event ms ∧ r = [].
Proof.
  induction 1 as [|m ms Hm _ IH]; [done|]. rewrite fmap_cons. cbn [concat].
  destruct (frames_message m (concat (encode_message <$> ms)) Hm) as (content & Hf & Hp).
  rewrite Hf. destruct (frames (concat _)) as [fs r]. destruct IH as [IH ->]. split; [|done].
  change (omap message_event (m :: ms)) with
    (match message_event m with Some e => e :: omap message_event ms | None => omap message_event ms end).
  change (events_of ((content, encode_message m) :: fs)) with
    (match parse_frame content with Some e => e :: events_of fs | None => events_of fs end).
  by rewrite Hp, IH.
Qed.

(** What a prefix of the stream leaves unread is a part of one message. *)
Lemma prefix_rest ms s t :
  Forall plain ms → concat (encode_message <$> ms) = s ++ t →
  snd (frames s) = [] ∨ ∃ m j k, m ∈ ms ∧ encode_message m = j ++ snd (frames s) ++ k.
Proof.
  intros Hms. revert s t. induction Hms as [|m ms Hm _ IH]; intros s t.
  { cbn. intros [-> _]%symmetry%app_nil. by left. }
  rewrite fmap_cons. cbn [concat]. intros Heq.
  apply app_eq_inv in Heq as [(k & Hm' & Ht)|(s' & -> & Ht)].
  - right. pose proof (frames_concat s) as Hs. destruct (frames s) as [fs r]. cbn [snd].
    exists m, (concat (snd <$> fs)), k. split; [apply list_elem_of_here|].
    by rewrite app_assoc, Hs, Hm'.
  - destruct (frames_message m s' Hm) as (content & -> & _).
    destruct (IH s' t) as [Hr|(m' & j & k & Hin & Hk)]; [done|left|right].
    + by destruct (frames s').
    + exists m', j, k. split; [by apply list_elem_of_further|]. by destruct (frames s').
Qed.

(** ** What can come out of the decoder *)

Lemma lossy_chars n l :
  (length l ≤ n)%nat → Forall is_byte l → Forall (λ c, is_char c = true) (from_utf8_lossy l).
Proof.
  revert l. induction n as [|n IH]; intros [|b0 l1] Hn Hb; [constructor|simpl in Hn; lia|constructor|].
  cbn [length] in Hn. apply Forall_cons in Hb as [H0 Hb].
  assert (Hrep : is_char REPLACEMENT = true) by done.
  cbn [from_utf8_lossy]. destruct (Z.ltb_spec b0 0x80).
  { constructor; [unfold is_char, is_byte in *; lia|]. apply IH; [lia|done]. }
  pose proof (IH l1 ltac:(lia) Hb) as Ht1.
  destruct l1 as [|b1 l2]; [by constructor|]. cbn [length] in Hn. apply Forall_cons in Hb as [H1 Hb].
  pose proof (IH l2 ltac:(lia) Hb) as Ht2. unfold is_byte in *.
  destruct ((0xC2 <=? b0) && (b0 <=? 0xDF) && cont b1) eqn:E2.
  { constructor; [unfold is_char, cont in *; lia|done]. }
  destruct (second_of_three b0 b1) eqn:E3.
  - destruct l2 as [|b2 l3]; [by constructor|]. cbn [length] in Hn. apply Forall_cons in Hb as [H2 Hb].
    destruct (cont b2) eqn:Ec; [|by constructor].
    constructor; [unfold is_char, second_of_three, cont in *; lia|]. apply IH; [lia|done].
  - destruct (second_of_four b0 b1) eqn:E4; [|by constructor].
    destruct l2 as [|b2 l3]; [by constructor|]. cbn [length] in Hn. apply Forall_cons in Hb as [H2 Hb].
    destruct (cont b2) eqn:Ec; [|by constructor]. pose proof (IH l3 ltac:(lia) Hb) as Ht3.
    destruct l3 as [|b3 l4]; [by constructor|]. cbn [length] in Hn. apply Forall_cons in Hb as [H3 Hb].
    destruct (cont b3) eqn:Ec'; [|by constructor].
    constructor; [unfold is_char, second_of_four, cont in *; lia|]. apply IH; [lia|done].
Qed.

Lemma split_at_any_chars p l line c : line ∈ split_at_any p l → c ∈ line → c ∈ l ∧ p c = false.
Proof.
  revert line. induction l as [|x l IH]; intros line.
  { cbn. by intros ->%list_elem_of_singleton ?%not_elem_of_nil. }
  cbn [split_at_any]. destruct (split_at_any p l) as [|f rest] eqn:E; [by apply split_at_any_ne in E|].
  assert (Hin : ∀ y, y ∈ f :: rest → c ∈ y → c ∈ x :: l ∧ p c = false).
  { intros y Hy Hc. destruct (IH y Hy Hc). split; [by apply list_elem_of_further|done]. }
  destruct (p x) eqn:Hx.
  - intros [->|Hl]%elem_of_cons; [by intros ?%not_elem_of_nil|by apply Hin].
  - intros [->|Hl]%elem_of_cons.
    + intros [->|Hc]%elem_of_cons; [split; [apply list_elem_of_here|done]|].
      apply (Hin f); [apply list_elem_of_here|done].
    + apply Hin. by apply list_elem_of_further.
Qed.

Lemma split_once_chars sep l f v c : split_once sep l = Some (f, v) → c ∈ v → c ∈ l.
Proof.
  revert f v. induction l as [|x l IH]; intros f v; [done|]. cbn [split_once].
  destruct (x =? sep); [intros [= <- <-]; by apply list_elem_of_further|].
  destruct (split_once sep l) as [[f' v']|]; [|done]. intros [= <- <-] Hc.
  apply list_elem_of_further. by eapply IH.
Qed.

Lemma strip_space_chars v c : c ∈ strip_space v → c ∈ v.
Proof. destruct v as [|x v]; [done|]. simpl. destruct (x =? 32); [by apply list_elem_of_further|done]. Qed.

Section payload.
Context (P : Z → Prop) (HLF : P LF).

Lemma parse_line_chars st line :
  (∀ c, c ∈ data (fst st) → P c) → (∀ c, c ∈ line → P c) →
  ∀ c, c ∈ data (fst (parse_line st line)) → P c.
Proof.
  destruct st as [e has]. cbn [fst]. intros He Hl. unfold parse_line.
  destruct (starts_with _ _); [done|].
  destruct (match split_once 58 line with Some _ => _ | None => _ end) as [f v] eqn:E.
  assert (Hv : ∀ c, c ∈ v → P c).
  { destruct (split_once 58 line) as [[f' v']|] eqn:Es; injection E as <- <-.
    - intros c Hc%strip_space_chars. apply Hl. by eapply split_once_chars.
    - by intros c ?%not_elem_of_nil. }
  case_bool_decide; [|repeat case_bool_decide; done]. cbn [fst data].
  intros c [Hc|Hc]%elem_of_app; [|by apply Hv]. destruct has; [|by apply He].
  apply elem_of_app in Hc as [Hc| ->%list_elem_of_singleton]; [by apply He|done].
Qed.

Lemma parse_frame_chars frame e :
  (∀ c, c ∈ frame → is_eol c = false → P c) → parse_frame frame = Some e → ∀ c, c ∈ data e → P c.
Proof.
  intros Hf. unfold parse_frame.
  assert (Hgo : ∀ ls st, (∀ l c, l ∈ ls → c ∈ l → P c) → (∀ c, c ∈ data (fst st) → P c) →
    ∀ c, c ∈ data (fst (foldl parse_line st ls)) → P c).
  { induction ls as [|l ls IH]; intros st Hls Hst; [done|]. cbn [foldl]. apply IH.
    - intros l' c Hl'. apply Hls. by apply list_elem_of_further.
    - apply parse_line_chars; [done|]. intros c. apply Hls, list_elem_of_here. }
  specialize (Hgo (lines_of frame) (mkEvent None [] None, false)).
  destruct (foldl _ _ _) as [e' has]. destruct has; [|done]. intros [= <-]. apply Hgo.
  - intros l c Hl Hc. unfold lines_of in Hl. apply list_elem_of_In, filter_In in Hl as [Hl _].
    apply list_elem_of_In in Hl. destruct (split_at_any_chars _ _ _ _ Hl Hc). by apply Hf.
  - by intros c ?%not_elem_of_nil.
Qed.
End payload.

(** A decoder that has only ever held characters, and whose payloads can be
    written again. *)
Definition clean (d : SseDecoder) : Prop :=
  (∀ c, c ∈ buffer d → is_char c = true) ∧
  ∀ e c, e ∈ ready d → c ∈ data e → is_char c = true ∧ c ≠ CR.

Lemma after_clean d text :
  clean d → (∀ c, c ∈ text → is_char c = true) → clean (after d text).
Proof.
  intros [_ Hr] Ht. unfold after. pose proof (frames_content text) as Hfc.
  pose proof (frames_concat text) as Hcat. destruct (frames text) as [fs r]. split; cbn [buffer ready].
  - intros c Hc. apply Ht. rewrite <-Hcat. apply elem_of_app. by right.
  - intros e c [He|He]%elem_of_app; [by apply Hr|].
    unfold events_of in He. apply list_elem_of_omap in He as ([content raw] & Hin & Hp).
    apply (parse_frame_chars (λ c, is_char c = true ∧ c ≠ CR)) with content; [done| |done].
    intros x Hx Heol. split; [apply Ht; by eapply (Hfc (content, raw))|].
    unfold is_eol in Heol. lia.
Qed.

Lemma feed_clean d chunk : clean d → Forall is_byte chunk → clean (snd (feed d chunk)).
Proof.
  intros Hd Hb. unfold feed. destruct (poisoned d); [done|]. unfold extract.
  rewrite extract_upto_spec by (simpl; lia). cbv zeta. cbn [buffer ready limit].
  set (d0 := mkDecoder (buffer d ++ from_utf8_lossy chunk) (ready d) (limit d) false).
  assert (Hd' : clean (after d0 (buffer d ++ from_utf8_lossy chunk))).
  { assert (Hc : ∀ c, c ∈ buffer d ++ from_utf8_lossy chunk → is_char c = true).
    { intros c [Hc|Hc]%elem_of_app; [by apply Hd|].
      pose proof (lossy_chars _ chunk ltac:(reflexivity) Hb) as Hl. rewrite Forall_forall in Hl. by apply Hl. }
    apply after_clean; [|done]. split; [done|apply Hd]. }
  destruct (overfull _); [|done]. split; [by intros c ?%not_elem_of_nil|apply Hd'].
Qed.

Lemma feed_all_clean d chunks :
  clean d → Forall (Forall is_byte) chunks → clean (snd (feed_all d chunks)).
Proof.
  intros Hd Hb. revert d Hd. induction Hb as [|chunk chunks Hc _ IH]; intros d Hd; [done|].
  cbn [feed_all]. pose proof (feed_clean d chunk Hd Hc) as H. destruct (feed d chunk) as [[u|e] d']; [|done].
  by apply IH.
Qed.

(** ** Properties *)

Lemma utf8_part j r k : (length (utf8_encode r) ≤ length (utf8_encode (j ++ r ++ k)))%nat.
Proof. rewrite !utf8_encode_app, !length_app. lia. Qed.

(** Chunk boundaries are meaningless.  However a text is cut into chunks
    between its characters, a decoder that refuses none of them ends exactly
    as one that is fed the text at once, with the same events in the same
    order and the same partial frame, and none is refused while the text is
    within the limit. *)
Theorem sse_chunks_are_irrelevant lim texts :
  0 ≤ lim → Forall (Forall (λ c, is_char c = true)) texts →
  (∀ d, feed_all (with_limit lim) (utf8_encode <$> texts) = (Ok tt, d) →
     feed (with_limit lim) (utf8_encode (concat texts)) = (Ok tt, d)) ∧
  (Z.of_nat (length (utf8_encode (concat texts))) ≤ lim →
     ∃ d, feed_all (with_limit lim) (utf8_encode <$> texts) = (Ok tt, d)).
Proof.
  intros Hlim Hc. split.
  - intros d Hd. apply feed_all_room in Hd as Ho; [|done| |done].
  2: { apply Z.ltb_ge. exact Hlim. }
    apply feed_all_after in Hd; [|done..]. rewrite feed_text; [|done|by apply Forall_concat].
    cbv zeta. by rewrite <-Hd, Ho.
  - intros Hfit. eexists. apply feed_all_Ok; [done..|]. intros s t Hst.
    unfold overfull, after. cbn [buffer with_limit app]. pose proof (frames_concat s) as Hs.
    destruct (frames s) as [fs r]. cbn [buffer limit]. apply Z.ltb_ge.
    pose proof (utf8_part (concat (snd <$> fs)) r t) as Hpart. rewrite app_assoc, Hs, <-Hst in Hpart. simpl. lia.
Qed.

Definition tokens : list str :=
  [lit "data: he"; 108 :: lit "lo "; [0x4F60]; [0x597D; 10]; lit "" ++ [10]; lit ": pi"].

Lemma sse_chunks_are_irrelevant_witness :
  ∃ d, feed_all (with_limit 64) (utf8_encode <$> tokens) = (Ok tt, d) ∧
    feed (with_limit 64) (utf8_encode (concat tokens)) = (Ok tt, d).
Proof.
  destruct (sse_chunks_are_irrelevant 64 tokens) as [H1 H2].
  - lia.
  - repeat constructor.
  - destruct H2 as [d Hd]; [vm_compute; discriminate|]. exists d. by split; [|apply H1].
Defined.

(** What the gateway writes is what a client reads.  A stream of data and
    keep-alive messages without carriage returns, each within the limit,
    decodes to exactly the payloads in order, multi-line ones and empty ones
    included, with nothing pending, however the network cuts it between
    characters. *)
Theorem sse_stream_roundtrip lim ms texts :
  0 ≤ lim → Forall plain ms → Forall (Forall (λ c, is_char c = true)) texts →
  Forall (λ m, Z.of_nat (length (utf8_encode (encode_message m))) ≤ lim) ms →
  concat texts = concat (encode_message <$> ms) →
  ∃ d, feed_all (with_limit lim) (utf8_encode <$> texts) = (Ok tt, d) ∧
    ready d = omap message_event ms ∧ has_pending d = false.
Proof.
  intros Hlim Hms Hc Hroom Heq. eexists. split.
  - apply feed_all_Ok; [done..|]. intros s t Hst. unfold overfull, after. cbn [buffer with_limit app].
    destruct (prefix_rest ms s t Hms) as [Hr|(m & j & k & Hin & Hk)]; [by rewrite <-Heq|..];
      destruct (frames s) as [fs r]; cbn [snd buffer limit] in *; apply Z.ltb_ge.
    + by rewrite Hr.
    + rewrite Forall_forall in Hroom. specialize (Hroom m Hin). rewrite Hk in Hroom.
      pose proof (utf8_part j r k). simpl. lia.
  - pose proof (frames_messages ms Hms) as Hf. unfold after, has_pending. rewrite Heq.
    cbn [buffer with_limit app]. destruct (frames _) as [fs r]. destruct Hf as [<- ->]. done.
Qed.

Lemma sse_stream_roundtrip_witness :
  ∃ d, feed_all (with_limit 64)
      [utf8_encode (lit "data: {}" ++ [10; 10] ++ lit ": keep-"); utf8_encode (lit "alive" ++ [10; 10])]
    = (Ok tt, d) ∧ ready d = [SseEvent_data (lit "{}")] ∧ has_pending d = false.
Proof.
  apply (sse_stream_roundtrip 64 [MData (lit "{}"); MComment (lit "keep-alive")]
           [lit "data: {}" ++ [10; 10] ++ lit ": keep-"; lit "alive" ++ [10; 10]]).
  - lia.
  - repeat constructor; intros c Hc ->; apply (elem_forallb (λ c, negb (c =? CR))) in Hc; done.
  - repeat constructor.
  - repeat constructor; vm_compute; discriminate.
  - reflexivity.
Defined.

(** Anything the decoder reads can be written again.  Whatever bytes
    arrive in whatever chunks, the payload of every event they decode to
    encodes to a stream that decodes, within any limit it fits, to that one
    payload and nothing else. *)
Theorem decoded_payload_reencodes lim chunks r d e lim' :
  Forall (Forall is_byte) chunks → feed_all (with_limit lim) chunks = (r, d) → e ∈ ready d →
  Z.of_nat (length (utf8_encode (encode_data (data e)))) ≤ lim' →
  ∃ d', feed (with_limit lim') (utf8_encode (encode_data (data e))) = (Ok tt, d') ∧
    ready d' = [SseEvent_data (data e)] ∧ has_pending d' = false.
Proof.
  intros Hb Hd He Hlim.
  assert (Hclean : clean d).
  { pose proof (feed_all_clean (with_limit lim) chunks) as H. rewrite Hd in H. apply H; [|done].
    split; [by intros c ?%not_elem_of_nil|by intros e' c ?%not_elem_of_nil]. }
  destruct Hclean as [_ Hclean].
  assert (Hcr : no_cr (data e)) by (intros c Hc; by apply (Hclean e)).
  rewrite feed_text; [|done|].
  - pose proof (frames_messages [MData (data e)] ltac:(by repeat constructor)) as Hf.
    unfold after, overfull. cbn [fmap list_fmap concat encode_message] in Hf. rewrite app_nil_r in Hf.
    cbn [buffer with_limit app]. destruct (frames _) as [fs rest]. destruct Hf as [Hev ->].
    cbv zeta. cbn [buffer ready limit poisoned]. change (Z.of_nat (length (utf8_encode []))) with 0.
    destruct (Z.ltb_spec (limit (with_limit lim')) 0) as [Hn|Hn]; [simpl in Hn; lia|].
    eexists. split; [done|]. split; [|done]. exact Hev.
  - apply Forall_forall. intros c Hc. apply encode_data_chars in Hc as [Hc|Hc]; [by apply (Hclean e)|].
    by apply (elem_forallb is_char _ _ Hc).
Qed.

Lemma decoded_payload_reencodes_witness :
  ∃ d', feed (with_limit 100) (utf8_encode (encode_data (lit "a" ++ [10] ++ lit "b"))) = (Ok tt, d') ∧
    ready d' = [SseEvent_data (lit "a" ++ [10] ++ lit "b")] ∧ has_pending d' = false.
Proof.
  eapply (decoded_payload_reencodes 50 [utf8_encode (lit "data:a" ++ [13; 10] ++ lit "data:b" ++ [13; 10; 13; 10])]
    _ _ (SseEvent_data (lit "a" ++ [10] ++ lit "b")) 100).
  - repeat constructor; by vm_compute.
  - vm_compute. reflexivity.
  - apply list_elem_of_here.
  - vm_compute. discriminate.
Defined.

(** A character cut by the network is lost.  The two bytes of one
    character, arriving in two chunks, decode to two replacement characters
    where the same bytes in one chunk decode to the character: the partial
    frame is held as text, not as bytes. *)
Theorem split_character_is_corrupted :
  let frame := utf8_encode (lit "data: " ++ [0xE9] ++ [10; 10]) in
  ready (snd (feed SseDecoder_new frame)) = [SseEvent_data [0xE9]] ∧
  ready (snd (feed_all SseDecoder_new [take 7 frame; drop 7 frame]))
    = [SseEvent_data [REPLACEMENT; REPLACEMENT]].
Proof. split; vm_compute; reflexivity. Qed.
