(* ===== verification/Rewriter.v ===== *)
(** * Rewriting a node's event stream

    [crates/lightweight-router/src/sse.rs]: the [FrameRewriter] every streamed
    answer of the router passes through, which renames the model in each JSON
    event and forwards every other byte as it came.

    JSON is [serde_json]'s, which is not part of the program: the values, the
    objects and what the rewriter asks of them are the class [Json]; the one
    thing the rewriter relies on, that compact output is one line of text, is
    the class [JsonLaws]. *)

From stdpp Require Import base gmap strings numbers list.
From S2P Require Import Prelude Names Utf8 Frames Sse.

Class Json := {
  Value : Type;
  Object : Type;
  from_str : str → option Value;
  to_string : Value → str;
  as_object : Value → option Object;
  as_string : Value → option str;
  as_items : Value → option (list Value);
  value_as_u64 : Value → option u64;
  of_object : Object → Value;
  of_string : str → Value;
  empty_object : Object;
  object_get : Object → str → option Value;
  object_insert : str → Value → Object → Object }.

(** Compact output is one line of characters: every control character is
    escaped in a JSON text. *)
Class JsonLaws (J : Json) := {
  to_string_line : ∀ v c, c ∈ to_string v → is_eol c = false ∧ is_char c = true }.

Definition FRAME_LIMIT : usize := 8 * 1024 * 1024.

Record FrameRewriter := mkRewriter {
  public_model : str;
  rw_buffer : list byte;
  saw_done : bool;
  saw_error : bool;
  finished : bool;
  generated : bool;
  rw_prompt_tokens : option u32 }.

Definition FrameRewriter_new (public_model : str) : FrameRewriter :=
  mkRewriter public_model [] false false false false None.

Section json.
Context `{J : Json}.

(** [Value::get]: a key of an object, nothing of anything else. *)
Definition value_get (v : Value) (key : str) : option Value :=
  let! o := as_object v in object_get o key.

Definition non_empty (value : option Value) : bool :=
  match value with
  | Some v =>
      match as_string v, as_items v with
      | Some text, _ => negb (bool_decide (text = []))
      | None, Some items => match items with [] => false | _ => true end
      | None, None => false
      end
  | None => false
  end.

Definition carries_output (event : Object) : bool :=
  match object_get event (lit "choices") with
  | Some choices =>
      match as_items choices with
      | Some choices =>
          existsb (fun choice =>
            non_empty (value_get choice (lit "text"))
            || match value_get choice (lit "delta") with
               | Some delta =>
                   non_empty (value_get delta (lit "content"))
                   || non_empty (value_get delta (lit "reasoning_content"))
                   || non_empty (value_get delta (lit "tool_calls"))
               | None => false
               end) choices
      | None => false
      end
  | None => false
  end.

Definition prompt_tokens (object : Object) : option u32 :=
  let! usage := object_get object (lit "usage") in
  let! tokens := value_get usage (lit "prompt_tokens") in
  let! n := value_as_u64 tokens in
  if n <=? U32_MAX then Some n else None.

Definition names_model (event : Object) : bool :=
  match object_get event (lit "model") with
  | Some v => match as_string v with Some _ => true | None => false end
  | None => false
  end.

(** The two vectors the loop of [emit] fills. *)
Definition data_of_line (line : str) : option str :=
  if starts_with (lit "data:") line then Some (strip_space (drop 5 line)) else None.
Definition data_lines (ls : list str) : list str := omap data_of_line ls.
Definition other_lines (ls : list str) : list str :=
  List.filter (fun line => negb (starts_with (lit "data:") line)) ls.

Definition set_done (r : FrameRewriter) : FrameRewriter :=
  mkRewriter (public_model r) (rw_buffer r) true (saw_error r) (finished r) (generated r)
    (rw_prompt_tokens r).

(** What an event says about the stream. *)
Definition note_event (r : FrameRewriter) (event : Object) : FrameRewriter :=
  let has_error := bool_decide (is_Some (object_get event (lit "error"))) in
  mkRewriter (public_model r) (rw_buffer r) (saw_done r)
    (if has_error then true else saw_error r)
    (finished r)
    (if has_error then generated r
     else if negb (generated r) && carries_output event then true else generated r)
    (match prompt_tokens event with Some n => Some n | None => rw_prompt_tokens r end).

Definition emit (r : FrameRewriter) (content raw : list byte) : FrameRewriter * list byte :=
  match utf8_decode content with
  | None => (r, raw)
  | Some text =>
      let ls := lines_of text in
      match data_lines ls with
      | [] => (r, raw)
      | _ =>
          let data := join_lines (data_lines ls) in
          if bool_decide (trim data = DONE_DATA) then (set_done r, raw)
          else
            match from_str data ≫= as_object with
            | None => (r, raw)
            | Some event =>
                let r := note_event r event in
                if names_model event then
                  let event := object_insert (lit "model") (of_string (public_model r)) event in
                  (r, concat ((fun line => utf8_encode line ++ [LF]) <$> other_lines ls)
                      ++ utf8_encode (encode_data (to_string (of_object event))))
                else (r, raw)
            end
      end
  end.

Definition error_body (code message : str) : Value :=
  of_object (object_insert (lit "error")
    (of_object
       (object_insert (lit "message") (of_string message)
          (object_insert (lit "type") (of_string (lit "server_error"))
             (object_insert (lit "code") (of_string code) empty_object))))
    empty_object).

Definition rw_fail (r : FrameRewriter) (code message : str) : FrameRewriter * list byte :=
  (mkRewriter (public_model r) (rw_buffer r) (saw_done r) true true (generated r) (rw_prompt_tokens r),
   utf8_encode (encode_data (to_string (error_body code message)))).

Definition set_buffer (r : FrameRewriter) (b : list byte) : FrameRewriter :=
  mkRewriter (public_model r) b (saw_done r) (saw_error r) (finished r) (generated r)
    (rw_prompt_tokens r).

(** The [while let] of [push]; every round removes a frame. *)
Fixpoint push_upto (fuel : nat) (r : FrameRewriter) : FrameRewriter * list byte :=
  match fuel with
  | O => (r, [])
  | S fuel =>
      match frame_end (rw_buffer r) with
      | None => (r, [])
      | Some (content, total) =>
          let frame := take total (rw_buffer r) in
          let '(r, out) := emit (set_buffer r (drop total (rw_buffer r))) (take content frame) frame in
          let '(r, rest) := push_upto fuel r in
          (r, out ++ rest)
      end
  end.

Definition push (r : FrameRewriter) (chunk : list byte) : FrameRewriter * list byte :=
  if finished r then (r, [])
  else
    let r := set_buffer r (rw_buffer r ++ chunk) in
    let '(r, out) := push_upto (S (length (rw_buffer r))) r in
    if FRAME_LIMIT <? Z.of_nat (length (rw_buffer r)) then
      let '(r, tail) :=
        rw_fail (set_buffer r []) (lit "upstream_stream_invalid")
          (lit "the upstream node sent an event larger than the router accepts") in
      (r, out ++ tail)
    else (r, out).

Definition set_finished (r : FrameRewriter) : FrameRewriter :=
  mkRewriter (public_model r) (rw_buffer r) (saw_done r) (saw_error r) true (generated r)
    (rw_prompt_tokens r).

Definition finish (r : FrameRewriter) : FrameRewriter * list byte :=
  if finished r then (r, [])
  else if saw_done r || saw_error r then (set_finished r, [])
  else rw_fail r (lit "upstream_stream_interrupted")
         (lit "the upstream node ended the stream before it was complete").

Definition abort (r : FrameRewriter) : FrameRewriter * list byte :=
  if finished r || saw_done r || saw_error r then (set_finished r, [])
  else rw_fail r (lit "upstream_stream_interrupted")
         (lit "the connection to the upstream node failed during the response").

(** The reader's loop. *)
Fixpoint push_all (r : FrameRewriter) (chunks : list (list byte)) : FrameRewriter * list byte :=
  match chunks with
  | [] => (r, [])
  | chunk :: chunks =>
      let '(r, out) := push r chunk in
      let '(r, rest) := push_all r chunks in
      (r, out ++ rest)
  end.

(** [rewrite_body_measuring], over the parse of the body. *)
Definition rewrite_body_measuring (parsed : option Value) (public : str)
    : option str * option u32 :=
  match parsed ≫= as_object with
  | None => (None, None)
  | Some object =>
      let tokens := prompt_tokens object in
      if names_model object
      then (Some (to_string (of_object (object_insert (lit "model") (of_string public) object))), tokens)
      else (None, tokens)
  end.

Definition rewrite_body (parsed : option Value) (public : str) : option str :=
  let! object := parsed ≫= as_object in
  if names_model object
  then Some (to_string (of_object (object_insert (lit "model") (of_string public) object)))
  else None.

(** ** The rewriter against the frames of the stream *)

Definition noted (r : FrameRewriter) (f : list byte * list byte) : FrameRewriter :=
  fst (emit r (fst f) (snd f)).

(** What becomes of one frame. *)
Definition rewrite_frame (public : str) (f : list byte * list byte) : list byte :=
  snd (emit (FrameRewriter_new public) (fst f) (snd f)).

Lemma emit_cases r content raw :
  (noted r (content, raw) = r ∨ noted r (content, raw) = set_done r ∨
   ∃ e, noted r (content, raw) = note_event r e) ∧
  snd (emit r content raw) = rewrite_frame (public_model r) (content, raw).
Proof.
  unfold rewrite_frame, noted, emit. cbn [fst snd]. destruct (utf8_decode content) as [text|]; [|by auto].
  destruct (data_lines _); [by auto|]. case_bool_decide; [by auto|].
  destruct (from_str _ ≫= _) as [e|]; [|by auto]. destruct (names_model e); split; eauto.
Qed.

Lemma noted_set_buffer r b f : noted (set_buffer r b) f = set_buffer (noted r f) b.
Proof.
  destruct f as [content raw]. unfold noted, emit. cbn [fst snd].
  destruct (utf8_decode content) as [text|]; [|done].
  destruct (data_lines _); [done|]. case_bool_decide; [done|].
  destruct (from_str _ ≫= _) as [e|]; [|done]. by destruct (names_model e).
Qed.

Lemma noted_keeps r f :
  public_model (noted r f) = public_model r ∧ finished (noted r f) = finished r.
Proof.
  destruct f as [content raw]. destruct (emit_cases r content raw) as [[->|[->|[e ->]]] _]; done.
Qed.

Lemma notes_keep r fs :
  public_model (foldl noted r fs) = public_model r ∧ finished (foldl noted r fs) = finished r.
Proof.
  revert r. induction fs as [|f fs IH]; intros r; [done|]. cbn [foldl].
  destruct (IH (noted r f)) as [-> ->]. apply noted_keeps.
Qed.

Lemma notes_set_buffer r b fs : foldl noted (set_buffer r b) fs = set_buffer (foldl noted r fs) b.
Proof.
  revert r. induction fs as [|f fs IH]; intros r; [done|]. cbn [foldl].
  by rewrite noted_set_buffer, IH.
Qed.

Lemma push_upto_spec r b n :
  (length b < n)%nat →
  push_upto n (set_buffer r b) =
  let '(fs, rest) := frames b in
  (set_buffer (foldl noted r fs) rest, concat (rewrite_frame (public_model r) <$> fs)).
Proof.
  revert r n. induction b as [b E|b c t E IH] using frames_ind; intros r [|n] Hn; try lia;
    cbn [push_upto]; change (rw_buffer (set_buffer r b)) with b; rewrite (frames_unfold b), E; [done|].
  apply frame_end_bound in E as Hb. cbv zeta. rewrite take_take, Nat.min_l by lia.
  change (set_buffer (set_buffer r b) (drop t b)) with (set_buffer r (drop t b)).
  destruct (emit_cases (set_buffer r (drop t b)) (take c b) (take t b)) as [_ Hout].
  pose proof (noted_set_buffer r (drop t b) (take c b, take t b)) as Hnoted.
  unfold noted in Hnoted at 1. cbn [fst snd] in Hnoted.
  destruct (emit (set_buffer r (drop t b)) (take c b) (take t b)) as [r1 out]. cbn [fst snd] in *.
  rewrite Hnoted, IH by (rewrite length_drop; lia). destruct (frames (drop t b)) as [fs rest].
  destruct (noted_keeps r (take c b, take t b)) as [-> _]. by rewrite Hout.
Qed.

Definition oversize (b : list byte) : bool := FRAME_LIMIT <? Z.of_nat (length b).

Lemma set_buffer_id r : set_buffer r (rw_buffer r) = r.
Proof. by destruct r. Qed.

(** A chunk that leaves no oversized frame behind. *)
Lemma push_spec r chunk :
  finished r = false → oversize (snd (frames (rw_buffer r ++ chunk))) = false →
  push r chunk =
  let '(fs, rest) := frames (rw_buffer r ++ chunk) in
  (set_buffer (foldl noted r fs) rest, concat (rewrite_frame (public_model r) <$> fs)).
Proof.
  intros Hf Ho. unfold push. rewrite Hf. cbv zeta. rewrite push_upto_spec by (simpl; lia).
  unfold oversize in Ho. destruct (frames _) as [fs rest]. cbn [snd] in Ho. cbn [rw_buffer set_buffer].
  by rewrite Ho.
Qed.

(** However the stream is cut, the frames are rewritten one by one, as long as
    no prefix of it leaves an oversized frame behind. *)
Lemma push_all_spec r chunks :
  finished r = false → frame_end (rw_buffer r) = None →
  (∀ s t, concat chunks = s ++ t → oversize (snd (frames (rw_buffer r ++ s))) = false) →
  push_all r chunks =
  let '(fs, rest) := frames (rw_buffer r ++ concat chunks) in
  (set_buffer (foldl noted r fs) rest, concat (rewrite_frame (public_model r) <$> fs)).
Proof.
  revert r. induction chunks as [|chunk chunks IH]; intros r Hf He Ho.
  - cbn [push_all concat]. rewrite app_nil_r, frames_unfold, He. cbn. by rewrite set_buffer_id.
  - cbn [push_all concat]. rewrite push_spec; [|done|by apply (Ho chunk (concat chunks))].
    rewrite (app_assoc (rw_buffer r)), (frames_app (rw_buffer r ++ chunk)).
    pose proof (frames_rest (rw_buffer r ++ chunk)) as Hrest.
    destruct (frames (rw_buffer r ++ chunk)) as [fs b] eqn:Efs. cbn [snd] in Hrest.
    destruct (notes_keep r fs) as [Hp Hf']. lazy beta iota.
    rewrite IH; [|cbn; by rewrite Hf'|done|].
    + cbn [rw_buffer set_buffer public_model]. rewrite Hp.
      destruct (frames (b ++ concat chunks)) as [gs b'].
      change (mkRewriter _ b _ _ _ _ _) with (set_buffer (foldl noted r fs) b).
      rewrite notes_set_buffer, foldl_app, fmap_app, concat_app. done.
    + cbn [rw_buffer set_buffer]. intros s t Hst.
      specialize (Ho (chunk ++ s) t ltac:(cbn [concat]; by rewrite Hst, app_assoc)).
      rewrite app_assoc, frames_app, Efs in Ho. by destruct (frames (b ++ s)).
Qed.

(** ** One frame, as text *)

(** The event a client should see for an event of the node. *)
Definition renamed (public : str) (e : SseEvent) : SseEvent :=
  if is_done e then e
  else match from_str (data e) ≫= as_object with
       | Some o =>
           if names_model o
           then mkEvent (event e)
                  (to_string (of_object (object_insert (lit "model") (of_string public) o))) (id e)
           else e
       | None => e
       end.

(** The last word of a stream: [DONE], or an error of the node's own. *)
Definition ends_stream (e : SseEvent) : bool :=
  is_done e ||
  match from_str (data e) ≫= as_object with
  | Some o => bool_decide (is_Some (object_get o (lit "error")))
  | None => false
  end.

Definition meta (st : SseEvent * bool) : option str * option str := (event (fst st), id (fst st)).

Lemma split_once_app sep l f v : split_once sep l = Some (f, v) → l = f ++ sep :: v.
Proof.
  revert f v. induction l as [|x l IH]; intros f v; [done|]. cbn [split_once].
  destruct (Z.eqb_spec x sep) as [->|]; [by intros [= <- <-]|].
  destruct (split_once sep l) as [[f' v']|]; [|done]. intros [= <- <-]. cbn [fst snd].
  by rewrite (IH f' v').
Qed.

Lemma starts_with_app n l : starts_with n (n ++ l) = true.
Proof. induction n as [|x n IH]; [done|]. cbn [app starts_with]. by rewrite Z.eqb_refl. Qed.

Lemma starts_with_inv n l : starts_with n l = true → l = n ++ drop (length n) l.
Proof.
  revert l. induction n as [|x n IH]; intros [|y l]; [done..|]. cbn [starts_with].
  intros [->%Z.eqb_eq H]%andb_true_iff. cbn [app length drop]. f_equal. by apply IH.
Qed.

Lemma parse_data e has line v :
  data_of_line line = Some v →
  parse_line (e, has) line
  = (mkEvent (event e) ((if has then data e ++ [LF] else data e) ++ v) (id e), true).
Proof.
  unfold data_of_line. destruct (starts_with (lit "data:") line) eqn:E; [|done]. intros [= <-].
  apply starts_with_inv in E. change (length (lit "data:")) with 5%nat in E. rewrite E. reflexivity.
Qed.

Lemma parse_other st line :
  data_of_line line = None → line ≠ lit "data" →
  data (fst (parse_line st line)) = data (fst st) ∧ snd (parse_line st line) = snd st.
Proof.
  unfold data_of_line. destruct (starts_with (lit "data:") line) eqn:E; [done|]. intros _ Hne.
  destruct st as [e has]. unfold parse_line. destruct (starts_with [58] line); [done|].
  destruct (match split_once 58 line with Some _ => _ | None => _ end) as [f v] eqn:Ef.
  rewrite bool_decide_eq_false_2; [by repeat case_bool_decide|]. intros ->.
  destruct (split_once 58 line) as [[f' v']|] eqn:Es; injection Ef as -> <-; [|done].
  apply split_once_app in Es. pose proof (starts_with_app (lit "data:") v') as H.
  assert (Hl : line = lit "data:" ++ v') by exact Es. rewrite Hl in E. congruence.
Qed.

Lemma parse_meta st st' line : meta st = meta st' → meta (parse_line st line) = meta (parse_line st' line).
Proof.
  destruct st as [e has], st' as [e' has']. unfold meta. cbn [fst]. intros [= He Hi].
  unfold parse_line. destruct (starts_with [58] line); [cbn; congruence|].
  destruct (match split_once 58 line with Some _ => _ | None => _ end) as [f v].
  repeat case_bool_decide; cbn; congruence.
Qed.

Lemma parse_data_meta st line v : data_of_line line = Some v → meta (parse_line st line) = meta st.
Proof. intros H. destruct st as [e has]. by rewrite (parse_data _ _ _ _ H). Qed.

Lemma other_line_None line : data_of_line line = None ↔ negb (starts_with (lit "data:") line) = true.
Proof. unfold data_of_line. by destruct (starts_with (lit "data:") line). Qed.

(** The fold over the lines of a frame, against the two vectors of [emit]. *)
Lemma fold_lines ls st :
  lit "data" ∉ ls →
  let st' := foldl parse_line st ls in
  (∀ st0, meta st0 = meta st → meta st' = meta (foldl parse_line st0 (other_lines ls))) ∧
  snd st' = (snd st || negb (bool_decide (data_lines ls = []))) ∧
  data (fst st') = match data_lines ls with
                   | [] => data (fst st)
                   | ds => (if snd st then data (fst st) ++ [LF] else data (fst st)) ++ join_lines ds
                   end.
Proof.
  revert st. induction ls as [|l ls IH]; intros st Hls.
  { cbn. split_and!; [done|by rewrite orb_false_r|done]. }
  apply not_elem_of_cons in Hls as [Hl Hls]. cbn [foldl].
  destruct (IH (parse_line st l) Hls) as (Hm & Hh & Hd). clear IH.
  change (data_lines (l :: ls)) with
    (match data_of_line l with Some v => v :: data_lines ls | None => data_lines ls end).
  cbn [other_lines List.filter]. fold (other_lines ls). destruct (data_of_line l) as [v|] eqn:E.
  - pose proof (parse_data_meta st l v E) as Hmeta.
    assert (Hs : negb (starts_with (lit "data:") l) = false).
    { unfold data_of_line in E. by destruct (starts_with (lit "data:") l). }
    rewrite Hs. destruct st as [e has]. rewrite (parse_data _ _ _ _ E) in *. cbn [fst snd data] in *.
    split_and!.
    + intros st0 H0. apply Hm. by rewrite H0, Hmeta.
    + rewrite Hh. by destruct has.
    + rewrite Hd. destruct (data_lines ls) as [|d ds]; [done|]. lazy beta iota.
      rewrite <-!app_assoc. reflexivity.
  - destruct (parse_other st l E) as [Hd0 Hs0]; [congruence|]. apply other_line_None in E. rewrite E.
    split_and!.
    + intros st0 H0. cbn [foldl]. apply Hm. by apply parse_meta.
    + by rewrite Hh, Hs0.
    + by rewrite Hd, Hd0, Hs0.
Qed.

Definition no_fields : SseEvent * bool := (mkEvent None [] None, false).

Definition header_of (ls : list str) : option str * option str :=
  meta (foldl parse_line no_fields (other_lines ls)).

Lemma parse_frame_lines text :
  lit "data" ∉ lines_of text →
  parse_frame text = match data_lines (lines_of text) with
                     | [] => None
                     | ds => Some (mkEvent (fst (header_of (lines_of text))) (join_lines ds)
                                     (snd (header_of (lines_of text))))
                     end.
Proof.
  intros Hd. unfold parse_frame, header_of. fold no_fields.
  destruct (fold_lines (lines_of text) no_fields Hd) as (Hm & Hh & Hda).
  specialize (Hm no_fields eq_refl). destruct (foldl parse_line no_fields (lines_of text)) as [e has].
  cbn [fst snd] in *. rewrite <-Hm. subst has. destruct (data_lines (lines_of text)) as [|d ds]; [done|].
  cbn. f_equal. destruct e as [ev da i]. cbn in *. by rewrite Hda.
Qed.

Lemma lines_of_lines text : Forall is_line (lines_of text).
Proof.
  apply Forall_forall. intros l Hl. unfold lines_of in Hl.
  apply list_elem_of_In, filter_In in Hl as [Hl Hne]. apply list_elem_of_In in Hl. split.
  - intros ->. by rewrite bool_decide_eq_true_2 in Hne.
  - intros c Hc. by destruct (split_at_any_chars _ _ _ _ Hl Hc).
Qed.

Lemma elem_of_other_lines l ls : l ∈ other_lines ls → l ∈ ls ∧ data_of_line l = None.
Proof.
  unfold other_lines. rewrite list_elem_of_In, filter_In, <-list_elem_of_In.
  intros [H1 H2]. split; [done|]. by apply other_line_None.
Qed.

Lemma other_lines_idemp ls : other_lines (other_lines ls) = other_lines ls ∧ data_lines (other_lines ls) = [].
Proof.
  induction ls as [|l ls [IH1 IH2]]; [done|]. cbn [other_lines List.filter]. fold (other_lines ls).
  destruct (negb (starts_with (lit "data:") l)) eqn:E; [|done]. split.
  - cbn [other_lines List.filter]. rewrite E. fold (other_lines (other_lines ls)). by rewrite IH1.
  - apply other_line_None in E. unfold data_lines in *. cbn [omap list_omap]. rewrite E. exact IH2.
Qed.

(** A frame of field lines and one line of data. *)
Definition with_data (ls : list str) (payload : str) : str :=
  join_lines (other_lines ls ++ [lit "data: " ++ payload]).

Lemma with_data_lines ls payload :
  Forall is_line ls → (∀ c, c ∈ payload → is_eol c = false) →
  Forall is_line (other_lines ls ++ [lit "data: " ++ payload]).
Proof.
  intros Hls Hp. apply Forall_app. split.
  - rewrite Forall_forall in *. intros l [Hl _]%elem_of_other_lines. by apply Hls.
  - repeat constructor; [done|]. intros c [Hc|Hc]%elem_of_app; [by apply data_is_line|by apply Hp].
Qed.

Lemma parse_with_data ls payload :
  Forall is_line ls → lit "data" ∉ ls → (∀ c, c ∈ payload → is_eol c = false) →
  parse_frame (with_data ls payload)
  = Some (mkEvent (fst (header_of ls)) payload (snd (header_of ls))).
Proof.
  intros Hls Hd Hp. unfold parse_frame, with_data. rewrite lines_of_join by by apply with_data_lines.
  rewrite foldl_app. cbn [foldl]. fold no_fields. unfold header_of.
  destruct (fold_lines (other_lines ls) no_fields) as (_ & Hh & Hda).
  { by intros [? _]%elem_of_other_lines. }
  destruct (other_lines_idemp ls) as [_ Hnil]. rewrite Hnil in *.
  destruct (foldl parse_line no_fields (other_lines ls)) as [e has]. cbn [fst snd] in *. subst has.
  rewrite parse_data_line. cbn. by rewrite Hda.
Qed.

Definition rewrite_text (public : str) (f : str * str) : str * str :=
  let ls := lines_of (fst f) in
  match data_lines ls with
  | [] => f
  | ds =>
      if bool_decide (trim (join_lines ds) = DONE_DATA) then f
      else match from_str (join_lines ds) ≫= as_object with
           | Some o =>
               if names_model o then
                 let content := with_data ls
                   (to_string (of_object (object_insert (lit "model") (of_string public) o))) in
                 (content, content ++ [LF; LF])
               else f
           | None => f
           end
  end.

Definition chars (s : str) : Prop := Forall (λ c, is_char c = true) s.

Context `{!JsonLaws J}.

Lemma split_lf_one s : (∀ c, c ∈ s → is_eol c = false) → split_lf s = [s].
Proof. intros Hs. apply split_at_any_one. intros c Hc%Hs. unfold is_eol in Hc. lia. Qed.

Lemma encode_one_line s :
  (∀ c, c ∈ s → is_eol c = false) → encode_data s = lit "data: " ++ s ++ [LF; LF].
Proof.
  intros Hs. unfold encode_data. rewrite split_lf_one by done. cbn [fmap list_fmap concat].
  rewrite trim_end_crs_id, app_nil_r, <-!app_assoc; [done|].
  intros c Hc%Hs. unfold is_eol in Hc. lia.
Qed.

Lemma field_lines_bytes ls payload :
  concat ((λ line, utf8_encode line ++ [LF]) <$> ls) ++ utf8_encode (lit "data: " ++ payload ++ [LF; LF])
  = utf8_encode (join_lines (ls ++ [lit "data: " ++ payload]) ++ [LF; LF]).
Proof.
  induction ls as [|l ls IH].
  - cbn [fmap list_fmap concat app join_lines]. by rewrite <-app_assoc.
  - rewrite fmap_cons. cbn [concat]. rewrite <-app_assoc, IH.
    rewrite <-app_comm_cons, join_lines_cons by (by destruct ls).
    rewrite <-(app_assoc l), (utf8_encode_app l), <-app_comm_cons, utf8_encode_cons.
    by rewrite <-app_assoc.
Qed.

Lemma rewrite_frame_text public f :
  chars (fst f) → rewrite_frame public (encode_frame f) = utf8_encode (snd (rewrite_text public f)).
Proof.
  intros Hc. unfold rewrite_frame, rewrite_text, emit, encode_frame. cbn [fst snd].
  rewrite utf8_roundtrip by done. destruct (data_lines _); [done|]. case_bool_decide; [done|].
  destruct (from_str _ ≫= _) as [o|]; [|done]. destruct (names_model o); [|done].
  cbn [fst snd public_model note_event FrameRewriter_new].
  rewrite encode_one_line by (intros c ?%to_string_line; naive_solver).
  by rewrite field_lines_bytes.
Qed.

Lemma rewrite_text_event public f :
  lit "data" ∉ lines_of (fst f) →
  parse_frame (fst (rewrite_text public f)) = renamed public <$> parse_frame (fst f).
Proof.
  destruct f as [content raw]. cbn [fst]. intros Hd. rewrite (parse_frame_lines content) by done.
  unfold rewrite_text, renamed, is_done. cbn [fst]. cbv zeta.
  destruct (data_lines (lines_of content)) as [|d ds] eqn:Eds;
    cbn [fmap option_fmap option_map data event id]; lazy beta iota.
  { change (parse_frame content = None). by rewrite (parse_frame_lines content), Eds. }
  case_bool_decide; [cbn [fst]; by rewrite (parse_frame_lines content), Eds|].
  destruct (from_str _ ≫= _) as [o|]; [|cbn [fst]; by rewrite (parse_frame_lines content), Eds].
  destruct (names_model o); [|cbn [fst]; by rewrite (parse_frame_lines content), Eds]. cbn [fst].
  apply parse_with_data; [apply lines_of_lines|done|]. intros c ?%to_string_line. naive_solver.
Qed.

Lemma rewrite_text_one_frame public f : one_frame f → one_frame (rewrite_text public f).
Proof.
  intros Hf. unfold rewrite_text. destruct (data_lines _); [done|]. case_bool_decide; [done|].
  destruct (from_str _ ≫= _) as [o|]; [|done]. destruct (names_model o); [|done].
  unfold one_frame. cbn [fst snd]. rewrite take_app_length, length_app, frame_end_cut. split; [|done].
  apply (cut_lines _ []); [by destruct (other_lines _)|].
  apply with_data_lines; [apply lines_of_lines|]. intros c ?%to_string_line. naive_solver.
Qed.

Definition ended (r : FrameRewriter) : bool := saw_done r || saw_error r.

Lemma noted_ended r f :
  chars (fst f) → lit "data" ∉ lines_of (fst f) →
  ended (noted r (encode_frame f))
  = ended r || match parse_frame (fst f) with Some e => ends_stream e | None => false end.
Proof.
  destruct f as [content raw]. cbn [fst]. intros Hc Hd. rewrite (parse_frame_lines content) by done.
  unfold noted, emit, encode_frame, ended.
  cbn [fst snd]. rewrite utf8_roundtrip by done. unfold ends_stream, is_done.
  destruct (data_lines _) as [|d ds]; [by rewrite orb_false_r|]. cbn [data].
  case_bool_decide; [by destruct (saw_done r), (saw_error r)|].
  destruct (from_str _ ≫= _) as [o|]; [|by rewrite orb_false_r].
  destruct (names_model o); cbn; destruct (bool_decide _), (saw_done r), (saw_error r); done.
Qed.

Lemma join_lines_chars ls c : c ∈ join_lines ls → c = LF ∨ ∃ l, l ∈ ls ∧ c ∈ l.
Proof.
  induction ls as [|l ls IH]; [by intros ?%not_elem_of_nil|]. destruct ls as [|m ls].
  - intros Hc. right. exists l. split; [apply list_elem_of_here|done].
  - rewrite join_lines_cons by done.
    intros [Hc|[->|Hc]%elem_of_cons]%elem_of_app; [right|by left|].
    + exists l. split; [apply list_elem_of_here|done].
    + destruct (IH Hc) as [->|(k & Hk & Hck)]; [by left|right]. exists k.
      split; [by apply list_elem_of_further|done].
Qed.

Lemma rewrite_text_chars public f :
  chars (fst f) → chars (snd f) → chars (snd (rewrite_text public f)).
Proof.
  unfold chars. rewrite !Forall_forall. intros Hf Hs. unfold rewrite_text.
  destruct (data_lines _); [done|]. case_bool_decide; [done|].
  destruct (from_str _ ≫= _) as [o|]; [|done]. destruct (names_model o); [|done]. cbn [snd].
  intros c [Hc|Hc]%elem_of_app.
  - apply join_lines_chars in Hc as [->|(line & [Hl|Hl]%elem_of_app & Hc)]; [done|..].
    + apply elem_of_other_lines in Hl as [Hl _]. unfold lines_of in Hl.
      apply list_elem_of_In, filter_In in Hl as [Hl _]. apply list_elem_of_In in Hl.
      destruct (split_at_any_chars _ _ _ _ Hl Hc). by apply Hf.
    + apply list_elem_of_singleton in Hl as ->. apply elem_of_app in Hc as [Hc|Hc].
      * by apply (elem_forallb is_char _ _ Hc).
      * by apply to_string_line in Hc as [_ ?].
  - by apply (elem_forallb is_char _ _ Hc).
Qed.

(** ** Streams *)

(** A stream the rewriter is made for: text, in frames within the limit, whose
    data lines all have their colon. *)
Record streamed (T : str) : Prop := {
  st_chars : chars T;
  st_frames : ∀ f, f ∈ fst (frames T) →
    (lit "data" ∉ lines_of (fst f)) ∧ Z.of_nat (length (utf8_encode (snd f))) ≤ FRAME_LIMIT;
  st_rest : Z.of_nat (length (utf8_encode (snd (frames T)))) ≤ FRAME_LIMIT }.

Lemma frame_chars T f : chars T → f ∈ fst (frames T) → chars (fst f).
Proof.
  unfold chars. rewrite !Forall_forall. intros HT Hf c Hc. apply HT. by eapply frames_content.
Qed.

Lemma rewritten_chars public T :
  chars T → chars (concat (snd <$> (rewrite_text public <$> fst (frames T)))).
Proof.
  intros HT. unfold chars. apply Forall_concat, Forall_fmap, Forall_fmap, Forall_forall.
  intros f Hin. apply rewrite_text_chars; [by eapply frame_chars|].
  unfold chars in *. rewrite Forall_forall in *. intros c Hc. apply HT.
  pose proof (frames_concat T) as Hcat. destruct (frames T) as [fs r]. cbn [fst] in Hin.
  rewrite <-Hcat. apply elem_of_app. left. apply list_elem_of_In, in_concat. exists (snd f).
  split; [|by apply list_elem_of_In]. by apply list_elem_of_In, list_elem_of_fmap_2.
Qed.

Lemma events_cons f fs :
  events_of (f :: fs)
  = match parse_frame (fst f) with Some e => e :: events_of fs | None => events_of fs end.
Proof. reflexivity. Qed.

Lemma events_rewritten public fs :
  (∀ f, f ∈ fs → lit "data" ∉ lines_of (fst f)) →
  events_of (rewrite_text public <$> fs) = renamed public <$> events_of fs.
Proof.
  induction fs as [|f fs IH]; intros Hd; [done|]. rewrite fmap_cons, !events_cons.
  rewrite rewrite_text_event by (apply Hd, list_elem_of_here).
  rewrite IH by (intros g Hg; by apply Hd, list_elem_of_further).
  destruct f as [c w]. cbn [fst]. by destruct (parse_frame c).
Qed.

Lemma rewritten_bytes public fs :
  (∀ f, f ∈ fs → chars (fst f)) →
  concat (rewrite_frame public <$> (encode_frame <$> fs))
  = utf8_encode (concat (snd <$> (rewrite_text public <$> fs))).
Proof.
  induction fs as [|f fs IH]; intros Hc; [done|]. rewrite !fmap_cons. cbn [concat].
  rewrite utf8_encode_app, <-IH by (intros g Hg; by apply Hc, list_elem_of_further).
  by rewrite rewrite_frame_text by (apply Hc, list_elem_of_here).
Qed.

Lemma notes_ended r fs :
  (∀ f, f ∈ fs → chars (fst f) ∧ (lit "data" ∉ lines_of (fst f))) →
  ended (foldl noted r (encode_frame <$> fs)) = ended r || existsb ends_stream (events_of fs).
Proof.
  revert r. induction fs as [|f fs IH]; intros r Hf; [cbn; by rewrite orb_false_r|].
  rewrite fmap_cons, events_cons. cbn [foldl].
  rewrite IH by (intros g Hg; by apply Hf, list_elem_of_further).
  destruct (Hf f (list_elem_of_here _ _)) as [Hc Hd]. rewrite noted_ended by done.
  destruct (parse_frame (fst f)); cbn [existsb]; [|by rewrite orb_false_r].
  by rewrite orb_assoc.
Qed.

(** The rewriter at the end of a stream, however it was cut. *)
Lemma push_all_streamed public T chunks :
  streamed T → concat chunks = utf8_encode T →
  push_all (FrameRewriter_new public) chunks =
  (set_buffer (foldl noted (FrameRewriter_new public) (encode_frame <$> fst (frames T)))
     (utf8_encode (snd (frames T))),
   utf8_encode (concat (snd <$> (rewrite_text public <$> fst (frames T))))).
Proof.
  intros [Hc Hf Hr] Hcat. rewrite push_all_spec; [|done|done|].
  - rewrite Hcat. cbn [rw_buffer FrameRewriter_new app public_model]. rewrite frames_utf8.
    pose proof (frame_chars T) as Hfc. destruct (frames T) as [fs r]. cbn [fst snd] in *.
    rewrite rewritten_bytes; [done|]. intros f. by apply Hfc.
  - intros s t Hst. cbn [rw_buffer FrameRewriter_new app]. unfold oversize. apply Z.ltb_ge.
    rewrite Hcat in Hst. apply frames_prefix_rest in Hst. rewrite frames_utf8 in Hst.
    destruct (frames T) as [fs r]. cbn [fst snd] in *.
    destruct Hst as [Hle|(g & (f & -> & Hin)%list_elem_of_fmap & Hle)].
    + lia.
    + destruct (Hf f Hin) as [_ Hsz]. destruct f as [c w]. unfold encode_frame in Hle. cbn [snd] in *. lia.
Qed.

Lemma read_stream T :
  chars T → Z.of_nat (length (utf8_encode (snd (frames T)))) ≤ FRAME_LIMIT →
  feed SseDecoder_new (utf8_encode T)
  = (Ok tt, mkDecoder (snd (frames T)) (events_of (fst (frames T))) DEFAULT_FRAME_LIMIT false).
Proof.
  intros Hc Hr. rewrite feed_text by done. unfold after, overfull.
  cbn [buffer SseDecoder_new with_limit app]. destruct (frames T) as [fs r]. cbn [fst snd] in *.
  cbv zeta. cbn [buffer ready limit poisoned].
  match goal with |- context [?x <? ?y] => destruct (Z.ltb_spec x y) as [Hlt|] end; [|done].
  exfalso. revert Hlt. change (DEFAULT_FRAME_LIMIT < Z.of_nat (length (utf8_encode r)) → False).
  unfold DEFAULT_FRAME_LIMIT, FRAME_LIMIT in *. lia.
Qed.
End json.

(** ** What a client sees of a rewritten stream

    The properties of the [FrameRewriter] of [Rewriter.v], read through the
    decoder of [Sse.v], and a small JSON to run them on. *)

(** Anything a reader does with a rewriter. *)
Inductive RewriterOp := OpPush (chunk : list byte) | OpFinish | OpAbort.

Definition rewriter_op `{Json} (r : FrameRewriter) (o : RewriterOp) : FrameRewriter * list byte :=
  match o with OpPush chunk => push r chunk | OpFinish => finish r | OpAbort => abort r end.

Fixpoint rewriter_ops `{Json} (r : FrameRewriter) (os : list RewriterOp) : list byte :=
  match os with
  | [] => []
  | o :: os => let '(r, out) := rewriter_op r o in out ++ rewriter_ops r os
  end.

Lemma finished_silent `{Json} r os : finished r = true → rewriter_ops r os = [].
Proof.
  revert r. induction os as [|o os IH]; intros r Hr; [done|]. cbn [rewriter_ops].
  assert (Ho : ∃ r', rewriter_op r o = (r', []) ∧ finished r' = true).
  { destruct o; cbn [rewriter_op]; unfold push, finish, abort; rewrite Hr; cbn; by eexists. }
  destruct Ho as (r' & -> & Hr'). cbn [app]. by apply IH.
Qed.

(** ** A small JSON *)

(** Strings, and objects of strings. *)
Inductive Toy := ToyString (s : str) | ToyObject (o : list (str * str)).

Definition toy_escape (s : str) : str := List.filter (fun c => negb (is_eol c) && is_char c) s.

Definition toy_pair (kv : str * str) : str :=
  [34] ++ toy_escape (fst kv) ++ [34; 58; 34] ++ toy_escape (snd kv) ++ [34].

Definition toy_print (v : Toy) : str :=
  match v with
  | ToyString s => [34] ++ toy_escape s ++ [34]
  | ToyObject o => [123] ++ concat (toy_pair <$> o) ++ [125]
  end.

(** The one text it parses. *)
Definition toy_chunk : Toy := ToyObject [(lit "model", lit "QwenCoder")].
Definition toy_error : Toy := ToyObject [(lit "error", lit "boom")].

#[local] Instance ToyJson : Json := {
  Value := Toy;
  Object := list (str * str);
  from_str s := find_first (fun v => bool_decide (toy_print v = s)) [toy_chunk; toy_error];
  to_string := toy_print;
  as_object v := match v with ToyObject o => Some o | _ => None end;
  as_string v := match v with ToyString s => Some s | _ => None end;
  as_items _ := None;
  value_as_u64 _ := None;
  of_object := ToyObject;
  of_string := ToyString;
  empty_object := [];
  object_get o k := ToyString <$> (snd <$> find_first (fun kv => bool_decide (fst kv = k)) o);
  object_insert k v o :=
    (k, match v with ToyString s => s | ToyObject _ => lit "..." end)
      :: List.filter (fun kv => negb (bool_decide (fst kv = k))) o }.

#[local] Instance ToyLaws : JsonLaws ToyJson.
Proof.
  split. intros v c. change (to_string v) with (toy_print v).
  assert (Hesc : ∀ s, c ∈ toy_escape s → is_eol c = false ∧ is_char c = true).
  { intros s Hc. apply list_elem_of_In, filter_In in Hc as [_ Hc]. destruct (is_eol c), (is_char c); done. }
  assert (Hq : ∀ l, forallb (fun c => negb (is_eol c) && is_char c) l = true → c ∈ l →
    is_eol c = false ∧ is_char c = true).
  { intros l Hl Hc%list_elem_of_In. rewrite forallb_forall in Hl. apply Hl in Hc.
    by destruct (is_eol c), (is_char c). }
  destruct v as [s|o]; cbn [toy_print]; rewrite !elem_of_app.
  - intros [Hc|[Hc|Hc]]; [by apply (Hq [34])|by eapply Hesc|by apply (Hq [34])].
  - intros [Hc|[Hc|Hc]]; [by apply (Hq [123])| |by apply (Hq [125])].
    apply list_elem_of_In, in_concat in Hc as (p & Hp & Hc).
    apply list_elem_of_In in Hp. apply list_elem_of_In in Hc.
    apply list_elem_of_fmap in Hp as (kv & -> & _). unfold toy_pair in Hc. rewrite !elem_of_app in Hc.
    destruct Hc as [Hc|[Hc|[Hc|[Hc|Hc]]]];
      [by apply (Hq [34])|by eapply Hesc|by apply (Hq [34; 58; 34])|by eapply Hesc|by apply (Hq [34])].
Qed.

(** ** Properties *)

(** C31: a client sees the node's stream, under the route's name.  However the
    network cuts a stream of text, even inside a character, a client decoding
    what the rewriter forwards sees exactly the node's events, in order, with
    nothing else between them: each JSON object that names a model carries the
    route's name instead, and every other event, [DONE] included, is as the
    node sent it. *)
Theorem rewriter_is_transparent (J : Json) (_ : JsonLaws J) public T chunks :
  streamed T → concat chunks = utf8_encode T →
  ∃ d d', feed SseDecoder_new (utf8_encode T) = (Ok tt, d) ∧
    feed SseDecoder_new (snd (push_all (FrameRewriter_new public) chunks)) = (Ok tt, d') ∧
    ready d' = renamed public <$> ready d ∧ has_pending d' = false.
Proof.
  intros HT Hcat. rewrite (push_all_streamed public T chunks HT Hcat). destruct HT as [Hc Hf Hr].
  cbn [snd]. eexists. eexists. split; [by apply read_stream|].
  assert (Hfr : frames (concat (snd <$> (rewrite_text public <$> fst (frames T))))
                = (rewrite_text public <$> fst (frames T), [])).
  { apply frames_of_frames. intros f (g & -> & Hg)%list_elem_of_fmap.
    by eapply rewrite_text_one_frame, frames_one_frame. }
  rewrite feed_text; [|done|].
  - unfold after, overfull. cbn [buffer SseDecoder_new with_limit app]. rewrite Hfr. cbv zeta.
    cbn [buffer ready limit poisoned]. split; [reflexivity|]. split; [|done]. cbn [ready app].
    apply events_rewritten. intros f Hin. by apply Hf.
  - by apply rewritten_chars.
Qed.

(** The stream of one chunk, a keep-alive and the end. *)
Definition short_stream : str :=
  encode_data (toy_print toy_chunk) ++ encode_comment (lit "keep-alive") ++ encode_done.

(** [streamed], decided by evaluation. *)
Lemma streamed_dec T :
  forallb is_char T
  && forallb (λ f, negb (bool_decide (lit "data" ∈ lines_of (fst f)))
               && (Z.of_nat (length (utf8_encode (snd f))) <=? FRAME_LIMIT)) (fst (frames T))
  && (Z.of_nat (length (utf8_encode (snd (frames T)))) <=? FRAME_LIMIT) = true → streamed T.
Proof.
  intros [[Hc Hf]%andb_true_iff Hr%Z.leb_le]%andb_true_iff. split; [|intros f Hin|done].
  - apply Forall_forall. intros c Hin. by apply (elem_forallb _ _ _ Hin).
  - apply (elem_forallb _ _ _ Hin) in Hf. apply andb_true_iff in Hf as [Hd Hl%Z.leb_le].
    split; [|done]. by apply negb_true_iff, bool_decide_eq_false in Hd.
Qed.

Lemma rewriter_is_transparent_witness :
  ∃ d d', feed SseDecoder_new (utf8_encode short_stream) = (Ok tt, d) ∧
    feed SseDecoder_new (snd (push_all (FrameRewriter_new (lit "Coder"))
      [take 9 (utf8_encode short_stream); drop 9 (utf8_encode short_stream)])) = (Ok tt, d') ∧
    ready d' = renamed (lit "Coder") <$> ready d ∧ has_pending d' = false.
Proof.
  apply (rewriter_is_transparent ToyJson ToyLaws (lit "Coder") short_stream).
  - apply streamed_dec. vm_compute. reflexivity.
  - vm_compute. reflexivity.
Defined.

(** A stream that was cut off is never taken for a whole answer.  When the
    node stops, by closing or by failing, after events of which none was the
    end or an error of its own, the client is sent exactly one error frame;
    when one was, nothing; and whatever the reader does afterwards, nothing
    more is ever sent. *)
Theorem cut_off_stream_is_reported (J : Json) (_ : JsonLaws J) public T chunks o :
  streamed T → concat chunks = utf8_encode T → o = OpFinish ∨ o = OpAbort →
  ∃ d r' tail, feed SseDecoder_new (utf8_encode T) = (Ok tt, d) ∧
    rewriter_op (fst (push_all (FrameRewriter_new public) chunks)) o = (r', tail) ∧
    (if existsb ends_stream (ready d) then tail = []
     else ∃ message, tail = utf8_encode (encode_data
            (to_string (error_body (lit "upstream_stream_interrupted") message)))) ∧
    ∀ os, rewriter_ops r' os = [].
Proof.
  intros HT Hcat Ho. rewrite (push_all_streamed public T chunks HT Hcat). destruct HT as [Hc Hf Hr].
  cbn [fst]. eexists. eexists (fst _), (snd _). split; [by apply read_stream|].
  split; [by rewrite <-surjective_pairing|]. cbn [ready].
  set (r := set_buffer _ _).
  assert (He : ended r = existsb ends_stream (events_of (fst (frames T)))).
  { unfold r, ended. cbn [saw_done saw_error set_buffer]. fold (ended (foldl noted (FrameRewriter_new public)
      (encode_frame <$> fst (frames T)))). rewrite notes_ended; [done|].
    intros f Hin. split; [by eapply frame_chars|by apply Hf]. }
  assert (Hfin : finished r = false).
  { unfold r. cbn [finished set_buffer]. by destruct (notes_keep (FrameRewriter_new public)
      (encode_frame <$> fst (frames T))) as [_ ->]. }
  rewrite <-He. unfold ended. destruct Ho as [-> | ->]; cbn [rewriter_op]; unfold finish, abort;
    rewrite Hfin; cbn [orb]; destruct (saw_done r || saw_error r); cbn [fst snd rw_fail];
    (split; [by eauto|]); intros os; by apply finished_silent.
Qed.

Lemma cut_off_stream_is_reported_witness :
  ∃ d r' tail, feed SseDecoder_new (utf8_encode (encode_data (toy_print toy_chunk))) = (Ok tt, d) ∧
    rewriter_op (fst (push_all (FrameRewriter_new (lit "Coder"))
      [utf8_encode (encode_data (toy_print toy_chunk))])) OpAbort = (r', tail) ∧
    (if existsb ends_stream (ready d) then tail = []
     else ∃ message, tail = utf8_encode (encode_data
            (to_string (error_body (lit "upstream_stream_interrupted") message)))) ∧
    ∀ os, rewriter_ops r' os = [].
Proof.
  apply (cut_off_stream_is_reported ToyJson ToyLaws (lit "Coder") (encode_data (toy_print toy_chunk))).
  - apply streamed_dec. vm_compute. reflexivity.
  - cbn [concat]. by rewrite app_nil_r.
  - by right.
Defined.
