(* ===== verification/Keys.v ===== *)
(** * API keys

    [crates/lightweight-store/src/api_keys.rs]: the file of hashed keys, its
    three writes and the check of a presented token.

    A method reads the file, changes what it read and writes it whole; nothing
    is held between the two, so another task's method may run there
    ([store_step]).  SHA-256 ([Sha256]) and the entropy and the clock a method
    reads are parameters; the file holds the record itself, encoding and
    decoding being serde's.  Saving a file may fail, and then leaves it. *)

From stdpp Require Import base gmap strings numbers sorting list.
From S2P Require Import Prelude Names Utf8 Limits Rewriter.

Definition FORMAT_VERSION : u32 := 1.
Definition KEY_PREFIX : str := lit "sk-lw-".

Class Sha256 := sha256 : list byte → list byte.

Definition hex (bytes : list byte) : str :=
  mjoin ((fun b => [hex_digit (b / 16); hex_digit (b mod 16)]) <$> bytes).

Definition sha256_hex `{Sha256} (input : str) : str := hex (sha256 (utf8_encode input)).

(** [constant_time_eq]: every byte is looked at. *)
Definition constant_time_eq (a b : list byte) : bool :=
  if negb (bool_decide (length a = length b)) then false
  else foldl (fun diff xy => Z.lor diff (Z.lxor xy.1 xy.2)) 0 (zip a b) =? 0.

Definition is_unlimited (l : RateLimit) : bool :=
  bool_decide (per_minute l = None) && bool_decide (per_day l = None).

Record ApiKeyRecord := mkApiKey {
  api_id : str;
  api_name : str;
  api_prefix : str;
  api_hash : str;
  api_created : u64;
  api_limit : RateLimit }.

(** [verify_against]: the loop never stops early, so the last match stands. *)
Definition verify_against `{Sha256} (ks : list ApiKeyRecord) (presented : str)
    : option ApiKeyRecord :=
  let hash := sha256_hex presented in
  foldl (fun matched r =>
           if constant_time_eq (utf8_encode (api_hash r)) (utf8_encode hash) then Some r
           else matched) None ks.

Section store.
Context `{Sha256} {J : Json}.

Record KeysFile := mkKeysFile {
  file_version : u32;
  file_keys : list ApiKeyRecord;
  file_unknown : Object }.

(** What is on disk. *)
Inductive Disk := NoFile | Unparsable | Failing | Present (f : KeysFile).

Inductive StoreError := StoreIo | StoreUnreadable.

(** [ApiKeyStore::read], and [list], [any] and [verify] on it. *)
Definition read_keys (d : Disk) : result KeysFile StoreError :=
  match d with
  | NoFile => Ok (mkKeysFile FORMAT_VERSION [] empty_object)
  | Unparsable => Err StoreUnreadable
  | Failing => Err StoreIo
  | Present f => Ok f
  end.

Definition list_keys (d : Disk) : result (list ApiKeyRecord) StoreError :=
  let? f := read_keys d in Ok (file_keys f).
Definition any_key (d : Disk) : result bool StoreError :=
  let? f := read_keys d in Ok (negb (bool_decide (length (file_keys f) = 0%nat))).
Definition verify (d : Disk) (presented : str) : result (option ApiKeyRecord) StoreError :=
  let? f := read_keys d in Ok (verify_against (file_keys f) presented).

(** What [ApiKeyStore::write] writes. *)
Definition written (f : KeysFile) : Disk :=
  Present (mkKeysFile FORMAT_VERSION
             (sort_by (fun a b => api_created a <? api_created b) (file_keys f))
             (file_unknown f)).

(** What is asked of the store: [secret] is 24 bytes of entropy, [id] eight. *)
Inductive KeyOp :=
| OpCreate (name : str) (limit : RateLimit) (secret id : list byte) (now : u64)
| OpRevoke (id : str)
| OpSetLimit (id : str) (limit : RateLimit).

Definition full_key (secret : list byte) : str := KEY_PREFIX ++ hex secret.

(** The record [create] makes. *)
Definition new_record (name : str) (limit : RateLimit) (secret id : list byte) (now : u64)
    : ApiKeyRecord :=
  mkApiKey (hex id) (trim name) (KEY_PREFIX ++ take 8 (hex secret))
    (sha256_hex (full_key secret)) now limit.

(** The change a method makes to the file it read; [None] writes nothing. *)
Definition edit (op : KeyOp) (f : KeysFile) : option KeysFile :=
  let with_keys ks := mkKeysFile (file_version f) ks (file_unknown f) in
  match op with
  | OpCreate name limit secret id now =>
      Some (with_keys (file_keys f ++ [new_record name limit secret id now]))
  | OpRevoke id =>
      let kept := List.filter (fun r => negb (bool_decide (api_id r = id))) (file_keys f) in
      if bool_decide (length kept = length (file_keys f)) then None else Some (with_keys kept)
  | OpSetLimit id limit =>
      if existsb (fun r => bool_decide (api_id r = id)) (file_keys f)
      then Some (with_keys (update_first (fun r => bool_decide (api_id r = id))
             (fun r => mkApiKey (api_id r) (api_name r) (api_prefix r) (api_hash r)
                         (api_created r) limit) (file_keys f)))
      else None
  end.

(** What a method returns: whether it changed the file. *)
Definition perform (op : KeyOp) (saves : bool) (d : Disk) : result bool StoreError * Disk :=
  match read_keys d with
  | Err e => (Err e, d)
  | Ok f =>
      match edit op f with
      | None => (Ok false, d)
      | Some f => if saves then (Ok true, written f) else (Err StoreIo, d)
      end
  end.

(** ** Methods running at once

    A task has read the file, or not yet. *)
Inductive KeyTask := Asked (op : KeyOp) | Read (op : KeyOp) (f : KeysFile) | Finished (ok : bool).

Definition store_step (d : Disk) (t : KeyTask) : Disk * KeyTask :=
  match t with
  | Asked op =>
      match read_keys d with
      | Ok f => (d, Read op f)
      | Err _ => (d, Finished false)
      end
  | Read op f =>
      match edit op f with
      | Some f => (written f, Finished true)
      | None => (d, Finished false)
      end
  | Finished ok => (d, Finished ok)
  end.

(** Tasks stepped in the order a schedule says. *)
Fixpoint run_store (schedule : list nat) (d : Disk) (ts : list KeyTask) : Disk * list KeyTask :=
  match schedule with
  | [] => (d, ts)
  | i :: schedule =>
      match ts !! i with
      | Some t => let '(d, t) := store_step d t in run_store schedule d (<[i := t]> ts)
      | None => run_store schedule d ts
      end
  end.
End store.

(** ** Lemmas *)

Lemma lor_zero a b : Z.lor a b = 0 ↔ a = 0 ∧ b = 0.
Proof. apply Z.lor_eq_0_iff. Qed.

Lemma differences_zero a b acc :
  length a = length b →
  foldl (λ diff xy, Z.lor diff (Z.lxor xy.1 xy.2)) acc (zip a b) = 0 ↔ acc = 0 ∧ a = b.
Proof.
  revert b acc. induction a as [|x a IH]; intros [|y b] acc Hl; simplify_eq/=; [tauto|].
  rewrite IH by done. rewrite lor_zero, Z.lxor_eq_0_iff. split.
  - by intros [[-> ->] ->].
  - by intros [-> [= -> ->]].
Qed.

Lemma constant_time_eq_spec a b : constant_time_eq a b = bool_decide (a = b).
Proof.
  unfold constant_time_eq. destruct (decide (length a = length b)) as [Hl|Hl].
  - rewrite bool_decide_eq_true_2 by done. simpl. apply eq_true_iff_eq.
    rewrite Z.eqb_eq, bool_decide_eq_true, differences_zero by done. tauto.
  - rewrite bool_decide_eq_false_2 by done. symmetry. apply bool_decide_eq_false_2. by intros ->.
Qed.

Section keyring.
Context `{Sha256} {J : Json}.

(** A token opens what is stored under its hash. *)
Definition opens (token : str) (r : ApiKeyRecord) : Prop :=
  utf8_encode (api_hash r) = utf8_encode (sha256_hex token).

#[export] Instance opens_dec token r : Decision (opens token r).
Proof. unfold opens. apply _. Defined.

Lemma verify_against_last ks token : verify_against ks token = last (filter (opens token) ks).
Proof.
  unfold verify_against. cbv zeta. induction ks as [|r ks IH] using rev_ind; [done|].
  rewrite foldl_app, filter_app, last_app. simpl. rewrite IH, constant_time_eq_spec.
  rewrite filter_cons, filter_nil. unfold opens.
  destruct (decide _) as [Ho|Ho]; [by rewrite bool_decide_eq_true_2|].
  by rewrite bool_decide_eq_false_2.
Qed.

(** What has been issued, by id. *)
Abbreviation Keyring := (gmap str ApiKeyRecord).

Definition limited (l : RateLimit) (r : ApiKeyRecord) : ApiKeyRecord :=
  mkApiKey (api_id r) (api_name r) (api_prefix r) (api_hash r) (api_created r) l.

Definition issue (op : KeyOp) (m : Keyring) : Keyring :=
  match op with
  | OpCreate name limit secret id now => <[hex id := new_record name limit secret id now]> m
  | OpRevoke id => delete id m
  | OpSetLimit id l => alter (limited l) id m
  end.

(** Whether a method finds anything to change. *)
Definition touches (op : KeyOp) (m : Keyring) : bool :=
  match op with
  | OpCreate _ _ _ _ _ => true
  | OpRevoke id | OpSetLimit id _ => bool_decide (is_Some (m !! id))
  end.

(** A new id is one no key has. *)
Definition fresh_op (op : KeyOp) (m : Keyring) : Prop :=
  match op with OpCreate _ _ _ id _ => m !! hex id = None | _ => True end.

(** The file's records are those of the ring, each once. *)
Definition rings (ks : list ApiKeyRecord) (m : Keyring) : Prop :=
  NoDup (api_id <$> ks) ∧ ∀ id r, m !! id = Some r ↔ r ∈ ks ∧ api_id r = id.

Lemma rings_perm ks ks' m : ks ≡ₚ ks' → rings ks m → rings ks' m.
Proof.
  intros Hp [Hn Hr]. split; [by rewrite <-Hp|]. intros id r. by rewrite Hr, Hp.
Qed.

Lemma rings_id ks m id : rings ks m → is_Some (m !! id) ↔ id ∈ api_id <$> ks.
Proof.
  intros [_ Hr]. rewrite list_elem_of_fmap. split.
  - intros [r Hm]. apply Hr in Hm as [Hin <-]. eauto.
  - intros (r & -> & Hin). exists r. by apply Hr.
Qed.

Lemma rings_create ks m r :
  rings ks m → m !! api_id r = None → rings (ks ++ [r]) (<[api_id r := r]> m).
Proof.
  intros Hks Hm. pose proof (rings_id _ _ (api_id r) Hks) as Hid. destruct Hks as [Hn Hr].
  assert (Hnot : api_id r ∉ api_id <$> ks) by by rewrite <-Hid, Hm; intros [].
  split.
  - rewrite fmap_app. apply NoDup_app. split; [done|]. split; [|apply NoDup_singleton].
    intros x Hx ->%list_elem_of_singleton. done.
  - intros id r'. rewrite elem_of_app, list_elem_of_singleton. destruct (decide (api_id r = id)) as [<-|Hne].
    + rewrite lookup_insert_eq. split; [by intros [= <-]; auto|].
      intros [[Hin| ->] Hi]; [|done]. destruct Hnot. rewrite <-Hi. by apply list_elem_of_fmap_2.
    + rewrite lookup_insert_ne by done. rewrite Hr. split; [naive_solver|].
      intros [[Hin| ->] Hi]; naive_solver.
Qed.

Lemma rings_revoke ks m id :
  rings ks m →
  rings (List.filter (fun r => negb (bool_decide (api_id r = id))) ks) (delete id m).
Proof.
  intros [Hn Hr]. split.
  - eapply sublist_NoDup; [exact Hn|]. apply fmap_sublist. clear.
    induction ks as [|r ks IH]; simpl; [constructor|]. by destruct (negb _); constructor.
  - intros id' r. rewrite lookup_delete_Some, Hr, (list_elem_of_In (List.filter _ _)), filter_In,
      <-list_elem_of_In, negb_true_iff, bool_decide_eq_false. naive_solver.
Qed.

(** With no id twice, the first match is the only one. *)
Lemma update_first_map id l ks :
  NoDup (api_id <$> ks) →
  update_first (fun r => bool_decide (api_id r = id)) (limited l) ks
  = (λ r, if bool_decide (api_id r = id) then limited l r else r) <$> ks.
Proof.
  induction ks as [|r ks IH]; csimpl; [done|]. intros [Hnot Hn]%NoDup_cons.
  case_bool_decide as Hid; f_equal; [|by apply IH]. subst id.
  rewrite <-(list_fmap_id ks) at 1. apply list_fmap_ext. intros i r' Hr'. simpl.
  case_bool_decide as Hid; [|done]. destruct Hnot. rewrite <-Hid.
  by eapply list_elem_of_fmap_2, list_elem_of_lookup_2.
Qed.

Lemma rings_limit ks m id l :
  rings ks m →
  rings (update_first (fun r => bool_decide (api_id r = id)) (limited l) ks) (alter (limited l) id m).
Proof.
  intros [Hn Hr]. rewrite update_first_map by done.
  set (g r := if bool_decide (api_id r = id) then limited l r else r).
  assert (Hg : ∀ r, api_id (g r) = api_id r) by (intros r; unfold g; by case_bool_decide).
  split.
  { rewrite <-list_fmap_compose. rewrite (list_fmap_ext (api_id ∘ g) api_id); [done|].
    intros i r _. apply Hg. }
  intros id' r'. rewrite list_elem_of_fmap. destruct (decide (id = id')) as [<-|Hne].
  - rewrite lookup_alter_eq, fmap_Some. split.
    + intros (r & Hm & ->). apply Hr in Hm as [Hin Hi]. split; [|done]. exists r. split; [|done].
      unfold g. by rewrite bool_decide_eq_true_2.
    + intros [(r & -> & Hin) Hi]. rewrite Hg in Hi. exists r. split; [by apply Hr|].
      unfold g. by rewrite bool_decide_eq_true_2.
  - rewrite lookup_alter_ne, Hr by done. split.
    + intros [Hin Hi]. split; [|done]. exists r'. split; [|done]. unfold g.
      rewrite bool_decide_eq_false_2; [done|]. congruence.
    + intros [(r & -> & Hin) Hi]. rewrite Hg in Hi. unfold g.
      rewrite bool_decide_eq_false_2 by congruence. done.
Qed.

(** ** The file and the ring *)

Definition keeps_ring (d : Disk) (m : Keyring) : Prop :=
  ∃ f, read_keys d = Ok f ∧ rings (file_keys f) m.

(** What a newer build left in the file. *)
Definition left_unknown (d : Disk) : option Object :=
  match read_keys d with Ok f => Some (file_unknown f) | Err _ => None end.

Lemma written_ring f m : rings (file_keys f) m → keeps_ring (written f) m.
Proof.
  intros Hr. eexists. split; [done|]. simpl. eapply rings_perm; [|exact Hr].
  symmetry. apply sort_by_Permutation.
Qed.

Lemma edit_ring op f m :
  rings (file_keys f) m → fresh_op op m →
  match edit op f with
  | Some f' => touches op m = true ∧ rings (file_keys f') (issue op m) ∧
      file_unknown f' = file_unknown f
  | None => touches op m = false
  end.
Proof.
  intros Hr Hf. destruct op as [name l secret id t|id|id l]; simpl.
  - split_and!; [done| |done]. by apply (rings_create _ _ (new_record name l secret id t)).
  - pose proof (rings_id _ _ id Hr) as Hid. case_bool_decide as Hlen; simpl.
    + apply bool_decide_eq_false_2. rewrite Hid. intros (r & -> & Hin)%list_elem_of_fmap.
      apply list_elem_of_split in Hin as (l1 & l2 & Hks). rewrite Hks in Hlen.
      rewrite List.filter_app, !length_app in Hlen. simpl in Hlen.
      rewrite bool_decide_eq_true_2 in Hlen by done. simpl in Hlen.
      pose proof (List.filter_length_le (fun r0 => negb (bool_decide (api_id r0 = api_id r))) l1).
      pose proof (List.filter_length_le (fun r0 => negb (bool_decide (api_id r0 = api_id r))) l2). lia.
    + split_and!; [|by apply rings_revoke|done]. apply bool_decide_eq_true_2. rewrite Hid.
      destruct (decide (id ∈ api_id <$> file_keys f)) as [|Hnot]; [done|]. destruct Hlen.
      f_equal. clear Hr Hf Hid. induction (file_keys f) as [|r ks IH]; [done|]. csimpl in *.
      apply not_elem_of_cons in Hnot as [Hne Hnot]. rewrite bool_decide_eq_false_2 by done.
      simpl. by rewrite IH.
  - pose proof (rings_id _ _ id Hr) as Hid. destruct (existsb _ _) eqn:He.
    + split_and!; [|by apply rings_limit|done]. apply bool_decide_eq_true_2. rewrite Hid.
      apply existsb_exists in He as (r & Hin & Hi). apply bool_decide_eq_true in Hi as <-.
      apply list_elem_of_fmap_2. by apply list_elem_of_In.
    + apply bool_decide_eq_false_2. rewrite Hid. intros (r & -> & Hin)%list_elem_of_fmap.
      assert (He' : existsb (λ r0, bool_decide (api_id r0 = api_id r)) (file_keys f) = true).
      { apply existsb_exists. exists r. rewrite <-list_elem_of_In. split; [done|].
        by apply bool_decide_eq_true_2. }
      rewrite He' in He. discriminate He.
Qed.

(** Methods one after another, each with whether its file can be saved, on the
    file and on the ring. *)
Fixpoint run_ops (ops : list (KeyOp * bool)) (d : Disk) : list (result bool StoreError) * Disk :=
  match ops with
  | [] => ([], d)
  | (op, saves) :: ops =>
      let '(r, d) := perform op saves d in
      let '(rs, d) := run_ops ops d in (r :: rs, d)
  end.

Definition issue_if (op : KeyOp) (saves : bool) (m : Keyring) : result bool StoreError * Keyring :=
  if touches op m then if saves then (Ok true, issue op m) else (Err StoreIo, m)
  else (Ok false, m).

Fixpoint issue_all (ops : list (KeyOp * bool)) (m : Keyring)
    : list (result bool StoreError) * Keyring :=
  match ops with
  | [] => ([], m)
  | (op, saves) :: ops =>
      let '(r, m) := issue_if op saves m in
      let '(rs, m) := issue_all ops m in (r :: rs, m)
  end.

Fixpoint fresh_ops (ops : list (KeyOp * bool)) (m : Keyring) : Prop :=
  match ops with
  | [] => True
  | (op, saves) :: ops => fresh_op op m ∧ fresh_ops ops (issue_if op saves m).2
  end.

Lemma perform_ring op saves d m :
  keeps_ring d m → fresh_op op m →
  (perform op saves d).1 = (issue_if op saves m).1 ∧
  keeps_ring (perform op saves d).2 (issue_if op saves m).2 ∧
  left_unknown (perform op saves d).2 = left_unknown d.
Proof.
  intros Hk Hf. pose proof Hk as (f & Hread & Hr). unfold perform, issue_if, left_unknown.
  rewrite Hread. pose proof (edit_ring op f m Hr Hf) as He. destruct (edit op f) as [f'|].
  - destruct He as (-> & Hr' & Hu). destruct saves; simpl.
    + split_and!; [done|by apply written_ring|by rewrite Hu].
    + by rewrite Hread.
  - rewrite He. simpl. by rewrite Hread.
Qed.

Lemma verify_ring d m token :
  keeps_ring d m →
  ∃ found, verify d token = Ok found ∧
    match found with
    | Some r => opens token r ∧ m !! api_id r = Some r
    | None => ∀ id r, m !! id = Some r → ¬ opens token r
    end.
Proof.
  intros (f & Hread & Hn & Hr). unfold verify. rewrite Hread. simpl.
  eexists. split; [done|]. rewrite verify_against_last.
  destruct (last _) as [r|] eqn:Hl.
  - apply last_Some_elem_of, list_elem_of_filter in Hl as [Ho Hin]. split; [done|]. by apply Hr.
  - intros id r [Hin _]%Hr Ho. apply last_None in Hl. eapply filter_nil_not_elem_of; eauto.
Qed.
End keyring.

(** ** Theorems on the key store

    The file against the ring of issued keys, and what two methods running at
    once can do to it. *)

Section theorems.
Context `{Sha256} {J : Json}.

(** C39: the key file holds exactly the keys that were issued and not revoked.
    Whatever methods run one after another, and whichever of them cannot save
    the file, each returns what it would on the ring of keys — a creation
    always succeeds, a revocation or a new limit says whether the key was
    there, a failed save changes nothing; what a newer build left in the file
    is kept; and afterwards a token is answered with a key of the ring whose
    stored hash is the token's, or with none, and then no key has that hash. *)
Theorem key_store_refines d m ops token :
  keeps_ring d m → fresh_ops ops m →
  (run_ops ops d).1 = (issue_all ops m).1 ∧
  left_unknown (run_ops ops d).2 = left_unknown d ∧
  ∃ found, verify (run_ops ops d).2 token = Ok found ∧
    match found with
    | Some r => opens token r ∧ (issue_all ops m).2 !! api_id r = Some r
    | None => ∀ id r, (issue_all ops m).2 !! id = Some r → ¬ opens token r
    end.
Proof.
  revert d m. induction ops as [|[op saves] ops IH]; intros d m Hk Hf; simpl in *.
  { split_and!; [done|done|]. by apply verify_ring. }
  destruct Hf as [Hop Hf]. destruct (perform_ring op saves d m Hk Hop) as (Hr & Hk' & Hu).
  destruct (perform op saves d) as [r d1]. destruct (issue_if op saves m) as [r' m1]. simpl in *.
  subst r'. destruct (IH d1 m1 Hk' Hf) as (Hrs & Hu' & Hv).
  destruct (run_ops ops d1) as [rs d2]. destruct (issue_all ops m1) as [rs' m2]. simpl in *.
  by rewrite Hrs, Hu', Hu.
Qed.

(** The key [id] is revoked while another key is being made: the creation
    has read the file, the revocation runs, the creation writes. *)
Definition revoked_while_creating (f : KeysFile) (id : str) (create : KeyOp) : Disk * list KeyTask :=
  run_store [0; 1; 1; 0]%nat (Present f) [Asked create; Asked (OpRevoke id)].
End theorems.

(** A revoked key can come back.  A creation that read the file before
    the revocation wrote it writes the key back: both report success, and the
    revoked key's token still opens the store. *)
Theorem revoked_key_returns `{Sha256} {J : Json} f name l secret id now r :
  r ∈ file_keys f →
  let d := revoked_while_creating f (api_id r) (OpCreate name l secret id now) in
  d.2 = [Finished true; Finished true] ∧
  ∃ ks, list_keys d.1 = Ok ks ∧ r ∈ ks.
Proof.
  intros Hin. unfold revoked_while_creating. cbn. rewrite bool_decide_eq_false_2.
  2:{ apply list_elem_of_split in Hin as (l1 & l2 & ->).
      rewrite List.filter_app, !length_app. simpl. rewrite bool_decide_eq_true_2 by done. simpl.
      pose proof (List.filter_length_le (fun r0 => negb (bool_decide (api_id r0 = api_id r))) l1).
      pose proof (List.filter_length_le (fun r0 => negb (bool_decide (api_id r0 = api_id r))) l2).
      lia. }
  cbn -[sort_by]. split; [done|]. eexists. split; [done|]. rewrite sort_by_Permutation.
  apply elem_of_app. by left.
Qed.

(** ** A concrete store: the digest is the text itself, an object is the list
    of its numbers. *)
Definition plain_digest : Sha256 := fun l => l.

Definition NumberJson : Json := {|
  Value := Z;
  Object := list (str * Z);
  from_str := fun _ => None;
  to_string := fun _ => [];
  as_object := fun _ => None;
  as_string := fun _ => None;
  as_items := fun _ => None;
  value_as_u64 := Some;
  of_object := fun _ => 0;
  of_string := fun _ => 0;
  empty_object := [];
  object_get := fun o k => snd <$> find (fun kv => bool_decide (kv.1 = k)) o;
  object_insert := fun k v o => (k, v) :: o |}.

Section demo.
#[local] Existing Instance plain_digest.
#[local] Existing Instance NumberJson.

Definition harness : KeyOp :=
  OpCreate (lit " harness ") (mkRateLimit (Some 60) None) [1; 2; 3; 0xAB] [0x10] 50.
Definition laptop : KeyOp :=
  OpCreate (lit "laptop") (mkRateLimit None None) [7; 7; 7; 7] [0x20] 40.

Definition key_session : list (KeyOp * bool) :=
  [(harness, true); (laptop, true); (OpSetLimit (lit "10") (mkRateLimit None (Some 5)), false);
   (OpRevoke (lit "20"), true); (OpRevoke (lit "20"), true);
   (OpSetLimit (lit "10") (mkRateLimit None (Some 9)), true)].

Definition old_file : Disk := Present (mkKeysFile 0 [] [(lit "rotation", 90)]).

Lemma key_store_refines_witness :
  let d := run_ops key_session old_file in
  d.1 = [Ok true; Ok true; Err StoreIo; Ok true; Ok false; Ok true] ∧
  left_unknown d.2 = Some [(lit "rotation", 90)] ∧
  (let? r := verify d.2 (lit "sk-lw-010203ab") in Ok (api_name <$> r))
    = Ok (E := StoreError) (Some (lit "harness")) ∧
  verify d.2 (lit "sk-lw-07070707") = Ok None.
Proof.
  assert (Hk : keeps_ring old_file ∅).
  { eexists. split; [done|]. split; [constructor|]. intros id r. simpl.
    rewrite lookup_empty, elem_of_nil. naive_solver. }
  pose proof (key_store_refines old_file ∅ key_session (lit "sk-lw-010203ab") Hk) as (Hrs & Hu & _).
  { vm_compute. tauto. }
  split_and!; [by rewrite Hrs|by rewrite Hu|by vm_compute|by vm_compute].
Defined.

Lemma revoked_key_returns_witness :
  let r := new_record (lit "leaked") (mkRateLimit None None) [1] [0x30] 7 in
  let f := mkKeysFile 1 [r] [] in
  let d := revoked_while_creating f (api_id r) laptop in
  d.2 = [Finished true; Finished true] ∧ ∃ ks, list_keys d.1 = Ok ks ∧ r ∈ ks.
Proof. apply revoked_key_returns. apply list_elem_of_singleton. reflexivity. Defined.
End demo.
