(* ===== verification/Affinity.v ===== *)
(** * Session affinity

    [crates/lightweight-router/src/affinity.rs]: the table that remembers
    which deployment a session last succeeded on.  One mutex guards the map,
    so each method is one step on the book; [Instant::now()] is an argument.

    Three things the table uses are not part of the program: the keyed hash
    drawn at startup ([SessionHash]), the iteration order of a [HashMap]
    ([MapIter], of which only [MapIterLaws] is relied on) and the header map
    of the request, which is its lookup function. *)

From stdpp Require Import base gmap strings numbers list.
From S2P Require Import Prelude Names Domain.

(** ** Keys and entries *)

Record AffinityKey := mkKey { key_route : str; key_session : u64 }.

#[export] Instance AffinityKey_eq_dec : EqDecision AffinityKey.
Proof. solve_decision. Defined.
#[export] Instance AffinityKey_countable : Countable AffinityKey.
Proof.
  refine (inj_countable' (fun k => (key_route k, key_session k)) (fun p => mkKey p.1 p.2) _).
  by intros [].
Defined.

Record Entry := mkEntry {
  entry_deployment : DeploymentId;
  created : Instant;
  last_used : Instant }.

Inductive Established := New | Unchanged | KeptExisting (d : DeploymentId).

Record EntryView := mkEntryView {
  ev_route : str;
  ev_session : str;
  ev_deployment : DeploymentId;
  age_secs : u64;
  idle_secs : u64 }.

Record AffinityPolicy := mkAffinityPolicy {
  affinity_enabled : bool;
  affinity_header : str;
  idle_ttl : Duration;
  max_entries : usize }.

(** [HashMap::iter]: every pair once, in an order of the table's own. *)
Class MapIter := iter : gmap AffinityKey Entry → list (AffinityKey * Entry).
Class MapIterLaws `{MapIter} := iter_Permutation m : iter m ≡ₚ map_to_list m.

(** [RandomState::hash_one]. *)
Class SessionHash := hash_one : str → u64.

Record AffinityBook := mkAffinityBook {
  affinity_policy : AffinityPolicy;
  entries : gmap AffinityKey Entry;
  evicted_expired : u64;
  evicted_capacity : u64 }.

Definition AffinityBook_new (p : AffinityPolicy) : AffinityBook := mkAffinityBook p ∅ 0 0.

(** [AtomicU64::fetch_add]. *)
Definition fetch_add (a b : u64) : u64 := (a + b) mod 2 ^ 64.

(** ** Naming a session *)

Definition MAX_SESSION_ID : usize := 256.

(** [u8::is_ascii_graphic] over the bytes: a character outside ASCII has only
    bytes that are not. *)
Definition is_ascii_graphic (c : char) : bool := (33 <=? c) && (c <=? 126).

(** A text with a character outside ASCII fails the last test, so the
    characters can be counted where the code counts bytes. *)
Definition usable (id : str) : bool :=
  negb (bool_decide (id = [])) && (Z.of_nat (length id) <=? MAX_SESSION_ID)
  && forallb is_ascii_graphic id.

Definition affinity_key `{SessionHash} (route : RouteName) (session : str) : AffinityKey :=
  mkKey (route_str route) (hash_one session).

(** [AffinityBook::session]; [headers] is [headers.get(name)] as text. *)
Definition session `{SessionHash} (p : AffinityPolicy) (route : RouteName)
    (headers : str → option str) : option AffinityKey :=
  if negb (affinity_enabled p) then None
  else match headers (affinity_header p) with
       | Some value =>
           let id := trim value in
           if usable id then Some (affinity_key route id) else None
       | None => None
       end.

(** [{:08x}] of the upper half of the hash. *)
Definition fingerprint (k : AffinityKey) : str :=
  map (fun i => hex_digit (Z.land (Z.shiftr (key_session k) (32 + 4 * i)) 15)) [7; 6; 5; 4; 3; 2; 1; 0].

(** ** The table *)

Definition entry_expired (p : AffinityPolicy) (e : Entry) (now : Instant) : bool :=
  idle_ttl p <? saturating_duration_since now (last_used e).

(** [HashMap::retain] of what is not expired. *)
Definition retain_live (p : AffinityPolicy) (now : Instant) (m : gmap AffinityKey Entry)
    : gmap AffinityKey Entry :=
  filter (fun kv => entry_expired p kv.2 now = false) m.

Definition len (m : gmap AffinityKey Entry) : usize := Z.of_nat (size m).

Section table.
Context `{MapIter}.

(** The loop that makes room: the least recently used goes, one at a time.
    Returns what is left and how many went. *)
Fixpoint make_room (fuel : nat) (max : usize) (m : gmap AffinityKey Entry) (gone : Z)
    : gmap AffinityKey Entry * Z :=
  match fuel with
  | O => (m, gone)
  | S fuel =>
      if max <=? len m then
        match min_by (fun a b => last_used a.2 <? last_used b.2) (iter m) with
        | Some (_, (oldest, _)) => make_room fuel max (delete oldest m) (gone + 1)
        | None => (m, gone)
        end
      else (m, gone)
  end.

(** [AffinityBook::insert]. *)
Definition affinity_insert (b : AffinityBook) (key : AffinityKey) (d : DeploymentId)
    (now : Instant) : AffinityBook :=
  let p := affinity_policy b in
  match entries b !! key with
  | Some e =>
      let created := if bool_decide (entry_deployment e = d) && negb (entry_expired p e now)
                     then created e else now in
      mkAffinityBook p (<[key := mkEntry d created now]> (entries b))
        (evicted_expired b) (evicted_capacity b)
  | None =>
      let full := max_entries p <=? len (entries b) in
      let kept := if full then retain_live p now (entries b) else entries b in
      let expired := if full then fetch_add (evicted_expired b) (len (entries b) - len kept)
                     else evicted_expired b in
      let '(m, gone) := make_room (size kept) (max_entries p) kept 0 in
      mkAffinityBook p (<[key := mkEntry d now now]> m) expired
        (fetch_add (evicted_capacity b) gone)
  end.

Definition lookup_at (b : AffinityBook) (key : AffinityKey) (now : Instant)
    : option DeploymentId * AffinityBook :=
  let p := affinity_policy b in
  match entries b !! key with
  | None => (None, b)
  | Some e =>
      if entry_expired p e now
      then (None, mkAffinityBook p (delete key (entries b)) (fetch_add (evicted_expired b) 1)
                    (evicted_capacity b))
      else (Some (entry_deployment e),
            mkAffinityBook p (<[key := mkEntry (entry_deployment e) (created e) now]> (entries b))
              (evicted_expired b) (evicted_capacity b))
  end.

Definition establish_at (b : AffinityBook) (key : AffinityKey) (d : DeploymentId)
    (now : Instant) : Established * AffinityBook :=
  let p := affinity_policy b in
  match entries b !! key with
  | Some e =>
      if entry_expired p e now then (New, affinity_insert b key d now)
      else
        (if bool_decide (entry_deployment e = d) then Unchanged
         else KeptExisting (entry_deployment e),
         mkAffinityBook p (<[key := mkEntry (entry_deployment e) (created e) now]> (entries b))
           (evicted_expired b) (evicted_capacity b))
  | None => (New, affinity_insert b key d now)
  end.

Definition reassign_at (b : AffinityBook) (key : AffinityKey) (d : DeploymentId)
    (now : Instant) : AffinityBook :=
  affinity_insert b key d now.

Definition sweep_at (b : AffinityBook) (now : Instant) : usize * AffinityBook :=
  let p := affinity_policy b in
  let kept := retain_live p now (entries b) in
  let removed := len (entries b) - len kept in
  (removed, mkAffinityBook p kept (fetch_add (evicted_expired b) removed) (evicted_capacity b)).

Definition evictions (b : AffinityBook) : u64 * u64 := (evicted_expired b, evicted_capacity b).

(** [AffinityBook::entries]: the admin view, most recently used first. *)
Definition entries_view (b : AffinityBook) (now : Instant) : list EntryView :=
  let live := List.filter (fun kv => negb (entry_expired (affinity_policy b) kv.2 now))
                (iter (entries b)) in
  let row (kv : AffinityKey * Entry) :=
    (last_used kv.2,
     mkEntryView (key_route kv.1) (fingerprint kv.1) (entry_deployment kv.2)
       (as_secs (saturating_duration_since now (created kv.2)))
       (as_secs (saturating_duration_since now (last_used kv.2)))) in
  snd <$> sort_by (fun a b => fst b <? fst a) (row <$> live).
End table.

Definition sweep_interval (p : AffinityPolicy) : Duration :=
  clamp (idle_ttl p) (from_secs 1) (from_secs 60).

(** ** Lemmas *)

Lemma retain_live_lookup p now m k e :
  retain_live p now m !! k = Some e ↔ m !! k = Some e ∧ entry_expired p e now = false.
Proof. unfold retain_live. rewrite map_lookup_filter_Some. done. Qed.

Lemma retain_live_subseteq p now m : retain_live p now m ⊆ m.
Proof. apply map_filter_subseteq. Qed.

Lemma len_subseteq m m' : m ⊆ m' → len m ≤ len m'.
Proof. intros Hs. unfold len. pose proof (map_subseteq_size _ _ Hs). lia. Qed.

Lemma len_insert_le m k e : len (<[k := e]> m) ≤ len m + 1.
Proof. unfold len. rewrite map_size_insert. destruct (m !! k); simpl; lia. Qed.

Lemma len_delete m k e : m !! k = Some e → len (delete k m) = len m - 1.
Proof.
  intros Hk. unfold len. rewrite map_size_delete, Hk.
  destruct (size m) as [|n] eqn:E; [|simpl; lia].
  apply map_size_empty_inv in E. by subst; rewrite lookup_empty in Hk.
Qed.

Lemma len_empty : len ∅ = 0.
Proof. unfold len. by rewrite map_size_empty. Qed.

Section room.
Context `{MapIterLaws}.

Lemma elem_of_iter m k e : (k, e) ∈ iter m ↔ m !! k = Some e.
Proof. rewrite iter_Permutation. apply elem_of_map_to_list. Qed.

Lemma oldest_spec m i k e :
  min_by (fun a b => last_used a.2 <? last_used b.2) (iter m) = Some (i, (k, e)) →
  m !! k = Some e ∧ ∀ k' e', m !! k' = Some e' → last_used e ≤ last_used e'.
Proof.
  intros Hmin. split.
  - apply elem_of_iter. apply min_by_lookup in Hmin. by eapply list_elem_of_lookup_2.
  - intros k' e' Hk'. apply elem_of_iter in Hk'.
    by apply (min_by_key_min (fun kv => last_used kv.2) _ _ _ (k', e') Hmin).
Qed.

Lemma oldest_None m :
  min_by (fun a b => last_used a.2 <? last_used b.2) (iter m) = None → m = ∅.
Proof.
  rewrite min_by_None. intros Hi. apply map_empty. intros k.
  destruct (m !! k) as [e|] eqn:E; [|done]. apply elem_of_iter in E. rewrite Hi in E.
  by apply not_elem_of_nil in E.
Qed.

(** What is left after making room: a part of the map that leaves room,
    without anything evicted in vain or out of turn. *)
Record Roomy (max : usize) (m m' : gmap AffinityKey Entry) : Prop := {
  roomy_sub : m' ⊆ m;
  roomy_room : len m' < max ∨ m' = ∅;
  roomy_idle : len m < max → m' = m;
  roomy_exact : 1 ≤ max ≤ len m → len m' = max - 1;
  roomy_lru : ∀ k e k' e', m !! k = Some e → m' !! k = None → m' !! k' = Some e' →
    last_used e ≤ last_used e' }.

(** The size of the map is fuel enough for the loop. *)
Lemma make_room_spec fuel max m gone :
  (size m ≤ fuel)%nat →
  Roomy max m (make_room fuel max m gone).1 ∧
  (make_room fuel max m gone).2 = gone + (len m - len (make_room fuel max m gone).1).
Proof.
  revert m gone. induction fuel as [|fuel IH]; intros m gone Hf; simpl.
  { assert (m = ∅) as -> by (apply map_size_empty_inv; lia).
    pose proof len_empty. split; [|simpl; lia].
    split; simpl; auto; intros; [lia|set_solver]. }
  destruct (Z.leb_spec max (len m)) as [Hfull|Hroom]; last first.
  { split; [|simpl; lia]. split; auto; simpl; intros; [lia|congruence]. }
  destruct (min_by _ _) as [[i [k e]]|] eqn:Hmin; last first.
  { apply oldest_None in Hmin as ->. pose proof len_empty. split; [|simpl; lia].
    split; simpl; auto; intros; [lia|set_solver]. }
  apply oldest_spec in Hmin as [Hk Hold].
  assert (Hlen : len (delete k m) = len m - 1) by by apply len_delete with e.
  destruct (IH (delete k m) (gone + 1)) as [[Hsub Hr Hidle Hex Hlru] Hg].
  { unfold len in Hlen. lia. }
  split; [|lia]. set (m' := (make_room fuel max (delete k m) (gone + 1)).1) in *.
  assert (Hsub' : m' ⊆ m) by (etransitivity; [exact Hsub|apply delete_subseteq]).
  split; auto; try lia.
  - intros ?. destruct (decide (max ≤ len (delete k m))); [apply Hex; lia|].
    rewrite Hidle by lia. lia.
  - intros k1 e1 k2 e2 H1 H2 H3. destruct (decide (k1 = k)) as [->|Hne].
    + simplify_eq. eapply Hold, lookup_weaken; eauto.
    + eapply Hlru; eauto. by rewrite lookup_delete_ne.
Qed.
End room.

(** ** Runs of the book *)

Inductive AffinityOp :=
| OpLookup (k : AffinityKey)
| OpEstablish (k : AffinityKey) (d : DeploymentId)
| OpReassign (k : AffinityKey) (d : DeploymentId)
| OpSweep.

Inductive AffinityAnswer :=
| AnsLookup (d : option DeploymentId)
| AnsEstablished (e : Established)
| AnsReassigned
| AnsSwept (n : usize).

Definition affinity_step `{MapIter} (b : AffinityBook) (op : AffinityOp) (now : Instant)
    : AffinityAnswer * AffinityBook :=
  match op with
  | OpLookup k => let '(d, b) := lookup_at b k now in (AnsLookup d, b)
  | OpEstablish k d => let '(e, b) := establish_at b k d now in (AnsEstablished e, b)
  | OpReassign k d => (AnsReassigned, reassign_at b k d now)
  | OpSweep => let '(n, b) := sweep_at b now in (AnsSwept n, b)
  end.

(** What happened, in the order the lock was taken. *)
Abbreviation Trace := (list (AffinityOp * Instant * AffinityAnswer)) (only parsing).

Inductive book_run `{MapIter} (p : AffinityPolicy) : Trace → AffinityBook → Prop :=
| run_new : book_run p [] (AffinityBook_new p)
| run_op tr b op now :
    book_run p tr b →
    book_run p (tr ++ [(op, now, (affinity_step b op now).1)]) (affinity_step b op now).2.

(** The specification: an unbounded table that forgets nothing.  A session is
    settled where a request of its own last succeeded, unless an earlier one
    stands; it is in use whenever it is asked for. *)
Definition settle_event (key : AffinityKey) (s : option (DeploymentId * Instant))
    (ev : AffinityOp * Instant * AffinityAnswer) : option (DeploymentId * Instant) :=
  match ev with
  | (OpLookup k, now, AnsLookup (Some _)) =>
      if bool_decide (k = key) then (fun p => (p.1, now)) <$> s else s
  | (OpEstablish k d, now, AnsEstablished New) | (OpReassign k d, now, _) =>
      if bool_decide (k = key) then Some (d, now) else s
  | (OpEstablish k _, now, _) => if bool_decide (k = key) then (fun p => (p.1, now)) <$> s else s
  | _ => s
  end.

Definition settled (tr : Trace) (key : AffinityKey) : option (DeploymentId * Instant) :=
  foldl (settle_event key) None tr.

Section theorems.
Context `{MapIterLaws}.

(** An insertion sets its own key and touches no other entry it keeps. *)
Lemma insert_lookup b key d now k e :
  entries (affinity_insert b key d now) !! k = Some e →
  (k = key ∧ entry_deployment e = d ∧ last_used e = now) ∨
  (k ≠ key ∧ entries b !! k = Some e).
Proof.
  unfold affinity_insert. destruct (entries b !! key) as [e0|] eqn:E; simpl.
  - rewrite lookup_insert_Some. intros [[<- <-]|[? ?]]; [by left|right; by split].
  - set (kept := if _ <=? _ then _ else _).
    destruct (make_room_spec (size kept) (max_entries (affinity_policy b)) kept 0) as [[Hs _ _ _ _] _];
      [done|].
    destruct (make_room _ _ _ _) as [m g]. simpl in *.
    rewrite lookup_insert_Some. intros [[<- <-]|[? Hm]]; [by left|right]. split; [done|].
    eapply lookup_weaken; [exact Hm|]. etransitivity; [exact Hs|].
    subst kept. case_match; [apply retain_live_subseteq|done].
Qed.

Lemma insert_policy b key d now : affinity_policy (affinity_insert b key d now) = affinity_policy b.
Proof. unfold affinity_insert. case_match; [done|]. by destruct (make_room _ _ _ _). Qed.

Lemma step_policy b op now : affinity_policy (affinity_step b op now).2 = affinity_policy b.
Proof.
  destruct op; simpl; unfold lookup_at, establish_at, reassign_at, sweep_at;
    repeat case_match; simplify_eq/=; try done; apply insert_policy.
Qed.

Lemma run_policy p tr b : book_run p tr b → affinity_policy b = p.
Proof. induction 1; [done|]. by rewrite step_policy. Qed.

Lemma settled_snoc tr ev key : settled (tr ++ [ev]) key = settle_event key (settled tr key) ev.
Proof. unfold settled. by rewrite foldl_app. Qed.

(** One step keeps the table inside the specification. *)
Lemma step_settled b op now s k e :
  (∀ k e, entries b !! k = Some e → s k = Some (entry_deployment e, last_used e)) →
  entries (affinity_step b op now).2 !! k = Some e →
  settle_event k (s k) (op, now, (affinity_step b op now).1) =
    Some (entry_deployment e, last_used e).
Proof.
  intros Hs. destruct op as [k0|k0 d|k0 d|]; simpl.
  - unfold lookup_at. destruct (entries b !! k0) as [e0|] eqn:E0; simpl; [|apply Hs].
    destruct (entry_expired _ _ _); simpl.
    + rewrite lookup_delete_Some. intros [_ He]. by apply Hs.
    + rewrite lookup_insert_Some. intros [[<- <-]|[? He]].
      * by rewrite bool_decide_eq_true_2, (Hs k0 e0).
      * rewrite bool_decide_eq_false_2 by done. by apply Hs.
  - unfold establish_at. destruct (entries b !! k0) as [e0|] eqn:E0.
    + destruct (entry_expired _ _ _); simpl.
      * intros [(-> & <- & <-)|[? He]]%insert_lookup; [by rewrite bool_decide_eq_true_2|].
        rewrite bool_decide_eq_false_2 by done. by apply Hs.
      * rewrite lookup_insert_Some. intros [[<- <-]|[? He]].
        -- case_bool_decide; simpl; by rewrite bool_decide_eq_true_2, (Hs k0 e0).
        -- case_bool_decide; simpl; rewrite bool_decide_eq_false_2 by done; by apply Hs.
    + simpl. intros [(-> & <- & <-)|[? He]]%insert_lookup; [by rewrite bool_decide_eq_true_2|].
      rewrite bool_decide_eq_false_2 by done. by apply Hs.
  - intros [(-> & <- & <-)|[? He]]%insert_lookup; [by rewrite bool_decide_eq_true_2|].
    rewrite bool_decide_eq_false_2 by done. by apply Hs.
  - intros [He _]%retain_live_lookup. by apply Hs.
Qed.

Lemma run_settled p tr b k e :
  book_run p tr b → entries b !! k = Some e → settled tr k = Some (entry_deployment e, last_used e).
Proof.
  intros Hr. revert k e. induction Hr as [|tr b op now Hr IH]; intros k e.
  { simpl. by rewrite lookup_empty. }
  rewrite settled_snoc. by apply step_settled.
Qed.

(** A session is only ever sent where a request of that very session last
    succeeded.  Whatever other sessions do, and however the table is cleaned
    or filled, a lookup that answers gives the deployment the last successful
    commit of this session wrote, no longer idle than the configured time; and
    a commit that loses a race is told the deployment of the one that won. *)
Theorem affinity_refines p tr b key now :
  book_run p tr b →
  (∀ d, (lookup_at b key now).1 = Some d →
     ∃ used, settled tr key = Some (d, used) ∧ now - used ≤ idle_ttl p) ∧
  (∀ d d', (establish_at b key d now).1 = KeptExisting d' →
     d' ≠ d ∧ ∃ used, settled tr key = Some (d', used) ∧ now - used ≤ idle_ttl p).
Proof.
  intros Hr. pose proof (run_policy _ _ _ Hr) as Hp.
  assert (Hlive : ∀ e, entries b !! key = Some e → entry_expired p e now = false →
    ∃ used, settled tr key = Some (entry_deployment e, used) ∧ now - used ≤ idle_ttl p).
  { intros e He Hex. exists (last_used e). split; [by eapply run_settled|].
    unfold entry_expired, saturating_duration_since in Hex. lia. }
  split; [intros d|intros d d']; unfold lookup_at, establish_at; rewrite Hp;
    destruct (entries b !! key) as [e|]; try done; destruct (entry_expired p e now) eqn:Hex; try done;
    simpl.
  - intros [= <-]. by apply Hlive.
  - case_bool_decide; [done|]. intros [= <-]. split; [done|by apply Hlive].
Qed.
End theorems.

(** *** Room *)

Section bounds.
Context `{MapIterLaws}.

(** The two halves of inserting a session the table does not hold. *)
Definition kept_live (b : AffinityBook) (now : Instant) : gmap AffinityKey Entry :=
  if max_entries (affinity_policy b) <=? len (entries b)
  then retain_live (affinity_policy b) now (entries b) else entries b.

Lemma insert_new b key d now :
  entries b !! key = None →
  ∃ m, Roomy (max_entries (affinity_policy b)) (kept_live b now) m ∧
    entries (affinity_insert b key d now) = <[key := mkEntry d now now]> m.
Proof.
  intros Hk. unfold affinity_insert. rewrite Hk. fold (kept_live b now).
  destruct (make_room_spec (size (kept_live b now)) (max_entries (affinity_policy b))
              (kept_live b now) 0) as [HR _]; [done|].
  destruct (make_room _ _ _ _) as [m g]. by exists m.
Qed.

Lemma insert_bounded b key d now max :
  1 ≤ max → max_entries (affinity_policy b) = max → len (entries b) ≤ max →
  len (entries (affinity_insert b key d now)) ≤ max.
Proof.
  intros Hmax Hp Hb. destruct (entries b !! key) as [e|] eqn:E.
  - unfold affinity_insert. rewrite E. simpl. unfold len in *.
    rewrite map_size_insert, E. simpl. lia.
  - destruct (insert_new b key d now E) as (m & HR & ->).
    pose proof (len_insert_le m key (mkEntry d now now)).
    destruct (roomy_room _ _ _ HR) as [?| ->]; [lia|].
    rewrite len_empty in *. lia.
Qed.

Lemma step_bounded b op now max :
  1 ≤ max → max_entries (affinity_policy b) = max → len (entries b) ≤ max →
  len (entries (affinity_step b op now).2) ≤ max.
Proof.
  intros Hmax Hp Hb. destruct op as [k|k d|k d|]; simpl.
  - unfold lookup_at. destruct (entries b !! k) as [e|] eqn:E; [|done].
    destruct (entry_expired _ _ _); simpl.
    + rewrite (len_delete _ _ e) by done. lia.
    + unfold len in *. rewrite map_size_insert, E. simpl. lia.
  - unfold establish_at. destruct (entries b !! k) as [e|] eqn:E; [|by apply insert_bounded].
    destruct (entry_expired _ _ _); simpl; [by apply insert_bounded|].
    unfold len in *. rewrite map_size_insert, E. simpl. lia.
  - by apply insert_bounded.
  - etransitivity; [|exact Hb]. apply len_subseteq, retain_live_subseteq.
Qed.

(** The table never outgrows its bound, and makes room in the right order.
    After any history it holds at most [max_entries] sessions.  When a new
    session pushes another one out, that one had expired, or else no entry
    left has expired and every one of them was used at least as recently:
    live sessions go least recently used first, and only when the table is
    full of them. *)
Theorem affinity_bounded_lru p tr b key d now :
  1 ≤ max_entries p → book_run p tr b →
  len (entries b) ≤ max_entries p ∧
  (entries b !! key = None →
   ∀ k e, entries b !! k = Some e → entries (affinity_insert b key d now) !! k = None →
     len (entries b) = max_entries p ∧
     (entry_expired p e now = true ∨
      max_entries p ≤ len (retain_live p now (entries b)) ∧
      ∀ k' e', k' ≠ key → entries (affinity_insert b key d now) !! k' = Some e' →
        entry_expired p e' now = false ∧ last_used e ≤ last_used e')).
Proof.
  intros Hmax Hr. pose proof (run_policy _ _ _ Hr) as Hp.
  assert (Hb : len (entries b) ≤ max_entries p).
  { clear Hp. induction Hr as [|tr b op now' Hr IH]; [simpl; rewrite len_empty; lia|].
    pose proof (run_policy _ _ _ Hr) as Hp. apply step_bounded; [done|by rewrite Hp|done]. }
  split; [done|]. intros Hkey k e Hk Hgone.
  assert (Hne : key ≠ k) by congruence.
  destruct (insert_new b key d now Hkey) as (m & HR & Hm). rewrite Hm in *.
  unfold kept_live in HR. rewrite Hp in HR. rewrite lookup_insert_ne in Hgone by done.
  destruct (Z.leb_spec (max_entries p) (len (entries b))) as [Hfull|Hroom]; last first.
  { rewrite (roomy_idle _ _ _ HR) in Hgone by done. congruence. }
  split; [lia|]. destruct (entry_expired p e now) eqn:Hex; [by left|right].
  assert (Hkept : retain_live p now (entries b) !! k = Some e) by by apply retain_live_lookup.
  split.
  - destruct (Z.le_gt_cases (max_entries p) (len (retain_live p now (entries b)))) as [|Hlt]; [done|].
    apply (roomy_idle _ _ _ HR) in Hlt. congruence.
  - intros k' e' Hk' He'. rewrite lookup_insert_ne in He' by done. split.
    + apply (retain_live_lookup p now (entries b) k'). eapply lookup_weaken, (roomy_sub _ _ _ HR). done.
    + by eapply (roomy_lru _ _ _ HR).
Qed.
End bounds.

(** ** A small table, for concrete examples *)

(** One order of iteration. *)
Definition by_key : MapIter := map_to_list.
Lemma by_key_laws : @MapIterLaws by_key.
Proof. by intros m. Qed.

Definition demo_affinity : AffinityPolicy :=
  mkAffinityPolicy true (lit "x-lightweight-session") (from_secs 60) 2.

Definition session_a : AffinityKey := mkKey (lit "Coder") 1.
Definition session_b : AffinityKey := mkKey (lit "Coder") 2.
Definition session_c : AffinityKey := mkKey (lit "Coder") 3.

(** Two sessions are established, the first is asked for again. *)
Definition demo_book : AffinityBook :=
  let b := (@affinity_step by_key (AffinityBook_new demo_affinity)
              (OpEstablish session_a on_laptop) (from_secs 0)).2 in
  let b := (@affinity_step by_key b (OpEstablish session_b on_tower) (from_secs 1)).2 in
  (@affinity_step by_key b (OpLookup session_a) (from_secs 2)).2.

Definition demo_trace : Trace :=
  [(OpEstablish session_a on_laptop, from_secs 0, AnsEstablished New);
   (OpEstablish session_b on_tower, from_secs 1, AnsEstablished New);
   (OpLookup session_a, from_secs 2, AnsLookup (Some on_laptop))].

Lemma demo_run : @book_run by_key demo_affinity demo_trace demo_book.
Proof.
  exact (run_op _ _ _ (OpLookup session_a) (from_secs 2)
    (run_op _ _ _ (OpEstablish session_b on_tower) (from_secs 1)
      (run_op _ _ _ (OpEstablish session_a on_laptop) (from_secs 0) (run_new _)))).
Qed.

(** Ten seconds later the session is still where it settled, and a racer that
    would put it on the tower is told so. *)
Lemma affinity_refines_witness :
  (∃ used, settled demo_trace session_a = Some (on_laptop, used)
           ∧ from_secs 12 - used ≤ from_secs 60) ∧
  on_laptop ≠ on_tower.
Proof.
  destruct (@affinity_refines by_key by_key_laws demo_affinity demo_trace demo_book session_a
              (from_secs 12) demo_run) as [H1 H2].
  split; [apply H1; reflexivity|]. apply (H2 on_tower on_laptop). reflexivity.
Defined.

(** A third session pushes out the second, the least recently used. *)
Lemma affinity_bounded_lru_witness :
  len (entries demo_book) = 2 ∧
  ∀ k' e', k' ≠ session_c →
    entries (@affinity_insert by_key demo_book session_c on_tower (from_secs 3)) !! k' = Some e' →
    entry_expired demo_affinity e' (from_secs 3) = false ∧ from_secs 1 ≤ last_used e'.
Proof.
  destruct (proj2 (@affinity_bounded_lru by_key by_key_laws demo_affinity demo_trace demo_book
    session_c on_tower (from_secs 3) ltac:(vm_compute; discriminate) demo_run) eq_refl
    session_b (mkEntry on_tower (from_secs 1) (from_secs 1)) eq_refl eq_refl) as [H1 [H2|H2]].
  - vm_compute in H2. discriminate H2.
  - split; [exact H1|exact (proj2 H2)].
Defined.
