(* ===== verification/Fallback.v ===== *)
(** * Cross-route fallback

    [crates/lightweight-router/src/fallback.rs]: the lists of routes an [Auto]
    request may move to when the route it resolved to cannot execute it, how a
    configuration's lists are checked, and the search for a cycle in them.
    The name [Auto] itself is [is_auto] of [auto_route.rs].

    A sentence a problem is told with is the constructor that says what it
    names.  The section of the file is a [BTreeMap]: its entries in key
    order. *)

From stdpp Require Import base gmap strings numbers list relations sorting.
From S2P Require Import Prelude Names Domain.

(** ** The name [Auto] *)

Definition AUTO_ROUTE : str := lit "Auto".

Definition is_auto `{LowerCase} (name : str) : bool := same_name AUTO_ROUTE name.

(** ** The section and what is wrong with one *)

Definition MAX_FALLBACK_ROUTES : usize := 3.

Inductive FallbackReason := ReasonUnavailable | ReasonExhausted | ReasonCapabilityMismatch.

#[export] Instance FallbackReason_eq_dec : EqDecision FallbackReason.
Proof. solve_decision. Defined.

Definition CrossRouteFallbackFile : Type := list (str * list str).

Definition Chains : Type := list (RouteName * list RouteName).

Record CrossRouteFallback := mkFallback { chains : Chains }.

Inductive ConcreteProblem := CPEmpty | CPAuto | CPReserved | CPUnknown | CPClassifier.

Inductive FallbackProblem :=
| FPSource (source : str) (why : ConcreteProblem)
| FPUnreachable (source : str)
| FPDuplicate (initial : RouteName)
| FPEmptyList (initial : RouteName)
| FPTooMany (initial : RouteName) (n : usize)
| FPTarget (initial : RouteName) (target : str) (why : ConcreteProblem)
| FPSelf (initial : RouteName)
| FPRepeated (initial route : RouteName)
| FPCycle (steps : list RouteName).

(** The list of a route among [chains], empty if it has none: [edges] of the
    cycle search and [CrossRouteFallback::chain]. *)
Definition edges (cs : Chains) (node : RouteName) : list RouteName :=
  match find_first (fun c => bool_decide (c.1 = node)) cs with
  | Some (_, chain) => chain
  | None => []
  end.

Definition chain (f : CrossRouteFallback) (route : RouteName) : list RouteName :=
  edges (chains f) route.

(** ** The search for a cycle *)

Inductive Mark := MarkNew | MarkOpen | MarkDone.

#[export] Instance Mark_eq_dec : EqDecision Mark.
Proof. solve_decision. Defined.

Definition Marks : Type := list (RouteName * Mark).

Definition mark_of (marks : Marks) (node : RouteName) : Mark :=
  match find_first (fun m => bool_decide (m.1 = node)) marks with
  | Some (_, mark) => mark
  | None => MarkNew
  end.

(** [marks.iter_mut().find(..)] set to [Done]. *)
Definition set_done (marks : Marks) (node : RouteName) : Marks :=
  update_first (fun m => bool_decide (m.1 = node)) (fun m => (m.1, MarkDone)) marks.

(** How a visit ends: with the steps of a cycle, its first node repeated at
    the end, or with the marks and the path it leaves. *)
Inductive Visit :=
| Cycle (steps : list RouteName)
| Clear (marks : Marks) (path : list RouteName).

(** The loop over the edges of a node; [None] is fuel running out. *)
Fixpoint visit_all (visit : RouteName → Marks → list RouteName → option Visit)
    (nexts : list RouteName) (marks : Marks) (path : list RouteName) : option Visit :=
  match nexts with
  | [] => Some (Clear marks path)
  | next :: nexts =>
      match visit next marks path with
      | Some (Clear marks path) => visit_all visit nexts marks path
      | found => found
      end
  end.

Fixpoint visit (fuel : nat) (cs : Chains) (node : RouteName) (marks : Marks)
    (path : list RouteName) : option Visit :=
  match fuel with
  | O => None
  | S fuel =>
      match mark_of marks node with
      | MarkDone => Some (Clear marks path)
      | MarkOpen =>
          let start := default 0%nat (position_of (fun seen => bool_decide (seen = node)) path) in
          Some (Cycle (drop start path ++ [node]))
      | MarkNew =>
          match visit_all (visit fuel cs) (edges cs node)
                  (marks ++ [(node, MarkOpen)]) (path ++ [node]) with
          | Some (Clear marks path) => Some (Clear (set_done marks node) (removelast path))
          | found => found
          end
      end
  end.

(** Every name the lists mention: each visit of a new node marks one. *)
Definition names (cs : Chains) : list RouteName := mjoin ((fun c => c.1 :: c.2) <$> cs).

Fixpoint search (fuel : nat) (cs : Chains) (starts : list RouteName) (marks : Marks)
    : option (option (list RouteName)) :=
  match starts with
  | [] => Some None
  | initial :: starts =>
      match visit fuel cs initial marks [] with
      | Some (Clear marks _) => search fuel cs starts marks
      | Some (Cycle steps) => Some (Some steps)
      | None => None
      end
  end.

Definition find_cycle (cs : Chains) : option (list RouteName) :=
  default None (search (S (length (names cs))) cs (fst <$> cs) []).

(** [A -> B -> A]. *)
Fixpoint cycle_text (steps : list RouteName) : str :=
  match steps with
  | [] => []
  | [node] => route_str node
  | step :: steps => route_str step ++ lit " -> " ++ cycle_text steps
  end.

(** ** Checking a section *)

Section validation.
Context `{LowerCase}.

Definition concrete (name : str) (routes : list Route) (classifier_routes : list RouteName)
    : result RouteName ConcreteProblem :=
  if bool_decide (trim name = []) then Err CPEmpty
  else if is_auto name then Err CPAuto
  else if is_reserved name then Err CPReserved
  else match find_first (fun r => name_matches (route_name r) name) routes with
       | None => Err CPUnknown
       | Some r =>
           if bool_decide (route_name r ∈ classifier_routes) then Err CPClassifier
           else Ok (route_name r)
       end.

(** The loop over one list: the chain so far, whether every entry was fine,
    and the problems. *)
Fixpoint check_targets (initial : RouteName) (routes : list Route)
    (classifier_routes : list RouteName) (targets : list str) (chain : list RouteName) (ok : bool)
    : list RouteName * bool * list FallbackProblem :=
  match targets with
  | [] => (chain, ok, [])
  | target :: targets =>
      let go := check_targets initial routes classifier_routes targets in
      let fail p := let '(c, ok, ps) := go chain false in (c, ok, p :: ps) in
      match concrete target routes classifier_routes with
      | Err why => fail (FPTarget initial target why)
      | Ok route =>
          if bool_decide (route = initial) then fail (FPSelf initial)
          else if bool_decide (route ∈ chain) then fail (FPRepeated initial route)
          else go (chain ++ [route]) ok
      end
  end.

(** One entry of the section, against the chains accepted before it. *)
Definition check_entry (routes : list Route) (reachable classifier_routes : list RouteName)
    (seen : Chains) (source : str) (targets : list str)
    : Chains * list FallbackProblem :=
  match concrete source routes classifier_routes with
  | Err why => (seen, [FPSource source why])
  | Ok initial =>
      if negb (bool_decide (initial ∈ reachable)) then (seen, [FPUnreachable source])
      else if existsb (fun c => bool_decide (c.1 = initial)) seen then (seen, [FPDuplicate initial])
      else if bool_decide (targets = []) then (seen, [FPEmptyList initial])
      else if MAX_FALLBACK_ROUTES <? Z.of_nat (length targets)
           then (seen, [FPTooMany initial (Z.of_nat (length targets))])
      else
        let '(chain, ok, problems) := check_targets initial routes classifier_routes targets [] true in
        (if ok then seen ++ [(initial, chain)] else seen, problems)
  end.

Definition check_entries (routes : list Route) (reachable classifier_routes : list RouteName)
    (raw : CrossRouteFallbackFile) : Chains * list FallbackProblem :=
  foldl (fun acc entry =>
           let '(seen, problems) :=
             check_entry routes reachable classifier_routes acc.1 entry.1 entry.2 in
           (seen, acc.2 ++ problems)) ([], []) raw.

(** [routes.iter().position(..)]: an [Option], whose [None] sorts first. *)
Definition configured_position (routes : list Route) (initial : RouteName) : Z :=
  match position_of (fun r => bool_decide (route_name r = initial)) routes with
  | Some i => Z.of_nat i
  | None => -1
  end.

(** [fallback::validate]: the section, or the problems it adds. *)
Definition validate_fallback (raw : CrossRouteFallbackFile) (routes : list Route)
    (reachable classifier_routes : list RouteName)
    : result CrossRouteFallback (list FallbackProblem) :=
  let '(cs, problems) := check_entries routes reachable classifier_routes raw in
  let problems :=
    match problems, find_cycle cs with
    | [], Some cycle => [FPCycle cycle]
    | _, _ => problems
    end in
  match problems with
  | [] => Ok (mkFallback (sort_by (fun a b => configured_position routes a.1
                                              <? configured_position routes b.1) cs))
  | _ => Err problems
  end.
End validation.

(** ** The search is exact *)

Section cycles.
Context (cs : Chains).

Definition edge (a b : RouteName) : Prop := b ∈ edges cs a.

(** A walk along the lists. *)
Definition linked (path : list RouteName) : Prop :=
  ∀ i a b, path !! i = Some a → path !! S i = Some b → edge a b.

Definition is_cycle (steps : list RouteName) : Prop :=
  ∃ n mid, steps = n :: mid ++ [n] ∧ linked steps.

(** No infinite walk starts here. *)
Abbreviation safe := (Acc (λ b a, edge a b)).

Lemma edges_names a b : edge a b → b ∈ names cs.
Proof.
  unfold edge, edges. intros Hb. destruct (find_first _ cs) as [[i l]|] eqn:E;
    [|by apply not_elem_of_nil in Hb].
  apply find_first_Some in E as [E _]. unfold names. apply list_elem_of_join.
  exists (i :: l). split; [by apply list_elem_of_further|].
  apply list_elem_of_fmap. by exists (i, l).
Qed.

Lemma linked_snoc path n :
  linked path → (∀ l, last path = Some l → edge l n) → linked (path ++ [n]).
Proof.
  intros Hl Hlast i a b Ha Hb.
  destruct (decide (S i < length path)%nat) as [Hlt|Hge].
  - rewrite lookup_app_l in Ha, Hb by lia. by eapply Hl.
  - rewrite lookup_app_r in Hb by lia. apply list_lookup_singleton_Some in Hb as [Hi ->].
    rewrite lookup_app_l in Ha by lia. apply Hlast. rewrite last_lookup.
    by replace (pred (length path)) with i by lia.
Qed.

Lemma linked_drop k path : linked path → linked (drop k path).
Proof. intros Hl i a b. rewrite !lookup_drop. intros Ha Hb. eapply Hl; [exact Ha|].
  by replace (S (k + i)) with (k + S i)%nat by lia. Qed.

Lemma last_drop {A} k (l : list A) : (k < length l)%nat → last (drop k l) = last l.
Proof. intros Hk. rewrite !last_lookup, lookup_drop, length_drop. f_equal. lia. Qed.

(** *** The marks *)

Lemma mark_of_elem marks n : n ∉ marks.*1 → mark_of marks n = MarkNew.
Proof.
  intros Hn. unfold mark_of. destruct (find_first _ marks) as [[m o]|] eqn:E; [|done].
  apply find_first_Some in E as [E Hm]. apply bool_decide_eq_true in Hm. simpl in Hm. subst m.
  destruct Hn. apply list_elem_of_fmap. by exists (n, o).
Qed.

Lemma mark_of_snoc marks n m :
  n ∉ marks.*1 →
  mark_of (marks ++ [(n, MarkOpen)]) m = if decide (m = n) then MarkOpen else mark_of marks m.
Proof.
  unfold mark_of. induction marks as [|[x o] marks IH]; csimpl; intros Hn.
  - case_bool_decide; case_decide; congruence.
  - apply not_elem_of_cons in Hn as [Hx Hn]. case_bool_decide as Hm.
    + subst x. by rewrite decide_False.
    + by apply IH.
Qed.

Lemma set_done_marks marks n : (set_done marks n).*1 = marks.*1.
Proof. by apply update_first_fmap. Qed.

Lemma mark_of_set_done marks n m :
  n ∈ marks.*1 →
  mark_of (set_done marks n) m = if decide (m = n) then MarkDone else mark_of marks m.
Proof.
  unfold mark_of, set_done. induction marks as [|[x o] marks IH]; csimpl; intros Hn.
  { by apply not_elem_of_nil in Hn. }
  case_bool_decide as Hx; simpl.
  - subst x. case_bool_decide as Hm; [subst; by rewrite decide_True|].
    by rewrite decide_False by congruence.
  - case_bool_decide as Hm.
    + subst x. by rewrite decide_False.
    + apply IH. set_solver.
Qed.

(** What holds of the marks whenever a visit begins or ends. *)
Record Marked (marks : Marks) (path : list RouteName) : Prop := {
  marked_new : ∀ n, mark_of marks n = MarkNew → n ∉ marks.*1;
  marked_open : ∀ n, mark_of marks n = MarkOpen ↔ n ∈ path;
  marked_done : ∀ n, mark_of marks n = MarkDone → safe n;
  marked_linked : linked path }.

Definition unmarked (marks : Marks) : nat :=
  length (filter (λ n, mark_of marks n = MarkNew) (names cs)).

(** [marks'] has every mark of [marks], and what was done stays done. *)
Definition grows (marks marks' : Marks) : Prop :=
  (∀ n, mark_of marks' n = MarkNew → mark_of marks n = MarkNew) ∧
  (∀ n, mark_of marks n = MarkDone → mark_of marks' n = MarkDone).

Lemma grows_refl marks : grows marks marks.
Proof. by split. Qed.
Lemma grows_trans m1 m2 m3 : grows m1 m2 → grows m2 m3 → grows m1 m3.
Proof. intros [H1 H2] [H3 H4]. split; auto. Qed.

Lemma length_filter_mono {A} (P Q : A → Prop) `{∀ x, Decision (P x)} `{∀ x, Decision (Q x)} l :
  (∀ x, P x → Q x) → (length (filter P l) ≤ length (filter Q l))%nat.
Proof.
  intros HPQ. induction l as [|x l IH]; [done|]. rewrite !filter_cons.
  repeat case_decide; simpl; try lia. exfalso. auto.
Qed.

Lemma unmarked_grows m1 m2 : grows m1 m2 → (unmarked m2 ≤ unmarked m1)%nat.
Proof. intros [Hn _]. by apply length_filter_mono. Qed.

Lemma length_filter_lt {A} (P Q : A → Prop) `{∀ x, Decision (P x)} `{∀ x, Decision (Q x)} l x :
  (∀ y, P y → Q y) → x ∈ l → Q x → ¬ P x → (length (filter P l) < length (filter Q l))%nat.
Proof.
  intros HPQ. induction l as [|y l IH]; intros Hx HQ HP; [by apply not_elem_of_nil in Hx|].
  pose proof (length_filter_mono P Q l HPQ). rewrite !filter_cons.
  apply elem_of_cons in Hx as [<-|Hx].
  - rewrite decide_False, decide_True by done. simpl. lia.
  - specialize (IH Hx HQ HP). repeat case_decide; simpl; try lia. exfalso. auto.
Qed.

Lemma unmarked_open marks n :
  n ∉ marks.*1 → n ∈ names cs → (unmarked (marks ++ [(n, MarkOpen)]) < unmarked marks)%nat.
Proof.
  intros Hn Hin. eapply (length_filter_lt _ _ _ n); [|done|by apply mark_of_elem|].
  - intros m. rewrite mark_of_snoc by done. by case_decide.
  - rewrite mark_of_snoc, decide_True by done. done.
Qed.

(** *** A visit *)

(** What a visit leaves: a cycle that is one, or marks under which all of
    [nodes] are done. *)
Definition visited (marks : Marks) (path nodes : list RouteName) (v : option Visit) : Prop :=
  match v with
  | None => False
  | Some (Cycle steps) => is_cycle steps
  | Some (Clear marks' path') =>
      path' = path ∧ Marked marks' path ∧ grows marks marks' ∧
      ∀ n, n ∈ nodes → mark_of marks' n = MarkDone
  end.

Definition visits (f : RouteName → Marks → list RouteName → option Visit) (fuel : nat) : Prop :=
  ∀ node marks path,
    Marked marks path → (∀ l, last path = Some l → edge l node) → node ∈ names cs →
    (unmarked marks < fuel)%nat → visited marks path [node] (f node marks path).

Lemma visit_all_spec f fuel nexts marks path :
  visits f fuel → Marked marks path → (unmarked marks < fuel)%nat →
  (∀ n, n ∈ nexts → n ∈ names cs ∧ ∀ l, last path = Some l → edge l n) →
  visited marks path nexts (visit_all f nexts marks path).
Proof.
  intros Hf. revert marks. induction nexts as [|next nexts IH]; intros marks HM Hfuel Hn; simpl.
  { split; [done|]. split; [done|]. split; [apply grows_refl|]. by intros n ?%not_elem_of_nil. }
  destruct (Hn next (list_elem_of_here _ _)) as [Hnext Hlast].
  pose proof (Hf next marks path HM Hlast Hnext Hfuel) as Hv.
  destruct (f next marks path) as [[steps|marks1 path1]|]; simpl in Hv; [done| |done].
  destruct Hv as (-> & HM1 & Hg1 & Hd1).
  assert (Hrest : visited marks1 path nexts (visit_all f nexts marks1 path)).
  { apply IH; [done| |].
    - pose proof (unmarked_grows _ _ Hg1). lia.
    - intros n ?. apply Hn. by apply list_elem_of_further. }
  destruct (visit_all f nexts marks1 path) as [[steps|marks2 path2]|]; simpl in *; [done| |done].
  destruct Hrest as (-> & HM2 & Hg2 & Hd2). split; [done|]. split; [done|].
  split; [by eapply grows_trans|]. intros n [->|Hin]%elem_of_cons; [|by apply Hd2].
  apply (proj2 Hg2), Hd1. apply list_elem_of_here.
Qed.

(** Opening a node that extends the walk. *)
Lemma Marked_open marks path node :
  Marked marks path → mark_of marks node = MarkNew → (∀ l, last path = Some l → edge l node) →
  Marked (marks ++ [(node, MarkOpen)]) (path ++ [node]).
Proof.
  intros [Hnew Hopen Hdone Hl] Hn Hlast. pose proof (Hnew _ Hn) as Hin. split.
  - intros n. rewrite mark_of_snoc by done. case_decide; [done|]. intros Hm%Hnew.
    rewrite fmap_app. set_solver.
  - intros n. rewrite mark_of_snoc, elem_of_app, list_elem_of_singleton, <-Hopen by done.
    case_decide; [tauto|]. split; [by left|]. by intros [?|?].
  - intros n. rewrite mark_of_snoc by done. case_decide; [done|]. apply Hdone.
  - by apply linked_snoc.
Qed.

(** Closing the last node of the walk once all its successors are done. *)
Lemma Marked_close marks path node :
  Marked marks (path ++ [node]) → node ∉ path →
  (∀ n, n ∈ edges cs node → mark_of marks n = MarkDone) →
  Marked (set_done marks node) path.
Proof.
  intros [Hnew Hopen Hdone Hl] Hin Hs.
  assert (Hno : mark_of marks node = MarkOpen) by (apply Hopen; set_solver).
  assert (Hm : node ∈ marks.*1).
  { destruct (decide (node ∈ marks.*1)) as [|Hm]; [done|]. rewrite mark_of_elem in Hno; done. }
  split.
  - intros n. rewrite set_done_marks, mark_of_set_done by done. case_decide; [done|]. apply Hnew.
  - intros n. rewrite mark_of_set_done by done. case_decide as Hn.
    + subst n. split; [done|]. by intros ?%Hin.
    + rewrite Hopen, elem_of_app, list_elem_of_singleton. tauto.
  - intros n. rewrite mark_of_set_done by done. case_decide as Hn; [|apply Hdone].
    subst n. intros _. constructor. intros b Hb. by apply Hdone, Hs.
  - intros i a b Ha Hb. eapply Hl; apply lookup_app_l_Some; eauto.
Qed.

(** The walk up to an open node closes a cycle. *)
Lemma open_cycle path node :
  linked path → (∀ l, last path = Some l → edge l node) → node ∈ path →
  is_cycle (drop (default 0%nat (position_of (fun seen => bool_decide (seen = node)) path)) path
            ++ [node]).
Proof.
  intros Hl Hlast Hin.
  destruct (position_of _ path) as [k|] eqn:Hk; last first.
  { rewrite position_of_None in Hk. specialize (Hk node Hin).
    by rewrite bool_decide_eq_true_2 in Hk. }
  apply position_of_Some in Hk as (x & Hx & Hxn). apply bool_decide_eq_true in Hxn. subst x. simpl.
  pose proof (lookup_lt_Some _ _ _ Hx) as Hlt.
  pose proof (drop_S _ _ _ Hx) as Hd.
  exists node, (drop (S k) path). split; [by rewrite Hd|].
  rewrite Hd. apply (linked_snoc (node :: _)); rewrite <-Hd; [by apply linked_drop|].
  intros l. rewrite last_drop by done. apply Hlast.
Qed.

Lemma visit_spec fuel : visits (visit fuel cs) fuel.
Proof.
  induction fuel as [|fuel IH]; intros node marks path HM Hlast Hnode Hfuel; [lia|]. simpl.
  destruct (mark_of marks node) eqn:Hmark.
  - pose proof (marked_new _ _ HM _ Hmark) as Hfresh.
    assert (Hpath : node ∉ path).
    { intros Hp. apply (marked_open _ _ HM) in Hp. congruence. }
    pose proof (unmarked_open _ _ Hfresh Hnode) as Hless.
    assert (Hall : visited (marks ++ [(node, MarkOpen)]) (path ++ [node]) (edges cs node)
      (visit_all (visit fuel cs) (edges cs node) (marks ++ [(node, MarkOpen)]) (path ++ [node]))).
    { apply visit_all_spec with fuel; [done|by apply Marked_open|lia|].
      intros n Hn. split; [by eapply edges_names|]. intros l. rewrite last_snoc.
      by intros [= <-]. }
    destruct (visit_all _ _ _ _) as [[steps|marks1 path1]|]; simpl in *; [done| |done].
    destruct Hall as (-> & HM1 & [Hg1 Hg2] & Hd).
    assert (Hin : node ∈ marks1.*1).
    { destruct (decide (node ∈ marks1.*1)) as [|Hm]; [done|].
      pose proof (mark_of_elem _ _ Hm) as Hm'. apply Hg1 in Hm'.
      rewrite mark_of_snoc, decide_True in Hm'; done. }
    rewrite removelast_last. split; [done|]. split; [by apply Marked_close|]. split; [split|].
    + intros n. rewrite mark_of_set_done by done. case_decide; [done|]. intros Hn%Hg1.
      by rewrite mark_of_snoc, decide_False in Hn.
    + intros n Hn. rewrite mark_of_set_done by done. case_decide; [done|]. apply Hg2.
      by rewrite mark_of_snoc, decide_False.
    + intros n ->%list_elem_of_singleton. by rewrite mark_of_set_done, decide_True.
  - simpl. apply open_cycle; [apply HM|done|]. by apply HM.
  - split; [done|]. split; [done|]. split; [apply grows_refl|].
    by intros n ->%list_elem_of_singleton.
Qed.

Lemma search_spec fuel starts marks :
  Marked marks [] → (unmarked marks < fuel)%nat → (∀ n, n ∈ starts → n ∈ names cs) →
  match search fuel cs starts marks with
  | None => False
  | Some (Some steps) => is_cycle steps
  | Some None => ∀ n, n ∈ starts → safe n
  end.
Proof.
  revert marks. induction starts as [|start starts IH]; intros marks HM Hfuel Hs; simpl.
  { by intros n ?%not_elem_of_nil. }
  pose proof (visit_spec fuel start marks [] HM ltac:(done) ltac:(apply Hs, list_elem_of_here) Hfuel)
    as Hv.
  destruct (visit fuel cs start marks []) as [[steps|marks1 path1]|]; simpl in Hv; [done| |done].
  destruct Hv as (-> & HM1 & Hg & Hd). pose proof (unmarked_grows _ _ Hg).
  specialize (IH marks1 HM1 ltac:(lia) (λ n Hn, Hs n (list_elem_of_further _ _ _ Hn))).
  destruct (search fuel cs starts marks1) as [[steps|]|]; [done| |done].
  intros n [->|Hn]%elem_of_cons; [|by apply IH].
  apply (marked_done _ _ HM1), Hd, list_elem_of_here.
Qed.

Lemma safe_acyclic n : safe n → ¬ tc edge n n.
Proof.
  induction 1 as [n _ IH]. intros Hc.
  assert (∃ m, edge n m ∧ tc edge m m) as (m & Hnm & Hm).
  { inversion Hc as [|? m ? Hnm Hmn]; subst; [by exists n|].
    exists m. split; [done|]. eapply tc_r; eauto. }
  by apply (IH m).
Qed.
End cycles.

Lemma linked_tc cs mid a b : linked cs (a :: mid ++ [b]) → tc (edge cs) a b.
Proof.
  revert a. induction mid as [|m mid IH]; intros a Hl.
  - apply tc_once. by apply (Hl 0%nat).
  - eapply tc_l; [by apply (Hl 0%nat)|]. apply IH. by apply (linked_drop cs 1) in Hl.
Qed.

Definition acyclic (cs : Chains) : Prop := ∀ n, ¬ tc (edge cs) n n.

Lemma is_cycle_not_acyclic cs steps : is_cycle cs steps → ¬ acyclic cs.
Proof. intros (n & mid & -> & Hl) Ha. by apply (Ha n), (linked_tc _ mid). Qed.

Lemma edge_start cs a b : edge cs a b → a ∈ fst <$> cs.
Proof.
  unfold edge, edges. destruct (find_first _ cs) as [[i l]|] eqn:E; [|by intros ?%not_elem_of_nil].
  apply find_first_Some in E as [E Hi]. apply bool_decide_eq_true in Hi. simpl in Hi. subst i.
  intros _. apply list_elem_of_fmap. by exists (a, l).
Qed.

Lemma Marked_nil cs : Marked cs [] [].
Proof. split; [set_solver|..]; intros n; [set_solver|done|done]. Qed.

Lemma unmarked_le cs marks : (unmarked cs marks ≤ length (names cs))%nat.
Proof. apply length_filter. Qed.

Lemma search_names cs :
  match search (S (length (names cs))) cs (fst <$> cs) [] with
  | None => False
  | Some (Some steps) => is_cycle cs steps
  | Some None => acyclic cs
  end.
Proof.
  pose proof (search_spec cs (S (length (names cs))) (fst <$> cs) [] (Marked_nil cs)) as Hs.
  pose proof (unmarked_le cs []). specialize (Hs ltac:(lia)).
  assert (Hn : ∀ n, n ∈ fst <$> cs → n ∈ names cs).
  { intros n ([i l] & -> & Hc)%list_elem_of_fmap. unfold names. apply list_elem_of_join.
    exists (i :: l). split; [apply list_elem_of_here|]. apply list_elem_of_fmap. by exists (i, l). }
  specialize (Hs Hn). destruct (search _ _ _ _) as [[steps|]|]; [done| |done].
  intros n Hc. assert (n ∈ fst <$> cs) as Hin.
  { inversion Hc; subst; by eapply edge_start. }
  by eapply safe_acyclic; [apply Hs|].
Qed.

(** C40: the search for a cycle always ends, and is exact.  Each visit marks a
    node, so as many visits as names are enough; what it reports is a closed
    walk along the configured lists, and when it reports nothing no route can
    reach itself through them. *)
Theorem find_cycle_exact cs :
  is_Some (search (S (length (names cs))) cs (fst <$> cs) []) ∧
  match find_cycle cs with
  | Some steps => ∃ n mid, steps = n :: mid ++ [n] ∧ linked cs steps
  | None => ∀ n, ¬ tc (edge cs) n n
  end.
Proof.
  pose proof (search_names cs) as Hs. unfold find_cycle.
  destruct (search _ _ _ _) as [[steps|]|]; [|by eauto|done]. split; [by eauto|exact Hs].
Qed.

(** ** A section is accepted exactly when it is sound *)

Section accepted.
Context `{LowerCase} (routes : list Route) (reachable classifier_routes : list RouteName).

Definition names_route (t : str) (r : RouteName) : Prop :=
  concrete t routes classifier_routes = Ok r.

Definition targets_ok (initial : RouteName) (chain : list RouteName) (targets : list str)
    (l : list RouteName) : Prop :=
  Forall2 names_route targets l ∧ (initial ∉ l) ∧ NoDup (chain ++ l).

(** One entry of the file and what it configures: a route [Auto] can resolve
    to, with one to three other routes, none repeated. *)
Definition entry_ok (e : str * list str) (c : RouteName * list RouteName) : Prop :=
  names_route e.1 c.1 ∧ c.1 ∈ reachable ∧ e.2 ≠ [] ∧
  Z.of_nat (length e.2) ≤ MAX_FALLBACK_ROUTES ∧ targets_ok c.1 [] e.2 c.2.

Definition section_ok (raw : CrossRouteFallbackFile) (cs : Chains) : Prop :=
  Forall2 entry_ok raw cs ∧ NoDup (fst <$> cs).

Lemma check_targets_false initial targets chain :
  (check_targets initial routes classifier_routes targets chain false).1.2 = false.
Proof.
  revert chain. induction targets as [|t targets IH]; intros chain; simpl; [done|].
  destruct (concrete _ _ _); repeat case_bool_decide;
    try apply IH; specialize (IH chain); by destruct (check_targets _ _ _ _ _ _) as [[??]?].
Qed.

Lemma check_targets_spec initial targets chain :
  NoDup chain →
  match check_targets initial routes classifier_routes targets chain true with
  | (chain', true, ps) => ps = [] ∧ ∃ l, chain' = chain ++ l ∧ targets_ok initial chain targets l
  | (_, false, ps) => ps ≠ [] ∧ ∀ l, ¬ targets_ok initial chain targets l
  end.
Proof.
  revert chain. induction targets as [|t targets IH]; intros chain Hnd; simpl.
  { split; [done|]. exists []. rewrite app_nil_r. split; [done|]. split; [constructor|].
    rewrite app_nil_r. split; [set_solver|done]. }
  pose proof (check_targets_false initial targets chain) as Hfalse.
  assert (Hfail : ∀ p, (∀ l, ¬ targets_ok initial chain (t :: targets) l) →
    match (let '(c, ok, ps) :=
             check_targets initial routes classifier_routes targets chain false in
           (c, ok, p :: ps)) with
    | (chain', true, ps) =>
        ps = [] ∧ ∃ l, chain' = chain ++ l ∧ targets_ok initial chain (t :: targets) l
    | (_, false, ps) => ps ≠ [] ∧ ∀ l, ¬ targets_ok initial chain (t :: targets) l
    end).
  { intros p Hno. destruct (check_targets _ _ _ _ _ _) as [[c ok] ps]. simpl in *. by subst ok. }
  destruct (concrete t routes classifier_routes) as [r|why] eqn:Hc.
  - case_bool_decide as Hi; [|case_bool_decide as Hr].
    + apply Hfail. intros l ([r' [l' (Hr' & _ & ->)]]%Forall2_cons_inv_l & Hin & _).
      unfold names_route in Hr'. set_solver by congruence.
    + apply Hfail. intros l ([r' [l' (Hr' & _ & ->)]]%Forall2_cons_inv_l & _ & Hd).
      unfold names_route in Hr'. assert (r' = r) as -> by congruence.
      apply NoDup_app in Hd as (_ & Hd & _). apply (Hd r Hr). apply list_elem_of_here.
    + assert (Hnd' : NoDup (chain ++ [r])).
      { apply NoDup_app. split; [done|]. split; [set_solver|]. apply NoDup_singleton. }
      specialize (IH (chain ++ [r]) Hnd').
      destruct (check_targets _ _ _ _ _ _) as [[c []] ps].
      * destruct IH as (-> & l & -> & Hl & Hil & Hndl). split; [done|].
        exists (r :: l). rewrite <-app_assoc in *. split; [done|]. split; [by constructor|].
        split; [set_solver|done].
      * destruct IH as [Hps Hno]. split; [done|].
        intros l ([r' [l' (Hr' & Hl' & ->)]]%Forall2_cons_inv_l & Hin & Hd).
        unfold names_route in Hr'. assert (r' = r) as -> by congruence.
        apply (Hno l'). split; [done|]. rewrite <-app_assoc. split; [set_solver|done].
  - apply Hfail. intros l ([r' [l' (Hr' & _ & ->)]]%Forall2_cons_inv_l & _).
    unfold names_route in Hr'. congruence.
Qed.

Lemma check_entry_spec seen e :
  match check_entry routes reachable classifier_routes seen e.1 e.2 with
  | (seen', []) => ∃ c, entry_ok e c ∧ (c.1 ∉ seen.*1) ∧ seen' = seen ++ [c]
  | (_, _ :: _) => ∀ c, entry_ok e c → c.1 ∈ seen.*1
  end.
Proof.
  unfold check_entry, entry_ok, names_route.
  destruct (concrete e.1 routes classifier_routes) as [initial|why]; [|by intros c [? _]].
  case_bool_decide as Hre; simpl; [|intros c ([= <-] & Hc & _); done].
  destruct (existsb _ seen) eqn:Hseen.
  { intros c ([= <-] & _). apply existsb_exists in Hseen as ([i l] & Hin & Hi).
    apply bool_decide_eq_true in Hi. apply list_elem_of_fmap. exists (i, l).
    by rewrite list_elem_of_In. }
  assert (Hnew : initial ∉ seen.*1).
  { intros ([i l] & -> & Hin)%list_elem_of_fmap. rewrite list_elem_of_In in Hin.
    assert (existsb (λ c, bool_decide (c.1 = (i, l).1)) seen = true) as Ht; [|simpl in *; congruence].
    apply existsb_exists. exists (i, l). split; [done|]. by apply bool_decide_eq_true. }
  case_bool_decide as Hnil; [by intros c (_ & _ & ? & _)|].
  destruct (Z.ltb_spec MAX_FALLBACK_ROUTES (Z.of_nat (length e.2))) as [Hlen|Hlen].
  { intros c (_ & _ & _ & ? & _). lia. }
  pose proof (check_targets_spec initial e.2 [] (NoDup_nil_2)) as Ht.
  destruct (check_targets _ _ _ _ _ _) as [[l []] ps].
  - destruct Ht as (-> & l' & -> & Hl'). exists (initial, l'). by repeat split; try apply Hl'.
  - destruct Ht as [Hps Hno]. destruct ps as [|p ps]; [done|].
    intros c ([= ->] & _ & _ & _ & Hc). by destruct (Hno c.2).
Qed.

Lemma targets_ok_inj initial targets l1 l2 :
  targets_ok initial [] targets l1 →
  targets_ok initial [] targets l2 → l1 = l2.
Proof.
  intros [H1 _] [H2 _]. revert l2 H2. induction H1 as [|t r ts l1 Hr _ IH]; intros l2 H2.
  - by inversion H2.
  - inversion H2 as [|? r' ? l2' Hr' Hl']; subst. unfold names_route in *.
    f_equal; [congruence|by apply IH].
Qed.

Lemma entry_ok_inj e c1 c2 : entry_ok e c1 → entry_ok e c2 → c1 = c2.
Proof.
  intros (H1 & _ & _ & _ & T1) (H2 & _ & _ & _ & T2). unfold names_route in *.
  destruct c1 as [i l1], c2 as [i2 l2]. simpl in *.
  assert (i = i2) as -> by congruence. f_equal. by eapply targets_ok_inj.
Qed.

Lemma section_ok_inj raw cs1 cs2 : section_ok raw cs1 → section_ok raw cs2 → cs1 = cs2.
Proof.
  intros [H1 _] [H2 _]. revert cs2 H2.
  induction H1 as [|e c raw cs1 He _ IH]; intros cs2 H2; inversion H2; subst; [done|].
  f_equal; [by eapply entry_ok_inj|by apply IH].
Qed.

Lemma check_entries_spec raw :
  match check_entries routes reachable classifier_routes raw with
  | (cs, []) => section_ok raw cs
  | (_, _ :: _) => ∀ cs, ¬ section_ok raw cs
  end.
Proof.
  induction raw as [|e raw IH] using rev_ind; [split; constructor|].
  unfold check_entries in *. rewrite foldl_app. simpl.
  revert IH. destruct (foldl _ _ raw) as [seen ps]. simpl. intros IH.
  pose proof (check_entry_spec seen e) as He.
  destruct (check_entry _ _ _ _ _ _) as [seen' ps'].
  destruct ps as [|p ps]; simpl; last first.
  { intros cs [Hf Hnd]. apply Forall2_app_inv_l in Hf as (cs1 & cs2 & Hf & _ & ->).
    rewrite fmap_app in Hnd. apply NoDup_app in Hnd as [Hnd _]. by apply (IH cs1). }
  destruct ps' as [|p' ps'].
  - destruct He as (c & Hc & Hnew & ->). destruct IH as [Hf Hnd]. split.
    + apply Forall2_app; [done|]. by constructor.
    + rewrite fmap_app. apply NoDup_app. split; [done|].
      split; [set_solver|apply NoDup_singleton].
  - intros cs [Hf Hnd]. apply Forall2_app_inv_l in Hf as (cs1 & cs2 & Hf & Hc & ->).
    rewrite fmap_app in Hnd. apply NoDup_app in Hnd as (Hnd & Hdis & _).
    assert (cs1 = seen) as -> by by eapply section_ok_inj.
    inversion Hc as [|? c ? ? Hce Hnil]; subst. inversion Hnil; subst.
    apply (Hdis c.1); [by apply He|]. csimpl. apply list_elem_of_here.
Qed.
End accepted.

(** The lists are keyed, so their order says nothing. *)
Lemma edges_Permutation cs1 cs2 n :
  cs1 ≡ₚ cs2 → NoDup (fst <$> cs1) → edges cs1 n = edges cs2 n.
Proof.
  intros Hp Hnd. assert (Hnd2 : NoDup (fst <$> cs2)) by by rewrite <-Hp.
  unfold edges. destruct (find_first (λ c, bool_decide (c.1 = n)) cs1) as [[i l]|] eqn:E1.
  - apply find_first_Some in E1 as [Hin Hi]. apply bool_decide_eq_true in Hi. simpl in Hi. subst i.
    rewrite Hp in Hin. by rewrite (find_first_key fst _ _ Hnd2 Hin).
  - destruct (find_first _ cs2) as [[i l]|] eqn:E2; [|done].
    apply find_first_Some in E2 as [Hin Hi]. rewrite <-Hp in Hin.
    destruct (find_first_is_Some (λ c, bool_decide (c.1 = n)) _ _ Hin Hi) as [? E]. congruence.
Qed.

(** A section of lists is accepted exactly when it is sound, and a request
    then follows what was written.  It is refused with a reason unless every
    entry names configured, concrete, answering routes, the initial ones are
    reachable by [Auto] and named once, each list holds one to three routes
    without its own or a repeated one, and no route reaches itself through the
    lists; accepted, the list of every route is the one in the file, in its
    order, and of every other route empty. *)
Theorem section_accepted_exactly `{LowerCase} raw routes reachable classifier_routes :
  match validate_fallback raw routes reachable classifier_routes with
  | Ok f => ∃ cs, section_ok routes reachable classifier_routes raw cs ∧ acyclic cs ∧
      ∀ route, chain f route = edges cs route
  | Err problems => problems ≠ [] ∧
      ∀ cs, section_ok routes reachable classifier_routes raw cs → ¬ acyclic cs
  end.
Proof.
  unfold validate_fallback. pose proof (check_entries_spec routes reachable classifier_routes raw) as Hc.
  destruct (check_entries _ _ _ _) as [cs problems]. pose proof (search_names cs) as Hs.
  unfold find_cycle. destruct problems as [|p ps].
  - destruct (search _ _ _ _) as [[steps|]|]; simpl; [..|done].
    + split; [done|]. intros cs' Hc'. rewrite (section_ok_inj _ _ _ _ _ _ Hc' Hc).
      by eapply is_cycle_not_acyclic.
    + exists cs. split; [done|]. split; [done|]. intros route. unfold chain. simpl.
      apply edges_Permutation; [apply sort_by_Permutation|]. rewrite sort_by_Permutation. apply Hc.
  - split; [done|]. intros cs' Hc'. by destruct (Hc cs').
Qed.
