(* ===== verification/Placement.v ===== *)
(** * Placement

    [crates/lightweight-router/src/placement.rs]: where each route's
    deployments stand against its target, the loads one pass of the controller
    starts, and the book of what became of them; and the pass itself,
    [reconcile] of [controller.rs].  The calls to the nodes are not modelled:
    how a load ends is an argument of the operation that records it. *)

From stdpp Require Import base gmap strings numbers list fin_sets.
From S2P Require Import Prelude Names Domain Health.

(** ** Where a deployment stands *)

Inductive DeploymentState :=
| Ready
| Loading
| Empty
| Occupied
| StateUnavailable (reason : UnavailableReason).

#[export] Instance DeploymentState_eq_dec : EqDecision DeploymentState.
Proof. solve_decision. Defined.

Inductive FailureReason :=
| ModelNotInstalled
| LoadRejected
| FailedNodeUnhealthy
| NodeBusy
| AdmissionFailed
| LoadTimeout
| ModelFailed.

(** [FailureReason::of_code]. *)
Definition of_code (code : str) : FailureReason :=
  if bool_decide (code ∈ [lit "insufficient_memory"; lit "memory_probe_failed"])
  then AdmissionFailed
  else if bool_decide (code ∈ [lit "model_operation_in_progress"; lit "drain_timed_out"])
  then NodeBusy
  else if bool_decide (code ∈ [lit "unknown_model"; lit "model_not_found";
                               lit "model_file_not_found"])
  then ModelNotInstalled
  else ModelFailed.

Record Action := mkAction {
  act_route : RouteName;
  act_deployment : DeploymentId;
  act_node : NodeId;
  act_model : str }.

(** Each deployment of the route, in configured order: itself, its node, where
    it stands and whether placement may load it. *)
Record Assessment := mkAssessment {
  as_route : RouteName;
  as_min_ready : u32;
  as_warm_standby : u32;
  as_deployments : list (DeploymentId * NodeId * DeploymentState * bool) }.

Definition state_of (row : DeploymentId * NodeId * DeploymentState * bool) : DeploymentState :=
  row.1.2.

(** [u32::try_from(count).unwrap_or(u32::MAX)]. *)
Definition count_state (a : Assessment) (state : DeploymentState) : u32 :=
  u32_or_max (Z.of_nat (count_if (fun row => bool_decide (state_of row = state))
                          (as_deployments a))).

Definition as_target (a : Assessment) : u32 := sat_add32 (as_min_ready a) (as_warm_standby a).
Definition ready (a : Assessment) : u32 := count_state a Ready.
Definition loading_count (a : Assessment) : u32 := count_state a Loading.
Definition standby (a : Assessment) : u32 := sat_sub (ready a) (as_min_ready a).
Definition shortfall (a : Assessment) : u32 :=
  sat_sub (sat_sub (as_target a) (ready a)) (loading_count a).

Inductive Standing := Satisfied | BelowTarget | BelowMin.

Definition assessment_status (a : Assessment) : Standing :=
  if as_target a <=? ready a then Satisfied
  else if as_min_ready a <=? ready a then BelowTarget
  else BelowMin.

Section planning.
Context `{LowerCase}.

(** The row of one deployment of a route. *)
Definition assess_one (t : Topology) (p : RoutePlacement) (health_of : gmap NodeId NodeStatus)
    (loading : gset DeploymentId) (id : DeploymentId)
    : option (DeploymentId * NodeId * DeploymentState * bool) :=
  let! deployment := find_deployment t id in
  let! node := find_node t (deployment_node deployment) in
  let status := default NodeStatus_default (health_of !! node_id node) in
  let state :=
    match availability node deployment status with
    | Available => Ready
    | Unavailable why =>
        if bool_decide (id ∈ loading) then Loading
        else match why with
             | ModelNotServed =>
                 match health status, status_served status with
                 | Healthy, None => Empty
                 | _, _ => Occupied
                 end
             | reason => StateUnavailable reason
             end
    end in
  Some (id, node_id node, state, bool_decide (id ∈ allowed p)).

Definition assess (t : Topology) (r : Route) (health_of : gmap NodeId NodeStatus)
    (loading : gset DeploymentId) : option Assessment :=
  let! p := placement r in
  Some (mkAssessment (route_name r) (min_ready p) (warm_standby p)
          (omap (assess_one t p health_of loading) (route_deployments r))).

(** The nodes a load in progress holds. *)
Definition claimed_by (t : Topology) (loading : gset DeploymentId) : gset NodeId :=
  list_to_set (omap (fun id => deployment_node <$> find_deployment t id) (elements loading)).

(** The loop over one route's rows: how many loads are still wanted, the nodes
    claimed and the actions so far. *)
Fixpoint plan_rows (t : Topology) (route : RouteName) (backing_off : DeploymentId → bool)
    (rows : list (DeploymentId * NodeId * DeploymentState * bool)) (wanted : u32)
    (claimed : gset NodeId) (actions : list Action) : gset NodeId * list Action :=
  match rows with
  | [] => (claimed, actions)
  | (id, node, state, allowed) :: rows =>
      if wanted =? 0 then (claimed, actions)
      else if negb allowed || negb (bool_decide (state = Empty)) || backing_off id
              || bool_decide (node ∈ claimed)
      then plan_rows t route backing_off rows wanted claimed actions
      else match find_deployment t id with
           | None => plan_rows t route backing_off rows wanted claimed actions
           | Some d =>
               plan_rows t route backing_off rows (wanted - 1) ({[node]} ∪ claimed)
                 (actions ++ [mkAction route id node (remote_model d)])
           end
  end.

Definition plan_route_step (t : Topology) (health_of : gmap NodeId NodeStatus)
    (loading : gset DeploymentId) (backing_off : DeploymentId → bool)
    (acc : gset NodeId * list Action) (r : Route) : gset NodeId * list Action :=
  match assess t r health_of loading with
  | None => acc
  | Some a =>
      plan_rows t (route_name r) backing_off (as_deployments a) (shortfall a) acc.1 acc.2
  end.

(** [placement::plan]. *)
Definition plan_loads (t : Topology) (health_of : gmap NodeId NodeStatus)
    (loading : gset DeploymentId) (backing_off : DeploymentId → bool) : list Action :=
  (foldl (plan_route_step t health_of loading backing_off) (claimed_by t loading, []) (routes t)).2.
End planning.

(** ** The book *)

Record LastAction := mkLast {
  la_action : str;
  la_result : str;
  la_reason : option FailureReason;
  la_code : option str;
  la_at : u64;
  la_duration_ms : u64 }.

Record PlacementRecord := mkRecord {
  loading_since : option Instant;
  last_action : option LastAction;
  failures : u32;
  retry_at : option Instant }.

(** [Record::default()]. *)
Definition PlacementRecord_default : PlacementRecord := mkRecord None None 0 None.

Record PlacementPolicy := mkPlacementPolicy {
  placement_interval : Duration;
  load_timeout : Duration;
  backoff : Duration;
  backoff_max : Duration }.

Record PlacementBook := mkPlacementBook {
  pb_policy : PlacementPolicy;
  records : gmap DeploymentId PlacementRecord;
  pb_last_pass : option SystemTime }.

Definition PlacementBook_new (p : PlacementPolicy) : PlacementBook := mkPlacementBook p ∅ None.

Definition set_record (b : PlacementBook) (id : DeploymentId) (r : PlacementRecord)
    : PlacementBook :=
  mkPlacementBook (pb_policy b) (<[id := r]> (records b)) (pb_last_pass b).

(** [records.entry(id).or_default()]. *)
Definition record_of (b : PlacementBook) (id : DeploymentId) : PlacementRecord :=
  default PlacementRecord_default (records b !! id).

(** [PlacementBook::loading]. *)
Definition loading_set (b : PlacementBook) : gset DeploymentId :=
  dom (filter (fun kv => is_Some (loading_since kv.2)) (records b)).

Definition backing_off (b : PlacementBook) (id : DeploymentId) (now : Instant) : bool :=
  match (let! r := records b !! id in retry_at r) with
  | Some retry => now <? retry
  | None => false
  end.

Definition begin_load (b : PlacementBook) (id : DeploymentId) (now : Instant)
    : bool * PlacementBook :=
  let r := record_of b id in
  if bool_decide (is_Some (loading_since r)) then (false, set_record b id r)
  else (true, set_record b id (mkRecord (Some now) (last_action r) (failures r) (retry_at r))).

Definition succeeded (b : PlacementBook) (id : DeploymentId) (last : LastAction) : PlacementBook :=
  set_record b id (mkRecord None (Some last) 0 None).

(** The longest [Duration]: [u64::MAX] seconds and 999,999,999 nanoseconds. *)
Definition DURATION_MAX : Duration := from_secs U64_MAX + 999999999.

Definition backoff_after (p : PlacementPolicy) (failures : u32) : Duration :=
  let doublings := Z.min (sat_sub failures 1) 20 in
  Z.min (Z.min (backoff p * Z.shiftl 1 doublings) DURATION_MAX) (backoff_max p).

Definition failed (b : PlacementBook) (id : DeploymentId) (last : LastAction) (now : Instant)
    : Duration * PlacementBook :=
  let failures := sat_add32 (failures (record_of b id)) 1 in
  let delay := backoff_after (pb_policy b) failures in
  (delay, set_record b id (mkRecord None (Some last) failures (Some (now + delay)))).

Definition abandon (b : PlacementBook) (id : DeploymentId) : PlacementBook :=
  match records b !! id with
  | Some r => set_record b id (mkRecord None (last_action r) (failures r) (retry_at r))
  | None => b
  end.

Definition passed (b : PlacementBook) (at_ : SystemTime) : PlacementBook :=
  mkPlacementBook (pb_policy b) (records b) (Some at_).

Record RecordView := mkRecordView {
  rv_loading_for : option Duration;
  rv_last : option LastAction;
  rv_failures : u32;
  rv_retry_in : option Duration }.

Definition view (b : PlacementBook) (id : DeploymentId) (now : Instant) : RecordView :=
  match records b !! id with
  | Some r =>
      mkRecordView (saturating_duration_since now <$> loading_since r) (last_action r) (failures r)
        (match retry_at r with
         | Some retry => if now <? retry then Some (saturating_duration_since retry now) else None
         | None => None
         end)
  | None => mkRecordView None None 0 None
  end.

(** [placement::configured]: the controller runs only then. *)
Definition placement_configured (t : Topology) : bool :=
  existsb (fun r => bool_decide (is_Some (placement r))) (routes t).

(** ** One pass of the controller *)

(** The loads that are begun, each in a task of its own. *)
Definition begin_all (b : PlacementBook) (actions : list Action) (now : Instant)
    : PlacementBook * list Action :=
  foldl (fun acc action =>
           let '(begun, b) := begin_load acc.1 (act_deployment action) now in
           (b, if begun then acc.2 ++ [action] else acc.2)) (b, []) actions.

Definition reconcile `{LowerCase} (t : Topology) (health_of : gmap NodeId NodeStatus)
    (b : PlacementBook) (started : Instant) (finished : SystemTime)
    : PlacementBook * list Action :=
  let actions := plan_loads t health_of (loading_set b) (fun id => backing_off b id started) in
  let '(b, spawned) := begin_all b actions started in
  (passed b finished, spawned).

(** ** What a pass plans *)

Abbreviation Row := (DeploymentId * NodeId * DeploymentState * bool)%type (only parsing).

(** What the loop over one route's rows adds. *)
Record RowPlan (t : Topology) (route : RouteName) (backing : DeploymentId → bool)
    (rows : list Row) (wanted : u32) (claimed : gset NodeId) (new : list Action) : Prop := {
  rp_nodup : NoDup (act_node <$> new);
  rp_fresh : ∀ a, a ∈ new → act_node a ∉ claimed;
  rp_bound : Z.of_nat (length new) ≤ wanted;
  rp_sound : ∀ a, a ∈ new → act_route a = route ∧ backing (act_deployment a) = false ∧
    (act_deployment a, act_node a, Empty, true) ∈ rows ∧
    ∃ d, find_deployment t (act_deployment a) = Some d ∧ act_model a = remote_model d;
  rp_full : Z.of_nat (length new) < wanted → ∀ id node,
    (id, node, Empty, true) ∈ rows → backing id = false → is_Some (find_deployment t id) →
    node ∈ list_to_set (act_node <$> new) ∪ claimed }.

Lemma plan_rows_spec t route backing rows wanted claimed actions :
  0 ≤ wanted →
  ∃ new, plan_rows t route backing rows wanted claimed actions =
           (list_to_set (act_node <$> new) ∪ claimed, actions ++ new) ∧
    RowPlan t route backing rows wanted claimed new.
Proof.
  revert wanted claimed actions.
  induction rows as [|[[[id node] state] allowed] rows IH]; intros wanted claimed actions Hw; simpl.
  { exists []. rewrite app_nil_r. split; [f_equal; set_solver|].
    split; simpl; try set_solver; lia || constructor. }
  assert (Hskip : (negb allowed || negb (bool_decide (state = Empty)) || backing id
                   || bool_decide (node ∈ claimed) = true ∨ find_deployment t id = None) →
    ∃ new, plan_rows t route backing rows wanted claimed actions =
             (list_to_set (act_node <$> new) ∪ claimed, actions ++ new) ∧
      RowPlan t route backing ((id, node, state, allowed) :: rows) wanted claimed new).
  { intros Hs. destruct (IH wanted claimed actions Hw) as (new & -> & HR). exists new.
    split; [done|]. destruct HR as [H1 H2 H3 H4 H5]. split; auto.
    - intros a Ha. destruct (H4 a Ha) as (? & ? & ? & ?). repeat split; auto.
      by apply list_elem_of_further.
    - intros Hlt i n [[= <- <- <- <-]|Hin]%elem_of_cons Hb Hd; [|by eapply H5].
      destruct Hs as [Hs|Hs]; [|by rewrite Hs in Hd; destruct Hd]. rewrite Hb in Hs.
      simpl in Hs. apply bool_decide_eq_true in Hs. set_solver. }
  destruct (Z.eqb_spec wanted 0) as [->|Hne].
  { exists []. rewrite app_nil_r. split; [f_equal; set_solver|].
    split; simpl; try set_solver; lia || constructor. }
  destruct (negb allowed || _ || _ || _) eqn:Hg; [apply Hskip; by left|].
  destruct (find_deployment t id) as [d|] eqn:Hd; [|apply Hskip; by right].
  apply orb_false_iff in Hg as [[[Ha Hs]%orb_false_iff Hb]%orb_false_iff Hc].
  apply negb_false_iff in Ha, Hs. apply bool_decide_eq_true in Hs. apply bool_decide_eq_false in Hc.
  subst allowed state.
  destruct (IH (wanted - 1) ({[node]} ∪ claimed) (actions ++ [mkAction route id node (remote_model d)])
              ltac:(lia)) as (new & -> & [H1 H2 H3 H4 H5]).
  exists (mkAction route id node (remote_model d) :: new). csimpl.
  rewrite <-app_assoc. split; [f_equal; set_solver|]. split; csimpl.
  - apply NoDup_cons. split; [|done]. intros (a & -> & Hin)%list_elem_of_fmap.
    apply (H2 a Hin). set_solver.
  - intros a [->|Hin]%elem_of_cons; [done|]. specialize (H2 a Hin). set_solver.
  - lia.
  - intros a [->|Hin]%elem_of_cons.
    + simpl. repeat split; [done|apply list_elem_of_here|by exists d].
    + destruct (H4 a Hin) as (? & ? & ? & ?). repeat split; auto. by apply list_elem_of_further.
  - intros Hlt i n [[= -> ->]|Hin]%elem_of_cons Hbi Hdi; [set_solver|].
    specialize (H5 ltac:(lia) i n Hin Hbi Hdi). set_solver.
Qed.

(** An empty row is a healthy, enabled node that serves nothing. *)
Lemma assess_empty `{LowerCase} t p hs ld (route_ids : list DeploymentId) id node allowed0 :
  (id, node, Empty, allowed0) ∈ omap (assess_one t p hs ld) route_ids →
  id ∈ route_ids ∧ (id ∉ ld) ∧ allowed0 = bool_decide (id ∈ allowed p) ∧
  ∃ d n, find_deployment t id = Some d ∧ find_node t (deployment_node d) = Some n ∧
    node = node_id n ∧ enabled n = true ∧
    health (default NodeStatus_default (hs !! node)) = Healthy ∧
    status_served (default NodeStatus_default (hs !! node)) = None.
Proof.
  intros (id' & Hin & Ho)%list_elem_of_omap. unfold assess_one in Ho.
  destruct (find_deployment t id') as [d|] eqn:Hd; simpl in Ho; [|done].
  destruct (find_node t (deployment_node d)) as [n|] eqn:Hn; simpl in Ho; [|done].
  destruct (availability n d _) as [|why] eqn:Hav; [by injection Ho|].
  case_bool_decide as Hl; [by injection Ho|].
  destruct why; [by injection Ho|by injection Ho|by injection Ho|].
  revert Ho. set (s := default NodeStatus_default (hs !! node_id n)) in *.
  unfold availability in Hav. destruct (enabled n) eqn:Hen; [|done]. simpl in Hav.
  destruct (health s) eqn:Hh; [done| |done].
  destruct (status_served s) eqn:Hs; [done|]. intros [= <- <- <-].
  repeat split; auto. exists d, n. repeat split; auto.
Qed.

Section plan.
Context `{LowerCase} (t : Topology) (hs : gmap NodeId NodeStatus) (ld : gset DeploymentId)
  (backing : DeploymentId → bool).

Definition actions_of (route : RouteName) (actions : list Action) : list Action :=
  filter (λ a, act_route a = route) actions.

(** A load the plan may start: of a route with a target, on a deployment it
    allows, whose node is up and serving nothing, with no load and no backoff
    of its own, under the node's own name for the model. *)
Definition loadable (a : Action) : Prop :=
  (act_node a ∉ claimed_by t ld) ∧ (act_deployment a ∉ ld) ∧ backing (act_deployment a) = false ∧
  ∃ r p d n, r ∈ routes t ∧ placement r = Some p ∧ route_name r = act_route a ∧
    act_deployment a ∈ route_deployments r ∧ act_deployment a ∈ allowed p ∧
    find_deployment t (act_deployment a) = Some d ∧ act_model a = remote_model d ∧
    find_node t (deployment_node d) = Some n ∧ act_node a = node_id n ∧ enabled n = true ∧
    health (default NodeStatus_default (hs !! act_node a)) = Healthy ∧
    status_served (default NodeStatus_default (hs !! act_node a)) = None.

(** The state of the loop over the routes [rs] done so far. *)
Record Planned (rs : list Route) (acc : gset NodeId * list Action) : Prop := {
  pl_claimed : acc.1 = list_to_set (act_node <$> acc.2) ∪ claimed_by t ld;
  pl_nodup : NoDup (act_node <$> acc.2);
  pl_loadable : ∀ a, a ∈ acc.2 → loadable a;
  pl_routes : ∀ a, a ∈ acc.2 → act_route a ∈ route_name <$> rs;
  pl_count : ∀ r a, r ∈ rs → assess t r hs ld = Some a →
    let mine := actions_of (route_name r) acc.2 in
    Z.of_nat (length mine) ≤ shortfall a ∧
    (Z.of_nat (length mine) < shortfall a → ∀ id node,
       (id, node, Empty, true) ∈ as_deployments a → backing id = false →
       node ∈ list_to_set (act_node <$> acc.2) ∪ claimed_by t ld) }.

Lemma actions_of_other route actions :
  (∀ a, a ∈ actions → act_route a ≠ route) → actions_of route actions = [].
Proof.
  intros Hn. unfold actions_of. induction actions as [|a l IH]; [done|].
  rewrite filter_cons_False; [apply IH; set_solver|]. apply Hn, list_elem_of_here.
Qed.

Lemma actions_of_all route actions :
  (∀ a, a ∈ actions → act_route a = route) → actions_of route actions = actions.
Proof.
  intros Hn. unfold actions_of. induction actions as [|a l IH]; [done|].
  rewrite filter_cons_True by (apply Hn, list_elem_of_here). f_equal. apply IH. set_solver.
Qed.

Lemma shortfall_nonneg a : 0 ≤ shortfall a.
Proof. unfold shortfall, sat_sub. lia. Qed.

Lemma Planned_step rs r acc :
  r ∈ routes t → NoDup (route_name <$> (rs ++ [r])) → Planned rs acc →
  Planned (rs ++ [r]) (plan_route_step t hs ld backing acc r).
Proof.
  intros Hr Hnd [Hc Hn Hl Hrt Hcount]. unfold plan_route_step.
  rewrite fmap_app in Hnd. apply NoDup_app in Hnd as (_ & Hdis & _).
  assert (Hold : ∀ r', r' ∈ rs → route_name r' ≠ route_name r).
  { intros r' Hr' Heq. apply (Hdis (route_name r')); [by apply list_elem_of_fmap_2|].
    rewrite Heq. apply list_elem_of_here. }
  destruct (assess t r hs ld) as [a|] eqn:Ha; last first.
  { split; auto; [intros x Hx; rewrite fmap_app; set_solver|].
    intros r' a' [Hin | ->%list_elem_of_singleton]%elem_of_app Ha'; [by apply Hcount|congruence]. }
  destruct (plan_rows_spec t (route_name r) backing (as_deployments a) (shortfall a) acc.1 acc.2
              (shortfall_nonneg a)) as (new & -> & HR).
  destruct HR as [Hnew Hfresh Hbound Hsound Hfull]. rewrite Hc in *.
  assert (Hnames : ∀ x, x ∈ new → act_route x = route_name r) by (intros x Hx; by apply Hsound).
  assert (Hold2 : ∀ x, x ∈ acc.2 → act_route x ≠ route_name r).
  { intros x (r' & -> & Hr')%Hrt%list_elem_of_fmap. by apply Hold. }
  unfold assess in Ha. destruct (placement r) as [p|] eqn:Hp; simpl in Ha; [|done].
  injection Ha as <-. simpl in *.
  split; simpl.
  - rewrite fmap_app, list_to_set_app_L. set_solver.
  - rewrite fmap_app. apply NoDup_app. split; [done|]. split; [|done].
    intros node H1 (x & -> & Hx)%list_elem_of_fmap. specialize (Hfresh x Hx). set_solver.
  - intros x [Hx|Hx]%elem_of_app; [by apply Hl|].
    destruct (Hsound x Hx) as (Hxr & Hb & Hrow & d & Hd & Hm).
    apply assess_empty in Hrow as (Hin & Hnl & Hal & d' & n & Hd' & Hn' & Hnode & Hrest).
    assert (d' = d) as -> by congruence.
    split; [specialize (Hfresh x Hx); set_solver|]. split; [done|]. split; [done|].
    exists r, p, d, n. symmetry in Hal. apply bool_decide_eq_true in Hal.
    by repeat split; try apply Hrest.
  - intros x. rewrite fmap_app. intros [Hx|Hx]%elem_of_app; [set_solver|].
    rewrite (Hnames x Hx). set_solver.
  - intros r' a' Hr' Ha'. unfold actions_of. rewrite filter_app.
    fold (actions_of (route_name r') acc.2) (actions_of (route_name r') new).
    rewrite fmap_app, list_to_set_app_L.
    apply elem_of_app in Hr' as [Hr' | ->%list_elem_of_singleton].
    + rewrite (actions_of_other _ new), app_nil_r.
      * destruct (Hcount r' a' Hr' Ha') as [H1 H2]. split; [done|]. intros Hlt id node Hrow Hb.
        specialize (H2 Hlt id node Hrow Hb). set_solver.
      * intros x Hx. rewrite (Hnames x Hx). intros Heq. by apply (Hold r').
    + rewrite (actions_of_other _ acc.2), (actions_of_all _ new) by done. simpl.
      unfold assess in Ha'. rewrite Hp in Ha'. injection Ha' as <-. split; [done|].
      intros Hlt id node Hrow Hb. pose proof Hrow as Hrow'.
      apply assess_empty in Hrow' as (_ & _ & _ & d & _ & Hd & _).
      specialize (Hfull Hlt id node Hrow Hb ltac:(by rewrite Hd)). set_solver.
Qed.

Lemma plan_loads_planned :
  NoDup (route_name <$> routes t) →
  Planned (routes t) (foldl (plan_route_step t hs ld backing) (claimed_by t ld, []) (routes t)).
Proof.
  intros Hnd.
  assert (Hgen : ∀ rs rest, routes t = rs ++ rest →
    Planned rs (foldl (plan_route_step t hs ld backing) (claimed_by t ld, []) rs));
    [|by apply (Hgen _ []); rewrite app_nil_r].
  intros rs. induction rs as [|r rs IH] using rev_ind; intros rest Heq.
  { split; simpl; try set_solver; constructor. }
  rewrite foldl_app. simpl. rewrite <-app_assoc in Heq.
  apply Planned_step; [rewrite Heq; set_solver| |by eapply IH].
  rewrite Heq in Hnd. rewrite (assoc_L (++)) in Hnd. rewrite fmap_app in Hnd.
  by apply NoDup_app in Hnd as [? _].
Qed.
End plan.

(** The validated names of routes are distinct. *)
Lemma wf_route_names `{LowerCase} t : WellFormed t → NoDup (route_name <$> routes t).
Proof.
  intros HW. pose proof (wf_routes _ HW) as Hnd. revert Hnd.
  induction (routes t) as [|r rs IH]; csimpl; [constructor|].
  intros [Hr Hrs]%NoDup_cons. apply NoDup_cons. split; [|by apply IH].
  intros (r' & Heq & Hin)%list_elem_of_fmap. apply Hr. rewrite Heq.
  by apply (list_elem_of_fmap_2 (λ r, lookup_key (route_str (route_name r)))).
Qed.

(** One pass prepares each route exactly as far as it is short of its
    target.  It starts only loads that are allowed, on nodes that are up and
    serving nothing, never a second one on a node, never more for a route than
    its shortfall; and it stops short only when every node that could have
    taken one is already taking one. *)
Theorem placement_plan_exact `{LowerCase} t hs ld backing :
  WellFormed t →
  let plan := plan_loads t hs ld backing in
  NoDup (act_node <$> plan) ∧
  (∀ a, a ∈ plan → loadable t hs ld backing a) ∧
  ∀ r a, r ∈ routes t → assess t r hs ld = Some a →
    let mine := actions_of (route_name r) plan in
    Z.of_nat (length mine) ≤ shortfall a ∧
    (Z.of_nat (length mine) < shortfall a → ∀ id node,
       (id, node, Empty, true) ∈ as_deployments a → backing id = false →
       node ∈ claimed_by t ld ∨ node ∈ act_node <$> plan).
Proof.
  intros HW plan.
  destruct (plan_loads_planned t hs ld backing (wf_route_names t HW)) as [_ H2 H3 _ H5].
  split; [done|]. split; [done|]. intros r a Hr Ha. destruct (H5 r a Hr Ha) as [H6 H7].
  split; [done|]. intros Hlt id node Hrow Hb. specialize (H7 Hlt id node Hrow Hb).
  unfold plan, plan_loads. set_solver.
Qed.

(** ** The controller over time *)

Lemma elem_of_loading_set b id :
  id ∈ loading_set b ↔ ∃ r, records b !! id = Some r ∧ is_Some (loading_since r).
Proof.
  unfold loading_set. rewrite elem_of_dom. split.
  - intros [r Hr]. apply map_lookup_filter_Some in Hr. eauto.
  - intros (r & Hr & Hl). exists r. by apply map_lookup_filter_Some.
Qed.

Lemma loading_set_record b id r id' :
  id' ∈ loading_set (set_record b id r) ↔
  if decide (id' = id) then is_Some (loading_since r) else id' ∈ loading_set b.
Proof.
  rewrite elem_of_loading_set. simpl. case_decide as Hid.
  - subst. rewrite lookup_insert_eq. naive_solver.
  - rewrite lookup_insert_ne by congruence. by rewrite elem_of_loading_set.
Qed.

(** Every action the plan gives is begun, and nothing else. *)
Lemma begin_all_spec b actions now :
  NoDup (act_deployment <$> actions) →
  (∀ a, a ∈ actions → act_deployment a ∉ loading_set b) →
  (begin_all b actions now).2 = actions ∧
  ∀ id, id ∈ loading_set (begin_all b actions now).1 ↔
        id ∈ loading_set b ∨ id ∈ act_deployment <$> actions.
Proof.
  intros Hnd Hfresh. unfold begin_all.
  induction actions as [|a actions IH] using rev_ind; [set_solver|].
  rewrite foldl_app. simpl. rewrite fmap_app in Hnd. apply NoDup_app in Hnd as (Hnd & Hdis & _).
  destruct IH as [IH1 IH2]; [done|set_solver|].
  destruct (foldl _ (b, []) actions) as [b1 spawned]. simpl in *. subst spawned.
  assert (Hnot : act_deployment a ∉ loading_set b1).
  { rewrite IH2. intros [Hin|Hin]; [by apply (Hfresh a); [set_solver|]|].
    apply (Hdis _ Hin). apply list_elem_of_here. }
  unfold begin_load. rewrite bool_decide_eq_false_2; simpl.
  - split; [done|]. intros id. rewrite loading_set_record, fmap_app, elem_of_app. simpl.
    case_decide as Hid; [|rewrite IH2; set_solver].
    subst. split; [|by eauto]. intros _. right. right. apply list_elem_of_here.
  - intros Hl. apply Hnot. apply elem_of_loading_set. unfold record_of in Hl.
    destruct (records b1 !! act_deployment a) as [r|] eqn:E; [by exists r|by destruct Hl].
Qed.

(** What the controller and its tasks do to the book, in any order. *)
Inductive ctl_step `{LowerCase} (t : Topology) : PlacementBook → PlacementBook → Prop :=
| ctl_reconcile b hs started finished : ctl_step t b (reconcile t hs b started finished).1
| ctl_succeeded b id last : ctl_step t b (succeeded b id last)
| ctl_failed b id last now : ctl_step t b (failed b id last now).2
| ctl_abandon b id : ctl_step t b (abandon b id).

Definition one_per_node (t : Topology) (ld : gset DeploymentId) : Prop :=
  ∀ id1 id2 d1 d2, id1 ∈ ld → id2 ∈ ld →
    find_deployment t id1 = Some d1 → find_deployment t id2 = Some d2 →
    deployment_node d1 = deployment_node d2 → id1 = id2.

Lemma one_per_node_subset t ld1 ld2 : ld1 ⊆ ld2 → one_per_node t ld2 → one_per_node t ld1.
Proof. intros Hs H1 id1 id2 d1 d2 ? ?. apply H1; set_solver. Qed.

Section controller.
Context `{LowerCase} (t : Topology) (HW : WellFormed t).

Lemma loadable_node hs ld backing a :
  loadable t hs ld backing a →
  ∃ d, find_deployment t (act_deployment a) = Some d ∧ act_node a = deployment_node d.
Proof.
  intros (_ & _ & _ & r & p & d & n & _ & _ & _ & _ & _ & Hd & _ & Hn & Hnode & _).
  exists d. split; [done|]. rewrite Hnode. by apply find_node_Some in Hn as [_ ->].
Qed.

Lemma claimed_by_loading ld id d :
  id ∈ ld → find_deployment t id = Some d → deployment_node d ∈ claimed_by t ld.
Proof.
  intros Hin Hd. unfold claimed_by. apply elem_of_list_to_set, list_elem_of_omap.
  exists id. rewrite elem_of_elements. split; [done|]. by rewrite Hd.
Qed.

Lemma plan_deployments_nodup hs ld backing : NoDup (act_deployment <$> plan_loads t hs ld backing).
Proof.
  destruct (plan_loads_planned t hs ld backing (wf_route_names t HW)) as [_ Hnd Hl _ _].
  unfold plan_loads. set (actions := (foldl _ _ _).2) in *. clearbody actions.
  induction actions as [|a actions IH]; [constructor|]. csimpl in *.
  apply NoDup_cons in Hnd as [Ha Hnd]. apply NoDup_cons. split; [|apply IH; set_solver].
  intros (a' & Heq & Hin)%list_elem_of_fmap. apply Ha.
  destruct (loadable_node _ _ _ a (Hl a (list_elem_of_here _ _))) as (d & Hd & Hnode).
  destruct (loadable_node _ _ _ a' (Hl a' (list_elem_of_further _ _ _ Hin))) as (d' & Hd' & Hnode').
  rewrite Heq in Hd. assert (d = d') as -> by congruence.
  rewrite Hnode, <-Hnode'. by apply list_elem_of_fmap_2.
Qed.

Lemma reconcile_spec b hs started finished :
  let plan := plan_loads t hs (loading_set b) (λ id, backing_off b id started) in
  (reconcile t hs b started finished).2 = plan ∧
  ∀ id, id ∈ loading_set (reconcile t hs b started finished).1 ↔
        id ∈ loading_set b ∨ id ∈ act_deployment <$> plan.
Proof.
  intros plan. unfold reconcile. fold plan.
  destruct (plan_loads_planned t hs (loading_set b) (λ id, backing_off b id started)
              (wf_route_names t HW)) as [_ _ Hl _ _].
  destruct (begin_all_spec b plan started) as [H1 H2].
  - apply plan_deployments_nodup.
  - intros a Ha. by apply (Hl a Ha).
  - destruct (begin_all b plan started) as [b1 spawned]. simpl in *. by subst.
Qed.

Lemma one_per_node_step b b' :
  ctl_step t b b' → one_per_node t (loading_set b) → one_per_node t (loading_set b').
Proof.
  assert (Hdrop : ∀ b id r, loading_since r = None → one_per_node t (loading_set b) →
    one_per_node t (loading_set (set_record b id r))).
  { intros b0 id r Hr. apply one_per_node_subset. intros id'. rewrite loading_set_record.
    case_decide; [|done]. rewrite Hr. by intros [? ?]. }
  destruct 1 as [b hs started finished|b id last|b id last now|b id]; intros H1;
    [|by apply Hdrop..|unfold abandon; case_match; [by apply Hdrop|done]].
  destruct (reconcile_spec b hs started finished) as [_ Hld].
  destruct (plan_loads_planned t hs (loading_set b) (λ id, backing_off b id started)
              (wf_route_names t HW)) as [_ Hnd Hl _ _].
  fold (plan_loads t hs (loading_set b) (λ id, backing_off b id started)) in Hnd, Hl.
  set (plan := plan_loads _ _ _ _) in *. clearbody plan.
  assert (Hnew : ∀ id d, id ∈ act_deployment <$> plan → find_deployment t id = Some d →
    ∃ a, a ∈ plan ∧ act_deployment a = id ∧ act_node a = deployment_node d ∧
      (deployment_node d ∉ claimed_by t (loading_set b))).
  { intros id d (a & -> & Hin)%list_elem_of_fmap Hd. exists a.
    destruct (loadable_node _ _ _ a (Hl a Hin)) as (d' & Hd' & Hnode).
    assert (d' = d) as -> by congruence. repeat split; auto. rewrite <-Hnode. by apply (Hl a Hin). }
  intros id1 id2 d1 d2 [I1|I1]%Hld [I2|I2]%Hld D1 D2 Hnode.
  - by eapply H1.
  - destruct (Hnew id2 d2 I2 D2) as (_ & _ & _ & _ & []). rewrite <-Hnode.
    by eapply claimed_by_loading.
  - destruct (Hnew id1 d1 I1 D1) as (_ & _ & _ & _ & []). rewrite Hnode.
    by eapply claimed_by_loading.
  - destruct (Hnew id1 d1 I1 D1) as (a1 & A1 & <- & N1 & _).
    destruct (Hnew id2 d2 I2 D2) as (a2 & A2 & <- & N2 & _).
    pose proof (find_first_key act_node plan a1 Hnd A1) as F1.
    pose proof (find_first_key act_node plan a2 Hnd A2) as F2.
    rewrite N1, Hnode, <-N2 in F1. congruence.
Qed.
End controller.

(** A node is never asked to do two things at once.  In every state the
    controller and its load tasks can reach, at most one deployment of a node
    is loading; and every load a pass decides on is begun in that pass, and is
    what the pass adds to the loads in progress. *)
Theorem one_load_per_node `{LowerCase} t p b :
  WellFormed t → rtc (ctl_step t) (PlacementBook_new p) b →
  one_per_node t (loading_set b) ∧
  ∀ hs started finished,
    let plan := plan_loads t hs (loading_set b) (λ id, backing_off b id started) in
    (reconcile t hs b started finished).2 = plan ∧
    ∀ id, id ∈ loading_set (reconcile t hs b started finished).1 ↔
          id ∈ loading_set b ∨ id ∈ act_deployment <$> plan.
Proof.
  intros HW Hr. split; [|by apply reconcile_spec].
  assert (H0 : one_per_node t (loading_set (PlacementBook_new p))).
  { intros id1 id2 d1 d2 (r & Hr1 & _)%elem_of_loading_set. simpl in Hr1.
    by rewrite lookup_empty in Hr1. }
  revert H0. induction Hr as [|b1 b2 b3 Hs _ IH]; [done|].
  intros H1. apply IH. by eapply one_per_node_step.
Qed.

(** The waits of consecutive failures. *)
Lemma backoff_after_exact p n :
  0 ≤ backoff p → backoff_max p ≤ DURATION_MAX → 0 ≤ n →
  backoff_after p (n + 1) = Z.min (backoff p * 2 ^ Z.min n 20) (backoff_max p).
Proof.
  intros Hb Hm Hn. unfold backoff_after, sat_sub.
  rewrite Z.shiftl_mul_pow2 by lia. rewrite Z.mul_1_l.
  replace (Z.max (n + 1 - 1) 0) with n by lia. lia.
Qed.

(** A failing deployment is left alone for longer and longer.  After the
    (n+1)-th failure in a row the wait is the configured one doubled n times,
    twenty at most, and never more than the configured maximum; and until it
    is over no pass starts a load there, whatever the health book says. *)
Theorem failure_backs_off `{LowerCase} t b id last now n delay b' :
  WellFormed t → 0 ≤ backoff (pb_policy b) → backoff_max (pb_policy b) ≤ DURATION_MAX →
  failures (record_of b id) = n → 0 ≤ n < U32_MAX →
  failed b id last now = (delay, b') →
  delay = Z.min (backoff (pb_policy b) * 2 ^ Z.min n 20) (backoff_max (pb_policy b)) ∧
  ∀ hs started finished a, started < now + delay →
    a ∈ (reconcile t hs b' started finished).2 → act_deployment a ≠ id.
Proof.
  intros HW Hb Hm Hn Hr Hf. unfold failed in Hf. rewrite Hn in Hf. unfold sat_add32 in Hf.
  rewrite Z.min_l in Hf by lia. injection Hf as Hdelay <-.
  split; [by rewrite <-Hdelay, backoff_after_exact by lia|].
  set (b' := set_record b id _). intros hs started finished a Hlt Hin Heq.
  rewrite (proj1 (reconcile_spec t HW _ _ _ _)) in Hin.
  destruct (plan_loads_planned t hs (loading_set b') (λ id, backing_off b' id started)
    (wf_route_names t HW)) as [_ _ Hl _ _].
  destruct (Hl a Hin) as (_ & _ & Hback & _). unfold backing_off in Hback. rewrite Heq in Hback.
  unfold b' in Hback. simpl in Hback. rewrite lookup_insert_eq in Hback. simpl in Hback. lia.
Qed.

(** ** A pass over two idle nodes, for concrete examples *)

Definition demo_placement : option RoutePlacement := Some (mkPlacement 1 0 [on_laptop; on_tower]).

(** Both nodes are up and serve nothing. *)
Definition idle : NodeStatus :=
  mkStatus Healthy 0 None None None
    (Some (mkObservation None CapabilitySet_none 1 (lit "0.4.0"))).
Definition both_idle : gmap NodeId NodeStatus := {[laptop := idle; tower := idle]}.

Definition demo_loads : PlacementPolicy :=
  mkPlacementPolicy (from_secs 30) (from_secs 600) (from_secs 60) (from_secs 3600).

Definition idle_plan : list Action :=
  @plan_loads ascii_case (placed_topology Priority demo_placement) both_idle ∅ (λ _, false).

(** One deployment is wanted, so one load is planned, of the first one. *)
Lemma placement_plan_exact_witness :
  idle_plan = [mkAction (mkRouteName (lit "Coder")) on_laptop laptop (lit "Qwen")] ∧
  NoDup (act_node <$> idle_plan) ∧
  Z.of_nat (length (actions_of (mkRouteName (lit "Coder")) idle_plan)) ≤ 1.
Proof.
  destruct (@placement_plan_exact ascii_case (placed_topology Priority demo_placement) both_idle ∅
    (λ _, false) (placed_wf _ _)) as (H1 & _ & H2).
  split; [vm_compute; reflexivity|]. split; [exact H1|].
  exact (proj1 (H2 (placed_route Priority demo_placement) _ (list_elem_of_here _ _) eq_refl)).
Defined.

(** After the pass one load is in progress. *)
Lemma one_load_per_node_witness :
  let b := PlacementBook_new demo_loads in
  let t := placed_topology Priority demo_placement in
  let b' := (@reconcile ascii_case t both_idle b 0 0).1 in
  one_per_node t (loading_set b') ∧ loading_set b' = {[on_laptop]}.
Proof.
  split; [|vm_compute; reflexivity].
  apply (@one_load_per_node ascii_case (placed_topology Priority demo_placement) demo_loads _
    (placed_wf _ _)).
  apply rtc_once, ctl_reconcile.
Defined.

(** The second failure in a row waits twice the configured minute. *)
Lemma failure_backs_off_witness :
  let last := mkLast (lit "load") (lit "failed") (Some AdmissionFailed) None 0 0 in
  let b := (failed (PlacementBook_new demo_loads) on_laptop last 0).2 in
  (failed b on_laptop last (from_secs 100)).1 = from_secs 120.
Proof.
  intros last b.
  destruct (failed b on_laptop last (from_secs 100)) as [delay b'] eqn:E.
  rewrite (proj1 (@failure_backs_off ascii_case (placed_topology Priority demo_placement) b on_laptop
    last (from_secs 100) 1 delay b' (placed_wf _ _) ltac:(vm_compute; discriminate)
    ltac:(vm_compute; discriminate) eq_refl ltac:(unfold U32_MAX; lia) E)).
  vm_compute. reflexivity.
Defined.
