(* ===== verification/Budget.v ===== *)
(** * The pre-commit request budget

    [crates/lightweight-router/src/budget.rs]: one absolute deadline per
    client request.  [Instant::now()] is an argument. *)

From stdpp Require Import base strings numbers list.
From S2P Require Import Prelude Names.

Definition MIN_BUDGET_MS : u64 := 1000.
Definition MAX_BUDGET_MS : u64 := 3600000.

Record RequestBudget := mkBudget {
  deadline : Instant;
  configured : Duration;
  started : Instant }.

(** [RequestBudget::start]. *)
Definition budget_start (configured : Duration) (now : Instant) : RequestBudget :=
  mkBudget (now + configured) configured now.

Definition remaining_at (b : RequestBudget) (now : Instant) : Duration :=
  saturating_duration_since (deadline b) now.

(** [RequestBudget::expired]: equality counts. *)
Definition expired_at (b : RequestBudget) (now : Instant) : bool := deadline b <=? now.

Definition elapsed_at (b : RequestBudget) (now : Instant) : Duration :=
  saturating_duration_since now (started b).

(** [budget::expired]: no budget never refuses. *)
Definition budget_expired (b : option RequestBudget) (now : Instant) : bool :=
  match b with Some b => expired_at b now | None => false end.

(** What an operation is when it is last polled. *)
Inductive Polled (A : Type) := Done (a : A) | Pending.
Arguments Done {A} a.
Arguments Pending {A}.

(** [bound] polled at [now]: [timeout_at] polls the operation first, so a
    result that is ready is the result; then the deadline cuts it.  [None] is
    still waiting. *)
Inductive Bound (A : Type) := Completed (a : A) | Cut.
Arguments Completed {A} a.
Arguments Cut {A}.

Definition bound {A} (b : option RequestBudget) (now : Instant) (op : Polled A)
    : option (Bound A) :=
  match op with
  | Done a => Some (Completed a)
  | Pending => if budget_expired b now then Some Cut else None
  end.

Inductive Stage := StageClassifier | StageRoutePlanning | StageSameRoute | StageCrossRoute.

Definition stage_str (s : Stage) : str :=
  match s with
  | StageClassifier => lit "classifier"
  | StageRoutePlanning => lit "route_planning"
  | StageSameRoute => lit "same_route_attempt"
  | StageCrossRoute => lit "cross_route_fallback"
  end.

(** ** The budget in a trace *)

(** [u64::try_from(as_millis()).unwrap_or(u64::MAX)]. *)
Definition ms (d : Duration) : u64 := Z.min (d / 1000000) U64_MAX.

Record BudgetTrace := mkBudgetTrace {
  configured_ms : u64;
  elapsed_before_commit_ms : option u64;
  remaining_at_commit_ms : option u64;
  elapsed_ms : option u64;
  remaining_ms : option u64;
  exhausted : bool;
  bt_stage : option Stage;
  next_unattempted_route : option str }.

Definition trace_committed (b : RequestBudget) (now : Instant) : BudgetTrace :=
  mkBudgetTrace (ms (configured b)) (Some (ms (elapsed_at b now))) (Some (ms (remaining_at b now)))
    None None false None None.

Definition trace_ended (b : RequestBudget) (now : Instant) : BudgetTrace :=
  mkBudgetTrace (ms (configured b)) None None (Some (ms (elapsed_at b now)))
    (Some (ms (remaining_at b now))) false None None.

Definition trace_exhausted (b : RequestBudget) (now : Instant) (stage : Stage)
    (next : option str) : BudgetTrace :=
  let t := trace_ended b now in
  mkBudgetTrace (configured_ms t) None None (elapsed_ms t) (remaining_ms t) true (Some stage) next.
