(* ===== verification/Classifier.v ===== *)
(** * Classifying a request

    [crates/lightweight-router/src/classifier/]: what a provider may answer,
    how its answer is read and bounded, and the route a classification
    resolves a request to.  Asking a provider is a network call: what came of
    it by the time the wait ended is an argument of [classify].

    JSON is the class [Json], with [Value::as_f64] in [JsonNumbers]. *)

From stdpp Require Import base gmap strings numbers list.
From Stdlib Require Import SpecFloat.
From S2P Require Import Prelude Names Domain Capability Utf8 Float64 Rewriter Fallback Budget.

(** ** Providers and their bounds *)

Definition MAX_TIMEOUT_MS : u64 := 120000.
Definition DEFAULT_MIN_CONFIDENCE : f64 := f64_div (f64_of 65) (f64_of 100).
Definition DEFAULT_MAX_INPUT_CHARS : usize := 2000.
Definition MAX_INPUT_CHARS : usize := 32000.
Definition MAX_CANDIDATES : usize := 16.
Definition MAX_DESCRIPTION_CHARS : usize := 200.

Inductive ProviderKind := KindLightweight | KindJev.

Record RouteCandidate := mkRouteCandidate {
  rc_route : RouteName;
  rc_description : option str }.

Record Limits := mkLimits {
  timeout : Duration;
  min_confidence : f64;
  max_input_chars : usize }.

Record LightweightClassifier := mkLightweight {
  lw_route : RouteName;
  lw_limits : Limits }.

Inductive KeySource := FromEnvironment | FromCredentialStore | KeyMissing.

Record JevClassifier := mkJev {
  jev_base_url : str;
  jev_api_key_env : str;
  jev_key : option Secret;
  jev_key_source : KeySource;
  jev_model : str;
  jev_limits : Limits;
  jev_include_user_text : bool }.

Inductive ClassifierProvider :=
| ProviderLightweight (l : LightweightClassifier)
| ProviderJev (j : JevClassifier).

Definition provider_kind (p : ClassifierProvider) : ProviderKind :=
  match p with ProviderLightweight _ => KindLightweight | ProviderJev _ => KindJev end.
Definition provider_limits (p : ClassifierProvider) : Limits :=
  match p with ProviderLightweight l => lw_limits l | ProviderJev j => jev_limits j end.
Definition provider_route (p : ClassifierProvider) : option RouteName :=
  match p with ProviderLightweight l => Some (lw_route l) | ProviderJev _ => None end.
Definition provider_model (p : ClassifierProvider) : option str :=
  match p with ProviderLightweight _ => None | ProviderJev j => Some (jev_model j) end.

Record RouteClassifier := mkClassifier {
  classifier_candidates : list RouteCandidate;
  classifier_fallback : RouteName;
  provider : ClassifierProvider;
  standby : option ClassifierProvider }.

Definition classifier_limits (c : RouteClassifier) : Limits := provider_limits (provider c).

(** ** Outcomes *)

Inductive ClassifierOutcome :=
| Chosen
| LowConfidence
| Invalid
| ClassifierUnavailable
| Timeout
| AuthError
| RateLimited
| ConnectionError
| ProviderError
| Nested
| RequestBudgetExhausted.

#[export] Instance ClassifierOutcome_eq_dec : EqDecision ClassifierOutcome.
Proof. solve_decision. Defined.

Definition provider_answered (o : ClassifierOutcome) : bool :=
  match o with Chosen | LowConfidence => true | _ => false end.

Record Verdict := mkVerdict {
  verdict_route : RouteName;
  confidence : f64;
  verdict_model : option str }.

(** The measured duration is left out. *)
Record Classification := mkClassification {
  cl_provider : ProviderKind;
  cl_outcome : ClassifierOutcome;
  cl_verdict : option Verdict;
  cl_request_id : str;
  cl_input_truncated : bool }.

(** [Classification::route]. *)
Definition classified_route (c : Classification) (k : RouteClassifier) : RouteName :=
  match cl_verdict c, cl_outcome c with
  | Some v, Chosen => verdict_route v
  | _, _ => classifier_fallback k
  end.

Definition Classification_nested (p : ProviderKind) : Classification :=
  mkClassification p Nested None [] false.

(** ** What a provider is told *)

Inductive MessageRole := RoleSystem | RoleUser | RoleAssistant | RoleTool.

#[export] Instance MessageRole_eq_dec : EqDecision MessageRole.
Proof. solve_decision. Defined.

(** The first [max_chars] characters, and whether anything was cut. *)
Definition truncate (text : str) (max_chars : usize) : str * bool :=
  if max_chars <? Z.of_nat (length text) then (take (Z.to_nat max_chars) text, true)
  else (text, false).

(** The last user message, or the last message. *)
Definition last_user_text (messages : list (MessageRole * str)) : str :=
  let backwards := reverse messages in
  match find_first (fun m => bool_decide (m.1 = RoleUser)) backwards with
  | Some m => m.2
  | None => match backwards with m :: _ => m.2 | [] => [] end
  end.

Record ClassificationInput := mkInput {
  in_endpoint : Endpoint;
  in_tools : bool;
  in_tool_choice : ToolChoiceRequirement;
  in_reasoning : bool;
  in_prompt_tokens : option u32;
  in_text : str;
  in_truncated : bool }.

(** [ClassificationInput::read], of the text the body was read to. *)
Definition read_input (e : Endpoint) (text : str) (needs : RequestRequirements)
    (max_chars : usize) : ClassificationInput :=
  let '(text, truncated) := truncate text max_chars in
  mkInput e (need_tools needs) (need_tool_choice needs) (need_reasoning needs)
    (Capability.prompt_tokens needs) text truncated.

(** ** Reading an answer *)

Class JsonNumbers (J : Json) := as_f64 : Value → option f64.

Definition f64_0 : f64 := f64_of 0.
Definition f64_1 : f64 := f64_of 1.

(** [str::rfind] of a character. *)
Definition rposition_of {A} (p : A → bool) (l : list A) : option nat :=
  (fun i => length l - 1 - i)%nat <$> position_of p (reverse l).

(** Why an answer is not one. *)
Inductive AnswerProblem :=
| NotJson | NoContent | NoObject | NoRoute | UnknownChoice | BadConfidence
| NoAnswer | NotAChoice | NoChoice.

Section answers.
Context `{LowerCase} {J : Json} `{!JsonNumbers J}.

Definition from_slice (body : list byte) : option Value :=
  let! text := utf8_decode body in from_str text.

(** [value["key"]]: null, of which every accessor is [None], where there is
    no such key. *)
Definition content_of (response : Value) : option str :=
  let! choices := value_get response (lit "choices") in
  let! items := as_items choices in
  let! first := head items in
  let! message := value_get first (lit "message") in
  let! content := value_get message (lit "content") in
  as_string content.

(** A number between 0 and 1. *)
Definition confidence_of (v : option Value) : option f64 :=
  let! v := v in
  let! x := as_f64 v in
  if f64_within f64_0 f64_1 x then Some x else None.

(** [lightweight::parse_answer]. *)
Definition parse_answer (body : list byte) (candidates : list RouteCandidate)
    : result Verdict AnswerProblem :=
  let? response := ok_or (from_slice body) NotJson in
  let? content := ok_or (content_of response) NoContent in
  let? start := ok_or (position_of (fun c => c =? 123) content) NoObject in
  let? finish := ok_or (rposition_of (fun c => c =? 125) content) NoObject in
  if (finish <? start)%nat then Err NoObject
  else
    let? object := ok_or (from_str (drop start (take (S finish) content))) NoObject in
    let? named := ok_or (value_get object (lit "route") ≫= as_string) NoRoute in
    let? candidate := ok_or (find_first (fun c => name_matches (rc_route c) named) candidates)
                        UnknownChoice in
    let? confidence := ok_or (confidence_of (value_get object (lit "confidence"))) BadConfidence in
    Ok (mkVerdict (rc_route candidate) confidence None).

(** [jev::parse_response]. *)
Definition parse_response (body : list byte) (candidates : list RouteCandidate)
    : result Verdict AnswerProblem :=
  let? response := ok_or (from_slice body) NotJson in
  let? answer := ok_or (let! answers := value_get response (lit "answers") in
                        value_get answers (lit "route")) NoAnswer in
  if negb (bool_decide ((value_get answer (lit "type") ≫= as_string) = Some (lit "choice")))
  then Err NotAChoice
  else
    let? choice := ok_or (value_get answer (lit "choice") ≫= as_string) NoChoice in
    let? candidate := ok_or (find_first (fun c => bool_decide (route_str (rc_route c) = choice))
                               candidates) UnknownChoice in
    let? confidence := ok_or (confidence_of (value_get answer (lit "confidence"))) BadConfidence in
    let model :=
      match value_get response (lit "model") ≫= as_string with
      | Some model => if (str_len model <=? 128) && negb (existsb is_control model)
                      then Some model else None
      | None => None
      end in
    Ok (mkVerdict (rc_route candidate) confidence model).

(** [jev::listed_models]. *)
Definition name_of (model : Value) : option str :=
  let! name := value_get model (lit "name") in as_string name.

Definition listed_models (body : list byte) : option (list str) :=
  match (let! response := from_slice body in value_get response (lit "models")) with
  | Some models => option_map (omap name_of) (as_items models)
  | None => None
  end.
End answers.

(** [jev::failure_for]. *)
Definition failure_for (status : Z) : ClassifierOutcome :=
  if (status =? 401) || (status =? 403) then AuthError
  else if (status =? 429) || (status =? 529) then RateLimited
  else ProviderError.

(** ** One classification *)

(** What the provider's call came to: it answered, or it was still pending
    when the wait ended. *)
Abbreviation ProviderAnswer := (Polled (result Verdict ClassifierOutcome)) (only parsing).

Definition nested_request_id (p : ClassifierProvider) (request_id : str) : str :=
  match p with
  | ProviderLightweight _ => request_id ++ lit "-classify"
  | ProviderJev _ => []
  end.

(** [classifier::classify] begun at [now]. *)
Definition classify (k : RouteClassifier) (truncated : bool) (request_id : str)
    (budget : option RequestBudget) (now : Instant) (answer : ProviderAnswer) : Classification :=
  if budget_expired budget now
  then mkClassification (provider_kind (provider k)) RequestBudgetExhausted None [] truncated
  else
    let provider_deadline := now + timeout (classifier_limits k) in
    let budget_first := match budget with
                        | Some b => deadline b <=? provider_deadline
                        | None => false
                        end in
    let '(outcome, verdict) :=
      match answer with
      | Pending => if budget_first then (RequestBudgetExhausted, None) else (Timeout, None)
      | Done (Err outcome) => (outcome, None)
      | Done (Ok v) =>
          if f64_lt (confidence v) (min_confidence (classifier_limits k))
          then (LowConfidence, Some v) else (Chosen, Some v)
      end in
    mkClassification (provider_kind (provider k)) outcome verdict
      (nested_request_id (provider k) request_id) truncated.

(** ** The status the admin view shows *)

Record StatusInner := mkStatusInner {
  last_success : option u64;
  last_failure : option (u64 * ClassifierOutcome) }.

Definition record_outcome (s : StatusInner) (o : ClassifierOutcome) (unix_now : u64)
    : StatusInner :=
  if provider_answered o then mkStatusInner (Some unix_now) (last_failure s)
  else match o with
       | Nested | RequestBudgetExhausted => s
       | _ => mkStatusInner (last_success s) (Some (unix_now, o))
       end.
