(* ===== verification/Scoring.v ===== *)
(** * Adaptive route scoring

    [crates/lightweight-router/src/scoring/]: which of the two routes an
    accepted classification leaves plausible should win, how a configuration
    of it is checked, and the history of each route, which is recorded and
    shown but never scored.

    [f64::exp2], which fades the history, is a parameter ([Exp2]). *)

From stdpp Require Import base gmap strings numbers list.
From Stdlib Require Import SpecFloat.
From S2P Require Import Prelude Names Domain Float64 Fallback Classifier.

Definition DEFAULT_HALF_LIFE_SECS : u64 := 3600.
Definition MIN_HALF_LIFE_SECS : u64 := 60.
Definition MAX_HALF_LIFE_SECS : u64 := 604800.
Definition DEFAULT_MIN_SAMPLES : u32 := 20.
Definition MAX_SAMPLES : u32 := 10000.
Definition MAX_INFLUENCE_SHARE : f64 := f64_div f64_1 (f64_of 2).

(** ** Configuration *)

Record Weights := mkWeights { w_classifier : f64; w_prior : f64; w_history : f64 }.

Definition Weights_default : Weights := mkWeights f64_1 f64_0 f64_0.

Definition influence_radius (w : Weights) : f64 := f64_div (w_prior w) (w_classifier w).

Record HistoryPolicy := mkHistoryPolicy {
  half_life : Duration;
  min_samples : u32;
  shrinkage_samples : u32 }.

Record AdaptiveScoring := mkScoring {
  scoring_enabled : bool;
  weights : Weights;
  priors : list (RouteName * f64);
  history : HistoryPolicy }.

(** [AdaptiveScoring::prior]. *)
Definition prior_of (s : AdaptiveScoring) (route : RouteName) : f64 :=
  match find_first (fun p => bool_decide (p.1 = route)) (priors s) with
  | Some (_, prior) => prior
  | None => f64_0
  end.

Definition classifier_baseline (k : RouteClassifier) : f64 :=
  min_confidence (classifier_limits k).

(** The [history] block, as written. *)
Record HistoryFile := mkHistoryFile {
  hf_half_life_secs : u64;
  hf_min_samples : u32;
  hf_shrinkage_samples : option u32 }.

(** The section, as written; its priors in key order. *)
Record AdaptiveScoringFile := mkScoringFile {
  sf_enabled : bool;
  sf_weights : Weights;
  sf_priors : list (str * f64);
  sf_history : HistoryFile }.

Inductive ScoringProblem :=
| SPWeightClassifier | SPWeightPrior | SPWeightHistory
| SPHalfLife | SPMinSamples | SPShrinkage
| SPNoClassifier
| SPPriorAuto (name : str) | SPPriorReserved (name : str) | SPPriorUnread (name : str)
| SPPriorRange (name : str) | SPPriorRepeated (route : RouteName)
| SPInfluence (radius baseline limit : f64).

Section validation.
Context `{LowerCase}.

(** One prior, against those accepted before it. *)
Definition check_prior (contenders : list RouteName) (seen : list (RouteName * f64))
    (name : str) (prior : f64) : list (RouteName * f64) * list ScoringProblem :=
  if is_auto name then (seen, [SPPriorAuto name])
  else if is_reserved name then (seen, [SPPriorReserved name])
  else match find_first (fun r => name_matches r name) contenders with
       | None => (seen, [SPPriorUnread name])
       | Some route =>
           if negb (is_finite prior && f64_within f64_0 f64_1 prior)
           then (seen, [SPPriorRange name])
           else if existsb (fun p => bool_decide (p.1 = route)) seen
           then (seen, [SPPriorRepeated route])
           else (seen ++ [(route, prior)], [])
       end.

Definition contender_position (contenders : list RouteName) (route : RouteName) : Z :=
  match position_of (fun c => bool_decide (c = route)) contenders with
  | Some i => Z.of_nat i
  | None => -1
  end.

Definition check_weights (w : Weights) : list ScoringProblem :=
  (if is_finite (w_classifier w) && f64_gt (w_classifier w) f64_0 && f64_le (w_classifier w) f64_1
   then [] else [SPWeightClassifier])
  ++ (if is_finite (w_prior w) && f64_within f64_0 f64_1 (w_prior w) then [] else [SPWeightPrior])
  ++ (match SFcompare (w_history w) f64_0 with Some Eq => [] | _ => [SPWeightHistory] end).

(** The dominance bound, for one configured provider. *)
Definition check_influence (radius : f64) (p : ClassifierProvider) : list ScoringProblem :=
  let baseline := min_confidence (provider_limits p) in
  let limit := f64_mul MAX_INFLUENCE_SHARE (f64_add f64_1 (SFopp baseline)) in
  if f64_gt radius f64_0 && f64_le limit radius then [SPInfluence radius baseline limit] else [].

Definition providers (k : RouteClassifier) : list ClassifierProvider :=
  provider k :: match standby k with Some p => [p] | None => [] end.

Definition within (lo hi x : Z) : bool := (lo <=? x) && (x <=? hi).

(** [scoring::validate]. *)
Definition validate_scoring (raw : AdaptiveScoringFile) (classifier : option RouteClassifier)
    (written : bool) : result AdaptiveScoring (list ScoringProblem) :=
  let w := sf_weights raw in
  let wp := check_weights w in
  let h := sf_history raw in
  let shrinkage := default (hf_min_samples h) (hf_shrinkage_samples h) in
  let hp := (if within MIN_HALF_LIFE_SECS MAX_HALF_LIFE_SECS (hf_half_life_secs h)
             then [] else [SPHalfLife])
            ++ (if within 1 MAX_SAMPLES (hf_min_samples h) then [] else [SPMinSamples])
            ++ (if within 1 MAX_SAMPLES shrinkage then [] else [SPShrinkage]) in
  let '(priors, pp) :=
    match classifier with
    | None => ([], if written then [] else [SPNoClassifier])
    | Some k =>
        let contenders := map rc_route (classifier_candidates k) ++ [classifier_fallback k] in
        let '(seen, problems) :=
          foldl (fun acc p =>
                   let '(seen, ps) := check_prior contenders acc.1 p.1 p.2 in
                   (seen, acc.2 ++ ps)) ([], []) (sf_priors raw) in
        (sort_by (fun a b => contender_position contenders a.1 <? contender_position contenders b.1)
           seen,
         problems ++ (match wp with
                      | [] => mjoin (map (check_influence (influence_radius w)) (providers k))
                      | _ => []
                      end))
    end in
  match wp ++ hp ++ pp with
  | [] => Ok (mkScoring (sf_enabled raw) w priors
                (mkHistoryPolicy (from_secs (hf_half_life_secs h)) (hf_min_samples h) shrinkage))
  | problems => Err problems
  end.
End validation.

(** ** Route history *)

Inductive RouteObservation :=
| ObsSuccess | ObsServerError | ObsInterrupted | ObsUnavailable | ObsCapabilityMismatch
| ObsNeutral.

Definition scored (o : RouteObservation) : bool := match o with ObsSuccess => true | _ => false end.

(** [Observation::of_outcome]. *)
Definition of_outcome (outcome : str) : RouteObservation :=
  if bool_decide (outcome = lit "ok") then ObsSuccess
  else if bool_decide (outcome = lit "server_error") then ObsServerError
  else if bool_decide (outcome = lit "interrupted") then ObsInterrupted
  else if bool_decide (outcome = lit "unavailable") then ObsUnavailable
  else ObsNeutral.

Record HistoryObservations := mkObservations {
  effective_samples : f64;
  successes_seen : f64;
  min_samples_reached : bool }.

Definition HistoryObservations_NONE : HistoryObservations := mkObservations f64_0 f64_0 false.

Record HistorySignal := mkSignal {
  hs_effective_samples : f64;
  hs_successes : f64;
  success_rate : f64;
  hs_value : f64;
  gated : bool }.

Definition NEUTRAL_SUCCESS_RATE : f64 := f64_div f64_1 (f64_of 2).

Definition signal_of (successes : f64) (p : HistoryPolicy) : HistorySignal :=
  let k := f64_of (shrinkage_samples p) in
  let rate := f64_div (f64_add successes (f64_mul k NEUTRAL_SUCCESS_RATE)) (f64_add successes k) in
  let gated := f64_lt successes (f64_of (min_samples p)) in
  mkSignal successes successes rate
    (if gated then f64_0 else f64_add (f64_mul (f64_of 2) rate) (SFopp f64_1)) gated.

Definition observations_of (successes : f64) (p : HistoryPolicy) : HistoryObservations :=
  mkObservations successes successes (f64_le (f64_of (min_samples p)) successes).

(** [f64::exp2]. *)
Class Exp2 := exp2 : f64 → f64.

(** [Duration::as_secs_f64]. *)
Definition as_secs_f64 (d : Duration) : f64 :=
  f64_add (f64_of (d / 1000000000)) (f64_div (f64_of (d mod 1000000000)) (f64_of 1000000000)).

Definition decay_factor `{Exp2} (elapsed half_life : Duration) : f64 :=
  exp2 (f64_div (SFopp (as_secs_f64 elapsed)) (as_secs_f64 half_life)).

Record RouteRecord := mkRouteRecord {
  rr_successes : f64;
  decayed_at : option Instant;
  rr_server_error : u64;
  rr_interrupted : u64;
  rr_unavailable : u64;
  rr_mismatch : u64;
  rr_neutral : u64;
  last_observed_at : option u64 }.

Definition RouteRecord_default : RouteRecord := mkRouteRecord f64_0 None 0 0 0 0 0 None.

Record HistoryBook := mkHistoryBook {
  hb_policy : option HistoryPolicy;
  hb_routes : list RouteName;
  hb_records : list RouteRecord }.

Definition HistoryBook_new (routes : list RouteName) (p : option HistoryPolicy) : HistoryBook :=
  mkHistoryBook p routes (map (fun _ => RouteRecord_default) routes).

Definition history_index (b : HistoryBook) (route : RouteName) : option nat :=
  position_of (fun known => bool_decide (known = route)) (hb_routes b).

Definition route_named `{LowerCase} (b : HistoryBook) (requested : str) : option RouteName :=
  find_first (fun r => name_matches r requested) (hb_routes b).

Section history.
Context `{Exp2}.

(** [Record::decayed]. *)
Definition decayed (r : RouteRecord) (now : Instant) (half_life : Duration) : f64 :=
  let factor := match decayed_at r with
                | Some at_ => decay_factor (saturating_duration_since now at_) half_life
                | None => f64_1
                end in
  f64_mul (rr_successes r) factor.

(** A counter is a [u64]: a release build wraps. *)
Definition bump (n : u64) : u64 := (n + 1) mod 2 ^ 64.

Definition observe_record (r : RouteRecord) (o : RouteObservation) (now : Instant)
    (p : HistoryPolicy) (unix_now : u64) : RouteRecord :=
  let '(mkRouteRecord s d e i u m n _) := r in
  let last := Some unix_now in
  match o with
  | ObsSuccess =>
      mkRouteRecord (f64_add (decayed r now (half_life p)) f64_1) (Some now) e i u m n last
  | ObsServerError => mkRouteRecord s d (bump e) i u m n last
  | ObsInterrupted => mkRouteRecord s d e (bump i) u m n last
  | ObsUnavailable => mkRouteRecord s d e i (bump u) m n last
  | ObsCapabilityMismatch => mkRouteRecord s d e i u (bump m) n last
  | ObsNeutral => mkRouteRecord s d e i u m (bump n) last
  end.

(** [HistoryBook::observe]: whether it was recorded, and the book. *)
Definition observe_history (b : HistoryBook) (route : RouteName) (o : RouteObservation)
    (now : Instant) (unix_now : u64) : bool * HistoryBook :=
  match hb_policy b, history_index b route with
  | Some p, Some i =>
      match hb_records b !! i with
      | Some r =>
          (true, mkHistoryBook (hb_policy b) (hb_routes b)
                   (<[i := observe_record r o now p unix_now]> (hb_records b)))
      | None => (false, b)
      end
  | _, _ => (false, b)
  end.

Definition observations (b : HistoryBook) (route : RouteName) (now : Instant)
    : HistoryObservations :=
  match hb_policy b, history_index b route with
  | Some p, Some i =>
      match hb_records b !! i with
      | Some r => observations_of (decayed r now (half_life p)) p
      | None => HistoryObservations_NONE
      end
  | _, _ => HistoryObservations_NONE
  end.
End history.

(** [HistoryBook::reset]: the routes reset. *)
Definition reset_history (b : HistoryBook) (route : option RouteName)
    : list RouteName * HistoryBook :=
  match route with
  | Some r =>
      match history_index b r with
      | Some i => ([r], mkHistoryBook (hb_policy b) (hb_routes b)
                          (<[i := RouteRecord_default]> (hb_records b)))
      | None => ([], b)
      end
  | None => (hb_routes b, mkHistoryBook (hb_policy b) (hb_routes b)
                            (map (fun _ => RouteRecord_default) (hb_records b)))
  end.

(** ** The decision *)

Inductive ScoringReason := Scored | Uncontested | BelowThreshold | NoVerdict | InternalError.

Inductive ClassifierBasis := BasisVerdict | BasisBaseline.

Record CandidateScore := mkScore {
  cs_route : RouteName;
  basis : ClassifierBasis;
  classifier_signal : f64;
  prior_signal : f64;
  history_signal : f64;
  total_score : f64;
  cs_confidence : f64;
  cs_prior : f64;
  history_observations : HistoryObservations }.

Record ScoringTrace := mkScoringTrace {
  st_reason : ScoringReason;
  st_baseline : f64;
  st_influence_radius : f64;
  st_weights : Weights;
  st_history_active : bool;
  st_classified_route : RouteName;
  st_winner : RouteName;
  st_overrode : bool;
  st_rejected : option (RouteName * f64);
  st_candidates : list CandidateScore }.

Record ScoringDecision := mkScoringDecision {
  sd_route : RouteName;
  sd_trace : ScoringTrace }.

Section decide.
Context `{Exp2} (s : AdaptiveScoring) (h : HistoryBook) (k : RouteClassifier) (now : Instant).

(** The closure [score] of [decide]. *)
Definition score (route : RouteName) (b : ClassifierBasis) (confidence : f64) : CandidateScore :=
  let prior := prior_of s route in
  let classifier_signal := f64_mul (w_classifier (weights s)) confidence in
  let prior_signal := f64_mul (w_prior (weights s)) prior in
  mkScore route b classifier_signal prior_signal f64_0
    (f64_add classifier_signal prior_signal) confidence prior (observations h route now).

Definition scoring_trace (c : Classification) (reason : ScoringReason) (winner : RouteName)
    (overrode : bool) (rejected : option (RouteName * f64)) (candidates : list CandidateScore)
    : ScoringTrace :=
  mkScoringTrace reason (classifier_baseline k) (influence_radius (weights s)) (weights s) false
    (classified_route c k) winner overrode rejected candidates.

(** [scoring::decide]. *)
Definition scoring_decide (c : Classification) : ScoringDecision :=
  let classified := classified_route c k in
  match cl_verdict c, cl_outcome c with
  | Some v, Chosen =>
      let first := score (verdict_route v) BasisVerdict (confidence v) in
      let fallback := classifier_fallback k in
      if bool_decide (verdict_route v = fallback)
      then mkScoringDecision (verdict_route v)
             (scoring_trace c Uncontested (verdict_route v) false None [first])
      else
        let second := score fallback BasisBaseline (classifier_baseline k) in
        if negb (is_finite (total_score first) && is_finite (total_score second))
        then mkScoringDecision classified
               (scoring_trace c InternalError classified false None [first; second])
        else
          let winner := if f64_gt (total_score second) (total_score first)
                        then fallback else verdict_route v in
          mkScoringDecision winner
            (scoring_trace c Scored winner (negb (bool_decide (winner = classified))) None
               [first; second])
  | Some v, LowConfidence =>
      mkScoringDecision classified
        (scoring_trace c BelowThreshold classified false (Some (verdict_route v, confidence v)) [])
  | _, _ => mkScoringDecision classified (scoring_trace c NoVerdict classified false None [])
  end.
End decide.
