(* ===== verification/AutoRoute.v ===== *)
(** * [Auto]: which logical route a request goes to

    [crates/lightweight-router/src/auto_route.rs]: the conditions of a rule,
    the rules, the decision they make for a request, and how a configuration
    of them is checked.  The classifier and the scoring of the section are
    validated by [Classifier.v] and [Scoring.v]'s counterparts: their results
    are arguments of [validate_auto]. *)

From stdpp Require Import base gmap strings numbers list.
From S2P Require Import Prelude Names Domain Capability Fallback Classifier Scoring.

Definition FALLBACK_RULE : str := lit "_fallback".
Definition MAX_RULE_NAME_CHARS : usize := 64.
Definition MAX_RULES : usize := 64.

#[export] Instance Endpoint_eq_dec : EqDecision Endpoint.
Proof. solve_decision. Defined.
#[export] Instance ToolChoiceRequirement_eq_dec : EqDecision ToolChoiceRequirement.
Proof. solve_decision. Defined.

(** ** Conditions *)

Inductive AutoEndpoint := AutoChat | AutoCompletion.

#[export] Instance AutoEndpoint_eq_dec : EqDecision AutoEndpoint.
Proof. solve_decision. Defined.

Definition auto_endpoint (e : AutoEndpoint) : Endpoint :=
  match e with AutoChat => ChatCompletions | AutoCompletion => Completions end.

Record AutoCondition := mkCondition {
  when_endpoint : option AutoEndpoint;
  requires_tools : option bool;
  when_tool_choice : option ToolChoiceRequirement;
  requires_reasoning : option bool;
  min_prompt_tokens : option u32;
  max_prompt_tokens : option u32 }.

#[export] Instance AutoCondition_eq_dec : EqDecision AutoCondition.
Proof. solve_decision. Defined.

Definition AutoCondition_default : AutoCondition := mkCondition None None None None None None.

(** [Option::is_none_or] and [is_some_and]. *)
Definition is_none_or {A} (o : option A) (p : A → bool) : bool :=
  match o with Some a => p a | None => true end.
Definition is_some_and {A} (o : option A) (p : A → bool) : bool :=
  match o with Some a => p a | None => false end.

(** [AutoCondition::matches]. *)
Definition condition_matches (c : AutoCondition) (needs : RequestRequirements) : bool :=
  is_none_or (when_endpoint c)
    (fun want => bool_decide (need_endpoint needs = Some (auto_endpoint want)))
  && is_none_or (requires_tools c) (fun want => Bool.eqb (need_tools needs) want)
  && is_none_or (when_tool_choice c) (fun want => bool_decide (need_tool_choice needs = want))
  && is_none_or (requires_reasoning c) (fun want => Bool.eqb (need_reasoning needs) want)
  && is_none_or (min_prompt_tokens c)
       (fun min => is_some_and (prompt_tokens needs) (fun tokens => min <=? tokens))
  && is_none_or (max_prompt_tokens c)
       (fun max => is_some_and (prompt_tokens needs) (fun tokens => tokens <=? max)).

(** [AutoCondition::is_empty]. *)
Definition condition_is_empty (c : AutoCondition) : bool :=
  bool_decide (c = AutoCondition_default).

Inductive Contradiction :=
| MinAboveMax | CompletionTools | CompletionReasoning | CompletionToolChoice | ChoiceWithoutTools.

(** [AutoCondition::contradiction]. *)
Definition contradiction (c : AutoCondition) : option Contradiction :=
  if match min_prompt_tokens c, max_prompt_tokens c with
     | Some min, Some max => max <? min
     | _, _ => false
     end then Some MinAboveMax
  else
    let completion := bool_decide (when_endpoint c = Some AutoCompletion) in
    if completion && bool_decide (requires_tools c = Some true) then Some CompletionTools
    else if completion && bool_decide (requires_reasoning c = Some true)
    then Some CompletionReasoning
    else if completion
            && is_some_and (when_tool_choice c) (fun choice => negb (bool_decide (choice = TCUnspecified)))
    then Some CompletionToolChoice
    else if bool_decide (requires_tools c = Some false)
            && is_some_and (when_tool_choice c)
                 (fun choice => bool_decide (choice = TCRequired) || bool_decide (choice = TCFunction))
    then Some ChoiceWithoutTools
    else None.

(** ** Rules *)

(** As written in the file, then as validated. *)
Record AutoRuleFile := mkRuleFile {
  rf_name : str;
  rf_when : AutoCondition;
  rf_route : option str;
  rf_classify : bool }.

Record AutoRule := mkRule {
  rule_name : str;
  rule_when : AutoCondition;
  rule_route : RouteName;
  rule_classify : bool }.

Record AutoRouteFile := mkAutoFile {
  af_enabled : bool;
  af_fallback_route : str;
  af_rules : list AutoRuleFile;
  af_cross_route_fallback : option CrossRouteFallbackFile }.

Record AutoRoute := mkAutoRoute {
  auto_enabled : bool;
  auto_fallback : RouteName;
  rules : list AutoRule;
  classifier : option RouteClassifier;
  scoring : option AdaptiveScoring;
  cross_route_fallback : CrossRouteFallback }.

Record AutoDecision := mkAutoDecision {
  ad_route : RouteName;
  ad_rule : option str;
  ad_classify : bool }.

(** [AutoDecision::rule_label] and [is_fallback]. *)
Definition rule_label (d : AutoDecision) : str := default FALLBACK_RULE (ad_rule d).
Definition is_fallback (d : AutoDecision) : bool := negb (bool_decide (is_Some (ad_rule d))).

(** [AutoRoute::claims]. *)
Definition claims `{LowerCase} (a : AutoRoute) (requested : option str) : bool :=
  auto_enabled a && is_some_and requested is_auto.

(** [AutoRoute::decide]. *)
Definition auto_decide (a : AutoRoute) (needs : RequestRequirements) : AutoDecision :=
  match find_first (fun r => condition_matches (rule_when r) needs) (rules a) with
  | None => mkAutoDecision (auto_fallback a) None false
  | Some r => mkAutoDecision (rule_route r) (Some (rule_name r)) (rule_classify r)
  end.

(** The loop over the rules in [AutoRoute::targets]. *)
Fixpoint ordered_targets (candidates : list RouteName) (rs : list AutoRule) (classified : bool)
    : list RouteName :=
  match rs with
  | [] => []
  | r :: rs =>
      if rule_classify r && negb classified
      then candidates ++ rule_route r :: ordered_targets candidates rs true
      else rule_route r :: ordered_targets candidates rs classified
  end.

(** Each once, the first occurrence kept. *)
Definition keep_new (acc : list RouteName) (r : RouteName) : list RouteName :=
  if bool_decide (r ∈ acc) then acc else acc ++ [r].
Definition keep_first (l : list RouteName) : list RouteName := foldl keep_new [] l.

Definition targets (a : AutoRoute) : list RouteName :=
  let candidates := match classifier a with
                    | Some k => map rc_route (classifier_candidates k)
                    | None => []
                    end in
  keep_first (ordered_targets candidates (rules a) false ++ [auto_fallback a]).

(** ** Checking a section *)

Inductive RuleNameProblem := RNEmpty | RNTooLong | RNStart | RNCharacter (c : char).

Definition check_rule_name (name : str) : option RuleNameProblem :=
  if bool_decide (name = []) then Some RNEmpty
  else if MAX_RULE_NAME_CHARS <? Z.of_nat (length name) then Some RNTooLong
  else if negb (is_some_and (head name) is_ascii_alphanumeric) then Some RNStart
  else RNCharacter <$> find_first (fun c => negb (allowed_in_node_id c)) name.

Inductive TargetProblem := TPAuto | TPReserved | TPUnknown.

Inductive AutoProblem :=
| APNameTaken (name : str)
| APFallback (name : str) (why : TargetProblem)
| APTooManyRules (n : usize)
| APRuleName (index : usize) (why : RuleNameProblem)
| APRuleRepeated (name : str)
| APNoConditions (rule : str)
| APZeroTokens (rule : str)
| APNeverMatches (rule : str) (why : Contradiction)
| APBothRoute (rule : str)
| APNoRoute (rule : str)
| APNoClassifier (rule : str)
| APRuleTarget (rule target : str) (why : TargetProblem)
| APCrossRoute (problem : FallbackProblem).

Section validation.
Context `{LowerCase} (routes : list Route).

(** [auto_route::target], which is [classifier::configured] word for word. *)
Definition auto_target (name : str) : result RouteName TargetProblem :=
  if is_auto name then Err TPAuto
  else if is_reserved name then Err TPReserved
  else match find_first (fun r => name_matches (route_name r) name) routes with
       | Some r => Ok (route_name r)
       | None => Err TPUnknown
       end.

(** The route of one rule, and the problems with it. *)
Definition check_rule_route (k : option RouteClassifier) (has_classifier : bool)
    (name : str) (entry : AutoRuleFile) : option RouteName * list AutoProblem :=
  match rf_route entry, rf_classify entry with
  | Some _, true => (None, [APBothRoute name])
  | None, false => (None, [APNoRoute name])
  | None, true =>
      match k with
      | Some k => (Some (classifier_fallback k), [])
      | None => (None, if has_classifier then [] else [APNoClassifier name])
      end
  | Some target, false =>
      match auto_target target with
      | Ok r => (Some r, [])
      | Err why => (None, [APRuleTarget name target why])
      end
  end.

(** The tests of one rule apart from its route. *)
Definition check_rule (index : usize) (seen : list str) (entry : AutoRuleFile)
    : list str * list AutoProblem :=
  let name := trim (rf_name entry) in
  let '(seen, problems) :=
    match check_rule_name name with
    | Some why => (seen, [APRuleName index why])
    | None =>
        if existsb (fun other => eq_ignore_ascii_case other name) seen
        then (seen, [APRuleRepeated name])
        else (seen ++ [name], [])
    end in
  (seen, problems
   ++ (if condition_is_empty (rf_when entry) && negb (rf_classify entry)
       then [APNoConditions name] else [])
   ++ (if bool_decide (min_prompt_tokens (rf_when entry) = Some 0) then [APZeroTokens name] else [])
   ++ (if bool_decide (max_prompt_tokens (rf_when entry) = Some 0) then [APZeroTokens name] else [])
   ++ (match contradiction (rf_when entry) with
       | Some why => [APNeverMatches name why]
       | None => []
       end)).

(** The loop over the rules. *)
Fixpoint check_rules (k : option RouteClassifier) (has_classifier : bool)
    (entries : list AutoRuleFile) (index : usize) (seen : list str)
    : list AutoRule * list AutoProblem :=
  match entries with
  | [] => ([], [])
  | entry :: entries =>
      let name := trim (rf_name entry) in
      let '(seen, p1) := check_rule index seen entry in
      let '(route, p2) := check_rule_route k has_classifier name entry in
      let '(rs, ps) := check_rules k has_classifier entries (index + 1) seen in
      let rs := match p1, route with
                | [], Some r => mkRule name (rf_when entry) r (rf_classify entry) :: rs
                | _, _ => rs
                end in
      (rs, p1 ++ p2 ++ ps)
  end.

(** [auto_route::validate], given what the classifier and the scoring of the
    section validated to; [earlier] is whether they reported problems. *)
Definition validate_auto (raw : AutoRouteFile) (k : option RouteClassifier)
    (has_classifier earlier : bool) (sc : option AdaptiveScoring)
    : result AutoRoute (list AutoProblem) :=
  let taken := map (fun r => APNameTaken (route_str (route_name r)))
                 (List.filter (fun r => is_auto (route_str (route_name r))) routes) in
  let fallback := auto_target (af_fallback_route raw) in
  let fp := match fallback with Ok _ => [] | Err why => [APFallback (af_fallback_route raw) why] end in
  let many := if MAX_RULES <? Z.of_nat (length (af_rules raw))
              then [APTooManyRules (Z.of_nat (length (af_rules raw)))] else [] in
  let '(rs, rp) := check_rules k has_classifier (af_rules raw) 1 [] in
  let problems := taken ++ fp ++ many ++ rp in
  match af_cross_route_fallback raw, fallback, problems, earlier with
  | Some cross, Ok auto_fallback, [], false =>
      let reachable :=
        map rule_route rs ++ [auto_fallback]
        ++ (match k with
            | Some k => map rc_route (classifier_candidates k) ++ [classifier_fallback k]
            | None => []
            end) in
      let classifier_routes :=
        match k with Some k => omap provider_route (providers k) | None => [] end in
      match validate_fallback cross routes reachable classifier_routes with
      | Ok f => Ok (mkAutoRoute (af_enabled raw) auto_fallback rs k sc f)
      | Err ps => Err (map APCrossRoute ps)
      end
  | _, Ok auto_fallback, [], false =>
      Ok (mkAutoRoute (af_enabled raw) auto_fallback rs k sc (mkFallback []))
  | _, _, _, _ => Err problems
  end.
End validation.

(** ** Which conditions a request can meet *)

(** What the gateway's own validation leaves of a chat request: a tool is only
    asked for when some are declared. *)
Definition chat_accepted (g : GenerationRequest) : Prop :=
  gen_tools g = [] →
  gen_tool_choice g ≠ ChooseRequired ∧ ∀ name, gen_tool_choice g ≠ ChooseFunction name.

(** The requirements [requirements::extract] can read from a request: a chat
    request, a completion, or a body only the endpoint is known of. *)
Inductive receivable : RequestRequirements → Prop :=
| rec_chat g mt : chat_accepted g → receivable (chat_requirements g mt)
| rec_completion prompts mt : receivable (completion_requirements prompts mt)
| rec_unread e : receivable (mkNeeds (Some e) false TCUnspecified false None None).

(** A text that is counted as [t] tokens. *)
Definition text_of_tokens (t : Z) : str := replicate (Z.to_nat (6 * t)) 97.

Lemma str_len_replicate n : str_len (replicate n 97) = Z.of_nat n.
Proof.
  induction n as [|n IH]; [done|]. unfold str_len in *. cbn [replicate foldr]. rewrite IH.
  change (utf8_len 97) with 1. lia.
Qed.

Lemma tokens_of_text t : 0 ≤ t ≤ U32_MAX → tokens_at_least (str_len (text_of_tokens t)) = t.
Proof.
  intros Ht. unfold text_of_tokens. rewrite str_len_replicate, Z2Nat.id by lia.
  unfold tokens_at_least, BYTES_PER_TOKEN_CEILING, div_ceil, u32_or_max.
  rewrite (Z.mul_comm 6 t), Z.mod_mul, Z.div_mul by lia. simpl.
  destruct (Z.leb_spec t U32_MAX); lia.
Qed.

(** A chat request with the traits a condition asks for. *)
Definition example_choice (c : ToolChoiceRequirement) : ToolChoice :=
  match c with
  | TCUnspecified => ChooseUnspecified
  | TCAuto => ChooseAuto
  | TCNone => ChooseNone
  | TCRequired => ChooseRequired
  | TCFunction => ChooseFunction (lit "f")
  end.

Definition needs_tools (c : AutoCondition) : bool :=
  match requires_tools c with
  | Some want => want
  | None => match when_tool_choice c with Some (TCRequired | TCFunction) => true | _ => false end
  end.

Definition example_tokens (c : AutoCondition) : Z :=
  match min_prompt_tokens c, max_prompt_tokens c with
  | Some min, _ => min
  | None, Some max => max
  | None, None => 0
  end.

Definition example_chat (c : AutoCondition) : GenerationRequest :=
  mkGeneration (PromptText (text_of_tokens (example_tokens c)))
    (if needs_tools c then [lit "f"] else [])
    (example_choice (default TCUnspecified (when_tool_choice c)))
    (if default false (requires_reasoning c) then ReasonEffort (lit "high") else ReasonDefault).

Definition example_needs (c : AutoCondition) : RequestRequirements :=
  if bool_decide (when_endpoint c = Some AutoCompletion)
  then completion_requirements [text_of_tokens (example_tokens c)] None
  else chat_requirements (example_chat c) None.

(** The bounds of a condition are [u32]s. *)
Definition condition_u32 (c : AutoCondition) : Prop :=
  (∀ n, min_prompt_tokens c = Some n → in_u32 n) ∧ (∀ n, max_prompt_tokens c = Some n → in_u32 n).

Lemma example_tokens_fit c :
  condition_u32 c → contradiction c ≠ Some MinAboveMax →
  0 ≤ example_tokens c ≤ U32_MAX ∧
  is_none_or (min_prompt_tokens c) (λ min, min <=? example_tokens c) = true ∧
  is_none_or (max_prompt_tokens c) (λ max, example_tokens c <=? max) = true.
Proof.
  intros [Hmin Hmax]. unfold contradiction, example_tokens.
  destruct (min_prompt_tokens c) as [mn|], (max_prompt_tokens c) as [mx|]; simpl;
    try specialize (Hmin _ eq_refl); try specialize (Hmax _ eq_refl); unfold in_u32, U32_MAX in *;
    try (destruct (Z.ltb_spec mx mn); [done|]); intros _; split_and!; try lia.
Qed.

Lemma condition_tokens c needs t :
  prompt_tokens needs = Some t →
  is_none_or (min_prompt_tokens c) (λ min, min <=? t) = true →
  is_none_or (max_prompt_tokens c) (λ max, t <=? max) = true →
  is_none_or (min_prompt_tokens c)
    (λ min, is_some_and (prompt_tokens needs) (λ tokens, min <=? tokens)) = true ∧
  is_none_or (max_prompt_tokens c)
    (λ max, is_some_and (prompt_tokens needs) (λ tokens, tokens <=? max)) = true.
Proof. intros ->. by destruct (min_prompt_tokens c), (max_prompt_tokens c). Qed.

Lemma example_chat_accepted c :
  contradiction c = None → when_endpoint c ≠ Some AutoCompletion → chat_accepted (example_chat c).
Proof.
  unfold chat_accepted, example_chat, contradiction, needs_tools. simpl. intros Hc He Ht.
  destruct (requires_tools c) as [[]|], (when_tool_choice c) as [[]|]; simpl in *; try done;
    repeat case_match; done.
Qed.

Lemma example_matches c :
  condition_u32 c → contradiction c = None → condition_matches c (example_needs c) = true.
Proof.
  intros Hu Hc. destruct (example_tokens_fit c Hu ltac:(congruence)) as (Hr & Hmin & Hmax).
  assert (Ht : prompt_tokens (example_needs c) = Some (example_tokens c)).
  { unfold example_needs. case_bool_decide.
    - unfold completion_requirements. cbn [foldr prompt_tokens].
      rewrite Z.max_l; [by rewrite tokens_of_text|]. unfold text_of_tokens.
      rewrite str_len_replicate. lia.
    - unfold chat_requirements, chat_bytes, example_chat. cbn [gen_prompt prompt_tokens].
      by rewrite tokens_of_text. }
  destruct (condition_tokens c _ _ Ht Hmin Hmax) as [H1 H2].
  unfold condition_matches. rewrite H1, H2, !andb_true_r. clear H1 H2 Ht Hmin Hmax Hr Hu.
  revert Hc. unfold contradiction, example_needs, example_chat, needs_tools.
  destruct c as [[[]|] [[]|] [[]|] [[]|] mn mx]; simpl; repeat case_match; done.
Qed.

(** A rule is refused as one that can never match exactly when no request
    can match it.  For a condition without such a contradiction there is a
    chat request or a completion, acceptable to the gateway, that meets all of
    it; for one with it, no requirements the router can read from a request
    do. *)
Theorem rules_refused_exactly c :
  condition_u32 c →
  contradiction c = None ↔ ∃ needs, receivable needs ∧ condition_matches c needs = true.
Proof.
  intros Hu. split.
  - intros Hc. exists (example_needs c). split; [|by apply example_matches].
    unfold example_needs. case_bool_decide as He; [constructor|].
    constructor. by apply example_chat_accepted.
  - intros (needs & Hrec & Hm). unfold condition_matches in Hm.
    apply andb_true_iff in Hm as [Hm Hmax]. apply andb_true_iff in Hm as [Hm Hmin].
    unfold contradiction.
    assert (match min_prompt_tokens c, max_prompt_tokens c with
            | Some min, Some max => max <? min | _, _ => false end = false) as ->.
    { destruct (min_prompt_tokens c), (max_prompt_tokens c), (prompt_tokens needs);
        simpl in *; try done. lia. }
    clear Hmin Hmax Hu. revert Hm.
    destruct c as [we rt tc rr mn mx]; simpl. clear mn mx.
    destruct Hrec as [g mt Hg|prompts mt|e]; simpl.
    + unfold chat_accepted in Hg.
      destruct g as [pr tls choice rs]; simpl in *.
      destruct we as [[]|]; simpl; [|done|];
      destruct rt as [[]|], tc as [[]|], tls; simpl; try done;
      destruct (Hg eq_refl) as [Hg1 Hg2]; destruct choice; try done; by destruct (Hg2 name).
    + destruct we as [[]|], rt as [[]|], tc as [[]|], rr as [[]|]; done.
    + destruct we as [[]|], rt as [[]|], tc as [[]|], rr as [[]|], e; done.
Qed.

(** Tools without a tool being required can be asked for; a completion with
    tools cannot. *)
Lemma rules_refused_exactly_witness :
  (∃ needs, receivable needs ∧
     condition_matches (mkCondition None (Some true) None (Some false) (Some 100) None) needs = true) ∧
  ¬ ∃ needs, receivable needs ∧
     condition_matches (mkCondition (Some AutoCompletion) (Some true) None None None None) needs = true.
Proof.
  split.
  - apply (rules_refused_exactly (mkCondition None (Some true) None (Some false) (Some 100) None));
      [|reflexivity]. split; [intros n [= <-]|done]. unfold in_u32, U32_MAX. lia.
  - intros Hn.
    apply (rules_refused_exactly (mkCondition (Some AutoCompletion) (Some true) None None None None))
      in Hn; [discriminate Hn|]. by split.
Defined.

(** ** What a validated section resolves to *)

Lemma keep_first_acc l acc :
  NoDup acc → NoDup (foldl keep_new acc l) ∧ ∀ r, r ∈ foldl keep_new acc l ↔ r ∈ acc ∨ r ∈ l.
Proof.
  revert acc. induction l as [|x l IH]; intros acc Hnd; simpl; [set_solver|]. unfold keep_new at 2 4.
  case_bool_decide as Hx.
  - destruct (IH acc Hnd) as [H1 H2]. split; [done|]. intros r. rewrite H2. set_solver.
  - destruct (IH (acc ++ [x])) as [H1 H2].
    { apply NoDup_app. split; [done|]. split; [set_solver|apply NoDup_singleton]. }
    split; [done|]. intros r. rewrite H2. set_solver.
Qed.

Lemma exists_cons {A} (P : A → Prop) x l :
  (∃ y, y ∈ x :: l ∧ P y) ↔ P x ∨ ∃ y, y ∈ l ∧ P y.
Proof.
  split.
  - intros (y & [->|Hy]%elem_of_cons & HP); [by left|right; by exists y].
  - intros [HP|(y & Hy & HP)]; [exists x|exists y]; rewrite elem_of_cons; auto.
Qed.

Lemma elem_of_ordered cands rs classified (r : RouteName) :
  r ∈ ordered_targets cands rs classified ↔
  (∃ rule, rule ∈ rs ∧ r = rule_route rule) ∨
  (classified = false ∧ r ∈ cands ∧ ∃ rule, rule ∈ rs ∧ rule_classify rule = true).
Proof.
  revert classified. induction rs as [|x rs IH]; intros classified; simpl; [set_solver|].
  rewrite !exists_cons.
  assert (Ht : true = true ↔ True) by done. assert (Hf : false = false ↔ True) by done.
  assert (Htf : true = false ↔ False) by done. assert (Hft : false = true ↔ False) by done.
  destruct (rule_classify x), classified; simpl;
    rewrite ?elem_of_app, elem_of_cons, IH, ?Ht, ?Hf, ?Htf, ?Hft; tauto.
Qed.

Lemma elem_of_targets a r :
  r ∈ targets a ↔
  (∃ rule, rule ∈ rules a ∧ r = rule_route rule) ∨ r = auto_fallback a ∨
  ∃ k, classifier a = Some k ∧ r ∈ map rc_route (classifier_candidates k) ∧
       ∃ rule, rule ∈ rules a ∧ rule_classify rule = true.
Proof.
  unfold targets, keep_first. rewrite (proj2 (keep_first_acc _ [] NoDup_nil_2)).
  rewrite elem_of_app, elem_of_ordered, list_elem_of_singleton.
  destruct (classifier a) as [k|]; split.
  - intros [[]%not_elem_of_nil|[[?|(_ & ? & ?)]|?]]; eauto 6.
  - intros [?|[?|(k' & [= <-] & ? & ?)]]; auto 6.
  - intros [[]%not_elem_of_nil|[[?|(_ & []%not_elem_of_nil & ?)]|?]]; auto.
  - intros [?|[?|(k' & ? & _)]]; [auto|auto|done].
Qed.

Section validated.
Context `{LowerCase} (routes : list Route).

Abbreviation configured := (map route_name routes).

Lemma auto_target_configured name r : auto_target routes name = Ok r → r ∈ configured.
Proof.
  unfold auto_target. repeat case_match; try done. intros [= <-].
  match goal with H : find_first _ _ = Some _ |- _ => apply find_first_Some in H as [Hin _] end.
  by apply (list_elem_of_fmap_2 route_name).
Qed.

(** A rule names a configured route, or asks the classifier and falls back on
    its fallback. *)
Definition rule_sound (k : option RouteClassifier) (r : AutoRule) : Prop :=
  contradiction (rule_when r) = None ∧
  if rule_classify r
  then ∃ k0, k = Some k0 ∧ rule_route r = classifier_fallback k0
  else rule_route r ∈ configured.

Lemma check_rule_contradiction index seen e :
  (check_rule index seen e).2 = [] → contradiction (rf_when e) = None.
Proof.
  unfold check_rule.
  destruct (match check_rule_name (trim (rf_name e)) with Some _ => _ | None => _ end) as [s q].
  simpl. rewrite !app_nil. by destruct (contradiction (rf_when e)) as [?|]; [intros (_ & _ & _ & _ & ?)|].
Qed.

Lemma check_rules_sound k hc entries index seen r :
  r ∈ (check_rules routes k hc entries index seen).1 → rule_sound k r.
Proof.
  revert index seen. induction entries as [|e entries IH]; intros index seen; simpl; [set_solver|].
  destruct (check_rule index seen e) as [seen' p1] eqn:E1.
  destruct (check_rule_route routes k hc (trim (rf_name e)) e) as [route p2] eqn:E2.
  specialize (IH (index + 1) seen').
  destruct (check_rules routes k hc entries (index + 1) seen') as [rs ps]. simpl in *.
  destruct p1 as [|p p1]; [|done]. destruct route as [route|]; [|done].
  intros [->|Hr]%elem_of_cons; [|by apply IH]. split; simpl.
  - apply (check_rule_contradiction index seen). by rewrite E1.
  - unfold check_rule_route in E2. destruct (rf_route e) as [t|], (rf_classify e); [done| |..].
    + destruct (auto_target routes t) eqn:Et; [|done]. injection E2 as -> _.
      by eapply auto_target_configured.
    + destruct k as [k0|]; [|done]. injection E2 as <- _. by exists k0.
    + done.
Qed.

Lemma validate_auto_sound raw k hc earlier sc a :
  validate_auto routes raw k hc earlier sc = Ok a →
  classifier a = k ∧ scoring a = sc ∧ auto_fallback a ∈ configured ∧
  (∀ r, r ∈ rules a → rule_sound k r) ∧
  ∀ r, r ∈ routes → is_auto (route_str (route_name r)) = false.
Proof.
  unfold validate_auto. destruct (auto_target routes (af_fallback_route raw)) as [f|] eqn:Ef.
  2:{ destruct (check_rules _ _ _ _ _ _) as [rs rp]. by destruct (af_cross_route_fallback raw). }
  pose proof (check_rules_sound k hc (af_rules raw) 1 []) as Hrules.
  destruct (check_rules _ _ _ _ _ _) as [rs rp]. simpl in *.
  set (problems := _ ++ _ ++ _). intros Hok.
  assert (problems = [] ∧ (∃ cf, a = mkAutoRoute (af_enabled raw) f rs k sc cf)) as [Hp [cf ->]].
  { destruct (af_cross_route_fallback raw), problems, earlier; try done;
      [|by simplify_eq; eauto].
    destruct (validate_fallback _ _ _ _); [|done]. simplify_eq. eauto. }
  simpl. split_and!; auto; [by eapply auto_target_configured|].
  intros r Hr. destruct (is_auto _) eqn:E; [|done]. exfalso.
  assert (Hn : APNameTaken (route_str (route_name r)) ∈ problems); [|rewrite Hp in Hn; set_solver].
  unfold problems. apply elem_of_app. left.
  apply (list_elem_of_fmap_2 (λ r, APNameTaken (route_str (route_name r)))).
  apply list_elem_of_In, filter_In. by rewrite <-list_elem_of_In.
Qed.
End validated.
