(* ===== verification/Config.v ===== *)
(** * The router's configuration

    [crates/lightweight-router/src/config.rs] with the classifier sections of
    [classifier/mod.rs], [classifier/lightweight.rs] and [classifier/jev.rs]:
    the file as written, and the validation between it and a running router.

    Like the source, each check takes the errors reported so far and returns
    them with its own: a later check reads them.  The sentence of a problem is
    a constructor with what the sentence names.  Parsing a URL and deciding
    what is a header name are other crates' ([UrlParser], [HeaderNames]); the
    environment and the credential store are functions. *)

From stdpp Require Import base gmap strings numbers list.
From Stdlib Require Import SpecFloat.
From S2P Require Import Prelude Scheduler Names Net Domain Utf8 Float64 Affinity Fallback Placement.
From S2P Require Import Budget Classifier Scoring AutoRoute.

(** ** What other crates decide *)

(** What of a [reqwest::Url] the checks read. *)
Record Url := mkUrl {
  url_text : str;
  url_scheme : str;
  url_host : option str;
  url_username : str;
  url_password : option str;
  url_query : option str;
  url_fragment : option str }.

(** [reqwest::Url::parse]. *)
Class UrlParser := parse_url : str → option Url.

(** [axum::http::HeaderName::from_bytes(..).is_ok()]. *)
Class HeaderNames := valid_header_name : list byte → bool.

(** ** Constants *)

Definition ROUTER_PORT : u16 := 11500.
Definition DEFAULT_PROBE_INTERVAL : Duration := from_secs 5.
Definition DEFAULT_PROBE_TIMEOUT : Duration := from_secs 3.
Definition DEFAULT_FAILURE_THRESHOLD : u32 := 2.
Definition DEFAULT_CONNECT_TIMEOUT : Duration := from_secs 5.
Definition DEFAULT_SESSION_HEADER : str := lit "x-lightweight-session".
Definition DEFAULT_SESSION_IDLE_TTL : Duration := from_secs (30 * 60).
Definition DEFAULT_SESSION_MAX_ENTRIES : usize := 10000.
Definition MAX_SESSION_ENTRIES : usize := 1000000.
Definition MAX_TTL_SECS : u64 := 24 * 60 * 60.
Definition DEFAULT_PLACEMENT_INTERVAL : Duration := from_secs 15.
Definition DEFAULT_LOAD_TIMEOUT : Duration := from_secs 600.
Definition DEFAULT_PLACEMENT_BACKOFF : Duration := from_secs 30.
Definition DEFAULT_PLACEMENT_BACKOFF_MAX : Duration := from_secs 600.
Definition DEFAULT_TRACE_CAPACITY : usize := 200.
Definition MAX_TRACE_CAPACITY : usize := 10000.

Definition RESERVED_SESSION_HEADERS : list str :=
  [lit "authorization"; lit "proxy-authorization"; lit "cookie"; lit "x-request-id";
   lit "content-type"; lit "content-length"; lit "accept"; lit "host"].

(** ** The file as written *)

Record HealthFile := mkHealthFile {
  hlf_interval_secs : u64;
  hlf_timeout_secs : u64;
  hlf_failure_threshold : u32 }.

Definition HealthFile_default : HealthFile :=
  mkHealthFile (as_secs DEFAULT_PROBE_INTERVAL) (as_secs DEFAULT_PROBE_TIMEOUT)
    DEFAULT_FAILURE_THRESHOLD.

Record RequestFile := mkRequestFile {
  rqf_connect_timeout_secs : u64;
  rqf_pre_commit_budget_ms : option u64 }.

Definition RequestFile_default : RequestFile := mkRequestFile (as_secs DEFAULT_CONNECT_TIMEOUT) None.

Record SessionAffinityFile := mkSessionFile {
  saf_enabled : bool;
  saf_header : str;
  saf_idle_ttl_secs : u64;
  saf_max_entries : usize }.

Definition SessionAffinityFile_default : SessionAffinityFile :=
  mkSessionFile false DEFAULT_SESSION_HEADER (as_secs DEFAULT_SESSION_IDLE_TTL)
    DEFAULT_SESSION_MAX_ENTRIES.

Record TracesFile := mkTracesFile { tf_capacity : usize }.

Definition TracesFile_default : TracesFile := mkTracesFile DEFAULT_TRACE_CAPACITY.

Record PlacementFile := mkPlacementFile {
  plf_interval_secs : u64;
  plf_load_timeout_secs : u64;
  plf_backoff_secs : u64;
  plf_backoff_max_secs : u64 }.

Definition PlacementFile_default : PlacementFile :=
  mkPlacementFile (as_secs DEFAULT_PLACEMENT_INTERVAL) (as_secs DEFAULT_LOAD_TIMEOUT)
    (as_secs DEFAULT_PLACEMENT_BACKOFF) (as_secs DEFAULT_PLACEMENT_BACKOFF_MAX).

Record RoutePlacementFile := mkRoutePlacementFile {
  rpf_min_ready : u32;
  rpf_warm_standby : u32;
  rpf_allowed_nodes : list str }.

Record NodeFile := mkNodeFile {
  nf_id : str;
  nf_url : str;
  nf_enabled : bool;
  nf_api_key_env : option str }.

Record DeploymentFile := mkDeploymentFile { df_node : str; df_model : str }.

Record RouteFile := mkRouteFile {
  rtf_name : str;
  rtf_strategy : RoutePolicy;
  rtf_description : option str;
  rtf_deployments : list DeploymentFile;
  rtf_placement : option RoutePlacementFile }.

Record LightweightFile := mkLightweightFile {
  lwf_route : str;
  lwf_timeout_ms : option u64;
  lwf_min_confidence : f64;
  lwf_max_input_chars : usize }.

Record JevFile := mkJevFile {
  jf_base_url : str;
  jf_api_key_env : str;
  jf_model : option str;
  jf_timeout_ms : option u64;
  jf_min_confidence : f64;
  jf_max_input_chars : usize;
  jf_include_user_text : bool }.

Record ClassifierFile := mkClassifierFile {
  clf_provider : ProviderKind;
  clf_routes : list str;
  clf_fallback_route : option str;
  clf_lightweight : option LightweightFile;
  clf_jev : option JevFile;
  clf_route : option str;
  clf_timeout_ms : option u64;
  clf_min_confidence : option f64;
  clf_max_input_chars : option usize }.

(** The [auto_route] section: [asf_auto] is what [AutoRoute.v] models of it. *)
Record AutoSectionFile := mkAutoSection {
  asf_auto : AutoRouteFile;
  asf_classifier : option ClassifierFile;
  asf_scoring : option AdaptiveScoringFile }.

Record RouterFile := mkRouterFile {
  rf_listen : list str;
  rf_api_key_env : option str;
  rf_default_route : option str;
  rf_health : HealthFile;
  rf_request : RequestFile;
  rf_session_affinity : SessionAffinityFile;
  rf_traces : TracesFile;
  rf_placement : PlacementFile;
  rf_auto_route : option AutoSectionFile;
  rf_nodes : list NodeFile;
  rf_routes : list RouteFile }.

(** ** What it becomes *)

Record HealthPolicy := mkHealthPolicy {
  probe_interval : Duration;
  probe_timeout : Duration;
  probe_failure_threshold : u32 }.

Definition HealthPolicy_default : HealthPolicy :=
  mkHealthPolicy DEFAULT_PROBE_INTERVAL DEFAULT_PROBE_TIMEOUT DEFAULT_FAILURE_THRESHOLD.

Definition AffinityPolicy_default : AffinityPolicy :=
  mkAffinityPolicy false DEFAULT_SESSION_HEADER DEFAULT_SESSION_IDLE_TTL DEFAULT_SESSION_MAX_ENTRIES.

Definition PlacementPolicy_default : PlacementPolicy :=
  mkPlacementPolicy DEFAULT_PLACEMENT_INTERVAL DEFAULT_LOAD_TIMEOUT DEFAULT_PLACEMENT_BACKOFF
    DEFAULT_PLACEMENT_BACKOFF_MAX.

Record RouterConfig := mkRouterConfig {
  rcfg_topology : Topology;
  rcfg_listen : list SocketAddr;
  rcfg_client_key : option Secret;
  rcfg_health : HealthPolicy;
  rcfg_connect_timeout : Duration;
  rcfg_pre_commit_budget : option Duration;
  rcfg_affinity : AffinityPolicy;
  rcfg_trace_capacity : usize;
  rcfg_placement : PlacementPolicy;
  rcfg_auto : option AutoRoute }.

(** [RouterConfig::warnings]: the classifier's bound and the budget of the one
    warning there is. *)
Definition warnings (c : RouterConfig) : option (Duration * Duration) :=
  match rcfg_pre_commit_budget c, rcfg_auto c ≫= classifier with
  | Some budget, Some k =>
      if budget <=? timeout (classifier_limits k) then Some (timeout (classifier_limits k), budget)
      else None
  | _, _ => None
  end.

Inductive UrlProblem := UPInvalid | UPScheme | UPNoHost | UPCredentials | UPQuery.

Inductive HeaderProblem := HPEmpty | HPInvalid | HPReserved.

Inductive PlacementProblem :=
| PPMinReady | PPNoNodes | PPRepeated (node : str) | PPNoDeployment (node : str)
| PPTooMany (target reachable : Z).

Inductive DescriptionProblem := DPEmpty | DPTooLong | DPControl.

(** Whose variable it is. *)
Inductive Owner := OwnerRouter | OwnerNode (id : str) | OwnerJev.

(** The block a bound was written in: [lightweight.], the shorthand, [jev.]. *)
Inductive Block := BlockLightweight | BlockShorthand | BlockJev.

Inductive ClassifierProblem :=
| KPFallback (name : str) (why : TargetProblem)
| KPNoRoutes
| KPTooManyRoutes (n : usize)
| KPRepeated (name : str)
| KPRoute (name : str) (why : TargetProblem)
| KPBothForms
| KPRouteRequired
| KPNeedsLightweight
| KPNeedsJev
| KPConfidence (b : Block)
| KPTimeoutRequired (b : Block)
| KPTimeoutRange (b : Block)
| KPInputChars (b : Block)
| KPLightweightRoute (b : Block) (name : str) (why : TargetProblem)
| KPJevHttps (url : str)
| KPJevUrl (url : str) (why : UrlProblem)
| KPJevModelRequired | KPJevModelEmpty | KPJevModel.

Inductive ConfigError :=
| NoNodes
| NoRoutes
| BadListen (value : str)
| BadNodeId (id : str) (problem : NodeIdProblem)
| DuplicateNode (id : str)
| BadUrl (node url : str) (problem : UrlProblem)
| BadEnvName (owner : Owner) (var : str)
| MissingEnv (owner : Owner) (var : str)
| BadRouteName (name : str) (problem : AliasProblem)
| ReservedRouteName (name : str)
| DuplicateRoute (name : str)
| EmptyRoute (route : str)
| UnknownNode (route node : str)
| EmptyModel (route node : str)
| BadModel (route node : str)
| DuplicateDeployment (route deployment : str)
| UnknownDefaultRoute (name : str)
| BadHealth (field : str) (minimum : u64)
| TimeoutExceedsInterval
| BadConnectTimeout
| BadPreCommitBudget (minimum maximum : u64)
| BadSessionHeader (header : str) (problem : HeaderProblem)
| BadSessionLimit (field : str) (minimum maximum : u64)
| BadTraceCapacity (maximum : usize)
| BadPlacementTiming (field : str) (minimum : u64)
| BackoffMaxBelowInitial
| BadRoutePlacement (route : str) (problem : PlacementProblem)
| BadAuto (problem : AutoProblem)
| BadAutoClassifier (problem : ClassifierProblem)
| BadAdaptiveScoring (problem : ScoringProblem)
| BadRouteDescription (route : str) (problem : DescriptionProblem).

(** The errors reported so far, and those with one more when [b] holds. *)
Abbreviation Errors := (list ConfigError) (only parsing).

Definition push_if (b : bool) (e : ConfigError) (errors : Errors) : Errors :=
  if b then errors ++ [e] else errors.

(** ** Simple sections *)

Definition validate_placement (raw : PlacementFile) (errors : Errors) : PlacementPolicy * Errors :=
  let low (field : str) (value : u64) := push_if (value <? 1) (BadPlacementTiming field 1) in
  let errors := low (lit "interval_secs") (plf_interval_secs raw) errors in
  let errors := low (lit "load_timeout_secs") (plf_load_timeout_secs raw) errors in
  let errors := low (lit "backoff_secs") (plf_backoff_secs raw) errors in
  let errors := push_if (plf_backoff_max_secs raw <? plf_backoff_secs raw)
                  BackoffMaxBelowInitial errors in
  (mkPlacementPolicy (from_secs (plf_interval_secs raw)) (from_secs (plf_load_timeout_secs raw))
     (from_secs (plf_backoff_secs raw)) (from_secs (plf_backoff_max_secs raw)), errors).

Definition validate_affinity `{HeaderNames} (raw : SessionAffinityFile) (errors : Errors)
    : AffinityPolicy * Errors :=
  let header := ascii_lower <$> trim (saf_header raw) in
  let problem :=
    if bool_decide (header = []) then Some HPEmpty
    else if negb (valid_header_name (utf8_encode header)) then Some HPInvalid
    else if bool_decide (header ∈ RESERVED_SESSION_HEADERS) then Some HPReserved
    else None in
  let errors := match problem with
                | Some why => errors ++ [BadSessionHeader (saf_header raw) why]
                | None => errors
                end in
  let errors := push_if ((saf_idle_ttl_secs raw =? 0) || (MAX_TTL_SECS <? saf_idle_ttl_secs raw))
                  (BadSessionLimit (lit "idle_ttl_secs") 1 MAX_TTL_SECS) errors in
  let errors := push_if ((saf_max_entries raw =? 0) || (MAX_SESSION_ENTRIES <? saf_max_entries raw))
                  (BadSessionLimit (lit "max_entries") 1 MAX_SESSION_ENTRIES) errors in
  (mkAffinityPolicy (saf_enabled raw) header (from_secs (saf_idle_ttl_secs raw))
     (saf_max_entries raw), errors).

Fixpoint listen_all (raw : list str) (errors : Errors) : list SocketAddr * Errors :=
  match raw with
  | [] => ([], errors)
  | value :: raw =>
      match parse_socket (trim value) with
      | Some address => let '(addresses, errors) := listen_all raw errors in
                        (address :: addresses, errors)
      | None => listen_all raw (errors ++ [BadListen value])
      end
  end.

Definition validate_listen (raw : list str) (errors : Errors) : list SocketAddr * Errors :=
  if bool_decide (raw = []) then ([mkSocket (V4 0x7F000001) ROUTER_PORT], errors)
  else listen_all raw errors.

Definition validate_health (raw : HealthFile) (errors : Errors) : HealthPolicy * Errors :=
  let errors := push_if (hlf_interval_secs raw =? 0) (BadHealth (lit "interval_secs") 1) errors in
  let errors := push_if (hlf_timeout_secs raw =? 0) (BadHealth (lit "timeout_secs") 1) errors in
  let errors := push_if (hlf_failure_threshold raw =? 0)
                  (BadHealth (lit "failure_threshold") 1) errors in
  let errors := push_if (hlf_interval_secs raw <? hlf_timeout_secs raw)
                  TimeoutExceedsInterval errors in
  (mkHealthPolicy (from_secs (hlf_interval_secs raw)) (from_secs (hlf_timeout_secs raw))
     (hlf_failure_threshold raw), errors).

(** [Duration::from_millis]. *)
Definition from_millis (ms : u64) : Duration := ms * 1000000.

Definition validate_budget (raw : option u64) (errors : Errors) : option Duration * Errors :=
  match raw with
  | Some ms =>
      if (MIN_BUDGET_MS <=? ms) && (ms <=? MAX_BUDGET_MS) then (Some (from_millis ms), errors)
      else (None, errors ++ [BadPreCommitBudget MIN_BUDGET_MS MAX_BUDGET_MS])
  | None => (None, errors)
  end.

(** ** Secrets *)

Definition is_ascii_digit (c : char) : bool := (48 <=? c) && (c <=? 57).

Definition usable_env_name (var : str) : bool :=
  negb (bool_decide (var = []))
  && forallb (fun c => is_ascii_alphanumeric c || (c =? 95)) var
  && match var with c :: _ => negb (is_ascii_digit c) | [] => true end.

(** A value that says something once trimmed. *)
Definition present (value : option str) : option str :=
  let! value := value in
  if bool_decide (trim value = []) then None else Some (trim value).

Definition read_secret (owner : Owner) (var : str) (env : str → option str) (errors : Errors)
    : option Secret * Errors :=
  if negb (usable_env_name var) then (None, errors ++ [BadEnvName owner var])
  else match present (env var) with
       | Some value => (Some (mkSecret value), errors)
       | None => (None, errors ++ [MissingEnv owner var])
       end.

(** ** Nodes *)

(** [url.host_str().is_none_or(str::is_empty)]. *)
Definition no_host (url : Url) : bool :=
  match url_host url with None | Some [] => true | _ => false end.

Definition validate_url `{UrlParser} (raw : str) : result Url UrlProblem :=
  match parse_url (trim raw) with
  | None => Err UPInvalid
  | Some url =>
      if negb (bool_decide (url_scheme url ∈ [lit "http"; lit "https"])) then Err UPScheme
      else if no_host url then Err UPNoHost
      else if negb (bool_decide (url_username url = [])) || bool_decide (is_Some (url_password url))
      then Err UPCredentials
      else if bool_decide (is_Some (url_query url)) || bool_decide (is_Some (url_fragment url))
      then Err UPQuery
      else Ok url
  end.

Section nodes.
Context `{UrlParser} (env : str → option str).

(** The key of a node that is on. *)
Definition node_auth (id : NodeId) (entry : NodeFile) (errors : Errors) : NodeAuth * Errors :=
  match nf_api_key_env entry, nf_enabled entry with
  | Some var, true =>
      match read_secret (OwnerNode (node_str id)) var env errors with
      | (Some secret, errors) => (AuthBearer var secret, errors)
      | (None, errors) => (AuthNone, errors)
      end
  | _, _ => (AuthNone, errors)
  end.

(** The loop over the entries, with the names [seen]. *)
Fixpoint node_loop (raw : list NodeFile) (seen : list str) (errors : Errors) : list Node * Errors :=
  match raw with
  | [] => ([], errors)
  | entry :: raw =>
      match NodeId_parse (nf_id entry) with
      | Err problem => node_loop raw seen (errors ++ [BadNodeId (nf_id entry) problem])
      | Ok id =>
          let key := ascii_lower <$> node_str id in
          if bool_decide (key ∈ seen)
          then node_loop raw seen (errors ++ [DuplicateNode (node_str id)])
          else
            let '(base, errors) :=
              match validate_url (nf_url entry) with
              | Ok url => (Some (url_text url), errors)
              | Err problem => (None, errors ++ [BadUrl (node_str id) (nf_url entry) problem])
              end in
            let '(auth, errors) := node_auth id entry errors in
            let '(nodes, errors) := node_loop raw (seen ++ [key]) errors in
            (match base with
             | Some base => mkNode id base (nf_enabled entry) auth :: nodes
             | None => nodes
             end, errors)
      end
  end.

Definition validate_nodes (raw : list NodeFile) (errors : Errors) : list Node * Errors :=
  node_loop raw [] errors.
End nodes.

(** ** Routes *)

Section routes.
Context `{LowerCase}.

(** The members of a route on a node [placement.allowed_nodes] names. *)
Definition members_on (members : list DeploymentId) (deployments : list Deployment) (node : str)
    : list DeploymentId :=
  List.filter (fun id =>
    existsb (fun d => bool_decide (deployment_id d = id)
                      && eq_ignore_ascii_case (node_str (deployment_node d)) node) deployments)
    members.

(** The loop over [allowed_nodes]. *)
Fixpoint allowed_loop (members : list DeploymentId) (deployments : list Deployment)
    (nodes : list str) (named : list str) (allowed : list DeploymentId)
    : result (list DeploymentId) PlacementProblem :=
  match nodes with
  | [] => Ok allowed
  | node :: nodes =>
      let key := ascii_lower <$> node in
      if bool_decide (key ∈ named) then Err (PPRepeated node)
      else let found := members_on members deployments node in
           if bool_decide (found = []) then Err (PPNoDeployment node)
           else allowed_loop members deployments nodes (named ++ [key]) (allowed ++ found)
  end.

Definition member_index (members : list DeploymentId) (id : DeploymentId) : Z :=
  match position_of (fun m => bool_decide (m = id)) members with
  | Some i => Z.of_nat i
  | None => -1
  end.

(** What is wrong with a route's placement, or what it becomes. *)
Definition check_placement (raw : RoutePlacementFile) (members : list DeploymentId)
    (deployments : list Deployment) : result RoutePlacement PlacementProblem :=
  if rpf_min_ready raw =? 0 then Err PPMinReady
  else if bool_decide (rpf_allowed_nodes raw = []) then Err PPNoNodes
  else
    let? allowed := allowed_loop members deployments (rpf_allowed_nodes raw) [] [] in
    let p := mkPlacement (rpf_min_ready raw) (rpf_warm_standby raw)
               (sort_by (fun a b => member_index members a <? member_index members b) allowed) in
    if Z.of_nat (length members) <? target p
    then Err (PPTooMany (target p) (Z.of_nat (length members)))
    else Ok p.

Definition validate_route_placement (route : RouteName) (raw : RoutePlacementFile)
    (members : list DeploymentId) (deployments : list Deployment) (errors : Errors)
    : option RoutePlacement * Errors :=
  match check_placement raw members deployments with
  | Ok p => (Some p, errors)
  | Err why => (None, errors ++ [BadRoutePlacement (route_str route) why])
  end.

(** [classifier::validate_description]. *)
Definition validate_description (raw : str) : result str DescriptionProblem :=
  let description := trim raw in
  if bool_decide (description = []) then Err DPEmpty
  else if MAX_DESCRIPTION_CHARS <? Z.of_nat (length description) then Err DPTooLong
  else if existsb is_control description then Err DPControl
  else Ok description.

(** Whether a node's URL has already been refused. *)
Definition url_reported (errors : Errors) (name : str) : bool :=
  existsb (fun e => match e with BadUrl node _ _ => bool_decide (node = name) | _ => false end) errors.

(** The deployment of a node and a model: the one there is, or a new one. *)
Definition intern (deployments : list Deployment) (node : NodeId) (model : str)
    : DeploymentId * list Deployment :=
  match find_first (fun d => bool_decide (deployment_node d = node)
                             && same_name (remote_model d) model) deployments with
  | Some d => (deployment_id d, deployments)
  | None =>
      let id := DeploymentId_of node model in
      (id, deployments ++ [mkDeployment id node model])
  end.

(** The loop over one route's deployments. *)
Fixpoint member_loop (nodes : list Node) (route : RouteName) (raw : list DeploymentFile)
    (deployments : list Deployment) (members : list DeploymentId) (errors : Errors)
    : list DeploymentId * list Deployment * Errors :=
  match raw with
  | [] => (members, deployments, errors)
  | listed :: raw =>
      match find_first (fun n => bool_decide (node_str (node_id n) = trim (df_node listed))) nodes with
      | None =>
          member_loop nodes route raw deployments members
            (push_if (is_ok (NodeId_parse (df_node listed))
                      && negb (url_reported errors (trim (df_node listed))))
               (UnknownNode (route_str route) (df_node listed)) errors)
      | Some node =>
          let model := trim (df_model listed) in
          if bool_decide (model = [])
          then member_loop nodes route raw deployments members
                 (errors ++ [EmptyModel (route_str route) (node_str (node_id node))])
          else if existsb is_control model
          then member_loop nodes route raw deployments members
                 (errors ++ [BadModel (route_str route) (node_str (node_id node))])
          else
            let '(id, deployments) := intern deployments (node_id node) model in
            if bool_decide (id ∈ members)
            then member_loop nodes route raw deployments members
                   (errors ++ [DuplicateDeployment (route_str route) (deployment_str id)])
            else member_loop nodes route raw deployments (members ++ [id]) errors
      end
  end.

(** One route that has a name of its own. *)
Definition route_of (nodes : list Node) (name : RouteName) (entry : RouteFile)
    (deployments : list Deployment) (errors : Errors) : Route * list Deployment * Errors :=
  let '(members, deployments, errors) :=
    member_loop nodes name (rtf_deployments entry) deployments [] errors in
  let '(placement, errors) :=
    match rtf_placement entry with
    | Some raw => validate_route_placement name raw members deployments errors
    | None => (None, errors)
    end in
  let '(description, errors) :=
    match rtf_description entry with
    | Some raw =>
        match validate_description raw with
        | Ok d => (Some d, errors)
        | Err why => (None, errors ++ [BadRouteDescription (route_str name) why])
        end
    | None => (None, errors)
    end in
  (mkRoute name (rtf_strategy entry) members description placement, deployments, errors).

Fixpoint route_loop (nodes : list Node) (raw : list RouteFile) (routes : list Route)
    (deployments : list Deployment) (errors : Errors)
    : list Route * list Deployment * Errors :=
  match raw with
  | [] => (routes, deployments, errors)
  | entry :: raw =>
      match RouteName_parse (rtf_name entry) with
      | Err APReserved =>
          route_loop nodes raw routes deployments (errors ++ [ReservedRouteName (rtf_name entry)])
      | Err problem =>
          route_loop nodes raw routes deployments (errors ++ [BadRouteName (rtf_name entry) problem])
      | Ok name =>
          if existsb (fun r => name_matches (route_name r) (route_str name)) routes
          then route_loop nodes raw routes deployments (errors ++ [DuplicateRoute (route_str name)])
          else if bool_decide (rtf_deployments entry = [])
          then route_loop nodes raw routes deployments (errors ++ [EmptyRoute (route_str name)])
          else
            let '(route, deployments, errors) := route_of nodes name entry deployments errors in
            route_loop nodes raw (routes ++ [route]) deployments errors
      end
  end.

Definition validate_routes (raw : list RouteFile) (nodes : list Node) (errors : Errors)
    : list Route * list Deployment * Errors :=
  route_loop nodes raw [] [] errors.

Definition validate_default (name : option str) (routes : list Route) (errors : Errors)
    : option nat * Errors :=
  match name with
  | None => (None, errors)
  | Some name =>
      if is_reserved name then (None, errors ++ [UnknownDefaultRoute name])
      else match position_of (fun r => name_matches (route_name r) name) routes with
           | Some i => (Some i, errors)
           | None => (None, errors ++ [UnknownDefaultRoute name])
           end
  end.
End routes.

(** ** The classifier section *)

Section classifier.
Context `{LowerCase} `{UrlParser} (env stored : str → option str) (routes : list Route).

(** Problems of the section are collected apart from the errors. *)
Abbreviation Problems := (list ClassifierProblem) (only parsing).

Definition validate_limits (b : Block) (timeout_ms : option u64) (confidence : f64)
    (input_chars : usize) : option Limits * Problems :=
  let p1 := if is_finite confidence && f64_within f64_0 f64_1 confidence then []
            else [KPConfidence b] in
  let p2 := match timeout_ms with
            | None => [KPTimeoutRequired b]
            | Some t => if (t =? 0) || (MAX_TIMEOUT_MS <? t) then [KPTimeoutRange b] else []
            end in
  let p3 := if (input_chars =? 0) || (MAX_INPUT_CHARS <? input_chars) then [KPInputChars b] else [] in
  (match p1 ++ p2 ++ p3 with
   | [] => Some (mkLimits (from_millis (default 1 timeout_ms)) confidence input_chars)
   | _ => None
   end, p1 ++ p2 ++ p3).

(** [lightweight::validate]. *)
Definition validate_lightweight (raw : LightweightFile) (b : Block)
    : option LightweightClassifier * Problems :=
  let '(route, p1) := match auto_target routes (lwf_route raw) with
                      | Ok r => (Some r, [])
                      | Err why => (None, [KPLightweightRoute b (lwf_route raw) why])
                      end in
  let '(limits, p2) := validate_limits b (lwf_timeout_ms raw) (lwf_min_confidence raw)
                         (lwf_max_input_chars raw) in
  (match route, limits with Some r, Some l => Some (mkLightweight r l) | _, _ => None end, p1 ++ p2).

(** [jev::is_loopback]: [localhost], or a loopback address with its brackets
    off. *)
Fixpoint trim_start_char (c : char) (s : str) : str :=
  match s with
  | x :: s' => if x =? c then trim_start_char c s' else s
  | [] => []
  end.

Definition trim_end_char (c : char) (s : str) : str := reverse (trim_start_char c (reverse s)).

Definition url_is_loopback (url : Url) : bool :=
  match url_host url with
  | None => false
  | Some host =>
      eq_ignore_ascii_case host (lit "localhost")
      || match parse_ip (trim_end_char 93 (trim_start_char 91 host)) with
         | Some ip => Scheduler.is_loopback ip
         | None => false
         end
  end.

Definition jev_base (raw : JevFile) : option str * Problems :=
  match validate_url (jf_base_url raw) with
  | Ok url =>
      if bool_decide (url_scheme url = lit "https") || url_is_loopback url
      then (Some (trim_end_char 47 (url_text url)), [])
      else (None, [KPJevHttps (jf_base_url raw)])
  | Err why => (None, [KPJevUrl (jf_base_url raw) why])
  end.

Definition jev_model_of (raw : JevFile) : option str * Problems :=
  match trim <$> jf_model raw with
  | None => (None, [KPJevModelRequired])
  | Some [] => (None, [KPJevModelEmpty])
  | Some model =>
      if existsb is_control model || (128 <? Z.of_nat (length (utf8_encode model)))
      then (None, [KPJevModel]) else (Some model, [])
  end.

(** The key and where it came from; the errors when it is demanded and not
    found. *)
Definition jev_key_of (raw : JevFile) (active : bool) : result (option Secret * KeySource) Errors :=
  let var := jf_api_key_env raw in
  let from_store := if usable_env_name var then present (stored var) else None in
  if active then
    match read_secret OwnerJev var env [] with
    | (Some key, _) => Ok (Some key, FromEnvironment)
    | (None, env_errors) =>
        match from_store with
        | Some value => Ok (Some (mkSecret value), FromCredentialStore)
        | None => Err env_errors
        end
    end
  else
    match present (env var) with
    | Some value => Ok (Some (mkSecret value), FromEnvironment)
    | None =>
        match from_store with
        | Some value => Ok (Some (mkSecret value), FromCredentialStore)
        | None => Ok (None, KeyMissing)
        end
    end.

(** [jev::validate]; its problems and the errors it reports directly. *)
Definition validate_jev (raw : JevFile) (active : bool)
    : option JevClassifier * Problems * Errors :=
  let '(base, p1) := jev_base raw in
  let '(model, p2) := jev_model_of raw in
  let '(limits, p3) := validate_limits BlockJev (jf_timeout_ms raw) (jf_min_confidence raw)
                         (jf_max_input_chars raw) in
  match jev_key_of raw active with
  | Err errors => (None, p1 ++ p2 ++ p3, errors)
  | Ok (key, source) =>
      (match base, model, limits with
       | Some base, Some model, Some limits =>
           Some (mkJev base (jf_api_key_env raw) key source model limits (jf_include_user_text raw))
       | _, _, _ => None
       end, p1 ++ p2 ++ p3, [])
  end.

(** The loop over the candidates. *)
Fixpoint candidate_loop (names : list str) (candidates : list RouteCandidate)
    : list RouteCandidate * Problems :=
  match names with
  | [] => (candidates, [])
  | name :: names =>
      match auto_target routes name with
      | Err why => let '(cs, ps) := candidate_loop names candidates in (cs, KPRoute name why :: ps)
      | Ok found =>
          if existsb (fun c => bool_decide (rc_route c = found)) candidates
          then let '(cs, ps) := candidate_loop names candidates in (cs, KPRepeated name :: ps)
          else candidate_loop names
                 (candidates ++ [mkRouteCandidate found
                    (find_first (fun r => bool_decide (route_name r = found)) routes
                       ≫= description)])
      end
  end.

(** The Lightweight settings: the block, or the shorthand. *)
Definition lightweight_settings (raw : ClassifierFile)
    : option (LightweightFile * Block) * Problems :=
  let shorthand := bool_decide (is_Some (clf_route raw)) || bool_decide (is_Some (clf_timeout_ms raw))
    || bool_decide (is_Some (clf_min_confidence raw))
    || bool_decide (is_Some (clf_max_input_chars raw)) in
  match clf_lightweight raw, shorthand with
  | Some _, true => (None, [KPBothForms])
  | Some block, false => (Some (block, BlockLightweight), [])
  | None, true =>
      match clf_route raw with
      | Some route =>
          (Some (mkLightweightFile route (clf_timeout_ms raw)
                   (default DEFAULT_MIN_CONFIDENCE (clf_min_confidence raw))
                   (default DEFAULT_MAX_INPUT_CHARS (clf_max_input_chars raw)), BlockShorthand), [])
      | None => (None, [KPRouteRequired])
      end
  | None, false => (None, [])
  end.

(** [classifier::validate]: the errors it adds. *)
Definition validate_classifier (raw : ClassifierFile) (auto_fallback : str)
    : option RouteClassifier * Errors :=
  let fallback_name := default auto_fallback (clf_fallback_route raw) in
  let fallback := auto_target routes fallback_name in
  let p1 := match fallback with Ok _ => [] | Err why => [KPFallback fallback_name why] end in
  let p2 := if bool_decide (clf_routes raw = []) then [KPNoRoutes] else [] in
  let p3 := if MAX_CANDIDATES <? Z.of_nat (length (clf_routes raw))
            then [KPTooManyRoutes (Z.of_nat (length (clf_routes raw)))] else [] in
  let '(candidates, p4) := candidate_loop (clf_routes raw) [] in
  let '(settings, p5) := lightweight_settings raw in
  let '(lightweight, p6) :=
    match settings with
    | Some (file, b) => let '(l, ps) := validate_lightweight file b in (ProviderLightweight <$> l, ps)
    | None => (None, [])
    end in
  let jev_active := match clf_provider raw with KindJev => true | KindLightweight => false end in
  let '(jev, p7, key_errors) :=
    match clf_jev raw with
    | Some file => let '(j, ps, es) := validate_jev file jev_active in (ProviderJev <$> j, ps, es)
    | None => (None, [], [])
    end in
  let p8 := match clf_provider raw with
            | KindLightweight => if bool_decide (settings = None) then [KPNeedsLightweight] else []
            | KindJev => if bool_decide (clf_jev raw = None) then [KPNeedsJev] else []
            end in
  let errors := key_errors
                ++ map BadAutoClassifier (p1 ++ p2 ++ p3 ++ p4 ++ p5 ++ p6 ++ p7 ++ p8) in
  let chosen := match clf_provider raw with
                | KindLightweight => (lightweight, jev)
                | KindJev => (jev, lightweight)
                end in
  match errors, chosen.1, fallback with
  | [], Some provider, Ok fallback =>
      (Some (mkClassifier candidates fallback provider chosen.2), [])
  | _, _, _ => (None, errors)
  end.

(** ** The [auto_route] section *)

(** Reported before the classifier's. *)
Definition reported_first (p : AutoProblem) : bool :=
  match p with APNameTaken _ | APFallback _ _ => true | _ => false end.

Definition validate_auto_section (raw : AutoSectionFile) : option AutoRoute * Errors :=
  let '(k, e1) :=
    match asf_classifier raw with
    | Some file => validate_classifier file (af_fallback_route (asf_auto raw))
    | None => (None, [])
    end in
  let has_classifier := bool_decide (is_Some (asf_classifier raw)) in
  let '(sc, e2) :=
    match asf_scoring raw with
    | Some file => match validate_scoring file k has_classifier with
                   | Ok s => (Some s, [])
                   | Err ps => (None, map BadAdaptiveScoring ps)
                   end
    | None => (None, [])
    end in
  let earlier := negb (bool_decide (length (e1 ++ e2) = 0%nat)) in
  match validate_auto routes (asf_auto raw) k has_classifier earlier sc with
  | Err problems =>
      (None, map BadAuto (List.filter reported_first problems) ++ e1 ++ e2
             ++ map BadAuto (List.filter (fun p => negb (reported_first p)) problems))
  | Ok a => if earlier then (None, e1 ++ e2) else (Some a, [])
  end.
End classifier.

(** ** The whole file *)

Section validate.
Context `{LowerCase} `{UrlParser} `{HeaderNames}.

(** [validate_with_store]; [validate] has an empty store. *)
Definition validate_with_store (file : RouterFile) (env stored : str → option str)
    : result RouterConfig Errors :=
  let '(listen, errors) := validate_listen (rf_listen file) [] in
  let '(client_key, errors) :=
    match rf_api_key_env file with
    | Some var => read_secret OwnerRouter var env errors
    | None => (None, errors)
    end in
  let '(health, errors) := validate_health (rf_health file) errors in
  let errors := push_if (rqf_connect_timeout_secs (rf_request file) =? 0) BadConnectTimeout errors in
  let '(budget, errors) := validate_budget (rqf_pre_commit_budget_ms (rf_request file)) errors in
  let '(affinity, errors) := validate_affinity (rf_session_affinity file) errors in
  let '(placement, errors) := validate_placement (rf_placement file) errors in
  let errors := push_if (MAX_TRACE_CAPACITY <? tf_capacity (rf_traces file))
                  (BadTraceCapacity MAX_TRACE_CAPACITY) errors in
  let errors := push_if (bool_decide (rf_nodes file = [])) NoNodes errors in
  let errors := push_if (bool_decide (rf_routes file = [])) NoRoutes errors in
  let '(nodes, errors) := validate_nodes env (rf_nodes file) errors in
  let '(routes, deployments, errors) := validate_routes (rf_routes file) nodes errors in
  let '(default_index, errors) := validate_default (rf_default_route file) routes errors in
  let '(auto, errors) :=
    match rf_auto_route file with
    | Some raw => let '(a, es) := validate_auto_section env stored routes raw in (a, errors ++ es)
    | None => (None, errors)
    end in
  match errors with
  | [] =>
      Ok (mkRouterConfig (mkTopology nodes deployments routes default_index) listen client_key
            health (from_secs (rqf_connect_timeout_secs (rf_request file))) budget affinity
            (tf_capacity (rf_traces file)) placement auto)
  | _ => Err errors
  end.

Definition validate (file : RouterFile) (env : str → option str) : result RouterConfig Errors :=
  validate_with_store file env (fun _ => None).
End validate.
