(* ===== verification/ConfigTheorems.v ===== *)
(** * Theorems on the router's configuration

    What an accepted file guarantees the rest of the router, and the one
    promise of the topology's type it does not keep. *)

From stdpp Require Import base gmap strings numbers list.
From Stdlib Require Import SpecFloat.
From S2P Require Import Prelude Scheduler Names Net Domain Utf8 Float64 Affinity Fallback Placement.
From S2P Require Import Frames Budget Classifier Scoring AutoRoute Config.

(** ** Errors are only ever added

    Every check returns the errors it was given with its own after them; with
    none at the end there were none on the way, and each test passed. *)










(** ** Nodes *)





(** ** Deployments and routes *)

Section routes.
Context `{LowerCase}.






(** ** Placement of a route *)




(** ** A route *)









End routes.

(** ** The classifier and the [auto_route] section *)

Section auto.
Context `{LowerCase} `{UrlParser} (env stored : str → option str) (routes : list Route).

Abbreviation configured := (map route_name routes).










(** *** Scoring *)















End auto.

(** ** An accepted file *)





(** A deployment on a node whose name is not one is dropped without a
    word.  An entry naming neither a configured node nor a well-formed node id
    reports nothing and adds nothing, so a route made only of such entries is
    accepted with no deployment at all. *)
Theorem misnamed_node_is_dropped `{L : LowerCase} nodes route listed raw ds ms errors problem :
  NodeId_parse (df_node listed) = Err problem →
  (∀ n, n ∈ nodes → node_str (node_id n) ≠ trim (df_node listed)) →
  member_loop nodes route (listed :: raw) ds ms errors = member_loop nodes route raw ds ms errors.
Proof.
  intros Hp Hn. simpl. destruct (find_first _ nodes) as [n|] eqn:Hf.
  { apply find_first_Some in Hf as [Hin Hd]. apply bool_decide_eq_true in Hd. by destruct (Hn n). }
  by rewrite Hp.
Qed.

(** ** A file *)
Section demo.
#[local] Existing Instance ascii_case.

(** A URL of the shape [scheme://host/], which is all the demo file has. *)
Definition demo_urls : UrlParser := fun s =>
  let! i := find s (lit "://") in
  Some (mkUrl s (take i s) (Some (drop (i + 3) s)) [] None None None).
Definition demo_headers : HeaderNames := fun _ => true.
#[local] Existing Instance demo_urls.
#[local] Existing Instance demo_headers.

Definition demo_env (var : str) : option str :=
  if bool_decide (var = lit "DELL_KEY") then Some (lit " dell-secret ") else None.

Definition demo_classifier : ClassifierFile :=
  mkClassifierFile KindLightweight [lit "coder"; lit "Fast"] None
    (Some (mkLightweightFile (lit "Fast") (Some 30000) DEFAULT_MIN_CONFIDENCE DEFAULT_MAX_INPUT_CHARS))
    None None None None None.

Definition tenth : f64 := f64_div f64_1 (f64_of 10).

Definition demo_scoring : AdaptiveScoringFile :=
  mkScoringFile true (mkWeights f64_1 tenth f64_0) [(lit "CODER", f64_1); (lit "fast", tenth)]
    (mkHistoryFile DEFAULT_HALF_LIFE_SECS DEFAULT_MIN_SAMPLES None).

Definition demo_file (broken : bool) : RouterFile :=
  mkRouterFile [] None (Some (lit "fast")) HealthFile_default
    (mkRequestFile 5 (Some 60000)) SessionAffinityFile_default TracesFile_default PlacementFile_default
    (Some (mkAutoSection (mkAutoFile true (lit "Fast") [] None) (Some demo_classifier) (Some demo_scoring)))
    [mkNodeFile (lit "dell") (lit "http://192.0.2.10:11434") true (Some (lit "DELL_KEY"));
     mkNodeFile (lit "t420") (lit "http://192.0.2.11:11434") false (Some (lit "T420_KEY"))]
    [mkRouteFile (lit "Coder") Priority None
       [mkDeploymentFile (lit "dell") (lit "QwenCoder"); mkDeploymentFile (lit "t420") (lit "Backup")]
       (Some (mkRoutePlacementFile 1 1 [lit "DELL"]));
     mkRouteFile (lit "Fast") LeastBusy (Some (lit "short questions"))
       [mkDeploymentFile (if broken then lit "lap top" else lit "t420") (lit "Fast")] None].



(** The route [Fast], whose only deployment names a node [lap top]. *)
Lemma misnamed_node_is_dropped_witness :
  let listed := mkDeploymentFile (lit "lap top") (lit "Fast") in
  (∀ nodes, (∀ n, n ∈ nodes → node_str (node_id n) ≠ lit "lap top") →
     member_loop nodes (mkRouteName (lit "Fast")) [listed] [] [] []
     = member_loop nodes (mkRouteName (lit "Fast")) [] [] [] []) ∧
  ∃ c, validate_with_store (demo_file true) demo_env (λ _, None) = Ok c ∧
    map route_deployments (routes (rcfg_topology c))
      = [[mkDeploymentId (lit "dell/QwenCoder"); mkDeploymentId (lit "t420/Backup")]; []].
Proof.
  intros listed. split.
  - intros nodes Hn. apply (misnamed_node_is_dropped nodes _ listed [] [] [] [] (NICharacter 32)); [|done].
    by vm_compute.
  - destruct (validate_with_store (demo_file true) demo_env (λ _, None)) as [c|] eqn:Hc;
      [|by vm_compute in Hc].
    exists c. split; [done|]. vm_compute in Hc. injection Hc as <-. by vm_compute.
Defined.
End demo.
