(* ===== verification/Responses.v ===== *)
(** * What the router answers with

    [crates/lightweight-router/src/error.rs] and the envelope of
    [crates/lightweight-api/src/error.rs]: the answers the router writes
    itself.  A header map is a finite map from lower-case names; a body is
    bytes, the JSON of an envelope, or a stream of the kind the caller says. *)

From stdpp Require Import base gmap strings numbers pretty list.
From S2P Require Import Prelude Names Domain Utf8.

(** [fmt::Debug] of a string: quotes around it, and escapes that depend on
    the Unicode tables. *)
Class StrDebug := debug_str : str → str.

(** ** Envelopes *)

(** Of [ErrorBody], [hermes] is left out: no envelope of the router has it. *)
Record ErrorEnvelope := mkEnvelope {
  env_message : str;
  env_type : str;
  env_param : option str;
  env_code : str }.

Definition invalid_request (message code : str) : ErrorEnvelope :=
  mkEnvelope message (lit "invalid_request_error") None code.

Definition with_param (e : ErrorEnvelope) (param : str) : ErrorEnvelope :=
  mkEnvelope (env_message e) (env_type e) (Some param) (env_code e).

Definition server_error (message code : str) : ErrorEnvelope :=
  mkEnvelope message (lit "server_error") None code.

(** ** Responses *)

Abbreviation HeaderMap := (gmap str (list byte)) (only parsing).

Definition CONTENT_TYPE : str := lit "content-type".
Definition CACHE_CONTROL : str := lit "cache-control".
Definition RETRY_AFTER : str := lit "retry-after".
Definition CONTENT_LENGTH : str := lit "content-length".
Definition REQUEST_ID_HEADER : str := lit "x-request-id".

Inductive Body (S : Type) :=
| Whole (bytes : list byte)
| Envelope (e : ErrorEnvelope)
| Streamed (s : S).
Arguments Whole {S} bytes.
Arguments Envelope {S} e.
Arguments Streamed {S} s.

(** [marked]: the [ExhaustedMarker] among the response's extensions. *)
Record Response (S : Type) := mkResponse {
  resp_status : u16;
  resp_headers : HeaderMap;
  resp_body : Body S;
  resp_marked : bool }.
Arguments mkResponse {S} resp_status resp_headers resp_body resp_marked.
Arguments resp_status {S} r.
Arguments resp_headers {S} r.
Arguments resp_body {S} r.
Arguments resp_marked {S} r.

Definition insert_header {S} (name : str) (value : list byte) (r : Response S) : Response S :=
  mkResponse (resp_status r) (<[name := value]> (resp_headers r)) (resp_body r) (resp_marked r).

(** [HeaderValue::to_str]: visible ASCII and tabs. *)
Definition to_str (value : list byte) : option str :=
  if forallb (fun b => (b =? 9) || ((32 <=? b) && (b <? 127))) value then Some value else None.

(** [StatusCode::is_success]. *)
Definition is_success_status (status : u16) : bool := (200 <=? status) && (status <? 300).

Definition json_error {S} (status : u16) (e : ErrorEnvelope) : Response S :=
  mkResponse status {[ CONTENT_TYPE := lit "application/json" ]} (Envelope e) false.

(** ** The answer to a request that could not be routed *)

(** [CapabilityGap::requirement]. *)
Definition requirement (g : CapabilityGap) : str :=
  match g with
  | ChatUnsupported => lit "chat completions"
  | CompletionUnsupported => lit "text completions"
  | ToolsUnsupported => lit "tool calling"
  | ToolChoiceUnsupported => lit "the requested tool_choice"
  | ReasoningUnsupported => lit "reasoning (reasoning_effort)"
  | ContextTooSmall => lit "a context window large enough for this prompt"
  | Unobserved => lit "capabilities the router has observed"
  end.

Definition param_of (g : CapabilityGap) : option str :=
  match g with
  | ToolsUnsupported => Some (lit "tools")
  | ToolChoiceUnsupported => Some (lit "tool_choice")
  | ReasoningUnsupported => Some (lit "reasoning_effort")
  | _ => None
  end.

(** [[str]::join]. *)
Fixpoint join_with (sep : str) (items : list str) : str :=
  match items with
  | [] => []
  | [one] => one
  | item :: items => item ++ sep ++ join_with sep items
  end.

(** [error::join]. *)
Definition join (items : list str) : str :=
  match items with
  | [] => lit "this request"
  | [one] => one
  | _ => join_with (lit ", ") (removelast items) ++ lit " and " ++ List.last items []
  end.

(** [u64::to_string]. *)
Definition decimal (n : Z) : str := lit (pretty n).

(** [iter().find_map(f)]. *)
Fixpoint find_map {A B} (f : A → option B) (l : list A) : option B :=
  match l with
  | [] => None
  | x :: l => match f x with Some y => Some y | None => find_map f l end
  end.

Definition routing_failure `{StrDebug} {S} (failure : RoutingFailure) (retry_after : Duration)
    : Response S :=
  match failure with
  | UnknownRoute requested =>
      json_error 404
        (with_param
           (invalid_request
              (lit "the model " ++ debug_str requested ++
               lit " is not served by this router; GET /v1/models lists the models it serves")
              (lit "model_not_found"))
           (lit "model"))
  | NoDefaultRoute =>
      json_error 400
        (with_param
           (invalid_request
              (lit "this router has no default route configured, so `default` or an omitted model cannot be resolved; name a model from GET /v1/models")
              (lit "no_default_route"))
           (lit "model"))
  | RouteUnavailable route =>
      insert_header RETRY_AFTER (decimal (Z.max (as_secs retry_after) 1))
        (json_error 503
           (server_error
              (lit "No healthy deployment is available for route " ++ debug_str (route_str route)
               ++ lit ".")
              (lit "route_unavailable")))
  | CapabilityMismatch route unmet _ =>
      let e := invalid_request
                 (lit "Route " ++ debug_str (route_str route) ++
                  lit " has no available deployment that supports "
                  ++ join (map requirement unmet) ++ lit ".")
                 (lit "route_capability_mismatch") in
      json_error 400
        (match find_map param_of unmet with Some param => with_param e param | None => e end)
  end.

(** [proxy::failure_code]. *)
Definition failure_code (failure : RoutingFailure) : str :=
  match failure with
  | UnknownRoute _ => lit "model_not_found"
  | NoDefaultRoute => lit "no_default_route"
  | RouteUnavailable _ => lit "route_unavailable"
  | CapabilityMismatch _ _ _ => lit "route_capability_mismatch"
  end.
