(* ===== verification/Auth.v ===== *)
(** * Who may call the gateway

    [crates/lightweight-gateway/src/auth.rs], the middleware and the routes of
    [lib.rs], the guards of [routes.rs] and the key endpoints of [store_api.rs]
    and [state.rs].

    A request is what the guards read of it: its method, its path, the socket
    it came from and its headers.  Of a header sent twice the first value is
    the one every guard reads.  A handler is entered ([Entered]) or refused;
    what the other handlers then do is not this file's. *)

From stdpp Require Import base gmap strings numbers pretty list.
From S2P Require Import Prelude Scheduler Names Net Utf8 Frames Limits Rewriter Keys Responses.

(** [str::split_once]. *)
Definition split_once (sep s : str) : option (str * str) :=
  let! i := find s sep in Some (take i s, drop (i + length sep) s).

(** ** The policy *)

Inductive AuthPolicy :=
| Disabled
| Required (static_key : option str) (named : list ApiKeyRecord).

Inductive AuthFailure := Missing | Invalid.

Inductive NeedsKey := Needs_key.

(** [AuthPolicy::build], and [for_binds] and [for_bind] on it. *)
Definition policy_build (addresses : list IpAddr) (static_key : option str)
    (named : list ApiKeyRecord) : result AuthPolicy NeedsKey :=
  let exposed := existsb (fun a => negb (is_loopback a)) addresses in
  let static_key := match static_key with Some [] => None | k => k end in
  let has_credential := bool_decide (is_Some static_key) || negb (bool_decide (named = [])) in
  match has_credential, exposed with
  | true, _ => Ok (Required static_key named)
  | false, true => Err Needs_key
  | false, false => Ok Disabled
  end.

Definition for_binds (addresses : list IpAddr) (configured_key : option str)
    : result AuthPolicy NeedsKey := policy_build addresses configured_key [].

Definition for_bind (address : IpAddr) (configured_key : option str)
    : result AuthPolicy NeedsKey := for_binds [address] configured_key.

(** The token a header presents. *)
Definition bearer (header : option str) : option str :=
  let! value := header in
  let! '(scheme, token) := split_once (lit " ") value in
  if eq_ignore_ascii_case scheme (lit "bearer") then Some (trim token) else None.

Definition identify `{Sha256} (policy : AuthPolicy) (header : option str)
    : result (option ApiKeyRecord) AuthFailure :=
  match policy with
  | Disabled => Ok None
  | Required static_key named =>
      match bearer header with
      | None => Err Missing
      | Some presented =>
          if match static_key with
             | Some key => constant_time_eq (utf8_encode presented) (utf8_encode key)
             | None => false
             end
          then Ok None
          else match verify_against named presented with
               | Some r => Ok (Some r)
               | None => Err Invalid
               end
      end
  end.

Definition policy_check `{Sha256} (policy : AuthPolicy) (header : option str)
    : result unit AuthFailure :=
  let? _ := identify policy header in Ok tt.

Definition is_enabled (policy : AuthPolicy) : bool :=
  match policy with Required _ _ => true | Disabled => false end.

Definition reloaded (policy : AuthPolicy) (named : list ApiKeyRecord) : AuthPolicy :=
  match policy with
  | Required static_key _ => Required static_key named
  | Disabled => Disabled
  end.

Definition auth_message (f : AuthFailure) : str :=
  match f with
  | Missing => lit "an API key is required: send an Authorization: Bearer header"
  | Invalid => lit "the API key is not valid"
  end.

(** ** Requests and the layers around every route *)

Inductive Method := GET | HEAD | POST | PUT | PATCH | DELETE | OPTIONS | OtherMethod.

#[export] Instance Method_eq_dec : EqDecision Method.
Proof. solve_decision. Defined.

Record HttpRequest := mkHttp {
  http_method : Method;
  http_path : str;
  http_peer : option SocketAddr;
  http_headers : HeaderMap }.

Definition LOCAL_CONTROL_HEADER : str := lit "x-lightweight-local-control".

Definition header_str (headers : HeaderMap) (name : str) : option str :=
  headers !! name ≫= to_str.

Definition contains_key (headers : HeaderMap) (name : str) : bool :=
  bool_decide (is_Some (headers !! name)).

Definition is_panel_management_path (path : str) : bool := starts_with (lit "/api/v1/") path.

(** The outermost layer: the marker is taken off, then put on for a peer of
    this machine. *)
Definition mark_loopback_control (r : HttpRequest) : HttpRequest :=
  let is_panel_management := is_panel_management_path (http_path r) in
  let is_loopback :=
    match http_peer r with Some peer => is_loopback (sock_ip peer) | None => true end in
  let headers := delete LOCAL_CONTROL_HEADER (http_headers r) in
  mkHttp (http_method r) (http_path r) (http_peer r)
    (if is_panel_management && is_loopback
     then <[LOCAL_CONTROL_HEADER := lit "1"]> headers else headers).

Definition is_monitoring (path : str) : bool :=
  bool_decide (path ∈ [lit "/health"; lit "/version"; lit "/props"; lit "/metrics";
    lit "/api/v1/metrics"; lit "/api/v1/system"; lit "/api/v1/gateway"; lit "/api/v1/requests";
    lit "/api/v1/logs"; lit "/api/v1/events"]).

(** [routes::origin_authority]. *)
Definition origin_authority (origin : str) : option str :=
  let! '(_, authority) := split_once (lit "://") origin in Some authority.

(** What a refusal answers with. *)
Abbreviation Answer := (Response unit) (only parsing).

Definition forbid_cross_origin (headers : HeaderMap) : option Answer :=
  let! origin := header_str headers (lit "origin") in
  let host := header_str headers (lit "host") in
  if bool_decide (origin_authority origin = host) then None
  else Some (json_error 403
    (invalid_request (lit "This request came from another origin and was refused. Change                  the gateway's configuration from the machine running it, or                  from the panel it serves.")
       (lit "cross_origin_refused"))).

Definition is_write (m : Method) : bool :=
  match m with POST | PUT | PATCH | DELETE => true | _ => false end.

(** The layer next to the routes; [Some] is its refusal. *)
Definition guard_control_writes (r : HttpRequest) : option Answer :=
  if is_write (http_method r) && starts_with (lit "/api/v1/") (http_path r)
  then forbid_cross_origin (http_headers r) else None.

(** ** The guards a handler starts with *)

Definition unauthorized (f : AuthFailure) : Answer :=
  json_error 401
    (mkEnvelope (auth_message f) (lit "authentication_error") None
       (match f with Missing => lit "missing_api_key" | Invalid => lit "invalid_api_key" end)).

Definition too_many_requests (t : Throttled) : Answer :=
  let which := match which t with PerMinute => lit "per-minute" | PerDay => lit "per-day" end in
  insert_header RETRY_AFTER (decimal (retry_after t))
    (json_error 429
       (invalid_request
          (lit "this key has reached its " ++ which ++ lit " request limit; retry in " ++
           decimal (retry_after t) ++ lit " seconds")
          (lit "rate_limited"))).

Definition local_only : Answer :=
  json_error 403
    (invalid_request
       (lit "changing keys or the bind configuration is only allowed from the machine running the gateway")
       (lit "local_only")).

(** [PeerKey]'s extractor. *)
Definition peer_of (trust : bool) (r : HttpRequest) : PeerKey :=
  Scheduler.resolve (fun value => parse_ip (trim value)) (http_peer r)
    (header_str (http_headers r) (lit "cf-connecting-ip")) trust.

Definition require_local (peer : PeerKey) : option Answer :=
  if is_local peer then None else Some local_only.

Section gateway.
Context `{Sha256}.

(** [routes::is_authorized], [routes::authorize]. *)
Definition is_authorized (policy : AuthPolicy) (headers : HeaderMap) : bool :=
  is_ok (policy_check policy (header_str headers (lit "authorization"))).

Definition authorize (policy : AuthPolicy) (headers : HeaderMap) : option Answer :=
  if contains_key headers LOCAL_CONTROL_HEADER then None
  else match policy_check policy (header_str headers (lit "authorization")) with
       | Ok _ => None
       | Err f => Some (unauthorized f)
       end.

(** The clock readings of one admission. *)
Record Clocks := mkClocks { clock_now : Instant; unix_before : u64; unix_after : u64 }.

Definition admit_request (policy : AuthPolicy) (limiter : RateLimiter) (at_ : Clocks)
    (headers : HeaderMap) : option Answer * RateLimiter :=
  if contains_key headers LOCAL_CONTROL_HEADER then (None, limiter)
  else match identify policy (header_str headers (lit "authorization")) with
       | Err failure => (Some (unauthorized failure), limiter)
       | Ok None => (None, limiter)
       | Ok (Some record) =>
           if is_unlimited (api_limit record) then (None, limiter)
           else let '(r, limiter) := limiter_admit limiter (api_id record) (clock_now at_)
                                       (unix_before at_) (unix_after at_) (api_limit record) in
                (match r with Ok _ => None | Err t => Some (too_many_requests t) end, limiter)
       end.
End gateway.
