(* ===== verification/Panel.v ===== *)
(** * The gateway's routes and its key endpoints

    [app] of [crates/lightweight-gateway/src/lib.rs] — the table of routes and
    the layers around it — with the guard each handler starts with, and in
    full the handlers that change the keys ([store_api.rs]) and the policy they
    reload ([state.rs]).

    The key file is a [Disk]; whether saving it succeeds, and what entropy and
    the clocks gave, are arguments ([Effects]). *)

From stdpp Require Import base gmap strings numbers list.
From S2P Require Import Prelude Scheduler Names Utf8 Frames Limits Rewriter Keys Responses Auth.

(** ** The table *)

Inductive Handler :=
| Health | Metrics | MetricsJson | Props | Version | CapabilitiesOf | Models
| ChatCompletions | Completions
| ControlModels | Import | Download | Unload | LoadModel | ModelDetail | UpdateModel | RemoveModel
| Pinned | Benchmarks | RunBenchmark | Benchmark | Jobs | Job | JobEvents | System
| GatewayReport | Events | Requests | Logs
| ListConversations | CreateConversation | GetConversation | SaveConversation
| DeleteConversation | GetSettings | SaveSettings
| GetConfig | SaveConfig | ListKeys | CreateKey | RevokeKey | SetKeyLimit
| ServePanel.

#[export] Instance Handler_eq_dec : EqDecision Handler.
Proof. solve_decision. Defined.

(** A path's segments, and one of the table's: a name or [{id}]. *)
Definition segments (path : str) : list str := split_at_any (fun c => c =? 47) path.

Definition segment_matches (pattern segment : str) : bool :=
  if starts_with (lit "{") pattern then negb (bool_decide (segment = []))
  else bool_decide (pattern = segment).

Fixpoint segments_match (patterns segs : list str) : bool :=
  match patterns, segs with
  | [], [] => true
  | p :: patterns, s :: segs => segment_matches p s && segments_match patterns segs
  | _, _ => false
  end.

(** The routes in their order; where a name and an id both match, the name's
    route is earlier here as it is preferred there. *)
Definition routes : list (str * list (Method * Handler)) :=
  [(lit "/health", [(GET, Health)]);
   (lit "/metrics", [(GET, Metrics)]);
   (lit "/api/v1/metrics", [(GET, MetricsJson)]);
   (lit "/props", [(GET, Props)]);
   (lit "/version", [(GET, Version)]);
   (lit "/v1/capabilities", [(GET, CapabilitiesOf)]);
   (lit "/v1/models", [(GET, Models)]);
   (lit "/v1/chat/completions", [(POST, ChatCompletions)]);
   (lit "/v1/completions", [(POST, Completions)]);
   (lit "/api/v1/chat/completions", [(POST, ChatCompletions)]);
   (lit "/api/v1/models", [(GET, ControlModels)]);
   (lit "/api/v1/models/import", [(POST, Import)]);
   (lit "/api/v1/models/download", [(POST, Download)]);
   (lit "/api/v1/models/unload", [(POST, Unload)]);
   (lit "/api/v1/models/{id}/load", [(POST, LoadModel)]);
   (lit "/api/v1/models/{id}",
      [(GET, ModelDetail); (PATCH, UpdateModel); (DELETE, RemoveModel)]);
   (lit "/api/v1/catalog", [(GET, Pinned)]);
   (lit "/api/v1/benchmarks", [(GET, Benchmarks); (POST, RunBenchmark)]);
   (lit "/api/v1/benchmarks/{id}", [(GET, Benchmark)]);
   (lit "/api/v1/jobs", [(GET, Jobs)]);
   (lit "/api/v1/jobs/{id}", [(GET, Job)]);
   (lit "/api/v1/jobs/{id}/events", [(GET, JobEvents)]);
   (lit "/api/v1/system", [(GET, System)]);
   (lit "/api/v1/gateway", [(GET, GatewayReport)]);
   (lit "/api/v1/events", [(GET, Events)]);
   (lit "/api/v1/requests", [(GET, Requests)]);
   (lit "/api/v1/logs", [(GET, Logs)]);
   (lit "/api/v1/conversations", [(GET, ListConversations); (POST, CreateConversation)]);
   (lit "/api/v1/conversations/{id}",
      [(GET, GetConversation); (PUT, SaveConversation); (DELETE, DeleteConversation)]);
   (lit "/api/v1/settings", [(GET, GetSettings); (PUT, SaveSettings)]);
   (lit "/api/v1/gateway/config", [(GET, GetConfig); (PUT, SaveConfig)]);
   (lit "/api/v1/gateway/keys", [(GET, ListKeys); (POST, CreateKey)]);
   (lit "/api/v1/gateway/keys/{id}", [(DELETE, RevokeKey)]);
   (lit "/api/v1/gateway/keys/{id}/limit", [(PUT, SetKeyLimit)])].

Inductive Routed := ToHandler (h : Handler) | MethodNotAllowed.

(** A [HEAD] is served by the handler of [GET]; what no route has is the
    panel's. *)
Definition method_of (m : Method) (ms : list (Method * Handler)) : option Handler :=
  let m := match m with HEAD => GET | m => m end in
  snd <$> find_first (fun mh => bool_decide (mh.1 = m)) ms.

Definition route (m : Method) (path : str) : Routed :=
  match find_first (fun r => segments_match (segments r.1) (segments path)) routes with
  | None => ToHandler ServePanel
  | Some (_, ms) =>
      match method_of m ms with Some h => ToHandler h | None => MethodNotAllowed end
  end.

(** ** What each handler asks before anything else *)

Inductive Guard :=
| Open          (* answers anybody, narrowing what it says *)
| Authorizes    (* [authorize] *)
| Admits        (* [admit_request] *)
| AuthorizesLocal. (* [authorize], then [require_local] *)

Definition guard_of (h : Handler) : Guard :=
  match h with
  | Health | Props | Version | ServePanel => Open
  | ChatCompletions | Completions => Admits
  | SaveConfig | CreateKey | RevokeKey | SetKeyLimit => AuthorizesLocal
  | _ => Authorizes
  end.

Section gateway.
Context `{Sha256} {J : Json}.

(** What of [GatewayState] the guards and the key endpoints touch;
    [gw_keys] is the key file, when there is a data directory. *)
Record Gateway := mkGateway {
  gw_auth : AuthPolicy;
  gw_limiter : RateLimiter;
  gw_trust_forwarded : bool;
  gw_manages_keys : bool;
  gw_keys : option Disk }.

Definition set_limiter (l : RateLimiter) (g : Gateway) : Gateway :=
  mkGateway (gw_auth g) l (gw_trust_forwarded g) (gw_manages_keys g) (gw_keys g).

Definition set_keys (d : Disk) (g : Gateway) : Gateway :=
  mkGateway (gw_auth g) (gw_limiter g) (gw_trust_forwarded g) (gw_manages_keys g) (Some d).

Definition set_auth (p : AuthPolicy) (g : Gateway) : Gateway :=
  mkGateway p (gw_limiter g) (gw_trust_forwarded g) (gw_manages_keys g) (gw_keys g).

(** The refusal of a guard, if it refuses. *)
Definition pass (k : Guard) (at_ : Clocks) (g : Gateway) (r : HttpRequest)
    : option Answer * Gateway :=
  match k with
  | Open => (None, g)
  | Authorizes => (authorize (gw_auth g) (http_headers r), g)
  | Admits =>
      let '(refusal, limiter) := admit_request (gw_auth g) (gw_limiter g) at_ (http_headers r) in
      (refusal, set_limiter limiter g)
  | AuthorizesLocal =>
      (match authorize (gw_auth g) (http_headers r) with
       | Some refusal => Some refusal
       | None => require_local (peer_of (gw_trust_forwarded g) r)
       end, g)
  end.

Inductive Outcome := Refused (a : Answer) | NotAllowed | Entered (h : Handler).

(** A request through the layers, the table and its handler's guard. *)
Definition serve (at_ : Clocks) (g : Gateway) (r : HttpRequest) : Outcome * Gateway :=
  let r := mark_loopback_control r in
  match guard_control_writes r with
  | Some refusal => (Refused refusal, g)
  | None =>
      match route (http_method r) (http_path r) with
      | MethodNotAllowed => (NotAllowed, g)
      | ToHandler h =>
          let '(refusal, g) := pass (guard_of h) at_ g r in
          (match refusal with Some a => Refused a | None => Entered h end, g)
      end
  end.

(** ** The key endpoints *)

(** [GatewayState::refresh_keys]; [reads] is whether the file can be read this
    time. *)
Definition refresh_keys (reads : bool) (g : Gateway) : Gateway :=
  if negb (gw_manages_keys g) then g
  else match gw_keys g with
       | None => g
       | Some d =>
           if negb reads then g
           else match list_keys d with
                | Err _ => g
                | Ok named => set_auth (reloaded (gw_auth g) named) g
                end
       end.

(** [RateLimiter::forget] on the gateway's limiter. *)
Definition forget_key (id : str) (g : Gateway) : Gateway :=
  set_limiter (forget (gw_limiter g) id) g.

(** What an endpoint answers: a guard's refusal, no data directory, a body
    that does not parse, a store that fails or a task that never ran, no such
    key, or the work done. *)
Inductive KeyAnswer :=
| KaRefused (a : Answer)
| KaNoDataDirectory
| KaBadRequest
| KaStore (e : StoreError)
| KaUnreachable
| KaNotFound
| KaCreated (record : ApiKeyRecord) (key : str)
| KaDone.

(** What running a method on the store came to; [reached] fails when the
    runtime is shutting down, and [rereads] is whether the file can be read
    again after it was written. *)
Record Effects := mkEffects {
  reached : bool;
  saves : bool;
  rereads : bool;
  ef_secret : list byte;
  ef_id : list byte;
  ef_now : u64 }.

(** The guards of the three endpoints, and the store they then work on. *)
Definition on_store (g : Gateway) (r : HttpRequest)
    (k : Disk → KeyAnswer * Gateway) : KeyAnswer * Gateway :=
  match authorize (gw_auth g) (http_headers r) with
  | Some refusal => (KaRefused refusal, g)
  | None =>
      match require_local (peer_of (gw_trust_forwarded g) r) with
      | Some refusal => (KaRefused refusal, g)
      | None => match gw_keys g with None => (KaNoDataDirectory, g) | Some d => k d end
      end
  end.

(** One method of the store on the blocking pool. *)
Definition on_disk (fx : Effects) (op : KeyOp) (d : Disk) (g : Gateway)
    (k : bool → Gateway → KeyAnswer * Gateway) : KeyAnswer * Gateway :=
  if negb (reached fx) then (KaUnreachable, g)
  else let '(result, d) := perform op (saves fx) d in
       match result with
       | Err e => (KaStore e, set_keys d g)
       | Ok changed => k changed (set_keys d g)
       end.

(** The body is [None] when it does not parse; an empty one is the default. *)
Definition create_key (fx : Effects) (g : Gateway) (r : HttpRequest)
    (body : option (str * RateLimit)) : KeyAnswer * Gateway :=
  on_store g r (fun d =>
    match body with
    | None => (KaBadRequest, g)
    | Some (name, limit) =>
        on_disk fx (OpCreate name limit (ef_secret fx) (ef_id fx) (ef_now fx)) d g (fun _ g =>
          (KaCreated (new_record name limit (ef_secret fx) (ef_id fx) (ef_now fx))
             (full_key (ef_secret fx)), refresh_keys (rereads fx) g))
    end).

Definition revoke_key (fx : Effects) (g : Gateway) (r : HttpRequest) (id : str)
    : KeyAnswer * Gateway :=
  on_store g r (fun d =>
    on_disk fx (OpRevoke id) d g (fun removed g =>
      if removed then (KaDone, refresh_keys (rereads fx) (forget_key id g)) else (KaNotFound, g))).

Definition set_key_limit (fx : Effects) (g : Gateway) (r : HttpRequest) (id : str)
    (body : option RateLimit) : KeyAnswer * Gateway :=
  on_store g r (fun d =>
    match body with
    | None => (KaBadRequest, g)
    | Some limit =>
        on_disk fx (OpSetLimit id limit) d g (fun found g =>
          if found then (KaDone, refresh_keys (rereads fx) g) else (KaNotFound, g))
    end).

(** One administrative request. *)
Inductive KeyRequest :=
| KrCreate (body : option (str * RateLimit))
| KrRevoke (id : str)
| KrLimit (id : str) (body : option RateLimit).

Definition key_request (fx : Effects) (g : Gateway) (r : HttpRequest) (q : KeyRequest)
    : KeyAnswer * Gateway :=
  match q with
  | KrCreate body => create_key fx g r body
  | KrRevoke id => revoke_key fx g r id
  | KrLimit id body => set_key_limit fx g r id body
  end.

Definition list_keys_endpoint (now : Instant) (g : Gateway) (r : HttpRequest)
    : result (list (ApiKeyRecord * UsageSnapshot)) KeyAnswer :=
  match authorize (gw_auth g) (http_headers r) with
  | Some refusal => Err (KaRefused refusal)
  | None =>
      match gw_keys g with
      | None => Err KaNoDataDirectory
      | Some d =>
          match list_keys d with
          | Err e => Err (KaStore e)
          | Ok records =>
              Ok ((fun r => (r, limit_snapshot (gw_limiter g) (api_id r) now)) <$> records)
          end
      end
  end.
End gateway.

(** ** Theorems on the gateway's front door

    What a request from another machine needs, what the key endpoints leave in
    the running policy, and what a tunnel lets through. *)

Section theorems.
Context `{Sha256} {J : Json}.

(** ** Identification *)

(** The header carries a token that is the static key or opens a named one. *)
Definition credential (static_key : option str) (named : list ApiKeyRecord) (r : HttpRequest)
    : Prop :=
  ∃ token, bearer (header_str (http_headers r) (lit "authorization")) = Some token ∧
    ((∃ key, static_key = Some key ∧ utf8_encode token = utf8_encode key) ∨
     ∃ rec, rec ∈ named ∧ opens token rec).

Lemma verify_against_Some ks token r :
  verify_against ks token = Some r → r ∈ ks ∧ opens token r.
Proof.
  rewrite verify_against_last. intros [Ho Hin]%last_Some_elem_of%list_elem_of_filter. done.
Qed.

(** The shape of a policy's answer. *)
Lemma identify_cases policy header :
  match identify policy header, policy with
  | Ok caller, Disabled => caller = None
  | Err _, Disabled => False
  | Ok None, Required static_key _ => ∃ token key, bearer header = Some token ∧
      static_key = Some key ∧ utf8_encode token = utf8_encode key
  | Ok (Some rec), Required _ named => ∃ token, bearer header = Some token ∧
      rec ∈ named ∧ opens token rec
  | Err Missing, Required _ _ => bearer header = None
  | Err Invalid, Required _ named => ∃ token, bearer header = Some token ∧
      verify_against named token = None
  end.
Proof.
  destruct policy as [|static_key named]; simpl; [done|].
  destruct (bearer header) as [token|]; simpl; [|done].
  destruct static_key as [key|]; simpl.
  - rewrite constant_time_eq_spec. case_bool_decide as Hk; simpl; [by eauto|].
    destruct (verify_against named token) as [rec|] eqn:Hv; simpl; [|by eauto].
    apply verify_against_Some in Hv. naive_solver.
  - destruct (verify_against named token) as [rec|] eqn:Hv; simpl; [|by eauto].
    apply verify_against_Some in Hv. naive_solver.
Qed.

Lemma identify_credential static_key named r caller :
  identify (Required static_key named) (header_str (http_headers r) (lit "authorization"))
    = Ok caller →
  credential static_key named r.
Proof.
  intros Hi. pose proof (identify_cases (Required static_key named)
    (header_str (http_headers r) (lit "authorization"))) as Hc. rewrite Hi in Hc.
  destruct caller; [destruct Hc as (token & Hb & Hin & Ho)|destruct Hc as (token & key & Hb & Hs & Hk)];
    exists token; split; eauto.
Qed.

(** ** The marker *)

(** The socket is another machine's, under either name of its address. *)
Definition remote (r : HttpRequest) : Prop :=
  ∃ a, http_peer r = Some a ∧ is_loopback (to_canonical (sock_ip a)) = false.

Lemma canonical_loopback ip : is_loopback ip = true → is_loopback (to_canonical ip) = true.
Proof.
  destruct ip as [a|a]; [done|]. unfold is_loopback at 1. intros ->%Z.eqb_eq. by vm_compute.
Qed.

Lemma remote_unmarked r :
  remote r → contains_key (http_headers (mark_loopback_control r)) LOCAL_CONTROL_HEADER = false.
Proof.
  intros (a & Hp & Ha). unfold mark_loopback_control. rewrite Hp.
  destruct (is_loopback (sock_ip a)) eqn:Hl.
  { apply canonical_loopback in Hl. congruence. }
  rewrite andb_false_r. simpl. unfold contains_key.
  rewrite lookup_delete_eq. apply bool_decide_eq_false_2. by intros [].
Qed.

Lemma marked_header r name :
  name ≠ LOCAL_CONTROL_HEADER →
  header_str (http_headers (mark_loopback_control r)) name = header_str (http_headers r) name.
Proof.
  intros Hn. unfold header_str, mark_loopback_control. simpl. f_equal.
  destruct (_ && _); rewrite ?lookup_insert_ne by done; by rewrite lookup_delete_ne.
Qed.

Lemma marked_peer trust r : peer_of trust (mark_loopback_control r) = peer_of trust r.
Proof. unfold peer_of. rewrite marked_header by done. reflexivity. Qed.

Lemma remote_not_local trust r : remote r → is_local (peer_of trust r) = false.
Proof.
  intros (a & Hp & Ha). unfold peer_of, Scheduler.resolve. rewrite Hp.
  destruct (is_loopback (sock_ip a)) eqn:Hl.
  { apply canonical_loopback in Hl. congruence. }
  rewrite andb_false_r. exact Ha.
Qed.

Lemma credential_marked static_key named r :
  credential static_key named (mark_loopback_control r) → credential static_key named r.
Proof. unfold credential. by rewrite marked_header by done. Qed.

Lemma authorize_remote static_key named r :
  remote r →
  authorize (Required static_key named) (http_headers (mark_loopback_control r)) = None →
  credential static_key named r.
Proof.
  intros Hr. unfold authorize, policy_check. rewrite remote_unmarked by done.
  destruct (identify _ _) as [caller|f] eqn:Hi; simpl; [|done]. intros _.
  apply credential_marked. by eapply identify_credential.
Qed.

(** C3: a request from another machine is served nothing but the open pages
    without a credential.  Whatever headers it carries — the loopback marker
    of the panel and [CF-Connecting-IP] among them — a gateway that requires a
    key enters a handler for it only when that handler is one of the four that
    answer anybody, or when its [Authorization] header carries the static key
    or a token that opens a stored key; the four endpoints that change keys or
    the binds are never entered; and a generation by a key with a limit was
    admitted by that key's limiter. *)
Theorem remote_needs_a_key at_ g r h g' static_key named :
  gw_auth g = Required static_key named → remote r →
  serve at_ g r = (Entered h, g') →
  guard_of h = Open ∨
  (credential static_key named r ∧ guard_of h ≠ AuthorizesLocal ∧
   (guard_of h = Admits → ∀ rec,
      identify (gw_auth g) (header_str (http_headers r) (lit "authorization")) = Ok (Some rec) →
      is_unlimited (api_limit rec) = false →
      (limiter_admit (gw_limiter g) (api_id rec) (clock_now at_) (unix_before at_)
         (unix_after at_) (api_limit rec)).1 = Ok tt)).
Proof.
  intros Hg Hr. unfold serve. destruct (guard_control_writes _); [done|].
  destruct (route _ _) as [h'|]; [|done]. destruct (pass _ _ _ _) as [[a|] g1] eqn:Hp; [done|].
  intros [= -> ->]. destruct (guard_of h) eqn:Hh; cbv beta iota delta [pass] in Hp; [by left|right..].
  - rewrite Hg in Hp. injection Hp as Hp _. split_and!; [by apply authorize_remote|done|done].
  - unfold admit_request in Hp. rewrite remote_unmarked, marked_header in Hp by done.
    destruct (identify _ _) as [caller|f] eqn:Hi; [|by simplify_eq].
    split_and!; [|done|].
    + rewrite Hg in Hi. by eapply identify_credential.
    + intros _ rec [= ->] Hu. rewrite Hu in Hp.
      destruct (limiter_admit _ _ _ _ _ _) as [[[]|t] l]; [done|by simplify_eq].
  - destruct (authorize _ _); [by simplify_eq|].
    rewrite marked_peer in Hp. unfold require_local in Hp.
    rewrite remote_not_local in Hp by done. by simplify_eq.
Qed.

(** ** The running policy and the store *)

(** The gateway manages its keys, and its policy's named keys are the file's. *)
Definition in_step (static_key : option str) (g : Gateway) : Prop :=
  gw_manages_keys g = true ∧
  ∃ d named, gw_keys g = Some d ∧ list_keys d = Ok named ∧ gw_auth g = Required static_key named.

(** The same, but for keys that were changed since the file was last read. *)
Definition in_charge (static_key : option str) (g : Gateway) : Prop :=
  gw_manages_keys g = true ∧
  ∃ d named live, gw_keys g = Some d ∧ list_keys d = Ok named ∧ gw_auth g = Required static_key live.

Lemma in_step_charge static_key g : in_step static_key g → in_charge static_key g.
Proof. intros (Hm & d & named & Hk & Hl & Ha). split; [done|]. by exists d, named, named. Qed.

(** A refresh that reads the file brings the policy in step. *)
Lemma refresh_cases reads static_key named live d g :
  gw_manages_keys g = true → gw_keys g = Some d → list_keys d = Ok named →
  gw_auth g = Required static_key live →
  in_charge static_key (refresh_keys reads g) ∧
  (reads = true → in_step static_key (refresh_keys reads g)).
Proof.
  intros Hm Hk Hl Ha. unfold refresh_keys. rewrite Hm, Hk, Hl, Ha.
  destruct reads; simpl; (split; [|try done; intros _]); (split; [done|]);
    [by exists d, named, named|by exists d, named|by exists d, named, live].
Qed.

(** What a method that succeeded left on disk. *)
Lemma perform_lists op saves d d' changed :
  perform op saves d = (Ok changed, d') → ∃ named, list_keys d' = Ok named.
Proof.
  unfold perform. destruct (read_keys d) as [f|e] eqn:Hread; [|done].
  destruct (edit op f) as [f'|]; [destruct saves|]; intros Hp; simplify_eq; eexists; [done|].
  unfold list_keys. by rewrite Hread.
Qed.

(** A method that changed nothing, or failed, left the file as it was. *)
Lemma perform_unchanged op saves d d' res :
  perform op saves d = (res, d') → res ≠ Ok true → d' = d.
Proof.
  unfold perform. destruct (read_keys d) as [f|e]; [|by intros [= <- <-]].
  destruct (edit op f); [destruct saves|]; intros [= <- <-]; done.
Qed.

Lemma perform_revoked id saves d d' named :
  perform (OpRevoke id) saves d = (Ok true, d') → list_keys d' = Ok named →
  ∀ r, r ∈ named → api_id r ≠ id.
Proof.
  unfold perform. destruct (read_keys d) as [f|e]; [|done]. simpl.
  case_bool_decide; [done|]. destruct saves; [|done]. intros [= <-].
  unfold list_keys, written. simpl. intros [= <-] r.
  rewrite sort_by_Permutation, list_elem_of_In, filter_In, negb_true_iff, bool_decide_eq_false.
  by intros [_ Hr].
Qed.

(** What a request can do to a gateway: read its file again after a change, or
    leave policy and file as they are. *)
Definition touched (reads : bool) (static_key : option str) (g g' : Gateway) : Prop :=
  g' = g ∨ in_charge static_key g' ∧ (reads = true → in_step static_key g').

(** Every endpoint runs a method behind its guards; what the gateway is
    afterwards depends on what the method came to. *)
Lemma key_request_touches fx static_key g r q :
  in_charge static_key g → touched (rereads fx) static_key g (key_request fx g r q).2.
Proof.
  intros Hin. pose proof Hin as (Hm & d & named & live & Hk & Hl & Ha).
  assert (Hsame : set_keys d g = g) by (destruct g; simpl in *; by subst).
  assert (Hd : ∀ op (k : bool → Gateway → KeyAnswer * Gateway),
    (∀ g1 d1 named1, gw_manages_keys g1 = true → gw_keys g1 = Some d1 →
       list_keys d1 = Ok named1 → gw_auth g1 = Required static_key live →
       touched (rereads fx) static_key g (k true g1).2) →
    (∀ g1, (k false g1).2 = g1) ∨ (∀ saves0 d0 d1, perform op saves0 d0 ≠ (Ok false, d1)) →
    touched (rereads fx) static_key g (on_disk fx op d g k).2).
  { intros op k Htrue Hfalse. unfold on_disk. destruct (negb _); [by left|].
    destruct (perform op (saves fx) d) as [res d1] eqn:Hp.
    destruct res as [[|]|e].
    - destruct (perform_lists _ _ _ _ _ Hp) as [named1 Hl1].
      by apply (Htrue (set_keys d1 g) d1 named1).
    - destruct Hfalse as [Hf|Hf]; [|by destruct (Hf (saves fx) d d1)]. rewrite Hf.
      apply perform_unchanged in Hp as ->; [|done]. by left.
    - apply perform_unchanged in Hp as ->; [|done]. by left. }
  destruct q as [body|id|id body]; simpl;
    unfold create_key, revoke_key, set_key_limit, on_store;
    (destruct (authorize _ _); [by left|]); (destruct (require_local _); [by left|]); rewrite Hk.
  - destruct body as [[name limit]|]; [|by left]. apply Hd.
    + intros g1 d1 named1 Hm1 Hk1 Hl1 Ha1. right. by eapply refresh_cases.
    + right. intros saves0 d0 d1. unfold perform. destruct (read_keys d0); [|done]. simpl.
      by destruct saves0.
  - apply Hd; [|by left]. intros g1 d1 named1 Hm1 Hk1 Hl1 Ha1. right.
    by eapply (refresh_cases _ _ named1 live d1).
  - destruct body as [limit|]; [|by left]. apply Hd; [|by left].
    intros g1 d1 named1 Hm1 Hk1 Hl1 Ha1. right. by eapply refresh_cases.
Qed.

(** Administrative requests in a row, each with what its work came to. *)
Fixpoint key_requests (qs : list (Effects * HttpRequest * KeyRequest)) (g : Gateway) : Gateway :=
  match qs with
  | [] => g
  | (fx, r, q) :: qs => key_requests qs (key_request fx g r q).2
  end.

Lemma key_requests_in_charge static_key qs g :
  in_charge static_key g → in_charge static_key (key_requests qs g).
Proof.
  revert g. induction qs as [|[[fx r] q] qs IH]; intros g Hin; [done|]. apply IH.
  by destruct (key_request_touches fx static_key g r q Hin) as [->|[? _]].
Qed.

Lemma key_requests_in_step static_key qs g :
  in_step static_key g → Forall (λ q, rereads q.1.1 = true) qs →
  in_step static_key (key_requests qs g).
Proof.
  intros Hin Hall. revert g Hin. induction Hall as [|[[fx r] q] qs Hr _ IH]; intros g Hin; [done|].
  apply IH. by destruct (key_request_touches fx static_key g r q (in_step_charge _ _ Hin)) as [->|[_ Hs]];
    [|apply Hs].
Qed.

(** A revocation answered with success whose file could not be read again
    afterwards leaves the running policy as it was: the key goes on
    authenticating. *)
Theorem unread_revocation_stays_live fx r id g g' :
  rereads fx = false → key_request fx g r (KrRevoke id) = (KaDone, g') →
  gw_auth g' = gw_auth g ∧ (∀ d, gw_keys g' = Some d → ∀ named, list_keys d = Ok named →
    ∀ rec, rec ∈ named → api_id rec ≠ id).
Proof.
  intros Hf. simpl. unfold revoke_key, on_store, on_disk.
  destruct (authorize _ _); [done|]. destruct (require_local _); [done|].
  destruct (gw_keys g) as [d|]; [|done]. destruct (negb _); [done|].
  destruct (perform (OpRevoke id) (saves fx) d) as [[[|]|e] d1] eqn:Hp; [|done|done].
  intros [= <-]. rewrite Hf.
  assert (Hg : refresh_keys false (forget_key id (set_keys d1 g)) = forget_key id (set_keys d1 g)).
  { unfold refresh_keys. by destruct (negb (gw_manages_keys _)). }
  rewrite Hg. split; [done|]. intros ? [= <-] named Hl. by eapply perform_revoked.
Qed.

(** C28: a revoked key is out from the next request, if its file could be read
    again.  Whatever creations, revocations and new limits went before -
    refused, failed and successful ones, and ones whose file could not be read
    again - once a revocation has been answered with success and the file it
    wrote was read again, the running policy's named keys are those of the
    file, its static key is itself, no header is identified as the revoked key
    and its counters are gone.  And as long as the file could always be read
    again, the running policy never differs from it.  (Without that the answer
    is success all the same, and the key stays live: see
    [unread_revocation_stays_live].) *)
Theorem revocation_takes_hold static_key qs fx r id g g' :
  in_step static_key g →
  key_request fx (key_requests qs g) r (KrRevoke id) = (KaDone, g') →
  (Forall (λ q, rereads q.1.1 = true) qs → in_step static_key (key_requests qs g)) ∧
  (rereads fx = true →
    in_step static_key g' ∧
    (∀ header rec, identify (gw_auth g') header = Ok (Some rec) → api_id rec ≠ id) ∧
    keys (gw_limiter g') !! id = None).
Proof.
  intros Hin Hreq. split; [by apply key_requests_in_step|]. intros Hr.
  apply in_step_charge, (key_requests_in_charge _ qs) in Hin.
  generalize dependent (key_requests qs g). clear g. intros g Hin Hreq.
  destruct Hin as (Hm & d & named & live & Hk & Hl & Ha). simpl in Hreq.
  unfold revoke_key, on_store in Hreq.
  destruct (authorize _ _); [done|]. destruct (require_local _); [done|]. rewrite Hk in Hreq.
  unfold on_disk in Hreq. destruct (negb _); [done|].
  destruct (perform (OpRevoke id) (saves fx) d) as [[[|]|e] d1] eqn:Hp; [|done|done].
  rewrite Hr in Hreq. injection Hreq as Hg'. destruct (perform_lists _ _ _ _ _ Hp) as [named1 Hl1].
  assert (Hshape : gw_auth g' = Required static_key named1 ∧
    gw_limiter g' = forget (gw_limiter g) id ∧ gw_manages_keys g' = true ∧ gw_keys g' = Some d1).
  { rewrite <-Hg'. unfold refresh_keys, forget_key. simpl. rewrite Hm. simpl.
    rewrite Hl1, Ha. done. }
  destruct Hshape as (Ha' & Hf' & Hm' & Hk'). split; [split; [done|by exists d1, named1]|]. split.
  - intros header rec Hi. pose proof (identify_cases (gw_auth g') header) as Hc.
    rewrite Hi, Ha' in Hc. destruct Hc as (token & _ & Hrec & _).
    by eapply perform_revoked.
  - rewrite Hf'. simpl. apply lookup_delete_eq.
Qed.

(** ** Behind a tunnel *)

(** Behind a proxy on this machine the panel's interface needs no key.
    Every request the tunnel brings has a loopback peer, so the marker is put
    on it whatever [CF-Connecting-IP] names; without an [Origin] header every
    path under /api/v1/ but the four local ones is entered without a
    credential, generations included, and no limiter is asked. *)
Theorem tunnelled_panel_needs_no_key at_ g r h :
  (∃ a, http_peer r = Some a ∧ is_loopback (sock_ip a) = true) →
  starts_with (lit "/api/v1/") (http_path r) = true →
  header_str (http_headers r) (lit "origin") = None →
  route (http_method r) (http_path r) = ToHandler h → guard_of h ≠ AuthorizesLocal →
  (serve at_ g r).1 = Entered h ∧ gw_limiter (serve at_ g r).2 = gw_limiter g.
Proof.
  intros (a & Hp & Ha) Hpath Ho Hroute Hh.
  assert (Hmark : contains_key (http_headers (mark_loopback_control r)) LOCAL_CONTROL_HEADER = true).
  { unfold mark_loopback_control, is_panel_management_path. rewrite Hp, Ha, Hpath. simpl.
    unfold contains_key. rewrite lookup_insert_eq. by apply bool_decide_eq_true_2. }
  assert (Hguard : guard_control_writes (mark_loopback_control r) = None).
  { unfold guard_control_writes. destruct (_ && _); [|done]. unfold forbid_cross_origin.
    by rewrite (marked_header r (lit "origin")), Ho by done. }
  unfold serve. rewrite Hguard. change (http_path (mark_loopback_control r)) with (http_path r).
  change (http_method (mark_loopback_control r)) with (http_method r). rewrite Hroute.
  destruct (guard_of h); unfold pass, authorize, admit_request; rewrite ?Hmark; simpl; done.
Qed.
End theorems.

(** ** A gateway with one metered key *)
Section demo.
#[local] Existing Instance plain_digest.
#[local] Existing Instance NumberJson.

Definition tenant : ApiKeyRecord :=
  new_record (lit "tenant") (mkRateLimit (Some 1) None) [1; 2] [0x30] 7.

Definition demo_gateway (trust : bool) : Gateway :=
  mkGateway (Required (Some (lit "secret")) [tenant]) RateLimiter_new trust true
    (Some (Present (mkKeysFile 1 [tenant] []))).

Definition chat_from (ip : IpAddr) (path : str) (headers : list (str * str)) : HttpRequest :=
  mkHttp POST path (Some (mkSocket ip 40000)) (list_to_map headers).

Definition far : IpAddr := V4 0x0A000009.
Definition near : IpAddr := V4 0x7F000001.
Definition demo_clocks : Clocks := mkClocks 0 0 0.

Definition tenant_request : HttpRequest :=
  chat_from far (lit "/v1/chat/completions") [(lit "authorization", lit "bearer sk-lw-0102")].

(** The tenant's first request is entered on its credential; its second is
    refused by its limiter; a forged marker and a forwarded address help
    nobody; and from afar no key is minted, with any key. *)
Lemma remote_needs_a_key_witness :
  let g := demo_gateway true in
  (guard_of ChatCompletions = Open ∨
   (credential (Some (lit "secret")) [tenant] tenant_request ∧
    guard_of ChatCompletions ≠ AuthorizesLocal ∧
    (guard_of ChatCompletions = Admits → ∀ rec,
       identify (gw_auth g) (header_str (http_headers tenant_request) (lit "authorization"))
         = Ok (Some rec) →
       is_unlimited (api_limit rec) = false →
       (limiter_admit (gw_limiter g) (api_id rec) 0 0 0 (api_limit rec)).1 = Ok tt))) ∧
  (match (serve demo_clocks (serve demo_clocks g tenant_request).2 tenant_request).1 with
   | Refused a => resp_status a | _ => 0 end) = 429 ∧
  (match (serve demo_clocks g (chat_from far (lit "/api/v1/chat/completions")
            [(LOCAL_CONTROL_HEADER, lit "1"); (lit "cf-connecting-ip", lit "127.0.0.1")])).1 with
   | Refused a => resp_status a | _ => 0 end) = 401 ∧
  (match (serve demo_clocks g (chat_from far (lit "/api/v1/gateway/keys")
            [(lit "authorization", lit "Bearer secret")])).1 with
   | Refused a => resp_status a | _ => 0 end) = 403.
Proof.
  split; [|by vm_compute].
  apply (remote_needs_a_key demo_clocks (demo_gateway true) tenant_request ChatCompletions
           (serve demo_clocks (demo_gateway true) tenant_request).2 (Some (lit "secret")) [tenant]).
  - reflexivity.
  - eexists. split; [reflexivity|]. by vm_compute.
  - by vm_compute.
Defined.

Definition admin (method : Method) (path : str) : HttpRequest :=
  mkHttp method path (Some (mkSocket near 40000))
    {[ lit "authorization" := lit "Bearer secret" ]}.

Definition demo_effects : Effects := mkEffects true true true [9] [0x40] 9.

(** A key is made, which the policy does not learn of; then the tenant is
    revoked. *)
Definition demo_unread : Effects := mkEffects true true false [9] [0x40] 9.

Definition demo_created : list (Effects * HttpRequest * KeyRequest) :=
  [(demo_unread, admin POST (lit "/api/v1/gateway/keys"),
    KrCreate (Some (lit "new", mkRateLimit None None)))].

Lemma revocation_takes_hold_witness :
  let r := admin DELETE (lit "/api/v1/gateway/keys/30") in
  let g := (key_request demo_effects (key_requests demo_created (demo_gateway false)) r
              (KrRevoke (lit "30"))).2 in
  identify (gw_auth (demo_gateway false)) (Some (lit "Bearer sk-lw-0102")) = Ok (Some tenant) ∧
  in_step (Some (lit "secret")) g ∧
  (∀ header rec, identify (gw_auth g) header = Ok (Some rec) → api_id rec ≠ lit "30") ∧
  keys (gw_limiter g) !! lit "30" = None.
Proof.
  intros r g. split; [by vm_compute|].
  apply (revocation_takes_hold (Some (lit "secret")) demo_created demo_effects r (lit "30")
           (demo_gateway false)).
  - split; [reflexivity|]. eexists _, _. split; [reflexivity|]. split; reflexivity.
  - by vm_compute.
  - reflexivity.
Defined.

(** The tenant, revoked with success while the file cannot be read again, is
    still let in. *)
Lemma unread_revocation_stays_live_witness :
  let r := admin DELETE (lit "/api/v1/gateway/keys/30") in
  let g := (key_request demo_unread (demo_gateway false) r (KrRevoke (lit "30"))).2 in
  gw_auth g = gw_auth (demo_gateway false) ∧
  identify (gw_auth g) (Some (lit "Bearer sk-lw-0102")) = Ok (Some tenant).
Proof.
  intros r g. split; [|by vm_compute].
  apply (unread_revocation_stays_live demo_unread r (lit "30") (demo_gateway false) g); [done|].
  by vm_compute.
Defined.

(** Through the tunnel, from a far client without a key. *)
Lemma tunnelled_panel_needs_no_key_witness :
  let r := chat_from near (lit "/api/v1/chat/completions")
             [(lit "cf-connecting-ip", lit "10.0.0.9")] in
  let g := demo_gateway true in
  ((serve demo_clocks g r).1 = Entered ChatCompletions ∧
   gw_limiter (serve demo_clocks g r).2 = gw_limiter g) ∧
  is_local (peer_of true r) = false.
Proof.
  intros r g. split; [|by vm_compute].
  apply (tunnelled_panel_needs_no_key demo_clocks g r ChatCompletions).
  - eexists. split; [reflexivity|]. by vm_compute.
  - by vm_compute.
  - by vm_compute.
  - by vm_compute.
  - discriminate.
Defined.
End demo.
