(* ===== verification/Web.v ===== *)
(** * The panel's files

    [crates/lightweight-gateway/src/web.rs]: which file a request path names,
    and how a file is answered.  The router serves its panel with the same
    function.

    Paths are texts, with the components [std::path] gives a Unix path.  What
    is on disk is an argument: whether a path is a file, and what reading it
    gives. *)

From stdpp Require Import base gmap strings numbers list.
From S2P Require Import Prelude Names Utf8 Frames Responses.

Definition SLASH : char := 47.
Definition DOT : char := 46.

(** ** [std::path] *)

Inductive Component := RootDir | CurDir | ParentDir | Normal (name : str).

#[export] Instance Component_eq_dec : EqDecision Component.
Proof. solve_decision. Defined.

Definition has_root (path : str) : bool := starts_with [SLASH] path.

(** A separated piece: [.] counts only in front. *)
Definition component_of (first : bool) (piece : str) : option Component :=
  if bool_decide (piece = []) then None
  else if bool_decide (piece = [DOT]) then if first then Some CurDir else None
  else if bool_decide (piece = [DOT; DOT]) then Some ParentDir
  else Some (Normal piece).

Definition pieces (path : str) : list str := split_at_any (fun c => c =? SLASH) path.

(** [Path::components]. *)
Definition components (path : str) : list Component :=
  if has_root path then RootDir :: omap (component_of false) (pieces path)
  else match pieces path with
       | [] => []
       | p :: ps => option_list (component_of true p) ++ omap (component_of false) ps
       end.

(** [Path::join]. *)
Definition path_join (root path : str) : str :=
  if has_root path then path
  else if bool_decide (root = []) || bool_decide (last root = Some SLASH) then root ++ path
  else root ++ [SLASH] ++ path.

(** [Path::file_name]. *)
Definition file_name (path : str) : option str :=
  match last (components path) with Some (Normal name) => Some name | _ => None end.

(** The position of the last [c]. *)
Definition rposition (c : char) (s : str) : option nat :=
  let! i := find (reverse s) [c] in Some (length s - 1 - i)%nat.

(** [Path::extension]: what follows the last dot of the file name, when
    something precedes it. *)
Definition extension (path : str) : option str :=
  let! name := file_name path in
  let! i := rposition DOT name in
  if (i =? 0)%nat then None else Some (drop (S i) name).

(** ** [web.rs] *)

Definition INDEX : str := lit "index.html".

Fixpoint trim_start_slashes (s : str) : str :=
  match s with
  | c :: s' => if c =? SLASH then trim_start_slashes s' else s
  | [] => []
  end.

Definition is_normal (c : Component) : bool := match c with Normal _ => true | _ => false end.

Definition web_resolve (root requested : str) : option str :=
  let trimmed := trim_start_slashes requested in
  if bool_decide (trimmed = []) then Some (path_join root INDEX)
  else if existsb (fun c => c =? 0) trimmed then None
  else if existsb (fun c => negb (is_normal c)) (components trimmed) then None
  else Some (path_join root trimmed).

Definition looks_like_a_route (requested : str) : bool :=
  match last (pieces requested) with
  | Some piece => negb (existsb (fun c => c =? DOT) piece)
  | None => true
  end.

Definition content_type (path : str) : str :=
  let e := ascii_lower <$> default [] (extension path) in
  let ext (s : str) := bool_decide (e = s) in
  if ext (lit "html") then lit "text/html; charset=utf-8"
  else if ext (lit "js") || ext (lit "mjs") then lit "text/javascript; charset=utf-8"
  else if ext (lit "css") then lit "text/css; charset=utf-8"
  else if ext (lit "json") || ext (lit "map") then lit "application/json; charset=utf-8"
  else if ext (lit "svg") then lit "image/svg+xml"
  else if ext (lit "png") then lit "image/png"
  else if ext (lit "jpg") || ext (lit "jpeg") then lit "image/jpeg"
  else if ext (lit "webp") then lit "image/webp"
  else if ext (lit "avif") then lit "image/avif"
  else if ext (lit "gif") then lit "image/gif"
  else if ext (lit "ico") then lit "image/x-icon"
  else if ext (lit "woff2") then lit "font/woff2"
  else if ext (lit "woff") then lit "font/woff"
  else if ext (lit "ttf") then lit "font/ttf"
  else if ext (lit "wasm") then lit "application/wasm"
  else if ext (lit "txt") then lit "text/plain; charset=utf-8"
  else if ext (lit "webmanifest") then lit "application/manifest+json"
  else lit "application/octet-stream".

Definition not_found : Response unit := mkResponse 404 ∅ (Whole []) false.

Section disk.
(** [Path::is_file] and [tokio::fs::read]. *)
Context (is_file : str → bool) (read : str → option (list byte)).

Definition send (path : str) : Response unit :=
  match read path with
  | None => not_found
  | Some bytes =>
      let directive := if bool_decide (file_name path = Some INDEX) then lit "no-cache"
                       else lit "public, max-age=31536000, immutable" in
      mkResponse 200
        (<[CACHE_CONTROL := directive]> {[ CONTENT_TYPE := content_type path ]})
        (Whole bytes) false
  end.

(** [serve_root]; without a web root every path is not found. *)
Definition serve_root (root requested : str) : Response unit :=
  let otherwise := if looks_like_a_route requested then send (path_join root INDEX) else not_found in
  match web_resolve root requested with
  | Some path => if is_file path then send path else otherwise
  | None => otherwise
  end.

Definition web_serve (root : option str) (requested : str) : Response unit :=
  match root with Some root => serve_root root requested | None => not_found end.
End disk.

(** ** Lemmas *)

Lemma pieces_app a b :
  pieces (a ++ SLASH :: b) = pieces a ++ pieces b.
Proof.
  unfold pieces. induction a as [|x a IH]; simpl.
  { destruct (split_at_any _ b) as [|p ps] eqn:Hb; [|done].
    destruct b as [|y b]; [done|]. simpl in Hb. destruct (split_at_any _ b); [done|].
    by destruct (y =? SLASH). }
  rewrite IH. destruct (split_at_any (λ c, c =? SLASH) a) as [|p ps] eqn:Ha.
  { destruct a as [|y a]; [done|]. simpl in Ha. destruct (split_at_any _ a); [done|].
    by destruct (y =? SLASH). }
  simpl. by destruct (x =? SLASH).
Qed.

Lemma pieces_cons s : ∃ p ps, pieces s = p :: ps.
Proof.
  unfold pieces. destruct s as [|x s]; simpl; [by eauto|].
  destruct (split_at_any _ s); destruct (x =? SLASH); eauto.
Qed.

(** Every component but the root's is a piece's. *)
Lemma components_pieces s c :
  c ∈ components s → c = RootDir ∨ ∃ first p, p ∈ pieces s ∧ component_of first p = Some c.
Proof.
  unfold components. destruct (has_root s).
  { rewrite elem_of_cons, list_elem_of_omap. naive_solver. }
  destruct (pieces s) as [|p ps]; [by intros ?%elem_of_nil|].
  rewrite elem_of_app, list_elem_of_omap. intros [Hp|(p' & Hp & Hc)]; right.
  - exists true, p. split; [apply list_elem_of_here|].
    destruct (component_of true p); [|by apply elem_of_nil in Hp].
    apply list_elem_of_singleton in Hp. by subst.
  - exists false, p'. split; [by apply list_elem_of_further|done].
Qed.

(** Appended under a root, a path of plain names keeps its components. *)
Definition tail_components (s : str) : list Component := omap (component_of false) (pieces s).

Lemma components_relative s :
  has_root s = false → Forall (λ c, is_normal c = true) (components s) →
  components s = tail_components s.
Proof.
  intros Hr. unfold components, tail_components. rewrite Hr.
  destruct (pieces_cons s) as (p & ps & ->). cbn [omap list_omap].
  intros Hall. unfold component_of at 1 3. unfold component_of at 1 in Hall.
  repeat case_bool_decide; simpl in *; try done. by apply Forall_cons_1 in Hall as [Hc _].
Qed.

Lemma components_last_slash root :
  last root = Some SLASH → ∃ root', root = root' ++ [SLASH].
Proof. intros [root' ->]%last_Some. eauto. Qed.

Lemma pieces_nil : pieces [] = [[]].
Proof. reflexivity. Qed.

Lemma has_root_app root s : root ≠ [] → has_root (root ++ s) = has_root root.
Proof. by destruct root. Qed.

(** [components] of a non-empty text and something after a separator. *)
Lemma components_sep root s :
  root ≠ [] → components (root ++ SLASH :: s) = components root ++ tail_components s.
Proof.
  intros Hne. unfold components, tail_components.
  rewrite has_root_app by done. rewrite pieces_app.
  destruct (has_root root); [by rewrite omap_app|].
  destruct (pieces_cons root) as (p & ps & ->). cbn [app]. cbv beta iota. by rewrite omap_app, app_assoc.
Qed.

Lemma components_slash root : root ≠ [] → components (root ++ [SLASH]) = components root.
Proof. intros Hne. rewrite components_sep by done. unfold tail_components. rewrite pieces_nil. apply app_nil_r. Qed.

Lemma join_components root s :
  has_root s = false → Forall (λ c, is_normal c = true) (components s) →
  components (path_join root s) = components root ++ components s.
Proof.
  intros Hr Hall. unfold path_join. rewrite Hr, (components_relative s) by done.
  case_bool_decide as He; simpl.
  { subst root. simpl. by apply components_relative. }
  case_bool_decide as Hl; [|by apply components_sep].
  destruct (components_last_slash _ Hl) as [root' ->].
  rewrite <-app_assoc. cbn [app]. destruct root' as [|x root'].
  { unfold components, tail_components.
    by rewrite pieces_app. }
  rewrite components_slash, components_sep by done. done.
Qed.

Lemma trim_slashes_rootless s : has_root (trim_start_slashes s) = false.
Proof.
  induction s as [|c s IH]; simpl; [done|]. destruct (c =? SLASH) eqn:Hc; [done|].
  unfold has_root, starts_with. rewrite Z.eqb_sym, Hc. done.
Qed.

Lemma pieces_no_slash s p : p ∈ pieces s → SLASH ∉ p.
Proof.
  unfold pieces. revert p. induction s as [|x s IH]; intros p; simpl.
  { intros ->%list_elem_of_singleton. apply not_elem_of_nil. }
  destruct (pieces_cons s) as (q & qs & Hs). unfold pieces in Hs. rewrite Hs in IH |- *.
  destruct (x =? SLASH) eqn:Hx.
  - intros [->|Hp]%elem_of_cons; [apply not_elem_of_nil|by apply IH].
  - intros [->|Hp]%elem_of_cons; [|apply IH; by right].
    apply not_elem_of_cons. split; [intros <-; by rewrite Z.eqb_refl in Hx|].
    apply IH. by left.
Qed.

(** A name a component can have. *)
Definition plain_name (n : str) : Prop := n ≠ [] ∧ n ≠ [DOT] ∧ n ≠ [DOT; DOT] ∧ SLASH ∉ n.

Lemma normal_plain s n : Normal n ∈ components s → plain_name n.
Proof.
  intros [Hc|(first & p & Hp & Hc)]%components_pieces; [done|].
  unfold component_of in Hc. repeat case_bool_decide; try done; [by destruct first|].
  injection Hc as <-. split_and!; [done..|]. by eapply pieces_no_slash.
Qed.

Lemma plain_component name : plain_name name → components name = [Normal name].
Proof.
  intros (Hn & Hd & Hdd & Hs). unfold components.
  assert (Hp : pieces name = [name]).
  { clear -Hs. unfold pieces. induction name as [|c name IH]; [done|]. apply not_elem_of_cons in Hs as [Hc Hs].
    simpl. rewrite IH by done. replace (c =? SLASH) with false; [done|]. symmetry. by apply Z.eqb_neq. }
  assert (Hr : has_root name = false).
  { destruct name as [|c name]; [done|]. apply not_elem_of_cons in Hs as [Hc _].
    unfold has_root, starts_with. by apply Z.eqb_neq in Hc as ->. }
  rewrite Hr, Hp. unfold component_of. by rewrite !bool_decide_eq_false_2.
Qed.

Lemma joined_components dir name :
  plain_name name → components (path_join dir name) = components dir ++ [Normal name].
Proof.
  intros Hp. pose proof (plain_component name Hp) as Hc. rewrite join_components, Hc; [done|..].
  - destruct name as [|c name]; [done|]. destruct Hp as (_ & _ & _ & Hs).
    apply not_elem_of_cons in Hs as [Hs _]. unfold has_root, starts_with. by apply Z.eqb_neq in Hs as ->.
  - rewrite Hc. by repeat constructor.
Qed.

Lemma all_normal l :
  Forall (λ c, is_normal c = true) l → ∃ names, l = Normal <$> names.
Proof.
  induction 1 as [|c l Hc _ [names ->]]; [by exists []|].
  destruct c; try done. by exists (name :: names).
Qed.

(** What a request resolves to: the root's components, then plain names. *)
Lemma resolve_components root requested path :
  web_resolve root requested = Some path →
  ∃ names, components path = components root ++ (Normal <$> names) ∧ Forall plain_name names.
Proof.
  assert (Hjoin : ∀ s, has_root s = false → Forall (λ c, is_normal c = true) (components s) →
    ∃ names, components (path_join root s) = components root ++ (Normal <$> names) ∧
      Forall plain_name names).
  { intros s Hr Hall. rewrite join_components by done. destruct (all_normal _ Hall) as [names Hn].
    exists names. split; [by rewrite Hn|]. apply Forall_forall. intros n Hin.
    apply (normal_plain s). rewrite Hn. by apply list_elem_of_fmap_2. }
  unfold web_resolve. case_bool_decide.
  { intros [= <-]. apply Hjoin; [done|]. vm_compute. repeat constructor. }
  destruct (existsb _ _); [done|]. destruct (existsb _ (components _)) eqn:Hc; [done|].
  intros [= <-]. apply Hjoin; [apply trim_slashes_rootless|].
  apply Forall_forall. intros c Hin. destruct (is_normal c) eqn:Hn; [done|].
  assert (existsb (λ c, negb (is_normal c)) (components (trim_start_slashes requested)) = true); [|congruence].
  apply existsb_exists. exists c. rewrite <-list_elem_of_In. by rewrite Hn.
Qed.

(** Below the root: its components and then plain names. *)
Definition below (root path : str) : Prop :=
  ∃ names, components path = components root ++ (Normal <$> names) ∧ Forall plain_name names.

Lemma index_below root : below root (path_join root INDEX).
Proof. by apply (resolve_components root []). Qed.

(** Nothing outside the web root can be asked for.  The panel answers a
    request path from the files below its root and from nothing else: two disks
    that agree there answer every request alike, for every root and every
    path — [..], doubled slashes and absolute paths among them. *)
Theorem panel_stays_inside root requested is_file is_file' read read' :
  (∀ path, below root path → is_file path = is_file' path ∧ read path = read' path) →
  serve_root is_file read root requested = serve_root is_file' read' root requested.
Proof.
  intros Hagree.
  assert (Hsend : ∀ path, below root path → send read path = send read' path).
  { intros path Hb. unfold send. by destruct (Hagree path Hb) as [_ ->]. }
  unfold serve_root. rewrite (Hsend _ (index_below root)).
  destruct (web_resolve root requested) as [path|] eqn:Hr; [|done].
  apply resolve_components in Hr as Hb. rewrite (Hsend _ Hb).
  by destruct (Hagree path Hb) as [-> _].
Qed.

Definition demo_disk (path : str) : option (list byte) :=
  if bool_decide (path = lit "/srv/panel/assets/main.js") then Some [1]
  else if bool_decide (path = lit "/srv/panel/index.html") then Some [2]
  else if bool_decide (path = lit "/etc/passwd") then Some [3] else None.

(** [/etc/passwd] is on one of the disks only. *)
Lemma panel_stays_inside_witness :
  let root := lit "/srv/panel" in
  let is_file path := bool_decide (is_Some (demo_disk path)) in
  let bare path := if bool_decide (path = lit "/etc/passwd") then None else demo_disk path in
  let is_file' path := bool_decide (is_Some (bare path)) in
  (∀ requested, serve_root is_file demo_disk root requested = serve_root is_file' bare root requested) ∧
  resp_body (serve_root is_file demo_disk root (lit "/assets/./main.js")) = Whole [] ∧
  resp_body (serve_root is_file demo_disk root (lit "//assets/main.js")) = Whole [1] ∧
  resp_body (serve_root is_file demo_disk root (lit "/assets/../../../etc/passwd")) = Whole [2].
Proof.
  intros root is_file bare is_file'. split; [|split_and!; by vm_compute].
  intros requested. apply panel_stays_inside. intros path (names & Hc & _).
  assert (Hne : path ≠ lit "/etc/passwd").
  { intros ->. vm_compute in Hc. destruct names; discriminate Hc. }
  unfold is_file, is_file', bare. by rewrite (bool_decide_eq_false_2 (path = lit "/etc/passwd")) by done.
Defined.
