(* ===== verification/Exposure.v ===== *)
(** * Where the gateway answers, and to whom

    The part of [crates/lightweight-cli/src/serve.rs] that settles the binds,
    the keys and the policy before anything is loaded; the bind configuration
    of [crates/lightweight-store/src/api_config.rs]; and the endpoints of
    [crates/lightweight-gateway/src/store_api.rs] that read and replace it.

    Looking a name up is the system's ([Lookup]); a literal address is not
    looked up.  The sentence of a refusal is its constructor. *)

From stdpp Require Import base gmap strings numbers list.
From S2P Require Import Prelude Scheduler Names Net Frames Limits Rewriter Keys Responses Auth.

#[export] Instance SocketAddr_eq_dec : EqDecision SocketAddr.
Proof. solve_decision. Defined.

(** [getaddrinfo] on a name and a port. *)
Class Lookup := lookup_host : str → u16 → option (list SocketAddr).

(** What the system promises: a lookup that succeeds found something. *)
Class LookupLaws (L : Lookup) := {
  lookup_found : ∀ host port l, lookup_host host port = Some l → l ≠ [] }.

(** [(host, port).to_socket_addrs()]. *)
Definition to_socket_addrs `{Lookup} (host : str) (port : u16) : option (list SocketAddr) :=
  match parse_ip host with
  | Some a => Some [mkSocket a port]
  | None => lookup_host host port
  end.

(** ** Options *)

Definition DEFAULT_PORT : u16 := 11434.

Inductive Concurrency := AutoSlots | FixedSlots (slots : u32).

Definition requested (c : Concurrency) : option u32 :=
  match c with AutoSlots => None | FixedSlots n => Some n end.

Inductive OptionProblem := ServesNobody | NotANumber (value : str).

Definition Concurrency_from_str (value : str) : result Concurrency OptionProblem :=
  if eq_ignore_ascii_case value (lit "auto") then Ok AutoSlots
  else match parse_unsigned U32_MAX value with
       | Some 0 => Err ServesNobody
       | Some slots => Ok (FixedSlots slots)
       | None => Err (NotANumber value)
       end.

Inductive Port := FixedPort (port : u16) | AutoPort.

Definition for_bind_port (p : Port) : u16 := match p with FixedPort port => port | AutoPort => 0 end.

Definition Port_default : Port := FixedPort DEFAULT_PORT.

Definition Port_from_str (value : str) : result Port OptionProblem :=
  if eq_ignore_ascii_case value (lit "auto") then Ok AutoPort
  else match parse_unsigned 65535 value with
       | Some 0 => Ok AutoPort
       | Some port => Ok (FixedPort port)
       | None => Err (NotANumber value)
       end.

(** Of [ServeOptions], what decides where and to whom. *)
Record ServeOptions := mkOptions {
  opt_hosts : list str;
  opt_hosts_explicit : bool;
  opt_port : Port;
  opt_port_explicit : bool;
  opt_api_key : option str;
  opt_behind_proxy : bool }.

(** ** The persisted binds *)

Record ApiConfig := mkApiConfig { cfg_hosts : list str; cfg_port : option u16 }.

Definition ApiConfig_default : ApiConfig := mkApiConfig [] None.

Section config.
Context {J : Json}.

(** The file: absent, unreadable, not a JSON object, an object whose known
    keys do not have their types, or a configuration; beside them the keys
    this build does not know. *)
Inductive ConfigDisk :=
| CfgNone
| CfgFailing
| CfgNotJson
| CfgMistyped (unknown : Object)
| CfgPresent (c : ApiConfig) (unknown : Object).

Definition load_config (d : ConfigDisk) : result ApiConfig StoreError :=
  match d with
  | CfgNone => Ok ApiConfig_default
  | CfgFailing => Err StoreIo
  | CfgNotJson | CfgMistyped _ => Err StoreUnreadable
  | CfgPresent c _ => Ok c
  end.

Definition unknown_keys (d : ConfigDisk) : option Object :=
  match d with
  | CfgMistyped unknown | CfgPresent _ unknown => Some unknown
  | _ => None
  end.

(** [save], where writing the file succeeds or not. *)
Definition save_config_file (saves : bool) (c : ApiConfig) (d : ConfigDisk)
    : result unit StoreError * ConfigDisk :=
  if saves then (Ok tt, CfgPresent c (default empty_object (unknown_keys d)))
  else (Err StoreIo, d).
End config.

(** ** Startup *)

Definition effective_hosts (o : ServeOptions) (c : ApiConfig) : list str :=
  if opt_hosts_explicit o || bool_decide (cfg_hosts c = []) then opt_hosts o else cfg_hosts c.

(** The port of [run]. *)
Definition effective_port (o : ServeOptions) (c : ApiConfig) : Port :=
  if opt_port_explicit o then opt_port o
  else match cfg_port c with Some p => FixedPort p | None => opt_port o end.

Record ResolvedHost := mkResolved {
  requested_host : str;
  was_literal : bool;
  resolved_addresses : list SocketAddr }.

Definition LOCALHOST : IpAddr := V4 0x7F000001.

(** [trim_end_matches('.')]. *)
Definition trim_dots (s : str) : str :=
  let fix go (s : str) : str := match s with 46 :: s => go s | s => s end in
  reverse (go (reverse s)).

Definition ends_with (suffix s : str) : bool := starts_with (reverse suffix) (reverse s).

Definition was_meant_to_reach_elsewhere (h : ResolvedHost) : bool :=
  if was_literal h then false
  else let name := ascii_lower <$> trim_dots (trim (requested_host h)) in
       negb (bool_decide (name = lit "localhost")) && negb (ends_with (lit ".localhost") name).

Definition is_loopback_only (h : ResolvedHost) : bool :=
  forallb (fun a => is_loopback (sock_ip a)) (resolved_addresses h).

(** The hosts [unreachable_bind_advice] warns of; the advice is [None] when
    there are none. *)
Definition surprising (resolved : list ResolvedHost) : list ResolvedHost :=
  if forallb is_loopback_only resolved then List.filter was_meant_to_reach_elsewhere resolved
  else [].

(** An address that is not there yet is pushed; over all of them. *)
Definition push_new (addresses : list SocketAddr) (a : SocketAddr) : list SocketAddr :=
  if bool_decide (a ∈ addresses) then addresses else addresses ++ [a].

Definition bind_addresses (resolved : list ResolvedHost) : list SocketAddr :=
  foldl (fun acc h => foldl push_new acc (resolved_addresses h)) [] resolved.

Inductive StartError :=
| CouldNotResolve (host : str)
| NoAddressesFor (host : str)
| NoAddresses
| KeysUnreadable (e : StoreError)
| ConfigUnreadable (e : StoreError)
| ExposedWithoutKey
| BehindProxyWithoutKey.

Definition resolve_one `{Lookup} (port : u16) (host : str) : result ResolvedHost StartError :=
  match (match parse_ip host with
         | Some a => Some (true, [mkSocket a port])
         | None => pair false <$> to_socket_addrs host port
         end) with
  | None => Err (CouldNotResolve host)
  | Some (literal, addresses) =>
      if bool_decide (addresses = []) then Err (NoAddressesFor host)
      else Ok (mkResolved host literal addresses)
  end.

Fixpoint resolve_list `{Lookup} (port : u16) (hosts : list str)
    : result (list ResolvedHost) StartError :=
  match hosts with
  | [] => Ok []
  | host :: hosts =>
      let host := trim host in
      if bool_decide (host = []) then resolve_list port hosts
      else let? r := resolve_one port host in
           let? rs := resolve_list port hosts in
           Ok (r :: rs)
  end.

Definition resolve_each `{Lookup} (hosts : list str) (port : u16)
    : result (list ResolvedHost) StartError :=
  if bool_decide (hosts = [])
  then Ok [mkResolved (lit "127.0.0.1") true [mkSocket LOCALHOST port]]
  else let? resolved := resolve_list port hosts in
       if bool_decide (resolved = []) then Err NoAddresses else Ok resolved.

(** [read_key_from_environment], of the variable's value. *)
Definition read_key_from_environment (variable : option str) : option str :=
  let! key := variable in
  if bool_decide (trim key = []) then None else Some (trim key).

Definition finalize_auth (bind_ips : list IpAddr) (static_key : option str)
    (named : list ApiKeyRecord) (behind_proxy : bool) : result AuthPolicy StartError :=
  match policy_build bind_ips static_key named with
  | Err _ => Err ExposedWithoutKey
  | Ok policy =>
      if behind_proxy && negb (is_enabled policy) then Err BehindProxyWithoutKey else Ok policy
  end.

(** What [run] has settled before it binds. *)
Record Settled := mkSettled {
  st_addresses : list SocketAddr;
  st_auth : AuthPolicy;
  st_trust_forwarded : bool;
  st_manages_keys : bool }.

Section startup.
Context `{Lookup} {J : Json}.

Definition settle (o : ServeOptions) (variable : option str) (config : ConfigDisk) (keys : Disk)
    : result Settled StartError :=
  match load_config config with
  | Err e => Err (ConfigUnreadable e)
  | Ok c =>
      let? resolved := resolve_each (effective_hosts o c) (for_bind_port (effective_port o c)) in
      let addresses := bind_addresses resolved in
      let bind_ips := sock_ip <$> addresses in
      let static_key := match opt_api_key o with
                        | Some key => Some key
                        | None => read_key_from_environment variable
                        end in
      let exposed := existsb (fun ip => negb (is_loopback ip)) bind_ips in
      let expose_auth := exposed || opt_behind_proxy o in
      match (if expose_auth then list_keys keys else Ok []) with
      | Err e => Err (KeysUnreadable e)
      | Ok named =>
          let? auth := finalize_auth bind_ips static_key named (opt_behind_proxy o) in
          Ok (mkSettled addresses auth (opt_behind_proxy o) expose_auth)
      end
  end.

(** ** Replacing the binds while running *)

Inductive ConfigRefusal :=
| CrUnresolved (host : str)
| CrNothingResolved
| CrNoLoopback
| CrNeedsKey
| CrNotSaved (e : StoreError).

Fixpoint resolve_ips (hosts : list str) (port : u16) : result (list IpAddr) ConfigRefusal :=
  match hosts with
  | [] => Ok []
  | host :: hosts =>
      match to_socket_addrs host port with
      | None => Err (CrUnresolved host)
      | Some addrs => let? ips := resolve_ips hosts port in Ok ((sock_ip <$> addrs) ++ ips)
      end
  end.

(** The checks of [validate_and_save] on a list that has an opinion. *)
Definition validate_hosts (hosts : list str) (port : u16) (has_credential : bool)
    : result unit ConfigRefusal :=
  let? resolved := resolve_ips hosts port in
  if bool_decide (resolved = []) then Err CrNothingResolved
  else if negb (existsb is_loopback resolved) then Err CrNoLoopback
  else if existsb (fun ip => negb (is_loopback ip)) resolved && negb has_credential
  then Err CrNeedsKey
  else Ok tt.

Definition validate_and_save (saves : bool) (d : ConfigDisk) (config : ApiConfig) (port : u16)
    (has_credential : bool) : result ApiConfig ConfigRefusal * ConfigDisk :=
  match (if bool_decide (cfg_hosts config = []) then Ok tt
         else validate_hosts (cfg_hosts config) port has_credential) with
  | Err e => (Err e, d)
  | Ok _ =>
      match save_config_file saves config d with
      | (Err e, d) => (Err (CrNotSaved e), d)
      | (Ok _, d) => (Ok config, d)
      end
  end.

(** [save_config] behind its guards: the port and the credential it judges
    with. *)
Definition save_binds (saves : bool) (auth : AuthPolicy) (keys : option Disk) (d : ConfigDisk)
    (incoming : ApiConfig) : result ApiConfig ConfigRefusal * ConfigDisk :=
  let port := default DEFAULT_PORT (cfg_port incoming) in
  let has_credential :=
    is_enabled auth ||
    match keys with
    | Some k => match any_key k with Ok b => b | Err _ => false end
    | None => false
    end in
  validate_and_save saves d incoming port has_credential.

Fixpoint resolve_all (hosts : list str) (port : u16) : option (list SocketAddr) :=
  match hosts with
  | [] => Some []
  | host :: hosts =>
      let! addrs := to_socket_addrs host port in
      let! rest := resolve_all hosts port in Some (addrs ++ rest)
  end.

(** Two ordered sets are equal when each holds the other's elements. *)
Definition same_addresses (a b : list SocketAddr) : bool :=
  forallb (fun x => bool_decide (x ∈ b)) a && forallb (fun x => bool_decide (x ∈ a)) b.

Definition config_matches_running (config : ApiConfig) (running : list SocketAddr) : bool :=
  if bool_decide (cfg_hosts config = []) then true
  else match resolve_all (cfg_hosts config) (default DEFAULT_PORT (cfg_port config)) with
       | Some want => same_addresses want running
       | None => false
       end.
End startup.
