(* ===== verification/ExposureTheorems.v ===== *)
(** * Theorems on where the gateway answers *)

From stdpp Require Import base gmap strings numbers list.
From S2P Require Import Prelude Scheduler Names Net Frames Limits Rewriter Keys Responses Auth.
From S2P Require Import Panel Exposure.

Section theorems.
Context `{Sha256} `{L : Lookup} {J : Json}.

(** ** Addresses to bind *)

Lemma elem_of_push_new l a x : x ∈ push_new l a ↔ x ∈ l ∨ x = a.
Proof.
  unfold push_new. case_bool_decide; [naive_solver|].
  rewrite elem_of_app, list_elem_of_singleton. done.
Qed.

Lemma NoDup_push_new l a : NoDup l → NoDup (push_new l a).
Proof.
  unfold push_new. case_bool_decide as Hin; [done|]. intros Hn.
  apply NoDup_app. split; [done|]. split; [|apply NoDup_singleton].
  intros x Hx ->%list_elem_of_singleton. done.
Qed.

Lemma push_all l acc :
  (NoDup acc → NoDup (foldl push_new acc l)) ∧
  ∀ x, x ∈ foldl push_new acc l ↔ x ∈ acc ∨ x ∈ l.
Proof.
  revert acc. induction l as [|a l IH]; intros acc; simpl.
  { split; [done|]. intros x. rewrite elem_of_nil. naive_solver. }
  destruct (IH (push_new acc a)) as [Hn Hin]. split; [by intros ?; apply Hn, NoDup_push_new|].
  intros x. rewrite Hin, elem_of_push_new, elem_of_cons. naive_solver.
Qed.

Lemma bind_addresses_spec resolved :
  NoDup (bind_addresses resolved) ∧
  ∀ x, x ∈ bind_addresses resolved ↔ ∃ h, h ∈ resolved ∧ x ∈ resolved_addresses h.
Proof.
  unfold bind_addresses.
  assert (Hgen : ∀ acc,
    (NoDup acc → NoDup (foldl (λ acc h, foldl push_new acc (resolved_addresses h)) acc resolved)) ∧
    ∀ x, x ∈ foldl (λ acc h, foldl push_new acc (resolved_addresses h)) acc resolved ↔
      x ∈ acc ∨ ∃ h, h ∈ resolved ∧ x ∈ resolved_addresses h).
  { induction resolved as [|h hs IH]; intros acc; simpl.
    { split; [done|]. intros x. split; [by left|].
      intros [?|(h & Hh & _)]; [done|]. by apply elem_of_nil in Hh. }
    destruct (push_all (resolved_addresses h) acc) as [Hn Hin].
    destruct (IH (foldl push_new acc (resolved_addresses h))) as [Hn' Hin'].
    split; [by auto|]. intros x. rewrite Hin', Hin. setoid_rewrite elem_of_cons. naive_solver. }
  destruct (Hgen []) as [Hn Hin]. split; [by apply Hn, NoDup_nil|].
  intros x. rewrite Hin, elem_of_nil. naive_solver.
Qed.

Lemma resolve_list_nonempty port hosts resolved :
  resolve_list port hosts = Ok resolved → ∀ h, h ∈ resolved → resolved_addresses h ≠ [].
Proof.
  revert resolved. induction hosts as [|host hosts IH]; intros resolved; simpl.
  { intros [= <-] h Hh. by apply elem_of_nil in Hh. }
  case_bool_decide; [by apply IH|]. unfold resolve_one.
  destruct (match parse_ip _ with Some _ => _ | None => _ end) as [[b addrs]|]; [|done].
  case_bool_decide; [done|]. simpl. destruct (resolve_list port hosts) as [rs|]; [|done].
  simpl. intros [= <-] h. rewrite elem_of_cons. intros [->|Hh]; [done|]. by eapply IH.
Qed.

Lemma resolve_each_nonempty hosts port resolved :
  resolve_each hosts port = Ok resolved → bind_addresses resolved ≠ [].
Proof.
  unfold resolve_each. case_bool_decide; [by intros [= <-]|].
  destruct (resolve_list port hosts) as [rs|] eqn:Hr; simpl; [|done].
  case_bool_decide as Hne; [done|]. intros [= <-] Hb.
  destruct rs as [|h rs]; [done|].
  pose proof (resolve_list_nonempty _ _ _ Hr h (list_elem_of_here h rs)) as Ha.
  destruct (resolved_addresses h) as [|a l] eqn:Hh; [done|].
  assert (Hin : a ∈ bind_addresses (h :: rs)).
  { apply bind_addresses_spec. exists h. split; [apply list_elem_of_here|].
    rewrite Hh. apply list_elem_of_here. }
  rewrite Hb in Hin. by apply elem_of_nil in Hin.
Qed.

(** ** The policy a start settles on *)

Lemma exposed_false ips :
  existsb (fun ip => negb (is_loopback ip)) ips = false ↔ Forall (λ ip, is_loopback ip = true) ips.
Proof.
  induction ips as [|ip ips IH]; simpl; [by split|].
  rewrite orb_false_iff, negb_false_iff, IH, Forall_cons. done.
Qed.

Lemma policy_build_cases ips static_key named :
  match policy_build ips static_key named with
  | Ok Disabled => named = [] ∧ Forall (λ ip, is_loopback ip = true) ips
  | Ok (Required s named') => named' = named ∧ s ≠ Some [] ∧ (s ≠ None ∨ named ≠ [])
  | Err _ => named = [] ∧ ¬ Forall (λ ip, is_loopback ip = true) ips
  end.
Proof.
  unfold policy_build. pose proof (exposed_false ips) as Hexp.
  set (s := match static_key with Some [] => None | k => k end).
  assert (Hs : s ≠ Some []) by (unfold s; destruct static_key as [[|]|]; done).
  case_bool_decide as Hsome; simpl.
  { split_and!; [done|done|]. left. by destruct Hsome as [? ->]. }
  case_bool_decide as Hn; simpl; [|by split_and!; auto].
  destruct (existsb _ ips); simpl; (split; [done|]); by rewrite <-Hexp.
Qed.

(** The gateway a settled start runs. *)
Definition started (st : Settled) (keys : Disk) : Gateway :=
  mkGateway (st_auth st) RateLimiter_new (st_trust_forwarded st) (st_manages_keys st) (Some keys).

(** C26: no start settles on an open policy for a gateway that can be reached.
    Whatever the options, the environment, the saved binds and the key file, a
    start that succeeds binds at least one address and none twice; it settles on
    a policy without credentials only when every address is loopback and no
    proxy fronts it; a policy that requires a key has one, and an empty one is
    none; and when the binds are exposed or proxied the policy's named keys are
    those of the key file, which it manages from then on.  Which requests the
    policy is then put to is [authorize]'s matter, not the start's: health
    probes, the panel's own files and what comes through its tunnel are not. *)
Theorem no_open_start o variable config keys st :
  settle o variable config keys = Ok st →
  st_addresses st ≠ [] ∧ NoDup (st_addresses st) ∧
  match st_auth st with
  | Disabled => Forall (λ a, is_loopback (sock_ip a) = true) (st_addresses st) ∧
      opt_behind_proxy o = false
  | Required static_key named => static_key ≠ Some [] ∧ (static_key ≠ None ∨ named ≠ []) ∧
      (st_manages_keys st = true → in_step static_key (started st keys))
  end ∧
  (st_manages_keys st = true ↔
     ¬ Forall (λ a, is_loopback (sock_ip a) = true) (st_addresses st) ∨ opt_behind_proxy o = true).
Proof.
  unfold settle. destruct (load_config config) as [c|]; [|done].
  destruct (resolve_each _ _) as [resolved|] eqn:Hr; simpl; [|done].
  set (exposed := existsb _ _).
  destruct (if exposed || opt_behind_proxy o then list_keys keys else Ok [])
    as [named'|] eqn:Hn; [|done].
  unfold finalize_auth. pose proof (policy_build_cases (sock_ip <$> bind_addresses resolved)
    (match opt_api_key o with Some key => Some key | None => read_key_from_environment variable end)
    named') as Hcases.
  destruct (policy_build _ _ _) as [auth|]; [|done]. simpl.
  destruct (opt_behind_proxy o && negb (is_enabled auth)) eqn:Hb; [done|]. simpl.
  intros [= <-]. simpl.
  assert (Hexp : exposed = false ↔
    Forall (λ a, is_loopback (sock_ip a) = true) (bind_addresses resolved)).
  { unfold exposed. rewrite exposed_false, Forall_fmap. done. }
  split_and!; [by eapply resolve_each_nonempty|apply bind_addresses_spec| |].
  - destruct auth as [|s named2].
    + destruct Hcases as [_ Hall]. rewrite Forall_fmap in Hall. split; [done|].
      by destruct (opt_behind_proxy o).
    + destruct Hcases as (-> & Hs & Hcred). split_and!; [done|done|]. intros Hm.
      split; [done|]. exists keys, named'. split; [done|]. split; [|done].
      by rewrite Hm in Hn.
  - rewrite <-Hexp, not_false_iff_true, orb_true_iff. done.
Qed.

(** ** A saved configuration starts *)

Lemma resolve_ips_spec `{!LookupLaws L} hosts port ips :
  Forall (λ host, trim host = host ∧ host ≠ []) hosts →
  resolve_ips hosts port = Ok ips →
  ∃ resolved, resolve_list port hosts = Ok resolved ∧
    length resolved = length hosts ∧
    ∀ ip, ip ∈ ips ↔ ip ∈ sock_ip <$> bind_addresses resolved.
Proof.
  intros Hhosts. assert (Hgen : ∀ ips, resolve_ips hosts port = Ok ips →
    ∃ resolved, resolve_list port hosts = Ok resolved ∧ length resolved = length hosts ∧
      ips = sock_ip <$> mjoin (resolved_addresses <$> resolved)).
  { clear ips. induction Hhosts as [|host hosts [Ht Hne] _ IH]; intros ips; simpl.
    { intros [= <-]. by exists []. }
    rewrite Ht, bool_decide_eq_false_2 by done. unfold resolve_one, to_socket_addrs.
    destruct (parse_ip host) as [a|].
    - destruct (resolve_ips hosts port) as [ips'|]; simpl; [|done]. intros [= <-].
      destruct (IH ips' eq_refl) as (rs & Hrs & Hlen & ->). rewrite Hrs. simpl.
      eexists. split; [done|]. simpl. by rewrite Hlen.
    - destruct (lookup_host host port) as [l|] eqn:Hl; simpl; [|done].
      destruct (resolve_ips hosts port) as [ips'|]; simpl; [|done]. intros [= <-].
      rewrite bool_decide_eq_false_2 by (by eapply lookup_found).
      destruct (IH ips' eq_refl) as (rs & Hrs & Hlen & ->). rewrite Hrs. simpl.
      eexists. split; [done|]. simpl. by rewrite Hlen, fmap_app. }
  intros Hips. destruct (Hgen ips Hips) as (rs & Hrs & Hlen & ->).
  exists rs. split_and!; [done|done|]. intros ip. rewrite !list_elem_of_fmap.
  split; intros (a & -> & Hin); exists a; (split; [done|]).
  - apply bind_addresses_spec. rewrite list_elem_of_join in Hin.
    destruct Hin as (l & Hin & (h & -> & Hh)%list_elem_of_fmap). eauto.
  - apply bind_addresses_spec in Hin as (h & Hh & Hin). apply list_elem_of_join.
    eexists. split; [exact Hin|]. by apply list_elem_of_fmap_2.
Qed.

(** A saved bind list starts.  When the running gateway accepts and saves
    a list of hosts, a later start that defaults its hosts and port, finds the
    same names and has a key in the file succeeds; this machine can reach it
    on a loopback address; and if any of its addresses can be reached from
    elsewhere a key is required there. *)
Theorem saved_binds_start `{!LookupLaws L} saves auth keys d incoming c d' o variable named :
  save_binds saves auth (Some keys) d incoming = (Ok c, d') →
  cfg_hosts incoming ≠ [] →
  Forall (λ host, trim host = host ∧ host ≠ []) (cfg_hosts incoming) →
  list_keys keys = Ok named → named ≠ [] →
  opt_hosts_explicit o = false → opt_port_explicit o = false → opt_port o = Port_default →
  ∃ st, settle o variable d' keys = Ok st ∧
    (∃ a, a ∈ st_addresses st ∧ is_loopback (sock_ip a) = true) ∧
    ((∃ a, a ∈ st_addresses st ∧ is_loopback (sock_ip a) = false) →
       is_enabled (st_auth st) = true).
Proof.
  intros Hsave Hne Hhosts Hkeys Hnamed Ho Hp Hdef.
  unfold save_binds, validate_and_save in Hsave. rewrite bool_decide_eq_false_2 in Hsave by done.
  unfold validate_hosts in Hsave.
  destruct (resolve_ips _ _) as [ips|] eqn:Hips; simpl in Hsave; [|done].
  case_bool_decide; [done|]. destruct (existsb is_loopback ips) eqn:Hloop; [|done]. simpl in Hsave.
  destruct (existsb _ ips && _); [done|]. unfold save_config_file in Hsave.
  destruct saves; [|done]. injection Hsave as <- <-.
  destruct (resolve_ips_spec _ _ _ Hhosts Hips) as (resolved & Hres & Hlen & Hin).
  assert (Hport : for_bind_port (effective_port o incoming) = default DEFAULT_PORT (cfg_port incoming)).
  { unfold effective_port. rewrite Hp, Hdef. by destruct (cfg_port incoming). }
  unfold settle. simpl. unfold effective_hosts. rewrite Ho, Hport.
  rewrite bool_decide_eq_false_2 by done. simpl. unfold resolve_each.
  rewrite bool_decide_eq_false_2 by done. rewrite Hres. simpl.
  rewrite bool_decide_eq_false_2 by (intros ->; by destruct (cfg_hosts incoming)). simpl.
  assert (Hl : ∃ a, a ∈ bind_addresses resolved ∧ is_loopback (sock_ip a) = true).
  { apply existsb_exists in Hloop as (ip & Hip & Hl). rewrite <-list_elem_of_In, Hin in Hip.
    apply list_elem_of_fmap in Hip as (a & -> & Ha). eauto. }
  set (expose := _ || opt_behind_proxy o).
  assert (Hok : ∃ named', (if expose then list_keys keys else Ok []) = Ok named' ∧
            (expose = true → named' ≠ [])).
  { destruct expose; [by exists named|by exists []]. }
  destruct Hok as (named' & -> & Hn'). unfold finalize_auth.
  pose proof (policy_build_cases (sock_ip <$> bind_addresses resolved)
    (match opt_api_key o with Some key => Some key | None => read_key_from_environment variable end)
    named') as Hcases.
  assert (Hexp : expose = false →
    Forall (λ ip, is_loopback ip = true) (sock_ip <$> bind_addresses resolved) ∧
    opt_behind_proxy o = false).
  { unfold expose. rewrite orb_false_iff, exposed_false. done. }
  destruct (policy_build _ _ _) as [[|s n]|].
  - destruct Hcases as [-> Hall]. destruct expose; [by destruct (Hn' eq_refl)|].
    destruct (Hexp eq_refl) as [_ ->]. simpl. eexists. split; [done|]. split; [done|]. simpl.
    intros (a & Ha & Hf). rewrite Forall_fmap, Forall_forall in Hall. specialize (Hall a Ha).
    simpl in Hall. congruence.
  - simpl. rewrite andb_false_r. eexists. split; [done|]. done.
  - destruct Hcases as [-> Hall]. destruct expose; [by destruct (Hn' eq_refl)|].
    by destruct (Hexp eq_refl).
Qed.
End theorems.

(** ** A machine with a name *)
Section demo.
#[local] Existing Instance plain_digest.
#[local] Existing Instance NumberJson.

(** [box] is 10.0.0.9 and [localhost] is itself; nothing else is found. *)
Definition demo_lookup : Lookup := fun host port =>
  if bool_decide (host = lit "box") then Some [mkSocket far port]
  else if bool_decide (host = lit "localhost") then Some [mkSocket near port; mkSocket (V6 1) port]
  else None.
#[local] Existing Instance demo_lookup.

#[local] Instance demo_lookup_laws : LookupLaws demo_lookup.
Proof.
  split. intros host port l. unfold lookup_host, demo_lookup.
  repeat case_bool_decide; intros Hl; by simplify_eq.
Qed.

Definition plain_options (hosts : list str) (explicit : bool) : ServeOptions :=
  mkOptions hosts explicit Port_default false None false.

Definition tenant_file : Disk := Present (mkKeysFile 1 [tenant] []).

(** Two hosts are bound with the file's key; without one the start fails. *)
Lemma no_open_start_witness :
  let o := plain_options [lit "localhost"; lit " box "; lit "::1"] true in
  settle o None CfgNone NoFile = Err ExposedWithoutKey ∧
  ∃ st, settle o None CfgNone tenant_file = Ok st ∧ length (st_addresses st) = 3%nat ∧
    in_step None (started st tenant_file).
Proof.
  intros o. split; [by vm_compute|].
  destruct (settle o None CfgNone tenant_file) as [st|] eqn:Hst; [|by vm_compute in Hst].
  pose proof (no_open_start o None CfgNone tenant_file st Hst) as (_ & _ & Hauth & _).
  vm_compute in Hst. injection Hst as <-. eexists. split; [reflexivity|]. split; [reflexivity|].
  by apply Hauth.
Defined.

Lemma saved_binds_start_witness :
  let incoming := mkApiConfig [lit "localhost"; lit "box"] (Some 8080) in
  ∃ c d' st, save_binds true (Required None [tenant]) (Some tenant_file) CfgNone incoming = (Ok c, d') ∧
    settle (plain_options [] false) None d' tenant_file = Ok st ∧
    is_enabled (st_auth st) = true.
Proof.
  intros incoming.
  destruct (saved_binds_start (L := demo_lookup) true (Required None [tenant]) tenant_file CfgNone
    incoming incoming (@CfgPresent NumberJson incoming []) (plain_options [] false) None [tenant])
    as (st & Hst & _ & Hen); [by vm_compute|done| |done|done|done|done|done|].
  { repeat constructor; vm_compute; done. }
  exists incoming, (@CfgPresent NumberJson incoming []), st. split; [by vm_compute|]. split; [exact Hst|].
  apply Hen. vm_compute in Hst. injection Hst as <-. exists (mkSocket far 8080).
  split; [|reflexivity]. vm_compute. repeat constructor.
Defined.
End demo.
