(* ===== verification/Generation.v ===== *)
(** * What a generation reports, and the chunks a client reads

    The events of [crates/lightweight-inference/src/generation.rs], the failures
    of [error.rs] beside it with the classes of [crates/lightweight-core/src/error.rs],
    and [crates/lightweight-api/src/stream.rs]: the chunks of a streamed
    completion and the builder that keeps a client's tool calls apart.

    A chunk is a record; its JSON is serde's ([ChunkJson]).  A path is its
    text; the remedies of a failure are left out, as [hermes] is of the
    envelope. *)

From Stdlib Require Import SpecFloat.
From stdpp Require Import base gmap strings numbers pretty list.
From S2P Require Import Prelude Names Utf8 Float64 Frames Sse Responses.

(** ** Events *)

Inductive FinishReason := FrStop | FrLength | FrToolCalls | FrError.

#[export] Instance FinishReason_eq_dec : EqDecision FinishReason.
Proof. solve_decision. Defined.

Definition finish_str (r : FinishReason) : str :=
  match r with
  | FrStop => lit "stop"
  | FrLength => lit "length"
  | FrToolCalls => lit "tool_calls"
  | FrError => lit "error"
  end.

Record Usage := mkUsage {
  us_prompt_tokens : u32;
  us_completion_tokens : u32;
  us_total_tokens : u32;
  us_cached_tokens : u32 }.

Definition Usage_default : Usage := mkUsage 0 0 0 0.

Definition Usage_new (prompt_tokens completion_tokens : u32) : Usage :=
  mkUsage prompt_tokens completion_tokens (sat_add32 prompt_tokens completion_tokens) 0.

Record Timings := mkTimings {
  prompt_n : u32;
  prompt_ms : f64;
  predicted_n : u32;
  predicted_ms : f64;
  cached_n : u32 }.

Inductive GenerationEvent :=
| Started (prompt_tokens : option u32)
| ContentDelta (text : str)
| ReasoningDelta (text : str)
| ToolCallDelta (index : u32) (call : option str) (name arguments : option str)
| TimingsMeasured (t : Timings)
| Finished (finish_reason : FinishReason) (usage : Usage).

(** ** Failures *)

Inductive ErrorKind :=
| KInvalidRequest | KNotFound | KUnauthorized | KRateLimited | KResourceExhausted | KUnavailable
| KInternal | KCancelled.

Definition http_status (k : ErrorKind) : u16 :=
  match k with
  | KInvalidRequest => 400 | KUnauthorized => 401 | KNotFound => 404 | KRateLimited => 429
  | KResourceExhausted => 507 | KUnavailable => 503 | KInternal => 500 | KCancelled => 499
  end.

Definition openai_type (k : ErrorKind) : str :=
  match k with
  | KInvalidRequest => lit "invalid_request_error"
  | KUnauthorized => lit "authentication_error"
  | KNotFound => lit "not_found_error"
  | KRateLimited => lit "rate_limit_error"
  | KResourceExhausted | KUnavailable | KInternal | KCancelled => lit "server_error"
  end.

Definition is_retryable (k : ErrorKind) : bool :=
  match k with KRateLimited | KUnavailable => true | _ => false end.

Inductive BackendError :=
| UnsupportedPlatform (os arch : str)
| RuntimeDownloadFailed (reason : str)
| RuntimeCorrupt (expected actual : str)
| RuntimeMissing (path : str)
| LowDisk (needed available : u64)
| BeModelNotFound (path : str)
| UnsupportedArchitecture (found : str) (supported : list str)
| InvalidContextLength (requested max : u32)
| ContextOverflow (overflow_prompt overflow_ctx : u32)
| UnsupportedKvCacheType (requested : str) (supported : list str)
| InsufficientMemory (model required available : str)
| LockedMemoryTooSmall (required limit : u64)
| StartTimeout (seconds : u64)
| EngineCrashed (detail : str) (exit_code signal : option Z) (tail : list str)
| EngineOom (tail : list str)
| UnsupportedCpuInstruction (detected : str)
| EngineUnavailable
| GenerationFailed (detail : str)
| NoModelLoaded
| Cancelled
| BeIo (context source : str).

Definition error_code (e : BackendError) : str :=
  match e with
  | UnsupportedPlatform _ _ => lit "unsupported_platform"
  | RuntimeDownloadFailed _ => lit "runtime_download_failed"
  | RuntimeCorrupt _ _ => lit "runtime_corrupt"
  | RuntimeMissing _ => lit "runtime_missing"
  | LowDisk _ _ => lit "low_disk"
  | BeModelNotFound _ => lit "model_not_found"
  | UnsupportedArchitecture _ _ => lit "unsupported_architecture"
  | InvalidContextLength _ _ => lit "invalid_context_length"
  | UnsupportedKvCacheType _ _ => lit "unsupported_kv_cache_type"
  | ContextOverflow _ _ => lit "context_length_exceeded"
  | InsufficientMemory _ _ _ => lit "insufficient_memory"
  | LockedMemoryTooSmall _ _ => lit "locked_memory_too_small"
  | StartTimeout _ => lit "engine_start_timeout"
  | EngineCrashed _ _ _ _ => lit "engine_crashed"
  | EngineOom _ => lit "engine_out_of_memory"
  | UnsupportedCpuInstruction _ => lit "unsupported_cpu_instruction"
  | EngineUnavailable => lit "engine_unavailable"
  | GenerationFailed _ => lit "generation_failed"
  | NoModelLoaded => lit "no_model_loaded"
  | Cancelled => lit "cancelled"
  | BeIo _ _ => lit "io_error"
  end.

Definition error_kind (e : BackendError) : ErrorKind :=
  match e with
  | BeModelNotFound _ => KNotFound
  | UnsupportedArchitecture _ _ | InvalidContextLength _ _ | ContextOverflow _ _
  | UnsupportedKvCacheType _ _ | LockedMemoryTooSmall _ _ => KInvalidRequest
  | LowDisk _ _ | InsufficientMemory _ _ _ | EngineOom _ => KResourceExhausted
  | EngineUnavailable | NoModelLoaded | StartTimeout _ | EngineCrashed _ _ _ _ => KUnavailable
  | Cancelled => KCancelled
  | _ => KInternal
  end.

Definition is_transient (e : BackendError) : bool :=
  match e with EngineCrashed _ _ _ _ | StartTimeout _ | EngineUnavailable => true | _ => false end.

(** [{value:.precision$}] of a number that is not negative: its exact value to
    the last place, ties to even. *)
Definition fixed_point (x : f64) (precision : Z) : str :=
  let scale := 10 ^ precision in
  let scaled := match x with
                | S754_finite _ m e =>
                    if 0 <=? e then Zpos m * 2 ^ e * scale
                    else round_half_even (Zpos m * scale) (2 ^ (- e))
                | _ => 0
                end in
  let digits := decimal (scaled mod scale) in
  decimal (scaled / scale) ++ lit "."
  ++ replicate (Z.to_nat precision - length digits) 48 ++ digits.

(** [Display] of [Bytes]. *)
Definition display_bytes (n : u64) : str :=
  let in_unit scale suffix :=
    let value := f64_div (f64_of n) (f64_of scale) in
    fixed_point value (if f64_lt value (f64_of 10) then 2 else 1) ++ suffix in
  if 2 ^ 30 <=? n then in_unit (2 ^ 30) (lit " GiB")
  else if 2 ^ 20 <=? n then in_unit (2 ^ 20) (lit " MiB")
  else if 2 ^ 10 <=? n then in_unit (2 ^ 10) (lit " KiB")
  else decimal n ++ lit " B".

Example display_bytes_units :
  display_bytes <$> [0; 512; 4096; 768 * 2 ^ 20; 2 ^ 31; 10736344498; 2 ^ 40 + 2 ^ 38]
  = lit <$> ["0 B"; "512 B"; "4.00 KiB"; "768.0 MiB"; "2.00 GiB"; "10.00 GiB"; "1280.0 GiB"]%string.
Proof. vm_compute. reflexivity. Qed.

(** [Display] of the failures. *)
Definition error_message `{StrDebug} (e : BackendError) : str :=
  match e with
  | UnsupportedPlatform os arch =>
      lit "no inference engine is available for " ++ os ++ lit "/" ++ arch
  | RuntimeDownloadFailed reason => lit "could not download the inference engine: " ++ reason
  | RuntimeCorrupt expected actual =>
      lit "the downloaded engine failed verification: expected sha256 " ++ expected
      ++ lit ", got " ++ actual
  | RuntimeMissing path => lit "the inference engine is not installed at " ++ path
  | LowDisk needed available =>
      lit "not enough disk space: " ++ decimal needed ++ lit " bytes required, "
      ++ decimal available ++ lit " available"
  | BeModelNotFound path => lit "no model file at " ++ path
  | UnsupportedArchitecture found _ =>
      lit "the CPU backend does not support the " ++ debug_str found ++ lit " architecture"
  | InvalidContextLength requested max =>
      lit "a context of " ++ decimal requested
      ++ lit " tokens exceeds this model's maximum context length of " ++ decimal max
      ++ lit " tokens"
  | ContextOverflow prompt_tokens n_ctx =>
      lit "this model's maximum context length is " ++ decimal n_ctx
      ++ lit " tokens, however your messages resulted in " ++ decimal prompt_tokens
      ++ lit " tokens. Please reduce the length of the messages or lower the configured context length."
  | UnsupportedKvCacheType requested _ =>
      lit "the engine does not accept " ++ debug_str requested ++ lit " as a KV cache type"
  | InsufficientMemory model required available =>
      model ++ lit " needs " ++ required ++ lit " but only " ++ available ++ lit " is free"
  | LockedMemoryTooSmall required limit =>
      lit "locking this model's " ++ display_bytes required
      ++ lit " of weights needs a locked-memory allowance of at least that much; this user's is "
      ++ display_bytes limit
  | StartTimeout seconds =>
      lit "the engine did not become ready within " ++ decimal seconds ++ lit " seconds"
  | EngineCrashed detail _ _ _ => lit "the engine stopped unexpectedly (" ++ detail ++ lit ")"
  | EngineOom _ => lit "the operating system killed the engine for using too much memory"
  | UnsupportedCpuInstruction detected =>
      lit "the engine used a CPU instruction this machine does not have; detected instruction sets: "
      ++ detected
  | EngineUnavailable => lit "the engine is not running"
  | GenerationFailed detail => lit "the engine could not complete the request: " ++ detail
  | NoModelLoaded => lit "no model is loaded"
  | Cancelled => lit "the operation was cancelled"
  | BeIo context source => context ++ lit ": " ++ source
  end.

(** [ErrorEnvelope::from_error]. *)
Definition from_error `{StrDebug} (e : BackendError) : ErrorEnvelope :=
  mkEnvelope (error_message e) (openai_type (error_kind e)) None (error_code e).

(** ** Chunks *)

Record PromptTokensDetails := mkDetails { det_cached_tokens : u32 }.

Record UsageBody := mkUsageBody {
  ub_prompt_tokens : u32;
  ub_completion_tokens : u32;
  ub_total_tokens : u32;
  ub_details : option PromptTokensDetails }.

Definition UsageBody_default : UsageBody := mkUsageBody 0 0 0 None.

(** [UsageBody::from]. *)
Definition usage_body (u : Usage) : UsageBody :=
  mkUsageBody (us_prompt_tokens u) (us_completion_tokens u) (us_total_tokens u)
    (Some (mkDetails (us_cached_tokens u))).

Record FunctionDelta := mkFunctionDelta { fd_name : option str; fd_arguments : option str }.

Record CallDelta := mkCallDelta {
  cd_index : u32;
  cd_id : option str;
  cd_type : option str;
  cd_function : option FunctionDelta }.

Record Delta := mkDelta {
  dl_role : option str;
  dl_content : option str;
  dl_reasoning : option str;
  dl_tool_calls : option (list CallDelta) }.

Definition Delta_default : Delta := mkDelta None None None None.

Record ChunkChoice := mkChoice {
  cc_index : u32;
  cc_delta : Delta;
  cc_finish_reason : option str }.

Record ChatCompletionChunk := mkChunk {
  ck_id : str;
  ck_object : str;
  ck_created : u64;
  ck_model : str;
  ck_choices : list ChunkChoice;
  ck_usage : option UsageBody;
  ck_timings : option Timings;
  ck_error : option ErrorEnvelope }.

(** What goes out on the stream: the JSON of a chunk, a comment, or [DONE]. *)
Inductive Frame := FrChunk (c : ChatCompletionChunk) | FrComment (text : str) | FrDone.

(** [serde_json::to_string] of a chunk. *)
Class ChunkJson := chunk_to_string : ChatCompletionChunk → str.

(** [to_sse_frame], and the other frames as they are written. *)
Definition frame_text `{ChunkJson} (f : Frame) : str :=
  match f with
  | FrChunk c => encode_data (chunk_to_string c)
  | FrComment text => encode_comment text
  | FrDone => encode_done
  end.

(** ** The builder *)

Record ChunkBuilder := mkBuilder {
  cb_id : str;
  cb_model : str;
  cb_created : u64;
  announced_tool_calls : list u32 }.

(** [ChunkBuilder::new], at the time [now]. *)
Definition ChunkBuilder_new (id model : str) (now : u64) : ChunkBuilder := mkBuilder id model now [].

Definition chunk (b : ChunkBuilder) (choices : list ChunkChoice) : ChatCompletionChunk :=
  mkChunk (cb_id b) (lit "chat.completion.chunk") (cb_created b) (cb_model b) choices None None None.

Definition delta_chunk (b : ChunkBuilder) (d : Delta) : ChatCompletionChunk :=
  chunk b [mkChoice 0 d None].

Definition chunk_role (b : ChunkBuilder) : ChatCompletionChunk :=
  delta_chunk b (mkDelta (Some (lit "assistant")) (Some []) None None).

Definition chunk_content (b : ChunkBuilder) (text : str) : ChatCompletionChunk :=
  delta_chunk b (mkDelta None (Some text) None None).

Definition chunk_reasoning (b : ChunkBuilder) (text : str) : ChatCompletionChunk :=
  delta_chunk b (mkDelta None None (Some text) None).

Definition chunk_tool_call (b : ChunkBuilder) (index : u32) (call name arguments : option str)
    : ChatCompletionChunk * ChunkBuilder :=
  let first_time := negb (bool_decide (index ∈ announced_tool_calls b)) in
  let '(call, b) :=
    match first_time, call with
    | true, Some call =>
        (Some call, mkBuilder (cb_id b) (cb_model b) (cb_created b)
                      (announced_tool_calls b ++ [index]))
    | _, _ => (None, b)
    end in
  let name := if first_time then name else None in
  let function :=
    match name, arguments with
    | None, None => None
    | _, _ =>
        Some (mkFunctionDelta name
                (match arguments with Some a => Some a | None => (fun _ => []) <$> call end))
    end in
  (delta_chunk b (mkDelta None None None
     (Some [mkCallDelta index call ((fun _ => lit "function") <$> call) function])), b).

Definition chunk_finish (b : ChunkBuilder) (reason : FinishReason) : ChatCompletionChunk :=
  chunk b [mkChoice 0 Delta_default (Some (finish_str reason))].

Definition chunk_usage (b : ChunkBuilder) (usage : UsageBody) (timings : option Timings)
    : ChatCompletionChunk :=
  mkChunk (cb_id b) (lit "chat.completion.chunk") (cb_created b) (cb_model b) []
    (Some usage) timings None.

Definition chunk_error (b : ChunkBuilder) (body : ErrorEnvelope) : ChatCompletionChunk :=
  mkChunk (cb_id b) (lit "chat.completion.chunk") (cb_created b) (cb_model b)
    [mkChoice 0 Delta_default (Some (finish_str FrError))] None None (Some body).

Definition keep_alive : Frame := FrComment (lit "ping").

Definition queued_notice (position : u32) (waited : Duration) : Frame :=
  FrComment (lit "queued position=" ++ decimal position ++ lit " waited="
             ++ decimal (as_secs waited) ++ lit "s").
