(* ===== verification/Engine.v ===== *)
(** * Reading the engine's stream

    [crates/lightweight-backend-llamacpp/src/upstream.rs]: the bytes the engine
    streams, decoded, and folded into the events the rest of the gateway
    speaks.

    What the body does is a list of items ([BodyItem]); a client that went
    away, or a shutdown, is [BodyCancelled].  JSON is the class [Json]. *)

From stdpp Require Import base gmap strings numbers list.
From S2P Require Import Prelude Names Utf8 Float64 Frames Sse Rewriter Classifier Responses.
From S2P Require Import Generation.

Inductive BodyItem :=
| BodyChunk (bytes : list byte)
| BodyBroken (connect : bool) (detail : str)
| BodyEnd
| BodyCancelled.

(** [transport_error]. *)
Definition transport_error (connect : bool) (detail : str) : BackendError :=
  if connect then EngineUnavailable else GenerationFailed detail.

(** [Display] of [SseDecodeError]. *)
Definition decode_error_text (e : SseDecodeError) : str :=
  match e with
  | FrameTooLarge limit => lit "a server-sent event exceeded " ++ decimal limit ++ lit " bytes without ending"
  end.

Record Translation := mkTranslation {
  tr_decoder : SseDecoder;
  tr_pending : list (result GenerationEvent BackendError);
  tr_started : bool;
  tr_finish_reason : option FinishReason;
  tr_usage : option Usage;
  tr_finished : bool;
  reported_finish : bool }.

Definition Translation_new : Translation :=
  mkTranslation SseDecoder_new [] false None None false false.

Definition push (r : result GenerationEvent BackendError) (s : Translation) : Translation :=
  mkTranslation (tr_decoder s) (tr_pending s ++ [r]) (tr_started s) (tr_finish_reason s)
    (tr_usage s) (tr_finished s) (reported_finish s).

Definition set_decoder (d : SseDecoder) (s : Translation) : Translation :=
  mkTranslation d (tr_pending s) (tr_started s) (tr_finish_reason s) (tr_usage s)
    (tr_finished s) (reported_finish s).

Definition set_tr_finished (s : Translation) : Translation :=
  mkTranslation (tr_decoder s) (tr_pending s) (tr_started s) (tr_finish_reason s) (tr_usage s)
    true (reported_finish s).

Definition set_reported (s : Translation) : Translation :=
  mkTranslation (tr_decoder s) (tr_pending s) (tr_started s) (tr_finish_reason s) (tr_usage s)
    (tr_finished s) true.

Definition set_tr_started (s : Translation) : Translation :=
  mkTranslation (tr_decoder s) (tr_pending s) true (tr_finish_reason s) (tr_usage s)
    (tr_finished s) (reported_finish s).

Definition set_reason (r : FinishReason) (s : Translation) : Translation :=
  mkTranslation (tr_decoder s) (tr_pending s) (tr_started s) (Some r) (tr_usage s)
    (tr_finished s) (reported_finish s).

Definition set_usage (u : Usage) (s : Translation) : Translation :=
  mkTranslation (tr_decoder s) (tr_pending s) (tr_started s) (tr_finish_reason s) (Some u)
    (tr_finished s) (reported_finish s).

Definition take_pending (s : Translation) : Translation :=
  mkTranslation (tr_decoder s) [] (tr_started s) (tr_finish_reason s) (tr_usage s)
    (tr_finished s) (reported_finish s).

Section engine.
Context {J : Json} `{!JsonNumbers J}.

(** [.get(name).and_then(Value::as_u64)], as a [u32]. *)
Definition count_field (v : Value) (name : str) : u32 :=
  u32_or_max (default 0 (value_get v name ≫= value_as_u64)).

Definition millis_field (v : Value) (name : str) : f64 :=
  default f64_0 (value_get v name ≫= as_f64).

Definition parse_usage (usage : Value) : Usage :=
  mkUsage (count_field usage (lit "prompt_tokens")) (count_field usage (lit "completion_tokens"))
    (count_field usage (lit "total_tokens"))
    (match value_get usage (lit "prompt_tokens_details") with
     | Some details => count_field details (lit "cached_tokens")
     | None => 0
     end).

Definition parse_timings (t : Value) : Timings :=
  mkTimings (count_field t (lit "prompt_n")) (millis_field t (lit "prompt_ms"))
    (count_field t (lit "predicted_n")) (millis_field t (lit "predicted_ms"))
    (count_field t (lit "cache_n")).

(** [upstream_error], of the error itself and of a body that may hold one. *)
Definition error_of (error : Value) : BackendError :=
  let kind := default [] (value_get error (lit "type") ≫= as_string) in
  let message := default (lit "the engine rejected the request")
                   (value_get error (lit "message") ≫= as_string) in
  let prompt_tokens := default 0 (value_get error (lit "n_prompt_tokens") ≫= value_as_u64) in
  let n_ctx := default 0 (value_get error (lit "n_ctx") ≫= value_as_u64) in
  if bool_decide (kind = lit "exceed_context_size_error") && (0 <? n_ctx)
  then ContextOverflow (u32_or_max prompt_tokens) (u32_or_max n_ctx)
  else GenerationFailed message.

Definition upstream_error (payload : Value) : BackendError :=
  error_of (default payload (value_get payload (lit "error"))).

(** [finish_event]. *)
Definition finish_event (s : Translation) : Translation :=
  push (Ok (Finished (default FrLength (tr_finish_reason s)) (default Usage_default (tr_usage s))))
    (set_reported s).

Definition non_empty_text (v : option Value) : option str :=
  let! v := v in
  let! text := as_string v in
  if bool_decide (text = []) then None else Some text.

(** The events of one entry of [tool_calls]. *)
Definition call_event (call : Value) : GenerationEvent :=
  let function := value_get call (lit "function") in
  ToolCallDelta
    (count_field call (lit "index"))
    (non_empty_text (value_get call (lit "id")))
    (non_empty_text (let! f := function in value_get f (lit "name")))
    (let! f := function in let! a := value_get f (lit "arguments") in as_string a).

Definition delta_events (delta : Value) : list GenerationEvent :=
  (match non_empty_text (value_get delta (lit "content")) with
   | Some text => [ContentDelta text]
   | None => []
   end)
  ++ (match non_empty_text (value_get delta (lit "reasoning_content")) with
      | Some text => [ReasoningDelta text]
      | None =>
          match non_empty_text (value_get delta (lit "reasoning")) with
          | Some text => [ReasoningDelta text]
          | None => []
          end
      end)
  ++ (call_event <$> default [] (value_get delta (lit "tool_calls") ≫= as_items)).

(** [absorb_delta]. *)
Definition absorb_delta (s : Translation) (delta : Value) : Translation :=
  foldl (fun s e => push (Ok e) s) s (delta_events delta).

(** What [absorb] does with the first choice of a chunk. *)
Definition absorb_choice (s : Translation) (choice : Value) : Translation :=
  let s := match value_get choice (lit "delta") with
           | Some delta => absorb_delta s delta
           | None => s
           end in
  let s := match non_empty_text (value_get choice (lit "text")) with
           | Some text => push (Ok (ContentDelta text)) s
           | None => s
           end in
  match value_get choice (lit "finish_reason") ≫= as_string with
  | Some reason =>
      set_reason (if bool_decide (reason = lit "length") then FrLength
                  else if bool_decide (reason = lit "tool_calls") then FrToolCalls
                  else FrStop) s
  | None => s
  end.

(** What [absorb] does with a chunk that is no error. *)
Definition absorb_chunk (s : Translation) (chunk : Value) : Translation :=
  let s := if tr_started s then s else push (Ok (Started None)) (set_tr_started s) in
  let s := match value_get chunk (lit "usage") with
           | Some usage => set_usage (parse_usage usage) s
           | None => s
           end in
  let s := match value_get chunk (lit "timings") with
           | Some t => push (Ok (TimingsMeasured (parse_timings t))) s
           | None => s
           end in
  match (let! choices := value_get chunk (lit "choices") in
         let! items := as_items choices in head items) with
  | Some choice => absorb_choice s choice
  | None => s
  end.

Definition absorb (s : Translation) (e : SseEvent) : Translation :=
  if is_done e then
    let s := set_tr_finished s in
    if reported_finish s then s else finish_event s
  else
    match from_str (data e) with
    | None => s
    | Some chunk =>
        match value_get chunk (lit "error") with
        | Some error => push (Err (error_of error)) (set_reported (set_tr_finished s))
        | None => absorb_chunk s chunk
        end
    end.

(** One item of the body, once what was pending has been read. *)
Definition translate_item (s : Translation) (item : BodyItem) : Translation :=
  match item with
  | BodyChunk bytes =>
      match feed (tr_decoder s) bytes with
      | (Err e, d) =>
          push (Err (GenerationFailed (decode_error_text e))) (set_tr_finished (set_decoder d s))
      | (Ok _, d) => foldl absorb (set_decoder (snd (drain d)) s) (fst (drain d))
      end
  | BodyBroken connect detail => push (Err (transport_error connect detail)) (set_tr_finished s)
  | BodyEnd =>
      let s := set_tr_finished s in
      if reported_finish s then s else finish_event s
  | BodyCancelled => s
  end.

(** [translate]: what the stream yields, and whether it has ended, when the
    body does [items]. *)
Fixpoint translate (s : Translation) (items : list BodyItem)
    : list (result GenerationEvent BackendError) * bool :=
  if tr_finished s then (tr_pending s, true)
  else
    match items with
    | [] => (tr_pending s, false)
    | BodyCancelled :: _ => (tr_pending s, true)
    | item :: items =>
        let '(out, ended) := translate (translate_item (take_pending s) item) items in
        (tr_pending s ++ out, ended)
    end.

(** ** What the engine says it is running *)

Record EngineWindow := mkWindow { ew_n_ctx : u32; ew_total_slots : u32 }.

Definition as_u32_opt (n : u64) : option u32 := if n <=? U32_MAX then Some n else None.

Definition window_from_props (props : Value) : option EngineWindow :=
  let! settings := value_get props (lit "default_generation_settings") in
  let! n_ctx := value_get settings (lit "n_ctx") ≫= value_as_u64 in
  let! total_slots := value_get props (lit "total_slots") ≫= value_as_u64 in
  if (n_ctx =? 0) || (total_slots =? 0) then None
  else
    let! n_ctx := as_u32_opt n_ctx in
    let! total_slots := as_u32_opt total_slots in
    Some (mkWindow n_ctx total_slots).

(** What [count_prompt_tokens] reads of a successful answer. *)
Definition counted_tokens (payload : Value) : option u32 :=
  match value_get payload (lit "input_tokens") ≫= value_as_u64 with
  | Some n => Some (u32_or_max n)
  | None =>
      let! tokens := value_get payload (lit "tokens") ≫= as_items in
      Some (u32_or_max (Z.of_nat (length tokens)))
  end.
End engine.

(** ** Properties of the engine's stream

    However the engine's connection behaves, the events made of it end once. *)

Section engine.
Context {J : Json} `{!JsonNumbers J}.

Definition is_finish (r : result GenerationEvent BackendError) : bool :=
  match r with Ok (Finished _ _) => true | _ => false end.

Definition is_terminal (r : result GenerationEvent BackendError) : bool :=
  match r with Ok (Finished _ _) | Err _ => true | _ => false end.

Definition finishes (out : list (result GenerationEvent BackendError)) : nat :=
  length (filter is_finish out).

Lemma finishes_snoc out r :
  finishes (out ++ [r]) = (finishes out + if is_finish r then 1 else 0)%nat.
Proof.
  unfold finishes. rewrite filter_app, length_app. by destruct r as [[]|].
Qed.

(** What holds of the translation once [past] was read. *)
Record Once (past : list (result GenerationEvent BackendError)) (s : Translation) : Prop := {
  on_once : (finishes (past ++ tr_pending s) ≤ 1)%nat;
  on_reported : reported_finish s = false → finishes (past ++ tr_pending s) = 0%nat;
  on_finished : reported_finish s = true → tr_finished s = true;
  on_terminal : tr_finished s = true ↔ Exists is_terminal (past ++ tr_pending s) }.

Lemma Once_same past s s' :
  Once past s → tr_pending s' = tr_pending s → tr_finished s' = tr_finished s →
  reported_finish s' = reported_finish s → Once past s'.
Proof. intros [? ? ? ?] Ep Ef Er. split; rewrite ?Ep, ?Ef, ?Er; done. Qed.

(** An event that ends nothing. *)
Lemma Once_push past s v :
  is_terminal (Ok v) = false → Once past s → Once past (push (Ok v) s).
Proof.
  intros Hv [H1 H2 H3 H4]. assert (is_finish (Ok v) = false) as Hf by by destruct v.
  split; simpl; rewrite ?app_assoc, ?finishes_snoc, ?Hf, ?Nat.add_0_r; try done.
  rewrite Exists_app, Exists_cons, Exists_nil, Hv, <-H4. naive_solver.
Qed.

(** A failure ends the stream. *)
Lemma Once_fail past s err s' :
  Once past s → tr_pending s' = tr_pending s ++ [Err err] → tr_finished s' = true →
  (reported_finish s = true → reported_finish s' = true) → Once past s'.
Proof.
  intros [H1 H2 H3 H4] Ep Ef Er. split; rewrite ?Ep, ?Ef, ?app_assoc, ?finishes_snoc; simpl;
    rewrite ?Nat.add_0_r; try done.
  - intros Hr. apply H2. destruct (reported_finish s); [|done]. by rewrite Er in Hr.
  - split; [|done]. intros _. rewrite Exists_app. right. by constructor.
Qed.

(** [DONE], or the end of the body. *)
Lemma Once_finish past s :
  Once past s →
  Once past (if reported_finish (set_tr_finished s) then set_tr_finished s
             else finish_event (set_tr_finished s)).
Proof.
  intros [H1 H2 H3 H4]. simpl. destruct (reported_finish s) eqn:Er.
  - split; simpl; try done; [by rewrite Er|]. by rewrite <-H4, H3.
  - split; simpl; rewrite ?app_assoc, ?finishes_snoc, ?(H2 eq_refl); simpl; try done.
    split; [|done]. intros _. rewrite Exists_app. right. by constructor.
Qed.

Lemma Once_events past events s :
  Forall (λ v, is_terminal (Ok v) = false) events → Once past s →
  Once past (foldl (λ s v, push (Ok v) s) s events).
Proof.
  intros He. revert s. induction He as [|v events Hv He IH]; intros s Hs; simpl; [done|].
  by apply IH, Once_push.
Qed.

Lemma delta_events_go_on delta :
  Forall (λ v, is_terminal (Ok v) = false) (delta_events delta).
Proof.
  unfold delta_events. repeat apply Forall_app_2.
  - destruct (non_empty_text _); by repeat constructor.
  - destruct (non_empty_text _); [by repeat constructor|]. destruct (non_empty_text _); by repeat constructor.
  - apply Forall_fmap, Forall_true. by intros call.
Qed.

Lemma Once_choice past s choice : Once past s → Once past (absorb_choice s choice).
Proof.
  intros Hs. unfold absorb_choice.
  set (s1 := match value_get choice (lit "delta") with Some _ => _ | None => _ end).
  assert (H1 : Once past s1).
  { unfold s1. destruct (value_get _ _); [|done]. apply Once_events; [apply delta_events_go_on|done]. }
  clearbody s1. set (s2 := match non_empty_text _ with Some _ => _ | None => _ end).
  assert (H2 : Once past s2). { unfold s2. destruct (non_empty_text _); [by apply Once_push|done]. }
  clearbody s2. destruct (value_get choice _ ≫= as_string); [|done]. by eapply Once_same.
Qed.

Lemma Once_chunk past s chunk : Once past s → Once past (absorb_chunk s chunk).
Proof.
  intros Hs. unfold absorb_chunk.
  set (s1 := if tr_started s then s else _).
  assert (H1 : Once past s1).
  { unfold s1. destruct (tr_started s); [done|]. apply Once_push; [done|]. by eapply Once_same. }
  clearbody s1. set (s2 := match value_get chunk (lit "usage") with Some _ => _ | None => _ end).
  assert (H2 : Once past s2). { unfold s2. destruct (value_get _ _); [by eapply Once_same|done]. }
  clearbody s2. set (s3 := match value_get chunk (lit "timings") with Some _ => _ | None => _ end).
  assert (H3 : Once past s3). { unfold s3. destruct (value_get _ _); [by apply Once_push|done]. }
  clearbody s3. destruct (let! choices := _ in _); [by apply Once_choice|done].
Qed.

Lemma Once_absorb past s e : Once past s → Once past (absorb s e).
Proof.
  intros Hs. unfold absorb. destruct (is_done e); [by apply Once_finish|].
  destruct (from_str _) as [chunk|]; [|done]. destruct (value_get _ _); [|by apply Once_chunk].
  by eapply Once_fail.
Qed.

Lemma Once_foldl past events s : Once past s → Once past (foldl absorb s events).
Proof.
  revert s. induction events as [|e events IH]; intros s Hs; simpl; [done|]. by apply IH, Once_absorb.
Qed.

Lemma Once_item past s item : Once past s → Once past (translate_item s item).
Proof.
  intros Hs. destruct item as [bytes|connect detail| |]; simpl.
  - destruct (feed _ _) as [[u|err] d]; [|by eapply Once_fail].
    apply Once_foldl. by eapply Once_same.
  - by eapply Once_fail.
  - by apply Once_finish.
  - done.
Qed.

(** What was read of the translation and what is pending, so far. *)
Lemma translate_once items past s out ended :
  Once past s → translate s items = (out, ended) →
  (finishes (past ++ out) ≤ 1)%nat ∧
  (Exists is_terminal (past ++ out) → ended = true) ∧
  (ended = true → BodyCancelled ∉ items → Exists is_terminal (past ++ out)).
Proof.
  revert past s out. induction items as [|item items IH]; intros past s out Hs; cbn [translate];
    pose proof Hs as [H1 _ _ H4]; destruct (tr_finished s) eqn:Ef;
    try (intros [= <- <-]; split_and!; [done|done|intros _ _; by apply H4]).
  - intros [= <- <-]. split_and!; [done| |done]. intros Ht. by apply H4 in Ht.
  - assert (Hc : item = BodyCancelled ∨ item ≠ BodyCancelled) by (destruct item; auto).
    destruct Hc as [->|Hc].
    { intros [= <- <-]. split_and!; [done|done|set_solver]. }
    assert (E : (let '(out, ended) := translate (translate_item (take_pending s) item) items in
                 (tr_pending s ++ out, ended)) = (out, ended) →
      (finishes (past ++ out) ≤ 1)%nat ∧ (Exists is_terminal (past ++ out) → ended = true) ∧
      (ended = true → BodyCancelled ∉ item :: items → Exists is_terminal (past ++ out)));
      [|by destruct item].
    destruct (translate _ items) as [out' ended'] eqn:Ht. intros [= <- <-].
    apply (IH (past ++ tr_pending s)) in Ht as (A & B & C).
    + rewrite app_assoc. split_and!; [done|done|]. intros ? ?. apply C; [done|set_solver].
    + apply Once_item. destruct Hs. split; simpl; by rewrite ?app_nil_r.
Qed.

(** C38: however the engine's connection behaves - cut anywhere, broken off,
    oversized, talking on after [DONE] - a generation is finished at most once;
    a stream that has ended has said so, by the finish or by the failure that
    ended it, unless it was cancelled; and one that has not ended has said
    neither. *)
Theorem generation_ends_once items :
  let '(out, ended) := translate Translation_new items in
  (finishes out ≤ 1)%nat ∧ (Exists is_terminal out → ended = true) ∧
  (ended = true → BodyCancelled ∉ items → Exists is_terminal out).
Proof.
  destruct (translate _ items) as [out ended] eqn:Ht.
  eapply (translate_once items [] Translation_new); [|done].
  split; simpl; [by compute; lia|done|done|]. split; [done|]. by intros ?%Exists_nil.
Qed.
End engine.
