(* ===== verification/Streaming.v ===== *)
(** * Answering a generation

    [crates/lightweight-gateway/src/stream.rs]: the guard that holds a
    request's slot and accounts for it, and the encoder that turns events into
    the frames a client reads; with [aggregate] of [routes.rs], which collects
    the same events into one response.

    What the guard and the ticket do to the rest of the gateway - describe a
    slot, cancel the work, record what it cost, give the slot back - is
    appended to a log ([Effect]), in the order it is done.  The encoder is
    driven by what its [select!]s resolve to ([Input]); a client may stop
    reading after any frame, and then the encoder is dropped.  Log lines, and
    the counts only they read, are left out. *)

From stdpp Require Import base gmap strings numbers list.
From S2P Require Import Prelude Scheduler Names Utf8 Float64 Responses Generation.

(** ** The guard *)

Record GenerationRecord := mkRecord {
  rc_prompt_tokens : u32;
  rc_completion_tokens : u32;
  rc_cached_tokens : u32;
  rc_finish_reason : option FinishReason;
  rc_queue_wait : Duration;
  rc_time_to_first_token : option Duration;
  rc_prefill : option Duration;
  rc_decode : option Duration;
  rc_total : Duration;
  rc_band : option Band }.

Definition GenerationRecord_default : GenerationRecord :=
  mkRecord 0 0 0 None 0 None None None 0 None.

Inductive Ending := EndCancelled | EndCompleted | EndFailed.

Inductive Effect :=
| InBand (slot : u64) (band : Band)
| Describe (slot : u64) (id model : str) (prompt_tokens : u32)
| TicketTimedOut
| TicketDropped
| CancelWork
| Recorded (r : GenerationRecord) (id model : option str)
| Released (slot : u64).

Record RequestGuard := mkGuard {
  gd_permit : option u64;
  gd_reports : bool;
  gd_record : GenerationRecord;
  gd_id : option str;
  gd_model : option str;
  gd_prompt_tokens : u32;
  gd_started : Instant;
  gd_ending : Ending;
  gd_log : list Effect }.

Definition RequestGuard_new (permit : option u64) (now : Instant) : RequestGuard :=
  mkGuard permit false GenerationRecord_default None None 0 now EndCancelled [].

Definition log_effect (x : Effect) (g : RequestGuard) : RequestGuard :=
  mkGuard (gd_permit g) (gd_reports g) (gd_record g) (gd_id g) (gd_model g) (gd_prompt_tokens g)
    (gd_started g) (gd_ending g) (gd_log g ++ [x]).

Definition set_ending (e : Ending) (g : RequestGuard) : RequestGuard :=
  mkGuard (gd_permit g) (gd_reports g) (gd_record g) (gd_id g) (gd_model g) (gd_prompt_tokens g)
    (gd_started g) e (gd_log g).

Definition set_record (r : GenerationRecord) (g : RequestGuard) : RequestGuard :=
  mkGuard (gd_permit g) (gd_reports g) r (gd_id g) (gd_model g) (gd_prompt_tokens g)
    (gd_started g) (gd_ending g) (gd_log g).

Definition completed (g : RequestGuard) : RequestGuard :=
  match gd_ending g with EndCancelled => set_ending EndCompleted g | _ => g end.

Definition failed (g : RequestGuard) : RequestGuard := set_ending EndFailed g.

Definition reporting_to (g : RequestGuard) : RequestGuard :=
  mkGuard (gd_permit g) true (gd_record g) (gd_id g) (gd_model g) (gd_prompt_tokens g)
    (gd_started g) (gd_ending g) (gd_log g).

Definition publish (g : RequestGuard) : RequestGuard :=
  match gd_permit g with
  | None => g
  | Some slot =>
      let g := match rc_band (gd_record g) with
               | Some band => log_effect (InBand slot band) g
               | None => g
               end in
      match gd_id g, gd_model g with
      | Some id, Some model => log_effect (Describe slot id model (gd_prompt_tokens g)) g
      | _, _ => g
      end
  end.

Definition describing (id model : str) (g : RequestGuard) : RequestGuard :=
  publish (mkGuard (gd_permit g) (gd_reports g) (gd_record g) (Some id) (Some model)
             (gd_prompt_tokens g) (gd_started g) (gd_ending g) (gd_log g)).

Definition counting (prompt_tokens : u32) (g : RequestGuard) : RequestGuard :=
  publish (mkGuard (gd_permit g) (gd_reports g) (gd_record g) (gd_id g) (gd_model g)
             prompt_tokens (gd_started g) (gd_ending g) (gd_log g)).

Definition guard_in_band (band : Band) (g : RequestGuard) : RequestGuard :=
  let r := gd_record g in
  publish (set_record (mkRecord (rc_prompt_tokens r) (rc_completion_tokens r)
    (rc_cached_tokens r) (rc_finish_reason r) (rc_queue_wait r) (rc_time_to_first_token r)
    (rc_prefill r) (rc_decode r) (rc_total r) (Some band)) g).

Definition guard_waited (queue_wait : Duration) (g : RequestGuard) : RequestGuard :=
  let r := gd_record g in
  set_record (mkRecord (rc_prompt_tokens r) (rc_completion_tokens r)
    (rc_cached_tokens r) (rc_finish_reason r) queue_wait (rc_time_to_first_token r)
    (rc_prefill r) (rc_decode r) (rc_total r) (rc_band r)) g.

(** Assigning the permit drops the one that was there. *)
Definition admitted (slot : u64) (g : RequestGuard) : RequestGuard :=
  let g := match gd_permit g with Some old => log_effect (Released old) g | None => g end in
  publish (mkGuard (Some slot) (gd_reports g) (gd_record g) (gd_id g) (gd_model g)
             (gd_prompt_tokens g) (gd_started g) (gd_ending g) (gd_log g)).

Definition first_token (now : Instant) (g : RequestGuard) : RequestGuard :=
  let r := gd_record g in
  match rc_time_to_first_token r with
  | Some _ => g
  | None =>
      set_record (mkRecord (rc_prompt_tokens r) (rc_completion_tokens r)
        (rc_cached_tokens r) (rc_finish_reason r) (rc_queue_wait r)
        (Some (saturating_duration_since now (gd_started g)))
        (rc_prefill r) (rc_decode r) (rc_total r) (rc_band r)) g
  end.

Definition set_finish_reason (f : FinishReason) (g : RequestGuard) : RequestGuard :=
  let r := gd_record g in
  set_record (mkRecord (rc_prompt_tokens r) (rc_completion_tokens r)
    (rc_cached_tokens r) (Some f) (rc_queue_wait r) (rc_time_to_first_token r)
    (rc_prefill r) (rc_decode r) (rc_total r) (rc_band r)) g.

(** What [Timings] leaves in the record; [predicted] is the count to assign,
    which only the stream does.  [None] is the panic of [from_secs_f64]. *)
Definition timed (t : Timings) (predicted : option u32) (g : RequestGuard) : option RequestGuard :=
  let r := gd_record g in
  let! prefill := from_secs_f64 (f64_div (prompt_ms t) (f64_of 1000)) in
  let! decode := from_secs_f64 (f64_div (predicted_ms t) (f64_of 1000)) in
  Some (set_record (mkRecord (rc_prompt_tokens r) (default (rc_completion_tokens r) predicted)
    (cached_n t) (rc_finish_reason r) (rc_queue_wait r) (rc_time_to_first_token r)
    (Some prefill) (Some decode) (rc_total r) (rc_band r)) g).

(** What [Finished] leaves in the record. *)
Definition measured (u : Usage) (g : RequestGuard) : RequestGuard :=
  let r := gd_record g in
  set_record (mkRecord (us_prompt_tokens u) (us_completion_tokens u)
    (if 0 <? us_cached_tokens u then us_cached_tokens u else rc_cached_tokens r)
    (rc_finish_reason r) (rc_queue_wait r) (rc_time_to_first_token r)
    (rc_prefill r) (rc_decode r) (rc_total r) (rc_band r)) g.

Definition cancel (g : RequestGuard) : RequestGuard := log_effect CancelWork g.

(** [Drop]: everything that is done, in order, once the guard goes. *)
Definition drop_guard (now : Instant) (g : RequestGuard) : list Effect :=
  let r := gd_record g in
  let record := mkRecord (rc_prompt_tokens r) (rc_completion_tokens r)
    (rc_cached_tokens r) (rc_finish_reason r) (rc_queue_wait r) (rc_time_to_first_token r)
    (rc_prefill r) (rc_decode r) (saturating_duration_since now (gd_started g)) (rc_band r) in
  gd_log g ++ [CancelWork]
  ++ (if gd_reports g then [Recorded record (gd_id g) (gd_model g)] else [])
  ++ (match gd_permit g with Some slot => [Released slot] | None => [] end).

(** ** The encoder *)

Inductive Source := Running | Queued | InTransit.

Record Encoder := mkEncoder {
  en_source : Source;
  en_builder : ChunkBuilder;
  en_guard : RequestGuard;
  en_pending : list Frame;
  include_usage : bool;
  en_started : bool;
  en_finished : bool;
  en_usage : option UsageBody;
  en_timings : option Timings }.

Definition set_source (s : Source) (e : Encoder) : Encoder :=
  mkEncoder s (en_builder e) (en_guard e) (en_pending e) (include_usage e) (en_started e)
    (en_finished e) (en_usage e) (en_timings e).
Definition with_builder (b : ChunkBuilder) (e : Encoder) : Encoder :=
  mkEncoder (en_source e) b (en_guard e) (en_pending e) (include_usage e) (en_started e)
    (en_finished e) (en_usage e) (en_timings e).
Definition on_guard (f : RequestGuard → RequestGuard) (e : Encoder) : Encoder :=
  mkEncoder (en_source e) (en_builder e) (f (en_guard e)) (en_pending e) (include_usage e)
    (en_started e) (en_finished e) (en_usage e) (en_timings e).
Definition emit (fs : list Frame) (e : Encoder) : Encoder :=
  mkEncoder (en_source e) (en_builder e) (en_guard e) (en_pending e ++ fs) (include_usage e)
    (en_started e) (en_finished e) (en_usage e) (en_timings e).
Definition set_pending (fs : list Frame) (e : Encoder) : Encoder :=
  mkEncoder (en_source e) (en_builder e) (en_guard e) fs (include_usage e)
    (en_started e) (en_finished e) (en_usage e) (en_timings e).
Definition set_started (e : Encoder) : Encoder :=
  mkEncoder (en_source e) (en_builder e) (en_guard e) (en_pending e) (include_usage e)
    true (en_finished e) (en_usage e) (en_timings e).
Definition set_finished (e : Encoder) : Encoder :=
  mkEncoder (en_source e) (en_builder e) (en_guard e) (en_pending e) (include_usage e)
    (en_started e) true (en_usage e) (en_timings e).
Definition set_usage_body (u : UsageBody) (e : Encoder) : Encoder :=
  mkEncoder (en_source e) (en_builder e) (en_guard e) (en_pending e) (include_usage e)
    (en_started e) (en_finished e) (Some u) (en_timings e).
Definition set_timings (t : Timings) (e : Encoder) : Encoder :=
  mkEncoder (en_source e) (en_builder e) (en_guard e) (en_pending e) (include_usage e)
    (en_started e) (en_finished e) (en_usage e) (Some t).

(** [encode] and [encode_queued]: the role chunk goes first. *)
Definition encode_source (s : Source) (b : ChunkBuilder) (g : RequestGuard) (usage : bool)
    : Encoder :=
  mkEncoder s b g [FrChunk (chunk_role b)] usage false false None None.

(** [close]. *)
Definition close (r : FinishReason) (e : Encoder) : Encoder :=
  if en_finished e then e
  else
    let e := on_guard (set_finish_reason r) e in
    let e := emit [FrChunk (chunk_finish (en_builder e) r)] e in
    let e := if include_usage e
             then emit [FrChunk (chunk_usage (en_builder e)
                          (default UsageBody_default (en_usage e)) (en_timings e))] e
             else e in
    let e := set_finished (emit [FrDone] e) in
    on_guard cancel (on_guard completed e).

(** [fail_with]. *)
Definition fail_with (envelope : ErrorEnvelope) (e : Encoder) : Encoder :=
  let e := on_guard (set_finish_reason FrError) (on_guard failed e) in
  set_finished (emit [FrChunk (chunk_error (en_builder e) envelope); FrDone] e).

Definition queue_timeout_envelope : ErrorEnvelope :=
  invalid_request (lit "the gateway is busy with another request; try again shortly")
    (lit "server_busy").

(** [absorb]; [None] is a panic. *)
Definition absorb_event (now : Instant) (v : GenerationEvent) (e : Encoder) : option Encoder :=
  match v with
  | Started _ => Some e
  | ContentDelta text =>
      let e := on_guard (first_token now) e in
      Some (emit [FrChunk (chunk_content (en_builder e) text)] e)
  | ReasoningDelta text =>
      let e := on_guard (first_token now) e in
      Some (emit [FrChunk (chunk_reasoning (en_builder e) text)] e)
  | ToolCallDelta index call name arguments =>
      let e := on_guard (first_token now) e in
      let '(c, b) := chunk_tool_call (en_builder e) index call name arguments in
      Some (emit [FrChunk c] (with_builder b e))
  | TimingsMeasured t =>
      let! g := timed t (Some (predicted_n t)) (en_guard e) in
      Some (set_timings t (on_guard (fun _ => g) e))
  | Finished reason usage =>
      Some (close reason (set_usage_body (usage_body usage) (on_guard (measured usage) e)))
  end.

(** What a [select!] resolves to: an event, a failure or the end of a running
    generation, and the keep-alive timer; for a queued one, the grant with how
    starting went, the end of the scheduler, the deadline, and the timer of the
    notices with what the ticket then says. *)
Inductive Input :=
| InEvent (now : Instant) (v : GenerationEvent)
| InError (err : BackendError)
| InEnd
| InTick
| InGranted (slot : u64) (waited : Duration) (start : result unit BackendError)
| InGone
| InDeadline
| InNotice (ahead : option u32) (waited : Duration).

Section encoder.
Context `{StrDebug}.

(** [fail]. *)
Definition fail_backend (err : BackendError) (e : Encoder) : Encoder := fail_with (from_error err) e.

(** One turn of the loop that waited.  An input the source is not waiting for
    cannot come: it changes nothing. *)
Definition step (e : Encoder) (i : Input) : option Encoder :=
  match en_source e, i with
  | Running, InEvent now v => absorb_event now v (set_started e)
  | Running, InError err => Some (fail_backend err e)
  | Running, InEnd => Some (close FrLength e)
  | Running, InTick => Some (if en_started e then e else emit [keep_alive] e)
  | Queued, InGranted slot waited start =>
      let e := on_guard (log_effect TicketDropped) (set_source InTransit e) in
      let e := on_guard (guard_waited waited) (on_guard (admitted slot) e) in
      Some (match start with
            | Ok _ => set_source Running e
            | Err err => fail_backend err e
            end)
  | Queued, InGone =>
      Some (on_guard (log_effect TicketDropped) (fail_backend Cancelled (set_source InTransit e)))
  | Queued, InDeadline =>
      let e := on_guard (log_effect TicketTimedOut) (set_source InTransit e) in
      let e := on_guard (log_effect TicketDropped) e in
      Some (fail_with queue_timeout_envelope e)
  | Queued, InNotice ahead waited =>
      Some (emit [queued_notice (default 0 ahead) waited] e)
  | _, _ => Some e
  end.

Inductive Pulled := Yielded (f : Frame) | Over | Waiting | Panicked.

(** What one read of the body comes to: the loop of [unfold], run until it
    returns or waits for an input that is not there yet. *)
Fixpoint pull (inputs : list Input) (e : Encoder) : Pulled * list Input * Encoder :=
  match en_pending e with
  | f :: fs => (Yielded f, inputs, set_pending fs e)
  | [] =>
      if en_finished e then (Over, inputs, e)
      else
        match en_source e with
        | InTransit =>
            let e := close FrError e in
            match en_pending e with
            | f :: fs => (Yielded f, inputs, set_pending fs e)
            | [] => (Over, inputs, e)
            end
        | _ =>
            match inputs with
            | [] => (Waiting, [], e)
            | i :: inputs =>
                match step e i with
                | Some e => pull inputs e
                | None => (Panicked, inputs, e)
                end
            end
        end
  end.

(** A client that reads [n] times: the frames, and how the last read ended. *)
Fixpoint read_frames (n : nat) (inputs : list Input) (e : Encoder)
    : list Frame * option Pulled * Encoder :=
  match n with
  | O => ([], None, e)
  | S n =>
      match pull inputs e with
      | (Yielded f, inputs, e) =>
          let '(fs, last, e) := read_frames n inputs e in (f :: fs, last, e)
      | (p, _, e) => ([], Some p, e)
      end
  end.

(** The body is dropped: the ticket of a request that still waits, then the
    guard. *)
Definition drop_encoder (now : Instant) (e : Encoder) : list Effect :=
  match en_source e with
  | Queued => drop_guard now (log_effect TicketDropped (en_guard e))
  | _ => drop_guard now (en_guard e)
  end.

(** ** Collecting a whole generation *)

Record PartialToolCall := mkPartial { pc_id : str; pc_name : str; pc_arguments : str }.

Definition PartialToolCall_default : PartialToolCall := mkPartial [] [] [].

(** [entry(index).or_default()] and the update of what it points at, in a map
    ordered by index. *)
Fixpoint update_call (index : u32) (f : PartialToolCall → PartialToolCall)
    (calls : list (u32 * PartialToolCall)) : list (u32 * PartialToolCall) :=
  match calls with
  | [] => [(index, f PartialToolCall_default)]
  | (k, c) :: rest =>
      if k =? index then (k, f c) :: rest
      else if index <? k then (index, f PartialToolCall_default) :: calls
      else (k, c) :: update_call index f rest
  end.

Record Message := mkMessage {
  msg_content : str;
  msg_reasoning : str;
  msg_calls : list (u32 * PartialToolCall) }.

Definition Message_default : Message := mkMessage [] [] [].

(** What [aggregate] holds while it collects. *)
Record Collected := mkCollected {
  co_guard : RequestGuard;
  co_message : Message;
  co_usage : UsageBody;
  co_finish_reason : FinishReason;
  co_timings : option Timings }.

(** [Assigned, not appended]: an id and a name replace what was there. *)
Definition assemble (call name arguments : option str) (c : PartialToolCall) : PartialToolCall :=
  mkPartial (default (pc_id c) call) (default (pc_name c) name)
    (pc_arguments c ++ default [] arguments).

Definition collect_message (m : Message) (v : GenerationEvent) : Message :=
  match v with
  | ContentDelta text => mkMessage (msg_content m ++ text) (msg_reasoning m) (msg_calls m)
  | ReasoningDelta text => mkMessage (msg_content m) (msg_reasoning m ++ text) (msg_calls m)
  | ToolCallDelta index call name arguments =>
      mkMessage (msg_content m) (msg_reasoning m)
        (update_call index (assemble call name arguments) (msg_calls m))
  | _ => m
  end.

Definition collect (now : Instant) (c : Collected) (v : GenerationEvent) : option Collected :=
  let m := collect_message (co_message c) v in
  match v with
  | ContentDelta _ | ReasoningDelta _ | ToolCallDelta _ _ _ _ =>
      Some (mkCollected (first_token now (co_guard c)) m (co_usage c) (co_finish_reason c)
              (co_timings c))
  | TimingsMeasured t =>
      let! g := timed t None (co_guard c) in
      Some (mkCollected g m (co_usage c) (co_finish_reason c) (Some t))
  | Finished reason usage =>
      Some (mkCollected (measured usage (set_finish_reason reason (co_guard c))) m
              (usage_body usage) reason (co_timings c))
  | Started _ => Some c
  end.

(** The answer: the collected message, or the failure before any byte. *)
Inductive Aggregated :=
| AgResponse (m : Message) (usage : UsageBody) (finish_reason : FinishReason)
    (timings : option Timings)
| AgError (status : u16) (envelope : ErrorEnvelope).

(** [aggregate], over the events with the time each came at; [None] is a
    panic.  The guard is what is dropped. *)
Fixpoint aggregate_loop (c : Collected)
    (events : list (Instant * result GenerationEvent BackendError))
    : option (Aggregated * RequestGuard) :=
  match events with
  | [] => Some (AgResponse (co_message c) (co_usage c) (co_finish_reason c) (co_timings c),
                completed (co_guard c))
  | (now, Ok v) :: events => let! c := collect now c v in aggregate_loop c events
  | (_, Err err) :: _ =>
      Some (AgError (http_status (error_kind err)) (from_error err),
            set_finish_reason FrError (failed (co_guard c)))
  end.

Definition aggregate (g : RequestGuard)
    (events : list (Instant * result GenerationEvent BackendError))
    : option (Aggregated * RequestGuard) :=
  aggregate_loop (mkCollected g Message_default UsageBody_default FrLength None) events.
End encoder.
