(* ===== verification/StreamingTheorems.v ===== *)
(** * Properties of a streamed answer

    What every client of a stream reads, whatever the engine does and whenever
    the client stops; when the slot of a request goes back; and that a client
    which collects the stream has the message the gateway would have collected
    for it. *)

From stdpp Require Import base gmap strings numbers list.
From S2P Require Import Prelude Scheduler Names Utf8 Float64 Responses Generation Streaming.

(** ** Reading a stream *)

Section streaming.
Context `{StrDebug}.

(** How a read that went well, or not, leaves the stream. *)
Definition left_as (p : Pulled) (out all : list Frame) (e : Encoder) (rest : list Input) : Prop :=
  match p with
  | Yielded f => all = out ++ f :: en_pending e
  | Over => all = out ∧ en_finished e = true ∧ en_pending e = []
  | Waiting => all = out ∧ en_finished e = false ∧ en_pending e = [] ∧ rest = []
  | Panicked => all = out ∧ en_finished e = false ∧ en_pending e = []
  end.

(** How a client that read its fill leaves it. *)
Definition left_off (last : option Pulled) (e : Encoder) (rest : list Input) : Prop :=
  match last with
  | None => True
  | Some (Yielded _) => False
  | Some Over => en_finished e = true ∧ en_pending e = []
  | Some Waiting => en_finished e = false ∧ en_pending e = [] ∧ rest = []
  | Some Panicked => en_finished e = false ∧ en_pending e = []
  end.

Section invariant.
(** A property of the frames written so far and the encoder, whatever of them
    is still pending. *)
Context (P : list Frame → Encoder → list Input → Prop).
Hypothesis P_pending : ∀ all e rest fs, P all e rest → P all (set_pending fs e) rest.
Hypothesis P_step : ∀ all e i rest e',
  P all e (i :: rest) → en_pending e = [] → en_finished e = false → en_source e ≠ InTransit →
  step e i = Some e' → P (all ++ en_pending e') e' rest.
Hypothesis P_transit : ∀ all e rest,
  P all e rest → en_finished e = false → en_source e ≠ InTransit.

Lemma pull_invariant inputs e out p rest e' :
  P (out ++ en_pending e) e inputs → pull inputs e = (p, rest, e') →
  ∃ all rest', P all e' rest' ∧ (p ≠ Panicked → rest' = rest) ∧ left_as p out all e' rest.
Proof.
  revert e. induction inputs as [|i inputs IH]; intros e HP; cbn [pull];
    (destruct (en_pending e) as [|f fs] eqn:Ep;
      [rewrite app_nil_r in HP
      |intros [= <- <- <-]; eexists _, _; split; [by apply P_pending|done]]);
    (destruct (en_finished e) eqn:Ef; [intros [= <- <- <-]; by eexists _, _|]);
    pose proof (P_transit _ _ _ HP Ef) as Hs;
    (destruct (en_source e) eqn:Es; [..|done]);
    try (intros [= <- <- <-]; by eexists _, _).
  all: destruct (step e i) as [e0|] eqn:E; [|intros [= <- <- <-]; by eexists _, _];
    intros Hp; eapply IH; [|exact Hp]; eapply P_step; try done; by rewrite Es.
Qed.

(** The same of a client that reads [n] times. *)
Lemma read_invariant n inputs e out fs last e' :
  P (out ++ en_pending e) e inputs → read_frames n inputs e = (fs, last, e') →
  ∃ rest, P (out ++ fs ++ en_pending e') e' rest ∧ left_off last e' rest.
Proof.
  revert inputs e out fs. induction n as [|n IH]; intros inputs e out fs HP; cbn [read_frames].
  { intros [= <- <- <-]. by exists inputs. }
  destruct (pull inputs e) as [[p rest] e1] eqn:Hp.
  destruct (pull_invariant _ _ _ _ _ _ HP Hp) as (all & rest' & HP' & Hr & Hl).
  destruct p as [f| | |]; simpl in Hl.
  - destruct (read_frames n rest e1) as [[gs l] e2] eqn:Hrd. intros [= <- <- <-].
    rewrite (Hr ltac:(done)) in HP'. subst all.
    rewrite (cons_middle f out (en_pending e1)), app_assoc in HP'.
    destruct (IH _ _ _ _ HP' Hrd) as (r & HP2 & Hm). exists r. split; [|done].
    by rewrite <-app_assoc in HP2.
  - intros [= <- <- <-]. destruct Hl as (-> & Hf & Hp'). exists rest'. by rewrite Hp', !app_nil_r.
  - intros [= <- <- <-]. destruct Hl as (-> & Hf & Hp' & ->). exists rest'.
    rewrite Hp', !app_nil_r. split; [done|]. by rewrite Hr.
  - intros [= <- <- <-]. destruct Hl as (-> & Hf & Hp'). exists rest'. by rewrite Hp', !app_nil_r.
Qed.
End invariant.

(** ** The shape of a stream *)

(** The fields every chunk of a completion repeats. *)
Definition identity (b : ChunkBuilder) : str * str * u64 := (cb_id b, cb_model b, cb_created b).
Definition chunk_identity (c : ChatCompletionChunk) : str * str * u64 :=
  (ck_id c, ck_model c, ck_created c).

Definition is_note (f : Frame) : Prop := ∃ text, f = FrComment text.

(** A chunk of the completion [i] that ends nothing. *)
Definition is_delta (i : str * str * u64) (f : Frame) : Prop :=
  ∃ c d, f = FrChunk c ∧ chunk_identity c = i ∧ ck_choices c = [mkChoice 0 d None] ∧
    ck_usage c = None ∧ ck_error c = None.

(** The frames that end one: the reason, the usage if it was asked for and
    [DONE]; or the failure and [DONE]. *)
Inductive ending (i : str * str * u64) (usage : bool) : list Frame → Prop :=
| ending_closed b r u t :
    identity b = i →
    ending i usage ([FrChunk (chunk_finish b r)]
                    ++ (if usage then [FrChunk (chunk_usage b u t)] else []) ++ [FrDone])
| ending_failed b err : identity b = i → ending i usage [FrChunk (chunk_error b err); FrDone].

Definition frame_calls (f : Frame) : list CallDelta :=
  match f with
  | FrChunk c => concat ((λ ch, default [] (dl_tool_calls (cc_delta ch))) <$> ck_choices c)
  | _ => []
  end.

(** The indexes of the calls whose id these frames announce. *)
Definition announced_in (fs : list Frame) : list u32 :=
  omap (λ d, (λ _, cd_index d) <$> cd_id d) (concat (frame_calls <$> fs)).

Lemma announced_in_app fs gs : announced_in (fs ++ gs) = announced_in fs ++ announced_in gs.
Proof. unfold announced_in. by rewrite fmap_app, concat_app, omap_app. Qed.

Definition shape (b : ChunkBuilder) (usage : bool) (all : list Frame) (e : Encoder) : Prop :=
  ∃ notes deltas tail,
    all = FrChunk (chunk_role b) :: notes ++ deltas ++ tail ∧
    Forall is_note notes ∧ Forall (is_delta (identity b)) deltas ∧
    (en_started e = false → deltas = []) ∧
    if en_finished e then ending (identity b) usage tail else tail = [].

Record Shaped (b : ChunkBuilder) (usage : bool) (all : list Frame) (e : Encoder) : Prop := {
  sh_shape : shape b usage all e;
  sh_usage : include_usage e = usage;
  sh_builder : identity (en_builder e) = identity b;
  sh_queued : en_source e = Queued → en_started e = false;
  sh_transit : en_source e = InTransit → en_finished e = true;
  sh_ids : announced_in all = announced_tool_calls (en_builder e);
  sh_once : NoDup (announced_tool_calls (en_builder e)) }.

(** One more frame, or none, that ends nothing. *)
Lemma shape_delta b usage all e f e' :
  shape b usage all e → en_finished e = false → en_finished e' = false → en_started e' = true →
  is_delta (identity b) f → shape b usage (all ++ [f]) e'.
Proof.
  intros (notes & deltas & tail & -> & Hn & Hd & _ & Ht) Hf Hf' Hs' Hdelta. rewrite Hf in Ht. subst tail.
  exists notes, (deltas ++ [f]), []. rewrite Hf', Hs', !app_nil_r. simpl. rewrite <-app_assoc.
  split_and!; [done|done| |done|done]. rewrite Forall_app. by repeat constructor.
Qed.

Lemma shape_note b usage all e f e' :
  shape b usage all e → en_finished e = false → en_finished e' = false →
  en_started e = false → en_started e' = false → is_note f → shape b usage (all ++ [f]) e'.
Proof.
  intros (notes & deltas & tail & -> & Hn & Hd & Hst & Ht) Hf Hf' Hs Hs' Hnote. rewrite Hf in Ht. subst tail.
  rewrite (Hst Hs). exists (notes ++ [f]), [], []. rewrite Hf', !app_nil_r. simpl.
  split_and!; [done| |done|done|done]. rewrite Forall_app. by repeat constructor.
Qed.

Lemma shape_end b usage all e tail e' :
  shape b usage all e → en_finished e = false → en_finished e' = true →
  (en_started e' = false → en_started e = false) → ending (identity b) usage tail →
  shape b usage (all ++ tail) e'.
Proof.
  intros (notes & deltas & tail' & -> & Hn & Hd & Hst & Ht) Hf Hf' Hs Htail. rewrite Hf in Ht. subst tail'.
  exists notes, deltas, tail. rewrite Hf', app_nil_r. simpl. rewrite <-app_assoc.
  split_and!; [done|done|done|by auto|done].
Qed.

Lemma shape_same b usage all e e' :
  shape b usage all e → en_finished e' = en_finished e →
  (en_started e' = false → en_started e = false) → shape b usage all e'.
Proof.
  intros (notes & deltas & tail & -> & Hn & Hd & Hst & Ht) Hf Hs.
  exists notes, deltas, tail. rewrite Hf. split_and!; auto.
Qed.

Lemma announced_ending i usage tail : ending i usage tail → announced_in tail = [].
Proof. by destruct 1; [destruct usage|]. Qed.

(** The stream ends here. *)
Lemma Shaped_end b usage all e tail e' :
  Shaped b usage all e → en_finished e = false → en_finished e' = true →
  en_builder e' = en_builder e → include_usage e' = include_usage e →
  (en_started e' = false → en_started e = false) →
  (en_source e' = Queued → en_started e' = false) →
  ending (identity b) usage tail → Shaped b usage (all ++ tail) e'.
Proof.
  intros [Hsh Hu Hb Hq Ht Hi Ho] Hf Hf' Eb Eu Hs Hs' Htail. split.
  - by eapply shape_end.
  - congruence.
  - congruence.
  - done.
  - done.
  - rewrite announced_in_app, (announced_ending _ _ _ Htail), app_nil_r. congruence.
  - congruence.
Qed.

Lemma close_ending b usage r e :
  en_finished e = false → en_pending e = [] → include_usage e = usage →
  identity (en_builder e) = identity b → ending (identity b) usage (en_pending (close r e)).
Proof.
  intros Hf Hp Hu Hb. unfold close. rewrite Hf. destruct usage;
    cbn [include_usage on_guard emit]; rewrite Hu; cbn; rewrite Hp; simpl.
  - by apply (ending_closed _ true (en_builder e) r _ _).
  - by apply (ending_closed _ false (en_builder e) r UsageBody_default None).
Qed.

Lemma close_fields r e :
  en_finished (close r e) = true ∧ en_builder (close r e) = en_builder e ∧
  include_usage (close r e) = include_usage e ∧ en_started (close r e) = en_started e ∧
  en_source (close r e) = en_source e.
Proof.
  unfold close. destruct e as [? ? ? ? u ? f ? ?]. cbn. destruct f; [done|]. by destruct u.
Qed.

Lemma Shaped_close b usage all e r :
  Shaped b usage all e → en_finished e = false → en_pending e = [] →
  Shaped b usage (all ++ en_pending (close r e)) (close r e).
Proof.
  intros Hs Hf Hp. destruct (close_fields r e) as (E1 & E2 & E3 & E4 & E5).
  destruct Hs as [? Hu Hb Hq ? ? ?] eqn:Es. eapply Shaped_end; try done.
  - by rewrite E4.
  - by rewrite E4, E5.
  - by apply close_ending.
Qed.

Lemma Shaped_fail b usage all e err :
  Shaped b usage all e → en_finished e = false → en_pending e = [] →
  Shaped b usage (all ++ en_pending (fail_with err e)) (fail_with err e).
Proof.
  intros Hs Hf Hp. eapply Shaped_end; try done; [by destruct Hs|].
  simpl. rewrite Hp. simpl. apply (ending_failed _ _ (en_builder e)). by destruct Hs.
Qed.

(** An encoder that differs in what is not written. *)
Lemma Shaped_same b usage all e e' :
  Shaped b usage all e → en_finished e' = en_finished e → en_started e' = en_started e →
  en_builder e' = en_builder e → include_usage e' = include_usage e →
  (en_source e' = Queued → en_source e = Queued) →
  (en_source e' = InTransit → en_finished e' = true) → Shaped b usage all e'.
Proof.
  intros [Hsh Hu Hb Hq Ht Hi Ho] Ef Es Eb Eu Hq' Ht'. split; try congruence.
  - eapply shape_same; [done|done|congruence].
  - intros ?. rewrite Es. auto.
  - done.
Qed.

(** One more chunk. *)
Lemma Shaped_delta b usage all e c e' :
  Shaped b usage all e → en_finished e = false → en_finished e' = false → en_started e' = true →
  en_source e' = Running → include_usage e' = include_usage e →
  is_delta (identity b) (FrChunk c) → identity (en_builder e') = identity b →
  announced_tool_calls (en_builder e') = announced_tool_calls (en_builder e) ++ announced_in [FrChunk c] →
  NoDup (announced_tool_calls (en_builder e')) → Shaped b usage (all ++ [FrChunk c]) e'.
Proof.
  intros [Hsh Hu Hb Hq Ht Hi Ho] Hf Hf' Hs Er Eu Hd Eb Ea En. split; try congruence.
  - by eapply shape_delta.
  - by rewrite announced_in_app, Hi, Ea.
Qed.

Lemma delta_chunk_is i b d : identity b = i → is_delta i (FrChunk (delta_chunk b d)).
Proof. intros <-. by exists (delta_chunk b d), d. Qed.

Lemma tool_call_ids b index call name arguments :
  NoDup (announced_tool_calls b) →
  let '(c, b') := chunk_tool_call b index call name arguments in
  identity b' = identity b ∧ is_delta (identity b) (FrChunk c) ∧
  announced_tool_calls b' = announced_tool_calls b ++ announced_in [FrChunk c] ∧
  NoDup (announced_tool_calls b').
Proof.
  intros Hn. unfold chunk_tool_call. case_bool_decide as Hin; simpl.
  - split_and!; [done|by apply delta_chunk_is|by rewrite app_nil_r|done].
  - destruct call as [call|]; simpl.
    + split_and!; [done|by apply delta_chunk_is|done|]. apply NoDup_app. split_and!; [done| |by apply NoDup_singleton].
      intros x Hx ->%list_elem_of_singleton. done.
    + split_and!; [done|by apply delta_chunk_is|by rewrite app_nil_r|done].
Qed.

Lemma Shaped_step b usage all e i e' :
  Shaped b usage all e → en_pending e = [] → en_finished e = false → en_source e ≠ InTransit →
  step e i = Some e' → Shaped b usage (all ++ en_pending e') e'.
Proof.
  intros Hs Hp Hf Hsrc. pose proof Hs as [Hsh Hu Hb Hq Ht Hi Ho].
  assert (Hnil : Shaped b usage (all ++ en_pending e) e) by by rewrite Hp, app_nil_r.
  unfold step. destruct (en_source e) eqn:Er; [..|done].
  - destruct i as [now v|err| | | | | |]; try (intros [= <-]; exact Hnil).
    + destruct v as [pt|text|text|index call name args|t|reason u]; cbn [absorb_event].
      * intros [= <-]. simpl. rewrite Hp, app_nil_r. split; try done; [|simpl; congruence..].
        eapply shape_same; [done|done|done].
      * intros [= <-]. simpl. rewrite Hp. eapply Shaped_delta; try done; [by apply delta_chunk_is|].
        by rewrite app_nil_r.
      * intros [= <-]. simpl. rewrite Hp. eapply Shaped_delta; try done; [by apply delta_chunk_is|].
        by rewrite app_nil_r.
      * pose proof (tool_call_ids (en_builder e) index call name args Ho) as Hc. simpl.
        destruct (chunk_tool_call _ _ _ _ _) as [c b'] eqn:Ec. destruct Hc as (H1 & H2 & H3 & H4).
        intros [= <-]. simpl. rewrite Hp. rewrite Hb in *. by eapply Shaped_delta.
      * destruct (timed _ _ _) as [g|]; [|done]. intros [= <-]. simpl. rewrite Hp, app_nil_r.
        split; try done; [|simpl; congruence..]. eapply shape_same; [done|done|done].
      * intros [= <-]. apply Shaped_close; [|done|done].
        split; try done; [|simpl; congruence..]. eapply shape_same; [done|done|done].
    + intros [= <-]. by apply Shaped_fail.
    + intros [= <-]. by apply Shaped_close.
    + intros [= <-]. destruct (en_started e) eqn:Es; [exact Hnil|]. simpl. rewrite Hp.
      split; try done; simpl; try congruence.
      * eapply shape_note; try done. by eexists.
      * by rewrite announced_in_app, app_nil_r.
  - destruct i as [now v|err| | |slot waited start| | |ahead waited]; try (intros [= <-]; exact Hnil).
    + intros [= <-]. assert (Ha : ∀ f g, Shaped b usage all (set_source Running (on_guard f (on_guard g e)))).
      { intros f g. by eapply Shaped_same. }
      destruct start as [[]|err]; simpl; [by rewrite Hp, app_nil_r; eapply Shaped_same|].
      eapply (Shaped_end _ _ _ e); try done. simpl. rewrite Hp. by apply (ending_failed _ _ (en_builder e)).
    + intros [= <-]. eapply (Shaped_end _ _ _ e); try done. simpl. rewrite Hp.
      by apply (ending_failed _ _ (en_builder e)).
    + intros [= <-]. eapply (Shaped_end _ _ _ e); try done. simpl. rewrite Hp.
      by apply (ending_failed _ _ (en_builder e)).
    + intros [= <-]. simpl. rewrite Hp. simpl. split; try done; simpl.
      * eapply shape_note; [exact Hsh|done|done|by apply Hq|by apply Hq|by eexists].
      * by intros _; apply Hq.
      * by rewrite Er.
      * by rewrite announced_in_app, app_nil_r.
Qed.

Lemma Shaped_start s b g usage :
  s ≠ InTransit → announced_tool_calls b = [] →
  Shaped b usage (en_pending (encode_source s b g usage)) (encode_source s b g usage).
Proof.
  intros Hs Ha. split; simpl; try done.
  - by exists [], [], [].
  - rewrite Ha. constructor.
Qed.

(** C8: whatever the engine does and whenever the client stops reading, what it
    has read is the beginning of a well-formed stream.  The role chunk comes
    first; then comments, only while nothing has been generated; then chunks
    that end nothing, all under the completion's one id, model and time, in
    which no tool call's id is announced twice; then, if the stream ended, its
    ending, once: a finish reason, the usage exactly when it was asked for, and
    [DONE], or an error and [DONE].  A stream read to its end has all of it,
    and one that waits, or was broken off by a panic, has no part of an
    ending. *)
Theorem stream_is_well_formed s b g usage n inputs out last e :
  s ≠ InTransit → announced_tool_calls b = [] →
  read_frames n inputs (encode_source s b g usage) = (out, last, e) →
  ∃ notes deltas tail unread,
    out ++ unread = FrChunk (chunk_role b) :: notes ++ deltas ++ tail ∧
    Forall is_note notes ∧ Forall (is_delta (identity b)) deltas ∧
    (tail = [] ∨ ending (identity b) usage tail) ∧
    NoDup (announced_in (out ++ unread)) ∧
    match last with
    | Some Over => unread = [] ∧ ending (identity b) usage tail
    | Some Waiting | Some Panicked => unread = [] ∧ tail = []
    | _ => True
    end.
Proof.
  intros Hs Ha Hr.
  destruct (read_invariant (λ all e _, Shaped b usage all e)) with n inputs
    (encode_source s b g usage) (@nil Frame) out last e as (rest & HP & Hl); [..|exact Hr|].
  - intros all e0 _ fs HP. eapply Shaped_same; try done. by destruct HP.
  - intros all e0 i _ e1 HP Hp Hf Hsrc. by eapply Shaped_step.
  - intros all e0 _ HP Hf Hsrc. by rewrite (sh_transit _ _ _ _ HP Hsrc) in Hf.
  - by apply Shaped_start.
  - simpl in HP. destruct HP as [(notes & deltas & tail & E & Hn & Hd & _ & Ht) _ _ _ _ Hi Ho].
    exists notes, deltas, tail, (en_pending e). rewrite <-Hi in Ho.
    assert (Htail : tail = [] ∨ ending (identity b) usage tail) by (destruct (en_finished e); auto).
    split_and!; try done.
    destruct last as [[f| | |]|]; simpl in Hl; destruct_and?; try done.
    + by destruct (en_finished e).
    + by destruct (en_finished e).
    + by destruct (en_finished e).
Qed.

(** ** The slot *)

(** An effect that neither accounts for the request nor gives its slot back. *)
Definition quiet (x : Effect) : Prop :=
  match x with Recorded _ _ _ | Released _ => False | _ => True end.

Lemma quiet_snoc l x : quiet x → Forall quiet l → Forall quiet (l ++ [x]).
Proof. intros Hx Hl. apply Forall_app. split; [done|by constructor]. Qed.

(** What the request owns, and what it reports, are as they were. *)
Record kept (g g' : RequestGuard) : Prop := {
  kept_permit : gd_permit g' = gd_permit g;
  kept_named : gd_id g' = gd_id g ∧ gd_model g' = gd_model g ∧ gd_reports g' = gd_reports g;
  kept_log : Forall quiet (gd_log g) → Forall quiet (gd_log g') }.

Lemma kept_refl g : kept g g.
Proof. by split. Qed.
Lemma kept_trans g1 g2 g3 : kept g1 g2 → kept g2 g3 → kept g1 g3.
Proof. intros [? (?&?&?) ?] [? (?&?&?) ?]. split; [congruence|split_and!; congruence|auto]. Qed.
Lemma kept_log_effect x g : quiet x → kept g (log_effect x g).
Proof. intros Hx. split; [done|done|]. simpl. intros ?. by apply quiet_snoc. Qed.
Lemma kept_record r g : kept g (set_record r g).
Proof. by split. Qed.
Lemma kept_ending r g : kept g (set_ending r g).
Proof. by split. Qed.
Lemma kept_completed g : kept g (completed g).
Proof. unfold completed. destruct (gd_ending g); [apply kept_ending|apply kept_refl..]. Qed.
Lemma kept_first now g : kept g (first_token now g).
Proof. unfold first_token. destruct (rc_time_to_first_token _); [apply kept_refl|apply kept_record]. Qed.
Lemma kept_timed t n g g' : timed t n g = Some g' → kept g g'.
Proof.
  unfold timed. intros (prefill & _ & Hg)%bind_Some. apply bind_Some in Hg as (decode & _ & [= <-]).
  apply kept_record.
Qed.

(** The request has ended exactly when its record says how. *)
Definition told (e : Encoder) : Prop :=
  en_finished e = bool_decide (is_Some (rc_finish_reason (gd_record (en_guard e)))).

Lemma kept_close r e : kept (en_guard e) (en_guard (close r e)).
Proof.
  unfold close. destruct e as [src b g p u st f us t]. cbn. destruct f; [apply kept_refl|].
  destruct u; cbn; (eapply kept_trans; [apply kept_record|]; eapply kept_trans;
    [apply kept_completed|by apply kept_log_effect]).
Qed.

Lemma told_close r e : told e → told (close r e).
Proof.
  unfold told, close. destruct e as [src b g p u st f us t]. cbn. destruct f; [done|]. intros _.
  destruct u; cbn; unfold completed; cbn; by destruct (gd_ending g).
Qed.

Lemma publish_log g : Forall quiet (gd_log g) → Forall quiet (gd_log (publish g)).
Proof.
  intros Hg. unfold publish. destruct (gd_permit g) as [slot|]; [|done].
  destruct (rc_band _), (gd_id g) eqn:Ei, (gd_model g) eqn:Em; simpl; rewrite ?Ei, ?Em; simpl;
    repeat apply quiet_snoc; done.
Qed.

Lemma publish_fields g :
  gd_permit (publish g) = gd_permit g ∧ gd_id (publish g) = gd_id g ∧
  gd_model (publish g) = gd_model g ∧ gd_reports (publish g) = gd_reports g ∧
  gd_record (publish g) = gd_record g.
Proof.
  unfold publish. destruct (gd_permit g) eqn:Ep; [|done].
  destruct (rc_band _), (gd_id _) eqn:Ei, (gd_model _) eqn:Em; simpl in *; by rewrite ?Ep, ?Ei, ?Em.
Qed.

(** The slot of a request that waited. *)
Lemma admitted_kept slot g :
  gd_permit g = None →
  gd_permit (admitted slot g) = Some slot ∧ gd_record (admitted slot g) = gd_record g ∧
  (gd_id (admitted slot g) = gd_id g ∧ gd_model (admitted slot g) = gd_model g ∧
   gd_reports (admitted slot g) = gd_reports g) ∧
  (Forall quiet (gd_log g) → Forall quiet (gd_log (admitted slot g))).
Proof.
  intros Hp. unfold admitted. rewrite Hp.
  match goal with |- context [publish ?x] => destruct (publish_fields x) as (->&->&->&->&->) end.
  split_and!; try done. intros Hq. by apply publish_log.
Qed.

(** What holds of the guard between two frames.  [granted slot] says the
    scheduler gave this request [slot] while it waited. *)
Record Held (g : RequestGuard) (granted : u64 → Prop) (all : list Frame) (e : Encoder) : Prop := {
  he_quiet : Forall quiet (gd_log (en_guard e));
  he_named : gd_id (en_guard e) = gd_id g ∧ gd_model (en_guard e) = gd_model g ∧
             gd_reports (en_guard e) = gd_reports g;
  he_told : told e;
  he_done : FrDone ∈ all ↔ en_finished e = true;
  he_transit : en_source e = InTransit → en_finished e = true;
  he_queued : en_source e = Queued → gd_permit (en_guard e) = None ∧ gd_permit g = None;
  he_permit : gd_permit (en_guard e) = gd_permit g ∨
              gd_permit g = None ∧ ∃ slot, granted slot ∧ gd_permit (en_guard e) = Some slot }.

Lemma Held_kept g granted all e fs e' :
  Held g granted all e → kept (en_guard e) (en_guard e') → told e' →
  en_finished e = false → (FrDone ∈ fs ↔ en_finished e' = true) →
  (en_source e' = InTransit → en_finished e' = true) →
  (en_source e' = Queued → en_source e = Queued) →
  Held g granted (all ++ fs) e'.
Proof.
  intros [Hq (Hi&Hm&Hr) Ht Hd Htr Hqu Hp] [Kp (Ki&Km&Kr) Kl] Ht' Hf Hd' Htr' Hqu'. split.
  - auto.
  - split_and!; congruence.
  - done.
  - rewrite elem_of_app, Hd, Hd', Hf. naive_solver.
  - done.
  - rewrite Kp. auto.
  - by rewrite Kp.
Qed.

Lemma told_same e e' :
  told e → en_finished e' = en_finished e →
  rc_finish_reason (gd_record (en_guard e')) = rc_finish_reason (gd_record (en_guard e)) → told e'.
Proof. unfold told. by intros -> -> ->. Qed.

Lemma first_token_reason now g :
  rc_finish_reason (gd_record (first_token now g)) = rc_finish_reason (gd_record g).
Proof. unfold first_token. by destruct (rc_time_to_first_token _). Qed.

Lemma timed_reason t n g g' :
  timed t n g = Some g' → rc_finish_reason (gd_record g') = rc_finish_reason (gd_record g).
Proof.
  unfold timed. intros (prefill & _ & Hg)%bind_Some. by apply bind_Some in Hg as (decode & _ & [= <-]).
Qed.

Lemma close_done r e : en_finished e = false → FrDone ∈ en_pending (close r e).
Proof.
  intros Hf. unfold close. rewrite Hf. destruct (include_usage _) eqn:Eu; cbn;
    rewrite !elem_of_app; right; by left.
Qed.

(** What is written while nothing ends. *)
Lemma no_done e (fs : list Frame) :
  en_finished e = false → FrDone ∉ fs → FrDone ∈ fs ↔ en_finished e = true.
Proof. intros -> Hn. split; [done|congruence]. Qed.

(** One event keeps what is held. *)
Lemma Held_absorb g granted all now v e e' :
  Held g granted all e → en_source e = Running → en_pending e = [] → en_finished e = false →
  absorb_event now v (set_started e) = Some e' → Held g granted (all ++ en_pending e') e'.
Proof.
  intros Hh Er Hp Hf. pose proof (he_told _ _ _ _ Hh) as Ht.
  assert (Hdelta : ∀ h fs x,
    kept (en_guard e) (h (en_guard e)) → FrDone ∉ fs →
    rc_finish_reason (gd_record (h (en_guard e))) = rc_finish_reason (gd_record (en_guard e)) →
    en_guard x = h (en_guard e) → en_pending x = fs → en_finished x = false → en_source x = Running →
    Held g granted (all ++ en_pending x) x).
  { intros h fs x Hk Hfs Hr Eg Ep Ef Es. eapply Held_kept; try done; rewrite ?Ep, ?Es; try done.
    - by rewrite Eg.
    - eapply told_same; [exact Ht|congruence|by rewrite Eg].
    - by apply no_done. }
  destruct v as [pt|text|text|index call name args|t|reason u]; cbn [absorb_event].
  - intros [= <-]. eapply (Hdelta id []); try done; set_solver.
  - intros [= <-]. eapply (Hdelta (first_token now)); try done;
      [apply kept_first|simpl; rewrite Hp; set_solver|apply first_token_reason].
  - intros [= <-]. eapply (Hdelta (first_token now)); try done;
      [apply kept_first|simpl; rewrite Hp; set_solver|apply first_token_reason].
  - destruct (chunk_tool_call _ _ _ _ _) as [c b']. intros [= <-].
    eapply (Hdelta (first_token now)); try done;
      [apply kept_first|simpl; rewrite Hp; set_solver|apply first_token_reason].
  - intros (g' & Hg & [= <-])%bind_Some. eapply (Hdelta (λ _, g') []); try done;
      [by eapply kept_timed|set_solver|by eapply timed_reason].
  - intros [= <-]. set (e0 := set_usage_body _ _).
    destruct (close_fields reason e0) as (E1 & _ & _ & _ & E5).
    eapply Held_kept; try done; rewrite ?E1, ?E5; try done.
    + eapply kept_trans; [|apply kept_close]. apply kept_record.
    + by apply told_close.
    + by split; [|intros _; apply close_done].
Qed.

(** The reason is set by a failure. *)
Lemma fail_told err e : told (fail_with err e).
Proof. done. Qed.

Lemma fail_done err e : FrDone ∈ en_pending (fail_with err e).
Proof. simpl. set_solver. Qed.

(** The encoder gives up on a request. *)
Lemma Held_fail g granted all e e0 err :
  Held g granted all e → kept (en_guard e) (en_guard e0) → en_source e0 ≠ Queued →
  en_finished e = false → Held g granted (all ++ en_pending (fail_with err e0)) (fail_with err e0).
Proof.
  intros Hh Hk Hs Hf. eapply Held_kept; try done.
  - eapply kept_trans; [exact Hk|]. apply (kept_trans _ (failed (en_guard e0))); [apply kept_ending|].
    apply kept_record.
  - split; [done|intros _; apply fail_done].
Qed.

Lemma Held_step g (granted : u64 → Prop) all e i e' :
  Held g granted all e → en_pending e = [] → en_finished e = false → en_source e ≠ InTransit →
  (∀ slot waited start, i = InGranted slot waited start → granted slot) →
  step e i = Some e' → Held g granted (all ++ en_pending e') e'.
Proof.
  intros Hh Hp Hf Hsrc Hg. pose proof (he_told _ _ _ _ Hh) as Ht.
  assert (Hnil : Held g granted (all ++ en_pending e) e) by by rewrite Hp, app_nil_r.
  unfold step. destruct (en_source e) eqn:Er; [..|done].
  - destruct i as [now v|err| | | | | |]; try (intros [= <-]; exact Hnil).
    + intros Ha. eapply Held_absorb; try done.
    + intros [= <-]. eapply Held_fail; try done. by rewrite Er.
    + intros [= <-]. destruct (close_fields FrLength e) as (E1 & _ & _ & _ & E5).
      eapply Held_kept; try done; rewrite ?E1, ?E5, ?Er; try done.
      * apply kept_close.
      * by apply told_close.
      * by split; [|intros _; apply close_done].
    + intros [= <-]. destruct (en_started e); [exact Hnil|].
      eapply Held_kept; try done; simpl; rewrite ?Er; try done. rewrite Hp. apply no_done; [done|set_solver].
  - destruct i as [now v|err| | |slot waited start| | |ahead waited]; try (intros [= <-]; exact Hnil).
    + intros [= <-]. destruct (he_queued _ _ _ _ Hh Er) as (Hpe & Hpg).
      destruct (admitted_kept slot (log_effect TicketDropped (en_guard e)) Hpe) as (A1 & A2 & (A3 & A4 & A5) & A6).
      destruct Hh as [Hq (Hi&Hm&Hr) _ Hd _ _ _].
      set (e1 := on_guard (guard_waited waited) _).
      assert (Hh1 : Held g granted all (set_source Running e1)).
      { split; simpl; try done.
        - apply A6. by apply quiet_snoc.
        - rewrite A3, A4, A5. done.
        - unfold told in *. simpl in *. by rewrite A2.
        - right. split; [done|]. exists slot. split; [by eapply Hg|exact A1]. }
      destruct start as [[]|err].
      * change (en_pending (set_source Running e1)) with (en_pending e). by rewrite Hp, app_nil_r.
      * eapply Held_fail; [exact Hh1|apply kept_refl|done|done].
    + intros [= <-]. eapply Held_kept; try done; simpl; rewrite ?Hp.
      * eapply kept_trans; [|by apply kept_log_effect]. eapply kept_trans; [|apply kept_record].
        apply kept_ending.
      * split; [done|intros _; set_solver].
    + intros [= <-]. eapply Held_fail; try done. simpl.
      eapply kept_trans; by apply kept_log_effect.
    + intros [= <-]. eapply Held_kept; try done; simpl; rewrite ?Hp, ?Er; try done.
      apply no_done; [done|set_solver].
Qed.

(** C4: the slot of a streamed request goes back once, when the response is
    dropped and not before, whatever the engine did and wherever the client
    stopped reading: until then nothing of it was recorded or released, even
    when [DONE] was long written.  Then the ticket of a request that still
    waits goes, the work is cancelled, what the request cost is recorded if it
    reports, and last the slot is released: the one it came with, or the one
    the scheduler granted while it waited.  The record names a finish reason
    exactly when the stream was written to its [DONE]. *)
Theorem slot_goes_back_once s b g usage n inputs out last e now :
  s ≠ InTransit → (s = Queued → gd_permit g = None) →
  Forall quiet (gd_log g) → rc_finish_reason (gd_record g) = None →
  read_frames n inputs (encode_source s b g usage) = (out, last, e) →
  Forall quiet (gd_log (en_guard e)) ∧
  ∃ before record permit,
    drop_encoder now e =
      before ++ [CancelWork]
      ++ (if gd_reports g then [Recorded record (gd_id g) (gd_model g)] else [])
      ++ (match permit with Some slot => [Released slot] | None => [] end) ∧
    Forall quiet before ∧
    (permit = gd_permit g ∨
     gd_permit g = None ∧ ∃ slot waited start,
       InGranted slot waited start ∈ inputs ∧ permit = Some slot) ∧
    (is_Some (rc_finish_reason record) ↔ FrDone ∈ out ++ en_pending e) ∧
    (last = Some Over → FrDone ∈ out).
Proof.
  intros Hs Hq Hlog Hreason Hr.
  set (granted slot := ∃ waited start, InGranted slot waited start ∈ inputs).
  destruct (read_invariant (λ all e rest, Held g granted all e ∧ rest ⊆ inputs)) with n inputs
    (encode_source s b g usage) (@nil Frame) out last e as (rest & [HP _] & Hl); [..|exact Hr|].
  - intros all e0 r0 fs [HP Hsub]. split; [|done]. destruct HP as [? ? ? ? ? ? ?]. by split.
  - intros all e0 i r0 e1 [HP Hsub] Hp Hf Hsrc Hst. split; [|set_solver].
    eapply Held_step; try done. intros slot waited start ->. exists waited, start. set_solver.
  - intros all e0 r0 [HP _] Hf Hsrc. by rewrite (he_transit _ _ _ _ HP Hsrc) in Hf.
  - split; [|done]. split; simpl; try done.
    + unfold told. simpl. by rewrite Hreason.
    + set_solver.
    + auto.
    + by left.
  - simpl in HP. destruct HP as [Hql (Hi&Hm&Hre) Ht Hd Htr Hqu Hp]. split; [done|].
    set (r := gd_record (en_guard e)).
    exists (gd_log (en_guard e) ++ match en_source e with Queued => [TicketDropped] | _ => [] end),
      (mkRecord (rc_prompt_tokens r) (rc_completion_tokens r) (rc_cached_tokens r)
         (rc_finish_reason r) (rc_queue_wait r) (rc_time_to_first_token r) (rc_prefill r)
         (rc_decode r) (saturating_duration_since now (gd_started (en_guard e))) (rc_band r)),
      (gd_permit (en_guard e)).
    split_and!.
    + unfold drop_encoder, drop_guard. rewrite <-Hi, <-Hm, <-Hre.
      destruct (en_source e); simpl; by rewrite ?app_nil_r, <-?app_assoc.
    + destruct (en_source e); rewrite ?app_nil_r; try done. by apply quiet_snoc.
    + destruct Hp as [?|(? & slot & (waited & start & ?) & ?)]; [by left|right]. split; [done|].
      by exists slot, waited, start.
    + simpl. rewrite Hd, Ht. by rewrite bool_decide_eq_true.
    + intros ->. simpl in Hl. destruct Hl as (Hf & Hpe). rewrite Hpe, app_nil_r in Hd. by apply Hd.
Qed.
End streaming.

(** ** A stream *)

(** A request that waits, is granted slot 3, and calls a tool. *)
Definition demo_spelling : StrDebug := fun s => s.

Definition demo_chunks : ChunkBuilder := ChunkBuilder_new (lit "chatcmpl-1") (lit "coder") 1700000000.

Definition demo_request : RequestGuard :=
  describing (lit "chatcmpl-1") (lit "coder") (reporting_to (RequestGuard_new None 0)).

Definition demo_timings : Timings := mkTimings 12 (f64_of 250) 7 (f64_of 500) 4.

Definition demo_events : list GenerationEvent :=
  [Started None; ReasoningDelta (lit "hm"); ContentDelta (lit "Look"); ContentDelta (lit "ing");
   ToolCallDelta 0 (Some (lit "call_1")) (Some (lit "find")) None;
   ToolCallDelta 0 (Some (lit "call_1")) (Some (lit "find")) (Some (lit "{}"));
   TimingsMeasured demo_timings; Finished FrToolCalls (Usage_new 12 7)].

Definition demo_inputs : list Input :=
  [InNotice (Some 2) 3000000000; InGranted 3 5000000000 (Ok tt); InTick] ++ (InEvent 9 <$> demo_events).

Lemma stream_is_well_formed_witness : ∃ out e,
  @read_frames demo_spelling 20 demo_inputs
    (encode_source Queued demo_chunks demo_request true) = (out, Some Over, e) ∧
  ∃ notes deltas tail unread,
    out ++ unread = FrChunk (chunk_role demo_chunks) :: notes ++ deltas ++ tail ∧
    Forall is_note notes ∧ Forall (is_delta (identity demo_chunks)) deltas ∧
    (tail = [] ∨ ending (identity demo_chunks) true tail) ∧
    NoDup (announced_in (out ++ unread)) ∧ unread = [] ∧ ending (identity demo_chunks) true tail.
Proof.
  eexists _, _. split; [vm_compute; reflexivity|].
  eapply (@stream_is_well_formed demo_spelling Queued demo_chunks demo_request true 20
    demo_inputs _ (Some Over)); [done|reflexivity|vm_compute; reflexivity].
Defined.

(** The client stops after four frames. *)
Lemma slot_goes_back_once_witness : ∃ out e,
  @read_frames demo_spelling 4 demo_inputs
    (encode_source Queued demo_chunks demo_request true) = (out, None, e) ∧
  Forall quiet (gd_log (en_guard e)) ∧
  ∃ before record permit,
    drop_encoder 20 e =
      before ++ [CancelWork]
      ++ [Recorded record (Some (lit "chatcmpl-1")) (Some (lit "coder"))]
      ++ (match permit with Some slot => [Released slot] | None => [] end) ∧
    Forall quiet before ∧
    (permit = None ∨
     gd_permit demo_request = None ∧ ∃ slot waited start,
       InGranted slot waited start ∈ demo_inputs ∧ permit = Some slot) ∧
    (is_Some (rc_finish_reason record) ↔ FrDone ∈ out ++ en_pending e) ∧
    (None = Some Over → FrDone ∈ out).
Proof.
  eexists _, _. split; [vm_compute; reflexivity|].
  eapply (@slot_goes_back_once demo_spelling Queued demo_chunks demo_request true 4
    demo_inputs _ None _ 20); [done|done|by repeat constructor|done|vm_compute; reflexivity].
Defined.
