(* ===== verification/StreamingClient.v ===== *)
(** * A streamed answer and a collected one

    [crates/lightweight-gateway/src/routes.rs] answers the same generation in
    two ways: frames, which a client puts together itself, or one response,
    which [aggregate] puts together for it.  Here is such a client, and that
    the two have the same message, reason, usage and timings, or the same
    failure. *)

From stdpp Require Import base gmap strings numbers list.
From S2P Require Import Prelude Scheduler Names Utf8 Float64 Responses Generation Streaming.
From S2P Require Import StreamingTheorems.

(** ** A client *)

Definition chunks_of (fs : list Frame) : list ChatCompletionChunk :=
  omap (λ f, match f with FrChunk c => Some c | _ => None end) fs.

(** A fragment of a call goes to the call of its index: an id and a name are
    taken over, arguments are appended. *)
Definition client_call (calls : list (u32 * PartialToolCall)) (d : CallDelta)
    : list (u32 * PartialToolCall) :=
  update_call (cd_index d)
    (assemble (cd_id d) (cd_function d ≫= fd_name) (cd_function d ≫= fd_arguments)) calls.

Definition client_delta (m : Message) (d : Delta) : Message :=
  mkMessage (msg_content m ++ default [] (dl_content d))
    (msg_reasoning m ++ default [] (dl_reasoning d))
    (foldl client_call (msg_calls m) (default [] (dl_tool_calls d))).

Definition client_chunk (m : Message) (c : ChatCompletionChunk) : Message :=
  foldl client_delta m (cc_delta <$> ck_choices c).

Definition client_message (fs : list Frame) : Message :=
  foldl client_chunk Message_default (chunks_of fs).

(** What a client is told besides. *)
Definition client_reasons (fs : list Frame) : list str :=
  omap cc_finish_reason (concat (ck_choices <$> chunks_of fs)).

Definition client_usages (fs : list Frame) : list (UsageBody * option Timings) :=
  omap (λ c, (λ u, (u, ck_timings c)) <$> ck_usage c) (chunks_of fs).

Definition client_errors (fs : list Frame) : list ErrorEnvelope := omap ck_error (chunks_of fs).

Lemma chunks_of_app fs gs : chunks_of (fs ++ gs) = chunks_of fs ++ chunks_of gs.
Proof. apply omap_app. Qed.
Lemma client_message_app fs gs :
  client_message (fs ++ gs) = foldl client_chunk (client_message fs) (chunks_of gs).
Proof. unfold client_message. by rewrite chunks_of_app, foldl_app. Qed.
Lemma client_reasons_app fs gs : client_reasons (fs ++ gs) = client_reasons fs ++ client_reasons gs.
Proof. unfold client_reasons. by rewrite chunks_of_app, fmap_app, concat_app, omap_app. Qed.
Lemma client_usages_app fs gs : client_usages (fs ++ gs) = client_usages fs ++ client_usages gs.
Proof. unfold client_usages. by rewrite chunks_of_app, omap_app. Qed.
Lemma client_errors_app fs gs : client_errors (fs ++ gs) = client_errors fs ++ client_errors gs.
Proof. unfold client_errors. by rewrite chunks_of_app, omap_app. Qed.

(** ** The calls of a message *)

Fixpoint call_at (index : u32) (calls : list (u32 * PartialToolCall)) : option PartialToolCall :=
  match calls with
  | [] => None
  | (k, c) :: rest =>
      if k =? index then Some c else if index <? k then None else call_at index rest
  end.

Lemma update_call_ext index f g calls :
  f (default PartialToolCall_default (call_at index calls)) =
  g (default PartialToolCall_default (call_at index calls)) →
  update_call index f calls = update_call index g calls.
Proof.
  induction calls as [|[k c] calls IH]; simpl; [by intros ->|].
  destruct (k =? index); simpl; [by intros ->|].
  destruct (index <? k); simpl; [by intros ->|]. intros Hfg. by rewrite IH.
Qed.

(** Once the id of a call is announced, a later fragment that has an id or a
    name has those of the call. *)
Definition repeats (announced : list u32) (m : Message) (v : GenerationEvent) : Prop :=
  match v with
  | ToolCallDelta index call name _ =>
      index ∈ announced →
      let c := default PartialToolCall_default (call_at index (msg_calls m)) in
      default (pc_id c) call = pc_id c ∧ default (pc_name c) name = pc_name c
  | _ => True
  end.

Definition announce (announced : list u32) (v : GenerationEvent) : list u32 :=
  match v with
  | ToolCallDelta index (Some _) _ _ =>
      if bool_decide (index ∈ announced) then announced else announced ++ [index]
  | _ => announced
  end.

(** An engine that keeps to this, and says nothing after [Finished]. *)
Fixpoint orderly (announced : list u32) (m : Message)
    (events : list (Instant * result GenerationEvent BackendError)) : Prop :=
  match events with
  | [] => True
  | (_, Err _) :: _ => True
  | (_, Ok (Finished _ _)) :: events => events = []
  | (_, Ok v) :: events =>
      repeats announced m v ∧ orderly (announce announced v) (collect_message m v) events
  end.

Lemma tool_call_message b m index call name arguments :
  repeats (announced_tool_calls b) m (ToolCallDelta index call name arguments) →
  let '(c, b') := chunk_tool_call b index call name arguments in
  client_chunk m c = collect_message m (ToolCallDelta index call name arguments) ∧
  announced_tool_calls b' = announce (announced_tool_calls b) (ToolCallDelta index call name arguments).
Proof.
  intros Hr. destruct m as [content reasoning calls]. unfold chunk_tool_call, repeats in *. simpl.
  case_bool_decide as Hin; simpl.
  - destruct (Hr Hin) as (Hc & Hn). simpl in *. split; [|by destruct call].
    unfold client_chunk, client_delta. simpl. rewrite !app_nil_r. f_equal.
    unfold client_call. simpl. apply update_call_ext. unfold assemble. rewrite Hc, Hn. simpl.
    by destruct arguments.
  - destruct call as [call|]; simpl; (split; [|done]); unfold client_chunk, client_delta; simpl;
      rewrite !app_nil_r; f_equal; unfold client_call; simpl; apply update_call_ext;
      by destruct name, arguments.
Qed.

(** ** The same answer *)

Section same.
Context `{StrDebug}.

(** What the encoder of a running generation is given. *)
Definition input_of (ev : Instant * result GenerationEvent BackendError) : Input :=
  match ev with (now, Ok v) => InEvent now v | (_, Err err) => InError err end.

Definition inputs_of (events : list (Instant * result GenerationEvent BackendError)) : list Input :=
  (input_of <$> events) ++ [InEnd].

(** What was read is the answer. *)
Definition same_answer (usage : bool) (all : list Frame) (a : Aggregated) : Prop :=
  match a with
  | AgResponse m u reason t =>
      client_message all = m ∧ client_reasons all = [finish_str reason] ∧
      client_usages all = (if usage then [(u, t)] else []) ∧ client_errors all = []
  | AgError _ envelope => client_reasons all = [finish_str FrError] ∧ client_errors all = [envelope]
  end.

(** Between two frames: what was read is what was collected. *)
Record Collecting (usage : bool) (a : option Aggregated) (all : list Frame) (e : Encoder)
    (c : Collected) (events : list (Instant * result GenerationEvent BackendError)) : Prop := {
  cl_source : en_source e = Running;
  cl_include : include_usage e = usage;
  cl_answer : fst <$> aggregate_loop c events = a;
  cl_message : client_message all = co_message c;
  cl_timings : en_timings e = co_timings c;
  cl_usage : en_usage e = None ∧ co_usage c = UsageBody_default ∧ co_finish_reason c = FrLength;
  cl_orderly : orderly (announced_tool_calls (en_builder e)) (co_message c) events;
  cl_told : client_reasons all = [] ∧ client_usages all = [] ∧ client_errors all = [] }.

Definition Same (usage : bool) (a : option Aggregated) (all : list Frame) (e : Encoder)
    (rest : list Input) : Prop :=
  if en_finished e then ∃ answer, a = Some answer ∧ same_answer usage all answer
  else ∃ c events, rest = inputs_of events ∧ Collecting usage a all e c events.

Lemma same_close usage all e m u t reason :
  en_finished e = false → en_pending e = [] → include_usage e = usage →
  client_message all = m → client_reasons all = [] → client_usages all = [] →
  client_errors all = [] → default UsageBody_default (en_usage e) = u → en_timings e = t →
  same_answer usage (all ++ en_pending (close reason e)) (AgResponse m u reason t).
Proof.
  intros Hf Hp Hu Hm Hr Hus He Hd Ht.
  assert (Ep : en_pending (close reason e) =
    [FrChunk (chunk_finish (en_builder e) reason)]
    ++ (if usage then [FrChunk (chunk_usage (en_builder e) u t)] else []) ++ [FrDone]).
  { unfold close. rewrite Hf. destruct usage; cbn; rewrite Hu; cbn; by rewrite Hp, ?Hd, ?Ht. }
  rewrite Ep. simpl. rewrite client_message_app, client_reasons_app, client_usages_app, client_errors_app.
  rewrite Hm, Hr, Hus, He. destruct m as [x y z].
  by destruct usage; cbn; unfold client_chunk, client_delta; simpl; rewrite !app_nil_r.
Qed.

Lemma same_fail usage all e err :
  en_pending e = [] → client_reasons all = [] → client_errors all = [] →
  same_answer usage (all ++ en_pending (fail_backend err e))
    (AgError (http_status (error_kind err)) (from_error err)).
Proof.
  intros Hp Hr He. simpl. by rewrite Hp, client_reasons_app, client_errors_app, Hr, He.
Qed.

Lemma collect_is now c v c' :
  collect now c v = Some c' → co_message c' = collect_message (co_message c) v.
Proof.
  destruct v; simpl; try (by intros [= <-]). by intros (g & _ & [= <-])%bind_Some.
Qed.

(** One more event that ends nothing, whatever frames it makes. *)
Lemma Collecting_event usage a all e c now v events fs e' c' :
  Collecting usage a all e c ((now, Ok v) :: events) → collect now c v = Some c' →
  (∀ r u, v ≠ Finished r u) →
  en_source e' = Running ∧ include_usage e' = include_usage e ∧ en_usage e' = en_usage e ∧
  en_timings e' = co_timings c' →
  co_usage c' = co_usage c ∧ co_finish_reason c' = co_finish_reason c →
  announced_tool_calls (en_builder e') = announce (announced_tool_calls (en_builder e)) v →
  foldl client_chunk (co_message c) (chunks_of fs) = co_message c' →
  client_reasons fs = [] ∧ client_usages fs = [] ∧ client_errors fs = [] →
  Collecting usage a (all ++ fs) e' c' events.
Proof.
  intros [Hs Hi Ha Hm Ht (Hu1 & Hu2 & Hu3) Ho (Hr & Hus & He)] Hc Hv (E1 & E2 & E3 & E4) (C1 & C2) Hb Hfs
    (F1 & F2 & F3).
  split; try congruence.
  - simpl in Ha. by rewrite Hc in Ha.
  - by rewrite client_message_app, Hm.
  - split_and!; congruence.
  - rewrite Hb, (collect_is _ _ _ _ Hc). simpl in Ho.
    destruct v; try (by destruct Ho). by destruct (Hv finish_reason usage0).
  - by rewrite client_reasons_app, client_usages_app, client_errors_app, Hr, Hus, He, F1, F2, F3.
Qed.

Lemma Same_event usage a all e c now v events e' :
  Collecting usage a all e c ((now, Ok v) :: events) → en_pending e = [] → en_finished e = false →
  absorb_event now v (set_started e) = Some e' →
  Same usage a (all ++ en_pending e') e' (inputs_of events).
Proof.
  intros Hc Hp Hf. unfold Same. destruct c as [g m cu cr ct] eqn:Ec.
  destruct v as [pt|text|text|index call name args|t|reason u]; cbn [absorb_event].
  - intros [= <-]. simpl. rewrite Hf. eexists _, events. split; [done|].
    eapply Collecting_event; [exact Hc|done|done|by destruct Hc|done|done|by rewrite Hp|by rewrite Hp].
  - intros [= <-]. simpl. rewrite Hf. eexists _, events. split; [done|].
    eapply Collecting_event; [exact Hc|done|done|by destruct Hc|done|done| |by rewrite Hp].
    rewrite Hp. simpl. unfold client_chunk, client_delta. simpl. by rewrite app_nil_r.
  - intros [= <-]. simpl. rewrite Hf. eexists _, events. split; [done|].
    eapply Collecting_event; [exact Hc|done|done|by destruct Hc|done|done| |by rewrite Hp].
    rewrite Hp. simpl. unfold client_chunk, client_delta. simpl. by rewrite app_nil_r.
  - simpl. pose proof (tool_call_message (en_builder e) m index call name args) as Hm.
    destruct (chunk_tool_call _ _ _ _ _) as [ck b'] eqn:Eck. intros [= <-]. simpl. rewrite Hf.
    eexists _, events. split; [done|]. rewrite Hp.
    destruct Hm as (Hm & Ha); [by apply (cl_orderly _ _ _ _ _ _ Hc)|].
    eapply Collecting_event; [exact Hc|done|done|by destruct Hc|done|exact Ha| |].
    + simpl. by rewrite Hm.
    + unfold chunk_tool_call in Eck. case_bool_decide; destruct call; simpl in Eck; by simplify_eq.
  - intros (g' & Hg & [= <-])%bind_Some. simpl. rewrite Hf.
    assert (∃ g2, timed t None g = Some g2) as (g2 & Hg2).
    { unfold timed in *. apply bind_Some in Hg as (x & Hx & (y & Hy & _)%bind_Some).
      eexists. apply bind_Some. exists x. split; [done|]. apply bind_Some. by exists y. }
    eexists _, events. split; [done|].
    eapply Collecting_event; [exact Hc|simpl; by rewrite Hg2|done|by destruct Hc|done|done|
      by rewrite Hp|by rewrite Hp].
  - intros [= <-]. set (e0 := set_usage_body _ _).
    destruct (close_fields reason e0) as (-> & _).
    destruct Hc as [Hs Hi Ha Hm Ht _ Ho (Hr & Hus & He)]. simpl in *. subst events.
    eexists. split; [by rewrite <-Ha|]. by apply same_close.
Qed.

Lemma Same_step usage a all e i rest e' :
  Same usage a all e (i :: rest) → en_pending e = [] → en_finished e = false →
  step e i = Some e' → Same usage a (all ++ en_pending e') e' rest.
Proof.
  intros Hs Hp Hf. unfold Same in Hs. rewrite Hf in Hs. destruct Hs as (c & events & Hin & Hc).
  unfold step. rewrite (cl_source _ _ _ _ _ _ Hc).
  destruct events as [|[now [v|err]] events]; injection Hin as -> ->.
  - intros [= <-]. unfold Same. destruct (close_fields FrLength e) as (-> & _).
    destruct Hc as [_ Hi Ha Hm Ht (Hu1 & Hu2 & Hu3) _ (Hr & Hus & He)].
    eexists. split; [by rewrite <-Ha|]. rewrite Hu3. apply same_close; try done. by rewrite Hu1, Hu2.
  - intros Ha. by eapply Same_event.
  - intros [= <-]. unfold Same.
    destruct Hc as [_ Hi Ha Hm Ht _ _ (Hr & Hus & He)].
    eexists. split; [by rewrite <-Ha|]. by apply same_fail.
Qed.

(** C22: streamed and collected answers are the same.  A client reads the stream
    of a generation to its end and puts the chunks together; [aggregate] is
    given the same events.  Provided the engine is [orderly] - once the id of a
    call is announced, a later fragment that has an id or a name has those of
    the call, and nothing follows [Finished] - the client has the message [aggregate] answers with - text, reasoning and tool
    calls, by index - one finish reason, which is its, the usage and timings,
    which are its, exactly when it asked for them, and no error; or, when the
    engine fails, the one error [aggregate] answers with. *)
Theorem streamed_is_collected b g g' usage n events out e :
  announced_tool_calls b = [] → orderly [] Message_default events →
  read_frames n (inputs_of events) (encode_source Running b g usage) = (out, Some Over, e) →
  ∃ answer guard, aggregate g' events = Some (answer, guard) ∧ same_answer usage out answer.
Proof.
  intros Hb Ho Hr. set (a := fst <$> aggregate g' events).
  destruct (read_invariant (Same usage a)) with n (inputs_of events)
    (encode_source Running b g usage) (@nil Frame) out (Some Over) e as (rest & HP & Hf & Hp);
    [..|exact Hr|].
  - intros all e0 r fs. unfold Same. simpl. destruct (en_finished e0); [done|].
    intros (c & evs & ? & []). exists c, evs. split; [done|]. by split.
  - intros all e0 i r e1 HP Hp Hf _ Hst. by eapply Same_step.
  - intros all e0 r HP Hf. unfold Same in HP. rewrite Hf in HP. destruct HP as (c & evs & _ & [Hs]).
    by rewrite Hs.
  - unfold Same. simpl. eexists _, events. split; [done|]. split; try done. simpl. by rewrite Hb.
  - unfold Same in HP. rewrite Hf in HP. destruct HP as (answer & Ha & Hsame).
    unfold a in Ha. destruct (aggregate g' events) as [[x guard]|]; [|done]. simplify_eq/=.
    exists answer, guard. split; [done|]. by rewrite Hp, app_nil_r in Hsame.
Qed.
End same.

(** ** Reading to the end *)

Section ends.
Context `{StrDebug}.

(** The engine's measurements are times. *)
Definition measurable (v : GenerationEvent) : Prop :=
  match v with
  | TimingsMeasured t =>
      is_Some (from_secs_f64 (f64_div (prompt_ms t) (f64_of 1000))) ∧
      is_Some (from_secs_f64 (f64_div (predicted_ms t) (f64_of 1000)))
  | _ => True
  end.

Definition fine (ev : Instant * result GenerationEvent BackendError) : Prop :=
  match ev with (_, Ok v) => measurable v | _ => True end.

Lemma timed_some t n g : measurable (TimingsMeasured t) → is_Some (timed t n g).
Proof.
  intros [[x Hx] [y Hy]]. unfold timed. eexists. apply bind_Some. exists x. split; [done|].
  apply bind_Some. by exists y.
Qed.

Lemma step_runs e ev :
  en_source e = Running → fine ev →
  ∃ e', step e (input_of ev) = Some e' ∧ en_source e' = Running.
Proof.
  intros Es Hf. destruct ev as [now [v|err]]; unfold step; rewrite Es; simpl.
  - destruct v as [pt|text|text|index call name args|t|reason u]; simpl; try (by eexists).
    + by destruct (chunk_tool_call _ _ _ _ _); eexists.
    + destruct (timed_some t (Some (predicted_n t)) (en_guard e) Hf) as [g Hg].
      eexists. split; [apply bind_Some; by exists g|done].
    + eexists. split; [done|]. by rewrite (proj2 (proj2 (proj2 (proj2 (close_fields _ _))))).
  - by eexists.
Qed.

(** What is pending is read first. *)
Lemma read_pending n inputs e out e' :
  read_frames n inputs (set_pending [] e) = (out, Some Over, e') →
  read_frames (length (en_pending e) + n) inputs e = (en_pending e ++ out, Some Over, e').
Proof.
  intros Hr. remember (en_pending e) as fs eqn:Ep. revert e Hr Ep.
  induction fs as [|f fs IH]; intros e Hr Ep; simpl.
  - assert (set_pending [] e = e) as <-; [|done]. destruct e. simpl in *. by subst.
  - assert (pull inputs e = (Yielded f, inputs, set_pending fs e)) as ->.
    { destruct inputs; simpl; by rewrite <-Ep. }
    by rewrite (IH (set_pending fs e)).
Qed.

(** A read that has nothing pending takes the next input first. *)
Lemma read_step n i inputs e e1 out e' :
  en_pending e = [] → en_finished e = false → en_source e = Running → step e i = Some e1 →
  read_frames (S n) inputs e1 = (out, Some Over, e') →
  read_frames (S n) (i :: inputs) e = (out, Some Over, e').
Proof.
  intros Hp Hf Hs Hst Hr. simpl in *. by rewrite Hp, Hf, Hs, Hst.
Qed.

Lemma read_over inputs e :
  en_pending e = [] → en_finished e = true → read_frames 1 inputs e = ([], Some Over, e).
Proof. intros Hp Hf. simpl. destruct inputs; simpl; by rewrite Hp, Hf. Qed.

Lemma read_finished inputs e :
  en_finished e = true → ∃ n out e', read_frames (S n) inputs e = (out, Some Over, e').
Proof.
  intros Hf. eexists (length (en_pending e)), _, _.
  rewrite <-Nat.add_1_r. apply read_pending. by apply read_over.
Qed.

Lemma read_after inputs e :
  (∃ n out e', read_frames (S n) inputs (set_pending [] e) = (out, Some Over, e')) →
  ∃ n out e', read_frames (S n) inputs e = (out, Some Over, e').
Proof.
  intros (n & out & e' & Hr). eexists (length (en_pending e) + n)%nat, _, _.
  rewrite <-Nat.add_succ_r. by apply read_pending.
Qed.

Lemma reads_to_end events e :
  en_source e = Running → Forall fine events →
  ∃ n out e', read_frames (S n) (inputs_of events) e = (out, Some Over, e').
Proof.
  intros Hs Hf. revert e Hs. induction Hf as [|ev events Hev Hf IH]; intros e Hs;
    (destruct (en_finished e) eqn:Efin; [by apply read_finished|]); apply read_after.
  - destruct (read_finished [] (close FrLength (set_pending [] e))) as (n & out & e' & Hr).
    { by destruct (close_fields FrLength (set_pending [] e)). }
    exists n, out, e'. eapply read_step; [done|done|done| |exact Hr].
    unfold step. simpl. by rewrite Hs.
  - destruct (step_runs (set_pending [] e) ev) as (e1 & Hst & Hs1); [done|done|].
    destruct (IH e1 Hs1) as (n & out & e' & Hr). exists n, out, e'. by eapply read_step.
Qed.

(** A stream ends.  Whatever the engine sends, whether it finishes, fails or
    just stops, a client that keeps reading reaches the end of the body, as
    long as what the engine measured are times. *)
Theorem stream_reaches_its_end b g usage events :
  Forall fine events →
  ∃ n out e, read_frames n (inputs_of events) (encode_source Running b g usage) = (out, Some Over, e).
Proof.
  intros Hf. destruct (reads_to_end events (encode_source Running b g usage)) as (n & out & e & Hr);
    [done|done|]. by exists (S n), out, e.
Qed.

(** An engine that reports a negative time breaks the stream off: the reading
    panics, and what the client has is the role chunk. *)
Theorem negative_time_breaks_off b g usage now rest predicted :
  read_frames 2 (InEvent now (TimingsMeasured (mkTimings 1 (f64_of (-1)) 1 predicted 0)) :: rest)
    (encode_source Running b g usage) =
  ([FrChunk (chunk_role b)], Some Panicked,
   set_pending [] (encode_source Running b g usage)).
Proof. reflexivity. Qed.
End ends.

(** The stream of [demo_events], and what [aggregate] makes of them. *)
Definition demo_arrivals : list (Instant * result GenerationEvent BackendError) :=
  (λ v, (9, Ok v)) <$> demo_events.

Lemma streamed_is_collected_witness : ∃ out e,
  @read_frames demo_spelling 20 (inputs_of demo_arrivals)
    (encode_source Running demo_chunks demo_request true) = (out, Some Over, e) ∧
  ∃ answer guard,
    @aggregate demo_spelling demo_request demo_arrivals = Some (answer, guard) ∧
    same_answer true out answer.
Proof.
  eexists _, _. split; [vm_compute; reflexivity|].
  eapply (@streamed_is_collected demo_spelling demo_chunks demo_request demo_request
    true 20 demo_arrivals); [done| |vm_compute; reflexivity].
  vm_compute. repeat split; intros; set_solver.
Defined.

Lemma stream_reaches_its_end_witness : Forall fine demo_arrivals ∧ ∃ n out e,
  @read_frames demo_spelling n (inputs_of demo_arrivals)
    (encode_source Running demo_chunks demo_request true) = (out, Some Over, e).
Proof.
  assert (Forall fine demo_arrivals) as Hf.
  { unfold demo_arrivals, demo_events. repeat (constructor; [by vm_compute; eauto|]). constructor. }
  split; [exact Hf|]. apply (@stream_reaches_its_end demo_spelling). exact Hf.
Defined.

(** A call whose name comes after its id: the stream drops the name, and
    [aggregate] keeps it. *)
Theorem late_name_is_lost :
  let events := (λ v, (9, Ok v)) <$>
    [ToolCallDelta 0 (Some (lit "call_1")) None None; ToolCallDelta 0 None (Some (lit "find")) None;
     Finished FrToolCalls (Usage_new 12 7)] in
  let '(out, last, _) := @read_frames demo_spelling 20 (inputs_of events)
    (encode_source Running demo_chunks demo_request true) in
  let answer := @aggregate demo_spelling demo_request events in
  last = Some Over ∧
  msg_calls (client_message out) = [(0, mkPartial (lit "call_1") [] [])] ∧
  ∃ u r t g, answer = Some (AgResponse
    (mkMessage [] [] [(0, mkPartial (lit "call_1") (lit "find") [])]) u r t, g).
Proof. vm_compute. split_and!; [done|done|]. by eexists _, _, _, _. Qed.
