(* ===== verification/Download.v ===== *)
(** * Fetching a file

    [crates/lightweight-download/src/fetch.rs]: one download, resumed from what
    an earlier one left and checked against a digest before it is put in place.

    A disk is its files by path.  The server is the class [Server]: what it
    answers for a URL and the byte to start from.  When the download is
    cancelled and what the system refuses on the way - the directory, the
    partial file, a write, the flush, the final rename - are arguments
    ([Circumstances]); progress, which is only told, is left out. *)

From stdpp Require Import base gmap strings numbers list.
From S2P Require Import Prelude Names Utf8 Frames Rewriter Keys Responses Generation.

Abbreviation Disk := (gmap str (list byte)) (only parsing).

Inductive FetchFailure := Transport (detail : str) | HttpStatus (status : u16).

Inductive DownloadError :=
| InsecureUrl (scheme : str)
| DlFailed (reason : FetchFailure)
| Corrupt (expected actual : str)
| DlLowDisk
| DlIo (context : str)
| DlCancelled.

Record HttpResponse := mkResponse {
  rs_status : u16;
  rs_chunks : list (result (list byte) str) }.

Class Server := respond : str → u64 → result HttpResponse str.

Record Fetch := mkFetch {
  fe_url : str;
  fe_destination : str;
  fe_expected : option str }.

Record Fetched := mkFetched {
  fd_sha256 : str;
  fd_bytes : u64;
  fd_resumed : bool;
  fd_verified : bool }.

Definition download_code (e : DownloadError) : str :=
  match e with
  | InsecureUrl _ => lit "insecure_url"
  | DlFailed _ => lit "download_failed"
  | Corrupt _ _ => lit "download_corrupt"
  | DlLowDisk => lit "low_disk"
  | DlIo _ => lit "io_error"
  | DlCancelled => lit "cancelled"
  end.

Definition download_kind (e : DownloadError) : ErrorKind :=
  match e with
  | InsecureUrl _ => KInvalidRequest
  | DlFailed _ => KUnavailable
  | Corrupt _ _ => KInternal
  | DlLowDisk => KResourceExhausted
  | DlIo _ => KInternal
  | DlCancelled => KCancelled
  end.

(** An I/O error: whether it is for want of space. *)
Abbreviation IoFailure := bool (only parsing).

(** [map_io]. *)
Definition map_io (context : str) (full : IoFailure) : DownloadError :=
  if full then DlLowDisk else DlIo context.

(** How reading what an earlier attempt left goes: it is read, it cannot be
    opened, reading breaks off, or the task that reads never ran. *)
Inductive Rehash := RhReads | RhUnopened | RhBreaks (full : IoFailure) | RhLost (detail : str).

(** What the system refuses, if anything, in the order it is asked: the
    directory; the partial file, to read and to write; the write of a chunk,
    with what of it was written by then; the flush, with what of the body was
    written by then; to remove a partial file that is corrupt; and to rename
    it.  And before which chunk the token is cancelled. *)
Record Circumstances := mkCircumstances {
  ci_directory : option IoFailure;
  ci_rehash : Rehash;
  ci_open : option IoFailure;
  ci_cancelled : nat → bool;
  ci_write : nat → option (nat * IoFailure);
  ci_flush : option (nat * IoFailure);
  ci_remove : bool;
  ci_rename : option IoFailure }.

Definition smooth : Circumstances :=
  mkCircumstances None RhReads None (fun _ => false) (fun _ => None) None true None.

Definition partial_path (destination : str) : str := destination ++ lit ".part".

(** [url.split("://").next()]. *)
Definition before_scheme (url : str) : str :=
  match find url (lit "://") with Some i => take i url | None => url end.

Definition require_https (url : str) : result unit DownloadError :=
  let scheme := before_scheme url in
  if eq_ignore_ascii_case scheme (lit "https") then Ok tt
  else Err (InsecureUrl (if bool_decide (scheme = []) || (length scheme =? length url)%nat
                         then lit "(none)" else ascii_lower <$> scheme)).

Definition is_success (status : u16) : bool := (200 <=? status) && (status <? 300).

Definition blen (bytes : list byte) : u64 := Z.of_nat (length bytes).

(** [rehash_partial]: the bytes to go on from. *)
Definition rehash_partial (r : Rehash) (partial : option (list byte))
    : result (list byte) DownloadError :=
  match r, partial with
  | RhLost detail, _ => Err (DlFailed (Transport detail))
  | _, None | RhUnopened, _ => Ok []
  | RhBreaks full, Some _ => Err (map_io (lit "reading the partial download") full)
  | RhReads, Some bytes => Ok bytes
  end.

(** The loop over the body: what is in the partial file, and how it ended. *)
Fixpoint receive (w : Circumstances) (i : nat) (chunks : list (result (list byte) str))
    (file : list byte) : list byte * result unit DownloadError :=
  match chunks with
  | [] => (file, Ok tt)
  | chunk :: chunks =>
      if ci_cancelled w i then (file, Err DlCancelled)
      else
        match chunk with
        | Err detail => (file, Err (DlFailed (Transport detail)))
        | Ok bytes =>
            match ci_write w i with
            | Some (written, full) =>
                (file ++ take written bytes,
                 Err (map_io (lit "writing the download") full))
            | None => receive w (S i) chunks (file ++ bytes)
            end
        end
  end.

Section fetch.
Context `{Sha256} `{Server}.

Definition digest_of (bytes : list byte) : str := hex (sha256 bytes).

(** What follows the body: the digest is compared, and the file put in place. *)
Definition finish_fetch (f : Fetch) (w : Circumstances) (resumed : bool) (file : list byte) (d : Disk)
    : result Fetched DownloadError * Disk :=
  let partial := partial_path (fe_destination f) in
  let actual := digest_of file in
  let rename verified :=
    match ci_rename w with
    | None => (Ok (mkFetched actual (blen file) resumed verified),
               <[fe_destination f := file]> (delete partial d))
    | Some full => (Err (map_io (lit "finalising the download") full), d)
    end in
  match fe_expected f with
  | Some expected =>
      if negb (eq_ignore_ascii_case actual expected)
      then (Err (Corrupt expected actual), if ci_remove w then delete partial d else d)
      else rename true
  | None => rename false
  end.

(** From the partial file's opening on: [base] is what it holds by then. *)
Definition transfer (f : Fetch) (w : Circumstances) (resumed : bool) (base : list byte)
    (chunks : list (result (list byte) str)) (d : Disk) : result Fetched DownloadError * Disk :=
  let partial := partial_path (fe_destination f) in
  let '(file, ended) := receive w 0 chunks base in
  match ended with
  | Err e => (Err e, <[partial := file]> d)
  | Ok _ =>
      match ci_flush w with
      | Some (written, full) =>
          (Err (map_io (lit "flushing the download") full),
           <[partial := base ++ take written (drop (length base) file)]> d)
      | None => finish_fetch f w resumed file (<[partial := file]> d)
      end
  end.

(** [fetch]. *)
Definition fetch (f : Fetch) (w : Circumstances) (d : Disk)
    : result Fetched DownloadError * Disk :=
  match require_https (fe_url f) with
  | Err e => (Err e, d)
  | Ok _ =>
      match ci_directory w with
      | Some full => (Err (map_io (lit "creating the download directory") full), d)
      | None =>
          let partial := partial_path (fe_destination f) in
          match rehash_partial (ci_rehash w) (d !! partial) with
          | Err e => (Err e, d)
          | Ok kept =>
              let resume_from := blen kept in
              match respond (fe_url f) resume_from with
              | Err detail => (Err (DlFailed (Transport detail)), d)
              | Ok response =>
                  let restart := (0 <? resume_from) && negb (rs_status response =? 206) in
                  if negb (is_success (rs_status response))
                  then (Err (DlFailed (HttpStatus (rs_status response))), d)
                  else
                    match ci_open w with
                    | Some full => (Err (map_io (lit "opening the download file") full), d)
                    | None =>
                        transfer f w ((0 <? resume_from) && negb restart)
                          (if restart then [] else kept) (rs_chunks response) d
                    end
              end
          end
      end
  end.
End fetch.

(** ** Properties of a download

    What is put in place is what was checked; what an interrupted download
    leaves is what the next one goes on from; and what follows when it was left
    by another link, or is already whole. *)

Lemma partial_ne destination : partial_path destination ≠ destination.
Proof.
  unfold partial_path. intros He. apply (f_equal length) in He. rewrite length_app in He.
  vm_compute (length (lit ".part")) in He. lia.
Qed.

(** What a body comes to: its bytes up to where it breaks off, and whether it
    is whole. *)
Fixpoint body (chunks : list (result (list byte) str)) : list byte :=
  match chunks with Ok b :: chunks => b ++ body chunks | _ => [] end.

Fixpoint whole_body (chunks : list (result (list byte) str)) : bool :=
  match chunks with [] => true | Ok _ :: chunks => whole_body chunks | Err _ :: _ => false end.

Lemma receive_cases w i chunks file file' r :
  receive w i chunks file = (file', r) →
  ∃ added, file' = file ++ added ∧ added `prefix_of` body chunks ∧
    (r = Ok tt → added = body chunks ∧ whole_body chunks = true) ∧
    ∀ expected actual, r ≠ Err (Corrupt expected actual).
Proof.
  revert i file. induction chunks as [|chunk chunks IH]; intros i file; simpl.
  { intros [= <- <-]. exists []. by rewrite app_nil_r. }
  assert (Hnil : ∀ err, (∀ expected actual, err ≠ Corrupt expected actual) →
    (file, Err err) = (file', r) → ∃ added, file' = file ++ added ∧
      added `prefix_of` body (chunk :: chunks) ∧
      (r = Ok tt → added = body (chunk :: chunks) ∧ whole_body (chunk :: chunks) = true) ∧
      ∀ expected actual, r ≠ Err (Corrupt expected actual)).
  { intros err He [= <- <-]. exists []. rewrite app_nil_r. split_and!; try done.
    - apply prefix_nil.
    - intros e a [= ->]. by eapply He. }
  destruct (ci_cancelled w i); [by apply Hnil|].
  destruct chunk as [b|detail]; [|by apply Hnil].
  destruct (ci_write w i) as [[k full]|].
  - intros [= <- <-]. exists (take k b). split_and!; try done; [|by destruct full..]. simpl.
    apply prefix_app_r. exists (drop k b). by rewrite take_drop.
  - intros (added & -> & Hp & Hr & Hc)%IH. exists (b ++ added). rewrite app_assoc.
    split_and!; try done; simpl.
    + by apply prefix_app.
    + by intros ?%Hr; destruct_and?; subst.
Qed.

Section download.
Context `{Sha256} `{Server}.

Lemma finish_cases f w resumed file d :
  let '(r, d') := finish_fetch f w resumed file d in
  match r with
  | Ok got =>
      d' = <[fe_destination f := file]> (delete (partial_path (fe_destination f)) d) ∧
      fd_sha256 got = digest_of file ∧ fd_bytes got = blen file ∧
      (fd_verified got = true ↔ is_Some (fe_expected f)) ∧
      ∀ expected, fe_expected f = Some expected →
        eq_ignore_ascii_case (digest_of file) expected = true
  | Err (Corrupt expected actual) =>
      d' = (if ci_remove w then delete (partial_path (fe_destination f)) d else d) ∧
      fe_expected f = Some expected ∧ actual = digest_of file ∧
      eq_ignore_ascii_case actual expected = false
  | Err _ => d' = d ∧ ci_rename w ≠ None
  end.
Proof.
  unfold finish_fetch, map_io. destruct (fe_expected f) as [expected|] eqn:Ee.
  - destruct (eq_ignore_ascii_case (digest_of file) expected) eqn:Eq; simpl; [|done].
    destruct (ci_rename w) as [[]|]; simpl; try done. split_and!; try done. by intros ? [= <-].
  - destruct (ci_rename w) as [[]|]; simpl; try done.
Qed.

(** What a transfer leaves in the partial file when it fails: what was there,
    and a beginning of the body. *)
Lemma transfer_cases f w resumed base chunks d :
  let '(r, d') := transfer f w resumed base chunks d in
  (∃ file, file = base ++ body chunks ∧ whole_body chunks = true ∧
     (r, d') = finish_fetch f w resumed file (<[partial_path (fe_destination f) := file]> d)) ∨
  (∃ e added, r = Err e ∧ (∀ expected actual, e ≠ Corrupt expected actual) ∧
     added `prefix_of` body chunks ∧
     d' = <[partial_path (fe_destination f) := base ++ added]> d).
Proof.
  unfold transfer. destruct (receive _ _ _ _) as [file [[]|e]] eqn:Er;
    apply receive_cases in Er as (added & -> & Hp & Hok & Hc).
  - destruct (Hok eq_refl) as [-> Hw]. destruct (ci_flush w) as [[k full]|].
    + right. eexists _, _. split; [done|]. split; [by destruct full|]. split; [|done].
      rewrite drop_app_length. exists (drop k (body chunks)). by rewrite take_drop.
    + destruct (finish_fetch _ _ _ _ _) eqn:Ef. left. exists (base ++ body chunks). by rewrite Ef.
  - right. exists e, added. split_and!; try done. intros x y ->. by apply (Hc x y).
Qed.

(** A fetch that fails before it opens the partial file changes nothing. *)
Lemma fetch_cases f w d :
  let '(r, d') := fetch f w d in
  (∃ e, r = Err e ∧ (∀ expected actual, e ≠ Corrupt expected actual) ∧ d' = d) ∨
  (∃ kept response resumed, require_https (fe_url f) = Ok tt ∧
     rehash_partial (ci_rehash w) (d !! partial_path (fe_destination f)) = Ok kept ∧
     respond (fe_url f) (blen kept) = Ok response ∧ is_success (rs_status response) = true ∧
     (r, d') = transfer f w resumed
       (if (0 <? blen kept) && negb (rs_status response =? 206) then [] else kept)
       (rs_chunks response) d).
Proof.
  unfold fetch. destruct (require_https _) as [[]|e] eqn:Eh.
  2:{ left. exists e. split_and!; [done| |done]. intros x y ->. unfold require_https in Eh.
      by destruct (eq_ignore_ascii_case _ _). }
  destruct (ci_directory w) as [full|]; [left; eexists; split_and!; [done|by destruct full|done]|].
  destruct (rehash_partial _ _) as [kept|e] eqn:Ek.
  2:{ left. exists e. split_and!; [done| |done]. intros x y ->. unfold rehash_partial, map_io in Ek.
      by repeat case_match. }
  destruct (respond _ _) as [response|] eqn:Er; [|left; eexists; by split_and!].
  destruct (is_success _) eqn:Es; simpl; [|left; eexists; by split_and!].
  destruct (ci_open w) as [full|]; [left; eexists; split_and!; [done|by destruct full|done]|].
  destruct (transfer _ _ _ _ _ _) eqn:Et. right. by eexists _, _, _.
Qed.

(** Every other file is as it was. *)
Lemma fetch_elsewhere f w d r d' p :
  fetch f w d = (r, d') → p ≠ partial_path (fe_destination f) → p ≠ fe_destination f →
  d' !! p = d !! p.
Proof.
  intros Hf Hp Hd. pose proof (fetch_cases f w d) as Hx. rewrite Hf in Hx.
  destruct Hx as [(_ & _ & _ & ->)|(kept & response & resumed & _ & _ & _ & _ & Ht)]; [done|].
  set (base := if _ && _ then _ else _) in Ht.
  pose proof (transfer_cases f w resumed base (rs_chunks response) d) as Hy. rewrite <-Ht in Hy.
  destruct Hy as [(file & _ & _ & Hfin)|(e & added & _ & _ & _ & ->)].
  2:{ by rewrite lookup_insert_ne by congruence. }
  pose proof (finish_cases f w resumed file (<[partial_path (fe_destination f) := file]> d)) as Hc.
  rewrite <-Hfin in Hc. destruct r as [got|[]]; destruct_and?; subst d'; try case_match;
    by rewrite ?lookup_insert_ne, ?lookup_delete_ne, ?lookup_insert_ne by congruence.
Qed.

(** What an attempt leaves at the destination. *)
Lemma fetch_checked f w d :
  let '(r, d') := fetch f w d in
  match r with
  | Ok got =>
      require_https (fe_url f) = Ok tt ∧ d' !! partial_path (fe_destination f) = None ∧
      ∃ file, d' !! fe_destination f = Some file ∧
        fd_sha256 got = digest_of file ∧ fd_bytes got = blen file ∧
        (fd_verified got = true ↔ is_Some (fe_expected f)) ∧
        ∀ expected, fe_expected f = Some expected →
          eq_ignore_ascii_case (digest_of file) expected = true
  | Err err =>
      d' !! fe_destination f = d !! fe_destination f ∧
      ∀ expected actual, err = Corrupt expected actual → ci_remove w = true →
        d' !! partial_path (fe_destination f) = None
  end.
Proof.
  pose proof (partial_ne (fe_destination f)) as Hne. pose proof (fetch_cases f w d) as Hx.
  destruct (fetch f w d) as [r d'].
  destruct Hx as [(e & -> & He & ->)|(kept & response & resumed & Hh & _ & _ & _ & Ht)].
  { split; [done|]. intros x y ->. by destruct (He x y). }
  set (base := if _ && _ then _ else _) in Ht.
  pose proof (transfer_cases f w resumed base (rs_chunks response) d) as Hy. rewrite <-Ht in Hy.
  destruct Hy as [(file & _ & _ & Hfin)|(e & added & -> & He & _ & ->)].
  2:{ split; [by rewrite lookup_insert_ne|]. intros x y ->. by destruct (He x y). }
  pose proof (finish_cases f w resumed file (<[partial_path (fe_destination f) := file]> d)) as Hc.
  rewrite <-Hfin in Hc. destruct r as [got|[]]; destruct_and?; subst d'.
  { split_and!; [done|by simplify_map_eq|]. exists file. by rewrite lookup_insert_eq. }
  all: try case_match; rewrite ?lookup_delete_ne, ?lookup_insert_ne by done;
    (split; [done|]); try done; intros; by simplify_map_eq.
Qed.

(** What a download puts in place was checked.  A download that succeeds
    was made over https; the file now at its destination has the digest and the
    size it reports, and the digest that was asked for, in either case of
    letters; the partial file is gone.  One that fails leaves the destination
    as it was; and bytes that failed the check are not left for the next
    attempt to go on from, if they can be removed. *)
Theorem fetched_file_is_checked f w d :
  let '(r, d') := fetch f w d in
  match r with
  | Ok got =>
      require_https (fe_url f) = Ok tt ∧ d' !! partial_path (fe_destination f) = None ∧
      ∃ file, d' !! fe_destination f = Some file ∧
        fd_sha256 got = digest_of file ∧ fd_bytes got = blen file ∧
        (fd_verified got = true ↔ is_Some (fe_expected f)) ∧
        ∀ expected, fe_expected f = Some expected →
          eq_ignore_ascii_case (digest_of file) expected = true
  | Err err =>
      d' !! fe_destination f = d !! fe_destination f ∧
      ∀ expected actual, err = Corrupt expected actual → ci_remove w = true →
        d' !! partial_path (fe_destination f) = None
  end.
Proof. apply fetch_checked. Qed.

(** ** Going on from where it stopped *)

(** The server has [content] at this URL: it sends all of it, or, asked for
    what follows a byte, that; and it may break off at any point. *)
Definition serves (url : str) (content : list byte) : Prop :=
  ∀ from response, respond url from = Ok response → is_success (rs_status response) = true →
  let sent := if (0 <? from) && (rs_status response =? 206)
              then drop (Z.to_nat from) content else content in
  body (rs_chunks response) `prefix_of` sent ∧
  (whole_body (rs_chunks response) = true → body (rs_chunks response) = sent).

(** What an earlier attempt left is a beginning of it. *)
Definition resumable (f : Fetch) (content : list byte) (d : Disk) : Prop :=
  default [] (d !! partial_path (fe_destination f)) `prefix_of` content.

Lemma fetch_resumes f content w d r d' :
  serves (fe_url f) content → resumable f content d → fetch f w d = (r, d') →
  match r with
  | Ok got => d' !! fe_destination f = Some content ∧ fd_sha256 got = digest_of content
  | Err _ => resumable f content d' ∧ d' !! fe_destination f = d !! fe_destination f
  end.
Proof.
  intros Hs Hp Hf. pose proof (partial_ne (fe_destination f)) as Hne.
  pose proof (fetch_cases f w d) as Hx. rewrite Hf in Hx. clear Hf.
  destruct Hx as [(e & -> & _ & ->)|(kept & response & resumed & _ & Hk & Er & Esu & Ht)]; [done|].
  assert (Hkept : kept `prefix_of` content).
  { unfold rehash_partial in Hk. unfold resumable in Hp.
    destruct (ci_rehash w), (d !! _); simplify_eq/=; auto using prefix_nil. }
  destruct (Hs _ _ Er Esu) as (Hpre & Hwhole). cbv zeta in *.
  set (base := if _ && _ then [] else kept) in *. set (sent := if _ && _ then drop _ _ else _) in *.
  assert (Hsent : base ++ sent = content).
  { destruct Hkept as [more Hmore]. unfold sent, base, blen in *.
    destruct (Z.ltb_spec 0 (Z.of_nat (length kept))) as [Hlt|Hge]; simpl.
    - destruct (rs_status response =? 206); simpl; [|done].
      by rewrite Hmore, Nat2Z.id, drop_app_length.
    - destruct kept; [done|]. simpl in Hge. lia. }
  pose proof (transfer_cases f w resumed base (rs_chunks response) d) as Hy. rewrite <-Ht in Hy.
  destruct Hy as [(file & Hfile & Hw & Hfin)|(e & added & -> & _ & Hadd & ->)].
  - rewrite (Hwhole Hw), Hsent in Hfile. subst file.
    pose proof (finish_cases f w resumed content (<[partial_path (fe_destination f) := content]> d)) as Hc.
    rewrite <-Hfin in Hc.
    destruct r as [got|[]]; destruct_and?; subst d'; unfold resumable; try case_match;
      simplify_map_eq; (split; [|done]); auto using prefix_nil.
  - unfold resumable. simplify_map_eq. split; [|done]. rewrite <-Hsent. apply prefix_app.
    by etransitivity.
Qed.

(** Attempts at one download, until one succeeds. *)
Fixpoint attempts (f : Fetch) (ws : list Circumstances) (d : Disk) : option Fetched * Disk :=
  match ws with
  | [] => (None, d)
  | w :: ws =>
      match fetch f w d with
      | (Ok got, d) => (Some got, d)
      | (Err _, d) => attempts f ws d
      end
  end.

(** C34: however often a download is interrupted - refused its directory or its
    file, cancelled before any chunk, cut off by the server, out of space within
    a chunk or at the flush, unable to rename - the attempt that succeeds puts exactly the server's content in place, resumed
    or not; and until then the destination is as it was and what is left is
    the beginning of that content. *)
Theorem resumed_download_is_whole f content ws d got d' :
  serves (fe_url f) content → resumable f content d → attempts f ws d = (got, d') →
  match got with
  | Some got => d' !! fe_destination f = Some content ∧ fd_sha256 got = digest_of content
  | None => resumable f content d' ∧ d' !! fe_destination f = d !! fe_destination f
  end.
Proof.
  intros Hs. revert d. induction ws as [|w ws IH]; intros d Hp; simpl; [by intros [= <- <-]|].
  destruct (fetch f w d) as [[done|err] d1] eqn:Ef.
  - intros [= <- <-]. by apply (fetch_resumes _ _ _ _ _ _ Hs Hp Ef).
  - destruct (fetch_resumes _ _ _ _ _ _ Hs Hp Ef) as (Hp1 & Hd1). intros Ha.
    specialize (IH _ Hp1 Ha). by rewrite <-Hd1.
Qed.

(** A partial file that is already whole - the rename failed, or the process
    ended before it - is never put in place: a server that refuses the empty
    range fails every later attempt, and nothing changes. *)
Theorem whole_partial_is_stuck f content ws d :
  d !! partial_path (fe_destination f) = Some content →
  respond (fe_url f) (blen content) = Ok (mkResponse 416 []) →
  Forall (λ w, ci_rehash w ≠ RhUnopened) ws →
  attempts f ws d = (None, d).
Proof.
  intros Hp Hr Hws. induction Hws as [|w ws Hw _ IH]; [done|]. cbn [attempts].
  assert (∃ err, fetch f w d = (Err err, d)) as [err ->]; [|done].
  unfold fetch. destruct (require_https _); [|by eexists].
  destruct (ci_directory w); [by eexists|]. rewrite Hp. unfold rehash_partial.
  destruct (ci_rehash w) as [| |full|detail]; simpl; [rewrite Hr; simpl|done|..]; by eexists.
Qed.
End download.

(** ** A server *)

Definition demo_sha : Sha256 := fun bytes => bytes.

Definition served (content : list byte) (from : u64) : HttpResponse :=
  if 0 <? from
  then if from =? blen content then mkResponse 416 []
       else mkResponse 206 [Ok (drop (Z.to_nat from) content)]
  else mkResponse 200 [Ok (take 2 content); Ok (drop 2 content)].

Definition first_link : str := lit "https://one.example/model.gguf".
Definition second_link : str := lit "https://two.example/model.gguf".

Definition demo_server : Server := fun url from =>
  if bool_decide (url = first_link) then Ok (served [1; 2; 3; 4] from)
  else if bool_decide (url = second_link) then Ok (served [5; 6; 7; 8] from)
  else Err (lit "no such host").

Definition demo_fetch (url : str) : Fetch := mkFetch url (lit "/downloads/model.gguf") None.

(** Cancelled before the second chunk. *)
Definition cancelled_late : Circumstances :=
  mkCircumstances None RhReads None (fun i => (i =? 1)%nat) (fun _ => None) None true None.

Lemma resumed_download_is_whole_witness :
  ∃ got d', @attempts demo_sha demo_server (demo_fetch first_link) [cancelled_late; smooth] ∅
              = (Some got, d') ∧
    fd_resumed got = true ∧ d' !! lit "/downloads/model.gguf" = Some [1; 2; 3; 4] ∧
    fd_sha256 got = @digest_of demo_sha [1; 2; 3; 4].
Proof.
  eexists _, _. split; [vm_compute; reflexivity|]. split; [reflexivity|].
  eapply (@resumed_download_is_whole demo_sha demo_server (demo_fetch first_link) [1; 2; 3; 4]
    [cancelled_late; smooth] ∅ (Some _)).
  - intros from response [= <-]. unfold served.
    destruct (Z.ltb_spec 0 from) as [Hlt|Hge]; [destruct (Z.eqb_spec from 4) as [->|Hne]|].
    + done.
    + intros _. replace (from =? blen [1; 2; 3; 4]) with false by (symmetry; by apply Z.eqb_neq).
      simpl. by rewrite app_nil_r.
    + by intros _.
  - apply prefix_nil.
  - vm_compute. reflexivity.
Defined.

(** Two links to files of one name: what the first left is taken up by the
    second, and without a digest to check the mixture is put in place. *)
Theorem second_link_resumes_the_first :
  let '(first, d) := @fetch demo_sha demo_server (demo_fetch first_link) cancelled_late ∅ in
  let '(second, d) := @fetch demo_sha demo_server (demo_fetch second_link) smooth d in
  first = Err DlCancelled ∧ (∃ got, second = Ok got) ∧
  d !! lit "/downloads/model.gguf" = Some [1; 2; 7; 8].
Proof. vm_compute. split_and!; [done|by eexists|done]. Qed.
