(* ===== verification/Catalog.v ===== *)
(** * The models of a machine

    [crates/lightweight-core/src/ids.rs] (the names models are served under),
    and of [crates/lightweight-catalog/src]: [record.rs] (what is remembered of
    a model), [store.rs] (the catalog and its names), [manifest.rs] (the pinned
    models) and [error.rs].

    A [BTreeMap] is the list of its entries in key order.  A path is its text.
    Times come as arguments.  The catalog file is what the last save that
    worked wrote ([cs_file]); whether a save works is an argument. *)

From stdpp Require Import base gmap strings numbers list.
From S2P Require Import Prelude Names Net Frames Web Responses Float64 Estimator Metadata.
From S2P Require Import Generation Download.

(** ** Model ids *)

Record ModelId := mkModelId { mid : str }.

#[export] Instance ModelId_eq_dec : EqDecision ModelId.
Proof. solve_decision. Defined.

(** [str::rsplit_once]. *)
Definition rsplit_once (c : char) (s : str) : option (str * str) :=
  let! i := rposition c s in Some (take i s, drop (S i) s).

(** [str::strip_suffix] of a character. *)
Definition strip_suffix (c : char) (s : str) : option str :=
  match reverse s with
  | x :: rest => if x =? c then Some (reverse rest) else None
  | [] => None
  end.

Definition format_context (n_ctx : u32) : str :=
  if (1024 <=? n_ctx) && (n_ctx mod 1024 =? 0) then decimal (n_ctx / 1024) ++ lit "k"
  else decimal n_ctx.

Definition ModelId_with_context (slug : str) (n_ctx : u32) : ModelId :=
  mkModelId (slug ++ lit "@" ++ format_context n_ctx).

Definition parse_context (suffix : str) : option u32 :=
  let! tokens :=
    match strip_suffix 107 suffix with
    | Some kibi =>
        let! n := parse_unsigned U32_MAX kibi in
        if n * 1024 <=? U32_MAX then Some (n * 1024) else None
    | None => parse_unsigned U32_MAX suffix
    end in
  if 0 <? tokens then Some tokens else None.

Definition ModelId_slug (i : ModelId) : str :=
  match rsplit_once 64 (mid i) with
  | Some (slug, suffix) =>
      match parse_context suffix with Some _ => slug | None => mid i end
  | None => mid i
  end.

Definition ModelId_context (i : ModelId) : option u32 :=
  let! '(_, suffix) := rsplit_once 64 (mid i) in parse_context suffix.

(** ** Records *)

Inductive Integrity := ByManifest | ByPublished | BySupplied | Unverified | Imported.

#[export] Instance Integrity_eq_dec : EqDecision Integrity.
Proof. solve_decision. Defined.

Definition integrity_verified (i : Integrity) : bool :=
  match i with ByManifest | ByPublished | BySupplied => true | _ => false end.

Definition integrity_label (i : Integrity) : str :=
  match i with
  | ByManifest => lit "verified (pinned digest)"
  | ByPublished => lit "verified (published digest)"
  | BySupplied => lit "verified (digest you supplied)"
  | Unverified => lit "recorded, not verified"
  | Imported => lit "imported from this machine"
  end.

Inductive ModelSource :=
| FromImport (original_path : str)
| FromManifest (manifest_id url : str)
| FromLink (url : str).

Definition source_url (s : ModelSource) : option str :=
  match s with FromImport _ => None | FromManifest _ url | FromLink url => Some url end.

Record InstalledModel := mkInstalled {
  im_id : str;
  im_alias : option str;
  im_name : str;
  im_path : str;
  im_bytes : u64;
  im_sha256 : str;
  im_integrity : Integrity;
  im_source : ModelSource;
  im_architecture : str;
  im_supported : bool;
  im_param_count : option u64;
  im_quantization : option str;
  im_context_length : option u64;
  im_weight_bytes : option u64;
  im_added_at : u64;
  im_last_loaded_at : option u64;
  im_last_n_ctx : option u32 }.

(** [InstalledModel::new], at the time [now]. *)
Definition InstalledModel_new (id path : str) (bytes : u64) (sha256 : str) (integrity : Integrity)
    (source : ModelSource) (md : Extracted) (now : u64) : InstalledModel :=
  mkInstalled id None (default id (md_name md)) path bytes sha256 integrity source
    (architecture md) (supported md) (param_count md) (Some (quantization_label md))
    (md_context_length (model md)) (md_weight_bytes (model md)) now None None.

Definition with_alias (alias : option str) (m : InstalledModel) : InstalledModel :=
  mkInstalled (im_id m) alias (im_name m) (im_path m) (im_bytes m) (im_sha256 m)
    (im_integrity m) (im_source m) (im_architecture m) (im_supported m) (im_param_count m)
    (im_quantization m) (im_context_length m) (im_weight_bytes m) (im_added_at m)
    (im_last_loaded_at m) (im_last_n_ctx m).

Definition public_name (m : InstalledModel) : str := default (im_id m) (im_alias m).

Definition is_ours_to_delete (m : InstalledModel) : bool :=
  match im_source m with FromManifest _ _ | FromLink _ => true | FromImport _ => false end.

Definition mark_loaded (n_ctx : u32) (now : u64) (m : InstalledModel) : InstalledModel :=
  mkInstalled (im_id m) (im_alias m) (im_name m) (im_path m) (im_bytes m) (im_sha256 m)
    (im_integrity m) (im_source m) (im_architecture m) (im_supported m) (im_param_count m)
    (im_quantization m) (im_context_length m) (im_weight_bytes m) (im_added_at m)
    (Some now) (Some n_ctx).

(** [Path::file_stem]: the file name without what follows its last dot, when
    something precedes that dot. *)
Definition file_stem (path : str) : option str :=
  let! name := file_name path in
  match rposition DOT name with
  | Some i => if (i =? 0)%nat then Some name else Some (take i name)
  | None => Some name
  end.

Fixpoint trim_start_dashes (s : str) : str :=
  match s with
  | c :: s' => if c =? 45 then trim_start_dashes s' else s
  | [] => []
  end.

Definition slug_char (c : char) : char :=
  if is_ascii_alphanumeric c || (c =? 46) || (c =? 45) || (c =? 95) then ascii_lower c else 45.

Definition slug_for (path : str) : str :=
  let stem := default (lit "model") (file_stem path) in
  let trimmed := reverse (trim_start_dashes (reverse (trim_start_dashes (slug_char <$> stem)))) in
  if bool_decide (trimmed = []) then lit "model" else trimmed.

(** ** Errors *)

Inductive CatalogError :=
| UnknownModel (id : str)
| UnknownManifestModel (id : str)
| DuplicateModel (id : str)
| CeFileNotFound (path : str)
| NotAGguf (path : str)
| InUse (id : str)
| CatalogUnreadable (path : str)
| NotADigest (sha256 : str)
| InvalidAlias (alias : str) (problem : AliasProblem)
| AliasInUse (alias owner : str)
| AliasIsModelId (alias id : str)
| ModelIdIsAlias (id alias owner : str)
| CeDownload (e : DownloadError)
| CeIo (context : str).

Definition catalog_code (e : CatalogError) : str :=
  match e with
  | UnknownModel _ => lit "unknown_model"
  | UnknownManifestModel _ => lit "unknown_pinned_model"
  | DuplicateModel _ => lit "duplicate_model"
  | CeFileNotFound _ => lit "model_file_not_found"
  | NotAGguf _ => lit "not_a_gguf"
  | InUse _ => lit "model_in_use"
  | CatalogUnreadable _ => lit "catalog_unreadable"
  | NotADigest _ => lit "not_a_digest"
  | InvalidAlias _ _ => lit "invalid_alias"
  | AliasInUse _ _ => lit "alias_in_use"
  | AliasIsModelId _ _ => lit "alias_is_model_id"
  | ModelIdIsAlias _ _ _ => lit "model_id_is_alias"
  | CeDownload e => download_code e
  | CeIo _ => lit "io_error"
  end.

Definition catalog_kind (e : CatalogError) : ErrorKind :=
  match e with
  | UnknownModel _ | UnknownManifestModel _ | CeFileNotFound _ => KNotFound
  | DuplicateModel _ | NotAGguf _ | NotADigest _ | InvalidAlias _ _ | AliasInUse _ _
  | AliasIsModelId _ _ | ModelIdIsAlias _ _ _ | InUse _ => KInvalidRequest
  | CatalogUnreadable _ | CeIo _ => KInternal
  | CeDownload e => download_kind e
  end.

(** ** The catalog *)

Record CatalogStore := mkCatalog {
  cs_path : str;
  cs_models : list InstalledModel;
  cs_file : list InstalledModel }.

Definition set_models (l : list InstalledModel) (c : CatalogStore) : CatalogStore :=
  mkCatalog (cs_path c) l (cs_file c).

Definition in_memory : CatalogStore := mkCatalog [] [] [].

(** [BTreeMap::insert]. *)
Fixpoint put (m : InstalledModel) (l : list InstalledModel) : list InstalledModel :=
  match l with
  | [] => [m]
  | x :: l' =>
      match str_cmp (im_id m) (im_id x) with
      | Eq => m :: l'
      | Lt => m :: l
      | Gt => x :: put m l'
      end
  end.

(** [BTreeMap::remove]. *)
Definition cut (id : str) (l : list InstalledModel) : list InstalledModel :=
  List.filter (fun m => negb (bool_decide (im_id m = id))) l.

(** What a catalog file parses to: later records of an id win. *)
Definition catalog_open (path : str) (file : option (result (list InstalledModel) unit))
    : result CatalogStore CatalogError :=
  match file with
  | None => Ok (mkCatalog path [] [])
  | Some (Err _) => Err (CatalogUnreadable path)
  | Some (Ok models) => Ok (mkCatalog path (foldl (fun l m => put m l) [] models) models)
  end.

Definition catalog_get (c : CatalogStore) (id : str) : option InstalledModel :=
  find_first (fun m => bool_decide (im_id m = id)) (cs_models c).

Definition contains_id (c : CatalogStore) (id : str) : bool :=
  existsb (fun m => bool_decide (im_id m = id)) (cs_models c).

(** [get_mut] and the change made through it. *)
Definition alter (id : str) (f : InstalledModel → InstalledModel) (c : CatalogStore) : CatalogStore :=
  set_models ((fun m => if bool_decide (im_id m = id) then f m else m) <$> cs_models c) c.

Section names.
Context `{LowerCase}.

Definition holds_alias (name : str) (m : InstalledModel) : bool :=
  match im_alias m with Some held => same_name held name | None => false end.

Definition by_alias (c : CatalogStore) (alias : str) : option InstalledModel :=
  find_first (holds_alias alias) (cs_models c).

(** [CatalogStore::resolve]. *)
Definition catalog_resolve (c : CatalogStore) (name : str) : option InstalledModel :=
  match ModelSelector_parse (Some name) with
  | SelDefault => None
  | SelNamed name =>
      match by_alias c name with Some m => Some m | None => catalog_get c name end
  end.

Definition check_alias (c : CatalogStore) (raw : str) (for_id : option str)
    : result str CatalogError :=
  match validate_alias raw with
  | Err problem => Err (InvalidAlias raw problem)
  | Ok alias =>
      match find_first (fun m => same_name (im_id m) alias) (cs_models c) with
      | Some named => Err (AliasIsModelId alias (im_id named))
      | None =>
          match find_first (fun other => negb (bool_decide (Some (im_id other) = for_id))
                                         && holds_alias alias other) (cs_models c) with
          | Some owner => Err (AliasInUse alias (im_id owner))
          | None => Ok alias
          end
      end
  end.

Definition ensure_id_unaliased (c : CatalogStore) (id : str) : result unit CatalogError :=
  match find_first (fun m => negb (bool_decide (im_id m = id)) && holds_alias id m) (cs_models c) with
  | Some owner => Err (ModelIdIsAlias id (default [] (im_alias owner)) (im_id owner))
  | None => Ok tt
  end.

(** [CatalogStore::set_alias]. *)
Definition catalog_set_alias (c : CatalogStore) (id : str) (alias : option str)
    : result CatalogStore CatalogError :=
  if negb (contains_id c id) then Err (UnknownModel id)
  else
    match alias with
    | None => Ok (alter id (with_alias None) c)
    | Some raw =>
        match check_alias c raw (Some id) with
        | Err e => Err e
        | Ok alias => Ok (alter id (with_alias (Some alias)) c)
        end
    end.

Definition is_taken (c : CatalogStore) (name : str) : bool :=
  existsb (fun m => same_name (im_id m) name) (cs_models c)
  || bool_decide (is_Some (by_alias c name)).

(** The search of [free_id], over the suffixes from [n]. *)
Fixpoint free_suffix (fuel : nat) (c : CatalogStore) (base : str) (n : u32) : str :=
  match fuel with
  | O => base
  | S fuel =>
      let candidate := base ++ lit "-" ++ decimal n in
      if is_taken c candidate then free_suffix fuel c base (n + 1) else candidate
  end.

(** Each model takes at most two names: the fuel is enough of them. *)
Definition free_id (c : CatalogStore) (base : str) : str :=
  if negb (is_taken c base) then base
  else free_suffix (S (2 * length (cs_models c))) c base 2.
End names.

Definition by_digest (c : CatalogStore) (sha256 : str) : option InstalledModel :=
  find_first (fun m => eq_ignore_ascii_case (im_sha256 m) sha256) (cs_models c).

Definition catalog_insert (m : InstalledModel) (c : CatalogStore)
    : result CatalogStore CatalogError :=
  if contains_id c (im_id m) then Err (DuplicateModel (im_id m))
  else Ok (set_models (put m (cs_models c)) c).

Definition catalog_replace (m : InstalledModel) (c : CatalogStore) : CatalogStore :=
  set_models (put m (cs_models c)) c.

Definition catalog_remove (c : CatalogStore) (id : str)
    : result (InstalledModel * CatalogStore) CatalogError :=
  match catalog_get c id with
  | Some m => Ok (m, set_models (cut id (cs_models c)) c)
  | None => Err (UnknownModel id)
  end.

(** [save]; [works] is how writing the file goes.  Nothing is written of a
    catalog with no file behind it. *)
Definition catalog_save (works : bool) (c : CatalogStore) : result CatalogStore CatalogError :=
  if bool_decide (cs_path c = []) then Ok c
  else if works then Ok (mkCatalog (cs_path c) (cs_models c) (cs_models c))
  else Err (CeIo (lit "writing the catalog")).

(** ** The pinned models *)

Record CatalogModel := mkPinned {
  pn_id : str;
  pn_name : str;
  pn_repo : str;
  pn_file : str;
  pn_sha256 : str;
  pn_size : u64 }.

Definition pinned_url (m : CatalogModel) : str :=
  lit "https://huggingface.co/" ++ pn_repo m ++ lit "/resolve/main/" ++ pn_file m.

Definition PINNED_MODELS : list CatalogModel :=
  [mkPinned (lit "smollm2-135m-instruct-q4_k_m") (lit "SmolLM2 135M Instruct")
     (lit "bartowski/SmolLM2-135M-Instruct-GGUF") (lit "SmolLM2-135M-Instruct-Q4_K_M.gguf")
     (lit "2e8040ceae7815abe0dcb3540b9995eaa1fa0d2ca9e797d0a635ae4433c68c2d") 105454432;
   mkPinned (lit "lfm2-1.2b-q4_k_m") (lit "LFM2 1.2B")
     (lit "LiquidAI/LFM2-1.2B-GGUF") (lit "LFM2-1.2B-Q4_K_M.gguf")
     (lit "55175400e3f509a9616227afeffd58d87e80b9f628a5d3d54ada884d85221fed") 730893248;
   mkPinned (lit "qwen3-1.7b-q4_k_m") (lit "Qwen3 1.7B")
     (lit "bartowski/Qwen_Qwen3-1.7B-GGUF") (lit "Qwen_Qwen3-1.7B-Q4_K_M.gguf")
     (lit "72c5c3cb38fa32d5256e2fe30d03e7a64c6c79e668ad84057e3bd66e250b24fb") 1282439584;
   mkPinned (lit "gemma-3-1b-it-q4_k_m") (lit "Gemma 3 1B Instruct")
     (lit "unsloth/gemma-3-1b-it-GGUF") (lit "gemma-3-1b-it-Q4_K_M.gguf")
     (lit "8270790f3ab69fdfe860b7b64008d9a19986d8df7e407bb018184caa08798ebd") 806058272].

Definition pinned_by_id (id : str) : option CatalogModel :=
  find_first (fun m => bool_decide (pn_id m = id)) PINNED_MODELS.

Definition is_hex (c : char) : bool :=
  ((48 <=? c) && (c <=? 57)) || ((97 <=? c) && (c <=? 102)) || ((65 <=? c) && (c <=? 70)).

(** 64 hexadecimal digits. *)
Definition looks_like_sha256 (s : str) : bool := (length s =? 64)%nat && forallb is_hex s.

Definition is_recorded (m : CatalogModel) : bool :=
  (0 <? pn_size m) && looks_like_sha256 (pn_sha256 m).
