(* ===== verification/Install.v ===== *)
(** * Getting a model into the catalog

    [crates/lightweight-catalog/src/install.rs] and [hf.rs]: what a request to
    add a model comes to, the download and its move into the models directory,
    the scan of a file already here, and the record that is committed.

    The disk and the download are those of [Download].  What the host lists
    ([TreeEntry]), the canonical form of a path, how the move and the save go,
    and the time are arguments. *)

From stdpp Require Import base gmap strings numbers list.
From S2P Require Import Prelude Names Utf8 Net Frames Web Rewriter Keys Responses Float64 Estimator.
From S2P Require Import Gguf Metadata Catalog Download.

(** ** Links *)

Definition is_query (c : char) : bool := (c =? 63) || (c =? 35).

(** [url.split(['?', '#']).next()]. *)
Definition strip_query (url : str) : str := default [] (head (split_at_any is_query url)).

Definition split_once_at (sep s : str) : option (str * str) :=
  let! i := find s sep in Some (take i s, drop (i + length sep) s).

Definition file_name_from_url (url : str) : str :=
  let without_query := strip_query url in
  let after_scheme := match split_once_at (lit "://") without_query with
                      | Some (_, rest) => rest
                      | None => without_query
                      end in
  match split_once_at [SLASH] after_scheme with
  | None => lit "model.gguf"
  | Some (_, path) =>
      let name := trim (List.last (pieces path) []) in
      if bool_decide (name = []) || bool_decide (name = [DOT]) || bool_decide (name = [DOT; DOT])
         || existsb (fun c => (c =? SLASH) || (c =? 92)) name
      then lit "model.gguf" else name
  end.

Record ResolveLink := mkResolve { rl_repo : str; rl_revision : str; rl_path : str }.

Definition strip_prefix (prefix s : str) : option str :=
  if starts_with prefix s then Some (drop (length prefix) s) else None.

Definition parse_resolve_link (url : str) : option ResolveLink :=
  let! rest := strip_prefix (lit "https://") url in
  let! '(host, rest) := split_once_at [SLASH] rest in
  if negb (eq_ignore_ascii_case host (lit "huggingface.co")) then None
  else
    let parts := pieces (strip_query rest) in
    let! resolve_at := position_of (fun part => bool_decide (part = lit "resolve")) parts in
    if negb (resolve_at =? 2)%nat || (length parts <? resolve_at + 3)%nat then None
    else
      let repo := join_with [SLASH] (take 2 parts) in
      let! revision := parts !! (resolve_at + 1)%nat in
      let path := join_with [SLASH] (drop (resolve_at + 2) parts) in
      if bool_decide (repo = []) || bool_decide (revision = []) || bool_decide (path = []) then None
      else Some (mkResolve repo revision path).

Record TreeEntry := mkTreeEntry { te_path : str; te_lfs : option (str * u64) }.

(** [published_digest], of what the host lists. *)
Definition published_digest (tree : option (list TreeEntry)) (link : ResolveLink)
    : option (str * u64) :=
  let! entries := tree in
  let! entry := find_first (fun e => bool_decide (te_path e = rl_path link)) entries in
  let! '(oid, size) := te_lfs entry in
  if looks_like_sha256 oid then Some (oid, size) else None.

(** ** Plans *)

Inductive AddModel :=
| Pinned (id : str)
| Link (url : str) (sha256 : option str).

Record Plan := mkPlan {
  pl_id : str;
  pl_file_name : str;
  pl_url : str;
  pl_expected_sha256 : option str;
  pl_total_size : option u64;
  pl_integrity : Integrity;
  pl_source : ModelSource }.

Definition plan (listed : ResolveLink → option (list TreeEntry)) (request : AddModel)
    : result Plan CatalogError :=
  match request with
  | Pinned id =>
      match pinned_by_id id with
      | None => Err (UnknownManifestModel id)
      | Some m =>
          if negb (is_recorded m)
          then Err (UnknownManifestModel (id ++ lit " (its digest has not been recorded)"))
          else Ok (mkPlan (pn_id m) (pn_file m) (pinned_url m) (Some (pn_sha256 m))
                     (Some (pn_size m)) ByManifest (FromManifest (pn_id m) (pinned_url m)))
      end
  | Link url sha256 =>
      let url := trim url in
      match sha256 with
      | Some supplied =>
          if negb (looks_like_sha256 (trim supplied)) then Err (NotADigest (trim supplied))
          else
            let name := file_name_from_url url in
            Ok (mkPlan (slug_for name) name url (Some (ascii_lower <$> trim supplied)) None
                  BySupplied (FromLink (strip_query url)))
      | None =>
          let name := file_name_from_url url in
          let published := let! link := parse_resolve_link url in
                           published_digest (listed link) link in
          Ok (match published with
              | Some (digest, size) =>
                  mkPlan (slug_for name) name url (Some digest) (Some size) ByPublished
                    (FromLink (strip_query url))
              | None =>
                  mkPlan (slug_for name) name url None None Unverified (FromLink (strip_query url))
              end)
      end
  end.

(** ** The long phase *)

Record Scanned := mkScanned {
  sn_id : option str;
  sn_path : str;
  sn_bytes : u64;
  sn_sha256 : str;
  sn_integrity : Integrity;
  sn_source : ModelSource;
  sn_metadata : Extracted }.

Definition read_header (path : str) (d : Disk) : result Extracted CatalogError :=
  match d !! path with
  | None => Err (NotAGguf path)
  | Some bytes =>
      match (let? f := open bytes in from_file f (Some bytes)) with
      | Ok md => Ok md
      | Err _ => Err (NotAGguf path)
      end
  end.

(** How [rename] goes, and [copy] when it must: whether the staged file can then
    be removed, and how much of a destination that could be opened was written
    before the copy failed. *)
Inductive Move :=
| Renames
| Copies (removed : bool)
| CopyFails (written : option nat)
| RenameFails.

Definition move_into_place (m : Move) (staged destination : str) (d : Disk)
    : result unit CatalogError * Disk :=
  let copying := Err (CeIo (lit "copying the model to " ++ destination)) in
  match d !! staged, m with
  | Some bytes, Renames => (Ok tt, <[destination := bytes]> (delete staged d))
  | Some bytes, Copies removed =>
      (Ok tt, <[destination := bytes]> (if removed then delete staged d else d))
  | Some bytes, CopyFails (Some written) => (copying, <[destination := take written bytes]> d)
  | _, (Copies _ | CopyFails _) => (copying, d)
  | _, _ =>
      (Err (CeIo (lit "moving the verified model from " ++ staged ++ lit " to " ++ destination)), d)
  end.

(** What the system refuses of the rest: the two directories, and to remove a
    staged file that is no model. *)
Record Placing := mkPlacing {
  pc_downloads : bool;
  pc_models : bool;
  pc_removes : bool;
  pc_move : Move }.

Record Installer := mkInstaller { in_models_dir : str; in_downloads_dir : str }.

Section install.
Context `{LowerCase} `{Sha256} `{Server}.

(** [Installer::fetch]. *)
Definition installer_fetch (i : Installer) (p : Plan) (w : Circumstances) (m : Placing) (d : Disk)
    : result Scanned CatalogError * Disk :=
  if negb (pc_downloads m) then (Err (CeIo (lit "creating the downloads directory")), d)
  else if negb (pc_models m) then (Err (CeIo (lit "creating the models directory")), d)
  else
  let staged := path_join (in_downloads_dir i) (pl_file_name p) in
  match fetch (mkFetch (pl_url p) staged (pl_expected_sha256 p)) w d with
  | (Err e, d) => (Err (CeDownload e), d)
  | (Ok fetched, d) =>
      match read_header staged d with
      | Err e => (Err e, if pc_removes m then delete staged d else d)
      | Ok md =>
          let destination := path_join (in_models_dir i) (pl_file_name p) in
          match move_into_place (pc_move m) staged destination d with
          | (Err e, d) => (Err e, d)
          | (Ok _, d) =>
              (Ok (mkScanned (Some (pl_id p)) destination (fd_bytes fetched) (fd_sha256 fetched)
                     (pl_integrity p) (pl_source p) md), d)
          end
      end
  end.

(** [Installer::scan_local]. *)
Definition scan_local (canonical : str → option str) (path : str) (d : Disk)
    : result Scanned CatalogError :=
  match d !! path with
  | None => Err (CeFileNotFound path)
  | Some _ =>
      match canonical path with
      | None => Err (CeIo (lit "resolving the model's path"))
      | Some path =>
          match d !! path with
          | None => Err (CeDownload (DlIo (lit "reading the file's size")))
          | Some bytes =>
              match read_header path d with
              | Err e => Err e
              | Ok md => Ok (mkScanned None path (blen bytes) (digest_of bytes) Imported
                               (FromImport path) md)
              end
          end
      end
  end.

(** [Installer::already_installed]. *)
Definition already_installed (c : CatalogStore) (p : Plan) (d : Disk) : option InstalledModel :=
  let! expected := pl_expected_sha256 p in
  let! existing := catalog_get c (pl_id p) in
  if bool_decide (is_Some (d !! im_path existing))
     && eq_ignore_ascii_case (im_sha256 existing) expected
  then Some existing else None.

(** [Installer::commit]. *)
Definition commit (saves : bool) (now : u64) (c : CatalogStore) (s : Scanned)
    : result InstalledModel CatalogError * CatalogStore :=
  let record id := InstalledModel_new id (sn_path s) (sn_bytes s) (sn_sha256 s) (sn_integrity s)
                     (sn_source s) (sn_metadata s) now in
  match sn_id s with
  | None =>
      match by_digest c (sn_sha256 s) with
      | Some existing => (Ok existing, c)
      | None =>
          let r := record (free_id c (slug_for (sn_path s))) in
          match catalog_insert r c with
          | Err e => (Err e, c)
          | Ok c =>
              match catalog_save saves c with Ok c => (Ok r, c) | Err e => (Err e, c) end
          end
      end
  | Some id =>
      match ensure_id_unaliased c id with
      | Err e => (Err e, c)
      | Ok _ =>
          let r := with_alias (let! old := catalog_get c id in im_alias old) (record id) in
          let c := catalog_replace r c in
          match catalog_save saves c with Ok c => (Ok r, c) | Err e => (Err e, c) end
      end
  end.

(** [Installer::add]. *)
Definition add (i : Installer) (listed : ResolveLink → option (list TreeEntry))
    (request : AddModel) (w : Circumstances) (m : Placing) (saves : bool) (now : u64)
    (c : CatalogStore) (d : Disk) : result InstalledModel CatalogError * CatalogStore * Disk :=
  match plan listed request with
  | Err e => (Err e, c, d)
  | Ok p =>
      match ensure_id_unaliased c (pl_id p) with
      | Err e => (Err e, c, d)
      | Ok _ =>
          match already_installed c p d with
          | Some existing => (Ok existing, c, d)
          | None =>
              match installer_fetch i p w m d with
              | (Err e, d) => (Err e, c, d)
              | (Ok scanned, d) => let '(r, c) := commit saves now c scanned in (r, c, d)
              end
          end
      end
  end.

(** [Installer::import]. *)
Definition import (canonical : str → option str) (path : str) (saves : bool) (now : u64)
    (c : CatalogStore) (d : Disk) : result InstalledModel CatalogError * CatalogStore :=
  match scan_local canonical path d with
  | Err e => (Err e, c)
  | Ok scanned => commit saves now c scanned
  end.
End install.

Example links_read :
  file_name_from_url <$> (lit <$> ["https://a.b/x/model.gguf?download=true"; "https://a.b";
                           "https://a.b/"; "https://a.b/x/../.."; "https://a.b/c\d"; "a/b c.gguf#f"]%string)
  = lit <$> ["model.gguf"; "model.gguf"; "model.gguf"; "model.gguf"; "model.gguf"; "b c.gguf"]%string.
Proof. vm_compute. reflexivity. Qed.
