(* ===== verification/CatalogTheorems.v ===== *)
(** * Properties of the catalog

    The names models are served under say what they were loaded with; no name
    of the catalog means two models, whatever is added, named, renamed and
    removed; what is added is what was promised; and a link cannot name a file
    outside the models directory. *)

From Stdlib Require Import Sorted.
From stdpp Require Import base gmap strings numbers pretty list.
From S2P Require Import Prelude Names Utf8 Net Frames Web Rewriter Keys Responses Float64 Estimator.
From S2P Require Import Metadata MetadataTheorems Catalog Download Install.

(** ** Numbers in texts *)

Definition digit_char (d : Z) : char := 48 + d.

Lemma lit_pretty_char n : (n < 10)%N → lit (String (pretty_N_char n) "") = [digit_char (Z.of_N n)].
Proof. intros Hn. assert (n ∈ [0;1;2;3;4;5;6;7;8;9])%N as Hin by (rewrite !elem_of_cons; lia). set_solver. Qed.

Lemma lit_cons c s : lit (String c s) = lit (String c "") ++ lit s.
Proof. done. Qed.

(** The digits of a number, most significant first. *)
Lemma pretty_digits n s : ∃ ds,
  lit (pretty_N_go n s) = (digit_char <$> ds) ++ lit s ∧
  Forall (λ d, 0 ≤ d < 10) ds ∧ of_digits 10 ds = Z.of_N n ∧ ((0 < n)%N → ds ≠ []).
Proof.
  revert s. induction (N.lt_wf_0 n) as [n _ IH]; intros s.
  destruct (decide (n = 0)%N) as [->|Hn].
  { exists []. by rewrite pretty_N_go_0. }
  rewrite pretty_N_go_step by lia.
  destruct (IH (n `div` 10)%N ltac:(apply N.div_lt; lia) (String (pretty_N_char (n `mod` 10)) s))
    as (ds & -> & Hds & Hn' & _).
  pose proof (N.mod_lt n 10 ltac:(lia)) as Hmod.
  exists (ds ++ [Z.of_N (n `mod` 10)]). split_and!.
  - rewrite lit_cons, lit_pretty_char by done. by rewrite fmap_app, <-app_assoc.
  - apply Forall_app. split; [done|]. constructor; [|done].
    clear -Hmod. revert Hmod. generalize (n `mod` 10)%N. lia.
  - unfold of_digits in *. rewrite foldl_app, Hn'. simpl.
    pose proof (N.div_mod n 10 ltac:(lia)) as Hdm. revert Hdm.
    generalize (n `div` 10)%N (n `mod` 10)%N. lia.
  - intros _ Hnil. by apply app_nil in Hnil as [_ ?].
Qed.

Lemma decimal_digits n : 0 ≤ n → ∃ ds,
  decimal n = digit_char <$> ds ∧ Forall (λ d, 0 ≤ d < 10) ds ∧ of_digits 10 ds = n ∧ ds ≠ [].
Proof.
  intros Hn. unfold decimal. destruct n as [|p|p]; [|change (pretty (Zpos p)) with (pretty (Npos p))|lia].
  - exists [0]. split_and!; [done|by repeat constructor|done|done].
  - destruct (pretty_digits (Npos p) "") as (ds & Hl & Hd & Hv & Hne).
    exists ds. unfold pretty, pretty_N. destruct (decide (N.pos p = 0%N)); [done|].
    rewrite Hl. simpl. rewrite app_nil_r. split_and!; [done|done|done|by apply Hne].
Qed.

Lemma read_digits_chars ds rest :
  Forall (λ d, 0 ≤ d < 10) ds → (∀ c, head rest = Some c → to_digit 10 c = None) →
  read_digits 10 ((digit_char <$> ds) ++ rest) = (ds, rest).
Proof.
  intros Hds Hr. induction Hds as [|d ds Hd Hds IH].
  - simpl. destruct rest as [|c rest]; simpl; [done|]. by rewrite Hr.
  - rewrite fmap_cons, <-app_comm_cons. cbn [read_digits].
    assert (to_digit 10 (digit_char d) = Some d) as ->; [|by rewrite IH].
    unfold to_digit, digit_char. replace ((48 <=? 48 + d) && (48 + d <=? 57)) with true by lia.
    replace (48 + d - 48) with d by lia. by replace (d <? 10) with true by lia.
Qed.

Lemma parse_unsigned_plain bound c s :
  c ≠ 43 → parse_unsigned bound (c :: s) = whole (read_number 10 bound None true (c :: s)).
Proof.
  intros Hc. unfold parse_unsigned. destruct c as [|p|p]; try done.
  do 6 (destruct p as [p|p|]; try done).
Qed.

Lemma parse_decimal bound n : 0 ≤ n ≤ bound → parse_unsigned bound (decimal n) = Some n.
Proof.
  intros Hn. destruct (decimal_digits n) as (ds & -> & Hds & Hv & Hne); [lia|].
  destruct ds as [|d ds]; [done|]. rewrite fmap_cons, parse_unsigned_plain.
  2:{ inversion Hds. unfold digit_char. lia. }
  rewrite <-fmap_cons. unfold read_number. rewrite <-(app_nil_r (digit_char <$> (d :: ds))).
  rewrite (read_digits_chars (d :: ds) []) by done. rewrite bool_decide_eq_false_2 by done. simpl.
  change (foldl (λ n d, n * 10 + d) (0 * 10 + d) ds) with (of_digits 10 (d :: ds)).
  rewrite Hv. by replace (bound <? n) with false by lia.
Qed.

(** ** Model ids *)

Lemma decimal_plain n c : 0 ≤ n → c ∈ decimal n → 48 ≤ c ≤ 57.
Proof.
  intros Hn. destruct (decimal_digits n Hn) as (ds & -> & Hds & _).
  intros (d & -> & Hd)%list_elem_of_fmap. rewrite Forall_forall in Hds. specialize (Hds d Hd).
  unfold digit_char. lia.
Qed.

Lemma strip_suffix_snoc c s : strip_suffix c (s ++ [c]) = Some s.
Proof. unfold strip_suffix. rewrite reverse_app. simpl. by rewrite Z.eqb_refl, reverse_involutive. Qed.

Lemma strip_suffix_none c s : c ∉ s → strip_suffix c s = None.
Proof.
  intros Hc. unfold strip_suffix. destruct (reverse s) as [|x r] eqn:E; [done|].
  destruct (Z.eqb_spec x c) as [->|]; [|done]. exfalso. apply Hc, elem_of_reverse. rewrite E. by left.
Qed.

Lemma parse_format_context n : 0 < n ≤ U32_MAX → parse_context (format_context n) = Some n.
Proof.
  intros Hn. unfold parse_context, format_context.
  destruct (Z.leb_spec 1024 n) as [Hk|Hk]; simpl; [destruct (Z.eqb_spec (n mod 1024) 0) as [Hm|Hm]|].
  - rewrite strip_suffix_snoc. pose proof (Z.div_mod n 1024 ltac:(done)).
    rewrite parse_decimal by (unfold U32_MAX in *; lia). simpl.
    replace (n / 1024 * 1024) with n by lia. replace (n <=? U32_MAX) with true by lia. simpl.
    by replace (0 <? n) with true by lia.
  - rewrite strip_suffix_none, parse_decimal by (try lia; intros ?%decimal_plain; lia). simpl.
    by replace (0 <? n) with true by lia.
  - rewrite strip_suffix_none, parse_decimal by (try lia; intros ?%decimal_plain; lia). simpl.
    by replace (0 <? n) with true by lia.
Qed.

Lemma format_plain n c : 0 ≤ n → c ∈ format_context n → c ≠ 64.
Proof.
  intros Hn. unfold format_context. case_match.
  - rewrite elem_of_app. intros [Hc| ->%list_elem_of_singleton]; [|done].
    apply decimal_plain in Hc; [lia|]. apply Z.div_pos; lia.
  - intros Hc%decimal_plain; lia.
Qed.

Lemma find_skip c b s : c ∉ b → find (b ++ c :: s) [c] = Some (length b).
Proof.
  intros Hc. induction b as [|x b IH]; simpl.
  - by rewrite Z.eqb_refl.
  - destruct (Z.eqb_spec c x) as [->|]; simpl; [set_solver|]. rewrite IH by set_solver. done.
Qed.

Lemma rsplit_once_last c a b : c ∉ b → rsplit_once c (a ++ c :: b) = Some (a, b).
Proof.
  intros Hc. unfold rsplit_once, rposition.
  rewrite reverse_app, reverse_cons, <-app_assoc. simpl.
  rewrite find_skip by by rewrite elem_of_reverse. simpl.
  rewrite length_reverse, length_app. simpl.
  replace (length a + S (length b) - 1 - length b)%nat with (length a) by lia.
  rewrite take_app_length, cons_middle, app_assoc.
  replace (S (length a)) with (length (a ++ [c])) by (rewrite length_app; simpl; lia).
  by rewrite drop_app_length.
Qed.

(** A model id says what it was loaded with: the slug and the context it
    was built from are read back from it, for every slug - one with an [@] of
    its own too - and every context, and so the same model at two contexts has
    two ids. *)
Theorem model_id_roundtrip slug n :
  0 < n ≤ U32_MAX →
  ModelId_slug (ModelId_with_context slug n) = slug ∧
  ModelId_context (ModelId_with_context slug n) = Some n ∧
  ∀ n', 0 < n' ≤ U32_MAX → ModelId_with_context slug n' = ModelId_with_context slug n → n' = n.
Proof.
  assert (Hsplit : ∀ n, 0 < n ≤ U32_MAX →
    rsplit_once 64 (mid (ModelId_with_context slug n)) = Some (slug, format_context n)).
  { intros m Hm. apply (rsplit_once_last 64 slug (format_context m)).
    intros Hin. apply (format_plain m 64) in Hin; [done|lia]. }
  assert (Hc : ∀ n, 0 < n ≤ U32_MAX → ModelId_context (ModelId_with_context slug n) = Some n).
  { intros m Hm. unfold ModelId_context. rewrite Hsplit by done. by apply parse_format_context. }
  intros Hn. split_and!.
  - unfold ModelId_slug. by rewrite Hsplit, parse_format_context.
  - by apply Hc.
  - intros n' Hn' He. apply (f_equal ModelId_context) in He. rewrite !Hc in He by done. congruence.
Qed.

Lemma model_id_roundtrip_witness :
  ModelId_with_context (lit "team@lab") 8192 = mkModelId (lit "team@lab@8k") ∧
  ModelId_slug (ModelId_with_context (lit "team@lab") 8192) = lit "team@lab".
Proof.
  split; [reflexivity|]. apply (model_id_roundtrip (lit "team@lab") 8192). by vm_compute.
Defined.

(** ** The records in order *)

(** What a Rust string holds. *)
Definition text (s : str) : Prop := Forall (λ c, is_char c = true) s.

Definition id_lt (m m' : InstalledModel) : Prop := str_cmp (im_id m) (im_id m') = Lt.

Lemma str_cmp_refl a : str_cmp a a = Eq.
Proof. unfold str_cmp. by apply bytes_cmp_Eq. Qed.

Lemma bytes_cmp_antisym a b : bytes_cmp b a = CompOpp (bytes_cmp a b).
Proof.
  revert b. induction a as [|x a IH]; intros [|y b]; simpl; try done.
  rewrite (Z.compare_antisym x y). destruct (x ?= y); simpl; [apply IH|done..].
Qed.

Lemma id_lt_trans m1 m2 m3 : id_lt m1 m2 → id_lt m2 m3 → id_lt m1 m3.
Proof. intros H1 H2. unfold id_lt, str_cmp in *. eapply bytes_cmp_trans; [done|by rewrite H2]. Qed.

Lemma put_elem m l x :
  StronglySorted id_lt l → text (im_id m) → Forall (λ y, text (im_id y)) l →
  x ∈ put m l ↔ x = m ∨ (x ∈ l ∧ im_id x ≠ im_id m).
Proof.
  intros Hs Hm Ht. induction l as [|y l IH]; simpl.
  { rewrite list_elem_of_singleton. set_solver. }
  apply StronglySorted_inv in Hs as [Hs Hy]. inversion Ht as [|? ? Hty Htl]; subst.
  assert (Hlater : ∀ z, z ∈ l → str_cmp (im_id m) (im_id y) ≠ Gt → im_id z ≠ im_id m).
  { intros z Hz Hmy He. rewrite Forall_forall in Hy. specialize (Hy z Hz). unfold id_lt in Hy.
    rewrite He in Hy. unfold str_cmp in *. rewrite bytes_cmp_antisym in Hy.
    by destruct (bytes_cmp _ _). }
  destruct (str_cmp (im_id m) (im_id y)) eqn:E.
  - apply str_cmp_Eq in E as He; [|done..]. rewrite !elem_of_cons. split.
    + intros [->|Hx]; [by left|right]. split; [by right|]. by apply Hlater.
    + intros [->|[[->|Hx] Hne]]; [by left|by destruct Hne|by right].
  - rewrite !elem_of_cons. split.
    + intros [->|[->|Hx]]; [by left|right..].
      * split; [by left|]. intros He. by rewrite He, str_cmp_refl in E.
      * split; [by right|]. by apply Hlater.
    + intros [->|[[->|Hx] Hne]]; auto.
  - rewrite !elem_of_cons, IH by done. split.
    + intros [->|[->|[Hx Hne]]]; [right|by left|right; by auto].
      split; [by left|]. intros He. by rewrite He, str_cmp_refl in E.
    + intros [->|[[->|Hx] Hne]]; auto.
Qed.

Lemma put_sorted m l :
  StronglySorted id_lt l → text (im_id m) → Forall (λ y, text (im_id y)) l →
  StronglySorted id_lt (put m l).
Proof.
  intros Hs Hm Ht. induction l as [|y l IH]; simpl; [by repeat constructor|].
  apply StronglySorted_inv in Hs as [Hs Hy]. inversion Ht as [|? ? Hty Htl]; subst.
  destruct (str_cmp (im_id m) (im_id y)) eqn:E.
  - apply str_cmp_Eq in E; [|done..]. constructor; [done|].
    eapply Forall_impl; [exact Hy|]. intros z Hz. unfold id_lt in *. by rewrite E.
  - constructor; [by constructor|]. constructor; [done|].
    eapply Forall_impl; [exact Hy|]. intros z Hz. by eapply id_lt_trans.
  - constructor; [by apply IH|]. rewrite Forall_forall in Hy |- *.
    intros x [->|[Hx _]]%put_elem; [|by apply Hy|done..].
    unfold id_lt, str_cmp in *. by rewrite bytes_cmp_antisym, E.
Qed.

Lemma sorted_same_id l m m' :
  StronglySorted id_lt l → m ∈ l → m' ∈ l → im_id m = im_id m' → m = m'.
Proof.
  intros Hs. induction Hs as [|x l Hs IH Hx]; [set_solver|].
  rewrite Forall_forall in Hx. intros Hm Hm' He.
  assert (Hno : ∀ z, z ∈ l → im_id z ≠ im_id x).
  { intros z Hz Hzx. specialize (Hx z Hz). unfold id_lt in Hx. by rewrite Hzx, str_cmp_refl in Hx. }
  apply elem_of_cons in Hm as [->|Hm], Hm' as [->|Hm']; [done| | |by apply IH].
  - by destruct (Hno m').
  - by destruct (Hno m).
Qed.

Lemma sorted_filter p l : StronglySorted id_lt l → StronglySorted id_lt (List.filter p l).
Proof.
  induction 1 as [|x l Hs IH Hx]; simpl; [constructor|]. destruct (p x); [|done].
  constructor; [done|]. rewrite Forall_forall in Hx |- *. intros y Hy. apply Hx.
  by apply list_elem_of_In, filter_In in Hy as [?%list_elem_of_In _].
Qed.

(** ** One name, one model *)

Section names.
Context `{LowerCase}.

Lemma same_name_spec a b : same_name a b = true ↔ lookup_key a = lookup_key b.
Proof. unfold same_name. apply bool_decide_eq_true. Qed.

Lemma same_name_false a b : same_name a b = false ↔ lookup_key a ≠ lookup_key b.
Proof. unfold same_name. apply bool_decide_eq_false. Qed.

(** No alias is an id, in any case of letters, and no two models share one. *)
Record Named (l : list InstalledModel) : Prop := {
  nm_sorted : StronglySorted id_lt l;
  nm_text : Forall (λ m, text (im_id m)) l;
  nm_ids m m' a : m ∈ l → m' ∈ l → im_alias m = Some a → lookup_key (im_id m') ≠ lookup_key a;
  nm_aliases m m' a a' : m ∈ l → m' ∈ l → im_alias m = Some a → im_alias m' = Some a' →
    lookup_key a = lookup_key a' → m = m' }.

Lemma Named_nil : Named [].
Proof. split; [constructor|constructor|set_solver|set_solver]. Qed.

Lemma Named_filter p l : Named l → Named (List.filter p l).
Proof.
  intros [Hs Ht Hi Ha].
  assert (Hin : ∀ m, m ∈ List.filter p l → m ∈ l).
  { intros m Hm. apply list_elem_of_In, filter_In in Hm as [? _]. by apply list_elem_of_In. }
  split; [by apply sorted_filter| |eauto|eauto].
  rewrite Forall_forall in Ht |- *. auto.
Qed.

(** A change that keeps ids, and keeps the alias or gives one record another. *)
Lemma Named_fmap f l :
  Named l → (∀ m, im_id (f m) = im_id m) →
  (∀ m m' a, m ∈ l → m' ∈ l → im_alias (f m) = Some a → lookup_key (im_id m') ≠ lookup_key a) →
  (∀ m m' a a', m ∈ l → m' ∈ l → im_alias (f m) = Some a → im_alias (f m') = Some a' →
     lookup_key a = lookup_key a' → m = m') →
  Named (f <$> l).
Proof.
  intros [Hs Ht _ _] Hid Hi Ha. split.
  - clear -Hs Hid. induction Hs as [|x l Hs IH Hx]; [constructor|]. rewrite fmap_cons.
    constructor; [done|]. rewrite Forall_fmap. eapply Forall_impl; [exact Hx|].
    intros y Hy. unfold id_lt in *. simpl. by rewrite !Hid.
  - rewrite Forall_fmap. eapply Forall_impl; [exact Ht|]. intros y Hy. simpl. by rewrite Hid.
  - intros m m' a (x & -> & Hx)%list_elem_of_fmap (x' & -> & Hx')%list_elem_of_fmap Hm.
    rewrite Hid. by eapply (Hi x x').
  - intros m m' a a' (x & -> & Hx)%list_elem_of_fmap (x' & -> & Hx')%list_elem_of_fmap Hm Hm' He.
    f_equal. by eapply Ha.
Qed.

Lemma Named_mark id n now l :
  Named l → Named ((λ m, if bool_decide (im_id m = id) then mark_loaded n now m else m) <$> l).
Proof.
  intros Hn.
  assert (Hal : ∀ m, im_alias (if bool_decide (im_id m = id) then mark_loaded n now m else m) = im_alias m)
    by (intros m; by case_bool_decide).
  apply Named_fmap; [done|..].
  - intros m. by case_bool_decide.
  - intros m m' a Hm Hm' Ha. rewrite Hal in Ha. by eapply (nm_ids _ Hn m m').
  - intros m m' a a' Hm Hm' Ha Ha' He. rewrite Hal in Ha, Ha'. by eapply nm_aliases.
Qed.

Lemma Named_set_alias id alias l :
  Named l →
  (∀ a, alias = Some a →
     (∀ m, m ∈ l → lookup_key (im_id m) ≠ lookup_key a) ∧
     (∀ m a', m ∈ l → im_id m ≠ id → im_alias m = Some a' → lookup_key a' ≠ lookup_key a)) →
  Named ((λ m, if bool_decide (im_id m = id) then with_alias alias m else m) <$> l).
Proof.
  intros Hn Hok. apply Named_fmap; [done|..].
  - intros m. by case_bool_decide.
  - intros m m' a Hm Hm'. case_bool_decide; simpl; [|by apply Hn].
    intros ->. by apply (proj1 (Hok a eq_refl)).
  - intros m m' a a' Hm Hm'. case_bool_decide as E; case_bool_decide as E'; simpl.
    + intros _ _ _. eapply sorted_same_id; [by apply Hn|done|done|congruence].
    + intros -> Ha' He. destruct (Hok a eq_refl) as [_ Hk]. by destruct (Hk m' a' Hm' E' Ha').
    + intros Ha -> He. destruct (Hok a' eq_refl) as [_ Hk]. by destruct (Hk m a Hm E Ha).
    + by apply Hn.
Qed.

(** A record put in the place of the one of its id, or in a place of its own. *)
Lemma Named_put r l :
  Named l → text (im_id r) →
  (∀ m a, m ∈ l → im_id m ≠ im_id r → im_alias m = Some a → lookup_key (im_id r) ≠ lookup_key a) →
  (∀ a, im_alias r = Some a → ∃ old, old ∈ l ∧ im_id old = im_id r ∧ im_alias old = Some a) →
  Named (put r l).
Proof.
  intros Hn Hr Hfree Hold. pose proof Hn as [Hs Ht Hi Ha].
  assert (Hin : ∀ x, x ∈ put r l ↔ x = r ∨ (x ∈ l ∧ im_id x ≠ im_id r)) by (intros; by apply put_elem).
  split.
  - by apply put_sorted.
  - rewrite Forall_forall in Ht |- *. intros x [->|[Hx _]]%Hin; auto.
  - intros m m' a [->|[Hm Hne]]%Hin [->|[Hm' Hne']]%Hin Ham.
    + destruct (Hold a Ham) as (old & Ho & Hid & Hoa). rewrite <-Hid. by eapply (Hi old old).
    + destruct (Hold a Ham) as (old & Ho & Hid & Hoa). by eapply (Hi old m').
    + by eapply (Hfree m).
    + by eapply (Hi m m').
  - intros m m' a a' [->|[Hm Hne]]%Hin [->|[Hm' Hne']]%Hin Ham Ham' He; [done| | |by eapply Ha].
    + destruct (Hold a Ham) as (old & Ho & Hid & Hoa). destruct Hne'.
      by rewrite <-(Ha old m' a a' Ho Hm' Hoa Ham' He).
    + destruct (Hold a' Ham') as (old & Ho & Hid & Hoa). destruct Hne.
      by rewrite (Ha m old a a' Hm Ho Ham Hoa He).
Qed.

(** ** Ids we choose *)

(** What lower-casing does to ASCII. *)
Class LowerAscii : Prop :=
  lower_ascii s : Forall (λ c, 0 ≤ c < 128) s → to_lowercase s = ascii_lower <$> s.

(** The characters of a slug. *)
Definition slugged (c : char) : Prop :=
  48 ≤ c ≤ 57 ∨ 97 ≤ c ≤ 122 ∨ c = 46 ∨ c = 45 ∨ c = 95.

Lemma slug_char_slugged c : slugged (slug_char c).
Proof.
  unfold slug_char, slugged, is_ascii_alphanumeric, ascii_lower.
  repeat match goal with |- context [?a <=? ?b] => destruct (Z.leb_spec a b) end; simpl;
  repeat match goal with |- context [?a =? ?b] => destruct (Z.eqb_spec a b) end; simpl; try lia;
  repeat match goal with |- context [?a <=? ?b] => destruct (Z.leb_spec a b) end; simpl; lia.
Qed.

Lemma trim_start_dashes_sub s c : c ∈ trim_start_dashes s → c ∈ s.
Proof.
  induction s as [|x s IH]; simpl; [done|]. destruct (x =? 45); [|done]. intros ?%IH. by right.
Qed.

Lemma slug_for_slugged path : Forall slugged (slug_for path).
Proof.
  unfold slug_for. set (s := slug_char <$> _). assert (Hs : Forall slugged s).
  { unfold s. apply Forall_fmap, Forall_true. apply slug_char_slugged. }
  clearbody s. case_bool_decide.
  - unfold slugged. vm_compute (lit "model"). repeat constructor; lia.
  - rewrite Forall_forall in Hs |- *. intros c Hc. apply Hs. rewrite elem_of_reverse in Hc.
    apply trim_start_dashes_sub in Hc. rewrite elem_of_reverse in Hc. by apply trim_start_dashes_sub.
Qed.

Lemma slugged_text s : Forall slugged s → text s.
Proof.
  intros Hs. eapply Forall_impl; [exact Hs|]. intros c Hc. unfold slugged, is_char in *. lia.
Qed.

Lemma slugged_not_space c : slugged c → is_whitespace c = false.
Proof. unfold slugged, is_whitespace. lia. Qed.

Lemma trim_start_plain s : Forall slugged s → trim_start s = s.
Proof. destruct 1 as [|c s Hc _]; simpl; [done|]. by rewrite slugged_not_space. Qed.

Lemma trim_plain s : Forall slugged s → trim s = s.
Proof.
  intros Hs. unfold trim. rewrite (trim_start_plain s Hs), trim_start_plain by by apply Forall_reverse.
  apply reverse_involutive.
Qed.

Lemma lookup_key_plain `{!LowerAscii} s : Forall slugged s → lookup_key s = s.
Proof.
  intros Hs. unfold lookup_key. rewrite trim_plain, lower_ascii by
    (done || (eapply Forall_impl; [exact Hs|unfold slugged; lia])).
  induction Hs as [|c s Hc _ IH]; [done|]. rewrite fmap_cons, IH. f_equal.
  unfold ascii_lower. unfold slugged in Hc. by replace ((65 <=? c) && (c <=? 90)) with false by lia.
Qed.

(** The keys that are taken. *)
Definition taken_keys (l : list InstalledModel) : list str :=
  (lookup_key ∘ im_id <$> l) ++ omap (λ m, lookup_key <$> im_alias m) l.

Lemma length_taken l : (length (taken_keys l) ≤ 2 * length l)%nat.
Proof.
  unfold taken_keys. rewrite length_app, length_fmap.
  assert (length (omap (λ m, lookup_key <$> im_alias m) l) ≤ length l)%nat; [|lia].
  induction l as [|m l IH]; [done|]. cbn. destruct (im_alias m); cbn; [by apply le_n_S|by apply le_S].
Qed.

Lemma is_taken_spec c name : is_taken c name = true ↔ lookup_key name ∈ taken_keys (cs_models c).
Proof.
  unfold is_taken, taken_keys. rewrite orb_true_iff, elem_of_app, list_elem_of_fmap, list_elem_of_omap.
  rewrite existsb_exists, bool_decide_eq_true. unfold by_alias. f_equiv.
  - split.
    + intros (m & Hm & Hs%same_name_spec). exists m. rewrite list_elem_of_In. done.
    + intros (m & Hk & Hm). exists m. rewrite same_name_spec, <-list_elem_of_In. done.
  - split.
    + intros [m [Hm Hh]%find_first_Some]. exists m. split; [done|]. unfold holds_alias in Hh.
      destruct (im_alias m) as [a|]; [|done]. simpl. f_equal. by apply same_name_spec.
    + intros (m & Hm & Hk). destruct (im_alias m) as [a|] eqn:Ea; [|done]. simplify_eq/=.
      apply (find_first_is_Some _ _ m); [done|]. unfold holds_alias. rewrite Ea. by apply same_name_spec.
Qed.

Definition suffixed (base : str) (n : Z) : str := base ++ lit "-" ++ decimal n.

Lemma suffixed_slugged base n : 0 ≤ n → Forall slugged base → Forall slugged (suffixed base n).
Proof.
  intros Hn Hb. apply Forall_app. split; [done|]. apply Forall_app. split.
  - unfold slugged. vm_compute (lit "-"). constructor; [lia|done].
  - apply Forall_forall. intros c Hc%decimal_plain; [|done]. unfold slugged. lia.
Qed.

Lemma suffixed_inj base n m : 0 ≤ n ≤ U32_MAX → 0 ≤ m ≤ U32_MAX → suffixed base n = suffixed base m → n = m.
Proof.
  intros Hn Hm He. apply app_inv_head, app_inv_head in He.
  apply (f_equal (parse_unsigned U32_MAX)) in He. rewrite !parse_decimal in He by done. congruence.
Qed.

Lemma free_suffix_cases c base fuel n :
  is_taken c (free_suffix fuel c base n) = false ∨
  ∀ i, (i < fuel)%nat → is_taken c (suffixed base (n + Z.of_nat i)) = true.
Proof.
  revert n. induction fuel as [|fuel IH]; intros n; [right; lia|]. cbn [free_suffix]. cbv zeta.
  change (base ++ lit "-" ++ decimal n) with (suffixed base n).
  destruct (is_taken c (suffixed base n)) eqn:E; [|by left].
  destruct (IH (n + 1)) as [Hf|Hall]; [by left|right]. intros [|i] Hi.
  - by rewrite Z.add_0_r.
  - specialize (Hall i ltac:(lia)). by replace (n + Z.of_nat (S i)) with (n + 1 + Z.of_nat i) by lia.
Qed.

(** An id derived from a file name is free, and found within the fuel. *)
Lemma free_id_free `{!LowerAscii} c path :
  Z.of_nat (length (cs_models c)) < 2 ^ 30 → is_taken c (free_id c (slug_for path)) = false.
Proof.
  intros Hlen. unfold free_id. destruct (is_taken c (slug_for path)) eqn:E; simpl; [|done].
  pose proof (slug_for_slugged path) as Hb. set (base := slug_for path) in *. clearbody base.
  destruct (free_suffix_cases c base (S (2 * length (cs_models c))) 2) as [Hf|Hall]; [done|].
  set (names := (λ i, suffixed base (2 + Z.of_nat i)) <$> seq 0 (S (2 * length (cs_models c)))).
  assert (Hsub : names ⊆+ taken_keys (cs_models c)).
  { apply NoDup_submseteq.
    - apply NoDup_fmap_2_strong; [|apply NoDup_seq]. intros i j Hi%elem_of_seq Hj%elem_of_seq He.
      apply suffixed_inj in He; unfold U32_MAX; lia.
    - intros k (i & -> & Hi%elem_of_seq)%list_elem_of_fmap.
      pose proof (Hall i ltac:(lia)) as Ht. apply is_taken_spec in Ht.
      by rewrite lookup_key_plain in Ht by (apply suffixed_slugged; [lia|done]). }
  apply submseteq_length in Hsub. unfold names in Hsub. rewrite length_fmap, length_seq in Hsub.
  pose proof (length_taken (cs_models c)). lia.
Qed.

Lemma not_taken c name : is_taken c name = false → lookup_key name ∉ taken_keys (cs_models c).
Proof. intros Hf Hin. apply is_taken_spec in Hin. congruence. Qed.
End names.
