(* ===== verification/InstallTheorems.v ===== *)
(** * Properties of adding models

    No name of the catalog means two models, whatever is added, named, renamed,
    loaded and removed and however often the file is read back; what is added
    is what was promised; and a link cannot name a file outside the models
    directory. *)

From Stdlib Require Import Sorted.
From stdpp Require Import base gmap strings numbers list relations.
From S2P Require Import Prelude Names Utf8 Net Frames Web Rewriter Keys Responses Float64 Estimator.
From S2P Require Import Metadata MetadataTheorems Catalog Download Install.
From S2P Require Import Gguf CatalogTheorems.

Section catalog.
Context `{LowerCase}.

(** What happens to a catalog while a gateway runs, and when one starts again.
    An id a download brings is text, and there are fewer than 2^30 models. *)
Inductive catalog_step : CatalogStore → CatalogStore → Prop :=
| step_commit saves now c s r c' :
    (∀ id, sn_id s = Some id → text id) → Z.of_nat (length (cs_models c)) < 2 ^ 30 →
    commit saves now c s = (r, c') → catalog_step c c'
| step_alias c id alias c' : catalog_set_alias c id alias = Ok c' → catalog_step c c'
| step_remove c id m c' : catalog_remove c id = Ok (m, c') → catalog_step c c'
| step_loaded c id n now : catalog_step c (alter id (mark_loaded n now) c)
| step_save c works c' : catalog_save works c = Ok c' → catalog_step c c'
| step_reopen c c' : catalog_open (cs_path c) (Some (Ok (cs_file c))) = Ok c' → catalog_step c c'.

Definition Sound (c : CatalogStore) : Prop := Named (cs_models c) ∧ Named (cs_file c).

Lemma put_last m l : Forall (λ x, id_lt x m) l → put m l = l ++ [m].
Proof.
  induction 1 as [|x l Hx Hl IH]; simpl; [done|]. unfold id_lt, str_cmp in *.
  by rewrite bytes_cmp_antisym, Hx, IH.
Qed.

Lemma reopened acc l :
  StronglySorted id_lt (acc ++ l) → foldl (λ l m, put m l) acc l = acc ++ l.
Proof.
  revert acc. induction l as [|m l IH]; intros acc Hs; simpl; [by rewrite app_nil_r|].
  rewrite put_last.
  - rewrite IH; rewrite <-app_assoc; done.
  - clear IH. induction acc as [|x acc IH]; [by apply Forall_nil_2|]. simpl in Hs.
    apply StronglySorted_inv in Hs as [Hs Hx]. apply Forall_cons_2; [|by apply IH].
    rewrite Forall_app in Hx. destruct Hx as [_ Hx]. by inversion Hx.
Qed.

Lemma Sound_save works c c' : Sound c → catalog_save works c = Ok c' → Sound c' ∧ cs_models c' = cs_models c.
Proof.
  intros Hs. unfold catalog_save. case_bool_decide; [intros [= <-]; by split|].
  destruct works; [|done]. intros [= <-]. destruct Hs as [Hm _]. by split.
Qed.

Lemma contains_spec c id : contains_id c id = true ↔ ∃ m, m ∈ cs_models c ∧ im_id m = id.
Proof.
  unfold contains_id. rewrite existsb_exists. f_equiv. intros m.
  by rewrite <-list_elem_of_In, bool_decide_eq_true.
Qed.

Lemma free_for_all c name :
  lookup_key name ∉ taken_keys (cs_models c) →
  (∀ m, m ∈ cs_models c → lookup_key (im_id m) ≠ lookup_key name) ∧
  (∀ m a, m ∈ cs_models c → im_alias m = Some a → lookup_key name ≠ lookup_key a).
Proof.
  unfold taken_keys. rewrite not_elem_of_app. intros [Hi Ha]. split.
  - intros m Hm He. apply Hi. apply list_elem_of_fmap. by exists m.
  - intros m a Hm Hma He. apply Ha. apply list_elem_of_omap. exists m. by rewrite Hma, He.
Qed.

Lemma free_id_text c path : text (free_id c (slug_for path)).
Proof.
  unfold free_id. destruct (negb _); [apply slugged_text, slug_for_slugged|].
  set (fuel := S _). clearbody fuel. generalize 2 (ltac:(lia) : 0 ≤ 2).
  induction fuel as [|fuel IH]; intros n Hn; cbn [free_suffix]; [apply slugged_text, slug_for_slugged|].
  destruct (is_taken _ _); [apply IH; lia|].
  apply slugged_text, (suffixed_slugged _ n), slug_for_slugged. lia.
Qed.

Lemma Sound_commit `{!LowerAscii} saves now c s r c' :
  (∀ id, sn_id s = Some id → text id) → Z.of_nat (length (cs_models c)) < 2 ^ 30 →
  Sound c → commit saves now c s = (r, c') → Sound c'.
Proof.
  intros Htext Hlen Hs. pose proof Hs as [Hm Hf]. unfold commit.
  destruct (sn_id s) as [id|] eqn:Eid.
  - unfold ensure_id_unaliased. destruct (find_first _ _) as [owner|] eqn:En; [by intros [= _ <-]|].
    set (rec := with_alias _ _).
    assert (Hput : Sound (catalog_replace rec c)).
    { split; [|done]. apply Named_put; [done|by apply Htext|..].
      - intros m a Hin Hne Ha He. rewrite find_first_None in En. specialize (En m Hin).
        simpl in Hne. unfold holds_alias in En. rewrite Ha, bool_decide_eq_false_2 in En by done.
        simpl in En. apply same_name_false in En. apply En. symmetry. exact He.
      - intros a Ha. simpl in Ha. apply bind_Some in Ha as (old & Ho & Ha).
        apply find_first_Some in Ho as [Ho He%bool_decide_eq_true]. by exists old. }
    destruct (catalog_save saves _) eqn:Es; intros [= _ <-]; [|done]. by eapply Sound_save.
  - destruct (by_digest c (sn_sha256 s)) as [existing|]; [by intros [= _ <-]|].
    set (rec := InstalledModel_new _ _ _ _ _ _ _ _). unfold catalog_insert.
    destruct (contains_id c (im_id rec)); [by intros [= _ <-]|].
    assert (Hput : Sound (set_models (put rec (cs_models c)) c)).
    { pose proof (free_id_free c (sn_path s) Hlen) as Hfree. apply not_taken in Hfree.
      apply free_for_all in Hfree as [Hids Has]. split; [|done]. apply Named_put; [done|..].
      - apply free_id_text.
      - intros m a Hin _ Ha. simpl. by apply (Has m).
      - by intros a [=]. }
    destruct (catalog_save saves _) eqn:Es; intros [= _ <-]; [|done]. by eapply Sound_save.
Qed.
Lemma Sound_alias c id alias c' : Sound c → catalog_set_alias c id alias = Ok c' → Sound c'.
Proof.
  intros [Hm Hf]. unfold catalog_set_alias. destruct (contains_id c id); simpl; [|done].
  destruct alias as [raw|]; simpl.
  - unfold check_alias. destruct (validate_alias raw) as [alias|]; [|done].
    destruct (find_first (λ m, same_name (im_id m) alias) _) eqn:Ei; [done|].
    destruct (find_first (λ other, _ && _) _) eqn:Ea; [done|]. intros [= <-]. split; [|done].
    apply Named_set_alias; [done|]. intros a [= <-]. rewrite find_first_None in Ei, Ea. split.
    + intros m Hin. by apply same_name_false, Ei.
    + intros m a' Hin Hne Hma. specialize (Ea m Hin). unfold holds_alias in Ea.
      rewrite Hma, bool_decide_eq_false_2 in Ea by congruence. by apply same_name_false.
  - intros [= <-]. split; [|done]. by apply Named_set_alias.
Qed.

Lemma Sound_step `{!LowerAscii} c c' : Sound c → catalog_step c c' → Sound c'.
Proof.
  intros Hs. destruct 1 as [saves now c s r c' Ht Hl Hc|c id alias c' Hc|c id m c' Hc|c id n now
    |works c c' Hc|c c' Hc].
  - by eapply Sound_commit.
  - by eapply Sound_alias.
  - unfold catalog_remove in Hc. destruct (catalog_get c id); [|done]. injection Hc as <- <-.
    destruct Hs as [Hm Hf]. split; [|done]. by apply Named_filter.
  - destruct Hs as [Hm Hf]. split; [|done]. by apply Named_mark.
  - by eapply Sound_save.
  - injection Hc as <-. destruct Hs as [_ Hf]. unfold Sound. simpl.
    rewrite reopened by by apply Hf. by split.
Qed.

(** The models a name is for: the alias in any case of letters, or the id. *)
Definition answers (name : str) (m : InstalledModel) : Prop :=
  holds_alias name m = true ∨ im_id m = trim name.

Lemma answers_unique l name m m' :
  Named l → m ∈ l → m' ∈ l → answers name m → answers name m' → m = m'.
Proof.
  intros Hn Hm Hm' Ha Ha'. destruct Ha as [Hh|He], Ha' as [Hh'|He'].
  - unfold holds_alias in Hh, Hh'.
    destruct (im_alias m) as [a|] eqn:E, (im_alias m') as [a'|] eqn:E'; try done.
    rewrite same_name_spec in Hh, Hh'. eapply nm_aliases; eauto. congruence.
  - unfold holds_alias in Hh. destruct (im_alias m) as [a|] eqn:E; [|done].
    rewrite same_name_spec in Hh. destruct (nm_ids _ Hn m m' a Hm Hm' E).
    unfold lookup_key in *. by rewrite He', trim_idemp.
  - unfold holds_alias in Hh'. destruct (im_alias m') as [a|] eqn:E; [|done].
    rewrite same_name_spec in Hh'. destruct (nm_ids _ Hn m' m a Hm' Hm E).
    unfold lookup_key in *. by rewrite He, trim_idemp.
  - eapply sorted_same_id; [apply Hn|done|done|congruence].
Qed.

Lemma resolve_answers c name m :
  Named (cs_models c) → ModelSelector_parse (Some name) ≠ SelDefault →
  catalog_resolve c name = Some m ↔ m ∈ cs_models c ∧ answers name m.
Proof.
  intros Hn Hsel. unfold catalog_resolve.
  assert (Hp : ModelSelector_parse (Some name) = SelNamed (trim name)).
  { unfold ModelSelector_parse in *. simpl in *. by destruct (_ || _). }
  rewrite Hp.
  assert (Hal : ∀ x, holds_alias (trim name) x = holds_alias name x).
  { intros x. unfold holds_alias. destruct (im_alias x); [|done]. unfold same_name, lookup_key.
    by rewrite trim_idemp. }
  split.
  - unfold by_alias, catalog_get. destruct (find_first (holds_alias _) _) as [m'|] eqn:E.
    + intros [= ->]. apply find_first_Some in E as [Hin Hh]. rewrite Hal in Hh. by split; [|left].
    + intros [Hin He%bool_decide_eq_true]%find_first_Some. by split; [|right].
  - intros [Hin Ha].
    assert (Hsome : is_Some (match by_alias c (trim name) with
                             | Some m => Some m | None => catalog_get c (trim name) end)).
    { unfold by_alias. destruct (find_first _ _) eqn:E; [done|]. destruct Ha as [Hh|He].
      - rewrite find_first_None in E. specialize (E m Hin). rewrite Hal in E. congruence.
      - apply (find_first_is_Some _ _ m); [done|]. by apply bool_decide_eq_true. }
    destruct Hsome as [m' Hm']. rewrite Hm'. f_equal.
    assert (m' ∈ cs_models c ∧ answers name m') as [Hin' Ha'].
    { revert Hm'. unfold by_alias, catalog_get.
      destruct (find_first (holds_alias _) _) as [x|] eqn:E.
      - intros [= ->]. apply find_first_Some in E as [? Hh]. rewrite Hal in Hh. by split; [|left].
      - intros [? He%bool_decide_eq_true]%find_first_Some. by split; [|right]. }
    by eapply answers_unique.
Qed.

(** C9: a name means one model.  From the empty catalog of a first run, after
    whatever was added, downloaded again, renamed, removed, loaded, saved - or
    failed to be - and read back, no name is for two models: an alias in any
    case of letters, and an id; and resolving a name gives exactly the model it
    is for. *)
Theorem names_mean_one_model `{!LowerAscii} path c name :
  rtc catalog_step (mkCatalog path [] []) c →
  (∀ m m', m ∈ cs_models c → m' ∈ cs_models c → answers name m → answers name m' → m = m') ∧
  (ModelSelector_parse (Some name) ≠ SelDefault →
   ∀ m, catalog_resolve c name = Some m ↔ m ∈ cs_models c ∧ answers name m).
Proof.
  intros Hr. assert (Hs : Sound c).
  { remember (mkCatalog path [] []) as c0 eqn:E0.
    assert (Hs0 : Sound c0) by (subst; split; apply Named_nil). clear E0.
    induction Hr as [|c0 c1 c2 Hstep _ IH]; [done|]. apply IH. by eapply Sound_step. }
  split.
  - intros m m'. eapply answers_unique. apply Hs.
  - intros Hsel m. by apply resolve_answers; [apply Hs|].
Qed.
End catalog.

(** ** What is added *)

Lemma put_get m l : find_first (λ x, bool_decide (im_id x = im_id m)) (put m l) = Some m.
Proof.
  induction l as [|x l IH]; simpl; [by rewrite bool_decide_eq_true_2|].
  destruct (str_cmp (im_id m) (im_id x)) eqn:E; simpl; [by rewrite bool_decide_eq_true_2..|].
  rewrite bool_decide_eq_false_2; [done|]. intros He. by rewrite He, str_cmp_refl in E.
Qed.

Section added.
Context `{LowerCase} `{Sha256} `{Server}.

Lemma installer_fetch_cases i p w m d :
  let '(r, d') := installer_fetch i p w m d in
  match r with
  | Ok s =>
      sn_id s = Some (pl_id p) ∧ sn_path s = path_join (in_models_dir i) (pl_file_name p) ∧
      sn_integrity s = pl_integrity p ∧ sn_source s = pl_source p ∧
      ∃ bytes, d' !! sn_path s = Some bytes ∧ sn_sha256 s = digest_of bytes ∧
        sn_bytes s = blen bytes ∧
        ∀ expected, pl_expected_sha256 p = Some expected →
          eq_ignore_ascii_case (digest_of bytes) expected = true
  | Err _ => True
  end.
Proof.
  unfold installer_fetch. destruct (negb (pc_downloads m)); [done|].
  destruct (negb (pc_models m)); [done|]. set (staged := path_join _ _).
  pose proof (fetch_checked (mkFetch (pl_url p) staged (pl_expected_sha256 p)) w d) as Hc.
  destruct (fetch _ w d) as [[got|] d1]; [|done]. destruct Hc as (_ & _ & file & Hf & Hsha & Hn & _ & Hexp).
  simpl in Hf, Hexp. destruct (read_header staged d1) as [md|]; [|done].
  unfold move_into_place. rewrite Hf. destruct (pc_move m) as [|[]|[]|]; try done;
    (split_and!; [done..|]; exists file; split_and!; [by simplify_map_eq|done..]).
Qed.

Lemma commit_cases saves now c s id :
  sn_id s = Some id →
  let '(r, c') := commit saves now c s in
  cs_path c' = cs_path c ∧
  match r with
  | Ok m =>
      catalog_get c' id = Some m ∧ im_id m = id ∧ im_path m = sn_path s ∧
      im_sha256 m = sn_sha256 s ∧ im_bytes m = sn_bytes s ∧ im_integrity m = sn_integrity s ∧
      im_source m = sn_source s ∧ im_alias m = (let! old := catalog_get c id in im_alias old) ∧
      (cs_path c ≠ [] → cs_file c' = cs_models c')
  | Err e => cs_file c' = cs_file c ∧ (c' = c ∨ saves = false)
  end.
Proof.
  intros Hid. unfold commit. rewrite Hid. destruct (ensure_id_unaliased c id); [|by auto].
  set (rec := with_alias _ _). unfold catalog_save. simpl.
  assert (Hget : ∀ path file, catalog_get (mkCatalog path (put rec (cs_models c)) file) id = Some rec).
  { intros. apply (put_get rec). }
  case_bool_decide as Hp; [|destruct saves; [|by auto]]; split_and!; try done; apply Hget.
Qed.

(** What an installer writes: the model's file, and the two of its download. *)
Definition touched (i : Installer) (p : Plan) (path : str) : Prop :=
  path = path_join (in_models_dir i) (pl_file_name p) ∨
  path = path_join (in_downloads_dir i) (pl_file_name p) ∨
  path = partial_path (path_join (in_downloads_dir i) (pl_file_name p)).

Lemma installer_fetch_elsewhere i p w m d path :
  ¬ touched i p path → (installer_fetch i p w m d).2 !! path = d !! path.
Proof.
  unfold touched. intros Hw. unfold installer_fetch. destruct (negb (pc_downloads m)); [done|].
  destruct (negb (pc_models m)); [done|]. set (staged := path_join (in_downloads_dir i) _) in *.
  destruct (fetch _ w d) as [r d1] eqn:Ef.
  assert (Hd : d1 !! path = d !! path) by (eapply fetch_elsewhere; [exact Ef|simpl; tauto..]).
  destruct r as [got|]; [|done]. destruct (read_header staged d1) as [md|]; simpl.
  - unfold move_into_place. destruct (d1 !! staged), (pc_move m) as [|[]|[]|]; simpl; try done;
      rewrite lookup_insert_ne, ?lookup_delete_ne by (intros He; apply Hw; auto); done.
  - destruct (pc_removes m); [|done]. by rewrite lookup_delete_ne by (intros He; apply Hw; auto).
Qed.

(** ** Files *)

Lemma last_in {A} (l : list A) d : l ≠ [] → List.last l d ∈ l.
Proof.
  intros Hl. destruct (exists_last Hl) as (l' & x & ->). rewrite List.last_last.
  apply elem_of_app. right. by apply list_elem_of_singleton.
Qed.

Lemma trim_start_sub s c : c ∈ trim_start s → c ∈ s.
Proof. induction s as [|x s IH]; simpl; [done|]. destruct (is_whitespace x); [|done]. intros ?%IH. by right. Qed.

Lemma trim_sub s c : c ∈ trim s → c ∈ s.
Proof.
  unfold trim. rewrite elem_of_reverse. intros Hc%trim_start_sub. rewrite elem_of_reverse in Hc.
  by apply trim_start_sub.
Qed.

Lemma file_name_from_url_plain url : plain_name (file_name_from_url url).
Proof.
  assert (Hmodel : plain_name (lit "model.gguf")).
  { vm_compute (lit "model.gguf"). unfold plain_name. split_and!; [done..|].
    rewrite list_elem_of_In. simpl. unfold SLASH. lia. }
  unfold file_name_from_url. destruct (split_once_at [SLASH] _) as [[host path]|]; [|done].
  set (name := trim _). destruct (_ || _) eqn:E; [done|].
  rewrite !orb_false_iff, !bool_decide_eq_false in E. destruct E as [[[Hn Hd] Hdd] _].
  split_and!; [done..|]. intros Hin%trim_sub. revert Hin. apply (pieces_no_slash path), last_in.
  destruct (pieces_cons path) as (p & ps & ->). done.
Qed.

Lemma pinned_plain m : m ∈ PINNED_MODELS → plain_name (pn_file m).
Proof.
  intros Hm. assert (Hall : Forall (λ m, bool_decide (plain_name (pn_file m)) = true) PINNED_MODELS)
    by (vm_compute; repeat constructor).
  rewrite Forall_forall in Hall. by eapply bool_decide_eq_true, Hall.
Qed.

Lemma plan_plain listed request p : plan listed request = Ok p → plain_name (pl_file_name p).
Proof.
  destruct request as [id|url sha256]; simpl.
  - destruct (pinned_by_id id) as [m|] eqn:E; [|done]. destruct (is_recorded m); simpl; [|done].
    intros [= <-]. apply pinned_plain. by apply find_first_Some in E as [? _].
  - destruct sha256 as [supplied|]; [destruct (negb _); [done|]; intros [= <-]; apply file_name_from_url_plain|].
    destruct (_ ≫= _) as [[digest size]|]; intros [= <-]; apply file_name_from_url_plain.
Qed.

(** ** Adding *)

(** What a plan asks of a model. *)
Definition keeps_promise (i : Installer) (p : Plan) (m : InstalledModel) (d : Disk) : Prop :=
  im_id m = pl_id p ∧ im_integrity m = pl_integrity p ∧ im_source m = pl_source p ∧
  components (im_path m) = components (in_models_dir i) ++ [Normal (pl_file_name p)] ∧
  ∃ bytes, d !! im_path m = Some bytes ∧ im_sha256 m = digest_of bytes ∧ im_bytes m = blen bytes ∧
    ∀ expected, pl_expected_sha256 p = Some expected →
      eq_ignore_ascii_case (digest_of bytes) expected = true.

(** A digest goes with every plan whose integrity is a verified one. *)
Lemma plan_integrity listed request p :
  plan listed request = Ok p →
  integrity_verified (pl_integrity p) = true ↔ is_Some (pl_expected_sha256 p).
Proof.
  destruct request as [id|url sha256]; simpl.
  - destruct (pinned_by_id id) as [m|]; [|done]. destruct (is_recorded m); simpl; [|done].
    intros [= <-]. done.
  - destruct sha256 as [supplied|]; [destruct (negb _); [done|]; by intros [= <-]|].
    destruct (_ ≫= _) as [[digest size]|]; intros [= <-]; simpl; [done|].
    split; [done|]. by intros [? ?].
Qed.

(** C14: what is added is what was promised.  When adding a model succeeds and
    it was not there already, the record in the catalog under the plan's id is
    the one given back; its file lies directly in the models directory,
    whatever the link says; the digest and the size it gives are that file's;
    a record that says it was verified has the digest that was pinned,
    published or supplied; the alias the id had is kept, and a catalog with a
    file is saved.  When it fails, the catalog's file is what it was, and so is
    the catalog unless the save itself failed.  Either way no file is touched
    but the model's and the download's own two. *)
Theorem added_model_is_what_was_promised i listed request w mv saves now c d :
  let '(r, c', d') := add i listed request w mv saves now c d in
  match r with
  | Ok m =>
      ∃ p, plan listed request = Ok p ∧
        ((already_installed c p d = Some m ∧ c' = c ∧ d' = d) ∨
         (keeps_promise i p m d' ∧
          (integrity_verified (im_integrity m) = true → is_Some (pl_expected_sha256 p)) ∧
          catalog_get c' (pl_id p) = Some m ∧
          im_alias m = (let! old := catalog_get c (pl_id p) in im_alias old) ∧
          (cs_path c ≠ [] → cs_file c' = cs_models c')))
  | Err _ => cs_file c' = cs_file c ∧ (c' = c ∨ saves = false)
  end ∧
  ∀ path, (∀ p, plan listed request = Ok p → ¬ touched i p path) → d' !! path = d !! path.
Proof.
  unfold add. destruct (plan listed request) as [p|] eqn:Ep; [|by auto].
  destruct (ensure_id_unaliased c (pl_id p)); [|by auto].
  destruct (already_installed c p d) as [existing|] eqn:Ea; [split; [by eauto 6|done]|].
  pose proof (installer_fetch_cases i p w mv d) as Hc.
  assert (Hel : ∀ path, (∀ p', Ok (E := CatalogError) p = Ok p' → ¬ touched i p' path) →
                (installer_fetch i p w mv d).2 !! path = d !! path)
    by (intros; by apply installer_fetch_elsewhere; auto).
  destruct (installer_fetch i p w mv d) as [[s|err] d1]; [|by auto].
  destruct Hc as (Hid & Hpath & Hint & Hsrc & bytes & Hb & Hsha & Hn & Hexp).
  pose proof (commit_cases saves now c s (pl_id p) Hid) as Hcc.
  destruct (commit saves now c s) as [[m|] c']; [|by destruct Hcc as [_ ?]].
  split; [|done]. destruct Hcc as (_ & Hget & Hmid & Hmp & Hms & Hmb & Hmi & Hmsrc & Hal & Hfile).
  exists p. split; [done|]. right. split_and!; [|..|done|done|done].
  - unfold keeps_promise. split_and!; try congruence.
    + rewrite Hmp, Hpath. by eapply joined_components, plan_plain.
    + exists bytes. rewrite Hmp, Hms, Hmb. by split_and!.
  - rewrite Hmi, Hint. by eapply plan_integrity.
Qed.
End added.

(** ** A gateway that adds files *)

(** A header with no key and no tensor, and one byte more. *)
Definition tiny (n : Z) : list byte := MAGIC ++ to_le 4 3 ++ to_le 8 0 ++ to_le 8 0 ++ [n].

Definition qwen_digest : list byte :=
  [0x72; 0xc5; 0xc3; 0xcb; 0x38; 0xfa; 0x32; 0xd5; 0x25; 0x6e; 0x2f; 0xe3; 0x0d; 0x03; 0xe7; 0xa6;
   0x4c; 0x6c; 0x79; 0xe6; 0x68; 0xad; 0x84; 0x05; 0x7e; 0x3b; 0xd6; 0x6e; 0x25; 0x0b; 0x24; 0xfb].

(** A hash under which [tiny 1] has the digest pinned for a model. *)
Definition pinning_sha : Sha256 := fun bytes => if bool_decide (bytes = tiny 1) then qwen_digest else bytes.

Definition other_link : str := lit "https://mirror.example/new/Qwen_Qwen3-1.7B-Q4_K_M.gguf".

Definition two_hosts : Server := fun url _ =>
  if bool_decide (url = other_link) then Ok (mkResponse 200 [Ok (tiny 2)])
  else Ok (mkResponse 200 [Ok (tiny 1)]).

Definition demo_installer : Installer := mkInstaller (lit "/models") (lit "/downloads").

Definition demo_add (request : AddModel) (c : CatalogStore) (d : Disk) :=
  @add ascii_case pinning_sha two_hosts demo_installer (fun _ => None) request smooth
    (mkPlacing true true true Renames) true 7 c d.

Definition pinned_then_link : CatalogStore * Disk :=
  let '(_, c, d) := demo_add (Pinned (lit "qwen3-1.7b-q4_k_m")) (mkCatalog (lit "/c.json") [] []) ∅ in
  let '(_, c, d) := demo_add (Link other_link None) c d in (c, d).

(** A link to a file of a pinned model's name is another model, with an id of
    its own, in the pinned model's place: the pinned record goes on saying that
    its file was verified against the pinned digest. *)
Theorem pinned_file_is_overwritten :
  let '(c, d) := pinned_then_link in
  ∃ pinned linked,
    catalog_get c (lit "qwen3-1.7b-q4_k_m") = Some pinned ∧
    catalog_get c (lit "qwen_qwen3-1.7b-q4_k_m") = Some linked ∧
    im_integrity pinned = ByManifest ∧ im_path pinned = im_path linked ∧
    d !! im_path pinned = Some (tiny 2).
Proof. vm_compute. by eexists _, _. Qed.

(** A model is downloaded and renamed, and another is added from a file whose
    name gives it the first one's id. *)
Definition demo_scan (id : option str) (digest : str) : Scanned :=
  mkScanned id (lit "/elsewhere/LFM2 1.2B.gguf") 8 digest Unverified
    (FromLink (lit "https://a.example/f")) headless.

Definition ok_or_else {A E} (a : A) (r : result A E) : A := match r with Ok x => x | Err _ => a end.

Definition demo_c0 : CatalogStore := mkCatalog (lit "/c.json") [] [].
Definition demo_c1 : CatalogStore :=
  (@commit ascii_case true 7 demo_c0 (demo_scan (Some (lit "lfm2-1.2b")) (lit "aa"))).2.
Definition demo_c2 : CatalogStore :=
  ok_or_else demo_c1 (@catalog_set_alias ascii_case demo_c1 (lit "lfm2-1.2b") (Some (lit "Prod"))).
Definition demo_c3 : CatalogStore := (@commit ascii_case false 8 demo_c2 (demo_scan None (lit "bb"))).2.

Lemma ascii_lower_ascii : @LowerAscii ascii_case.
Proof. by intros s _. Qed.

#[local] Instance slugged_dec c : Decision (slugged c).
Proof. unfold slugged. apply _. Defined.

Lemma names_mean_one_model_witness :
  (im_id <$> cs_models demo_c3) = [lit "lfm2-1.2b"; lit "lfm2-1.2b-2"] ∧
  ∃ m, @catalog_resolve ascii_case demo_c3 (lit " PROD ") = Some m ∧ im_id m = lit "lfm2-1.2b" ∧
    m ∈ cs_models demo_c3 ∧ @answers ascii_case (lit " PROD ") m.
Proof.
  split; [vm_compute; reflexivity|]. eexists. split; [vm_compute; reflexivity|].
  split; [vm_compute; reflexivity|].
  apply (@names_mean_one_model ascii_case ascii_lower_ascii (lit "/c.json") demo_c3 (lit " PROD ")).
  - eapply rtc_l; [|eapply rtc_l; [|eapply rtc_l; [|apply rtc_refl]]].
    + eapply (step_commit true 7 _ (demo_scan (Some (lit "lfm2-1.2b")) (lit "aa"))).
      * intros id [= <-]. apply slugged_text, (bool_decide_unpack _). vm_compute. exact I.
      * vm_compute; reflexivity.
      * vm_compute; reflexivity.
    + eapply (step_alias _ (lit "lfm2-1.2b") (Some (lit "Prod"))). vm_compute; reflexivity.
    + eapply (step_commit false 8 _ (demo_scan None (lit "bb"))).
      * done.
      * vm_compute; reflexivity.
      * vm_compute; reflexivity.
  - vm_compute. discriminate.
  - vm_compute; reflexivity.
Defined.
