(* ===== verification/Runtime.v ===== *)
(** * Installing the engine

    [crates/lightweight-backend-llamacpp/src]: [manifest.rs] (the pinned builds)
    and [acquire.rs] (where an engine is installed, its download, and the
    unpacking of its archive).

    The disk is that of [Download]: the files by their paths.  Directories and
    links are not part of it; how making a directory goes is an argument, and an
    archive may have links, whose unpacking is described below.  An archive is
    the list of its entries, what reading the file gives: a decoder of the two
    formats is an argument. *)

From stdpp Require Import base gmap strings numbers list.
From S2P Require Import Prelude Names Utf8 Net Frames Web Rewriter Keys Responses Float64 Estimator.
From S2P Require Import Generation Download.

(** ** The pinned engine *)

Definition PINNED_BUILD : str := lit "b10590".

Inductive ArchiveFormat := TarGz | Zip.

Record RuntimeArtifact := mkArtifact {
  af_os : str;
  af_arch : str;
  af_asset : str;
  af_format : ArchiveFormat;
  af_sha256 : str;
  af_size : u64 }.

Definition artifact_url (a : RuntimeArtifact) : str :=
  lit "https://github.com/ggml-org/llama.cpp/releases/download/" ++ PINNED_BUILD ++ lit "/"
  ++ af_asset a.

Definition install_dir_name (a : RuntimeArtifact) : str :=
  lit "llama.cpp-" ++ PINNED_BUILD ++ lit "-" ++ af_os a ++ lit "-" ++ af_arch a.

Definition ARTIFACTS : list RuntimeArtifact :=
  [mkArtifact (lit "linux") (lit "x86_64") (lit "llama-b10590-bin-ubuntu-x64.tar.gz") TarGz
     (lit "4efbac3e8a647c49cc4856248fa295937b94921e31cdb2c964bf8c5772473559") 16369239;
   mkArtifact (lit "linux") (lit "aarch64") (lit "llama-b10590-bin-ubuntu-arm64.tar.gz") TarGz
     (lit "12999190e14133086dd4a6be57ab23484edb29b79e1d15677b3fb09d78cf3e2f") 13115141;
   mkArtifact (lit "macos") (lit "aarch64") (lit "llama-b10590-bin-macos-arm64.tar.gz") TarGz
     (lit "6bd011f97a27eb27e296fa17867948d97988857ddde98159fca925e2d73a1362") 10805509;
   mkArtifact (lit "macos") (lit "x86_64") (lit "llama-b10590-bin-macos-x64.tar.gz") TarGz
     (lit "ba08608c77cd28f81cd27a98c4829b2513eaf053b1168bf32ca63ffc991f88a3") 11094133;
   mkArtifact (lit "windows") (lit "x86_64") (lit "llama-b10590-bin-win-cpu-x64.zip") Zip
     (lit "98d942240a61a5c628c16d7951c041095e63a741916c74110e785129e10c2eaa") 18132388].

Definition for_platform (os arch : str) : option RuntimeArtifact :=
  find_first (fun a => bool_decide (af_os a = os) && bool_decide (af_arch a = arch)) ARTIFACTS.

(** On Unix. *)
Definition server_executable : str := lit "llama-server".

Definition server_path (root : str) (a : RuntimeArtifact) : str :=
  path_join (path_join root (install_dir_name a)) server_executable.

(** ** Failures *)

(** [Display] of [DownloadError], of the two that are passed on as they read;
    [what] is the engine and [url] where it is. *)
Definition download_message (url : str) (e : DownloadError) : str :=
  match e with
  | InsecureUrl scheme => scheme ++ lit ":// is not accepted; only https URLs are downloaded"
  | DlFailed reason =>
      lit "could not download the inference engine: "
      ++ match reason with
         | Transport detail => detail
         | HttpStatus status => url ++ lit " returned HTTP " ++ decimal status
         end
  | _ => []
  end.

Definition as_backend_error (url : str) (e : DownloadError) : BackendError :=
  match e with
  | Corrupt expected actual => RuntimeCorrupt expected actual
  | DlLowDisk => LowDisk 0 0
  | DlIo context => BeIo context []
  | DlCancelled => Cancelled
  | DlFailed _ | InsecureUrl _ => RuntimeDownloadFailed (download_message url e)
  end.

(** ** Unpacking *)

(** One component under [fold], as [safe_join] takes it. *)
Fixpoint push_components (out : str) (l : list Component) : option str :=
  match l with
  | [] => Some out
  | Normal part :: l => push_components (path_join out part) l
  | CurDir :: l => push_components out l
  | _ :: _ => None
  end.

Definition safe_join (root entry : str) : option str :=
  let! out := push_components root (components entry) in
  if bool_decide (out = root) then None else Some out.

Definition ends_with_slash (name : str) : bool := bool_decide (last name = Some SLASH).

(** The loop of [common_prefix]. *)
Fixpoint common_prefix_from (prefix : option str) (names : list str) : option (option str) :=
  match names with
  | [] => Some prefix
  | name :: names =>
      match components name with
      | Normal first :: rest =>
          if bool_decide (rest = []) && negb (ends_with_slash name) then None
          else match prefix with
               | Some existing =>
                   if bool_decide (existing = first) then common_prefix_from prefix names else None
               | None => common_prefix_from (Some first) names
               end
      | _ => None
      end
  end.

Definition common_prefix (names : list str) : option str := common_prefix_from None names ≫= id.

(** [Path::strip_prefix] of one component; what is left is the text after it. *)
Definition render (l : list Component) : str :=
  join_with [SLASH]
    ((fun c => match c with
               | Normal name => name | ParentDir => [DOT; DOT] | CurDir => [DOT] | RootDir => []
               end) <$> l).

Definition strip_prefix_path (path : str) (prefix : option str) : str :=
  match prefix with
  | Some prefix =>
      match components path with
      | Normal first :: rest => if bool_decide (first = prefix) then render rest else path
      | _ => path
      end
  | None => path
  end.

(** An [io::Error]: the disk is full, or what it says. *)
Inductive IoError := DiskFull | OtherIo (source : str).

Definition io_text (e : IoError) : str :=
  match e with DiskFull => lit "No space left on device (os error 28)" | OtherIo source => source end.

Definition map_io (context : str) (e : IoError) : BackendError :=
  match e with DiskFull => LowDisk 0 0 | OtherIo source => BeIo context source end.

(** What is in an archive, of what kind the library says it is.  On Unix the
    name of an entry is a path, whatever its bytes: reading it does not fail. *)
Inductive EntryKind := EkFile | EkDirectory | EkLink.

Record ArchiveEntry := mkEntry { ae_name : str; ae_kind : EntryKind; ae_content : list byte }.

Definition is_link (e : ArchiveEntry) : bool :=
  match ae_kind e with EkLink => true | _ => false end.

Definition is_dir (e : ArchiveEntry) : bool :=
  match ae_kind e with EkDirectory => true | _ => false end.

(** How the calls on the file system go: [create_dir_all] of a directory and of
    the parent of a path; opening the archive, for a first or a second time;
    [File::create]; and [io::copy], with how many bytes it wrote when it
    breaks off. *)
Class FileSystem := {
  make_dir : str → Disk → option IoError;
  make_parent : str → Disk → option IoError;
  open_archive : bool → str → Disk → option IoError;
  create_file : str → Disk → option IoError;
  copy_entry : ArchiveEntry → str → option (nat * IoError) }.

(** An entry, and the path it was unpacked at. *)
Definition Unpacked : Type := ArchiveEntry * str.

(** [Entry::unpack] of the [tar] crate, given what was unpacked before: how
    writing an entry at a path goes.  It follows the links that are there, so
    only where no link was unpacked does an entry that is none touch no other
    file. *)
Class Unpack := {
  unpack : list Unpacked → ArchiveEntry → str → Disk → option IoError * Disk;
  unpack_only before e target d path :
    Forall (λ u, is_link u.1 = false) before → is_link e = false → path ≠ target →
    (unpack before e target d).2 !! path = d !! path }.

(** The decoder of an archive: its entries in order, each as far as it can be
    read. *)
Class Decode :=
  decode : ArchiveFormat → list byte → result (list (result ArchiveEntry IoError)) IoError.

(** [enclosed_name] of the [zip] crate: what a name with a root or a way up has
    none of. *)
Class EnclosedName := enclosed_name : str → option str.

Section unpacking.
Context `{FileSystem} `{Unpack} `{Decode} `{EnclosedName}.

Definition escapes (path : str) : BackendError :=
  RuntimeDownloadFailed (lit "archive entry " ++ path ++ lit " escapes the install directory").

(** [map_err] of a call on the file system. *)
Definition attempt (context : str) (outcome : option IoError) : result unit BackendError :=
  match outcome with Some problem => Err (map_io context problem) | None => Ok tt end.

(** Where an entry goes: nowhere when its name is the directory all share. *)
Definition place (install_dir : str) (strip : option str) (name : str)
    : result (option str) BackendError :=
  let path := strip_prefix_path name strip in
  if bool_decide (path = []) then Ok None
  else
    match safe_join install_dir path with
    | None => Err (escapes path)
    | Some target => Ok (Some target)
    end.

(** What the loop of [extract_tar_gz] does at the path of an entry. *)
Definition unpack_at (before : list Unpacked) (e : ArchiveEntry) (target : str) (d : Disk)
    : result unit BackendError * Disk :=
  match attempt (lit "creating an archive directory") (make_parent target d) with
  | Err err => (Err err, d)
  | Ok _ =>
      let '(outcome, d) := unpack before e target d in
      (attempt (lit "extracting an archive entry") outcome, d)
  end.

(** The loop of [extract_tar_gz]; [before] is what it has unpacked. *)
Fixpoint extract_entries (install_dir : str) (strip : option str) (before : list Unpacked)
    (entries : list (result ArchiveEntry IoError)) (d : Disk) : result unit BackendError * Disk :=
  match entries with
  | [] => (Ok tt, d)
  | Err problem :: _ => (Err (map_io (lit "reading an archive entry") problem), d)
  | Ok e :: entries =>
      match place install_dir strip (ae_name e) with
      | Err err => (Err err, d)
      | Ok None => extract_entries install_dir strip before entries d
      | Ok (Some target) =>
          match unpack_at before e target d with
          | (Err err, d) => (Err err, d)
          | (Ok _, d) => extract_entries install_dir strip (before ++ [(e, target)]) entries d
          end
      end
  end.

Definition readable (entries : list (result ArchiveEntry IoError)) : list ArchiveEntry :=
  omap (fun e => match e with Ok e => Some e | Err _ => None end) entries.

(** Opening the archive and reading it as a [tar] file. *)
Definition tar_entries (second : bool) (archive : str) (d : Disk)
    : result (list (result ArchiveEntry IoError)) BackendError :=
  match attempt (lit "opening the archive") (open_archive second archive d) with
  | Err err => Err err
  | Ok _ =>
      match decode TarGz (default [] (d !! archive)) with
      | Err problem => Err (map_io (lit "reading the archive") problem)
      | Ok entries => Ok entries
      end
  end.

Definition tar_entry_names (archive : str) (d : Disk) : result (list str) BackendError :=
  match tar_entries false archive d with
  | Err err => Err err
  | Ok entries => Ok (ae_name <$> readable entries)
  end.

Definition extract_tar_gz (archive install_dir : str) (d : Disk) : result unit BackendError * Disk :=
  match tar_entry_names archive d with
  | Err err => (Err err, d)
  | Ok names =>
      match tar_entries true archive d with
      | Err err => (Err err, d)
      | Ok entries => extract_entries install_dir (common_prefix names) [] entries d
      end
  end.

(** What the loop of [extract_zip] does at the path of an entry.  A file is
    created empty, and filled. *)
Definition write_at (e : ArchiveEntry) (target : str) (d : Disk) : result unit BackendError * Disk :=
  if is_dir e then (attempt (lit "creating an archive directory") (make_dir target d), d)
  else
    match attempt (lit "creating an archive directory") (make_parent target d) with
    | Err err => (Err err, d)
    | Ok _ =>
        match attempt (lit "writing an archive entry") (create_file target d) with
        | Err err => (Err err, d)
        | Ok _ =>
            match copy_entry e target with
            | Some (n, problem) =>
                (Err (map_io (lit "extracting an archive entry") problem),
                 <[target := take n (ae_content e)]> d)
            | None => (Ok tt, <[target := ae_content e]> d)
            end
        end
    end.

(** The loop of [extract_zip]. *)
Fixpoint extract_zip_entries (install_dir : str) (strip : option str)
    (entries : list (result ArchiveEntry IoError)) (d : Disk) : result unit BackendError * Disk :=
  match entries with
  | [] => (Ok tt, d)
  | Err problem :: _ =>
      (Err (RuntimeDownloadFailed (lit "could not read an archive entry: " ++ io_text problem)), d)
  | Ok e :: entries =>
      match enclosed_name (ae_name e) with
      | None =>
          (Err (RuntimeDownloadFailed
                  (lit "archive entry " ++ ae_name e ++ lit " has an unsafe name")), d)
      | Some raw =>
          match place install_dir strip raw with
          | Err err => (Err err, d)
          | Ok None => extract_zip_entries install_dir strip entries d
          | Ok (Some target) =>
              match write_at e target d with
              | (Err err, d) => (Err err, d)
              | (Ok _, d) => extract_zip_entries install_dir strip entries d
              end
          end
      end
  end.

Definition extract_zip (archive install_dir : str) (d : Disk) : result unit BackendError * Disk :=
  match attempt (lit "opening the archive") (open_archive false archive d) with
  | Err err => (Err err, d)
  | Ok _ =>
      match decode Zip (default [] (d !! archive)) with
      | Err problem =>
          (Err (RuntimeDownloadFailed (lit "could not read the archive: " ++ io_text problem)), d)
      | Ok entries =>
          let names := omap (enclosed_name ∘ ae_name) (readable entries) in
          extract_zip_entries install_dir (common_prefix names) entries d
      end
  end.

Definition extract (a : RuntimeArtifact) (archive install_dir : str) (d : Disk)
    : result unit BackendError * Disk :=
  match attempt (lit "creating the engine directory") (make_dir install_dir d) with
  | Err err => (Err err, d)
  | Ok _ =>
      match af_format a with
      | TarGz => extract_tar_gz archive install_dir d
      | Zip => extract_zip archive install_dir d
      end
  end.

(** ** Installing *)

Context `{Sha256} `{Server}.

(** What happens to an installation besides its download and its unpacking: the
    task that unpacks is never run, with what that says; whether the archive can
    be removed; and how [make_executable] goes. *)
Record Installation := mkInstallation {
  in_task : option str;
  in_removes : bool;
  in_executable : option IoError }.

(** [RuntimeInstaller::ensure]. *)
Definition ensure (root : str) (platform : option RuntimeArtifact) (os arch : str)
    (w : Circumstances) (i : Installation) (d : Disk) : result str BackendError * Disk :=
  match platform with
  | None => (Err (UnsupportedPlatform os arch), d)
  | Some a =>
      let server := server_path root a in
      if bool_decide (is_Some (d !! server)) then (Ok server, d)
      else
        let install_dir := path_join root (install_dir_name a) in
        let archive := path_join root (af_asset a) in
        match fetch (mkFetch (artifact_url a) archive (Some (af_sha256 a))) w d with
        | (Err e, d) => (Err (as_backend_error (artifact_url a) e), d)
        | (Ok _, d) =>
            match in_task i with
            | Some err =>
                (Err (RuntimeDownloadFailed (lit "the extraction task failed: " ++ err)), d)
            | None =>
                match extract a archive install_dir d with
                | (Err e, d) => (Err e, d)
                | (Ok _, d) =>
                    let d := if in_removes i then delete archive d else d in
                    if bool_decide (d !! server = None) then (Err (RuntimeMissing server), d)
                    else match attempt (lit "listing the engine directory") (in_executable i) with
                         | Err err => (Err err, d)
                         | Ok _ => (Ok server, d)
                         end
                end
            end
        end
  end.
End unpacking.

(** ** Properties of installing the engine

    Nothing of an archive is unpacked before its digest is checked, and nothing
    outside the engine's directory as long as it has no links; with one, a file
    elsewhere may be written.  And an installation that broke off is taken for a
    whole one. *)

(** A path below a directory: its components, and plain names. *)
Definition below (dir path : str) : Prop :=
  ∃ names, names ≠ [] ∧ Forall plain_name names ∧
    components path = components dir ++ (Normal <$> names).

(** ** Joining *)

Lemma push_components_below out l path :
  (∀ n, Normal n ∈ l → plain_name n) → push_components out l = Some path →
  path = out ∨ below out path.
Proof.
  revert out. induction l as [|c l IH]; intros out Hl; simpl; [intros [= <-]; by left|].
  assert (Hl' : ∀ n, Normal n ∈ l → plain_name n) by (intros n Hn; apply Hl; by right).
  destruct c as [| | |name]; try done; [by apply IH|].
  intros Hp. right. assert (Hn : plain_name name) by (apply Hl; left).
  destruct (IH _ Hl' Hp) as [->|(names & Hne & Hpl & Hc)].
  - exists [name]. split_and!; [done|by apply Forall_singleton|by apply joined_components].
  - exists (name :: names). split_and!; [done|by constructor|].
    by rewrite Hc, joined_components, <-app_assoc.
Qed.

Lemma safe_join_below root entry path : safe_join root entry = Some path → below root path.
Proof.
  unfold safe_join. intros (out & Hp & Ho)%bind_Some. case_bool_decide; [done|].
  injection Ho as ->. apply push_components_below in Hp as [->|Hb]; [done|done|].
  intros n. apply normal_plain.
Qed.

(** ** Unpacking *)

(** The archives of an artifact have no links, as far as they are the pinned
    ones.  A link of a [zip] archive is unpacked as a file. *)
Definition linkless `{Sha256} `{Decode} (a : RuntimeArtifact) : Prop :=
  ∀ bytes entries, eq_ignore_ascii_case (digest_of bytes) (af_sha256 a) = true →
    af_format a = TarGz → decode TarGz bytes = Ok entries →
    Forall (λ e, is_link e = false) (readable entries).

Section unpacking.
Context `{FileSystem} `{Unpack} `{Decode} `{EnclosedName}.

Lemma place_below dir strip name target : place dir strip name = Ok (Some target) → below dir target.
Proof.
  unfold place. case_bool_decide; [done|].
  destruct (safe_join _ _) as [t|] eqn:Ej; [|done]. intros [= <-]. by eapply safe_join_below.
Qed.

Lemma unpack_at_only before e target d path :
  Forall (λ u, is_link u.1 = false) before → is_link e = false → path ≠ target →
  (unpack_at before e target d).2 !! path = d !! path.
Proof.
  intros Hl He Hp. unfold unpack_at. destruct (attempt _ _); [|done].
  pose proof (unpack_only before e target d path Hl He Hp) as Hu. by destruct (unpack _ _ _ _).
Qed.

Lemma write_at_only e target d path : path ≠ target → (write_at e target d).2 !! path = d !! path.
Proof.
  intros Hp. unfold write_at. destruct (is_dir e); [done|].
  repeat (destruct (attempt _ _); [|done]).
  destruct (copy_entry e target) as [[n problem]|]; simpl; by rewrite lookup_insert_ne.
Qed.

Lemma extract_entries_below dir strip before entries d path :
  Forall (λ u, is_link u.1 = false) before → Forall (λ e, is_link e = false) (readable entries) →
  ¬ below dir path → (extract_entries dir strip before entries d).2 !! path = d !! path.
Proof.
  intros Hbf Hl Hb. revert before d Hbf.
  induction entries as [|[e|] entries IH]; intros before d Hbf; simpl; [done| |done].
  change (readable (Ok e :: entries)) with (e :: readable entries) in Hl.
  apply Forall_cons in Hl as [He Hl].
  destruct (place _ _ _) as [[target|]|] eqn:Ep; [|by apply IH|done]. apply place_below in Ep.
  pose proof (unpack_at_only before e target d path Hbf He) as Hu.
  destruct (unpack_at _ _ _ _) as [[[]|] d1]; [rewrite IH|]; try done; try (apply Hu; by intros ->).
  apply Forall_app. by repeat constructor.
Qed.

Lemma extract_zip_below dir strip entries d path :
  ¬ below dir path → (extract_zip_entries dir strip entries d).2 !! path = d !! path.
Proof.
  intros Hb. revert d. induction entries as [|[e|] entries IH]; intros d; simpl; [done| |done].
  destruct (enclosed_name _) as [raw|]; [|done].
  destruct (place _ _ _) as [[target|]|] eqn:Ep; [|apply IH|done]. apply place_below in Ep.
  pose proof (write_at_only e target d path) as Hu.
  destruct (write_at _ _ _) as [[[]|] d1]; [rewrite IH|]; apply Hu; by intros ->.
Qed.

Lemma extract_below a archive dir d path :
  (∀ entries, af_format a = TarGz → decode TarGz (default [] (d !! archive)) = Ok entries →
    Forall (λ e, is_link e = false) (readable entries)) →
  ¬ below dir path → (extract a archive dir d).2 !! path = d !! path.
Proof.
  intros Hl Hb. unfold extract, extract_tar_gz, extract_zip, tar_entry_names, tar_entries.
  destruct (attempt _ _); [|done].
  destruct (af_format a); (destruct (attempt _ _); [|done]).
  - destruct (decode _ _) as [entries|] eqn:Ed; [|done].
    destruct (attempt _ _); [|done]. apply extract_entries_below; [done|by apply Hl|done].
  - destruct (decode Zip _); [by apply extract_zip_below|done].
Qed.

(** ** Installing *)

Context `{Sha256} `{Server}.

(** C35: the engine that is installed is the one that was pinned.  Unless it was
    there before, a path is given back only after an archive with the pinned
    digest was fetched and all of it unpacked.  Whatever happens, and whatever
    names the entries have, no other file is touched than those below the
    engine's directory, the archive and its [.part] file, as long as a [tar]
    archive with the pinned digest has no links, which are followed. *)
Theorem engine_is_what_was_pinned root platform os arch w i d :
  let '(r, d') := ensure root platform os arch w i d in
  ((∀ a, platform = Some a → linkless a) → ∀ path, (∀ a, platform = Some a →
      ¬ below (path_join root (install_dir_name a)) path ∧ path ≠ path_join root (af_asset a) ∧
      path ≠ partial_path (path_join root (af_asset a))) → d' !! path = d !! path) ∧
  ∀ server, r = Ok server →
    is_Some (d' !! server) ∧
    ∃ a, platform = Some a ∧ server = server_path root a ∧
      (d' = d ∨
       ∃ bytes d1 d2, eq_ignore_ascii_case (digest_of bytes) (af_sha256 a) = true ∧
         d1 !! path_join root (af_asset a) = Some bytes ∧
         extract a (path_join root (af_asset a)) (path_join root (install_dir_name a)) d1 = (Ok tt, d2) ∧
         d' = if in_removes i then delete (path_join root (af_asset a)) d2 else d2).
Proof.
  unfold ensure. destruct platform as [a|]; [|by auto].
  case_bool_decide as Hp; [split; [done|]; intros s [= <-]; by eauto 6|].
  set (archive := path_join root (af_asset a)). set (dir := path_join root (install_dir_name a)).
  set (f := mkFetch _ archive _).
  pose proof (fetch_checked f w d) as Hc.
  destruct (fetch f w d) as [r d1] eqn:Ef.
  assert (Hf1 : ∀ path, path ≠ archive → path ≠ partial_path archive → d1 !! path = d !! path).
  { intros path Ha Hpa. by eapply (fetch_elsewhere f). }
  destruct r as [got|err].
  2: { split; [|done]. intros _ path (_ & Ha & Hpa)%(λ h, h a eq_refl). by apply Hf1. }
  destruct Hc as (_ & _ & bytes & Hb & _ & _ & _ & Hexp). simpl in Hb, Hexp.
  destruct (in_task i) as [err|].
  { split; [|done]. intros _ path (_ & Ha & Hpa)%(λ h, h a eq_refl). by apply Hf1. }
  pose proof (extract_below a archive dir d1) as Hx. rewrite Hb in Hx. simpl in Hx.
  destruct (extract a archive dir d1) as [r d2] eqn:Ex. simpl in Hx.
  set (d3 := if in_removes i then _ else _).
  assert (Hf3 : linkless a → ∀ path, ¬ below dir path → path ≠ archive →
    path ≠ partial_path archive → d2 !! path = d !! path ∧ d3 !! path = d !! path).
  { intros Hl path Hbl Ha Hpa.
    assert (Hd2 : d2 !! path = d !! path).
    { rewrite Hx, Hf1; [done..| |done]. intros entries. apply Hl. by apply Hexp. }
    split; [done|]. unfold d3. destruct (in_removes i); [|done]. by rewrite lookup_delete_ne by congruence. }
  destruct r as [[]|err].
  2: { split; [|done]. intros Hl path (?&?&?)%(λ h, h a eq_refl). by apply Hf3; [apply Hl|..]. }
  case_bool_decide as Hs; [|destruct (attempt _ _)];
    (split; [intros Hl path (?&?&?)%(λ h, h a eq_refl); by apply Hf3; [apply Hl|..]|]); try done.
  intros s [= <-]. split; [by apply not_eq_None_Some|]. exists a. split_and!; [done..|].
  right. exists bytes, d1, d2. split_and!; try done. by apply Hexp.
Qed.
End unpacking.

(** ** An installation that broke off *)

(** A file system that has room for files of up to two bytes, and whose links
    are followed: what goes below one goes where it points. *)
#[local] Instance demo_files : FileSystem := {|
  make_dir _ _ := None; make_parent _ _ := None; open_archive _ _ _ := None;
  create_file _ _ := None;
  copy_entry e _ := if (2 <? length (ae_content e))%nat then Some (2%nat, DiskFull) else None |}.

Definition follow (before : list Unpacked) (target : str) : str :=
  match find_first (fun u => is_link u.1 && starts_with (u.2 ++ [SLASH]) target) before with
  | Some (link, at_path) => ae_content link ++ drop (length at_path) target
  | None => target
  end.

Definition small_unpack (before : list Unpacked) (e : ArchiveEntry) (target : str) (d : Disk)
    : option IoError * Disk :=
  match ae_kind e with
  | EkFile => if (2 <? length (ae_content e))%nat then (Some DiskFull, d)
              else (None, <[follow before target := ae_content e]> d)
  | _ => (None, d)
  end.

Lemma follow_linkless before target :
  Forall (λ u, is_link u.1 = false) before → follow before target = target.
Proof.
  intros Hl. unfold follow. destruct (find_first _ _) as [[link p]|] eqn:Ef; [|done].
  apply find_first_Some in Ef as [Hin Hu]. rewrite Forall_forall in Hl.
  specialize (Hl _ Hin). simpl in Hl, Hu. apply andb_true_iff in Hu as [Hu _]. congruence.
Qed.

#[local] Instance demo_unpack : Unpack.
Proof.
  refine {| unpack := small_unpack |}. intros before e target d path Hl _ Hne. unfold small_unpack.
  rewrite follow_linkless by done. destruct (ae_kind e); [|done..].
  destruct (_ <? _)%nat; [done|]. simpl. by rewrite lookup_insert_ne.
Defined.

#[local] Instance demo_enclosed : EnclosedName := Some.

Definition linux_artifact : RuntimeArtifact := default (mkArtifact [] [] [] TarGz [] 0) (head ARTIFACTS).

(** The digest of the demonstration is the pinned one, whatever is sent. *)
Definition agreeing_sha : Sha256 := fun _ =>
  [0x4e; 0xfb; 0xac; 0x3e; 0x8a; 0x64; 0x7c; 0x49; 0xcc; 0x48; 0x56; 0x24; 0x8f; 0xa2; 0x95; 0x93;
   0x7b; 0x94; 0x92; 0x1e; 0x31; 0xcd; 0xb2; 0xc9; 0x64; 0xbf; 0x8c; 0x57; 0x72; 0x47; 0x35; 0x59].

Definition one_archive : Server := fun _ _ => Ok (mkResponse 200 [Ok [9]]).

Definition holding (entries : list ArchiveEntry) : Decode := fun _ _ => Ok (Ok <$> entries).

Definition undisturbed : Installation := mkInstallation None true None.

Definition demo_ensure (entries : list ArchiveEntry) (d : Disk) : result str BackendError * Disk :=
  @ensure _ _ (holding entries) _ agreeing_sha one_archive (lit "/cache") (Some linux_artifact)
    (lit "linux") (lit "x86_64") smooth undisturbed d.

Definition released (third : list byte) : list ArchiveEntry :=
  [mkEntry (lit "llama-b10590/") EkDirectory [];
   mkEntry (lit "llama-b10590/llama-server") EkFile [1; 2];
   mkEntry (lit "llama-b10590/libggml.so") EkFile third].

Lemma engine_is_what_was_pinned_witness :
  (∀ a, Some linux_artifact = Some a → @linkless agreeing_sha (holding (released [3])) a) ∧
  ∃ server d', demo_ensure (released [3]) {[lit "/etc/hosts" := [7]]} = (Ok server, d') ∧
    is_Some (d' !! server) ∧ d' !! lit "/etc/hosts" = Some [7].
Proof.
  assert (Hl : ∀ a, Some linux_artifact = Some a → @linkless agreeing_sha (holding (released [3])) a).
  { intros a _ bytes entries _ _ [= <-]. repeat constructor. }
  split; [done|].
  pose proof (@engine_is_what_was_pinned _ _ (holding (released [3])) _ agreeing_sha one_archive
    (lit "/cache") (Some linux_artifact) (lit "linux") (lit "x86_64") smooth undisturbed
    {[lit "/etc/hosts" := [7]]}) as Ht.
  fold (demo_ensure (released [3]) {[lit "/etc/hosts" := [7]]}) in Ht.
  assert (Hok : is_ok (demo_ensure (released [3]) {[lit "/etc/hosts" := [7]]}).1 = true)
    by (vm_compute; reflexivity).
  destruct (demo_ensure _ _) as [[server|] d']; [|done]. exists server, d'.
  destruct Ht as [Hfiles Hserver]. split_and!; [done|by apply Hserver|].
  rewrite (Hfiles Hl); [done|]. intros a [= <-]. split_and!; [|by vm_compute..].
  intros (names & _ & _ & Hc). vm_compute in Hc. discriminate Hc.
Defined.

(** The server executable being there is what counts as installed: when the
    disk fills up behind it, the installation fails, and the next load uses
    what there is of it. *)
Theorem half_installed_engine_is_used :
  let '(first, d) := demo_ensure (released [3; 4; 5]) ∅ in
  let '(second, d') := demo_ensure (released [3; 4; 5]) d in
  first = Err (LowDisk 0 0) ∧ second = Ok (server_path (lit "/cache") linux_artifact) ∧ d' = d ∧
  d' !! path_join (path_join (lit "/cache") (install_dir_name linux_artifact)) (lit "libggml.so") = None.
Proof. vm_compute. split_and!; done. Qed.

(** A link is neither refused nor resolved by the check of names: what is below
    it in the archive is written where it points. *)
Theorem link_leads_outside :
  let entries := released [3] ++ [mkEntry (lit "llama-b10590/lib") EkLink (lit "/home/user");
                                  mkEntry (lit "llama-b10590/lib/.profile") EkFile [6]] in
  let '(r, d) := demo_ensure entries ∅ in
  is_ok r = true ∧ d !! lit "/home/user/.profile" = Some [6].
Proof. vm_compute. split; reflexivity. Qed.
