(* ===== verification/Supervisor.v ===== *)
(** * Supervising the engine

    [crates/lightweight-backend-llamacpp/src/supervisor.rs]: how an exit reads,
    the command line, the launch with its wait for readiness and its retries,
    and the last lines of output that travel with a failure.

    What the machine does is an argument: what is found and reserved
    ([Launch]), and what each turn of the wait sees ([Turn]).  What happens to
    processes is a list of events. *)

From stdpp Require Import base gmap strings numbers list.
From S2P Require Import Prelude Names Utf8 Net Ggml Frames Float64 Estimator Web Rewriter Keys.
From S2P Require Import Responses Generation.

(** ** How the engine ended *)

Inductive ExitClassification := ExClean | ExFailed (code : Z) | ExSignalled (signal : Z) | ExRunning.

#[export] Instance ExitClassification_eq_dec : EqDecision ExitClassification.
Proof. solve_decision. Defined.

Definition SIGILL : Z := 4.
Definition SIGKILL : Z := 9.
Definition SIGSEGV : Z := 11.

(** A process's status on Unix: the signal that ended it, or its code. *)
Record ExitStatus := mkStatus { st_signal : option Z; st_code : option Z }.

Definition exit_classify (status : ExitStatus) : ExitClassification :=
  match st_signal status with
  | Some signal => ExSignalled signal
  | None =>
      match st_code status with
      | Some 0 => ExClean
      | Some code => ExFailed code
      | None => ExFailed (-1)
      end
  end.

(** What [try_wait] gives. *)
Definition poll_exit (waited : result (option ExitStatus) unit) : ExitClassification :=
  match waited with
  | Ok (Some status) => exit_classify status
  | Ok None => ExRunning
  | Err _ => ExFailed (-1)
  end.

Definition decimal_signed (n : Z) : str := if n <? 0 then lit "-" ++ decimal (- n) else decimal n.

(** [ExitClassification::into_error]; [features] are the CPU's labels, joined,
    and [available] what the memory probe gives. *)
Definition into_error (features : str) (available : option u64) (e : ExitClassification)
    (tail : list str) : BackendError :=
  match e with
  | ExClean | ExRunning => EngineUnavailable
  | ExFailed code =>
      EngineCrashed (lit "exited with status " ++ decimal_signed code) (Some code) None tail
  | ExSignalled signal =>
      if signal =? SIGILL then UnsupportedCpuInstruction features
      else if signal =? SIGKILL then
        match available with
        | Some free =>
            if free <? from_mib 256 then EngineOom tail
            else EngineCrashed (lit "killed (signal 9)") None (Some SIGKILL) tail
        | None => EngineCrashed (lit "killed (signal 9)") None (Some SIGKILL) tail
        end
      else
        EngineCrashed
          (if signal =? SIGSEGV then lit "crashed with a segmentation fault"
           else lit "killed by signal " ++ decimal_signed signal)
          None (Some signal) tail
  end.

(** ** The command line *)

Definition ALLOWED_KV_CACHE_TYPES : list str :=
  lit <$> ["f32"; "f16"; "bf16"; "q8_0"; "q4_0"; "q4_1"; "iq4_nl"; "q5_0"; "q5_1"]%string.

Definition mode_as_str (m : LoadMode) : str :=
  match m with
  | LMAuto => lit "auto" | LMNone => lit "none" | LMMmap => lit "mmap" | LMMlock => lit "mlock"
  | LMMmapMlock => lit "mmap+mlock"
  end.

Definition locks_weights (m : LoadMode) : bool :=
  match m with LMMlock | LMMmapMlock => true | _ => false end.

Record EngineConfig := mkEngineConfig {
  ec_server_path : str;
  ec_install_dir : str;
  ec_model_path : str;
  ec_params : RuntimeParams;
  ec_threads : u32;
  ec_start_timeout : u64 }.

Definition engine_context (p : RuntimeParams) : u32 := Z.min U32_MAX (n_ctx p * Z.max (n_parallel p) 1).

Definition flag (name : string) (value : option str) : list str :=
  match value with Some v => [lit name; v] | None => [] end.

Definition build_args (c : EngineConfig) (port : u16) : list str :=
  let p := ec_params c in
  [lit "--model"; ec_model_path c;
   lit "--host"; lit "127.0.0.1";
   lit "--port"; decimal port;
   lit "--ctx-size"; decimal (engine_context p);
   lit "--batch-size"; decimal (n_batch p);
   lit "--ubatch-size"; decimal (n_ubatch p);
   lit "--parallel"; decimal (Z.max (n_parallel p) 1);
   lit "--no-kv-unified"; lit "--cont-batching";
   lit "--threads"; decimal (Z.max (ec_threads c) 1);
   lit "--cache-type-k"; type_name (cache_type_k p);
   lit "--cache-type-v"; type_name (cache_type_v p);
   lit "--jinja"; lit "--metrics"]
  ++ flag "--threads-batch" ((fun n => decimal (Z.max n 1)) <$> threads_batch p)
  ++ flag "--poll" ((fun n => decimal (Z.min n 100)) <$> poll p)
  ++ flag "--cache-reuse" (decimal <$> cache_reuse p)
  ++ match cpu_range p with
     | Some (low, high) =>
         [lit "--cpu-range"; decimal low ++ lit "-" ++ decimal high]
         ++ (if cpu_strict p then [lit "--cpu-strict"; lit "1"] else [])
     | None => []
     end
  ++ flag "--load-mode" (mode_as_str <$> load_mode p).

(** ** The last lines *)

Definition STDERR_TAIL_LINES : nat := 64.

(** [spawn_log_pump], for a line. *)
Definition pump_line (tail : list str) (line : str) : list str :=
  (if (length tail =? STDERR_TAIL_LINES)%nat then drop 1 tail else tail) ++ [line].

Definition log_pump (lines : list str) : list str := foldl pump_line [] lines.

(** ** The launch *)

Record Engine := mkEngine { en_pid : u32; en_port : u16; en_api_key : str }.

Definition base_url (e : Engine) : str := lit "http://127.0.0.1:" ++ decimal (en_port e).

Inductive ProcEvent := Spawned (pid : u32) (args : list str) | Stopped (pid : u32).

(** What one turn of the wait sees: the token, how the engine is, whether the
    probe is answered with success, how the engine is then, and whether the
    deadline is over. *)
Record Turn := mkTurn {
  tn_cancelled : bool;
  tn_exit : ExitClassification;
  tn_probe : bool;
  tn_exit_after : ExitClassification;
  tn_late : bool }.

(** What a launch finds: the files, the port and the key it is given, how the
    spawn and the HTTP client go, its turns and the lines the engine wrote. *)
Record Launch := mkLaunch {
  la_server : bool;
  la_model : bool;
  la_port : result u16 str;
  la_key : result (list byte) str;
  la_spawn : result u32 str;
  la_client : option str;
  la_turns : list Turn;
  la_lines : list str;
  la_features : str;
  la_available : option u64 }.

(** The loop of [await_ready]; [None] when the turns are over and the engine is
    still awaited. *)
Fixpoint await_turns (c : EngineConfig) (l : Launch) (turns : list Turn)
    : option (result unit BackendError) :=
  match turns with
  | [] => None
  | t :: turns =>
      let failed e := into_error (la_features l) (la_available l) e (log_pump (la_lines l)) in
      if tn_cancelled t then Some (Err Cancelled)
      else if negb (bool_decide (tn_exit t = ExRunning)) then Some (Err (failed (tn_exit t)))
      else if tn_probe t then Some (Ok tt)
      else if negb (bool_decide (tn_exit_after t = ExRunning)) then Some (Err (failed (tn_exit_after t)))
      else if tn_late t then Some (Err (StartTimeout (ec_start_timeout c)))
      else await_turns c l turns
  end.

Definition await_ready (c : EngineConfig) (l : Launch) : option (result unit BackendError) :=
  match la_client l with
  | Some problem => Some (Err (RuntimeDownloadFailed problem))
  | None => await_turns c l (la_turns l)
  end.

Definition enrich (err : BackendError) (captured : list str) : BackendError :=
  match err with
  | EngineCrashed detail exit_code signal tail =>
      if bool_decide (tail = []) then EngineCrashed detail exit_code signal captured else err
  | EngineOom tail => if bool_decide (tail = []) then EngineOom captured else err
  | _ => err
  end.

(** [start_attempt].  A launch whose caller goes while it waits is killed when
    it is dropped. *)
Definition start_attempt (c : EngineConfig) (l : Launch)
    : option (result Engine BackendError) * list ProcEvent :=
  if negb (la_server l) then (Some (Err (RuntimeMissing (ec_server_path c))), [])
  else if negb (la_model l) then (Some (Err (BeModelNotFound (ec_model_path c))), [])
  else
    match la_port l with
    | Err problem => (Some (Err (BeIo (lit "reserving a port for the engine") problem)), [])
    | Ok port =>
        match la_key l with
        | Err problem => (Some (Err (BeIo (lit "generating an engine API key") problem)), [])
        | Ok key =>
            match la_spawn l with
            | Err problem => (Some (Err (BeIo (lit "launching " ++ ec_server_path c) problem)), [])
            | Ok pid =>
                let spawned := Spawned pid (build_args c port) in
                match await_ready c l with
                | Some (Ok _) => (Some (Ok (mkEngine pid port (hex key))), [spawned])
                | Some (Err err) =>
                    (Some (Err (enrich err (log_pump (la_lines l)))), [spawned; Stopped pid])
                | None => (None, [spawned; Stopped pid])
                end
            end
        end
    end.

Definition MAX_START_ATTEMPTS : u32 := 3.

Definition is_retryable_startup (err : BackendError) : bool :=
  match err with EngineCrashed _ (Some _) None _ => true | _ => false end.

(** The loop of [start], with a [Launch] for each attempt it may make. *)
Fixpoint start_from (c : EngineConfig) (attempt : u32) (launches : list Launch)
    : option (result Engine BackendError) * list ProcEvent :=
  match launches with
  | [] => (None, [])
  | l :: launches =>
      let '(r, events) := start_attempt c l in
      match r with
      | Some (Err err) =>
          if (attempt <? MAX_START_ATTEMPTS) && is_retryable_startup err
          then let '(r, more) := start_from c (attempt + 1) launches in (r, events ++ more)
          else (r, events)
      | _ => (r, events)
      end
  end.

Definition start (c : EngineConfig) (launches : list Launch)
    : option (result Engine BackendError) * list ProcEvent := start_from c 1 launches.

(** ** What the system says *)

(** [str::lines]. *)
Definition strip_cr (line : str) : str :=
  match reverse line with c :: rest => if c =? CR then reverse rest else line | [] => [] end.

Definition str_lines (s : str) : list str :=
  let parts := split_at_any (fun c => c =? LF) s in
  strip_cr <$> (if bool_decide (last parts = Some []) then take (length parts - 1) parts else parts).

(** [str::split_whitespace]. *)
Definition split_whitespace (s : str) : list str :=
  List.filter (fun w => negb (bool_decide (w = []))) (split_at_any is_whitespace s).

(** [str::trim_start_matches]. *)
Fixpoint trim_start_matches (fuel : nat) (prefix s : str) : str :=
  match fuel with
  | O => s
  | S fuel => if starts_with prefix s then trim_start_matches fuel prefix (drop (length prefix) s) else s
  end.

Definition LOCKED_MEMORY : str := lit "Max locked memory".

Definition parse_locked_memory_limit (limits : str) : option u64 :=
  let! line := find_first (starts_with LOCKED_MEMORY) (str_lines limits) in
  let rest := trim (trim_start_matches (length line) LOCKED_MEMORY line) in
  let! soft := head (split_whitespace rest) in
  if eq_ignore_ascii_case soft (lit "unlimited") then Some U64_MAX
  else parse_unsigned U64_MAX soft.
