(* ===== verification/Backend.v ===== *)
(** * The engine behind its interface

    [crates/lightweight-backend-llamacpp/src/backend.rs]: which loads are
    admitted, the one resident engine and its replacement, what the engine is
    believed to run, and what the system says of its process.

    What a load meets is an argument ([LoadWorld]): how the runtime and the HTTP
    client turn out, the launches ([Supervisor]), what the engine says of itself
    and the id the instance is given. *)

From stdpp Require Import base gmap strings numbers list.
From S2P Require Import Prelude Names Utf8 Net Ggml Frames Float64 Estimator Metadata Web Rewriter.
From S2P Require Import Keys Responses Classifier Generation Engine Download Catalog Supervisor.

Record LoadRequest := mkLoadRequest {
  lr_model : ModelId;
  lr_path : str;
  lr_metadata : Extracted;
  lr_runtime : RuntimeParams }.

Definition BACKEND_ID : str := lit "llamacpp-process".

Record LoadedModel := mkLoaded {
  lm_model : ModelId;
  lm_backend : str;
  lm_instance : u64;
  lm_effective : RuntimeParams;
  lm_loaded_at : u64 }.

(** ** Admission *)

(** [ProcessBackend::admit]; whether the path is a file and the limit on locked
    memory, where it can be read. *)
Definition backend_admit (r : LoadRequest) (is_file : bool) (locked_limit : option u64)
    : result unit BackendError :=
  let md := lr_metadata r in
  let p := lr_runtime r in
  if negb (supported md)
  then Err (UnsupportedArchitecture (architecture md) (nearest (architecture md) 8))
  else
    let too_long := let! max := md_context_length (model md) in
                    if u32_or_max max <? n_ctx p then Some (u32_or_max max) else None in
    match too_long with
    | Some max => Err (InvalidContextLength (n_ctx p) max)
    | None =>
        match find_first (fun t => negb (bool_decide (type_name t ∈ ALLOWED_KV_CACHE_TYPES)))
                [cache_type_k p; cache_type_v p] with
        | Some t => Err (UnsupportedKvCacheType (type_name t) ALLOWED_KV_CACHE_TYPES)
        | None =>
            if negb is_file then Err (BeModelNotFound (lr_path r))
            else
              let short :=
                let! mode := load_mode p in
                if negb (locks_weights mode) then None
                else
                  let! limit := locked_limit in
                  let! weights := md_weight_bytes (model md) in
                  if limit <? weights then Some (weights, limit) else None in
              match short with
              | Some (weights, limit) => Err (LockedMemoryTooSmall weights limit)
              | None => Ok tt
              end
        end
    end.

(** ** What runs *)

Definition with_slots (p : RuntimeParams) (ctx slots : u32) : RuntimeParams :=
  with_parallel (with_context p ctx) slots.

Definition with_threads (p : RuntimeParams) (n : u32) : RuntimeParams :=
  mkParams (n_ctx p) (n_batch p) (n_ubatch p) (n_parallel p) (cache_type_k p) (cache_type_v p)
    (Some n) (threads_batch p) (poll p) (cache_reuse p) (cpu_range p) (cpu_strict p) (load_mode p).

Section backend.
Context `{Json}.

Definition reconciled (requested : RuntimeParams) (props : option Value) : RuntimeParams :=
  match props ≫= window_from_props with
  | None => requested
  | Some w =>
      if (n_ctx requested <=? ew_n_ctx w) && (Z.max (n_parallel requested) 1 <=? ew_total_slots w)
      then requested
      else with_slots requested (Z.min (ew_n_ctx w) (n_ctx requested))
             (Z.min (ew_total_slots w) (Z.max (n_parallel requested) 1))
  end.

Record RunningEngine := mkRunningEngine {
  re_instance : u64;
  re_model : ModelId;
  re_engine : Engine;
  re_effective : RuntimeParams;
  re_props : option Value;
  re_loaded_at : u64 }.

Record ProcessBackend := mkBackend {
  pb_running : option RunningEngine;
  pb_slots : u32 }.

Definition ProcessBackend_new : ProcessBackend := mkBackend None 1.

Definition max_concurrent_requests (b : ProcessBackend) : u32 := pb_slots b.

(** What a load meets. *)
Record LoadWorld := mkLoadWorld {
  lw_is_file : bool;
  lw_locked_limit : option u64;
  lw_runtime : result str BackendError;
  lw_cancelled : bool;
  lw_install_dir : result str BackendError;
  lw_default_threads : u32;
  lw_start_timeout : u64;
  lw_launches : list Launch;
  lw_client : option BackendError;
  lw_props : option Value;
  lw_instance : u64;
  lw_now : u64 }.

Definition stop_running (b : ProcessBackend) : list ProcEvent :=
  match pb_running b with Some r => [Stopped (en_pid (re_engine r))] | None => [] end.

(** [ProcessBackend::load]; [None] when the caller goes while the engine is
    awaited.  One step: the lock on what runs is let go between taking the old
    engine and keeping the new one, and in between there is nothing an unload,
    a health check or a shutdown could find ([nothing_moves_meanwhile]).  Two
    loads at once are the gateway's to prevent, which has one lock for them. *)
Definition backend_load (r : LoadRequest) (w : LoadWorld) (b : ProcessBackend)
    : option (result LoadedModel BackendError) * ProcessBackend * list ProcEvent :=
  match backend_admit r (lw_is_file w) (lw_locked_limit w) with
  | Err e => (Some (Err e), b, [])
  | Ok _ =>
      match lw_runtime w with
      | Err e => (Some (Err e), b, [])
      | Ok server_path =>
          if lw_cancelled w then (Some (Err Cancelled), b, [])
          else
            let stopped := stop_running b in
            let b := mkBackend None (pb_slots b) in
            let threads := default (lw_default_threads w) (threads (lr_runtime r)) in
            match lw_install_dir w with
            | Err e => (Some (Err e), b, stopped)
            | Ok install_dir =>
                let config := mkEngineConfig server_path install_dir (lr_path r) (lr_runtime r)
                                threads (lw_start_timeout w) in
                match start config (lw_launches w) with
                | (None, events) => (None, b, stopped ++ events)
                | (Some (Err e), events) => (Some (Err e), b, stopped ++ events)
                | (Some (Ok engine), events) =>
                    match lw_client w with
                    | Some e => (Some (Err e), b, stopped ++ events ++ [Stopped (en_pid engine)])
                    | None =>
                        let effective := reconciled (with_threads (lr_runtime r) threads) (lw_props w) in
                        let running := mkRunningEngine (lw_instance w) (lr_model r) engine effective
                                         (lw_props w) (lw_now w) in
                        (Some (Ok (mkLoaded (lr_model r) BACKEND_ID (lw_instance w) effective (lw_now w))),
                         mkBackend (Some running) (Z.max (n_parallel effective) 1), stopped ++ events)
                    end
                end
            end
      end
  end.

Definition backend_unload (instance : u64) (b : ProcessBackend) : ProcessBackend * list ProcEvent :=
  match pb_running b with
  | Some state =>
      if re_instance state =? instance then (mkBackend None 1, stop_running b) else (b, [])
  | None => (b, [])
  end.

Definition backend_shutdown (b : ProcessBackend) : ProcessBackend * list ProcEvent :=
  match pb_running b with
  | Some _ => (mkBackend None 1, stop_running b)
  | None => (b, [])
  end.

Inductive BackendHealth :=
| HealthStopped | HealthStarting | HealthReady | HealthBusy (detail : str) | HealthFailed (detail : str).

(** [ProcessBackend::health], with how the engine is. *)
Definition backend_health `{StrDebug} (features : str) (available : option u64)
    (e : ExitClassification) (tail : list str) (b : ProcessBackend)
    : BackendHealth * ProcessBackend * list ProcEvent :=
  match pb_running b with
  | None => (HealthStopped, b, [])
  | Some _ =>
      if bool_decide (e = ExRunning) then (HealthReady, b, [])
      else (HealthFailed (error_message (into_error features available e tail)),
            mkBackend None (pb_slots b), stop_running b)
  end.

(** [client_for], and with it what [generate] and [count_prompt_tokens] use. *)
Definition client_for (instance : u64) (b : ProcessBackend) : result Engine BackendError :=
  match pb_running b with
  | Some state => if re_instance state =? instance then Ok (re_engine state) else Err NoModelLoaded
  | None => Err NoModelLoaded
  end.

Definition engine_props (b : ProcessBackend) : option Value := pb_running b ≫= re_props.

End backend.

(** ** What the process uses *)

Record CpuTicks := mkTicks { ticks_user : u64; ticks_system : u64 }.

Definition ticks_total (t : CpuTicks) : u64 := sat_add64 (ticks_user t) (ticks_system t).
Definition ticks_since (t earlier : CpuTicks) : option u64 :=
  checked_sub (ticks_total t) (ticks_total earlier).

Inductive PeakKind := ResidentSet | Footprint.

Record ResourceSnapshot := mkResources {
  ru_rss : Bytes;
  ru_peak_rss : Bytes;
  ru_peak_kind : PeakKind;
  ru_anon_rss : option Bytes;
  ru_cpu_ticks : option CpuTicks }.

(** [line.split_once(':')]. *)
Definition split_colon (line : str) : option (str * str) :=
  let! i := find line [58] in Some (take i line, drop (S i) line).

Definition status_field (name status : str) : option Bytes :=
  let read line :=
    let! '(key, value) := split_colon line in
    if bool_decide (trim key = name)
    then let! word := head (split_whitespace value) in
         let! kib := parse_unsigned U64_MAX word in Some (sat_mul64 kib 1024)
    else None in
  head (omap read (str_lines status)).

Definition parse_process_status (status : str) : option ResourceSnapshot :=
  let! rss := status_field (lit "VmRSS") status in
  Some (mkResources rss (default 0 (status_field (lit "VmHWM") status)) ResidentSet
          (status_field (lit "RssAnon") status) None).

Definition parse_process_stat (stat : str) : option CpuTicks :=
  let! i := rposition 41 stat in
  let fields := split_whitespace (drop (S i) stat) in
  let! user := fields !! 11%nat ≫= parse_unsigned U64_MAX in
  let! system := fields !! 12%nat ≫= parse_unsigned U64_MAX in
  Some (mkTicks user system).

(** [read_process_usage], of what the two files hold. *)
Definition read_process_usage (status stat : option str) : option ResourceSnapshot :=
  let! s := status in
  let! usage := parse_process_status s in
  Some (mkResources (ru_rss usage) (ru_peak_rss usage) (ru_peak_kind usage) (ru_anon_rss usage)
          (stat ≫= parse_process_stat)).

Definition resource_usage `{Json} (status stat : option str) (b : ProcessBackend) : option ResourceSnapshot :=
  match pb_running b with Some _ => read_process_usage status stat | None => None end.
