(* ===== verification/BackendTheorems.v ===== *)
(** * Properties of the engine's supervision

    One engine at a time, and none left behind; what is given back as loaded
    answered its probe while it ran, and never promises more than was asked or
    than it has; only a lost port is tried again; and the slots a dead engine
    had are still told. *)

From stdpp Require Import base gmap strings numbers list relations.
From S2P Require Import Prelude Names Utf8 Net Ggml Frames Float64 Estimator Metadata Web Rewriter.
From S2P Require Import MetadataTheorems Keys Responses Classifier Generation Engine Download Catalog.
From S2P Require Import CatalogTheorems Supervisor Backend.

(** ** The last lines *)

Definition last_lines (n : nat) (lines : list str) : list str := drop (length lines - n) lines.

Lemma log_pump_snoc lines line : log_pump (lines ++ [line]) = pump_line (log_pump lines) line.
Proof. unfold log_pump. by rewrite foldl_app. Qed.

(** The lines that travel with a failure are the last the engine wrote,
    in order, and all of them when there are no more than fit. *)
Theorem tail_is_the_last_lines lines : log_pump lines = last_lines STDERR_TAIL_LINES lines.
Proof.
  unfold last_lines. induction lines as [|line lines IH] using rev_ind; [done|].
  rewrite log_pump_snoc, IH. unfold pump_line. rewrite length_drop, length_app. simpl.
  destruct (Nat.eqb_spec (length lines - (length lines - STDERR_TAIL_LINES)) STDERR_TAIL_LINES) as [He|Hne].
  - rewrite drop_drop, drop_app_le by (unfold STDERR_TAIL_LINES in *; lia).
    do 2 f_equal. unfold STDERR_TAIL_LINES in *. lia.
  - rewrite drop_app_le by (unfold STDERR_TAIL_LINES in *; lia).
    do 2 f_equal. unfold STDERR_TAIL_LINES in *. lia.
Qed.

(** ** The wait *)

(** The engine ran and answered. *)
Definition answered (l : Launch) : Prop :=
  ∃ t, t ∈ la_turns l ∧ tn_exit t = ExRunning ∧ tn_probe t = true ∧ tn_cancelled t = false.

Lemma await_turns_ready c l turns :
  await_turns c l turns = Some (Ok tt) →
  ∃ t, t ∈ turns ∧ tn_exit t = ExRunning ∧ tn_probe t = true ∧ tn_cancelled t = false.
Proof.
  induction turns as [|t turns IH]; simpl; [done|].
  destruct (tn_cancelled t) eqn:Ec; [done|]. case_bool_decide as He; simpl; [|done].
  destruct (tn_probe t) eqn:Ep.
  - intros _. exists t. split; [by left|done].
  - case_bool_decide; simpl; [|done]. destruct (tn_late t); [done|].
    intros (t' & Ht & Hr)%IH. exists t'. split; [by right|done].
Qed.

Lemma start_attempt_ready c l e events :
  start_attempt c l = (Some (Ok e), events) → answered l.
Proof.
  unfold start_attempt. destruct (la_server l), (la_model l); simpl; try done.
  destruct (la_port l), (la_key l), (la_spawn l); try done.
  destruct (await_ready c l) as [[[]|]|] eqn:Ea; try done. intros _.
  unfold await_ready in Ea. destruct (la_client l); [done|]. by eapply await_turns_ready.
Qed.

(** ** Retries *)

Lemma start_from_cases c attempt launches r :
  1 ≤ attempt → (start_from c attempt launches).1 = Some r →
  ∃ (n : nat) l, attempt + Z.of_nat n ≤ Z.max attempt MAX_START_ATTEMPTS ∧
    launches !! n = Some l ∧ (start_attempt c l).1 = Some r ∧
    (∀ (i : nat) l', (i < n)%nat → launches !! i = Some l' →
       ∃ e, (start_attempt c l').1 = Some (Err e) ∧ is_retryable_startup e = true) ∧
    (∀ e, r = Err e → is_retryable_startup e = true → MAX_START_ATTEMPTS ≤ attempt + Z.of_nat n).
Proof.
  revert attempt. induction launches as [|l launches IH]; intros attempt Ha; simpl; [done|].
  destruct (start_attempt c l) as [r0 events] eqn:El.
  assert (Hstop : ∀ r0', r0 = Some r0' → r0' = r →
    (∀ e, r = Err e → is_retryable_startup e = true → MAX_START_ATTEMPTS ≤ attempt) →
    ∃ (n : nat) l0, attempt + Z.of_nat n ≤ Z.max attempt MAX_START_ATTEMPTS ∧
      (l :: launches) !! n = Some l0 ∧ (start_attempt c l0).1 = Some r ∧
      (∀ (i : nat) l', (i < n)%nat → (l :: launches) !! i = Some l' →
         ∃ e, (start_attempt c l').1 = Some (Err e) ∧ is_retryable_startup e = true) ∧
      (∀ e, r = Err e → is_retryable_startup e = true → MAX_START_ATTEMPTS ≤ attempt + Z.of_nat n)).
  { intros r0' -> -> Hr. exists 0%nat, l. rewrite El. split_and!; [lia|done|done|lia|].
    intros e He Hre. specialize (Hr e He Hre). lia. }
  destruct r0 as [[e|err]|]; [|destruct (_ && _) eqn:Et|].
  - simpl. intros [= <-]. by eapply Hstop.
  - apply andb_true_iff in Et as [Hlt%Z.ltb_lt Hre].
    destruct (start_from c (attempt + 1) launches) as [r1 more] eqn:Es. simpl. intros Hr.
    destruct (IH (attempt + 1)) as (n & l0 & Hn & Hl & Hl0 & Hbefore & Hlast); [lia|by rewrite Es|].
    exists (S n), l0. split_and!; [lia|done|done| |].
    + intros [|i] l' Hi Hl'; simpl in Hl'; [|by apply (Hbefore i); [lia|]].
      injection Hl' as <-. exists err. by rewrite El.
    + intros e0 He0 Hre0. specialize (Hlast e0 He0 Hre0). lia.
  - simpl. intros [= <-]. eapply Hstop; [done|done|]. intros e [= <-] Hre.
    rewrite Hre, andb_true_r in Et. apply Z.ltb_ge in Et. done.
  - done.
Qed.

(** ** Processes *)

Definition alive_step (alive : list u32) (e : ProcEvent) : list u32 :=
  match e with
  | Spawned pid _ => pid :: alive
  | Stopped pid => List.filter (fun p => negb (p =? pid)) alive
  end.

(** The engines running after some events. *)
Definition alive (log : list ProcEvent) : list u32 := foldl alive_step [] log.

(** At no point are there two. *)
Definition calm (log : list ProcEvent) : Prop := ∀ k, (length (alive (take k log)) ≤ 1)%nat.

Lemma alive_app log events : alive (log ++ events) = foldl alive_step (alive log) events.
Proof. unfold alive. by rewrite foldl_app. Qed.

Lemma calm_app log events :
  calm log → (∀ k, (length (foldl alive_step (alive log) (take k events)) ≤ 1)%nat) → calm (log ++ events).
Proof.
  intros Hl He k. rewrite take_app, alive_app. destruct (decide (k ≤ length log)%nat).
  - replace (k - length log)%nat with 0%nat by lia. rewrite take_0. apply Hl.
  - rewrite (take_ge log) by lia. apply He.
Qed.

Definition pid_of (r : option (result Engine BackendError)) : list u32 :=
  match r with Some (Ok e) => [en_pid e] | _ => [] end.

Lemma start_attempt_alive c l :
  let '(r, events) := start_attempt c l in
  foldl alive_step [] events = pid_of r ∧
  ∀ k, (length (foldl alive_step [] (take k events)) ≤ 1)%nat.
Proof.
  unfold start_attempt.
  assert (Hnil : ∀ k, (length (foldl alive_step [] (take k [])) ≤ 1)%nat) by (intros k; rewrite take_nil; simpl; lia).
  destruct (la_server l), (la_model l); simpl; try by split.
  destruct (la_port l), (la_key l), (la_spawn l) as [pid|]; simpl; try by split.
  destruct (await_ready c l) as [[[]|]|]; simpl; rewrite ?Z.eqb_refl; simpl.
  all: split; [done|]; intros [|[|k]]; simpl; rewrite ?take_nil, ?Z.eqb_refl; simpl; lia.
Qed.

Lemma start_from_alive c attempt launches :
  let '(r, events) := start_from c attempt launches in
  foldl alive_step [] events = pid_of r ∧
  ∀ k, (length (foldl alive_step [] (take k events)) ≤ 1)%nat.
Proof.
  revert attempt. induction launches as [|l launches IH]; intros attempt; simpl.
  { split; [done|]. intros k. rewrite take_nil. simpl. lia. }
  pose proof (start_attempt_alive c l) as Ha. destruct (start_attempt c l) as [r events].
  destruct r as [[e|err]|]; try done. destruct (_ && _); [|done].
  specialize (IH (attempt + 1)). destruct (start_from c (attempt + 1) launches) as [r more].
  destruct Ha as [Ha Hk], IH as [IH Hmore]. rewrite foldl_app, Ha. split; [done|].
  intros k. rewrite take_app, foldl_app. destruct (decide (k ≤ length events)%nat).
  - replace (k - length events)%nat with 0%nat by lia. rewrite take_0. apply Hk.
  - rewrite (take_ge events), Ha by lia. apply Hmore.
Qed.

(** C36: only a launch that lost its port is tried again.  What a start comes to
    is what its last attempt came to; every attempt before it ended with the
    engine exiting on a code of its own, never by a signal, a timeout, a
    cancellation or for want of a file; there are at most three; such an exit
    is reported only after the third; and every engine that was spawned on the
    way and is not given back - all of them, when the start fails or the caller
    goes - has been stopped, each before the next was spawned. *)
Theorem only_lost_ports_are_retried c launches :
  alive (start c launches).2 = pid_of (start c launches).1 ∧ calm (start c launches).2 ∧
  match (start c launches).1 with
  | None => True
  | Some r =>
      ∃ (n : nat) l, (n < 3)%nat ∧ launches !! n = Some l ∧ (start_attempt c l).1 = Some r ∧
        (∀ (i : nat) l', (i < n)%nat → launches !! i = Some l' →
           ∃ detail code tail, (start_attempt c l').1 = Some (Err (EngineCrashed detail (Some code) None tail))) ∧
        (∀ detail code tail, r = Err (EngineCrashed detail (Some code) None tail) → n = 2%nat) ∧
        (∀ e, r = Ok e → answered l)
  end.
Proof.
  pose proof (start_from_alive c 1 launches) as Hs. split; [|split].
  1,2: unfold start, alive, calm; destruct (start_from c 1 launches); by destruct Hs.
  clear Hs. destruct (start c launches).1 as [r|] eqn:Es; [|done].
  apply start_from_cases in Es as (n & l & Hn & Hl & Hr & Hb & Hlast); [|lia].
  unfold MAX_START_ATTEMPTS in *. exists n, l. split_and!; [lia|done|done| | |].
  - intros i l' Hi Hl'. destruct (Hb i l' Hi Hl') as (e & He & Hre).
    destruct e as [| | | | | | | | | | | | |detail [code|] [signal|] tail| | | | | | |]; try done. by eauto.
  - intros detail code tail ->. specialize (Hlast _ eq_refl eq_refl). lia.
  - intros e ->. destruct (start_attempt c l) as [r0 events] eqn:Ea. simpl in Hr. subst.
    by eapply start_attempt_ready.
Qed.

Section backend.
Context `{Json} `{StrDebug}.

(** What is asked of a backend, one after another. *)
Inductive BackendOp :=
| OpLoad (r : LoadRequest) (w : LoadWorld)
| OpUnload (instance : u64)
| OpHealth (features : str) (available : option u64) (e : ExitClassification) (tail : list str)
| OpShutdown.

Definition backend_do (op : BackendOp) (b : ProcessBackend) : ProcessBackend * list ProcEvent :=
  match op with
  | OpLoad r w => let '(_, b, events) := backend_load r w b in (b, events)
  | OpUnload instance => backend_unload instance b
  | OpHealth features available e tail =>
      let '(_, b, events) := backend_health features available e tail b in (b, events)
  | OpShutdown => backend_shutdown b
  end.

Definition backend_all (ops : list BackendOp) : ProcessBackend * list ProcEvent :=
  foldl (fun s op => let '(b, events) := backend_do op s.1 in (b, s.2 ++ events))
    (ProcessBackend_new, []) ops.

Definition resident_pids (b : ProcessBackend) : list u32 :=
  match pb_running b with Some r => [en_pid (re_engine r)] | None => [] end.

(** What an operation does to the engines running, from the resident's on. *)
Definition well_run (before : list u32) (events : list ProcEvent) (after : list u32) : Prop :=
  foldl alive_step before events = after ∧
  ∀ k, (length (foldl alive_step before (take k events)) ≤ 1)%nat.

Lemma well_run_nil before : (length before ≤ 1)%nat → well_run before [] before.
Proof. intros Hb. split; [done|]. intros k. by rewrite take_nil. Qed.

Lemma well_run_app before mid after e1 e2 :
  well_run before e1 mid → well_run mid e2 after → well_run before (e1 ++ e2) after.
Proof.
  intros [<- H1] [H2 H3]. split; [by rewrite foldl_app|]. intros k.
  rewrite take_app, foldl_app. destruct (decide (k ≤ length e1)%nat).
  - replace (k - length e1)%nat with 0%nat by lia. rewrite take_0. apply H1.
  - rewrite (take_ge e1) by lia. apply H3.
Qed.

Lemma well_run_one before e : (length before ≤ 1)%nat →
  (length (alive_step before e) ≤ 1)%nat → well_run before [e] (alive_step before e).
Proof. intros Hb He. split; [done|]. intros [|k]; simpl; rewrite ?take_nil; done. Qed.

Lemma resident_one b : (length (resident_pids b) ≤ 1)%nat.
Proof. unfold resident_pids. destruct (pb_running b); simpl; lia. Qed.

Lemma stop_running_run b : well_run (resident_pids b) (stop_running b) [].
Proof.
  unfold stop_running, resident_pids. destruct (pb_running b) as [r|]; [|apply well_run_nil; simpl; lia].
  pose proof (well_run_one [en_pid (re_engine r)] (Stopped (en_pid (re_engine r)))) as Hr.
  simpl in Hr. rewrite Z.eqb_refl in Hr. simpl in Hr. apply Hr; lia.
Qed.

Lemma stopped_run pid : well_run [pid] [Stopped pid] [].
Proof.
  pose proof (well_run_one [pid] (Stopped pid)) as Hr. simpl in Hr. rewrite Z.eqb_refl in Hr.
  simpl in Hr. apply Hr; lia.
Qed.

Lemma backend_load_run r w b :
  let '(_, b', events) := backend_load r w b in well_run (resident_pids b) events (resident_pids b').
Proof.
  unfold backend_load.
  destruct (backend_admit _ _ _); [|apply well_run_nil, resident_one].
  destruct (lw_runtime w) as [server|]; [|apply well_run_nil, resident_one].
  destruct (lw_cancelled w); [apply well_run_nil, resident_one|].
  pose proof (stop_running_run b) as Hb. destruct (lw_install_dir w) as [dir|]; [|done].
  set (c := mkEngineConfig _ _ _ _ _ _). pose proof (start_from_alive c 1 (lw_launches w)) as Hs.
  unfold start.
  destruct (start_from c 1 (lw_launches w)) as [[[e|err]|] events]; simpl in Hs;
    try by eapply well_run_app.
  destruct (lw_client w); [|by eapply well_run_app].
  eapply well_run_app; [done|]. eapply well_run_app; [done|apply stopped_run].
Qed.

Lemma backend_do_run op b :
  let '(b', events) := backend_do op b in well_run (resident_pids b) events (resident_pids b').
Proof.
  destruct op as [r w|instance|features available e tail|]; simpl.
  - pose proof (backend_load_run r w b) as Hl. by destruct (backend_load r w b) as [[r' b'] events].
  - pose proof (stop_running_run b) as Hb. unfold backend_unload.
    destruct (pb_running b); [|apply well_run_nil, resident_one].
    destruct (_ =? _); [done|apply well_run_nil, resident_one].
  - pose proof (stop_running_run b) as Hb. unfold backend_health.
    destruct (pb_running b); [|apply well_run_nil, resident_one].
    case_bool_decide; [apply well_run_nil, resident_one|done].
  - pose proof (stop_running_run b) as Hb. unfold backend_shutdown.
    destruct (pb_running b); [done|apply well_run_nil, resident_one].
Qed.

(** While a load has no engine, nothing but a load does anything: to take a
    load for one step loses no interleaving of the others. *)
Lemma nothing_moves_meanwhile op slots :
  (∀ r w, op ≠ OpLoad r w) → backend_do op (mkBackend None slots) = (mkBackend None slots, []).
Proof. destruct op as [r w| | |]; [|done..]. intros H1. by destruct (H1 r w). Qed.

(** C16: one engine at a time, and none left behind.  Whatever is loaded,
    unloaded, probed and shut down, in any order, whatever fails on the way,
    and whoever stops waiting: at no moment do two engines run, and the one
    that runs is the resident one - so when none is resident, none runs. *)
Theorem one_engine_at_a_time ops :
  let '(b, log) := backend_all ops in
  alive log = resident_pids b ∧ calm log.
Proof.
  assert (Hrun : let '(b, log) := backend_all ops in well_run [] log (resident_pids b)).
  { unfold backend_all. induction ops as [|op ops IH] using rev_ind; [apply well_run_nil; simpl; lia|].
    rewrite foldl_app. simpl. destruct (foldl _ _ ops) as [b log]. simpl.
    pose proof (backend_do_run op b) as Ho. destruct (backend_do op b) as [b' events].
    by eapply well_run_app. }
  destruct (backend_all ops) as [b log]. exact Hrun.
Qed.

(** ** What is loaded *)

Lemma reconciled_cases requested props :
  let e := reconciled requested props in
  e = with_slots requested (n_ctx e) (n_parallel e) ∧
  n_ctx e ≤ n_ctx requested ∧ n_parallel e ≤ Z.max (n_parallel requested) 1 ∧
  ∀ window, props ≫= window_from_props = Some window →
    n_ctx e ≤ ew_n_ctx window ∧ n_parallel e ≤ ew_total_slots window.
Proof.
  unfold reconciled. destruct (props ≫= window_from_props) as [window|]; cbv zeta.
  - destruct (_ && _) eqn:E.
    + apply andb_true_iff in E as [?%Z.leb_le ?%Z.leb_le].
      split_and!; [by destruct requested|lia|lia|]. intros ? [= <-]. lia.
    + simpl. split_and!; [done|lia|lia|]. intros ? [= <-]. simpl. lia.
  - split_and!; [by destruct requested|lia|lia|done].
Qed.

(** What is given back as loaded is what runs.  A load that succeeds has
    its engine resident under the instance it names; that engine answered its
    probe while it ran; its window and its slots are never more than was asked
    for, nor than the engine says of itself, and everything else is as it was
    asked; the capability told is its slots.  One that is refused before an
    engine is started - by the model, the context, the cache, the file, the
    locked memory, the runtime or a cancellation - changes nothing at all; and
    no other failure leaves anything resident. *)
Theorem loaded_is_what_runs r w b :
  let '(res, b', events) := backend_load r w b in
  match res with
  | Some (Ok loaded) =>
      let e := lm_effective loaded in
      ∃ running, pb_running b' = Some running ∧ re_instance running = lm_instance loaded ∧
        re_model running = lr_model r ∧ re_effective running = e ∧
        client_for (lm_instance loaded) b' = Ok (re_engine running) ∧
        max_concurrent_requests b' = Z.max (n_parallel e) 1 ∧
        e = with_slots (with_threads (lr_runtime r) (default (lw_default_threads w) (threads (lr_runtime r))))
              (n_ctx e) (n_parallel e) ∧
        n_ctx e ≤ n_ctx (lr_runtime r) ∧ n_parallel e ≤ Z.max (n_parallel (lr_runtime r)) 1 ∧
        (∀ window, lw_props w ≫= window_from_props = Some window →
           n_ctx e ≤ ew_n_ctx window ∧ n_parallel e ≤ ew_total_slots window) ∧
        ∃ l, l ∈ lw_launches w ∧ answered l
  | Some (Err _) => (b' = b ∧ events = []) ∨ pb_running b' = None
  | None => pb_running b' = None
  end.
Proof.
  unfold backend_load. destruct (backend_admit _ _ _); [|by left].
  destruct (lw_runtime w) as [server|]; [|by left]. destruct (lw_cancelled w); [by left|].
  destruct (lw_install_dir w) as [dir|]; [|by right].
  set (c := mkEngineConfig _ _ _ _ _ _). unfold start.
  destruct (start_from c 1 (lw_launches w)) as [[[e|err]|] events] eqn:Es; [|by right|done].
  destruct (lw_client w); [by right|]. cbn [lm_effective lm_instance].
  set (requested := with_threads _ _). pose proof (reconciled_cases requested (lw_props w)) as Hc.
  cbv zeta in Hc |- *. destruct Hc as (Heff & Hctx & Hpar & Hwin).
  eexists. split; [reflexivity|]. cbn. rewrite Z.eqb_refl. split_and!; try done.
  assert (Hs : (start_from c 1 (lw_launches w)).1 = Some (Ok e)) by by rewrite Es.
  apply start_from_cases in Hs as (n & l & _ & Hl & Hr & _ & _); [|lia].
  exists l. split; [by eapply list_elem_of_lookup_2|].
  destruct (start_attempt c l) as [r0 ev] eqn:Ea. simpl in Hr. subst. by eapply start_attempt_ready.
Qed.

(** The slots of an engine that died, or that a load stopped in vain, are told
    for as long as nothing is loaded again. *)
Theorem slots_outlive_the_engine features available e tail r w b running :
  pb_running b = Some running → e ≠ ExRunning →
  (let '(_, b', _) := backend_health features available e tail b in
   pb_running b' = None ∧ max_concurrent_requests b' = max_concurrent_requests b) ∧
  (let '(res, b', _) := backend_load r w b in
   (∃ err, res = Some (Err err)) → max_concurrent_requests b' = max_concurrent_requests b).
Proof.
  intros Hr He. split.
  - unfold backend_health. rewrite Hr, bool_decide_eq_false_2 by done. done.
  - unfold backend_load. destruct (backend_admit _ _ _), (lw_runtime w), (lw_cancelled w), (lw_install_dir w); try done.
    destruct (start _ _) as [[[e0|]|] events]; try done. destruct (lw_client w); [done|].
    by intros [err [=]].
Qed.
End backend.

(** ** The window of a client *)

(** The engine divides its context among its slots: each gets what was asked
    for, unless the product is beyond 32 bits, and never more. *)
Lemma each_slot_gets_its_window p :
  0 ≤ n_ctx p →
  engine_context p / Z.max (n_parallel p) 1 ≤ n_ctx p ∧
  (n_ctx p * Z.max (n_parallel p) 1 ≤ U32_MAX → engine_context p / Z.max (n_parallel p) 1 = n_ctx p).
Proof.
  intros Hn. unfold engine_context. split.
  - transitivity (n_ctx p * Z.max (n_parallel p) 1 / Z.max (n_parallel p) 1); [apply Z.div_le_mono; lia|].
    rewrite Z.div_mul by lia. done.
  - intros Hle. rewrite Z.min_r, Z.div_mul by lia. done.
Qed.

(** ** The reader of [/proc] *)

(** What follows the last parenthesis is read, whatever the program's name. *)
Lemma stat_name_is_opaque before after :
  41 ∉ after →
  parse_process_stat (before ++ [41] ++ after)
  = let fields := split_whitespace after in
    let! user := fields !! 11%nat ≫= parse_unsigned U64_MAX in
    let! system := fields !! 12%nat ≫= parse_unsigned U64_MAX in
    Some (mkTicks user system).
Proof.
  intros Ha. pose proof (rsplit_once_last 41 before after Ha) as Hr.
  change (before ++ [41] ++ after) with (before ++ 41 :: after).
  unfold rsplit_once in Hr. apply bind_Some in Hr as (i & Hi & [= _ Hd]).
  unfold parse_process_stat. rewrite Hi. simpl. simpl in Hd. by rewrite Hd.
Qed.
