(* ===== verification/Manager.v ===== *)
(** * Models on a gateway that is serving

    [crates/lightweight-gateway/src/manager.rs] and [catalog.rs]: the resident
    model and its names, the operations on the catalog, the admission of a load
    against this machine's memory, and the sequences of a load and an unload.

    A load and an unload wait in two places: for the engine to be idle and for
    the backend.  Each is three functions, for what runs before, between and
    after; what the rest of the gateway does meanwhile happens in between.  What
    the machine is found to be is an argument ([Machine]). *)

From stdpp Require Import base gmap strings numbers list.
From S2P Require Import Prelude Scheduler Names Utf8 Net Ggml Frames Float64 Estimator Metadata Web.
From S2P Require Import Rewriter Keys Responses Generation Download Catalog Install Supervisor.
From S2P Require Import Classifier Engine Backend.

(** ** The resident model *)

Record ResidentModel := mkResident {
  rm_id : ModelId;
  rm_alias : option str;
  rm_instance : u64;
  rm_n_ctx : u32;
  rm_architecture : str;
  rm_param_count : option u64;
  rm_quantization : option str;
  rm_max_context : option u64;
  rm_ram_verdict : option Estimator.Verdict;
  rm_backend : option str;
  rm_path : str;
  rm_effective : RuntimeParams }.

Definition public_id (m : ResidentModel) : str := default (mid (rm_id m)) (rm_alias m).

Definition is_record (m : ResidentModel) (record : InstalledModel) : bool :=
  bool_decide (ModelId_slug (rm_id m) = im_id record) || bool_decide (rm_path m = im_path record).

Definition resident_with_alias (alias : option str) (m : ResidentModel) : ResidentModel :=
  mkResident (rm_id m) alias (rm_instance m) (rm_n_ctx m) (rm_architecture m) (rm_param_count m)
    (rm_quantization m) (rm_max_context m) (rm_ram_verdict m) (rm_backend m) (rm_path m) (rm_effective m).

(** [Catalog::adopt_alias]. *)
Definition adopt_alias (record : InstalledModel) (resident : option ResidentModel)
    : option ResidentModel * bool :=
  match resident with
  | Some m =>
      if is_record m record then (Some (resident_with_alias (im_alias record) m), true)
      else (resident, false)
  | None => (None, false)
  end.

Section names.
Context `{LowerCase}.

(** [ResidentModel::matches]. *)
Definition resident_matches (m : ResidentModel) (requested : str) : bool :=
  match ModelSelector_parse (Some requested) with
  | SelDefault => true
  | SelNamed requested =>
      match rm_alias m with Some held => same_name held requested | None => false end
      || bool_decide (requested = mid (rm_id m))
      || bool_decide (ModelId_slug (mkModelId requested) = ModelId_slug (rm_id m))
  end.
End names.

(** ** Failures *)

Record RuntimeDefaults := mkDefaults {
  rd_kv_type : GgmlType;
  rd_threads : option u32;
  rd_concurrency : option u32 }.

Definition RuntimeDefaults_default : RuntimeDefaults := mkDefaults F16 None (Some 1).

Record LoadOptions := mkOptions {
  lo_n_ctx : option u32;
  lo_kv_type : option GgmlType;
  lo_threads : option u32;
  lo_ubatch : option u32;
  lo_threads_batch : option u32;
  lo_load_mode : option LoadMode;
  lo_force : bool }.

Definition LoadOptions_default : LoadOptions := mkOptions None None None None None None false.

Inductive ManagerError :=
| MeCatalog (e : CatalogError)
| MeBackend (e : BackendError)
| MeBusy
| MeNoCatalog
| MeDrainTimedOut (seconds : u64)
| MeFileMissing (id path : str)
| MeInsufficient (model required available : str) (e : Estimate)
| MeMemoryProbe (code : str).

Definition manager_code (e : ManagerError) : str :=
  match e with
  | MeCatalog e => catalog_code e
  | MeBackend e => error_code e
  | MeBusy => lit "model_operation_in_progress"
  | MeNoCatalog => lit "no_model_catalog"
  | MeDrainTimedOut _ => lit "drain_timed_out"
  | MeFileMissing _ _ => lit "model_file_not_found"
  | MeMemoryProbe code => code
  | MeInsufficient _ _ _ _ => lit "insufficient_memory"
  end.

Definition manager_kind (e : ManagerError) : ErrorKind :=
  match e with
  | MeCatalog e => catalog_kind e
  | MeBackend e => error_kind e
  | MeBusy => KRateLimited
  | MeNoCatalog => KInternal
  | MeDrainTimedOut _ => KUnavailable
  | MeFileMissing _ _ => KNotFound
  | MeMemoryProbe _ => KInternal
  | MeInsufficient _ _ _ _ => KResourceExhausted
  end.

(** ** The catalog's operations *)

Section manager.
Context `{LowerCase}.

(** [ModelManager::set_alias]. *)
Definition manager_set_alias (saves : bool) (name : str) (alias : option str) (c : CatalogStore)
    : result InstalledModel ManagerError * CatalogStore :=
  match catalog_resolve c name with
  | None => (Err (MeCatalog (UnknownModel name)), c)
  | Some m =>
      let id := im_id m in
      let previous := let! old := catalog_get c id in im_alias old in
      match catalog_set_alias c id alias with
      | Err e => (Err (MeCatalog e), c)
      | Ok changed =>
          match catalog_save saves changed with
          | Ok saved => (Ok (with_alias (let! new := catalog_get changed id in im_alias new) m), saved)
          | Err e =>
              (Err (MeCatalog e),
               match catalog_set_alias changed id previous with Ok back => back | Err _ => changed end)
          end
      end
  end.

Record Removal := mkRemoval { removed_model : InstalledModel; file_deleted : bool }.

(** [ModelManager::remove]; [deletes] is how deleting the file goes. *)
Definition manager_remove (saves deletes : bool) (name : str) (delete_file : bool)
    (resident : option ModelId) (c : CatalogStore) (d : Disk)
    : result Removal ManagerError * CatalogStore * Disk :=
  match catalog_resolve c name with
  | None => (Err (MeCatalog (UnknownModel name)), c, d)
  | Some m =>
      if match resident with
         | Some loaded => bool_decide (ModelId_slug loaded = im_id m)
         | None => false
         end
      then (Err (MeCatalog (InUse (im_id m))), c, d)
      else
        match catalog_remove c (im_id m) with
        | Err e => (Err (MeCatalog e), c, d)
        | Ok (removed, c) =>
            match catalog_save saves c with
            | Err e => (Err (MeCatalog e), c, d)
            | Ok c =>
                if delete_file && is_ours_to_delete removed && deletes
                   && bool_decide (is_Some (d !! im_path removed))
                then (Ok (mkRemoval removed true), c, delete (im_path removed) d)
                else (Ok (mkRemoval removed false), c, d)
            end
        end
  end.
End manager.

(** [ModelManager::mark_loaded]. *)
Definition manager_mark_loaded (saves : bool) (now : u64) (id : str) (n_ctx : u32) (c : CatalogStore)
    : CatalogStore :=
  let c := alter id (mark_loaded n_ctx now) c in
  match catalog_save saves c with Ok c => c | Err _ => c end.

(** ** Progress *)

Inductive Step := StStage (name : str) | StFraction (name : str) (done : u64) (total : option u64).

Record Throttle := mkThrottle { last_stage : option str; last_percent : option u64 }.

Definition Throttle_default : Throttle := mkThrottle None None.

Definition should_emit (t : Throttle) (step : Step) : bool * Throttle :=
  match step with
  | StStage name =>
      (negb (bool_decide (last_stage t = Some name)), mkThrottle (Some name) None)
  | StFraction name done total =>
      let percent := let! total := total in checked_div (sat_mul64 done 100) total in
      let changed := negb (bool_decide (last_stage t = Some name))
                     || negb (bool_decide (last_percent t = percent)) in
      (changed || bool_decide (percent = None), mkThrottle (Some name) percent)
  end.

(** ** The context of a load *)

Inductive ContextSource := CtxRequested | CtxSetting | CtxFitted.

Record ContextChoice := mkContextChoice { cc_n_ctx : u32; cc_source : ContextSource }.

Definition choose_context (requested stored_default : option u32) (m : ModelMetadata)
    (base : RuntimeParams) (b : Budget) (cm : ComputeModel) : ContextChoice :=
  match requested with
  | Some n => mkContextChoice n CtxRequested
  | None =>
      match stored_default with
      | Some n => mkContextChoice n CtxSetting
      | None => mkContextChoice (default (n_ctx base) (largest_safe_context_against cm m base b None))
                  CtxFitted
      end
  end.

(** [RuntimeParams::with_ubatch]. *)
Definition with_ubatch (p : RuntimeParams) (n : u32) : RuntimeParams :=
  let ubatch := Z.max n 1 in
  mkParams (n_ctx p) (Z.max (n_batch p) ubatch) ubatch (n_parallel p) (cache_type_k p)
    (cache_type_v p) (threads p) (threads_batch p) (poll p) (cache_reuse p) (cpu_range p)
    (cpu_strict p) (load_mode p).

(** What the machine is found to be: its cores, its memory, the stored default
    context, what the engine's process uses, and the coefficients a load of some
    shape is judged by. *)
Record Machine := mkMachine {
  mc_default_threads : u32;
  mc_logical_cores : u32;
  mc_snapshot : result MemorySnapshot str;
  mc_default_ctx : option u32;
  mc_usage : option ResourceSnapshot;
  mc_estimator : Extracted → RuntimeParams → ComputeModel }.

Definition base_params (defaults : RuntimeDefaults) (o : LoadOptions) (mc : Machine) : RuntimeParams :=
  let cache_type := default (rd_kv_type defaults) (lo_kv_type o) in
  let threads := match lo_threads o with Some n => Some n | None => rd_threads defaults end in
  let d := RuntimeParams_default in
  let base := mkParams (n_ctx d) (n_batch d) (n_ubatch d) 1 cache_type cache_type
                (Some (default (mc_default_threads mc) threads)) (lo_threads_batch o) (poll d)
                (cache_reuse d) (cpu_range d) (cpu_strict d) (lo_load_mode o) in
  match lo_ubatch o with Some ubatch => with_ubatch base ubatch | None => base end.

Definition locks (p : RuntimeParams) : bool :=
  match load_mode p with Some mode => locks_weights mode | None => false end.

(** What the outgoing engine hands back. *)
Definition reclaimable (resident : option ResidentModel) (usage : option ResourceSnapshot) : Bytes :=
  match resident with
  | None => 0
  | Some m =>
      let anonymous := default 0 (usage ≫= ru_anon_rss) in
      let locked := if locks (rm_effective m)
                    then default 0 ((fun u => sat_sub (ru_rss u) anonymous) <$> usage) else 0 in
      sat_add64 anonymous locked
  end.

Definition insufficient (id : str) (e : Estimate) : ManagerError :=
  MeInsufficient id (display_bytes (e_total e)) (display_bytes (e_budget e)) e.

(** From the base parameters to those the engine is asked for, with the
    estimate they were judged by. *)
Definition judge (defaults : RuntimeDefaults) (o : LoadOptions) (mc : Machine)
    (resident : option ResidentModel) (id : str) (md : Extracted)
    : result (RuntimeParams * option Estimate) ManagerError :=
  let base := base_params defaults o mc in
  match mc_snapshot mc with
  | Err code =>
      if lo_force o
      then Ok (with_context base
                 (default (n_ctx base) (match lo_n_ctx o with Some n => Some n | None => mc_default_ctx mc end)),
               None)
      else Err (MeMemoryProbe code)
  | Ok snapshot =>
      let budget := reclaiming (Budget_of snapshot) (reclaimable resident (mc_usage mc)) in
      let slots_chosen := choose_concurrency ComputeModel_headless (rd_concurrency defaults)
                     (mc_logical_cores mc) (Some (model md)) base budget in
      let base := with_parallel base (slots slots_chosen) in
      let chosen := choose_context (lo_n_ctx o) (mc_default_ctx mc) (model md) base budget
                      ComputeModel_headless in
      let fitted := with_context base (cc_n_ctx chosen) in
      let e := estimate_against (mc_estimator mc md fitted) (model md) fitted budget in
      if locks fitted && bool_decide (verdict e = Tight) && negb (lo_force o)
      then Err (insufficient id e)
      else if bool_decide (verdict e = Insufficient) && negb (lo_force o)
      then Err (insufficient id e)
      else Ok (fitted, Some e)
  end.

(** ** Loading and unloading *)

Section gateway.
Context `{LowerCase} `{Json}.

(** What a gateway serves by; [mg_busy] is whether [operation] is locked. *)
Record Gateway := mkGateway {
  mg_scheduler : Scheduler;
  mg_backend : ProcessBackend;
  mg_resident : option ResidentModel;
  mg_catalog : CatalogStore;
  mg_busy : bool }.

(** A load that waits for the engine to be idle. *)
Record LoadTask := mkLoadTask {
  lt_model : InstalledModel;
  lt_request : LoadRequest;
  lt_judged : option Estimate }.

Definition DRAIN_TIMEOUT : u64 := 600.

(** [load_model], up to the pause. *)
Definition load_begin (defaults : RuntimeDefaults) (o : LoadOptions) (mc : Machine) (name : str)
    (d : Disk) (g : Gateway) : result LoadTask ManagerError * Gateway :=
  if mg_busy g then (Err MeBusy, g)
  else
    match catalog_resolve (mg_catalog g) name with
    | None => (Err (MeCatalog (UnknownModel name)), g)
    | Some m =>
        if bool_decide (d !! im_path m = None) then (Err (MeFileMissing (im_id m) (im_path m)), g)
        else
          match read_header (im_path m) d with
          | Err e => (Err (MeCatalog e), g)
          | Ok md =>
              match judge defaults o mc (mg_resident g) (im_id m) md with
              | Err e => (Err e, g)
              | Ok (p, judged) =>
                  (Ok (mkLoadTask m
                         (mkLoadRequest (ModelId_with_context (im_id m) (n_ctx p)) (im_path m) md p)
                         judged),
                   mkGateway (pause (mg_scheduler g)) (mg_backend g) (mg_resident g)
                     (mg_catalog g) true)
              end
          end
    end.

(** The guards are dropped: admission goes on, and the operation is over. *)
Definition load_over (now : Instant) (g : Gateway) : Gateway :=
  mkGateway (resume (mg_scheduler g) now) (mg_backend g) (mg_resident g) (mg_catalog g) false.

Definition with_backend (b : ProcessBackend) (g : Gateway) : Gateway :=
  mkGateway (mg_scheduler g) b (mg_resident g) (mg_catalog g) (mg_busy g).

(** The backend's part, once the engine is idle. *)
Definition load_engine (t : LoadTask) (w : LoadWorld) (now : Instant) (g : Gateway)
    : option (result LoadedModel BackendError) * Gateway * list ProcEvent :=
  let '(r, b, events) := backend_load (lt_request t) w (mg_backend g) in
  let g := with_backend b g in
  match r with
  | Some (Ok _) => (r, g, events)
  | _ => (r, load_over now g, events)
  end.

Definition resident_of (t : LoadTask) (l : LoadedModel) : ResidentModel :=
  let m := lt_model t in
  mkResident (lm_model l) (im_alias m) (lm_instance l) (n_ctx (lm_effective l)) (im_architecture m)
    (im_param_count m) (im_quantization m) (im_context_length m)
    (verdict <$> lt_judged t) (Some (lm_backend l))
    (im_path m) (lm_effective l).

(** What follows: the limits, the slots and the name of what runs. *)
Definition load_publish (t : LoadTask) (l : LoadedModel) (saves : bool) (unix : u64) (now : Instant)
    (g : Gateway) : ResidentModel * Gateway :=
  let p := lm_effective l in
  let s := set_capacity (set_band_limits (mg_scheduler g) (for_context (n_ctx p))) (n_parallel p) now in
  let m := resident_of t l in
  (m, load_over now
        (mkGateway s (mg_backend g) (Some m)
           (manager_mark_loaded saves unix (im_id (lt_model t)) (n_ctx p) (mg_catalog g))
           (mg_busy g))).

(** [load_model], with nothing in between; [drained] is how the wait ends. *)
Definition load_model (defaults : RuntimeDefaults) (o : LoadOptions) (mc : Machine) (name : str)
    (d : Disk) (drained : bool) (w : LoadWorld) (saves : bool) (unix : u64) (now : Instant)
    (g : Gateway) : option (result ResidentModel ManagerError) * Gateway * list ProcEvent :=
  match load_begin defaults o mc name d g with
  | (Err e, g) => (Some (Err e), g, [])
  | (Ok t, g) =>
      if negb drained then (Some (Err (MeDrainTimedOut DRAIN_TIMEOUT)), load_over now g, [])
      else
        match load_engine t w now g with
        | (Some (Ok l), g, events) =>
            let '(m, g) := load_publish t l saves unix now g in (Some (Ok m), g, events)
        | (Some (Err e), g, events) => (Some (Err (MeBackend e)), g, events)
        | (None, g, events) => (None, g, events)
        end
  end.

(** [unload_model]: the resident model is read and admission paused; the engine
    is stopped once it is idle; and then the name goes. *)
Definition unload_begin (g : Gateway) : option (ResidentModel * Gateway) :=
  let! m := mg_resident g in
  Some (m, mkGateway (pause (mg_scheduler g)) (mg_backend g) (mg_resident g) (mg_catalog g) (mg_busy g)).

Definition unload_over (now : Instant) (g : Gateway) : Gateway :=
  mkGateway (resume (mg_scheduler g) now) (mg_backend g) (mg_resident g) (mg_catalog g) (mg_busy g).

Definition unload_engine (m : ResidentModel) (g : Gateway) : Gateway * list ProcEvent :=
  let '(b, events) := backend_unload (rm_instance m) (mg_backend g) in (with_backend b g, events).

Definition unload_publish (now : Instant) (g : Gateway) : Gateway :=
  unload_over now (mkGateway (mg_scheduler g) (mg_backend g) None (mg_catalog g) (mg_busy g)).

Definition unload_model (drained : bool) (now : Instant) (g : Gateway)
    : result (option ModelId) ManagerError * Gateway * list ProcEvent :=
  match unload_begin g with
  | None => (Ok None, g, [])
  | Some (m, g) =>
      if negb drained then (Err (MeDrainTimedOut DRAIN_TIMEOUT), unload_over now g, [])
      else let '(g, events) := unload_engine m g in (Ok (Some (rm_id m)), unload_publish now g, events)
  end.
End gateway.
