(* ===== verification/ManagerTheorems.v ===== *)
(** * Properties of loading models on a serving gateway

    A load is judged for exactly what the engine is asked for, and a refused one
    changes nothing; what runs is what is published, as long as no unload
    crosses a load; and what is left when one does, when a swap fails and when a
    model that was served by its path is removed. *)

From stdpp Require Import base gmap strings numbers list relations.
From S2P Require Import Prelude Gguf Scheduler Names Utf8 Net Ggml Frames Float64 Estimator Metadata.
From S2P Require Import MetadataTheorems Web Rewriter Keys Responses Generation Download Catalog.
From S2P Require Import Install CatalogTheorems InstallTheorems Supervisor Classifier Engine Backend.
From S2P Require Import BackendTheorems Manager.

(** ** Admission *)

(** What stands behind a load that is let through: the estimate of its very
    parameters is admissible, and safe when its weights are locked, or it was
    forced; one that was not judged at all was forced past a failed probe. *)
Definition judged_by (o : LoadOptions) (mc : Machine) (resident : option ResidentModel) (md : Extracted)
    (p : RuntimeParams) (judged : option Estimate) : Prop :=
  match mc_snapshot mc, judged with
  | Ok snapshot, Some e =>
      e = estimate_against (mc_estimator mc md p) (model md) p
            (reclaiming (Budget_of snapshot) (reclaimable resident (mc_usage mc))) ∧
      (lo_force o = false → is_admissible (verdict e) = true ∧ (locks p = true → verdict e = Safe))
  | Err _, None => lo_force o = true
  | _, _ => False
  end.

(** What a load that is let through was judged by. *)
Lemma judge_cases defaults o mc resident id md :
  match judge defaults o mc resident id md with
  | Ok (p, judged) =>
      cache_type_k p = default (rd_kv_type defaults) (lo_kv_type o) ∧
      cache_type_v p = cache_type_k p ∧ load_mode p = lo_load_mode o ∧
      judged_by o mc resident md p judged
  | Err (MeInsufficient _ _ _ e) => lo_force o = false ∧ verdict e ≠ Safe
  | Err (MeMemoryProbe code) => lo_force o = false ∧ mc_snapshot mc = Err code
  | Err _ => False
  end.
Proof.
  assert (Hbase : ∀ c, let p := with_context (base_params defaults o mc) c in
    cache_type_k p = default (rd_kv_type defaults) (lo_kv_type o) ∧
    cache_type_v p = cache_type_k p ∧ load_mode p = lo_load_mode o)
    by (intros c; unfold base_params; by destruct (lo_ubatch o)).
  unfold judge, judged_by. destruct (mc_snapshot mc) as [snapshot|code].
  - set (budget := reclaiming _ _). set (n := slots _). set (c := cc_n_ctx _).
    set (fitted := with_context _ c). set (e := estimate_against _ _ _ _).
    destruct (locks fitted) eqn:El, (verdict e) eqn:Ev, (lo_force o) eqn:Ef; simpl;
      try (split; [done|]; rewrite Ev; done);
      (destruct (Hbase 0) as (Hk & Hv & Hm); split_and!; [exact Hk|exact Hv|exact Hm|done|];
       intros ?; split; [rewrite ?Ev; done|intros; congruence]).
  - destruct (lo_force o); [|done]. destruct (Hbase (default (n_ctx (base_params defaults o mc))
      (match lo_n_ctx o with Some n => Some n | None => mc_default_ctx mc end))) as (?&?&?). done.
Qed.

(** ** The scheduler's settings *)

Definition knobs (s : Scheduler) : u32 * BandLimits * bool := (capacity s, band_limits s, paused (inner s)).

Lemma take_next_knobs s now w s' : take_next s now = Some (w, s') → knobs s' = knobs s.
Proof.
  unfold take_next. intros He. repeat match type of He with
    | context [match ?x with _ => _ end] => destruct x; try done end. by injection He as <- <-.
Qed.

Lemma hand_over_knobs s w now : knobs (hand_over s w now).2 = knobs s.
Proof. unfold hand_over, reserve_running. simpl. by destruct (_ !! _). Qed.

Lemma grant_free_knobs fuel cap s now : knobs (grant_free fuel cap s now) = knobs s.
Proof.
  revert s. induction fuel as [|fuel IH]; intros s; simpl; [done|].
  destruct (_ <? _); [|done]. destruct (take_next s now) as [[w s1]|] eqn:E; [|done].
  by rewrite IH, hand_over_knobs, (take_next_knobs _ _ _ _ E).
Qed.

Lemma resume_knobs s now : knobs (resume s now) = (capacity s, band_limits s, false).
Proof. unfold resume. by rewrite grant_free_knobs. Qed.

Lemma resume_admits s now : paused (inner (resume s now)) = false.
Proof. pose proof (resume_knobs s now) as Hk. unfold knobs in Hk. by injection Hk. Qed.

Lemma set_capacity_knobs s cap now :
  knobs (set_capacity s cap now) = (Z.max cap 1, band_limits s, paused (inner s)).
Proof.
  unfold set_capacity, set_capacity_grant. destruct (paused _) eqn:E.
  - unfold knobs. by rewrite E.
  - rewrite grant_free_knobs. unfold knobs. simpl in E |- *. by rewrite E.
Qed.

(** ** One operation *)

Section gateway.
Context `{LowerCase} `{J : Json}.

Lemma load_begin_cases defaults o mc name d g :
  let '(r, g') := load_begin defaults o mc name d g in
  match r with
  | Ok t =>
      mg_busy g = false ∧
      g' = mkGateway (pause (mg_scheduler g)) (mg_backend g) (mg_resident g) (mg_catalog g) true ∧
      catalog_resolve (mg_catalog g) name = Some (lt_model t) ∧
      lr_path (lt_request t) = im_path (lt_model t) ∧
      lr_model (lt_request t)
        = ModelId_with_context (im_id (lt_model t)) (n_ctx (lr_runtime (lt_request t))) ∧
      read_header (im_path (lt_model t)) d = Ok (lr_metadata (lt_request t)) ∧
      judge defaults o mc (mg_resident g) (im_id (lt_model t)) (lr_metadata (lt_request t))
        = Ok (lr_runtime (lt_request t), lt_judged t)
  | Err e => g' = g ∧ ∀ seconds, e ≠ MeDrainTimedOut seconds
  end.
Proof.
  unfold load_begin. destruct (mg_busy g) eqn:Eb; [done|].
  destruct (catalog_resolve _ _) as [m|]; [|done]. case_bool_decide; [done|].
  destruct (read_header _ _) as [md|] eqn:Er; [|done].
  pose proof (judge_cases defaults o mc (mg_resident g) (im_id m) md) as Hj.
  destruct (judge _ _ _ _ _ _) as [[p judged]|e] eqn:Ej; [by split_and!|]. by destruct e.
Qed.

Lemma loaded_file_was_there r w b :
  let '(res, _, _) := backend_load r w b in
  match res with Some (Ok l) => lw_is_file w = true ∧ lm_model l = lr_model r | _ => True end.
Proof.
  unfold backend_load. destruct (backend_admit r (lw_is_file w) (lw_locked_limit w)) as [[]|] eqn:Ea; [|done].
  destruct (lw_runtime w); [|done]. destruct (lw_cancelled w); [done|].
  destruct (lw_install_dir w); [|done].
  destruct (start _ _) as [[[e|]|] events]; [|done..]. destruct (lw_client w); [done|]. split; [|done].
  unfold backend_admit in Ea. destruct (negb (supported _)); [done|]. destruct (md_context_length _ ≫= _); [done|].
  destruct (find_first _ _); [done|]. by destruct (lw_is_file w).
Qed.

(** C11: a load is judged, for exactly what the engine is then asked for, before
    anything is given up for it.  When it succeeds, the estimate of those very
    parameters - against this machine's memory and what the outgoing engine
    hands back - was admissible, and safe when the weights are locked, unless
    it was forced or forced past a probe that failed; the name, the window, the
    slots and the limits published are the engine's own, and the weights are
    those of the model that was named.  When it is refused, nothing has
    changed; when the engine does not become idle, only the pause has come and
    gone; and only a failure of the backend can leave no engine behind.  It
    always ends with the gateway admitting and ready for the next operation. *)
Theorem load_is_judged_first defaults o mc name d drained w saves unix now g :
  let '(r, g', events) := load_model defaults o mc name d drained w saves unix now g in
  (g' = g ∨ (mg_busy g' = false ∧ paused (inner (mg_scheduler g')) = false)) ∧
  match r with
  | Some (Ok m) =>
      ∃ model md judged p running,
        catalog_resolve (mg_catalog g) name = Some model ∧
        read_header (im_path model) d = Ok md ∧ lw_is_file w = true ∧
        judge defaults o mc (mg_resident g) (im_id model) md = Ok (p, judged) ∧
        judged_by o mc (mg_resident g) md p judged ∧
        pb_running (mg_backend g') = Some running ∧ mg_resident g' = Some m ∧
        rm_path m = im_path model ∧ rm_id m = ModelId_with_context (im_id model) (n_ctx p) ∧
        rm_instance m = re_instance running ∧ rm_effective m = re_effective running ∧
        rm_n_ctx m = n_ctx (rm_effective m) ∧
        n_ctx (rm_effective m) ≤ n_ctx p ∧ n_parallel (rm_effective m) ≤ Z.max (n_parallel p) 1 ∧
        capacity (mg_scheduler g') = Z.max (n_parallel (rm_effective m)) 1 ∧
        band_limits (mg_scheduler g') = for_context (rm_n_ctx m)
  | Some (Err (MeBackend _)) =>
      mg_resident g' = mg_resident g ∧ mg_catalog g' = mg_catalog g ∧
      ((mg_backend g' = mg_backend g ∧ events = []) ∨ pb_running (mg_backend g') = None)
  | Some (Err (MeDrainTimedOut _)) =>
      events = [] ∧
      g' = load_over now (mkGateway (pause (mg_scheduler g)) (mg_backend g) (mg_resident g)
                            (mg_catalog g) true)
  | Some (Err _) => g' = g ∧ events = []
  | None => mg_resident g' = mg_resident g ∧ pb_running (mg_backend g') = None
  end.
Proof.
  unfold load_model. pose proof (load_begin_cases defaults o mc name d g) as Hb.
  destruct (load_begin defaults o mc name d g) as [[t|e] g1].
  2: { destruct Hb as [-> Hne]. split; [by left|]. destruct e; auto. by destruct (Hne seconds). }
  destruct Hb as (Hbusy & -> & Hres & Hpath & Hmodel & Hread & Hjudge).
  assert (Hby : judged_by o mc (mg_resident g) (lr_metadata (lt_request t)) (lr_runtime (lt_request t))
                  (lt_judged t)).
  { pose proof (judge_cases defaults o mc (mg_resident g) (im_id (lt_model t)) (lr_metadata (lt_request t)))
      as Hj. rewrite Hjudge in Hj. by destruct Hj as (_ & _ & _ & Hj). }
  destruct drained; simpl.
  2: { split; [right; split; [done|]; apply resume_admits|done]. }
  unfold load_engine. simpl. pose proof (loaded_is_what_runs (lt_request t) w (mg_backend g)) as Hl.
  pose proof (loaded_file_was_there (lt_request t) w (mg_backend g)) as Hfile.
  destruct (backend_load (lt_request t) w (mg_backend g)) as [[res b'] events].
  destruct res as [[l|e]|]; simpl in *.
  2: { split; [right; split; [done|]; apply resume_admits|]. split_and!; [done|done|].
       destruct Hl as [[-> ->]|Hl]; auto. }
  2: { split; [right; split; [done|]; apply resume_admits|done]. }
  split; [right; split; [done|]; apply resume_admits|].
  destruct Hl as (running & Hrun & Hinst & Hm & Heff & _ & _ & _ & Hctx & Hpar & _).
  exists (lt_model t), (lr_metadata (lt_request t)), (lt_judged t), (lr_runtime (lt_request t)), running.
  destruct Hfile as [Hfile Hname]. rewrite <-Heff, <-Hinst, Hname, Hmodel.
  pose proof (set_capacity_knobs (set_band_limits (pause (mg_scheduler g)) (for_context (n_ctx (lm_effective l))))
    (n_parallel (lm_effective l)) now) as Hcap.
  match goal with |- context [resume ?s now] => pose proof (resume_knobs s now) as Hk end.
  pose proof (f_equal (fst ∘ fst) Hk) as Hk1. pose proof (f_equal (snd ∘ fst) Hk) as Hk2.
  pose proof (f_equal (fst ∘ fst) Hcap) as Hcap1. pose proof (f_equal (snd ∘ fst) Hcap) as Hcap2.
  clear Hk Hcap. cbn in Hk1, Hk2, Hcap1, Hcap2.
  rewrite Heff in *. split_and!; try done; try congruence.
Qed.
(** ** Operations that interleave *)

(** What is under way: a load that waits for the engine to be idle or has been
    given its engine, and an unload that waits or has stopped it. *)
Inductive LoadPhase := LoadDraining (t : LoadTask) | LoadDone (t : LoadTask) (l : LoadedModel).
Inductive UnloadPhase := UnloadDraining (m : ResidentModel) | UnloadDone.

Record System := mkSystem {
  sy_gateway : Gateway;
  sy_load : option LoadPhase;
  sy_unload : option UnloadPhase }.

Definition with_scheduler (s : Scheduler) (g : Gateway) : Gateway :=
  mkGateway s (mg_backend g) (mg_resident g) (mg_catalog g) (mg_busy g).

Definition with_resident (m : option ResidentModel) (g : Gateway) : Gateway :=
  mkGateway (mg_scheduler g) (mg_backend g) m (mg_catalog g) (mg_busy g).

(** The steps.  Requests come and go, keeping the scheduler's size and limits;
    [crossing] is whether an unload may begin while a load is under way, and a
    load while an unload is. *)
Inductive system_step (crossing : bool) : System → System → Prop :=
| sys_requests g s l u :
    capacity s = capacity (mg_scheduler g) → band_limits s = band_limits (mg_scheduler g) →
    system_step crossing (mkSystem g l u) (mkSystem (with_scheduler s g) l u)
| sys_alias g l u record :
    system_step crossing (mkSystem g l u)
      (mkSystem (with_resident (adopt_alias record (mg_resident g)).1 g) l u)
| sys_stops g l u b :
    pb_running b = None → system_step crossing (mkSystem g l u) (mkSystem (with_backend b g) l u)
| sys_load_begin g u defaults o mc name d t g' :
    (crossing = true ∨ u = None) → load_begin defaults o mc name d g = (Ok t, g') →
    system_step crossing (mkSystem g None u) (mkSystem g' (Some (LoadDraining t)) u)
| sys_load_timeout g u t now :
    system_step crossing (mkSystem g (Some (LoadDraining t)) u) (mkSystem (load_over now g) None u)
| sys_load_engine g u t w now l g' events :
    is_drained (mg_scheduler g) = true → load_engine t w now g = (Some (Ok l), g', events) →
    system_step crossing (mkSystem g (Some (LoadDraining t)) u) (mkSystem g' (Some (LoadDone t l)) u)
| sys_load_fails g u t w now r g' events :
    is_drained (mg_scheduler g) = true → load_engine t w now g = (r, g', events) →
    (∀ l, r ≠ Some (Ok l)) →
    system_step crossing (mkSystem g (Some (LoadDraining t)) u) (mkSystem g' None u)
| sys_load_publish g u t l saves unix now :
    system_step crossing (mkSystem g (Some (LoadDone t l)) u)
      (mkSystem (load_publish t l saves unix now g).2 None u)
| sys_unload_begin g l m g' :
    (crossing = true ∨ l = None) → unload_begin g = Some (m, g') →
    system_step crossing (mkSystem g l None) (mkSystem g' l (Some (UnloadDraining m)))
| sys_unload_timeout g l m now :
    system_step crossing (mkSystem g l (Some (UnloadDraining m))) (mkSystem (unload_over now g) l None)
| sys_unload_engine g l m :
    is_drained (mg_scheduler g) = true →
    system_step crossing (mkSystem g l (Some (UnloadDraining m)))
      (mkSystem (unload_engine m g).1 l (Some UnloadDone))
| sys_unload_publish g l now :
    system_step crossing (mkSystem g l (Some UnloadDone)) (mkSystem (unload_publish now g) l None).

(** What runs is what the gateway says. *)
Definition published (g : Gateway) (running : RunningEngine) : Prop :=
  ∃ m, mg_resident g = Some m ∧ rm_instance m = re_instance running ∧
    rm_effective m = re_effective running ∧ rm_n_ctx m = n_ctx (re_effective running) ∧
    capacity (mg_scheduler g) = Z.max (n_parallel (re_effective running)) 1 ∧
    band_limits (mg_scheduler g) = for_context (n_ctx (re_effective running)).

(** What runs between the operations, and while one is under way. *)
Record Consistent (s : System) : Prop := {
  cs_running running : pb_running (mg_backend (sy_gateway s)) = Some running →
    match sy_load s, sy_unload s with
    | Some (LoadDone t l), None =>
        re_instance running = lm_instance l ∧ re_effective running = lm_effective l
    | None, Some UnloadDone => False
    | None, Some (UnloadDraining m) => published (sy_gateway s) running ∧ rm_instance m = re_instance running
    | _, None => published (sy_gateway s) running
    | Some _, Some _ => False
    end;
  cs_one : sy_load s = None ∨ sy_unload s = None }.

Lemma adopt_published record g running :
  published g running → published (with_resident (adopt_alias record (mg_resident g)).1 g) running.
Proof.
  intros (m & Hm & H1 & H2 & H3 & H4 & H5). unfold adopt_alias. rewrite Hm.
  destruct (is_record m record); simpl.
  - by exists (resident_with_alias (im_alias record) m).
  - by exists m.
Qed.

Lemma published_same g g' running :
  mg_resident g' = mg_resident g → capacity (mg_scheduler g') = capacity (mg_scheduler g) →
  band_limits (mg_scheduler g') = band_limits (mg_scheduler g) →
  published g running → published g' running.
Proof.
  intros Hm Hc Hb (m & Hres & H1 & H2 & H3 & H4 & H5). exists m. split_and!; try done; congruence.
Qed.

Lemma resume_shape s now : capacity (resume s now) = capacity s ∧ band_limits (resume s now) = band_limits s.
Proof.
  pose proof (resume_knobs s now) as Hk.
  exact (conj (f_equal (fst ∘ fst) Hk) (f_equal (snd ∘ fst) Hk)).
Qed.

Lemma load_over_published now g running : published g running → published (load_over now g) running.
Proof.
  destruct (resume_shape (mg_scheduler g) now). by apply published_same.
Qed.

Lemma unload_over_published now g running : published g running → published (unload_over now g) running.
Proof.
  destruct (resume_shape (mg_scheduler g) now). by apply published_same.
Qed.

Lemma publish_published t l saves unix now g running :
  re_instance running = lm_instance l → re_effective running = lm_effective l →
  published (load_publish t l saves unix now g).2 running.
Proof.
  intros Hi He. unfold load_publish. simpl. apply load_over_published. exists (resident_of t l). simpl.
  pose proof (set_capacity_knobs (set_band_limits (mg_scheduler g) (for_context (n_ctx (lm_effective l))))
    (n_parallel (lm_effective l)) now) as Hk.
  pose proof (f_equal (fst ∘ fst) Hk) as Hk1. pose proof (f_equal (snd ∘ fst) Hk) as Hk2.
  cbn in Hk1, Hk2. rewrite He. by split_and!.
Qed.

Lemma unload_stops m g running :
  pb_running (mg_backend g) = Some running → rm_instance m = re_instance running →
  pb_running (mg_backend (unload_engine m g).1) = None.
Proof.
  intros Hr Hm. unfold unload_engine, backend_unload. by rewrite Hr, Hm, Z.eqb_refl.
Qed.

Lemma load_engine_cases t w now g :
  let '(r, g', _) := load_engine t w now g in
  match r with
  | Some (Ok l) =>
      ∃ running, pb_running (mg_backend g') = Some running ∧
        re_instance running = lm_instance l ∧ re_effective running = lm_effective l
  | _ => pb_running (mg_backend g') = None ∨ g' = load_over now g
  end.
Proof.
  unfold load_engine. pose proof (loaded_is_what_runs (lt_request t) w (mg_backend g)) as Hl.
  destruct (backend_load _ _ _) as [[res b'] events]. destruct res as [[l|e]|]; simpl in *.
  - destruct Hl as (running & Hr & Hi & _ & He & _). by exists running.
  - destruct Hl as [[-> _]|Hl]; [right|by left]. by destruct g.
  - by left.
Qed.

(** A state is consistent when its one condition on what runs holds. *)
Ltac consistent_step Hrun :=
  split; simpl in *;
    [let r := fresh "running" in let Hr := fresh "Hr" in intros r Hr; try specialize (Hrun r Hr)|by auto].

Lemma Consistent_step s s' : Consistent s → system_step false s s' → Consistent s'.
Proof.
  intros [Hrun Hone] Hstep.
  destruct Hstep as [g s l u Hc Hb|g l u record|g l u b Hb|g u defaults o mc name d t g' Hx Hbeg|g u t now
    |g u t w now l g' events Hd Heng|g u t w now r g' events Hd Heng Hne|g u t l saves unix now
    |g l m g' Hx Hbeg|g l m now|g l m Hd|g l now]; simpl in Hrun, Hone.
  - consistent_step Hrun. destruct l as [[|]|], u as [[|]|]; try done; try (by apply (published_same g)).
    destruct Hrun. split; [by apply (published_same g)|done].
  - consistent_step Hrun. destruct l as [[|]|], u as [[|]|]; try done; try by apply adopt_published.
    destruct Hrun. split; [by apply adopt_published|done].
  - consistent_step Hrun. congruence.
  - destruct Hx as [Hx | ->]; [done|].
    pose proof (load_begin_cases defaults o mc name d g) as Hb. rewrite Hbeg in Hb.
    destruct Hb as (_ & -> & _). consistent_step Hrun. by apply (published_same g).
  - destruct Hone as [Ho | ->]; [done|]. consistent_step Hrun. by apply load_over_published.
  - destruct Hone as [Ho | ->]; [done|]. pose proof (load_engine_cases t w now g) as Hl.
    rewrite Heng in Hl. destruct Hl as (running0 & Hr0 & Hi & He).
    split; simpl; [|by right]. intros running Hr. by simplify_eq.
  - destruct Hone as [Ho | ->]; [done|]. pose proof (load_engine_cases t w now g) as Hl.
    rewrite Heng in Hl. split; simpl; [|by left]. intros running Hr.
    assert (Hg : pb_running (mg_backend g') = None ∨ g' = load_over now g)
      by (destruct r as [[l|]|]; [by destruct (Hne l)|done..]).
    destruct Hg as [Hg | ->]; [congruence|]. apply load_over_published. by apply Hrun.
  - destruct Hone as [Ho | ->]; [done|]. consistent_step Hrun. destruct Hrun. by apply publish_published.
  - destruct Hx as [Hx | ->]; [done|]. unfold unload_begin in Hbeg.
    apply bind_Some in Hbeg as (m0 & Hm & [= -> <-]). consistent_step Hrun.
    split; [by apply (published_same g)|]. destruct Hrun as (m1 & Hm1 & Hi & _). congruence.
  - destruct Hone as [-> | Ho]; [|done]. consistent_step Hrun. destruct Hrun. by apply unload_over_published.
  - destruct Hone as [-> | Ho]; [|done]. split; simpl; [|by left]. intros running Hr.
    destruct (pb_running (mg_backend g)) as [running0|] eqn:E.
    + destruct (Hrun running0 eq_refl) as [_ Hm]. rewrite (unload_stops _ _ _ E Hm) in Hr. done.
    + unfold unload_engine, backend_unload in Hr. rewrite E in Hr. simpl in Hr. congruence.
  - destruct Hone as [-> | Ho]; [|done]. consistent_step Hrun. done.
Qed.

Definition nothing_resident (g : Gateway) : Prop := pb_running (mg_backend g) = None.

Lemma reachable_Consistent g0 s :
  nothing_resident g0 → rtc (system_step false) (mkSystem g0 None None) s → Consistent s.
Proof.
  intros H0' Hr. assert (Hc0 : Consistent (mkSystem g0 None None)).
  { split; [|by left]. simpl. intros r Hr0. unfold nothing_resident in H0'. congruence. }
  induction Hr as [|s0 s1 s2 Hstep _ IH]; [done|]. apply IH; try done. by eapply Consistent_step.
Qed.

(** What is published once no operation is under way. *)
Lemma Consistent_published s running :
  Consistent s → sy_load s = None → sy_unload s = None →
  pb_running (mg_backend (sy_gateway s)) = Some running → published (sy_gateway s) running.
Proof. intros Hc Hl Hu Hrun. pose proof (cs_running _ Hc running Hrun) as Hp. by rewrite Hl, Hu in Hp. Qed.

(** C10: what runs is what is published.  As long as no unload begins while a
    load is under way, nor a load while an unload is - whatever requests,
    renames, failures, timeouts and crashes come in between - between two
    operations an engine that runs is the resident model's: its instance, its
    parameters and its window are those told to clients, and the slots and the
    limits requests are admitted by are its own. *)
Theorem published_is_what_runs g0 s running :
  nothing_resident g0 → rtc (system_step false) (mkSystem g0 None None) s →
  sy_load s = None → sy_unload s = None →
  pb_running (mg_backend (sy_gateway s)) = Some running → published (sy_gateway s) running.
Proof.
  intros H0' Hr Hl Hu Hrun. by apply Consistent_published; [eapply reachable_Consistent|..].
Qed.
End gateway.

(** ** A gateway that loads *)

Section demo.
#[local] Instance silent_json : Json := {|
  Value := unit;
  Object := unit;
  from_str _ := None;
  to_string _ := [];
  as_object _ := None;
  as_string _ := None;
  as_items _ := None;
  value_as_u64 _ := None;
  of_object _ := tt;
  of_string _ := tt;
  empty_object := tt;
  object_get _ _ := None;
  object_insert _ _ _ := tt |}.
#[local] Existing Instance ascii_case.

(** A header that names an architecture the engine knows, and nothing else. *)
Definition llama_file : list byte :=
  MAGIC ++ to_le 4 3 ++ to_le 8 0 ++ to_le 8 1
  ++ to_le 8 20 ++ lit "general.architecture" ++ to_le 4 8 ++ to_le 8 5 ++ lit "llama".

Definition demo_path : str := lit "/models/LFM2-1.2B-Q4_K_M.gguf".

Definition demo_disk : gmap str (list byte) := {[ demo_path := llama_file ]}.

Definition demo_model : InstalledModel :=
  InstalledModel_new (lit "lfm2-1.2b-q4_k_m") demo_path 8 (lit "aa") ByManifest
    (FromManifest (lit "lfm2-1.2b-q4_k_m") (lit "https://a.example/f")) headless 5.

Definition demo_gateway : Gateway :=
  mkGateway (new 1 SchedulerConfig_default) ProcessBackend_new None
    (mkCatalog [] [demo_model] []) false.

Definition demo_machine : Machine :=
  mkMachine 4 8 (Err (lit "memory_probe_failed")) None None (fun _ _ => ComputeModel_headless).

Definition forced : LoadOptions := mkOptions (Some 4096) None None None None None true.

Definition ready_launch (pid : u32) : Launch :=
  mkLaunch true true (Ok 40000) (Ok [1; 2]) (Ok pid) None [mkTurn false ExRunning true ExRunning false]
    [] [] None.

Definition demo_world (instance : u64) : LoadWorld :=
  mkLoadWorld true None (Ok (lit "/cache/llama-server")) false (Ok (lit "/cache")) 4 300
    [ready_launch (1000 + instance)] None None instance 7.

Definition start_demo_load (g : Gateway) :=
  load_begin RuntimeDefaults_default forced demo_machine (lit "lfm2-1.2b-q4_k_m") demo_disk g.

Definition load_task : option LoadTask :=
  match (start_demo_load demo_gateway).1 with Ok t => Some t | Err _ => None end.

Example demo_load :
  match load_model RuntimeDefaults_default forced demo_machine (lit "lfm2-1.2b-q4_k_m") demo_disk true
          (demo_world 1) true 9 0 demo_gateway with
  | (Some (Ok m), g, [Spawned 1001 _]) =>
      public_id m = lit "lfm2-1.2b-q4_k_m@4k" ∧ rm_n_ctx m = 4096 ∧ alive [Spawned 1001 []] = [1001]
  | _ => False
  end.
Proof. vm_compute. split_and!; reflexivity. Qed.

(** Two loads of it, one after the other, and what each leaves. *)
Definition after_load (instance : u64) (g : Gateway) : option (ResidentModel * Gateway) :=
  match load_model RuntimeDefaults_default forced demo_machine (lit "lfm2-1.2b-q4_k_m") demo_disk true
          (demo_world instance) true 9 0 g with
  | (Some (Ok m), g, _) => Some (m, g)
  | _ => None
  end.

(** The steps of a load, as the system takes them. *)
Lemma demo_load_steps crossing g u t l g1 g2 instance events :
  crossing = true ∨ u = None →
  start_demo_load g = (Ok t, g1) → is_drained (mg_scheduler g1) = true →
  load_engine t (demo_world instance) 0 g1 = (Some (Ok l), g2, events) →
  rtc (system_step crossing) (mkSystem g None u) (mkSystem (load_publish t l true 9 0 g2).2 None u).
Proof.
  intros Hx Hb Hd He. eapply rtc_l; [by eapply sys_load_begin|].
  eapply rtc_l; [by eapply sys_load_engine|]. eapply rtc_l; [apply sys_load_publish|apply rtc_refl].
Qed.

Lemma published_is_what_runs_witness :
  ∃ s running, rtc (system_step false) (mkSystem demo_gateway None None) s ∧
    pb_running (mg_backend (sy_gateway s)) = Some running ∧ re_instance running = 1 ∧
    published (sy_gateway s) running.
Proof.
  eexists _, _. split.
  { eapply (demo_load_steps false demo_gateway None _ _ _ _ 1);
      [by right|vm_compute; reflexivity|vm_compute; reflexivity|vm_compute; reflexivity]. }
  split; [vm_compute; reflexivity|]. split; [vm_compute; reflexivity|].
  apply (published_is_what_runs demo_gateway _ _).
  - vm_compute. reflexivity.
  - eapply (demo_load_steps false demo_gateway None _ _ _ _ 1);
      [by right|vm_compute; reflexivity|vm_compute; reflexivity|vm_compute; reflexivity].
  - reflexivity.
  - reflexivity.
  - vm_compute. reflexivity.
Defined.
(** An unload takes no operation lock.  One that reads which model is resident
    before a load publishes another, and goes on after, takes the name of the
    new one away: its engine runs on, and no request finds it. *)
Theorem unload_crosses_load :
  ∃ s, rtc (system_step true) (mkSystem demo_gateway None None) s ∧
    sy_load s = None ∧ sy_unload s = None ∧
    is_Some (pb_running (mg_backend (sy_gateway s))) ∧ mg_resident (sy_gateway s) = None.
Proof.
  eexists. split.
  - etransitivity.
    { eapply (demo_load_steps true demo_gateway None _ _ _ _ 1);
        [by left|vm_compute; reflexivity|vm_compute; reflexivity|vm_compute; reflexivity]. }
    eapply rtc_l.
    { eapply (sys_load_begin true _ None RuntimeDefaults_default forced demo_machine
        (lit "lfm2-1.2b-q4_k_m") demo_disk); [by left|vm_compute; reflexivity]. }
    eapply rtc_l; [eapply sys_unload_begin; [by left|vm_compute; reflexivity]|].
    eapply rtc_l.
    { eapply (sys_load_engine true _ _ _ (demo_world 2) 0); [vm_compute; reflexivity|vm_compute; reflexivity]. }
    eapply rtc_l; [apply (sys_load_publish true _ _ _ _ true 9 0)|].
    eapply rtc_l; [apply sys_unload_engine; vm_compute; reflexivity|].
    eapply rtc_l; [apply (sys_unload_publish true _ _ 0)|apply rtc_refl].
  - vm_compute. split_and!; try reflexivity. by eexists.
Qed.

(** An engine that does not start. *)
Definition failing_world : LoadWorld :=
  mkLoadWorld true None (Ok (lit "/cache/llama-server")) false (Ok (lit "/cache")) 4 300
    [mkLaunch true true (Ok 40000) (Ok [1; 2]) (Ok 2000) None
       [mkTurn false (ExSignalled SIGSEGV) false ExRunning false] [] [] None] None None 2 7.

(** A swap whose engine does not start leaves the name of the model that was
    stopped for it: it is still listed as resident, with nothing behind it. *)
Theorem failed_swap_keeps_the_name :
  match after_load 1 demo_gateway with
  | Some (m, g) =>
      let '(r, g', _) := load_model RuntimeDefaults_default forced demo_machine
                           (lit "lfm2-1.2b-q4_k_m") demo_disk true failing_world true 9 0 g in
      (∃ e, r = Some (Err (MeBackend e))) ∧ mg_resident g' = Some m ∧
      pb_running (mg_backend g') = None ∧
      client_for (rm_instance m) (mg_backend g') = Err NoModelLoaded
  | None => False
  end.
Proof. vm_compute. split_and!; [by eexists|reflexivity|reflexivity|reflexivity]. Qed.

(** The model a file was served as from the command line. *)
Definition served_by_path : ResidentModel :=
  mkResident (ModelId_with_context (lit "LFM2-1.2B-Q4_K_M") 8192) None 1 8192 (lit "lfm2") None None None
    None (Some BACKEND_ID) demo_path RuntimeParams_default.

(** A model served by its path is the catalog's by that path, but not by its
    id, which is all that removing one looks at: its file is deleted from under
    the engine. *)
Theorem served_file_is_deleted :
  let '(r, _, d) := manager_remove true true (lit "lfm2-1.2b-q4_k_m") true (Some (rm_id served_by_path))
                      (mkCatalog [] [demo_model] []) demo_disk in
  is_record served_by_path demo_model = true ∧
  (∃ removal, r = Ok removal ∧ file_deleted removal = true) ∧ d !! rm_path served_by_path = None.
Proof. vm_compute. split_and!; [reflexivity|by eexists|reflexivity]. Qed.
(** The record as it is renamed while its model is being loaded. *)
Definition renamed_record : InstalledModel := with_alias (Some (lit "coder")) demo_model.

(** A name given to a model while it is loading is in the catalog, and the model
    then runs without it: the load goes on with the record it began with, and
    nothing was resident for the new name to reach. *)
Theorem rename_during_load_is_lost :
  match start_demo_load demo_gateway with
  | (Ok t, g) =>
      match manager_set_alias true (lit "lfm2-1.2b-q4_k_m") (Some (lit "coder")) (mg_catalog g) with
      | (Ok record, c) =>
          let '(resident, reached) := adopt_alias record (mg_resident g) in
          let g := mkGateway (mg_scheduler g) (mg_backend g) resident c (mg_busy g) in
          match load_engine t (demo_world 1) 0 g with
          | (Some (Ok l), g, _) =>
              let '(m, g) := load_publish t l true 9 0 g in
              record = renamed_record ∧ reached = false ∧
              (im_alias <$> catalog_resolve (mg_catalog g) (lit "coder")) = Some (Some (lit "coder")) ∧
              resident_matches m (lit "coder") = false
          | _ => False
          end
      | _ => False
      end
  | _ => False
  end.
Proof. vm_compute. split_and!; reflexivity. Qed.
End demo.
