(* ===== verification/Chat.v ===== *)
(** * The requests of the OpenAI surface

    [crates/lightweight-api/src/chat.rs] and [completions.rs], the request half:
    the shapes a body is read as, what is made of them, and the refusals; with
    the request types of [crates/lightweight-inference/src/generation.rs] they
    are translated into.

    A body is what serde reads it as; a JSON value a request carries through is
    a [Value] of the JSON library.  The router reads a part of the same request
    for its requirements ([Capability]): [abstracted] is that part. *)

From stdpp Require Import base gmap strings numbers list.
From S2P Require Import Prelude Names Utf8 Frames Float64 Rewriter Responses Classifier.
From S2P Require Import Capability.
From S2P Require Import AutoRoute.

(** JSON's [null] and [false]. *)
Class JsonConstants (J : Json) := {
  value_null : Value;
  value_is_null : Value → bool;
  value_is_false : Value → bool }.

(** ** What is asked of an engine *)

Record ToolCall := mkToolCall { tc_id : str; tc_name : str; tc_arguments : str }.

Record ChatMessage := mkChatMessage {
  cm_role : MessageRole;
  cm_content : str;
  cm_name : option str;
  cm_tool_call_id : option str;
  cm_tool_calls : list ToolCall }.

Record SamplingParams := mkSampling {
  sp_temperature : option f64;
  sp_top_p : option f64;
  sp_top_k : option u32;
  sp_min_p : option f64;
  sp_presence_penalty : option f64;
  sp_frequency_penalty : option f64;
  sp_repeat_penalty : option f64;
  sp_seed : option u64;
  sp_stop : list str }.

Definition SamplingParams_default : SamplingParams :=
  mkSampling None None None None None None None None [].

Inductive Prompt := PromptChat (messages : list ChatMessage) | PromptText (text : str).

Section json.
Context `{J : Json}.

Record ToolDefinition := mkTool {
  td_name : str;
  td_description : option str;
  td_parameters : Value }.

Record GenerationRequest := mkGeneration {
  gr_prompt : Prompt;
  gr_tools : list ToolDefinition;
  gr_tool_choice : ToolChoice;
  gr_parallel_tool_calls : option bool;
  gr_max_tokens : option u32;
  gr_sampling : SamplingParams;
  gr_reasoning : ReasoningControl;
  gr_template_options : Object }.

Definition with_prompt (p : Prompt) : GenerationRequest :=
  mkGeneration p [] ChooseUnspecified None None SamplingParams_default ReasonDefault empty_object.

Definition request_messages (g : GenerationRequest) : list ChatMessage :=
  match gr_prompt g with PromptChat messages => messages | PromptText _ => [] end.

(** [generation.max_tokens = Some(n)]. *)
Definition with_max_tokens (n : u32) (g : GenerationRequest) : GenerationRequest :=
  mkGeneration (gr_prompt g) (gr_tools g) (gr_tool_choice g) (gr_parallel_tool_calls g) (Some n)
    (gr_sampling g) (gr_reasoning g) (gr_template_options g).

(** ** A chat request *)

Inductive RequestError :=
| NoMessages
| ToolWithoutName (index : usize)
| UnknownToolChoice (value : str)
| ToolChoiceNotDeclared (name : str)
| ToolChoiceWithoutTools.

Definition request_error_param (e : RequestError) : str :=
  match e with
  | NoMessages => lit "messages"
  | ToolWithoutName _ => lit "tools"
  | UnknownToolChoice _ | ToolChoiceNotDeclared _ | ToolChoiceWithoutTools => lit "tool_choice"
  end.

Definition request_error_code (e : RequestError) : str :=
  match e with
  | NoMessages => lit "invalid_messages"
  | ToolWithoutName _ => lit "invalid_tools"
  | UnknownToolChoice _ | ToolChoiceNotDeclared _ | ToolChoiceWithoutTools => lit "invalid_tool_choice"
  end.

(** [Display]; the fourth sentence has an ellipsis and quotes in it. *)
Definition QUOTE : char := 34.
Definition quoted (s : str) : str := [QUOTE] ++ s ++ [QUOTE].

Definition request_error_message `{StrDebug} (e : RequestError) : str :=
  match e with
  | NoMessages => lit "messages must be a non-empty array of chat messages"
  | ToolWithoutName index =>
      lit "tools[" ++ decimal index
      ++ lit "] has no function name, so the model would have no way to call it"
  | UnknownToolChoice value =>
      lit "tool_choice must be " ++ quoted (lit "auto") ++ lit ", " ++ quoted (lit "none") ++ lit ", "
      ++ quoted (lit "required") ++ lit ", or {" ++ quoted (lit "type") ++ lit ":"
      ++ quoted (lit "function") ++ lit "," ++ quoted (lit "function") ++ lit ":{"
      ++ quoted (lit "name") ++ lit ":" ++ [8230] ++ lit "}}, not " ++ debug_str value
  | ToolChoiceNotDeclared name =>
      lit "tool_choice names the function " ++ debug_str name ++ lit ", which is not declared in tools"
  | ToolChoiceWithoutTools =>
      lit "tool_choice asks the model to call a tool, but no tools were declared"
  end.

Record StreamOptions := mkStreamOptions { so_include_usage : bool }.

Record ContentPart := mkPart { cp_type : option str; cp_text : option str }.

Inductive MessageContent :=
| McText (text : str)
| McParts (parts : list ContentPart)
| McOther (v : Value).

Definition to_text (c : MessageContent) : str :=
  match c with
  | McText text => text
  | McParts parts => join_with [LF] (omap cp_text parts)
  | McOther v => default [] (as_string v)
  end.

Record FunctionCall := mkFunctionCall { fc_name : option str; fc_arguments : option str }.

Record RequestToolCall := mkRequestCall { rtc_id : option str; rtc_function : option FunctionCall }.

Record RequestMessage := mkRequestMessage {
  rqm_role : option str;
  rqm_content : MessageContent;
  rqm_name : option str;
  rqm_tool_call_id : option str;
  rqm_tool_calls : list RequestToolCall }.

Record RequestFunctionDef := mkFunctionDef {
  fdef_name : option str;
  fdef_description : option str;
  fdef_parameters : option Value }.

Record RequestTool := mkRequestTool { rt_type : option str; rt_function : option RequestFunctionDef }.

Record ToolChoiceName := mkChoiceName { tcn_name : option str }.

Record ToolChoiceFunction := mkChoiceFunction {
  tcf_type : option str;
  tcf_function : option ToolChoiceName }.

Inductive RequestToolChoice := RtcNamed (value : str) | RtcFunction (f : ToolChoiceFunction).

Inductive OneOrMany (A : Type) := One (value : A) | Many (values : list A).
#[global] Arguments One {A} value.
#[global] Arguments Many {A} values.

Definition into_vec {A} (v : OneOrMany A) : list A :=
  match v with One value => [value] | Many values => values end.

(** [extra] are the keys nothing acts on. *)
Record ChatCompletionRequest := mkChatRequest {
  cr_model : option str;
  cr_messages : list RequestMessage;
  cr_stream : bool;
  cr_stream_options : option StreamOptions;
  cr_max_tokens : option u32;
  cr_max_completion_tokens : option u32;
  cr_temperature : option f64;
  cr_top_p : option f64;
  cr_top_k : option u32;
  cr_min_p : option f64;
  cr_presence_penalty : option f64;
  cr_frequency_penalty : option f64;
  cr_repeat_penalty : option f64;
  cr_seed : option u64;
  cr_stop : option (OneOrMany str);
  cr_reasoning_effort : option str;
  cr_chat_template_kwargs : option Object;
  cr_tools : option (list RequestTool);
  cr_tool_choice : option RequestToolChoice;
  cr_parallel_tool_calls : option bool;
  cr_extra : list str }.

Definition asks_usage (options : option StreamOptions) : bool :=
  match options with Some options => so_include_usage options | None => false end.

Definition chat_wants_usage (r : ChatCompletionRequest) : bool := asks_usage (cr_stream_options r).

Definition requested_max_tokens (r : ChatCompletionRequest) : option u32 :=
  match cr_max_tokens r, cr_max_completion_tokens r with
  | Some a, Some b => Some (Z.min a b)
  | Some value, None | None, Some value => Some value
  | None, None => None
  end.

(** [.map(trim).filter(|name| !name.is_empty())]. *)
Definition usable_name (name : option str) : option str :=
  let! name := name in
  let name := trim name in
  if bool_decide (name = []) then None else Some name.

Section consts.
Context `{!JsonConstants J}.

Definition tool_definition (index : usize) (tool : RequestTool) : result ToolDefinition RequestError :=
  match usable_name (rt_function tool ≫= fdef_name) with
  | None => Err (ToolWithoutName index)
  | Some name =>
      Ok (mkTool name
            (let! text := rt_function tool ≫= fdef_description in
             if bool_decide (trim text = []) then None else Some text)
            (default value_null (rt_function tool ≫= fdef_parameters)))
  end.

Fixpoint tool_definitions_from (index : usize) (tools : list RequestTool)
    : result (list ToolDefinition) RequestError :=
  match tools with
  | [] => Ok []
  | tool :: tools =>
      let? d := tool_definition index tool in
      let? rest := tool_definitions_from (index + 1) tools in
      Ok (d :: rest)
  end.

Definition tool_definitions (r : ChatCompletionRequest) : result (list ToolDefinition) RequestError :=
  match cr_tools r with None => Ok [] | Some tools => tool_definitions_from 0 tools end.

Definition parse_tool_choice (c : RequestToolChoice) : result ToolChoice RequestError :=
  match c with
  | RtcNamed value =>
      let value := trim value in
      if bool_decide (value = lit "auto") then Ok ChooseAuto
      else if bool_decide (value = lit "none") then Ok ChooseNone
      else if bool_decide (value = lit "required") then Ok ChooseRequired
      else Err (UnknownToolChoice value)
  | RtcFunction f =>
      match usable_name (tcf_function f ≫= tcn_name) with
      | Some name => Ok (ChooseFunction name)
      | None => Err (UnknownToolChoice (lit "an object with no function name"))
      end
  end.

Definition resolved_tool_choice (declared : list ToolDefinition) (r : ChatCompletionRequest)
    : result ToolChoice RequestError :=
  match cr_tool_choice r with
  | None => Ok ChooseUnspecified
  | Some choice =>
      let? choice := parse_tool_choice choice in
      match choice with
      | ChooseRequired =>
          if bool_decide (declared = []) then Err ToolChoiceWithoutTools else Ok choice
      | ChooseFunction name =>
          if bool_decide (declared = []) then Err ToolChoiceWithoutTools
          else if existsb (fun t => bool_decide (td_name t = name)) declared then Ok choice
          else Err (ToolChoiceNotDeclared name)
      | _ => Ok choice
      end
  end.

Definition parse_role (role : option str) : MessageRole :=
  let role := default (lit "user") role in
  if bool_decide (role ∈ [lit "system"; lit "developer"]) then RoleSystem
  else if bool_decide (role = lit "assistant") then RoleAssistant
  else if bool_decide (role ∈ [lit "tool"; lit "function"]) then RoleTool
  else RoleUser.

Definition convert_call (call : RequestToolCall) : option ToolCall :=
  let! function := rtc_function call in
  let! name := fc_name function in
  Some (mkToolCall (default [] (rtc_id call)) name (default [] (fc_arguments function))).

Definition convert_message (m : RequestMessage) : option ChatMessage :=
  let text := to_text (rqm_content m) in
  let calls := omap convert_call (rqm_tool_calls m) in
  if bool_decide (text = []) && bool_decide (calls = []) then None
  else Some (mkChatMessage (parse_role (rqm_role m)) text (rqm_name m) (rqm_tool_call_id m) calls).

Definition reasoning_of (effort : option str) : ReasoningControl :=
  match trim <$> effort with
  | Some effort =>
      if bool_decide (effort = lit "none") then ReasonDisabled
      else if bool_decide (effort = []) then ReasonDefault else ReasonEffort effort
  | None => ReasonDefault
  end.

Definition chat_sampling (r : ChatCompletionRequest) : SamplingParams :=
  mkSampling (cr_temperature r) (cr_top_p r) (cr_top_k r) (cr_min_p r) (cr_presence_penalty r)
    (cr_frequency_penalty r) (cr_repeat_penalty r) (cr_seed r) (default [] (into_vec <$> cr_stop r)).

(** [ChatCompletionRequest::to_generation_request]. *)
Definition to_generation_request (r : ChatCompletionRequest) : result GenerationRequest RequestError :=
  let messages := omap convert_message (cr_messages r) in
  if bool_decide (messages = []) then Err NoMessages
  else
    let? tools := tool_definitions r in
    let? choice := resolved_tool_choice tools r in
    Ok (mkGeneration (PromptChat messages) tools choice (cr_parallel_tool_calls r)
          (requested_max_tokens r) (chat_sampling r) (reasoning_of (cr_reasoning_effort r))
          (default empty_object (cr_chat_template_kwargs r))).

(** ** A text completion *)

Inductive CompletionError :=
| NoPrompt | TokenPrompt | UnsupportedParam (param why : str).

Definition completion_error_param (e : CompletionError) : str :=
  match e with NoPrompt | TokenPrompt => lit "prompt" | UnsupportedParam param _ => param end.

Definition completion_error_code (e : CompletionError) : str :=
  match e with
  | NoPrompt | TokenPrompt => lit "invalid_prompt"
  | UnsupportedParam _ _ => lit "unsupported_parameter"
  end.

Definition completion_error_message (e : CompletionError) : str :=
  match e with
  | NoPrompt => lit "prompt must be a non-empty string, or an array of them"
  | TokenPrompt =>
      lit "prompt must be text: this gateway does not accept pre-tokenized prompts, because the token ids belong to a tokenizer it cannot verify is yours"
  | UnsupportedParam param why => param ++ lit " is not supported by this gateway: " ++ why
  end.

Inductive CompletionPrompt :=
| CpText (text : str)
| CpMany (texts : list str)
| CpTokens (v : Value).

Definition to_texts (p : CompletionPrompt) : result (list str) CompletionError :=
  match p with
  | CpTokens v =>
      match as_items v with
      | Some [] => Err NoPrompt
      | _ => Err TokenPrompt
      end
  | CpText text => if bool_decide (text = []) then Err NoPrompt else Ok [text]
  | CpMany texts =>
      if forallb (fun t => bool_decide (t = [])) texts then Err NoPrompt else Ok texts
  end.

Record CompletionRequest := mkCompletionRequest {
  cq_model : option str;
  cq_prompt : option CompletionPrompt;
  cq_stream : bool;
  cq_stream_options : option StreamOptions;
  cq_max_tokens : option u32;
  cq_n : option u32;
  cq_echo : option bool;
  cq_temperature : option f64;
  cq_top_p : option f64;
  cq_top_k : option u32;
  cq_min_p : option f64;
  cq_presence_penalty : option f64;
  cq_frequency_penalty : option f64;
  cq_repeat_penalty : option f64;
  cq_seed : option u64;
  cq_stop : option (OneOrMany str);
  cq_logprobs : option Value;
  cq_best_of : option u32;
  cq_suffix : option str;
  cq_extra : list str }.

Definition completion_wants_usage (r : CompletionRequest) : bool := asks_usage (cq_stream_options r).

Definition echoes_the_prompt (r : CompletionRequest) : bool := default false (cq_echo r).

Definition completions_per_prompt (r : CompletionRequest) : u32 := Z.max (default 1 (cq_n r)) 1.

Definition validate (r : CompletionRequest) : result unit CompletionError :=
  if match cq_logprobs r with
     | Some v => negb (value_is_null v) && negb (value_is_false v)
     | None => false
     end
  then Err (UnsupportedParam (lit "logprobs")
              (lit "per-token probabilities are not reported; remove the parameter to continue"))
  else if match cq_best_of r with Some best_of => 1 <? best_of | None => false end
  then Err (UnsupportedParam (lit "best_of")
              (lit "generating several completions and returning only the best would spend the whole budget on discarded work"))
  else if match cq_suffix r with Some text => negb (bool_decide (text = [])) | None => false end
  then Err (UnsupportedParam (lit "suffix")
              (lit "fill-in-the-middle needs tokens that are specific to each model, and this gateway does not know which yours uses"))
  else Ok tt.

Definition expand (r : CompletionRequest) : result (list str) CompletionError :=
  let? _ := validate r in
  match cq_prompt r with
  | None => Err NoPrompt
  | Some prompt =>
      let? texts := to_texts prompt in
      Ok (concat (replicate (Z.to_nat (completions_per_prompt r)) <$> texts))
  end.

Definition completion_sampling (r : CompletionRequest) : SamplingParams :=
  mkSampling (cq_temperature r) (cq_top_p r) (cq_top_k r) (cq_min_p r) (cq_presence_penalty r)
    (cq_frequency_penalty r) (cq_repeat_penalty r) (cq_seed r) (default [] (into_vec <$> cq_stop r)).

(** [CompletionRequest::to_generation_request]. *)
Definition completion_generation (prompt : str) (r : CompletionRequest) : GenerationRequest :=
  mkGeneration (PromptText prompt) [] ChooseUnspecified None (cq_max_tokens r) (completion_sampling r)
    ReasonDefault empty_object.

(** ** What the router reads of it *)

Definition abstracted (g : GenerationRequest) : Capability.GenerationRequest :=
  Capability.mkGeneration
    (match gr_prompt g with
     | PromptChat messages => Capability.PromptChat (cm_content <$> messages)
     | PromptText text => Capability.PromptText text
     end)
    (td_name <$> gr_tools g) (gr_tool_choice g) (gr_reasoning g).
End consts.
End json.

(** ** Properties of the request half of the OpenAI surface

    A chat request is translated as a whole or refused for the first thing in
    it that is wrong; what is accepted can be read by the router's
    requirements; a text completion expands to its prompts in order. *)

Section chat.
Context `{J : Json} `{!JsonConstants J}.
Implicit Types r : ChatCompletionRequest.

(** How a choice of a tool is read. *)
Lemma parse_tool_choice_cases c :
  match parse_tool_choice c with
  | Ok (ChooseFunction name) => ∃ f, c = RtcFunction f ∧ usable_name (tcf_function f ≫= tcn_name) = Some name
  | Ok ChooseUnspecified => False
  | Ok choice => ∃ value, c = RtcNamed value ∧
      trim value = match choice with
                   | ChooseAuto => lit "auto" | ChooseNone => lit "none" | _ => lit "required" end
  | Err (UnknownToolChoice value) =>
      match c with
      | RtcNamed text => value = trim text ∧ value ∉ [lit "auto"; lit "none"; lit "required"]
      | RtcFunction f => usable_name (tcf_function f ≫= tcn_name) = None
      end
  | Err _ => False
  end.
Proof.
  destruct c as [value|f]; cbn [parse_tool_choice].
  - case_bool_decide as Ha; [eauto|]. case_bool_decide as Hn; [eauto|]. case_bool_decide as Hr; [eauto|].
    split; [done|]. set_solver.
  - destruct (usable_name _) eqn:E; eauto.
Qed.

Lemma existsb_named (ds : list ToolDefinition) name :
  existsb (fun t => bool_decide (td_name t = name)) ds = true ↔ name ∈ td_name <$> ds.
Proof.
  rewrite existsb_exists, list_elem_of_fmap. split.
  - intros (t & Ht & Hd%bool_decide_eq_true). exists t. by rewrite list_elem_of_In.
  - intros (t & -> & Ht). exists t. rewrite <-list_elem_of_In. by rewrite bool_decide_eq_true.
Qed.

Lemma resolved_cases r ds :
  match resolved_tool_choice ds r with
  | Ok choice =>
      (cr_tool_choice r = None ∧ choice = ChooseUnspecified ∨
       ∃ c, cr_tool_choice r = Some c ∧ parse_tool_choice c = Ok choice) ∧
      (choice = ChooseRequired → ds ≠ []) ∧
      ∀ name, choice = ChooseFunction name → name ∈ td_name <$> ds
  | Err e =>
      ∃ c, cr_tool_choice r = Some c ∧
        (parse_tool_choice c = Err e ∨
         ds = [] ∧ e = ToolChoiceWithoutTools ∧
           (parse_tool_choice c = Ok ChooseRequired ∨ ∃ name, parse_tool_choice c = Ok (ChooseFunction name)) ∨
         ∃ name, e = ToolChoiceNotDeclared name ∧ parse_tool_choice c = Ok (ChooseFunction name) ∧
           ds ≠ [] ∧ name ∉ td_name <$> ds)
  end.
Proof.
  unfold resolved_tool_choice. destruct (cr_tool_choice r) as [c|]; [|by split_and!; [left|..]].
  destruct (parse_tool_choice c) as [[| | | |name]|e] eqn:Ec; cbn;
    try by (split; [right; eauto|split; [done|by intros ? [=]]]).
  - case_bool_decide as Hd; [by eauto 10|]. split; [right; eauto|split; [done|by intros ? [=]]].
  - case_bool_decide as Hd; [by eauto 10|].
    destruct (existsb _ ds) eqn:E; [rewrite existsb_named in E|].
    + split; [right; eauto|split; [done|]]. by intros ? [= <-].
    + exists c. split; [done|]. right. right. exists name. split_and!; [done|done|done|].
      rewrite <-existsb_named. by rewrite E.
  - eauto.
Qed.

(** ** What a chat request means

    Written down from the OpenAI schema as the code's comments read it, and not
    from the functions above. *)

(** A name that can be used: given, and something besides the blanks around. *)
Definition names (given : option str) (name : str) : Prop :=
  ∃ s, given = Some s ∧ trim s = name ∧ name ≠ [].

Inductive role_means : option str → MessageRole → Prop :=
| role_default : role_means None RoleUser
| role_system s : s ∈ [lit "system"; lit "developer"] → role_means (Some s) RoleSystem
| role_assistant : role_means (Some (lit "assistant")) RoleAssistant
| role_tool s : s ∈ [lit "tool"; lit "function"] → role_means (Some s) RoleTool
| role_other s :
    s ∉ [lit "system"; lit "developer"; lit "assistant"; lit "tool"; lit "function"] →
    role_means (Some s) RoleUser.

(** The text of parts, a line for each that has one. *)
Inductive parts_say : list ContentPart → option str → Prop :=
| say_nothing : parts_say [] None
| say_no_text p ps t : cp_text p = None → parts_say ps t → parts_say (p :: ps) t
| say_last p ps s : cp_text p = Some s → parts_say ps None → parts_say (p :: ps) (Some s)
| say_more p ps s t :
    cp_text p = Some s → parts_say ps (Some t) → parts_say (p :: ps) (Some (s ++ LF :: t)).

Inductive content_says : MessageContent → str → Prop :=
| says_text t : content_says (McText t) t
| says_parts ps t : parts_say ps t → content_says (McParts ps) (default [] t)
| says_string v t : as_string v = Some t → content_says (McOther v) t
| says_nothing v : as_string v = None → content_says (McOther v) [].

(** The calls of a turn that name a function. *)
Inductive calls_mean : list RequestToolCall → list ToolCall → Prop :=
| calls_nil : calls_mean [] []
| calls_none c cs ts : rtc_function c = None → calls_mean cs ts → calls_mean (c :: cs) ts
| calls_unnamed c cs ts f :
    rtc_function c = Some f → fc_name f = None → calls_mean cs ts → calls_mean (c :: cs) ts
| calls_named c cs ts f name :
    rtc_function c = Some f → fc_name f = Some name → calls_mean cs ts →
    calls_mean (c :: cs) (mkToolCall (default [] (rtc_id c)) name (default [] (fc_arguments f)) :: ts).

(** The turns that carry a text or a call, in order. *)
Inductive messages_mean : list RequestMessage → list ChatMessage → Prop :=
| messages_nil : messages_mean [] []
| messages_empty m ms cs :
    content_says (rqm_content m) [] → calls_mean (rqm_tool_calls m) [] → messages_mean ms cs →
    messages_mean (m :: ms) cs
| messages_kept m ms c cs :
    role_means (rqm_role m) (cm_role c) → content_says (rqm_content m) (cm_content c) →
    cm_name c = rqm_name m → cm_tool_call_id c = rqm_tool_call_id m →
    calls_mean (rqm_tool_calls m) (cm_tool_calls c) → (cm_content c ≠ [] ∨ cm_tool_calls c ≠ []) →
    messages_mean ms cs → messages_mean (m :: ms) (c :: cs).

(** A declaration, with its name, its description unless that is blank, and its
    schema. *)
Record tool_means (t : RequestTool) (d : ToolDefinition) : Prop := {
  tool_named : names (rt_function t ≫= fdef_name) (td_name d);
  tool_described : ∀ text, td_description d = Some text ↔
    (rt_function t ≫= fdef_description) = Some text ∧ trim text ≠ [];
  tool_schema : td_parameters d = default value_null (rt_function t ≫= fdef_parameters) }.

(** A choice that is one. *)
Inductive choice_means : RequestToolChoice → ToolChoice → Prop :=
| choice_auto s : trim s = lit "auto" → choice_means (RtcNamed s) ChooseAuto
| choice_none s : trim s = lit "none" → choice_means (RtcNamed s) ChooseNone
| choice_required s : trim s = lit "required" → choice_means (RtcNamed s) ChooseRequired
| choice_function f name :
    names (tcf_function f ≫= tcn_name) name → choice_means (RtcFunction f) (ChooseFunction name).

Definition choice_allowed (ds : list str) (c : ToolChoice) : Prop :=
  match c with
  | ChooseRequired => ds ≠ []
  | ChooseFunction name => name ∈ ds
  | _ => True
  end.

(** The least of what is given. *)
Definition least (a b n : option u32) : Prop :=
  match n with
  | None => a = None ∧ b = None
  | Some n => (a = Some n ∨ b = Some n) ∧ (∀ m, a = Some m ∨ b = Some m → n ≤ m)
  end.

Inductive effort_means : option str → ReasoningControl → Prop :=
| effort_default : effort_means None ReasonDefault
| effort_blank s : trim s = [] → effort_means (Some s) ReasonDefault
| effort_off s : trim s = lit "none" → effort_means (Some s) ReasonDisabled
| effort_asked s : trim s ≠ [] → trim s ≠ lit "none" → effort_means (Some s) (ReasonEffort (trim s)).

Inductive stops_mean : option (OneOrMany str) → list str → Prop :=
| stops_none : stops_mean None []
| stops_one s : stops_mean (Some (One s)) [s]
| stops_many ss : stops_mean (Some (Many ss)) ss.

Record samples_as (r : ChatCompletionRequest) (p : SamplingParams) : Prop := {
  as_temperature : sp_temperature p = cr_temperature r;
  as_top_p : sp_top_p p = cr_top_p r;
  as_top_k : sp_top_k p = cr_top_k r;
  as_min_p : sp_min_p p = cr_min_p r;
  as_presence : sp_presence_penalty p = cr_presence_penalty r;
  as_frequency : sp_frequency_penalty p = cr_frequency_penalty r;
  as_repeat : sp_repeat_penalty p = cr_repeat_penalty r;
  as_seed : sp_seed p = cr_seed r;
  as_stop : stops_mean (cr_stop r) (sp_stop p) }.

(** What the engine is asked for a request that is accepted. *)
Record translated (r : ChatCompletionRequest) (g : GenerationRequest) : Prop := {
  tr_messages : ∃ ms, gr_prompt g = PromptChat ms ∧ messages_mean (cr_messages r) ms ∧ ms ≠ [];
  tr_tools : Forall2 tool_means (default [] (cr_tools r)) (gr_tools g);
  tr_choice : match cr_tool_choice r with
              | None => gr_tool_choice g = ChooseUnspecified
              | Some c => choice_means c (gr_tool_choice g)
              end;
  tr_allowed : choice_allowed (td_name <$> gr_tools g) (gr_tool_choice g);
  tr_parallel : gr_parallel_tool_calls g = cr_parallel_tool_calls r;
  tr_max_tokens : least (cr_max_tokens r) (cr_max_completion_tokens r) (gr_max_tokens g);
  tr_sampling : samples_as r (gr_sampling g);
  tr_reasoning : effort_means (cr_reasoning_effort r) (gr_reasoning g);
  tr_options : gr_template_options g = default empty_object (cr_chat_template_kwargs r) }.

(** The first thing that is wrong with one that is not. *)
Definition refused (r : ChatCompletionRequest) (e : RequestError) : Prop :=
  let tools := default [] (cr_tools r) in
  let named t := ∃ name, names (rt_function t ≫= fdef_name) name in
  match e with
  | NoMessages => messages_mean (cr_messages r) []
  | ToolWithoutName index =>
      ¬ messages_mean (cr_messages r) [] ∧
      ∃ i t, index = Z.of_nat i ∧ tools !! i = Some t ∧ ¬ named t ∧ Forall named (take i tools)
  | _ =>
      ¬ messages_mean (cr_messages r) [] ∧ Forall named tools ∧
      ∃ c, cr_tool_choice r = Some c ∧
        match e with
        | ToolChoiceWithoutTools =>
            tools = [] ∧ (choice_means c ChooseRequired ∨ ∃ name, choice_means c (ChooseFunction name))
        | ToolChoiceNotDeclared name =>
            choice_means c (ChooseFunction name) ∧ tools ≠ [] ∧
            ∀ t, t ∈ tools → ¬ names (rt_function t ≫= fdef_name) name
        | UnknownToolChoice value =>
            (∀ choice, ¬ choice_means c choice) ∧
            value = match c with
                    | RtcNamed s => trim s
                    | RtcFunction _ => lit "an object with no function name"
                    end
        | _ => False
        end
  end.

(** *** The functions above say just that *)

Lemma names_usable given name : names given name ↔ usable_name given = Some name.
Proof.
  unfold names, usable_name. destruct given as [s|]; simpl; [|naive_solver].
  case_bool_decide; naive_solver.
Qed.

Lemma unusable given : usable_name given = None ↔ ¬ ∃ name, names given name.
Proof.
  setoid_rewrite names_usable. destruct (usable_name given); naive_solver.
Qed.

Lemma role_parsed role : role_means role (parse_role role).
Proof.
  unfold parse_role. destruct role as [s|]; cbn [default from_option id]; [|constructor].
  case_bool_decide; [by constructor|]. case_bool_decide; [subst; constructor|].
  case_bool_decide; constructor; set_solver.
Qed.

Lemma parts_said ps :
  parts_say ps (match omap cp_text ps with [] => None | ts => Some (join_with [LF] ts) end).
Proof.
  induction ps as [|p ps IH]; [constructor|]. change (omap cp_text (p :: ps)) with
    (match cp_text p with Some s => s :: omap cp_text ps | None => omap cp_text ps end).
  destruct (cp_text p) as [s|] eqn:E; [|by constructor].
  destruct (omap cp_text ps) as [|t ts]; [by constructor|]. by apply say_more.
Qed.

Lemma content_said c : content_says c (to_text c).
Proof.
  destruct c as [t|ps|v]; simpl; [constructor|..].
  - pose proof (says_parts _ _ (parts_said ps)) as H. by destruct (omap cp_text ps).
  - destruct (as_string v) eqn:E; by constructor.
Qed.

Lemma parts_say_unique ps t t' : parts_say ps t → parts_say ps t' → t = t'.
Proof.
  intros H. revert t'. induction H; inversion 1; simplify_eq; auto;
    repeat match goal with
    | IH : ∀ t, parts_say ?ps t → _ = t, H : parts_say ?ps _ |- _ => apply IH in H
    end; by simplify_eq.
Qed.

Lemma content_says_text c t : content_says c t → t = to_text c.
Proof.
  intros H. destruct H as [t|ps t Hp|v t Hv|v Hv]; simpl; rewrite ?Hv; try done.
  rewrite (parts_say_unique _ _ _ Hp (parts_said ps)). by destruct (omap cp_text ps).
Qed.

Lemma calls_converted cs : calls_mean cs (omap convert_call cs).
Proof.
  induction cs as [|c cs IH]; simpl; [constructor|]. unfold convert_call at 1.
  destruct (rtc_function c) as [f|] eqn:Ef; simpl; [|by constructor].
  destruct (fc_name f) as [name|] eqn:En; simpl; [by constructor|by econstructor].
Qed.

Lemma calls_mean_converted cs ts : calls_mean cs ts → ts = omap convert_call cs.
Proof.
  induction 1 as [|c cs ts Hf _ ->|c cs ts f Hf Hn _ ->|c cs ts f name Hf Hn _ ->]; simpl;
    [done|..]; unfold convert_call at 2; by rewrite Hf; simpl; rewrite ?Hn.
Qed.

Lemma convert_message_none m :
  convert_message m = None ↔ content_says (rqm_content m) [] ∧ calls_mean (rqm_tool_calls m) [].
Proof.
  unfold convert_message. split.
  - case_bool_decide as Et; [|done]. case_bool_decide as Ec; [|done]. intros _.
    split; [rewrite <-Et; apply content_said|rewrite <-Ec; apply calls_converted].
  - intros [<-%content_says_text <-%calls_mean_converted]. by rewrite !bool_decide_eq_true_2.
Qed.

Lemma messages_converted ms : messages_mean ms (omap convert_message ms).
Proof.
  induction ms as [|m ms IH]; simpl; [constructor|].
  destruct (convert_message m) as [c|] eqn:E; simpl.
  - unfold convert_message in E. destruct (bool_decide _ && bool_decide _) eqn:Eb; simplify_eq.
    apply messages_kept; simpl; auto using role_parsed, content_said, calls_converted.
    apply andb_false_iff in Eb as [Eb|Eb]; apply bool_decide_eq_false in Eb; auto.
  - apply convert_message_none in E as [??]. by constructor.
Qed.

Lemma messages_mean_nil ms : messages_mean ms [] ↔ omap convert_message ms = [].
Proof.
  split; [|intros <-; apply messages_converted]. remember [] as cs eqn:Ec.
  induction 1 as [|m ms cs Ht Hc _ IH|]; simplify_eq/=; [done|].
  rewrite (proj2 (convert_message_none m)) by done. by apply IH.
Qed.

Lemma tool_defined index t :
  match tool_definition index t with
  | Ok d => tool_means t d
  | Err e => e = ToolWithoutName index ∧ ¬ ∃ name, names (rt_function t ≫= fdef_name) name
  end.
Proof.
  unfold tool_definition. destruct (usable_name _) as [name|] eqn:E; [|by rewrite <-unusable].
  split; simpl; [by apply names_usable| |done]. intros text.
  destruct (rt_function t ≫= fdef_description) as [s|]; simpl; [|naive_solver].
  case_bool_decide; naive_solver.
Qed.

Lemma tools_defined index tools :
  match tool_definitions_from index tools with
  | Ok ds => Forall2 tool_means tools ds
  | Err e => ∃ i t, e = ToolWithoutName (index + Z.of_nat i) ∧ tools !! i = Some t ∧
      (¬ ∃ name, names (rt_function t ≫= fdef_name) name) ∧
      Forall (λ t, ∃ name, names (rt_function t ≫= fdef_name) name) (take i tools)
  end.
Proof.
  revert index. induction tools as [|t tools IH]; intros index; simpl; [constructor|].
  pose proof (tool_defined index t) as Ht. destruct (tool_definition index t) as [d|e]; simpl.
  - specialize (IH (index + 1)). destruct (tool_definitions_from (index + 1) tools) as [ds|e]; simpl.
    + by constructor.
    + destruct IH as (i & t' & -> & Hi & Hn & Hb). exists (S i), t'.
      split_and!; [f_equal; lia|done|done|]. simpl. constructor; [|done]. eexists. apply Ht.
  - destruct Ht as [-> Hn]. exists 0%nat, t. split_and!; [f_equal; lia|done|done|constructor].
Qed.

Lemma choice_parsed c choice : choice_means c choice ↔ parse_tool_choice c = Ok choice.
Proof.
  split.
  - destruct 1 as [s Hs|s Hs|s Hs|f name Hf]; cbn [parse_tool_choice];
      [rewrite Hs; vm_compute; reflexivity..|]. apply names_usable in Hf. by rewrite Hf.
  - destruct c as [s|f]; cbn [parse_tool_choice].
    + repeat (case_bool_decide; [intros [= <-]; by constructor|]). done.
    + destruct (usable_name _) eqn:E; [|done]. intros [= <-]. constructor. by apply names_usable.
Qed.

Lemma no_choice_parsed c e : parse_tool_choice c = Err e → ∀ choice, ¬ choice_means c choice.
Proof. intros E choice. rewrite choice_parsed. congruence. Qed.

Lemma least_requested r :
  least (cr_max_tokens r) (cr_max_completion_tokens r) (requested_max_tokens r).
Proof.
  unfold least, requested_max_tokens.
  destruct (cr_max_tokens r) as [a|], (cr_max_completion_tokens r) as [b|]; simpl;
    try (split; [auto; done|intros ? [[= ->]|[= ->]]; lia]); [|done].
  split; [destruct (Z.min_spec a b) as [[_ ->]|[_ ->]]; auto|intros ? [[= ->]|[= ->]]; lia].
Qed.

Lemma effort_read effort : effort_means effort (reasoning_of effort).
Proof.
  unfold reasoning_of. destruct effort as [s|]; simpl; [|constructor].
  repeat (case_bool_decide; [by constructor|]). by constructor.
Qed.

Lemma sampled r : samples_as r (chat_sampling r).
Proof. split; try done. simpl. destruct (cr_stop r) as [[]|]; constructor. Qed.

(** C19: a chat request is translated as a whole, or refused for the first thing
    that is wrong with it.  Accepted, the engine is asked for every turn that
    carries a text or a call, with its role, its text, its names and its calls;
    for every tool that is declared; for the choice that was made, of a tool
    that is there; and for the limits, the sampling, the reasoning and the
    options of the request, each as it was given ([translated]).  Refused, it
    is because no turn carries anything, or else a tool has no name and is the
    first such, or else the choice is no choice or asks for a tool that is not
    there ([refused]). *)
Theorem chat_refused_exactly r :
  match to_generation_request r with
  | Ok g => translated r g
  | Err e => refused r e
  end.
Proof.
  unfold to_generation_request. pose proof (messages_mean_nil (cr_messages r)) as Hm.
  case_bool_decide as Hn; [by apply Hm|].
  assert (Hsome : ¬ messages_mean (cr_messages r) []) by (by rewrite Hm).
  assert (Ht : match tool_definitions r with
               | Ok ds => Forall2 tool_means (default [] (cr_tools r)) ds
               | Err e => refused r e end).
  { unfold tool_definitions. destruct (cr_tools r) as [tools|] eqn:Et; [|constructor].
    pose proof (tools_defined 0 tools) as Ht. destruct (tool_definitions_from 0 tools) as [|e]; [done|].
    destruct Ht as (i & t & -> & Hi & Hrest). split; [done|]. rewrite Et. exists i, t. by split. }
  destruct (tool_definitions r) as [ds|e]; cbn; [|done].
  pose proof (resolved_cases r ds) as Hr. destruct (resolved_tool_choice ds r) as [choice|e]; cbn.
  - destruct Hr as (Hc & Hreq & Hfun). split; cbn; try done; try (by destruct choice; auto).
    + eexists. split; [done|]. split; [apply messages_converted|done].
    + destruct Hc as [[-> ->]|(c & -> & Hc)]; [done|]. by apply choice_parsed.
    + destruct choice; simpl; try done; [|by apply Hfun].
      intros Hnil%fmap_nil_inv. by apply Hreq.
    + apply least_requested.
    + apply sampled.
    + apply effort_read.
  - destruct Hr as (c & Hc & Hr).
    assert (Hnames : Forall (λ t, ∃ name, names (rt_function t ≫= fdef_name) name)
                       (default [] (cr_tools r))).
    { clear -Ht. induction Ht as [|t d ts ds [Hnm _ _] _ IH]; constructor; eauto. }
    destruct Hr as [Hp|[(-> & -> & Hp)|(name & -> & Hp & Hds & Hin)]].
    + pose proof (parse_tool_choice_cases c) as Hcases. rewrite Hp in Hcases.
      destruct e as [|?|value|?|]; try done. split_and!; [done|done|]. exists c. split; [done|].
      split; [by eapply no_choice_parsed|]. destruct c as [s|f]; [by destruct Hcases|].
      cbn [parse_tool_choice] in Hp. rewrite Hcases in Hp. congruence.
    + split_and!; [done|done|]. exists c. setoid_rewrite choice_parsed.
      split_and!; [done| |done]. by inversion Ht.
    + split_and!; [done|done|]. exists c. setoid_rewrite choice_parsed. split_and!; [done|done| |].
      * intros Hnil. rewrite Hnil in Ht. by inversion Ht.
      * intros t Htin Heq. apply Hin. apply list_elem_of_lookup in Htin as [i Hi].
        destruct (Forall2_lookup_l _ _ _ _ _ Ht Hi) as (d & Hd & [Hdn _ _]).
        apply names_usable in Heq, Hdn. apply list_elem_of_fmap. exists d.
        split; [congruence|]. by eapply list_elem_of_lookup_2.
Qed.

Lemma accepted_choice r g : to_generation_request r = Ok g →
  (gr_tool_choice g = ChooseRequired → gr_tools g ≠ []) ∧
  ∀ name, gr_tool_choice g = ChooseFunction name → name ∈ td_name <$> gr_tools g.
Proof.
  unfold to_generation_request. case_bool_decide; [done|].
  destruct (tool_definitions r) as [ds|e]; [|done]. cbn. pose proof (resolved_cases r ds) as Hr.
  destruct (resolved_tool_choice ds r); [|done]. intros [= <-]. by destruct Hr as (_ & ? & ?).
Qed.

(** What the gateway accepts is a request the router's conditions are read
    from. *)
Lemma accepted_chat_is_receivable r g mt :
  to_generation_request r = Ok g → receivable (chat_requirements (abstracted g) mt).
Proof.
  intros [Hreq Hfun]%accepted_choice. constructor. unfold chat_accepted. simpl. intros Hnil.
  apply fmap_nil_inv in Hnil. split; [by intros Hc; apply Hreq|].
  intros name Hc. apply Hfun in Hc. rewrite Hnil in Hc. set_solver.
Qed.

(** ** Text completions *)

(** The completions of a request are its prompts in order, each as often as was
    asked: nothing bounds how many that is. *)
Lemma expand_cases (q : CompletionRequest) :
  match expand q with
  | Ok prompts =>
      ∃ p texts, cq_prompt q = Some p ∧ to_texts p = Ok texts ∧ validate q = Ok tt ∧
        length prompts = (Z.to_nat (completions_per_prompt q) * length texts)%nat ∧
        ∀ t, t ∈ prompts ↔ t ∈ texts
  | Err e => validate q = Err e ∨
      (validate q = Ok tt ∧ match cq_prompt q with None => e = NoPrompt | Some p => to_texts p = Err e end)
  end.
Proof.
  unfold expand. destruct (validate q) as [[]|e]; cbn; [|by left].
  destruct (cq_prompt q) as [p|]; [|by right]. destruct (to_texts p) as [texts|e] eqn:Ep; cbn; [|by right].
  exists p, texts. split_and!; [done|done|done| |].
  - clear Ep. induction texts as [|t texts IH]; [simpl; lia|]. rewrite fmap_cons. cbn [concat].
    rewrite length_app, IH, length_replicate. cbn [length]. lia.
  - assert (Hpos : (0 < Z.to_nat (completions_per_prompt q))%nat)
      by (unfold completions_per_prompt; lia).
    intros t. rewrite list_elem_of_In, in_concat. split.
    + intros (l & Hl & Ht). apply list_elem_of_In, list_elem_of_fmap in Hl as (t' & -> & Ht').
      apply list_elem_of_In, elem_of_replicate in Ht as [-> _]. done.
    + intros Ht. exists (replicate (Z.to_nat (completions_per_prompt q)) t). split.
      * apply list_elem_of_In, list_elem_of_fmap. eauto.
      * apply list_elem_of_In, elem_of_replicate. split; [done|lia].
Qed.

(** A prompt asked for any number of times is expanded that often. *)
Theorem completions_are_not_bounded (n : u32) q : 1 ≤ n →
  validate q = Ok tt → cq_prompt q = Some (CpText (lit "x")) → cq_n q = Some n →
  ∃ prompts, expand q = Ok prompts ∧ Z.of_nat (length prompts) = n.
Proof.
  intros Hn Hv Hp Hq. pose proof (expand_cases q) as He. destruct (expand q) as [prompts|e].
  - exists prompts. split; [done|]. destruct He as (p & texts & Hp' & Ht & _ & Hlen & _).
    rewrite Hp in Hp'. simplify_eq/=. rewrite Hlen. unfold completions_per_prompt. rewrite Hq. simpl. lia.
  - rewrite Hp in He. destruct He as [He|[_ He]]; [congruence|done].
Qed.
End chat.
