(* ===== verification/Completions.v ===== *)
(** * Answering a text completion

    [crates/lightweight-gateway/src/completions.rs], with the response half of
    [crates/lightweight-api/src/completions.rs]: one request is a queue of
    generations that share a slot and a response, collected into one answer or
    streamed as one.

    The encoder is driven by what its waits resolve to ([TextInput]), as that of
    [Streaming] is.  [logprobs] is always null and left out; so is the flag only
    a log line reads. *)

From stdpp Require Import base gmap strings numbers list.
From S2P Require Import Prelude Scheduler Names Utf8 Float64 Rewriter Responses Generation Streaming Chat.

(** ** The answer and its chunks *)

Record CompletionChoice := mkTextChoice {
  tx_text : str;
  tx_index : u32;
  tx_finish_reason : option str }.

Record CompletionResponse := mkTextResponse {
  tr_id : str;
  tr_object : str;
  tr_created : u64;
  tr_model : str;
  tr_choices : list CompletionChoice;
  tr_usage : UsageBody }.

(** [CompletionResponse::new], at the time [now]. *)
Definition CompletionResponse_new (id model : str) (choices : list CompletionChoice) (usage : UsageBody)
    (now : u64) : CompletionResponse :=
  mkTextResponse id (lit "text_completion") now model choices usage.

Record CompletionChunk := mkTextChunk {
  tk_id : str;
  tk_object : str;
  tk_created : u64;
  tk_model : str;
  tk_choices : list CompletionChoice;
  tk_usage : option UsageBody;
  tk_error : option ErrorEnvelope }.

(** What goes out on the stream. *)
Inductive TextFrame := TfChunk (c : CompletionChunk) | TfComment (text : str) | TfDone.

Record CompletionChunkBuilder := mkTextBuilder { tb_id : str; tb_model : str; tb_created : u64 }.

Definition text_chunk (b : CompletionChunkBuilder) (choices : list CompletionChoice) : CompletionChunk :=
  mkTextChunk (tb_id b) (lit "text_completion") (tb_created b) (tb_model b) choices None None.

Definition chunk_text (b : CompletionChunkBuilder) (index : u32) (text : str) : CompletionChunk :=
  text_chunk b [mkTextChoice text index None].

Definition chunk_end (b : CompletionChunkBuilder) (index : u32) (reason : FinishReason)
    : CompletionChunk :=
  text_chunk b [mkTextChoice [] index (Some (finish_str reason))].

Definition chunk_total (b : CompletionChunkBuilder) (usage : UsageBody) : CompletionChunk :=
  mkTextChunk (tb_id b) (lit "text_completion") (tb_created b) (tb_model b) [] (Some usage) None.

Definition chunk_failed (b : CompletionChunkBuilder) (body : ErrorEnvelope) : CompletionChunk :=
  mkTextChunk (tb_id b) (lit "text_completion") (tb_created b) (tb_model b) [] None (Some body).

Definition text_keep_alive : TextFrame := TfComment (lit "keep-alive").

Definition cached_of (u : UsageBody) : u32 :=
  match ub_details u with Some details => det_cached_tokens details | None => 0 end.

Definition accumulate_usage (total part : UsageBody) : UsageBody :=
  mkUsageBody (sat_add32 (ub_prompt_tokens total) (ub_prompt_tokens part))
    (sat_add32 (ub_completion_tokens total) (ub_completion_tokens part))
    (sat_add32 (ub_total_tokens total) (ub_total_tokens part))
    (Some (mkDetails (sat_add32 (cached_of total) (cached_of part)))).

Section runs.
Context `{J : Json} `{StrDebug}.

(** ** The run *)

Record PendingCompletion := mkPending {
  pn_index : u32;
  pn_request : GenerationRequest;
  pn_echo : option str }.

Record Run := mkRun {
  run_queue : list PendingCompletion;
  run_builder : CompletionChunkBuilder;
  run_guard : RequestGuard;
  run_model_id : str;
  run_include_usage : bool }.

(** What one generation comes to: it does not begin, or these events. *)
Abbreviation Generated := (result (list (result GenerationEvent BackendError)) BackendError).

(** ** Collecting *)

(** The loop of [collect_all] over the events of one completion. *)
Fixpoint collect_one (text : str) (reason : FinishReason) (usage : UsageBody)
    (events : list (result GenerationEvent BackendError))
    : result (str * FinishReason * UsageBody) BackendError :=
  match events with
  | [] => Ok (text, reason, usage)
  | Err e :: _ => Err e
  | Ok (ContentDelta fragment) :: events => collect_one (text ++ fragment) reason usage events
  | Ok (Finished r measured) :: events =>
      collect_one text r (accumulate_usage usage (usage_body measured)) events
  | Ok _ :: events => collect_one text reason usage events
  end.

(** [collect_all]; [None] while a generation is still awaited. *)
Fixpoint collect_all (queue : list PendingCompletion) (outcomes : list Generated)
    (choices : list CompletionChoice) (usage : UsageBody)
    : option (result (list CompletionChoice * UsageBody) BackendError) :=
  match queue, outcomes with
  | [], _ => Some (Ok (choices, usage))
  | _ :: _, [] => None
  | _ :: _, Err e :: _ => Some (Err e)
  | p :: queue, Ok events :: outcomes =>
      match collect_one (default [] (pn_echo p)) FrLength usage events with
      | Err e => Some (Err e)
      | Ok (text, reason, usage) =>
          collect_all queue outcomes
            (choices ++ [mkTextChoice text (pn_index p) (Some (finish_str reason))]) usage
      end
  end.

(** [aggregate]: the answer, and the guard that is dropped. *)
Definition aggregate_run (outcomes : list Generated) (now : u64) (r : Run)
    : option (result CompletionResponse BackendError * RequestGuard) :=
  let! collected := collect_all (run_queue r) outcomes [] UsageBody_default in
  Some (match collected with
        | Ok (choices, usage) =>
            (Ok (CompletionResponse_new (tb_id (run_builder r)) (run_model_id r) choices usage now),
             completed (run_guard r))
        | Err e => (Err e, failed (run_guard r))
        end).

(** ** Streaming *)

Record TextEncoder := mkTextEncoder {
  te_run : Run;
  te_current : option u32;
  te_pending : list TextFrame;
  te_usage : UsageBody;
  te_started : bool;
  te_finished : bool }.

(** [encode]: nothing runs, nothing is said. *)
Definition text_encode (r : Run) : TextEncoder := mkTextEncoder r None [] UsageBody_default false false.

Definition text_emit (fs : list TextFrame) (e : TextEncoder) : TextEncoder :=
  mkTextEncoder (te_run e) (te_current e) (te_pending e ++ fs) (te_usage e) (te_started e)
    (te_finished e).

Definition text_set_pending (fs : list TextFrame) (e : TextEncoder) : TextEncoder :=
  mkTextEncoder (te_run e) (te_current e) fs (te_usage e) (te_started e) (te_finished e).

Definition run_on_guard (f : RequestGuard → RequestGuard) (r : Run) : Run :=
  mkRun (run_queue r) (run_builder r) (f (run_guard r)) (run_model_id r) (run_include_usage r).

Definition run_with_queue (queue : list PendingCompletion) (r : Run) : Run :=
  mkRun queue (run_builder r) (run_guard r) (run_model_id r) (run_include_usage r).

Definition finish_choice (index : u32) (reason : FinishReason) (e : TextEncoder) : TextEncoder :=
  let e := text_emit [TfChunk (chunk_end (run_builder (te_run e)) index reason)] e in
  mkTextEncoder (te_run e) None (te_pending e) (te_usage e) false (te_finished e).

Definition text_fail (err : BackendError) (e : TextEncoder) : TextEncoder :=
  let r := run_on_guard failed (te_run e) in
  mkTextEncoder r None
    (te_pending e ++ [TfChunk (chunk_failed (run_builder r) (from_error err)); TfDone])
    (te_usage e) (te_started e) true.

Definition text_close (e : TextEncoder) : TextEncoder :=
  if te_finished e then e
  else
    let r := te_run e in
    let total := if run_include_usage r
                 then [TfChunk (chunk_total (run_builder r) (te_usage e))] else [] in
    mkTextEncoder (run_on_guard (cancel ∘ completed) r) (te_current e)
      (te_pending e ++ total ++ [TfDone]) (te_usage e) (te_started e) true.

Definition text_absorb (index : u32) (v : GenerationEvent) (e : TextEncoder) : TextEncoder :=
  match v with
  | ContentDelta text => text_emit [TfChunk (chunk_text (run_builder (te_run e)) index text)] e
  | Finished reason usage =>
      finish_choice index reason
        (mkTextEncoder (te_run e) (te_current e) (te_pending e)
           (accumulate_usage (te_usage e) (usage_body usage)) (te_started e) (te_finished e))
  | _ => e
  end.

(** How starting the next completion goes, the events, a failure and the end of
    the one that runs, and the keep-alive timer. *)
Inductive TextInput :=
| TiStarted (start : result unit BackendError)
| TiEvent (v : GenerationEvent)
| TiError (err : BackendError)
| TiEnd
| TiTick.

(** The prompt at the head of a completion, where there is one to repeat. *)
Definition echo_frames (b : CompletionChunkBuilder) (p : PendingCompletion) : list TextFrame :=
  match pn_echo p with
  | Some text => if bool_decide (text = []) then [] else [TfChunk (chunk_text b (pn_index p) text)]
  | None => []
  end.

(** One turn of the loop that waited. *)
Definition text_step (e : TextEncoder) (i : TextInput) : TextEncoder :=
  if te_finished e then e
  else
    match te_current e, run_queue (te_run e), i with
    | None, p :: queue, TiStarted (Ok _) =>
        mkTextEncoder (run_with_queue queue (te_run e)) (Some (pn_index p)) (te_pending e ++ echo_frames (run_builder (te_run e)) p)
          (te_usage e) false (te_finished e)
    | None, p :: queue, TiStarted (Err err) =>
        text_fail err
          (mkTextEncoder (run_with_queue queue (te_run e)) None (te_pending e) (te_usage e)
             (te_started e) (te_finished e))
    | Some index, _, TiEvent v =>
        text_absorb index v
          (mkTextEncoder (te_run e) (te_current e) (te_pending e) (te_usage e) true (te_finished e))
    | Some _, _, TiError err => text_fail err e
    | Some index, _, TiEnd => finish_choice index FrLength e
    | Some _, _, TiTick => if te_started e then e else text_emit [text_keep_alive] e
    | _, _, _ => e
    end.

Inductive TextPulled := TextYielded (f : TextFrame) | TextOver | TextWaiting.

(** What one read of the body comes to. *)
Fixpoint text_pull (inputs : list TextInput) (e : TextEncoder)
    : TextPulled * list TextInput * TextEncoder :=
  match te_pending e with
  | f :: fs => (TextYielded f, inputs, text_set_pending fs e)
  | [] =>
      if te_finished e then (TextOver, inputs, e)
      else
        match te_current e, run_queue (te_run e) with
        | None, [] =>
            let e := text_close e in
            match te_pending e with
            | f :: fs => (TextYielded f, inputs, text_set_pending fs e)
            | [] => (TextOver, inputs, e)
            end
        | _, _ =>
            match inputs with
            | [] => (TextWaiting, [], e)
            | i :: inputs => text_pull inputs (text_step e i)
            end
        end
  end.

Fixpoint text_read (n : nat) (inputs : list TextInput) (e : TextEncoder)
    : list TextFrame * option TextPulled * TextEncoder :=
  match n with
  | O => ([], None, e)
  | S n =>
      match text_pull inputs e with
      | (TextYielded f, inputs, e) =>
          let '(fs, last, e) := text_read n inputs e in (f :: fs, last, e)
      | (p, _, e) => ([], Some p, e)
      end
  end.
End runs.
