(* ===== verification/CompletionsTheorems.v ===== *)
(** * Properties of answering a text completion

    What a client reads of a streamed text completion is what the collected
    answer says, however many generations the request was. *)

From stdpp Require Import base gmap strings numbers list.
From S2P Require Import Prelude Scheduler Names Utf8 Float64 Rewriter Responses Generation Streaming.
From S2P Require Import Chat Completions.

Section runs.
Context `{J : Json} `{StrDebug}.
Implicit Types (e : TextEncoder) (fs : list TextFrame).
Abbreviation Events := (list (result GenerationEvent BackendError)).
Abbreviation Generated := (result Events BackendError).

(** ** What a client holds *)

Definition text_chunks (fs : list TextFrame) : list CompletionChunk :=
  omap (fun f => match f with TfChunk c => Some c | _ => None end) fs.

Definition choices_of (fs : list TextFrame) : list CompletionChoice := text_chunks fs ≫= tk_choices.

Definition at_index (index : u32) (c : CompletionChoice) : bool := tx_index c =? index.

(** The text of a choice, and how often and why it ended. *)
Definition text_at (index : u32) (cs : list CompletionChoice) : str :=
  concat (tx_text <$> List.filter (at_index index) cs).
Definition ends_at (index : u32) (cs : list CompletionChoice) : list str :=
  omap tx_finish_reason (List.filter (at_index index) cs).

Definition client_text (index : u32) (fs : list TextFrame) : str := text_at index (choices_of fs).
Definition client_ends (index : u32) (fs : list TextFrame) : list str := ends_at index (choices_of fs).

Definition client_totals (fs : list TextFrame) : list UsageBody := omap tk_usage (text_chunks fs).
Definition client_failures (fs : list TextFrame) : list ErrorEnvelope := omap tk_error (text_chunks fs).
Definition client_dones (fs : list TextFrame) : nat :=
  length (List.filter (fun f => match f with TfDone => true | _ => false end) fs).

Lemma text_chunks_app fs gs : text_chunks (fs ++ gs) = text_chunks fs ++ text_chunks gs.
Proof. apply omap_app. Qed.
Lemma client_text_app i fs gs : client_text i (fs ++ gs) = client_text i fs ++ client_text i gs.
Proof.
  unfold client_text, text_at, choices_of.
  by rewrite text_chunks_app, bind_app, List.filter_app, fmap_app, concat_app.
Qed.
Lemma client_ends_app i fs gs : client_ends i (fs ++ gs) = client_ends i fs ++ client_ends i gs.
Proof.
  unfold client_ends, ends_at, choices_of. by rewrite text_chunks_app, bind_app, List.filter_app, omap_app.
Qed.
Lemma client_totals_app fs gs : client_totals (fs ++ gs) = client_totals fs ++ client_totals gs.
Proof. unfold client_totals. by rewrite text_chunks_app, omap_app. Qed.
Lemma client_failures_app fs gs : client_failures (fs ++ gs) = client_failures fs ++ client_failures gs.
Proof. unfold client_failures. by rewrite text_chunks_app, omap_app. Qed.
Lemma client_dones_app fs gs : client_dones (fs ++ gs) = (client_dones fs + client_dones gs)%nat.
Proof. unfold client_dones. by rewrite List.filter_app, length_app. Qed.

(** ** Reading is draining *)

(** A stream that is read to its end gives what the inputs leave pending, in
    order: no step looks at what is pending. *)
Definition with_front (fs : list TextFrame) (e : TextEncoder) : TextEncoder :=
  text_set_pending (fs ++ te_pending e) e.

Lemma with_front_nil e : with_front [] e = e.
Proof. by destruct e. Qed.

Lemma text_step_front fs e i : text_step (with_front fs e) i = with_front fs (text_step e i).
Proof.
  destruct e as [r c p u s f]. unfold text_step, with_front, text_set_pending. cbn.
  destruct f; [done|].
  destruct c as [index|]; cbn.
  - destruct i as [[]|v|err| |]; cbn; rewrite ?app_assoc; try done; [|by destruct s; cbn; rewrite ?app_assoc].
    destruct v; cbn; by rewrite ?app_assoc.
  - destruct (run_queue r) as [|q queue]; [done|].
    destruct i as [[]|v|err| |]; cbn; rewrite ?app_assoc; done.
Qed.

Lemma text_close_front fs e : text_close (with_front fs e) = with_front fs (text_close e).
Proof.
  destruct e as [r c p u s []]; unfold text_close, with_front, text_set_pending; cbn; [done|].
  by rewrite <-app_assoc.
Qed.

(** What is said in all, once the inputs are used up. *)
Definition feed (inputs : list TextInput) (e : TextEncoder) : TextEncoder := foldl text_step e inputs.
Definition said (inputs : list TextInput) (e : TextEncoder) : list TextFrame :=
  te_pending (text_close (feed inputs e)).

Lemma feed_front inputs fs e : feed inputs (with_front fs e) = with_front fs (feed inputs e).
Proof. revert e. induction inputs as [|i inputs IH]; intros e; [done|]. simpl. by rewrite text_step_front, IH. Qed.

Lemma said_front inputs f fs e : te_pending e = f :: fs → said inputs e = f :: said inputs (text_set_pending fs e).
Proof.
  intros Hp. assert (e = with_front [f] (text_set_pending fs e)) as ->.
  { destruct e. simpl in *. by subst. }
  unfold said. rewrite feed_front, text_close_front. by destruct e.
Qed.

Lemma feed_pending inputs f fs e : te_pending e = f :: fs →
  feed inputs e = with_front [f] (feed inputs (text_set_pending fs e)).
Proof. intros Hp. rewrite <-feed_front. f_equal. destruct e. simpl in *. by subst. Qed.

Lemma feed_over inputs e : te_finished e = true → feed inputs e = e.
Proof.
  intros Hf. induction inputs as [|i inputs IH]; [done|]. simpl.
  unfold text_step at 1. rewrite Hf. exact IH.
Qed.

Lemma feed_idle inputs e : te_current e = None → run_queue (te_run e) = [] → feed inputs e = e.
Proof.
  intros Hc Hq. induction inputs as [|i inputs IH]; [done|]. simpl.
  assert (text_step e i = e) as ->; [|exact IH]. unfold text_step. rewrite Hc, Hq. by destruct (te_finished e).
Qed.

Lemma text_close_over e : te_finished e = true → text_close e = e.
Proof. intros Hf. unfold text_close. by rewrite Hf. Qed.

(** Nothing is left to be waited for. *)
Definition settled (e : TextEncoder) : Prop :=
  te_finished e = true ∨ te_current e = None ∧ run_queue (te_run e) = [].

Lemma text_pull_said inputs e :
  let '(p, rest, e') := text_pull inputs e in
  match p with
  | TextYielded f => said inputs e = f :: said rest e' ∧ (settled (feed rest e') → settled (feed inputs e))
  | TextOver => said inputs e = [] ∧ settled (feed inputs e)
  | TextWaiting => True
  end.
Proof.
  revert e. induction inputs as [|i inputs IH]; intros e; cbn [text_pull];
    (destruct (te_pending e) as [|f fs] eqn:Ep;
      [|by split; [apply said_front|rewrite (feed_pending _ _ _ _ Ep)]]);
    (destruct (te_finished e) eqn:Ef;
      [by unfold said; rewrite feed_over, text_close_over by done; repeat split; [|left]|]);
    destruct (te_current e) as [index|] eqn:Ec, (run_queue (te_run e)) as [|q queue] eqn:Eq; try done;
    try (specialize (IH (text_step e i)); by destruct (text_pull inputs (text_step e i)) as [[[] ?] ?]).
  all: assert (Hover : te_finished (text_close e) = true) by (unfold text_close; by rewrite Ef).
  all: assert (Hsaid : ∀ l, said l e = te_pending (text_close e)) by (intros l; unfold said; by rewrite feed_idle).
  all: assert (Hset : settled e) by (by right).
  all: destruct (te_pending (text_close e)) as [|f fs] eqn:Ep'; rewrite Hsaid; (split; [|intros; by rewrite feed_idle]); [done|].
  all: unfold said; rewrite feed_over by (by destruct (text_close e));
    rewrite text_close_over by (by destruct (text_close e)); done.
Qed.

Lemma text_read_said n inputs e out e' :
  text_read n inputs e = (out, Some TextOver, e') → out = said inputs e ∧ settled (feed inputs e).
Proof.
  revert inputs e out. induction n as [|n IH]; intros inputs e out; cbn [text_read]; [done|].
  pose proof (text_pull_said inputs e) as Hp. destruct (text_pull inputs e) as [[p rest] e1].
  destruct p as [f| |]; [|by intros [= <- <-]; destruct Hp|done].
  destruct (text_read n rest e1) as [[fs last] e2] eqn:Er. intros [= <- -> <-].
  destruct Hp as [-> Hs]. apply IH in Er as [-> Hr]. auto.
Qed.

(** ** What a generation leaves *)

(** The inputs of one generation: the encoder lets go of it at [Finished]. *)
Fixpoint drive (events : Events) : list TextInput :=
  match events with
  | [] => [TiEnd]
  | Err err :: _ => [TiError err]
  | Ok (Finished r u) :: _ => [TiEvent (Finished r u)]
  | Ok v :: events => TiEvent v :: drive events
  end.

Definition inputs_of_outcome (o : Generated) : list TextInput :=
  match o with
  | Err err => [TiStarted (Err err)]
  | Ok events => TiStarted (Ok tt) :: drive events
  end.

Fixpoint inputs_of_outcomes (outcomes : list Generated) : list TextInput :=
  match outcomes with [] => [] | o :: outcomes => inputs_of_outcome o ++ inputs_of_outcomes outcomes end.

(** Nothing follows [Finished]: what the engine's client keeps ([Engine]). *)
Fixpoint ends_with_finish (events : Events) : Prop :=
  match events with
  | [] => True
  | Ok (Finished _ _) :: rest => rest = []
  | _ :: events => ends_with_finish events
  end.

(** An encoder between two turns, with what it has said of a choice. *)
Definition running (index : u32) (r : Run) (u : UsageBody) (e : TextEncoder) : Prop :=
  te_current e = Some index ∧ te_run e = r ∧ te_usage e = u ∧ te_finished e = false.

Definition silent (fs : list TextFrame) : Prop :=
  client_totals fs = [] ∧ client_failures fs = [] ∧ client_dones fs = 0%nat.

(** Frames that say [text] of a choice, and that it ended for [ends]. *)
Definition says (index : u32) (text : str) (ends : list str) (fs : list TextFrame) : Prop :=
  silent fs ∧ ∀ i, client_text i fs = (if i =? index then text else []) ∧
                    client_ends i fs = (if i =? index then ends else []).

Lemma silent_app fs gs : silent fs → silent gs → silent (fs ++ gs).
Proof.
  intros (A & B & C) (A' & B' & C'). unfold silent.
  by rewrite client_totals_app, client_failures_app, client_dones_app, A, B, C, A', B', C'.
Qed.

Lemma says_app index t1 t2 ends1 ends2 fs gs :
  says index t1 ends1 fs → says index t2 ends2 gs → says index (t1 ++ t2) (ends1 ++ ends2) (fs ++ gs).
Proof.
  intros [Hs Hi] [Hs' Hi']. split; [by apply silent_app|]. intros i. specialize (Hi i). specialize (Hi' i).
  rewrite client_text_app, client_ends_app, (proj1 Hi), (proj2 Hi), (proj1 Hi'), (proj2 Hi').
  by destruct (i =? index).
Qed.

Lemma says_nothing index : says index [] [] [].
Proof. split; [done|]. intros i. by destruct (i =? index). Qed.

Lemma says_text b index text : says index text [] [TfChunk (chunk_text b index text)].
Proof.
  split; [done|]. intros i. unfold client_text, client_ends, text_at, ends_at, choices_of, at_index. cbn.
  rewrite (Z.eqb_sym index i). destruct (i =? index); cbn; by rewrite ?app_nil_r.
Qed.

Lemma says_end b index reason : says index [] [finish_str reason] [TfChunk (chunk_end b index reason)].
Proof.
  split; [done|]. intros i. unfold client_text, client_ends, text_at, ends_at, choices_of, at_index. cbn.
  rewrite (Z.eqb_sym index i). by destruct (i =? index).
Qed.

(** What the events of a generation leave of a choice. *)
Lemma drive_says index r u text events e :
  running index r u e → ends_with_finish events →
  ∃ fs, te_pending (feed (drive events) e) = te_pending e ++ fs ∧
    match collect_one text FrLength u events with
    | Ok (text', reason, u') =>
        ∃ more, text' = text ++ more ∧ says index more [finish_str reason] fs ∧
          te_current (feed (drive events) e) = None ∧ te_run (feed (drive events) e) = r ∧
          te_usage (feed (drive events) e) = u' ∧ te_finished (feed (drive events) e) = false
    | Err err =>
        te_finished (feed (drive events) e) = true ∧ client_failures fs = [from_error err] ∧
        client_totals fs = [] ∧ client_dones fs = 1%nat
    end.
Proof.
  revert text e. induction events as [|[v|err] events IH]; intros text e (Hc & Hr & Hu & Hf) He.
  - destruct e as [r' c p u' st f]; simpl in *; subst. eexists. split; [reflexivity|].
    exists []. rewrite app_nil_r. split_and!; try done. apply says_end.
  - destruct e as [r' c p u' st f]; simpl in *; subst.
    destruct v as [?|frag|?|?|?|reason measured].
    all: try (by eapply (IH text (mkTextEncoder r (Some index) p u true false))).
    + destruct (IH (text ++ frag) (mkTextEncoder r (Some index)
        (p ++ [TfChunk (chunk_text (run_builder r) index frag)]) u true false)) as (fs & Hp & Hm); [done|done|].
      eexists. split; [exact (eq_trans Hp (eq_sym (app_assoc _ _ _)))|].
      cbn [collect_one]. destruct (collect_one (text ++ frag) FrLength u events) as [[[t' reason] u']|err].
      * destruct Hm as (more & -> & Hs & Hrest). exists (frag ++ more). split; [by rewrite app_assoc|].
        split; [|exact Hrest]. apply (says_app index frag more [] [finish_str reason]); [apply says_text|done].
      * destruct Hm as (Hfin & Hfail & Htot & Hd). split; [exact Hfin|].
        rewrite client_failures_app, client_totals_app, client_dones_app, Hfail, Htot, Hd. done.
    + subst events. eexists. split; [reflexivity|]. exists []. rewrite app_nil_r.
      split_and!; try done. apply says_end.
  - destruct e as [r' c p u' st f]; simpl in *; subst. by eexists.
Qed.

(** What the generations of a request leave. *)
Lemma outcomes_say outcomes r u e :
  te_current e = None → te_run e = r → te_usage e = u → te_finished e = false →
  Forall (fun o => match o with Ok events => ends_with_finish events | Err _ => True end) outcomes →
  let e' := feed (inputs_of_outcomes outcomes) e in
  ∃ fs, te_pending e' = te_pending e ++ fs ∧
    ∀ before, match collect_all (run_queue r) outcomes before u with
    | Some (Ok (choices, u')) =>
        silent fs ∧ te_finished e' = false ∧ te_usage e' = u' ∧
        te_run e' = run_with_queue [] r ∧
        ∃ cs, choices = before ++ cs ∧
          ∀ i, client_text i fs = text_at i cs ∧ client_ends i fs = ends_at i cs
    | Some (Err err) =>
        te_finished e' = true ∧ client_failures fs = [from_error err] ∧
        client_totals fs = [] ∧ client_dones fs = 1%nat
    | None => ¬ settled e'
    end.
Proof.
  revert r u e. induction outcomes as [|o outcomes IH]; intros r u e Hc Hr Hu Hf Ho; simpl.
  { exists []. split; [by rewrite app_nil_r|]. intros before. destruct (run_queue r) as [|q queue] eqn:Eq.
    - split_and!; try done; [by destruct r; simpl in *; subst; rewrite Hr|].
      exists []. by rewrite app_nil_r.
    - unfold settled. rewrite Hf, Hr, Eq. by intros [?|[_ ?]]. }
  inversion Ho as [|? ? Hone Hall]; subst. unfold feed. rewrite foldl_app. fold (feed (inputs_of_outcome o) e).
  destruct (run_queue (te_run e)) as [|q queue] eqn:Eq.
  { change (foldl text_step ?x ?l) with (feed l x). rewrite !feed_idle by (by rewrite ?feed_idle).
    exists []. split; [by rewrite app_nil_r|]. intros before. simpl.
    split_and!; try done; [by destruct (te_run e); simpl in *; subst|]. exists []. by rewrite app_nil_r. }
  destruct o as [events|err]; simpl.
  - change (foldl text_step ?x ?l) with (feed l x).
    set (echoed := echo_frames (run_builder (te_run e)) q).
    assert (Hecho : says (pn_index q) (default [] (pn_echo q)) [] echoed).
    { unfold echoed, echo_frames. destruct (pn_echo q) as [text|]; simpl; [|apply says_nothing].
      case_bool_decide; [subst; apply says_nothing|apply says_text]. }
    set (e1 := text_step e (TiStarted (Ok tt))).
    assert (He1 : e1 = mkTextEncoder (run_with_queue queue (te_run e)) (Some (pn_index q))
      (te_pending e ++ echoed) (te_usage e) false false).
    { unfold e1, text_step. rewrite Hf, Hc, Eq. done. }
    destruct (drive_says (pn_index q) (run_with_queue queue (te_run e)) (te_usage e)
      (default [] (pn_echo q)) events e1) as (fs & Hp & Hm); [by rewrite He1|done|].
    destruct (collect_one (default [] (pn_echo q)) FrLength (te_usage e) events) as [[[text reason] u1]|err].
    + destruct Hm as (more & -> & Hs & Hc2 & Hr2 & Hu2 & Hf2).
      destruct (IH (run_with_queue queue (te_run e)) u1 (feed (drive events) e1)) as (gs & Hgp & Hg);
        [done..|]. simpl in Hg.
      exists (echoed ++ fs ++ gs). split; [by rewrite Hgp, Hp, He1; simpl; rewrite <-!app_assoc|].
      assert (Hsay : says (pn_index q) (default [] (pn_echo q) ++ more) [finish_str reason] (echoed ++ fs))
        by (by apply (says_app _ _ _ [] _)).
      intros before. specialize (Hg (before ++ [mkTextChoice (default [] (pn_echo q) ++ more) (pn_index q)
        (Some (finish_str reason))])).
      destruct (collect_all queue outcomes _ u1) as [[[choices u']|err]|]; [| |exact Hg].
      * destruct Hg as (Hsil & Hfin & Hus & Hrun & cs & -> & Hi). rewrite app_assoc.
        split_and!; [by apply silent_app; [apply Hsay|]|done|done|done|].
        eexists. split; [by rewrite <-app_assoc|]. intros i. destruct Hsay as [_ Hsay].
        rewrite client_text_app, client_ends_app, (proj1 (Hsay i)), (proj2 (Hsay i)), (proj1 (Hi i)), (proj2 (Hi i)).
        unfold text_at, ends_at, at_index. simpl. rewrite (Z.eqb_sym (pn_index q) i). by destruct (i =? pn_index q).
      * destruct Hg as (Hfin & Hfail & Htot & Hd). destruct Hsay as [(Ha & Hb & Hcd) _].
        split; [done|]. rewrite app_assoc, client_failures_app, client_totals_app, client_dones_app.
        by rewrite Ha, Hb, Hcd, Hfail, Htot, Hd.
    + destruct Hm as (Hfin & Hfail & Htot & Hd). rewrite feed_over by done.
      exists (echoed ++ fs). split; [by rewrite Hp, He1; simpl; rewrite <-app_assoc|].
      intros before. destruct Hecho as [(Ha & Hb & Hcd) _]. split; [done|].
      rewrite client_failures_app, client_totals_app, client_dones_app.
      by rewrite Ha, Hb, Hcd, Hfail, Htot, Hd.
  - change (foldl text_step ?x ?l) with (feed l x).
    set (e1 := text_step e (TiStarted (Err err))).
    assert (He1 : te_finished e1 = true ∧ te_pending e1 = te_pending e ++
      [TfChunk (chunk_failed (run_builder (te_run e)) (from_error err)); TfDone]).
    { unfold e1, text_step. rewrite Hf, Hc, Eq. done. }
    rewrite feed_over by apply He1. eexists. split; [apply He1|]. intros before. split; [apply He1|]. done.
Qed.

(** ** Keep-alives *)

(** They are comments, which a client does not read. *)
Definition is_tick (i : TextInput) : bool := match i with TiTick => true | _ => false end.
Definition without_ticks (inputs : list TextInput) : list TextInput :=
  List.filter (fun i => negb (is_tick i)) inputs.
Definition spoken (fs : list TextFrame) : list TextFrame :=
  List.filter (fun f => match f with TfComment _ => false | _ => true end) fs.

Lemma text_chunks_spoken fs : text_chunks (spoken fs) = text_chunks fs.
Proof. induction fs as [|[c|t|] fs IH]; simpl; [done|by rewrite IH|exact IH|exact IH]. Qed.

Lemma client_dones_spoken fs : client_dones (spoken fs) = client_dones fs.
Proof. unfold client_dones. induction fs as [|[c|t|] fs IH]; simpl; congruence. Qed.

(** Encoders that differ by comments only. *)
Definition alike (e1 e2 : TextEncoder) : Prop :=
  te_run e1 = te_run e2 ∧ te_current e1 = te_current e2 ∧ te_usage e1 = te_usage e2 ∧
  te_finished e1 = te_finished e2 ∧ spoken (te_pending e1) = spoken (te_pending e2).

Lemma spoken_app fs gs : spoken (fs ++ gs) = spoken fs ++ spoken gs.
Proof. apply List.filter_app. Qed.

Lemma alike_step e1 e2 i : alike e1 e2 → is_tick i = false → alike (text_step e1 i) (text_step e2 i).
Proof.
  destruct e1 as [r1 c1 p1 u1 s1 f1], e2 as [r2 c2 p2 u2 s2 f2].
  intros (Hr & Hc & Hu & Hf & Hp) Hi. simpl in *. subst. unfold text_step, alike. simpl.
  destruct f2; [done|]. destruct c2 as [index|].
  - destruct i as [[]|v|err| |]; try done; [destruct v; simpl|simpl..]; rewrite ?spoken_app, ?Hp; done.
  - destruct (run_queue r2) as [|q queue]; [done|].
    destruct i as [[]|v|err| |]; try done; simpl; by rewrite !spoken_app, Hp.
Qed.

Lemma alike_tick e1 e2 : alike e1 e2 → alike (text_step e1 TiTick) e2.
Proof.
  destruct e1 as [r1 c1 p1 u1 s1 f1], e2 as [r2 c2 p2 u2 s2 f2].
  intros (Hr & Hc & Hu & Hf & Hp). simpl in *. subst. unfold text_step, alike. simpl.
  destruct f2; [done|]. destruct c2 as [index|]; simpl; [|by destruct (run_queue r2)].
  destruct s1; simpl; [done|]. rewrite spoken_app, Hp. simpl. by rewrite app_nil_r.
Qed.

Lemma alike_feed inputs e1 e2 : alike e1 e2 → alike (feed inputs e1) (feed (without_ticks inputs) e2).
Proof.
  revert e1 e2. induction inputs as [|i inputs IH]; intros e1 e2 Ha; [done|]. simpl.
  destruct (is_tick i) eqn:Ei; simpl.
  - apply IH. destruct i; try done. by apply alike_tick.
  - by apply IH, alike_step.
Qed.

Lemma alike_close e1 e2 : alike e1 e2 → alike (text_close e1) (text_close e2).
Proof.
  destruct e1 as [r1 c1 p1 u1 s1 f1], e2 as [r2 c2 p2 u2 s2 f2].
  intros (Hr & Hc & Hu & Hf & Hp). simpl in *. subst. unfold text_close, alike. simpl.
  destruct f2; simpl; [done|]. by rewrite !spoken_app, Hp.
Qed.

(** ** The whole answer *)

(** A streamed text completion says what the collected one answers.  A
    client reads the stream of a request to its end, with keep-alives anywhere
    in it; [aggregate] is given the same generations, in which nothing follows
    [Finished].  Then the collected answer exists; for every index the client
    has the text of the answer's choice of that index - its repeated prompt
    included - and its one reason to end; it has the total usage exactly when
    it asked for it; the stream was ended once; and where the engine failed, it
    has the one error the collected answer is instead. *)
Theorem text_stream_is_collected r outcomes inputs now n out e :
  Forall (fun o => match o with Ok events => ends_with_finish events | Err _ => True end) outcomes →
  without_ticks inputs = inputs_of_outcomes outcomes →
  text_read n inputs (text_encode r) = (out, Some TextOver, e) →
  client_dones out = 1%nat ∧
  ∃ answer guard, aggregate_run outcomes now r = Some (answer, guard) ∧
    match answer with
    | Ok response =>
        (∀ i, client_text i out = text_at i (tr_choices response) ∧
              client_ends i out = ends_at i (tr_choices response)) ∧
        client_totals out = (if run_include_usage r then [tr_usage response] else []) ∧
        client_failures out = []
    | Err err => client_failures out = [from_error err] ∧ client_totals out = []
    end.
Proof.
  intros Ho Hin [-> Hset]%text_read_said.
  pose proof (alike_feed inputs (text_encode r) (text_encode r)) as Ha.
  rewrite Hin in Ha. specialize (Ha ltac:(done)). pose proof (alike_close _ _ Ha) as (_ & _ & _ & _ & Hp).
  set (out := said inputs (text_encode r)). set (out' := said (inputs_of_outcomes outcomes) (text_encode r)).
  assert (Hc : text_chunks out = text_chunks out')
    by (rewrite <-text_chunks_spoken, <-(text_chunks_spoken out'); unfold out, out', said; by rewrite Hp).
  assert (Hd : client_dones out = client_dones out')
    by (rewrite <-client_dones_spoken, <-(client_dones_spoken out'); unfold out, out', said; by rewrite Hp).
  destruct (outcomes_say outcomes r UsageBody_default (text_encode r)) as (fs & Hfs & Hall); [done..|].
  specialize (Hall []). simpl in Hfs.
  assert (Hset' : settled (feed (inputs_of_outcomes outcomes) (text_encode r))).
  { destruct Ha as (Hr & Hcur & _ & Hf & _). unfold settled in *. by rewrite <-Hr, <-Hcur, <-Hf. }
  unfold client_totals, client_failures, client_text, client_ends, choices_of.
  unfold aggregate_run. rewrite Hd, Hc. unfold out', said, text_close.
  destruct (collect_all (run_queue r) outcomes [] UsageBody_default) as [[[choices u]|err]|]; [| |done]; simpl.
  - destruct Hall as ((Htot & Hfail & Hdone) & -> & Hus & Hrun & cs & -> & Hi). simpl. rewrite Hfs, Hrun, Hus.
    split.
    { rewrite !client_dones_app, Hdone. simpl. by destruct (run_include_usage r). }
    eexists _, _. split; [reflexivity|]. simpl. rewrite !text_chunks_app. split_and!.
    + intros i. destruct (Hi i) as [Ht He]. unfold client_text, client_ends, choices_of in Ht, He.
      rewrite !bind_app. destruct (run_include_usage r); simpl; by rewrite !app_nil_r.
    + rewrite !omap_app. unfold client_totals in Htot. rewrite Htot. by destruct (run_include_usage r).
    + rewrite !omap_app. unfold client_failures in Hfail. rewrite Hfail. by destruct (run_include_usage r).
  - destruct Hall as (-> & Hfail & Htot & Hdone). rewrite Hfs. split; [done|].
    eexists _, _. split; [reflexivity|]. split; [exact Hfail|exact Htot].
Qed.

(** What an answered text completion leaves to be recorded: no finish reason,
    which counts as a client that walked away, and no tokens. *)
Theorem text_answers_are_not_measured r outcomes now answer guard :
  aggregate_run outcomes now r = Some (answer, guard) → gd_record guard = gd_record (run_guard r).
Proof.
  unfold aggregate_run. destruct (collect_all _ _ _ _) as [[[choices usage]|e]|]; [| |done]; cbn.
  - intros [= <- <-]. unfold completed. by destruct (gd_ending (run_guard r)).
  - by intros [= <- <-].
Qed.
End runs.

(** Two completions of one prompt, the second repeated at its head and cut
    short, with a keep-alive before the first word. *)
Section demo.
#[local] Instance text_json : Json := {|
  Value := unit;
  Object := unit;
  from_str _ := None;
  to_string _ := [];
  as_object _ := None;
  as_string _ := None;
  as_items _ := None;
  value_as_u64 _ := None;
  of_object _ := tt;
  of_string _ := tt;
  empty_object := tt;
  object_get _ _ := None;
  object_insert _ _ _ := tt |}.
#[local] Instance plain_spelling : StrDebug := fun s => s.

Definition demo_pending (index : u32) (echo : option str) : PendingCompletion :=
  mkPending index (with_prompt (PromptText (lit "One, two,"))) echo.

Definition demo_run : Run :=
  mkRun [demo_pending 0 None; demo_pending 1 (Some (lit "One, two,"))]
    (mkTextBuilder (lit "cmpl-1") (lit "coder") 7) (RequestGuard_new (Some 3) 0) (lit "coder") true.

Definition demo_outcomes : list (result (list (result GenerationEvent BackendError)) BackendError) :=
  [Ok [Ok (Started None); Ok (ContentDelta (lit " three")); Ok (Finished FrStop (Usage_new 4 1))];
   Ok [Ok (ContentDelta (lit " 3"))]].

Definition demo_text_inputs : list TextInput :=
  match inputs_of_outcomes demo_outcomes with i :: inputs => i :: TiTick :: inputs | [] => [] end.

Example demo_text_answer :
  match aggregate_run demo_outcomes 9 demo_run with
  | Some (Ok response, _) =>
      (tx_text <$> tr_choices response) = [lit " three"; lit "One, two, 3"] ∧
      ub_total_tokens (tr_usage response) = 5
  | _ => False
  end.
Proof. vm_compute. split; reflexivity. Qed.

Lemma text_stream_is_collected_witness : ∃ out e,
  text_read 20 demo_text_inputs (text_encode demo_run) = (out, Some TextOver, e) ∧
  (client_dones out = 1%nat ∧
   ∃ answer guard, aggregate_run demo_outcomes 9 demo_run = Some (answer, guard) ∧
    match answer with
    | Ok response =>
        (∀ i, client_text i out = text_at i (tr_choices response) ∧
              client_ends i out = ends_at i (tr_choices response)) ∧
        client_totals out = (if run_include_usage demo_run then [tr_usage response] else []) ∧
        client_failures out = []
    | Err err => client_failures out = [from_error err] ∧ client_totals out = []
    end).
Proof.
  eexists _, _. split; [vm_compute; reflexivity|].
  eapply (text_stream_is_collected demo_run demo_outcomes demo_text_inputs 9 20);
    [|reflexivity|vm_compute; reflexivity].
  repeat constructor.
Defined.
End demo.
