(* ===== verification/Serve.v ===== *)
(** * Serving a request

    The inference handlers of [crates/lightweight-gateway/src/routes.rs]: what
    is advertised, and a chat or text completion from its parsed body to the
    slot it is served on.  The answer itself is [Streaming] and [Completions],
    the queue is [Scheduler], and what runs is [Manager].

    A handler waits for the backend to count the prompt, for a slot, and for the
    generation to begin; what each wait comes to is an argument, and so is the
    backend as it is when the generation begins. *)

From stdpp Require Import base gmap strings numbers list.
From S2P Require Import Prelude Scheduler Names Utf8 Net Frames Float64 Estimator Capabilities.
From S2P Require Import Web Rewriter Keys Limits Auth Responses Generation Streaming Catalog Supervisor.
From S2P Require Import Backend Manager Chat Completions.

(** ** Refusals *)

Record ApiError := mkApiError { api_status : u16; api_envelope : ErrorEnvelope }.

Definition api_with_param (param : str) (e : ApiError) : ApiError :=
  mkApiError (api_status e) (with_param (api_envelope e) param).

Definition map_err {A E F} (f : E → F) (r : result A E) : result A F :=
  match r with Ok a => Ok a | Err e => Err (f e) end.

Definition server_busy : ApiError :=
  mkApiError 503
    (invalid_request (lit "the gateway is busy with another request; try again shortly")
       (lit "server_busy")).

(** How a status counts. *)
Inductive RequestOutcome := OutcomeOk | OutcomeClientError | OutcomeServerError | OutcomeBusy.

Definition outcome_of (status : u16) : RequestOutcome :=
  if status =? 503 then OutcomeBusy
  else if is_success_status status then OutcomeOk
  else if (400 <=? status) && (status <? 500) then OutcomeClientError else OutcomeServerError.

(** A body: read, or not JSON, or JSON of another shape. *)
Inductive Parsed (A : Type) := BodyRead (a : A) | BodyNotJson (err : str) | BodyUnreadable (err : str).
Arguments BodyRead {A} a.
Arguments BodyNotJson {A} err.
Arguments BodyUnreadable {A} err.

Definition parse_body {A} (body : Parsed A) : result A ApiError :=
  match body with
  | BodyRead a => Ok a
  | BodyNotJson err =>
      Err (mkApiError 400
             (invalid_request (lit "the request body is not valid JSON: " ++ err) (lit "invalid_json")))
  | BodyUnreadable err =>
      Err (mkApiError 400
             (invalid_request (lit "the request body has a field this endpoint cannot read: " ++ err)
                (lit "invalid_request_body")))
  end.

(** The output budget. *)
Definition clamp_max_tokens (requested : option u32) (n_ctx prompt_tokens : u32) : u32 :=
  let available := Z.max (Z.max (Z.max (n_ctx - prompt_tokens) 0 - 1) 0) 1 in
  match requested with Some requested => clamp requested 1 available | None => available end.

(** [completion_id]: what [getrandom] fills, or the clock. *)
Definition completion_id (random : option (list byte)) (nanos : u32) : str :=
  let bytes := match random with
               | Some bytes => bytes
               | None => [nanos mod 256; nanos / 256 mod 256; nanos / 65536 mod 256; nanos / 16777216 mod 256]
                         ++ replicate 8 0
               end in
  lit "chatcmpl-" ++ hex bytes.

(** ** What is advertised *)

Inductive ModelState := StateReady | StateLoading | StateAvailable.

Record HermesModelInfo := mkHermes {
  hm_architecture : str;
  hm_param_count : option u64;
  hm_quantization : option str;
  hm_model_max_context_length : option u64;
  hm_state : ModelState;
  hm_ram_verdict : option str;
  hm_backend : option str }.

Record ModelRow := mkRow {
  row_id : str;
  row_object : str;
  row_created : u64;
  row_owned_by : str;
  row_context_length : u32;
  row_n_ctx : u32;
  row_max_tokens : u32;
  row_max_output_tokens : u32;
  row_hermes : HermesModelInfo }.

Definition ModelRow_new (id : str) (n_ctx : u32) (hermes : HermesModelInfo) (now : u64) : ModelRow :=
  mkRow id (lit "model") now (lit "hermes-gateway") n_ctx n_ctx n_ctx n_ctx hermes.

Definition verdict_label (v : Verdict) : str :=
  match v with Safe => lit "SAFE" | Tight => lit "TIGHT" | Insufficient => lit "INSUFFICIENT" end.

Definition to_row (m : ResidentModel) (now : u64) : ModelRow :=
  ModelRow_new (public_id m) (rm_n_ctx m)
    (mkHermes (rm_architecture m) (rm_param_count m) (rm_quantization m) (rm_max_context m) StateReady
       (verdict_label <$> rm_ram_verdict m) (rm_backend m)) now.

(** [Catalog::rows], which [GET /v1/models] lists. *)
Definition catalog_rows (resident : option ResidentModel) (now : u64) : list ModelRow :=
  match resident with Some m => [to_row m now] | None => [] end.

Section serve.
Context `{LowerCase} `{J : Json} `{!JsonConstants J} `{StrDebug}.

Definition api_from_backend (e : BackendError) : ApiError :=
  mkApiError (http_status (error_kind e)) (from_error e).

(** [bad_request], and what [serve_completions] makes of a refusal. *)
Definition bad_request (e : RequestError) : ApiError :=
  mkApiError 400
    (with_param (invalid_request (request_error_message e) (request_error_code e)) (request_error_param e)).

Definition bad_completion (e : CompletionError) : ApiError :=
  mkApiError 400
    (with_param (invalid_request (completion_error_message e) (completion_error_code e))
       (completion_error_param e)).

Record PropsBody := mkProps {
  pr_n_ctx : u32;
  pr_n_predict : Z;
  pr_stream : bool;
  pr_total_slots : u32;
  pr_model_path : option str;
  pr_engine : option Value }.

Definition PropsBody_new (n_ctx : u32) (path : str) (slots : u32) : PropsBody :=
  mkProps n_ctx (-1) true slots (Some path) None.

Definition redacted (p : PropsBody) : PropsBody :=
  mkProps (pr_n_ctx p) (pr_n_predict p) (pr_stream p) (pr_total_slots p) None (pr_engine p).

Definition with_engine_props (v : Value) (p : PropsBody) : PropsBody :=
  mkProps (pr_n_ctx p) (pr_n_predict p) (pr_stream p) (pr_total_slots p) (pr_model_path p) (Some v).

(** [GET /props]; [configured] is the number of slots the gateway was started
    with. *)
Definition props (configured : u32) (authorized : bool) (g : Gateway) : result PropsBody ApiError :=
  match mg_resident g with
  | None => Err (api_from_backend NoModelLoaded)
  | Some m =>
      let body := PropsBody_new (rm_n_ctx m) (rm_path m) configured in
      Ok (if authorized
          then match engine_props (mg_backend g) with
               | Some v => with_engine_props v body
               | None => body
               end
          else redacted body)
  end.

(** [GET /v1/capabilities]. *)
Definition capabilities (version : str) (g : Gateway) : CapabilitiesBody :=
  CapabilitiesBody_new version
    ((fun m => mkCapModel (public_id m) (rm_n_ctx m)) <$> mg_resident g)
    (capacity (mg_scheduler g)).

(** [GET /health]; what the engine and the model are is for the authorized. *)
Record HealthBody := mkHealth {
  hb_status : str;
  hb_backend : str;
  hb_engine : option (BackendHealth * option str) }.

Definition health (authorized : bool) (engine : BackendHealth) (g : Gateway) : HealthBody :=
  mkHealth (match mg_resident g with Some _ => lit "ok" | None => lit "no model loaded" end) BACKEND_ID
    (if authorized then Some (engine, mid ∘ rm_id <$> mg_resident g) else None).

(** ** A chat completion *)

Definition require_matching_model (m : ResidentModel) (requested : option str) : result unit ApiError :=
  let requested := default [] requested in
  if resident_matches m requested then Ok tt
  else Err (mkApiError 404
              (with_param
                 (invalid_request
                    (lit "the model " ++ debug_str requested
                     ++ lit " is not loaded; this gateway is serving " ++ debug_str (public_id m))
                    (lit "model_not_found"))
                 (lit "model"))).

(** [count_prompt_tokens] and [generate] of the backend: for the instance that
    runs, what the engine says. *)
Definition for_instance {A} (instance : u64) (b : ProcessBackend) (said : result A BackendError)
    : result A BackendError :=
  let? _ := client_for instance b in said.

(** A chat request that may be served. *)
Record ChatJob := mkChatJob {
  cj_model : ResidentModel;
  cj_generation : GenerationRequest;
  cj_prompt_tokens : u32;
  cj_band : Band;
  cj_stream : bool;
  cj_include_usage : bool }.

(** [serve_chat], up to the slot; [counted] is what the engine counts. *)
Definition chat_prepare (counted : GenerationRequest → result u32 BackendError)
    (r : ChatCompletionRequest) (g : Gateway) : result ChatJob ApiError :=
  match mg_resident g with
  | None => Err (api_from_backend NoModelLoaded)
  | Some m =>
      let? _ := require_matching_model m (cr_model r) in
      let? generation := map_err bad_request (to_generation_request r) in
      let? prompt_tokens :=
        map_err api_from_backend (for_instance (rm_instance m) (mg_backend g) (counted generation)) in
      if rm_n_ctx m <=? prompt_tokens
      then Err (api_with_param (lit "messages") (api_from_backend (ContextOverflow prompt_tokens (rm_n_ctx m))))
      else
        let asked := requested_max_tokens r in
        Ok (mkChatJob m
              (with_max_tokens (clamp_max_tokens asked (rm_n_ctx m) prompt_tokens) generation)
              prompt_tokens (classify prompt_tokens asked (band_limits (mg_scheduler g)))
              (cr_stream r) (chat_wants_usage r))
  end.

(** The builder and the guard of a request, at the time [created] and [now]. *)
Definition request_builder (id : str) (m : ResidentModel) (created : u64) : ChunkBuilder :=
  ChunkBuilder_new id (public_id m) created.

Definition request_guard (id : str) (m : ResidentModel) (band : Band) (prompt_tokens : u32)
    (permit : option u64) (now : Instant) : RequestGuard :=
  counting prompt_tokens
    (guard_in_band band (describing id (mid (rm_id m)) (reporting_to (RequestGuard_new permit now)))).

(** What comes of a chat request: a refusal, with what dropping its guard did;
    a stream; or a generation to collect ([aggregate]). *)
Inductive ChatReply :=
| ChatRefused (e : ApiError) (effects : list Effect)
| ChatStreaming (e : Encoder)
| ChatCollecting (g : RequestGuard).

(** The slot is there: the generation begins, with the backend [b] there is now;
    [start] is what the engine says to it. *)
Definition chat_begin (job : ChatJob) (id : str) (created : u64) (guard : RequestGuard)
    (b : ProcessBackend) (start : result unit BackendError) (now : Instant) : ChatReply :=
  match for_instance (rm_instance (cj_model job)) b start with
  | Err e => ChatRefused (api_from_backend e) (drop_guard now (failed guard))
  | Ok _ =>
      if cj_stream job
      then ChatStreaming (encode_source Running (request_builder id (cj_model job) created) guard
                            (cj_include_usage job))
      else ChatCollecting guard
  end.

(** What serving a request meets: the engine's count, the id, the times, the
    peer, how a wait in the queue ends - with a slot after some time, or not -
    and the backend and the engine's answer when the generation begins. *)
Record ServeWorld := mkServeWorld {
  sw_counted : GenerationRequest → result u32 BackendError;
  sw_id : str;
  sw_created : u64;
  sw_peer : PeerKey;
  sw_now : Instant;
  sw_waited : option (u64 * Duration);
  sw_backend : ProcessBackend;
  sw_start : result unit BackendError }.

Definition set_scheduler (s : Scheduler) (g : Gateway) : Gateway :=
  mkGateway s (mg_backend g) (mg_resident g) (mg_catalog g) (mg_busy g).

(** [serve_chat].  A streamed request that is queued waits inside its stream:
    its start is [for_instance] then ([InGranted]).  The gateway given back is
    the one there is once the request has its slot or its place; what waiting,
    being granted and giving up do to the queue is [Scheduler]. *)
Definition serve_chat (w : ServeWorld) (r : ChatCompletionRequest) (g : Gateway) : ChatReply * Gateway :=
  match chat_prepare (sw_counted w) r g with
  | Err e => (ChatRefused e [], g)
  | Ok job =>
      let guard permit := request_guard (sw_id w) (cj_model job) (cj_band job) (cj_prompt_tokens job)
                            permit (sw_now w) in
      match admit_or_enqueue (mg_scheduler g) (cj_band job) (sw_peer w) (sw_now w) with
      | (inl slot, s) =>
          (chat_begin job (sw_id w) (sw_created w) (guard (Some slot)) (sw_backend w) (sw_start w) (sw_now w),
           set_scheduler s g)
      | (inr ticket, s) =>
          (if cj_stream job
           then ChatStreaming (encode_source Queued (request_builder (sw_id w) (cj_model job) (sw_created w))
                                 (guard None) (cj_include_usage job))
           else
             match sw_waited w with
             | None => ChatRefused server_busy []
             | Some (slot, waited) =>
                 chat_begin job (sw_id w) (sw_created w) (guard_waited waited (guard (Some slot)))
                   (sw_backend w) (sw_start w) (sw_now w)
             end,
           set_scheduler s g)
      end
  end.

(** ** A collected answer *)

Record ResponseFunction := mkResponseFunction { rf_name : str; rf_arguments : str }.

Record ResponseToolCall := mkResponseCall {
  rc_id : str;
  rc_type : str;
  rc_function : ResponseFunction }.

Record ResponseMessage := mkResponseMessage {
  rm_role : str;
  rm_content : str;
  rm_reasoning_content : option str;
  rm_tool_calls : list ResponseToolCall }.

Record Choice := mkChatChoice {
  ch_index : u32;
  ch_message : ResponseMessage;
  ch_finish_reason : str }.

Record ChatCompletionResponse := mkChatResponse {
  cp_id : str;
  cp_object : str;
  cp_created : u64;
  cp_model : str;
  cp_choices : list Choice;
  cp_usage : UsageBody;
  cp_timings : option Timings }.

(** The end of [aggregate]. *)
Definition chat_response (id model : str) (created : u64) (m : Message) (usage : UsageBody)
    (reason : FinishReason) (timings : option Timings) : ChatCompletionResponse :=
  mkChatResponse id (lit "chat.completion") created model
    [mkChatChoice 0
       (mkResponseMessage (lit "assistant") (msg_content m)
          (if bool_decide (msg_reasoning m = []) then None else Some (msg_reasoning m))
          ((fun '(_, c) => mkResponseCall (pc_id c) (lit "function")
              (mkResponseFunction (pc_name c) (pc_arguments c))) <$> msg_calls m))
       (finish_str reason)]
    usage timings.

Definition answer_chat (id : str) (m : ResidentModel) (created : u64) (a : Aggregated)
    : result ChatCompletionResponse ApiError :=
  match a with
  | AgResponse message usage reason timings =>
      Ok (chat_response id (public_id m) created message usage reason timings)
  | AgError status envelope => Err (mkApiError status envelope)
  end.

(** ** A text completion *)

(** The loop of [serve_completions]: every prompt is counted and clamped before
    any is generated. *)
Fixpoint count_prompts (counted : GenerationRequest → result u32 BackendError) (r : CompletionRequest)
    (m : ResidentModel) (b : ProcessBackend) (index : Z) (prompts : list str) (largest : u32)
    : result (list PendingCompletion * u32) ApiError :=
  match prompts with
  | [] => Ok ([], largest)
  | prompt :: prompts =>
      let generation := completion_generation prompt r in
      let? prompt_tokens :=
        map_err api_from_backend (for_instance (rm_instance m) b (counted generation)) in
      if rm_n_ctx m <=? prompt_tokens
      then Err (api_with_param (lit "prompt") (api_from_backend (ContextOverflow prompt_tokens (rm_n_ctx m))))
      else
        let p := mkPending (u32_or_max index)
                   (with_max_tokens (clamp_max_tokens (cq_max_tokens r) (rm_n_ctx m) prompt_tokens) generation)
                   (if echoes_the_prompt r then Some prompt else None) in
        let? '(queue, largest) :=
          count_prompts counted r m b (index + 1) prompts (Z.max largest prompt_tokens) in
        Ok (p :: queue, largest)
  end.

Record TextJob := mkTextJob {
  tj_model : ResidentModel;
  tj_queue : list PendingCompletion;
  tj_largest_prompt : u32;
  tj_band : Band }.

(** [serve_completions], up to the slot. *)
Definition text_prepare (counted : GenerationRequest → result u32 BackendError) (r : CompletionRequest)
    (g : Gateway) : result TextJob ApiError :=
  match mg_resident g with
  | None => Err (api_from_backend NoModelLoaded)
  | Some m =>
      let? _ := require_matching_model m (cq_model r) in
      let? prompts := map_err bad_completion (expand r) in
      let? '(queue, largest) := count_prompts counted r m (mg_backend g) 0 prompts 0 in
      Ok (mkTextJob m queue largest
            (classify largest (cq_max_tokens r) (band_limits (mg_scheduler g))))
  end.

Inductive TextReply :=
| TextRefused (e : ApiError)
| TextStreaming (e : TextEncoder)
| TextCollecting (r : Run).

(** The rest of it, with the slot it waits for. *)
Definition serve_completions (w : ServeWorld) (r : CompletionRequest) (g : Gateway) : TextReply :=
  match text_prepare (sw_counted w) r g with
  | Err e => TextRefused e
  | Ok job =>
      match sw_waited w with
      | None => TextRefused server_busy
      | Some (slot, waited) =>
          let m := tj_model job in
          let builder := mkTextBuilder (sw_id w) (public_id m) (sw_created w) in
          let guard := guard_waited waited
                         (request_guard (sw_id w) m (tj_band job) (tj_largest_prompt job) (Some slot) (sw_now w)) in
          let run := mkRun (tj_queue job) builder guard (public_id m) (completion_wants_usage r) in
          if cq_stream r then TextStreaming (text_encode run) else TextCollecting run
      end
  end.

(** ** The handlers *)

(** [chat_completions] and [completions]: what the guards refuse, a body that
    cannot be read, and what serving it gives, which is what is counted. *)
Inductive Handled (R : Type) :=
| HandledRefused (a : Responses.Response unit)
| HandledUnread (e : ApiError)
| HandledServed (reply : R).
#[global] Arguments HandledRefused {R} a.
#[global] Arguments HandledUnread {R} e.
#[global] Arguments HandledServed {R} reply.

Definition handle {A R : Type} `{Sha256} (policy : AuthPolicy) (limiter : RateLimiter) (at_ : Clocks)
    (headers : HeaderMap) (body : Parsed A) (serve : A → R) : Handled R * RateLimiter :=
  let '(refusal, limiter) := admit_request policy limiter at_ headers in
  match refusal with
  | Some a => (HandledRefused a, limiter)
  | None =>
      match parse_body body with
      | Err e => (HandledUnread e, limiter)
      | Ok a => (HandledServed (serve a), limiter)
      end
  end.
End serve.
