(* ===== verification/ServeTheorems.v ===== *)
(** * Properties of serving a request

    A request that is served fits the window of the model that serves it, and
    one that is not says why; a slot is held by one guard or given back; and
    what runs when a generation begins is what the request was judged for. *)

From stdpp Require Import base gmap strings numbers list relations.
From S2P Require Import Prelude Scheduler Names Utf8 Net Frames Float64 Estimator Metadata Capabilities.
From S2P Require Import Web Rewriter Keys Responses Generation Streaming StreamingTheorems Download.
From S2P Require Import Catalog Install.
From S2P Require Import Supervisor Backend BackendTheorems Manager ManagerTheorems Chat Completions.
From S2P Require Import CompletionsTheorems Serve.

Section serve.
Context `{LowerCase} `{J : Json} `{!JsonConstants J} `{StrDebug}.

(** ** The budget *)

Lemma clamp_is x lo hi : lo ≤ hi → clamp x lo hi = Z.min (Z.max x lo) hi.
Proof. unfold clamp. intros. destruct (Z.ltb_spec x lo), (Z.ltb_spec hi x); lia. Qed.

Lemma clamp_max_tokens_fits requested n_ctx prompt_tokens : prompt_tokens < n_ctx →
  let max := clamp_max_tokens requested n_ctx prompt_tokens in
  1 ≤ max ∧ prompt_tokens + max ≤ n_ctx ∧ (prompt_tokens + 1 < n_ctx → prompt_tokens + max < n_ctx) ∧
  ∀ asked, requested = Some asked → max ≤ Z.max asked 1.
Proof.
  intros Hp. unfold clamp_max_tokens. destruct requested as [asked|]; cbn.
  - rewrite clamp_is by lia. split_and!; [lia|lia|lia|]. intros ? [= <-]. lia.
  - split_and!; [lia|lia|lia|]. by intros ?.
Qed.

(** "One token is reserved so that generation cannot end by filling the window
    exactly": not for a prompt that leaves a single token. *)
Theorem window_is_filled n_ctx requested :
  n_ctx - 1 + clamp_max_tokens requested n_ctx (n_ctx - 1) = n_ctx.
Proof. unfold clamp_max_tokens. destruct requested; rewrite ?clamp_is by lia; lia. Qed.

Lemma for_instance_ok {A} instance b (said : result A BackendError) a :
  for_instance instance b said = Ok a →
  said = Ok a ∧ ∃ running, pb_running b = Some running ∧ re_instance running = instance.
Proof.
  unfold for_instance, client_for. destruct (pb_running b) as [running|]; [|done].
  destruct (Z.eqb_spec (re_instance running) instance); [|done]. cbn. eauto.
Qed.

(** ** What is served *)

(** A generation of a budget that fits beside its prompt in a window. *)
Definition fits (n_ctx prompt_tokens : Z) (g : GenerationRequest) : Prop :=
  ∃ max, gr_max_tokens g = Some max ∧ 1 ≤ max ∧ prompt_tokens < n_ctx ∧ prompt_tokens + max ≤ n_ctx.

(** C13: a chat request that may be served is for the resident model, was
    counted by the engine that runs it, and fits: its prompt is smaller than
    the window, its budget is at least one token, no more than was asked for,
    and no more than the prompt leaves.  It is otherwise refused for the first
    reason there is, in this order, with its own status, code and field: no
    model, another model, a request that cannot be translated, an engine that
    cannot count it, a prompt that does not fit. *)
Theorem chat_is_served_within_the_window counted r g :
  match chat_prepare counted r g with
  | Ok job =>
      ∃ m generation, mg_resident g = Some m ∧ cj_model job = m ∧
        resident_matches m (default [] (cr_model r)) = true ∧
        to_generation_request r = Ok generation ∧
        counted generation = Ok (cj_prompt_tokens job) ∧
        (∃ running, pb_running (mg_backend g) = Some running ∧ re_instance running = rm_instance m) ∧
        fits (rm_n_ctx m) (cj_prompt_tokens job) (cj_generation job) ∧
        (∃ max, cj_generation job = with_max_tokens max generation ∧
           ∀ asked, requested_max_tokens r = Some asked → max ≤ Z.max asked 1) ∧
        cj_band job = classify (cj_prompt_tokens job) (requested_max_tokens r) (band_limits (mg_scheduler g))
  | Err e =>
      let why := (api_status e, env_code (api_envelope e), env_param (api_envelope e)) in
      match mg_resident g with
      | None => why = (503, lit "no_model_loaded", None)
      | Some m =>
          if negb (resident_matches m (default [] (cr_model r)))
          then why = (404, lit "model_not_found", Some (lit "model"))
          else
            match to_generation_request r with
            | Err problem => why = (400, request_error_code problem, Some (request_error_param problem))
            | Ok generation =>
                match for_instance (rm_instance m) (mg_backend g) (counted generation) with
                | Err problem => e = api_from_backend problem
                | Ok tokens =>
                    rm_n_ctx m ≤ tokens ∧
                    why = (400, lit "context_length_exceeded", Some (lit "messages"))
                end
            end
      end
  end.
Proof.
  unfold chat_prepare. destruct (mg_resident g) as [m|]; [|done].
  unfold require_matching_model. destruct (resident_matches m (default [] (cr_model r))) eqn:Em; cbn; [|done].
  destruct (to_generation_request r) as [generation|problem] eqn:Eg; cbn; [|done].
  destruct (for_instance (rm_instance m) (mg_backend g) (counted generation)) as [tokens|problem] eqn:Ec;
    cbn; [|done].
  apply for_instance_ok in Ec as [Ec Hrun].
  destruct (Z.leb_spec (rm_n_ctx m) tokens) as [Hle|Hlt]; [done|].
  destruct (clamp_max_tokens_fits (requested_max_tokens r) (rm_n_ctx m) tokens Hlt) as (H1 & H2 & _ & H4).
  exists m, generation. split_and!; try done; [by eexists|by eexists].
Qed.

Lemma chat_prepare_ok counted r g job : chat_prepare counted r g = Ok job →
  ∃ m, mg_resident g = Some m ∧ cj_model job = m ∧
    (∃ running, pb_running (mg_backend g) = Some running ∧ re_instance running = rm_instance m) ∧
    fits (rm_n_ctx m) (cj_prompt_tokens job) (cj_generation job).
Proof.
  unfold chat_prepare. destruct (mg_resident g) as [m|]; [|done].
  destruct (require_matching_model m (cr_model r)); cbn; [|done].
  destruct (to_generation_request r) as [generation|]; cbn; [|done].
  destruct (for_instance _ _ _) as [tokens|] eqn:Ec; cbn; [|done]. apply for_instance_ok in Ec as [_ Hrun].
  destruct (Z.leb_spec (rm_n_ctx m) tokens) as [|Hlt]; [done|]. intros [= <-].
  destruct (clamp_max_tokens_fits (requested_max_tokens r) (rm_n_ctx m) tokens Hlt) as (H1 & H2 & _).
  exists m. split_and!; [done|done|done|by eexists].
Qed.

(** The prompts of a text completion, as they are counted. *)
Lemma count_prompts_cases counted r m b index prompts largest :
  match count_prompts counted r m b index prompts largest with
  | Ok (queue, largest') =>
      length queue = length prompts ∧ largest ≤ largest' ∧
      (∀ i p, queue !! i = Some p →
         ∃ prompt tokens, prompts !! i = Some prompt ∧
           pn_index p = u32_or_max (index + Z.of_nat i) ∧
           pn_echo p = (if echoes_the_prompt r then Some prompt else None) ∧
           gr_prompt (pn_request p) = PromptText prompt ∧
           counted (completion_generation prompt r) = Ok tokens ∧ tokens ≤ largest' ∧
           fits (rm_n_ctx m) tokens (pn_request p)) ∧
      (prompts ≠ [] → ∃ running, pb_running b = Some running ∧ re_instance running = rm_instance m)
  | Err e =>
      ∃ i prompt, prompts !! i = Some prompt ∧
        match for_instance (rm_instance m) b (counted (completion_generation prompt r)) with
        | Err problem => e = api_from_backend problem
        | Ok tokens =>
            rm_n_ctx m ≤ tokens ∧
            e = api_with_param (lit "prompt") (api_from_backend (ContextOverflow tokens (rm_n_ctx m)))
        end
  end.
Proof.
  revert index largest. induction prompts as [|prompt prompts IH]; intros index largest; cbn [count_prompts].
  { split_and!; [done|lia| |done]. intros i p Hi. by rewrite lookup_nil in Hi. }
  destruct (for_instance (rm_instance m) b (counted (completion_generation prompt r))) as [tokens|problem] eqn:Ec;
    cbn; [|exists 0%nat, prompt; by rewrite Ec].
  destruct (Z.leb_spec (rm_n_ctx m) tokens) as [Hle|Hlt]; [exists 0%nat, prompt; by rewrite Ec|].
  pose proof (for_instance_ok _ _ _ _ Ec) as [Hcount Hrun].
  specialize (IH (index + 1) (Z.max largest tokens)).
  destruct (count_prompts counted r m b (index + 1) prompts (Z.max largest tokens)) as [[queue largest']|e]; cbn.
  - destruct IH as (Hlen & Hmax & Hall & _). split_and!; [by rewrite Hlen|lia| |done].
    intros [|i] p; simpl.
    + intros [= <-]. exists prompt, tokens. split_and!; try done; [by rewrite Z.add_0_r|lia|].
      destruct (clamp_max_tokens_fits (cq_max_tokens r) (rm_n_ctx m) tokens Hlt) as (H1 & H2 & _ & _).
      by eexists.
    + intros Hi. destruct (Hall i p Hi) as (prompt' & tokens' & Hp & Hidx & Hrest).
      exists prompt', tokens'. split; [done|]. split; [rewrite Hidx; f_equal; lia|exact Hrest].
  - destruct IH as (i & prompt' & Hi & Hwhy). by exists (S i), prompt'.
Qed.

(** No completion of a text request is begun before every one of them is
    known to fit.  Of one that may be served, there is a completion for every
    prompt it expands to, numbered in their order, each with its own prompt,
    counted by the engine that runs the resident model and with a budget that
    fits beside it; none is longer than the prompt the request is queued by. *)
Theorem every_prompt_fits_first counted r g :
  match text_prepare counted r g with
  | Ok job =>
      ∃ m prompts, mg_resident g = Some m ∧ tj_model job = m ∧
        resident_matches m (default [] (cq_model r)) = true ∧ expand r = Ok prompts ∧
        length (tj_queue job) = length prompts ∧
        ∀ i p, tj_queue job !! i = Some p →
          ∃ prompt tokens, prompts !! i = Some prompt ∧ pn_index p = u32_or_max (Z.of_nat i) ∧
            pn_echo p = (if echoes_the_prompt r then Some prompt else None) ∧
            gr_prompt (pn_request p) = PromptText prompt ∧
            counted (completion_generation prompt r) = Ok tokens ∧ tokens ≤ tj_largest_prompt job ∧
            fits (rm_n_ctx m) tokens (pn_request p)
  | Err e =>
      match mg_resident g with
      | None => e = api_from_backend NoModelLoaded
      | Some m =>
          if negb (resident_matches m (default [] (cq_model r)))
          then api_status e = 404
          else
            match expand r with
            | Err problem => e = bad_completion problem
            | Ok prompts =>
                ∃ i prompt, prompts !! i = Some prompt ∧
                  match for_instance (rm_instance m) (mg_backend g) (counted (completion_generation prompt r)) with
                  | Err problem => e = api_from_backend problem
                  | Ok tokens =>
                      rm_n_ctx m ≤ tokens ∧
                      e = api_with_param (lit "prompt")
                            (api_from_backend (ContextOverflow tokens (rm_n_ctx m)))
                  end
            end
      end
  end.
Proof.
  unfold text_prepare. destruct (mg_resident g) as [m|]; [|done].
  unfold require_matching_model. destruct (resident_matches m (default [] (cq_model r))) eqn:Em; cbn; [|done].
  destruct (expand r) as [prompts|problem] eqn:Ee; cbn; [|done].
  pose proof (count_prompts_cases counted r m (mg_backend g) 0 prompts 0) as Hc.
  destruct (count_prompts counted r m (mg_backend g) 0 prompts 0) as [[queue largest]|e]; cbn; [|exact Hc].
  destruct Hc as (Hlen & _ & Hall & _). exists m, prompts. by split_and!.
Qed.

(** ** Slots *)

Lemma request_guard_fields id m band prompt_tokens permit now :
  let g := request_guard id m band prompt_tokens permit now in
  gd_permit g = permit ∧ Forall quiet (gd_log g) ∧ rc_finish_reason (gd_record g) = None ∧
  gd_reports g = true ∧ gd_id g = Some id ∧ gd_model g = Some (mid (rm_id m)).
Proof.
  destruct permit as [slot|]; unfold request_guard; cbn; split_and!; try done; repeat constructor.
Qed.

(** A guard that holds a slot, before anything was done with it. *)
Definition holds (permit : option u64) (g : RequestGuard) : Prop :=
  gd_permit g = permit ∧ Forall quiet (gd_log g) ∧ rc_finish_reason (gd_record g) = None ∧ gd_reports g = true.

(** A slot that was taken for a request is held by what answers it, or was
    given back, last of all, once what was done is accounted for. *)
Definition held_or_given_back (slot : u64) (reply : ChatReply) : Prop :=
  match reply with
  | ChatRefused _ effects => ∃ before record id model,
      effects = before ++ [CancelWork; Recorded record id model; Released slot] ∧ Forall quiet before
  | ChatStreaming e => en_source e = Running ∧ holds (Some slot) (en_guard e)
  | ChatCollecting g => holds (Some slot) g
  end.

Lemma waited_holds permit waited g : holds permit g → holds permit (guard_waited waited g).
Proof. by destruct g. Qed.

Lemma dropped_guard slot now g : holds (Some slot) g → ∃ before record id model,
  drop_guard now (failed g) = before ++ [CancelWork; Recorded record id model; Released slot] ∧
  Forall quiet before.
Proof.
  intros (Hp & Hq & _ & Hr). unfold drop_guard. simpl. rewrite Hp, Hr. eexists _, _, _, _. by split.
Qed.

Lemma chat_begin_cases job id created guard b start now slot :
  holds (Some slot) guard →
  let reply := chat_begin job id created guard b start now in
  held_or_given_back slot reply ∧
  (if is_ok (for_instance (rm_instance (cj_model job)) b start)
   then ∃ running, pb_running b = Some running ∧ re_instance running = rm_instance (cj_model job)
   else ∃ e effects, reply = ChatRefused e effects).
Proof.
  intros Hg. unfold chat_begin.
  destruct (for_instance (rm_instance (cj_model job)) b start) as [[]|e] eqn:Ef; simpl.
  - apply for_instance_ok in Ef as [_ Hrun]. split; [|done]. by destruct (cj_stream job).
  - split; [|by eexists _, _]. by apply dropped_guard.
Qed.

(** A reply whose generation began with it. *)
Definition begun (reply : ChatReply) : Prop :=
  match reply with
  | ChatRefused _ _ => False
  | ChatStreaming e => en_source e = Running
  | ChatCollecting _ => True
  end.

(** C17: serving a chat request takes at most one slot, which is held by the one
    guard that answers it or was given back; a request that is refused before
    it has a slot leaves the gateway as it was; one that is queued keeps its
    place for as long as its stream, and has no slot; and a generation is only
    ever begun on the instance the request was judged for, however long it
    waited and whatever was loaded meanwhile. *)
Theorem served_chat_is_accounted w r g :
  let '(reply, g') := serve_chat w r g in
  g' = set_scheduler (mg_scheduler g') g ∧
  match chat_prepare (sw_counted w) r g with
  | Err e => reply = ChatRefused e [] ∧ g' = g
  | Ok job =>
      (begun reply → ∃ running,
         pb_running (sw_backend w) = Some running ∧ re_instance running = rm_instance (cj_model job)) ∧
      match admit_or_enqueue (mg_scheduler g) (cj_band job) (sw_peer w) (sw_now w) with
      | (inl slot, s) => mg_scheduler g' = s ∧ held_or_given_back slot reply
      | (inr ticket, s) =>
          mg_scheduler g' = s ∧
          if cj_stream job
          then ∃ e, reply = ChatStreaming e ∧ en_source e = Queued ∧ holds None (en_guard e)
          else match sw_waited w with
               | None => reply = ChatRefused server_busy []
               | Some (slot, _) => held_or_given_back slot reply
               end
      end
  end.
Proof.
  unfold serve_chat. destruct (chat_prepare (sw_counted w) r g) as [job|e]; [|by destruct g].
  set (guard := request_guard (sw_id w) (cj_model job) (cj_band job) (cj_prompt_tokens job)).
  assert (Hguard : ∀ permit, holds permit (guard permit (sw_now w))).
  { intros permit. destruct (request_guard_fields (sw_id w) (cj_model job) (cj_band job)
      (cj_prompt_tokens job) permit (sw_now w)) as (? & ? & ? & ? & _). by split_and!. }
  assert (Hbegin : ∀ slot gd, holds (Some slot) gd →
    let reply := chat_begin job (sw_id w) (sw_created w) gd (sw_backend w) (sw_start w) (sw_now w) in
    (begun reply → ∃ running, pb_running (sw_backend w) = Some running ∧
       re_instance running = rm_instance (cj_model job)) ∧ held_or_given_back slot reply).
  { intros slot gd Hgd.
    destruct (chat_begin_cases job (sw_id w) (sw_created w) gd (sw_backend w) (sw_start w) (sw_now w) slot Hgd)
      as [Hheld Hrun]. split; [|done]. destruct (is_ok _); [done|]. by destruct Hrun as (? & ? & ->). }
  destruct (admit_or_enqueue _ _ _ _) as [[slot|ticket] s].
  - split; [by destruct g|]. destruct (Hbegin slot (guard (Some slot) (sw_now w)) (Hguard _)) as [? ?]. done.
  - split; [by destruct g|]. destruct (cj_stream job).
    { split; [intros [=]|]. split; [done|]. eexists. split; [reflexivity|]. split; [done|exact (Hguard None)]. }
    destruct (sw_waited w) as [[slot waited]|]; [|done].
    destruct (Hbegin slot (guard_waited waited (guard (Some slot) (sw_now w)))) as [? ?]; [|done].
    by apply waited_holds.
Qed.

(** ** What runs *)

(** C12: as long as no unload crosses a load, a generation that begins on a
    gateway at rest fits what really runs: prompt and budget together fit the
    window of the engine, as the engine itself reports it, whatever models were
    loaded, swapped and renamed before. *)
Theorem begun_within_what_runs g0 s w r :
  nothing_resident g0 → rtc (system_step false) (mkSystem g0 None None) s →
  sy_load s = None → sy_unload s = None → sw_backend w = mg_backend (sy_gateway s) →
  begun (serve_chat w r (sy_gateway s)).1 →
  ∃ running job, pb_running (mg_backend (sy_gateway s)) = Some running ∧
    chat_prepare (sw_counted w) r (sy_gateway s) = Ok job ∧
    mg_resident (sy_gateway s) = Some (cj_model job) ∧
    rm_effective (cj_model job) = re_effective running ∧
    fits (n_ctx (re_effective running)) (cj_prompt_tokens job) (cj_generation job).
Proof.
  intros Hnone Hsteps Hl Hu Hb Hbegun. pose proof (reachable_Consistent _ _ Hnone Hsteps) as Hc.
  destruct (chat_prepare (sw_counted w) r (sy_gateway s)) as [job|e] eqn:Ej.
  2: { unfold serve_chat in Hbegun. by rewrite Ej in Hbegun. }
  pose proof (chat_prepare_ok (sw_counted w) r (sy_gateway s) job Ej) as (m & Hm & Hjm & (running & Hrun & _) & Hfit).
  destruct (Consistent_published s running Hc Hl Hu Hrun) as (m' & Hm' & _ & Heff & Hctx & _).
  rewrite Hm in Hm'. injection Hm' as <-. exists running, job. subst m. rewrite Hm, <-Heff. simpl.
  rewrite Heff, <-Hctx. done.
Qed.
End serve.

(** The slots [/props] reports are those the gateway was started with, where
    [/v1/capabilities] reports the live ones. *)
Theorem props_slots_are_not_live `{Json} `{StrDebug} configured authorized version g :
  match props configured authorized g with
  | Ok body => pr_total_slots body = configured ∧
      limit_max_concurrent_requests (body_limits (capabilities version g)) = capacity (mg_scheduler g)
  | Err e => mg_resident g = None
  end.
Proof.
  unfold props. destruct (mg_resident g) as [m|]; [|done].
  destruct authorized; [|done]. by destruct (engine_props (mg_backend g)).
Qed.

(** ** A gateway that serves *)

Section demo.
#[local] Existing Instance silent_json.
#[local] Existing Instance ascii_case.
#[local] Existing Instance plain_spelling.
#[local] Instance silent_constants : JsonConstants silent_json := {|
  value_null := tt; value_is_null _ := true; value_is_false _ := false |}.

Definition demo_chat : ChatCompletionRequest :=
  mkChatRequest None [mkRequestMessage (Some (lit "user")) (McText (lit "hello")) None None []] true None
    (Some 65536) None None None None None None None None None None None None None None None [].

Definition demo_serve_world (b : ProcessBackend) : ServeWorld :=
  mkServeWorld (fun _ => Ok 12) (lit "chatcmpl-1") 7 PeerKey_default 5 None b (Ok tt).

(** A budget of 65536 is cut to what the prompt leaves. *)
Lemma begun_within_what_runs_witness :
  ∃ s, rtc (system_step false) (mkSystem demo_gateway None None) s ∧
    begun (serve_chat (demo_serve_world (mg_backend (sy_gateway s))) demo_chat (sy_gateway s)).1 ∧
    ∃ running job, pb_running (mg_backend (sy_gateway s)) = Some running ∧
      chat_prepare (fun _ => Ok 12) demo_chat (sy_gateway s) = Ok job ∧
      mg_resident (sy_gateway s) = Some (cj_model job) ∧
      rm_effective (cj_model job) = re_effective running ∧
      fits (n_ctx (re_effective running)) (cj_prompt_tokens job) (cj_generation job).
Proof.
  eexists. split.
  { eapply (demo_load_steps false demo_gateway None _ _ _ _ 1);
      [by right|vm_compute; reflexivity|vm_compute; reflexivity|vm_compute; reflexivity]. }
  split; [vm_compute; reflexivity|].
  eapply (begun_within_what_runs demo_gateway _ (demo_serve_world _) demo_chat).
  - vm_compute. reflexivity.
  - eapply (demo_load_steps false demo_gateway None _ _ _ _ 1);
      [by right|vm_compute; reflexivity|vm_compute; reflexivity|vm_compute; reflexivity].
  - reflexivity.
  - reflexivity.
  - reflexivity.
  - vm_compute. reflexivity.
Defined.
End demo.
