(* ===== verification/Jobs.v ===== *)
(** * Long operations, watched

    [crates/lightweight-gateway/src/jobs.rs]; the progress pumps of
    [manager.rs]; and the event stream of a job in [control.rs].

    A job is worked on and watched at the same time.  What it publishes goes
    through a broadcast channel, which is not under the sources: a job holds all
    it has sent, a watcher the number it has received, and when a receiver is
    overtaken, and to where, is a class ([Broadcast]). *)

From stdpp Require Import base gmap strings numbers sorting list.
From S2P Require Import Prelude Names Utf8 Rewriter Responses Generation Manager.

(** ** What a job is doing *)

Inductive JobKind := JkDownload | JkImport | JkLoad | JkUnload | JkBenchmark.

Inductive InstallProgress :=
| IpResolving
| IpDownloading (downloaded : u64) (total : option u64)
| IpHashing (done total : u64)
| IpReading
| IpDone.

Inductive LoadProgress :=
| LpAcquiringRuntime (downloaded : u64) (total : option u64)
| LpVerifyingRuntime
| LpStartingEngine
| LpLoadingWeights
| LpReady.

(** [ErrorReport]; the sentence and the remedies of a failure are left out. *)
Record ErrorReport := mkReport { er_code : str; er_kind : ErrorKind }.

Inductive Stage :=
| SgQueued
| SgInstall (progress : InstallProgress)
| SgLoad (progress : LoadProgress)
| SgBenchmark (scenario : str) (repetition repetitions : u32).

Inductive JobState :=
| JobRunning (stage : Stage)
| JobSucceeded (model : option str)
| JobFailed (error : ErrorReport)
| JobCancelled.

Definition is_terminal (s : JobState) : bool := match s with JobRunning _ => false | _ => true end.

(** ** One job

    [set] assigns the state under the lock and sends it when the lock is gone:
    [job_unsent] is what was assigned and is not sent yet. *)

Record Job := mkJob {
  job_id : u64;
  job_kind : JobKind;
  job_started_at : u64;
  job_state : JobState;
  job_sent : list JobState;
  job_unsent : option JobState;
  job_cancelled : bool }.

Definition Job_new (id : u64) (kind : JobKind) (now : u64) : Job :=
  mkJob id kind now (JobRunning SgQueued) [] None false.

Definition job_assign (s : JobState) (j : Job) : Job :=
  mkJob (job_id j) (job_kind j) (job_started_at j) s (job_sent j) (Some s) (job_cancelled j).

Definition job_send (j : Job) : Job :=
  match job_unsent j with
  | Some s => mkJob (job_id j) (job_kind j) (job_started_at j) (job_state j) (job_sent j ++ [s]) None (job_cancelled j)
  | None => j
  end.

(** [Job::set] and [Job::advance]. *)
Definition job_set (s : JobState) (j : Job) : Job := job_send (job_assign s j).
Definition advance (s : Stage) (j : Job) : Job := job_set (JobRunning s) j.

(** [Job::watch]: the state, and how much was sent by then. *)
Definition job_watch (j : Job) : JobState * nat := (job_state j, length (job_sent j)).

Definition job_cancel (j : Job) : Job :=
  mkJob (job_id j) (job_kind j) (job_started_at j) (job_state j) (job_sent j) (job_unsent j) true.

(** The token of a job is a child of the gateway's. *)
Definition is_cancelled (shutdown : bool) (j : Job) : bool := shutdown || job_cancelled j.

(** ** Every job of a gateway: a map by id, in order *)

Abbreviation Jobs := (list Job).

Fixpoint jobs_insert (j : Job) (l : Jobs) : Jobs :=
  match l with
  | [] => [j]
  | k :: l =>
      if job_id j <? job_id k then j :: k :: l
      else if job_id j =? job_id k then j :: l else k :: jobs_insert j l
  end.

Definition jobs_get (id : u64) (l : Jobs) : option Job := find (fun j => job_id j =? id) l.

(** Newest first. *)
Definition recent (l : Jobs) : list Job := reverse l.

Definition any_running (l : Jobs) : bool := existsb (fun j => negb (is_terminal (job_state j))) l.

Definition KEEP_FINISHED : nat := 32.

Definition is_finished (j : Job) : Prop := is_terminal (job_state j) = true.
#[global] Instance is_finished_dec j : Decision (is_finished j) := decide (_ = true).

Definition prune (l : Jobs) : Jobs :=
  let finished := job_id <$> filter is_finished l in
  let excess := (length finished - KEEP_FINISHED)%nat in
  filter (fun j => job_id j ∉ take excess finished) l.

(** [Jobs::start]: the job, and all of them. *)
Definition jobs_start (id : u64) (kind : JobKind) (now : u64) (l : Jobs) : Job * Jobs :=
  let j := Job_new id kind now in (j, prune (jobs_insert j l)).

(** What is done to a job that is held, whether or not it is still listed. *)
Definition jobs_alter (id : u64) (f : Job → Job) (l : Jobs) : Jobs :=
  (fun j => if job_id j =? id then f j else j) <$> l.

(** ** The pumps *)

Definition install_step (p : InstallProgress) : Step :=
  match p with
  | IpDownloading downloaded total => StFraction (lit "downloading") downloaded total
  | IpHashing done total => StFraction (lit "hashing") done (Some total)
  | IpResolving => StStage (lit "resolving")
  | IpReading => StStage (lit "reading")
  | IpDone => StStage (lit "done")
  end.

Definition load_step (p : LoadProgress) : Step :=
  match p with
  | LpAcquiringRuntime downloaded total => StFraction (lit "acquiring_runtime") downloaded total
  | LpVerifyingRuntime => StStage (lit "verifying_runtime")
  | LpStartingEngine => StStage (lit "starting_engine")
  | LpLoadingWeights => StStage (lit "loading_weights")
  | LpReady => StStage (lit "ready")
  end.

(** The loop of [install_progress] and [load_progress]. *)
Fixpoint pump {P} (step : P → Step) (stage : P → Stage) (progress : list P) (t : Throttle) (j : Job) : Job :=
  match progress with
  | [] => j
  | p :: progress =>
      let '(emits, t) := should_emit t (step p) in
      pump step stage progress t (if emits then advance (stage p) j else j)
  end.

Definition install_progress (progress : list InstallProgress) (j : Job) : Job :=
  pump install_step SgInstall progress Throttle_default j.
Definition load_progress (progress : list LoadProgress) (j : Job) : Job :=
  pump load_step SgLoad progress Throttle_default j.

(** ** A job's events *)

Definition UPDATE_BACKLOG : nat := 64.

(** A receiver that has had [cursor] of the [sent] values of a channel of some
    capacity: where it is moved to, if it was overtaken. *)
Class Broadcast := overtaken : nat → nat → nat → option nat.

Inductive Phase := PhInitial (s : JobState) | PhLive | PhClosing | PhDone.

Record EventStream := mkEventStream { es_phase : Phase; es_cursor : nat }.

Inductive EventFrame := EfState (s : JobState) | EfDone.

Definition next_phase (terminal : bool) : Phase := if terminal then PhClosing else PhLive.

(** What a turn of the stream comes to: a frame, another turn, a wait, the end. *)
Inductive EventTurn := EtFrame (f : EventFrame) | EtAgain | EtWait | EtEnd.

(** [job_events]: the stream of a watcher that joins. *)
Definition job_events (j : Job) : EventStream :=
  let '(state, cursor) := job_watch j in mkEventStream (PhInitial state) cursor.

Section events.
Context `{Broadcast}.

(** [stops] is whether the gateway's shutdown is what the wait resolves to, and
    [closed] whether nobody holds the job any more. *)
Definition event_turn (stops closed : bool) (j : Job) (es : EventStream) : EventTurn * EventStream :=
  match es_phase es with
  | PhDone => (EtEnd, es)
  | PhInitial s => (EtFrame (EfState s), mkEventStream (next_phase (is_terminal s)) (es_cursor es))
  | PhLive =>
      if stops then (EtAgain, mkEventStream PhClosing (es_cursor es))
      else
        match overtaken UPDATE_BACKLOG (length (job_sent j)) (es_cursor es) with
        | Some cursor => (EtAgain, mkEventStream PhLive cursor)
        | None =>
            match job_sent j !! es_cursor es with
            | Some s => (EtFrame (EfState s), mkEventStream (next_phase (is_terminal s)) (S (es_cursor es)))
            | None => if closed then (EtAgain, mkEventStream PhClosing (es_cursor es)) else (EtWait, es)
            end
        end
  | PhClosing => (EtFrame EfDone, mkEventStream PhDone (es_cursor es))
  end.

(** Some turns of the stream, with nothing happening to the job: of each,
    whether the shutdown is what its wait resolves to, and whether the job has
    been let go of. *)
Fixpoint event_turns (ts : list (bool * bool)) (j : Job) (es : EventStream)
    : list EventFrame * EventStream :=
  match ts with
  | [] => ([], es)
  | (stops, closed) :: ts =>
      let '(t, es) := event_turn stops closed j es in
      let '(fs, es) := event_turns ts j es in
      (match t with EtFrame f => f :: fs | _ => fs end, es)
  end.
End events.

(** ** Properties of watching

    Whoever watches a job learns how it ended, whenever the watcher joins and
    however far behind it falls, unless the gateway is stopped first.  The job's
    one worker sets a state only while the job runs, and one at a time; the
    channel moves a receiver it overtakes forward, to something it still holds.
    Once the gateway stops, a wait may resolve to that or to an update. *)

Record Watched := mkWatched {
  wt_stopping : bool;
  wt_job : Job;
  wt_stream : option EventStream;
  wt_frames : list EventFrame }.

Section watching.
Context `{Broadcast}.

Definition frames_of (t : EventTurn) : list EventFrame := match t with EtFrame f => [f] | _ => [] end.

(** Nothing more is set or sent. *)
Definition is_over (j : Job) : Prop := is_terminal (job_state j) = true ∧ job_unsent j = None.

Inductive watched_step : Watched → Watched → Prop :=
| WsAssign g s j es fs :
    is_terminal (job_state j) = false → job_unsent j = None →
    watched_step (mkWatched g j es fs) (mkWatched g (job_assign s j) es fs)
| WsSend g j es fs : watched_step (mkWatched g j es fs) (mkWatched g (job_send j) es fs)
| WsCancel g j es fs : watched_step (mkWatched g j es fs) (mkWatched g (job_cancel j) es fs)
| WsStop g j es fs : watched_step (mkWatched g j es fs) (mkWatched true j es fs)
| WsWatch g j : watched_step (mkWatched g j None []) (mkWatched g j (Some (job_events j)) [])
| WsTurn g stops closed j es fs t es' :
    (stops = true → g = true) → (closed = true → is_over j) →
    event_turn stops closed j es = (t, es') →
    watched_step (mkWatched g j (Some es) fs) (mkWatched g j (Some es') (fs ++ frames_of t)).

(** A receiver that is overtaken goes forward, and not past what there is. *)
Definition moves_forward : Prop :=
  ∀ sent cursor cursor', overtaken UPDATE_BACKLOG sent cursor = Some cursor' →
    (cursor < cursor' < sent)%nat.

(** ** The invariant *)

Definition running (s : JobState) : Prop := is_terminal s = false.

Definition history_ok (j : Job) : Prop :=
  (∀ s, job_unsent j = Some s → job_state j = s ∧ Forall running (job_sent j)) ∧
  (job_unsent j = None → job_sent j = [] ∧ running (job_state j) ∨
     ∃ before, job_sent j = before ++ [job_state j] ∧ Forall running before).

Definition so_far (cursor : nat) (j : Job) : Prop :=
  (cursor ≤ length (job_sent j))%nat ∧ Forall running (take cursor (job_sent j)).

Definition told (j : Job) (fs : list EventFrame) (more : list EventFrame) : Prop :=
  ∃ before, fs = (EfState <$> before) ++ [EfState (job_state j)] ++ more ∧ Forall running before ∧
    is_terminal (job_state j) = true.

(** Cut short by the gateway's stop. *)
Definition cut (stopping : bool) (fs : list EventFrame) (more : list EventFrame) : Prop :=
  stopping = true ∧ ∃ before, fs = (EfState <$> before) ++ more ∧ Forall running before.

Definition stream_ok (g : bool) (j : Job) (es : EventStream) (fs : list EventFrame) : Prop :=
  match es_phase es with
  | PhInitial s => fs = [] ∧ (if is_terminal s then job_state j = s else so_far (es_cursor es) j)
  | PhLive => so_far (es_cursor es) j ∧ ∃ before, fs = EfState <$> before ∧ Forall running before
  | PhClosing => told j fs [] ∨ cut g fs []
  | PhDone => told j fs [EfDone] ∨ cut g fs [EfDone]
  end.

Definition watched_ok (w : Watched) : Prop :=
  history_ok (wt_job w) ∧
  match wt_stream w with None => wt_frames w = [] | Some es => stream_ok (wt_stopping w) (wt_job w) es (wt_frames w) end.

Lemma so_far_grows cursor j k : so_far cursor j → job_sent j `prefix_of` job_sent k → so_far cursor k.
Proof.
  intros [Hc Hr] [l Hl]. split; rewrite Hl; [rewrite length_app; lia|].
  by rewrite take_app_le.
Qed.

Lemma stream_ok_grows g j k es fs :
  stream_ok g j es fs → job_sent j `prefix_of` job_sent k →
  (is_terminal (job_state j) = true → job_state k = job_state j) → stream_ok g k es fs.
Proof.
  unfold stream_ok, told. intros Hs Hp Hk. destruct (es_phase es) as [s| | |].
  - destruct Hs as [-> Hs]. split; [done|]. destruct (is_terminal s) eqn:Es; [|by eapply so_far_grows].
    subst s. auto.
  - destruct Hs as [Hs Hb]. split; [by eapply so_far_grows|done].
  - destruct Hs as [(b & -> & Hb & Ht)|Hs]; [left; exists b; by rewrite (Hk Ht)|by right].
  - destruct Hs as [(b & -> & Hb & Ht)|Hs]; [left; exists b; by rewrite (Hk Ht)|by right].
Qed.

Lemma stream_ok_stops g j es fs : stream_ok g j es fs → stream_ok true j es fs.
Proof.
  unfold stream_ok, cut. destruct (es_phase es); [done..| |]; (intros [?|[_ ?]]; [by left|by right]).
Qed.

(** Where a job that is over has not been told, there is something to receive. *)
Lemma over_so_far cursor j :
  history_ok j → is_over j → so_far cursor j → ∃ s, job_sent j !! cursor = Some s.
Proof.
  intros [_ Hn] [Ht Hu] [Hc Hr]. destruct (Hn Hu) as [[_ Hrun]|(b & Hs & _)]; [congruence|].
  apply lookup_lt_is_Some_2. destruct (decide (cursor = length (job_sent j))) as [->|]; [|lia].
  rewrite firstn_all, Hs in Hr. apply Forall_app in Hr as [_ Hr]. rewrite Forall_singleton in Hr.
  unfold running in Hr. congruence.
Qed.

(** A terminal state that was sent is the job's. *)
Lemma sent_terminal j i s :
  history_ok j → job_sent j !! i = Some s → is_terminal s = true → job_state j = s ∧ is_terminal (job_state j) = true.
Proof.
  intros [Hs Hn] Hi Ht. destruct (job_unsent j) as [u|].
  - destruct (Hs u eq_refl) as [_ Hr]. eapply Forall_lookup_1 in Hr; [|done]. unfold running in Hr. congruence.
  - destruct (Hn eq_refl) as [[E _]|(b & E & Hb)]; rewrite E in Hi; [done|].
    apply lookup_app_Some in Hi as [Hi|[_ Hi]].
    + eapply Forall_lookup_1 in Hb; [|done]. unfold running in Hb. congruence.
    + apply list_lookup_singleton_Some in Hi as [_ ->]. done.
Qed.

Lemma so_far_next cursor j s :
  so_far cursor j → job_sent j !! cursor = Some s → running s → so_far (S cursor) j.
Proof.
  intros [Hc Hr] Hs Hrun. split; [by apply lookup_lt_Some in Hs|].
  rewrite (take_S_r _ _ _ Hs). apply Forall_app. by rewrite Forall_singleton.
Qed.

Lemma so_far_moved cursor cursor' j :
  history_ok j → so_far cursor j → (cursor' < length (job_sent j))%nat → so_far cursor' j.
Proof.
  intros [Hs Hn] [Hc Hr] Hlt. split; [lia|]. destruct (job_unsent j) as [u|].
  - destruct (Hs u eq_refl) as [_ Hall]. by apply Forall_take.
  - destruct (Hn eq_refl) as [[E _]|(b & E & Hb)]; rewrite E in *; [by rewrite take_nil|].
    rewrite length_app in Hlt. simpl in Hlt. rewrite take_app_le by lia. by apply Forall_take.
Qed.

Lemma turn_ok g stops closed j es fs t es' :
  moves_forward → history_ok j → (stops = true → g = true) → (closed = true → is_over j) →
  stream_ok g j es fs →
  event_turn stops closed j es = (t, es') → stream_ok g j es' (fs ++ frames_of t).
Proof.
  intros Hlaw Hh Hstops Hclosed Hs. unfold event_turn, stream_ok in *. destruct (es_phase es) as [s| | |] eqn:Ep.
  - destruct Hs as [-> Hs]. intros [= <- <-]. simpl. destruct (is_terminal s) eqn:Es; simpl.
    + left. exists []. subst s. done.
    + split; [done|]. exists [s]. by rewrite Forall_singleton.
  - destruct Hs as [Hs (b & -> & Hb)].
    destruct stops.
    { intros [= <- <-]. simpl. rewrite app_nil_r. right. split; [by apply Hstops|].
      exists b. by rewrite app_nil_r. }
    destruct (overtaken _ _ _) as [c|] eqn:Eo.
    { intros [= <- <-]. simpl. rewrite app_nil_r. apply Hlaw in Eo. split; [|by exists b].
      eapply so_far_moved; eauto. lia. }
    destruct (job_sent j !! es_cursor es) as [s|] eqn:El.
    { intros [= <- <-]. simpl. destruct (is_terminal s) eqn:Es; simpl.
      - destruct (sent_terminal _ _ _ Hh El Es) as [<- Ht]. left. exists b. done.
      - split; [by eapply so_far_next|]. exists (b ++ [s]). rewrite fmap_app, Forall_app, Forall_singleton. done. }
    destruct closed; intros [= <- <-]; simpl; rewrite app_nil_r.
    + destruct (over_so_far _ _ Hh (Hclosed eq_refl) Hs) as [s Es]. congruence.
    + rewrite Ep. eauto.
  - intros [= <- <-]. simpl. destruct Hs as [(b & -> & Hb & Ht)|(Hg & b & -> & Hb)]; [left|right].
    + exists b. by rewrite <- app_assoc.
    + split; [done|]. exists b. by rewrite app_nil_r.
  - intros [= <- <-]. simpl. by rewrite Ep, app_nil_r.
Qed.

Lemma assign_ok s j : history_ok j → running (job_state j) → job_unsent j = None → history_ok (job_assign s j).
Proof.
  intros [_ Hn] Hr Hu. split; [|done]. intros ? [= <-]. split; [done|]. simpl.
  destruct (Hn Hu) as [[-> _]|(b & -> & Hb)]; [done|]. apply Forall_app. by rewrite Forall_singleton.
Qed.

Lemma send_ok j : history_ok j → history_ok (job_send j).
Proof.
  intros Hh. unfold job_send. destruct (job_unsent j) as [u|] eqn:Eu; [|done].
  destruct Hh as [Hs _]. destruct (Hs u Eu) as [Hj Hr]. split; [done|]. intros _. right. simpl. rewrite Hj. eauto.
Qed.

Lemma send_grows j : job_sent j `prefix_of` job_sent (job_send j) ∧ job_state (job_send j) = job_state j.
Proof. unfold job_send. destruct (job_unsent j); simpl; split; auto. by apply prefix_app_r. Qed.

Lemma watched_step_ok w w' : moves_forward → watched_ok w → watched_step w w' → watched_ok w'.
Proof.
  intros Hlaw Hok Hst.
  destruct Hst as [g s j es fs Hr Hu|g j es fs|g j es fs|g j es fs|g j|g st closed j es fs t es' Hg Hc Ht];
    destruct Hok as [Hh Hw]; simpl in *; split; simpl.
  - by apply assign_ok.
  - destruct es as [es|]; [|done]. apply (stream_ok_grows g j); [done|done|]. intros Ht. congruence.
  - by apply send_ok.
  - destruct (send_grows j). destruct es as [es|]; [|done]. by apply (stream_ok_grows g j).
  - done.
  - destruct es; [|done]. by apply (stream_ok_grows g j).
  - done.
  - destruct es; [|done]. by eapply stream_ok_stops.
  - done.
  - unfold stream_ok, job_events. simpl. split; [done|].
    destruct (is_terminal (job_state j)) eqn:Et; [done|]. split; [done|]. simpl. rewrite firstn_all. destruct Hh as [Hs Hn]. destruct (job_unsent j) as [u|]; [by destruct (Hs u eq_refl)|].
    destruct (Hn eq_refl) as [[-> _]|(b & -> & Hb)]; [done|]. apply Forall_app. by rewrite Forall_singleton.
  - done.
  - by eapply turn_ok.
Qed.

Lemma watched_reachable id kind now w :
  moves_forward → rtc watched_step (mkWatched false (Job_new id kind now) None []) w → watched_ok w.
Proof.
  intros Hlaw Hsteps. assert (Hok : watched_ok (mkWatched false (Job_new id kind now) None [])).
  { split; [split; [done|]|done]. intros _. by left. }
  induction Hsteps as [|w w1 w2 Hstep _ IH]; [done|]. by eapply IH, watched_step_ok.
Qed.

(** ** Reading on *)

Lemma turns_live g ts j es fs :
  moves_forward → history_ok j → is_over j → (∀ t, t ∈ ts → t.1 = true → g = true) →
  stream_ok g j es fs →
  (match es_phase es with
   | PhInitial _ => length (job_sent j) + 3 | PhLive => length (job_sent j) - es_cursor es + 2
   | PhClosing => 1 | PhDone => 0 end ≤ length ts)%nat →
  let '(more, es') := event_turns ts j es in
  es_phase es' = PhDone ∧ stream_ok g j es' (fs ++ more).
Proof.
  intros Hlaw Hh Ho. revert es fs.
  induction ts as [|[stops closed] ts IH]; intros es fs Hg Hs Hn; simpl in *.
  { rewrite app_nil_r. split; [|done]. destruct (es_phase es); [lia|lia|lia|done]. }
  destruct (event_turn stops closed j es) as [t es'] eqn:Et.
  assert (Hs' : stream_ok g j es' (fs ++ frames_of t)).
  { eapply turn_ok; [done|done| |done|done|done]. apply (Hg (stops, closed)). by left. }
  specialize (IH es' (fs ++ frames_of t) ltac:(intros; eapply Hg; [by right|done]) Hs').
  assert (Hm : (match es_phase es' with
   | PhInitial _ => length (job_sent j) + 3 | PhLive => length (job_sent j) - es_cursor es' + 2
   | PhClosing => 1 | PhDone => 0 end ≤ length ts)%nat).
  { unfold event_turn, stream_ok in *. destruct (es_phase es) as [s| | |] eqn:Ep.
    - injection Et as <- <-. simpl. destruct (is_terminal s); simpl; lia.
    - destruct Hs as [Hs _]. destruct stops; [injection Et as <- <-; simpl; lia|].
      destruct (overtaken _ _ _) as [c|] eqn:Eo.
      { injection Et as <- <-. simpl. apply Hlaw in Eo. lia. }
      destruct (over_so_far _ _ Hh Ho Hs) as [s Es]. rewrite Es in Et. injection Et as <- <-. simpl.
      apply lookup_lt_Some in Es. destruct (is_terminal s); simpl; lia.
    - injection Et as <- <-. simpl. lia.
    - injection Et as <- <-. rewrite Ep. lia. }
  specialize (IH Hm). destruct (event_turns ts j es') as [more es2]. destruct IH as [Hd Hok].
  split; [done|]. destruct t; simpl in *; by rewrite <- ?app_assoc, ?app_nil_r in *.
Qed.

(** C18: a watcher of a job learns how it ended.  Whenever it joined, however
    far it fell behind, and whatever it read so far: its stream does not end
    before the job is over, unless the gateway is being stopped; once the job is
    over, reading on ends the stream within as many turns as there were updates,
    and three; and what it has then is states of a job that runs, once the state
    the job ended in, and the marker of the end.  A watcher of a gateway that is
    being stopped may have the states and the marker without the outcome. *)
Theorem watcher_learns_the_outcome id kind now w :
  moves_forward → rtc watched_step (mkWatched false (Job_new id kind now) None []) w →
  let j := wt_job w in
  ∀ es, wt_stream w = Some es →
  (es_phase es = PhDone → is_terminal (job_state j) = true ∨ wt_stopping w = true) ∧
  (is_over j → ∀ turns, (length (job_sent j) + 3 ≤ length turns)%nat →
    (∀ t, t ∈ turns → t.1 = true → wt_stopping w = true) →
    let '(more, es') := event_turns turns j es in
    es_phase es' = PhDone ∧
    ∃ before, Forall (fun s => is_terminal s = false) before ∧
      (wt_frames w ++ more = (EfState <$> before) ++ [EfState (job_state j); EfDone] ∨
       wt_stopping w = true ∧ wt_frames w ++ more = (EfState <$> before) ++ [EfDone])).
Proof.
  intros Hlaw Hsteps j es Hes. destruct (watched_reachable _ _ _ _ Hlaw Hsteps) as [Hh Hw].
  rewrite Hes in Hw. fold j in Hh, Hw. split.
  - intros Hd. unfold stream_ok in Hw. rewrite Hd in Hw.
    destruct Hw as [(b & _ & _ & Ht)|[Hg _]]; [by left|by right].
  - intros Ho turns Hlen Hg.
    pose proof (turns_live _ turns j es (wt_frames w) Hlaw Hh Ho Hg Hw) as Ht.
    destruct (event_turns turns j es) as [more es'].
    destruct Ht as [Hd Hs]; [destruct (es_phase es); lia|]. split; [done|].
    unfold stream_ok in Hs. rewrite Hd in Hs.
    destruct Hs as [(b & Hs & Hb & _)|(Hst & b & Hs & Hb)]; exists b; eauto.
Qed.
End watching.

(** A channel that holds as many values as its capacity. *)
Definition ring : Broadcast := fun capacity sent cursor =>
  if decide (capacity < sent - cursor)%nat then Some (sent - capacity)%nat else None.

(** A load that succeeds, watched from its end on: nothing stops, and the job
    is let go of after the first turn. *)
Definition loaded_job : Job := job_set (JobSucceeded None) (advance SgQueued (Job_new 1 JkLoad 0)).
Definition quiet_turns : list (bool * bool) := (false, false) :: replicate 4 (false, true).

Lemma watcher_learns_the_outcome_witness :
  let '(more, es') := event_turns (H := ring) quiet_turns loaded_job (job_events loaded_job) in
  es_phase es' = PhDone ∧
  ∃ before, Forall (fun s => is_terminal s = false) before ∧
    ([] ++ more = (EfState <$> before) ++ [EfState (JobSucceeded None); EfDone] ∨
     false = true ∧ [] ++ more = (EfState <$> before) ++ [EfDone]).
Proof.
  refine (proj2 (watcher_learns_the_outcome (H := ring) 1 JkLoad 0
    (mkWatched false loaded_job (Some (job_events loaded_job)) []) _ _ _ eq_refl) _ quiet_turns _ _).
  - intros sent cursor cursor'. unfold overtaken, ring. unfold UPDATE_BACKLOG. destruct (decide _); [|done].
    intros [= <-]. lia.
  - eapply rtc_l; [by apply (WsAssign (H := ring) false (JobRunning SgQueued))|].
    eapply rtc_l; [apply WsSend|].
    eapply rtc_l; [by apply (WsAssign (H := ring) false (JobSucceeded None))|].
    eapply rtc_l; [apply WsSend|].
    eapply rtc_l; [apply WsWatch|]. apply rtc_refl.
  - by split.
  - simpl. lia.
  - intros t Ht. repeat (apply elem_of_cons in Ht as [->|Ht]; [done|]). by apply elem_of_nil in Ht.
Defined.

(** ** Properties of the list of jobs

    A gateway forgets only what is over, the oldest first, and only when there
    is more of it than it keeps. *)

Definition older (a b : Job) : Prop := job_id a < job_id b.

Inductive jobs_step : u64 * Jobs → u64 * Jobs → Prop :=
| JsStart next id kind now l :
    next ≤ id → jobs_step (next, l) (id + 1, (jobs_start id kind now l).2)
| JsChange next id f l :
    (∀ j, job_id (f j) = job_id j) → jobs_step (next, l) (next, jobs_alter id f l).

Definition jobs_ok (s : u64 * Jobs) : Prop :=
  StronglySorted older s.2 ∧ Forall (fun j => job_id j < s.1) s.2.

Lemma jobs_insert_new j l : Forall (fun k => job_id k < job_id j) l → jobs_insert j l = l ++ [j].
Proof.
  induction 1 as [|k l Hk _ IH]; simpl; [done|].
  rewrite (proj2 (Z.ltb_ge _ _)) by lia. rewrite (proj2 (Z.eqb_neq _ _)) by lia. by rewrite IH.
Qed.

Lemma sorted_snoc (l : Jobs) j :
  StronglySorted older l → Forall (fun k => job_id k < job_id j) l → StronglySorted older (l ++ [j]).
Proof.
  intros Hs Hj. apply StronglySorted_snoc; [done|]. by apply Forall_forall.
Qed.

Lemma sorted_nodup (l : Jobs) : StronglySorted older l → NoDup (job_id <$> l).
Proof.
  induction 1 as [|k l Hl IH Hk]; simpl; constructor; [|done].
  intros (m & He & Hm)%list_elem_of_fmap. rewrite Forall_forall in Hk. specialize (Hk m Hm). unfold older in Hk. lia.
Qed.

Lemma prune_sublist l : prune l `sublist_of` l.
Proof.
  unfold prune. generalize (take (length (job_id <$> filter is_finished l) - KEEP_FINISHED) (job_id <$> filter is_finished l)).
  intros ids. induction l as [|k l IH]; [done|]. rewrite filter_cons. destruct (decide _); by constructor.
Qed.

Lemma filter_ext_in (P Q : Job → Prop) `{!∀ j, Decision (P j), !∀ j, Decision (Q j)} (l : Jobs) :
  (∀ j, j ∈ l → P j ↔ Q j) → filter P l = filter Q l.
Proof.
  induction l as [|k l IH]; intros Hpq; [done|]. rewrite !filter_cons, IH by (intros; apply Hpq; by right).
  assert (P k ↔ Q k) by (apply Hpq; left). repeat destruct (decide _); tauto || done.
Qed.

(** What has the ids of the first of a list is the first of it. *)
Lemma filter_not_first n (l : Jobs) :
  NoDup (job_id <$> l) → filter (fun j => job_id j ∉ take n (job_id <$> l)) l = drop n l.
Proof.
  revert n. induction l as [|k l IH]; intros n Hn; [by destruct n|]. apply NoDup_cons in Hn as [Hk Hn].
  destruct n as [|n].
  - rewrite filter_cons_True by apply not_elem_of_nil. simpl drop. f_equal. exact (IH 0%nat Hn).
  - rewrite filter_cons_False by (intros H; apply H; left). simpl drop. rewrite <- (IH n Hn). apply filter_ext_in.
    intros m Hm. simpl take. rewrite not_elem_of_cons. split; [tauto|]. intros Hin. split; [|done].
    intros He. apply Hk. rewrite <- He. by apply list_elem_of_fmap_2.
Qed.

Lemma ids_sublist (l k : Jobs) : l `sublist_of` k → NoDup (job_id <$> k) → NoDup (job_id <$> l).
Proof.
  induction 1 as [|j l k Hs IH|j l k Hs IH]; simpl; intros Hn; [done| |];
    apply NoDup_cons in Hn as [Hj Hn]; [|by apply IH].
  constructor; [|by apply IH]. intros (m & He & Hm)%list_elem_of_fmap. apply Hj. rewrite He.
  apply list_elem_of_fmap_2. by eapply sublist_subseteq.
Qed.

Lemma one_per_id (l : Jobs) j k : NoDup (job_id <$> l) → j ∈ l → k ∈ l → job_id j = job_id k → j = k.
Proof.
  induction l as [|m l IH]; intros Hn Hj Hk He; [by apply not_elem_of_nil in Hj|].
  apply NoDup_cons in Hn as [Hm Hn]. apply elem_of_cons in Hj as [->|Hj], Hk as [->|Hk]; auto; destruct Hm.
  - rewrite He. by apply list_elem_of_fmap_2.
  - rewrite <- He. by apply list_elem_of_fmap_2.
Qed.

Lemma prune_finished l :
  NoDup (job_id <$> l) →
  filter is_finished (prune l) =
    drop (length (filter is_finished l) - KEEP_FINISHED) (filter is_finished l).
Proof.
  intros Hn. unfold prune. rewrite length_fmap. set (n := (_ - _)%nat).
  rewrite <- (filter_not_first n (filter is_finished l)).
  - rewrite !list_filter_filter. apply filter_ext_in. tauto.
  - eapply ids_sublist; [apply sublist_filter|done].
Qed.

(** What is left out by [prune] is among the first that are finished. *)
Lemma prune_elem l k : NoDup (job_id <$> l) → k ∈ l →
  k ∈ prune l ∨
  k ∈ take (length (filter is_finished l) - KEEP_FINISHED) (filter is_finished l).
Proof.
  intros Hn Hk. unfold prune. rewrite length_fmap, list_elem_of_filter, <- fmap_take.
  set (n := (_ - _)%nat).
  destruct (decide (job_id k ∈ job_id <$> take n (filter is_finished l))) as [Hi|Hi]; [|by left].
  right. apply list_elem_of_fmap in Hi as (m & He & Hm).
  assert (Hml : m ∈ l) by (apply elem_of_take in Hm as (? & Hm%list_elem_of_lookup_2 & _);
    by apply list_elem_of_filter in Hm as [_ ?]).
  by rewrite (one_per_id l k m Hn Hk Hml He).
Qed.

Lemma newest_first (l : Jobs) j :
  NoDup (job_id <$> l ++ [j]) → j ∈ prune (l ++ [j]) → head (reverse (prune (l ++ [j]))) = Some j.
Proof.
  intros _ Hj. unfold prune in *. apply list_elem_of_filter in Hj as [Hj _].
  rewrite filter_app, (filter_cons_True _ j []) by exact Hj. by rewrite filter_nil, reverse_app.
Qed.

Lemma get_listed (l : Jobs) j : NoDup (job_id <$> l) → j ∈ l → jobs_get (job_id j) l = Some j.
Proof.
  unfold jobs_get. intros Hn Hj. induction l as [|k l IH]; [by apply not_elem_of_nil in Hj|].
  apply NoDup_cons in Hn as [Hk Hn]. simpl. apply elem_of_cons in Hj as [<-|Hj]; [by rewrite Z.eqb_refl|].
  destruct (Z.eqb_spec (job_id k) (job_id j)) as [E|_]; [|by apply IH].
  destruct Hk. rewrite E. by apply list_elem_of_fmap_2.
Qed.

Lemma jobs_step_ok s s' : jobs_ok s → jobs_step s s' → jobs_ok s'.
Proof.
  intros Hok Hst. destruct Hst as [next id kind now l Hid|next id f l Hids];
    destruct Hok as [Hs Hf]; simpl in *.
  - assert (Hl : Forall (fun k => job_id k < id) l) by (eapply Forall_impl; [exact Hf|]; simpl; lia).
    rewrite jobs_insert_new by exact Hl. split.
    + eapply StronglySorted_sublist; [apply prune_sublist|]. by apply sorted_snoc.
    + apply Forall_forall. intros k Hk. apply (sublist_subseteq _ _ (prune_sublist _)) in Hk.
      apply elem_of_app in Hk as [Hk|Hk%list_elem_of_singleton]; [|subst k; simpl; lia].
      rewrite Forall_forall in Hl. specialize (Hl k Hk). simpl in *. lia.
  - unfold jobs_alter. split.
    + clear Hf. simpl. induction Hs as [|k l Hl IH Hk]; simpl; constructor; [done|].
      apply Forall_fmap. eapply Forall_impl; [exact Hk|]. intros m Hm. unfold older in *. simpl.
      destruct (job_id k =? id), (job_id m =? id); by rewrite ?Hids.
    + apply Forall_fmap. eapply Forall_impl; [exact Hf|]. intros m Hm. simpl.
      destruct (job_id m =? id); by rewrite ?Hids.
Qed.

Lemma jobs_reachable s : rtc jobs_step (0, []) s → jobs_ok s.
Proof.
  intros Hsteps. assert (Hok : jobs_ok (0, [])) by repeat constructor.
  induction Hsteps as [|s s1 s2 Hstep _ IH]; [done|]. by eapply IH, jobs_step_ok.
Qed.

(** Whatever was started and however the jobs went, starting another lists
    it first and as running, keeps every job that still runs and at most 32
    that do not, and invents none; a job is only forgotten when it is over, and
    32 that ended, all of them newer, are kept. *)
Theorem only_the_oldest_finished_are_forgotten next l id kind now :
  rtc jobs_step (0, []) (next, l) → next ≤ id →
  let '(j, l') := jobs_start id kind now l in
  head (recent l') = Some j ∧ jobs_get id l' = Some j ∧ ¬ is_finished j ∧
  (length (filter is_finished l') ≤ 32)%nat ∧
  (∀ k, k ∈ l' → k = j ∨ k ∈ l) ∧
  (∀ k, k ∈ l → ¬ is_finished k → k ∈ l') ∧
  (∀ k, k ∈ l → k ∉ l' → is_finished k ∧ length (filter is_finished l') = 32%nat ∧
     ∀ k', k' ∈ l' → is_finished k' → job_id k < job_id k').
Proof.
  intros Hsteps Hid. destruct (jobs_reachable _ Hsteps) as [Hs Hf]. simpl in Hs, Hf.
  unfold jobs_start. set (j := Job_new id kind now).
  assert (Hl : Forall (fun k => job_id k < job_id j) l) by (eapply Forall_impl; [exact Hf|]; simpl; lia).
  rewrite jobs_insert_new by exact Hl. pose proof (sorted_snoc l j Hs Hl) as Hsort.
  pose proof (sorted_nodup _ Hsort) as Hnd. assert (Hnf : ¬ is_finished j) by done.
  assert (Hj : j ∈ prune (l ++ [j])).
  { destruct (prune_elem (l ++ [j]) j Hnd) as [?|Hi]; [set_solver|done|].
    apply elem_of_take in Hi as (? & Hi%list_elem_of_lookup_2 & _). by apply list_elem_of_filter in Hi as [? _]. }
  pose proof (prune_sublist (l ++ [j])) as Hsub. pose proof (prune_finished _ Hnd) as Hpf.
  set (F := filter is_finished (l ++ [j])) in *.
  assert (Hlen : length (filter is_finished (prune (l ++ [j]))) = Nat.min (length F) 32)
    by (rewrite Hpf, length_drop; unfold KEEP_FINISHED; lia).
  split_and!; [| |done|lia| | |].
  - unfold recent. by apply newest_first.
  - apply (get_listed _ j); [by eapply ids_sublist|done].
  - intros k Hk. apply (sublist_subseteq _ _ Hsub) in Hk. set_solver.
  - intros k Hk Hrun. destruct (prune_elem (l ++ [j]) k Hnd) as [?|Hi]; [set_solver|done|].
    apply elem_of_take in Hi as (? & Hi%list_elem_of_lookup_2 & _). by apply list_elem_of_filter in Hi as [? _].
  - intros k Hk Hgone. destruct (prune_elem (l ++ [j]) k Hnd) as [?|Hi]; [set_solver|done|]. fold F in Hi.
    assert (Hi' : k ∈ F) by (apply elem_of_take in Hi as (? & Hi & _); by eapply list_elem_of_lookup_2).
    split; [by apply list_elem_of_filter in Hi' as [? _]|].
    assert (length F - KEEP_FINISHED ≠ 0)%nat by (intros E; rewrite E in Hi; by apply not_elem_of_nil in Hi).
    unfold KEEP_FINISHED in *. split; [rewrite Hlen; lia|]. intros k' Hk' Hf'.
    assert (Hd : k' ∈ drop (length F - 32) F) by (rewrite <- Hpf; by apply list_elem_of_filter).
    assert (HF : StronglySorted older F) by (eapply StronglySorted_sublist; [apply sublist_filter|done]).
    rewrite <- (take_drop (length F - 32) F) in HF. apply StronglySorted_app in HF as (Hlt & _ & _).
    by apply Hlt.
Qed.

Lemma only_the_oldest_finished_are_forgotten_witness :
  let '(j, l') := jobs_start 7 JkImport 9 (jobs_start 3 JkLoad 5 []).2 in
  head (recent l') = Some j ∧ jobs_get 7 l' = Some j ∧ ¬ is_finished j ∧
  (length (filter is_finished l') ≤ 32)%nat ∧
  (∀ k, k ∈ l' → k = j ∨ k ∈ (jobs_start 3 JkLoad 5 []).2) ∧
  (∀ k, k ∈ (jobs_start 3 JkLoad 5 []).2 → ¬ is_finished k → k ∈ l') ∧
  (∀ k, k ∈ (jobs_start 3 JkLoad 5 []).2 → k ∉ l' → is_finished k ∧ length (filter is_finished l') = 32%nat ∧
     ∀ k', k' ∈ l' → is_finished k' → job_id k < job_id k').
Proof.
  apply (only_the_oldest_finished_are_forgotten 4 (jobs_start 3 JkLoad 5 []).2 7 JkImport 9); [|lia].
  apply rtc_once. apply (JsStart 0 3); lia.
Defined.
