(* ===== verification/Control.v ===== *)
(** * The control API

    [crates/lightweight-gateway/src/control.rs]: the lists of models, adding,
    renaming, loading, unloading and removing one, what loading one would cost,
    and how the jobs that do it end.

    A handler is what it does once its caller is authorized and its body is read;
    a refusal is its status and its code, and a sentence where it is fixed.  A
    job that adds a model begins with the [Installer]'s result; how saving the
    catalog and deleting a file go are arguments, and so is the machine. *)

From Stdlib Require Import Sorted.
From stdpp Require Import base gmap strings numbers list relations.
From S2P Require Import Prelude Scheduler Names Utf8 Net Ggml Frames Float64 Estimator Metadata Web.
From S2P Require Import Rewriter Keys Responses Generation Download Catalog Install Supervisor.
From S2P Require Import Classifier Capability Chat Engine Backend Manager Jobs CatalogTheorems.
From S2P Require Import InstallTheorems ManagerTheorems.

(** ** Refusals *)

Inductive Refusal :=
| RfField (param message : str)
| RfManager (e : ManagerError)
| RfNoManager
| RfUnknownJob.

Definition refusal_status (r : Refusal) : u16 :=
  match r with
  | RfField _ _ => 400
  | RfManager e => http_status (manager_kind e)
  | RfNoManager => 501
  | RfUnknownJob => 404
  end.

Definition refusal_code (r : Refusal) : str :=
  match r with
  | RfField _ _ => lit "invalid_request"
  | RfManager e => manager_code e
  | RfNoManager => lit "no_model_catalog"
  | RfUnknownJob => lit "unknown_job"
  end.

(** ** Rows *)

Record CatalogRow := mkCatalogRow {
  row_model : InstalledModel;
  row_state : str;
  row_verified : bool;
  row_integrity_label : str }.

(** [InstalledModel::is_present]. *)
Definition is_present (d : Disk) (m : InstalledModel) : bool := bool_decide (is_Some (d !! im_path m)).

Definition describe (d : Disk) (m : InstalledModel) (loaded : bool) : CatalogRow :=
  mkCatalogRow m
    (if loaded then lit "loaded" else if is_present d m then lit "available" else lit "missing")
    (integrity_verified (im_integrity m)) (integrity_label (im_integrity m)).

(** The comparison of [models] and [model_detail]. *)
Definition slug_is_loaded (resident : option ResidentModel) (m : InstalledModel) : bool :=
  match resident with
  | Some current => bool_decide (ModelId_slug (rm_id current) = im_id m)
  | None => false
  end.

(** [GET /api/v1/models]. *)
Definition models (d : Disk) (resident : option ResidentModel) (c : CatalogStore) : list CatalogRow :=
  (fun m => describe d m (slug_is_loaded resident m)) <$> cs_models c.

(** [GET /api/v1/models/pinned]: each, and whether it is installed. *)
Definition pinned (c : CatalogStore) : list (CatalogModel * bool) :=
  (fun p => (p, existsb (fun m => bool_decide (im_id m = pn_id p)) (cs_models c))) <$> PINNED_MODELS.

(** ** Adding a model *)

Record DownloadBody := mkDownloadBody {
  db_id : option str;
  db_url : option str;
  db_sha256 : option str;
  db_alias : option str }.

Definition download_request (body : DownloadBody) : result AddModel Refusal :=
  match db_id body, db_url body with
  | Some id, None => Ok (Pinned id)
  | None, Some url => Ok (Link url (db_sha256 body))
  | Some _, Some _ => Err (RfField (lit "id") (lit "give either a pinned id or a url, not both"))
  | None, None => Err (RfField (lit "id") (lit "name a pinned id or give a url"))
  end.

Record ImportBody := mkImportBody { ib_path : str; ib_alias : option str }.

Section control.
Context `{LowerCase}.

(** [ModelManager::check_new_alias]. *)
Definition check_new_alias (c : CatalogStore) (alias : str) : result str ManagerError :=
  match check_alias c alias None with Ok alias => Ok alias | Err e => Err (MeCatalog e) end.

Definition checked_alias (c : CatalogStore) (alias : option str) : result (option str) ManagerError :=
  match alias with
  | None => Ok None
  | Some raw => let? alias := check_new_alias c raw in Ok (Some alias)
  end.

(** [download] and [import], up to the job: what is to be added, and its name. *)
Definition download (c : CatalogStore) (body : DownloadBody) : result (AddModel * option str) Refusal :=
  let? request := download_request body in
  match checked_alias c (db_alias body) with
  | Ok alias => Ok (request, alias)
  | Err e => Err (RfManager e)
  end.

Definition import (c : CatalogStore) (body : ImportBody) : result (str * option str) Refusal :=
  match checked_alias c (ib_alias body) with
  | Ok alias => Ok (ib_path body, alias)
  | Err e => Err (RfManager e)
  end.

(** The names of a gateway: its catalog, and the resident model. *)
Record GatewayNames := mkNames { nm_catalog : CatalogStore; nm_resident : option ResidentModel }.

(** [set_alias] of the manager, and the resident model adopts it. *)
Definition rename (saves : bool) (name : str) (alias : option str) (n : GatewayNames)
    : result InstalledModel ManagerError * GatewayNames :=
  match manager_set_alias saves name alias (nm_catalog n) with
  | (Ok m, c) => (Ok m, mkNames c (adopt_alias m (nm_resident n)).1)
  | (Err e, c) => (Err e, mkNames c (nm_resident n))
  end.

Definition name_added (saves : bool) (added : result InstalledModel ManagerError) (alias : option str)
    (n : GatewayNames) : result InstalledModel ManagerError * GatewayNames :=
  match added with
  | Err e => (Err e, n)
  | Ok m =>
      match alias with
      | None => (Ok m, n)
      | Some alias => rename saves (im_id m) (Some alias) n
      end
  end.

(** ** Renaming one *)

(** The body of a [PATCH]: not JSON, not an object, or its fields. *)
Inductive FieldValue := FvNull | FvString (s : str) | FvOther.

Inductive UpdateBody :=
| UbUnreadable (err : str)
| UbNotAnObject
| UbFields (fields : list (str * FieldValue)).

Definition alias_example : str := lit "{" ++ quoted (lit "alias") ++ lit ": " ++ quoted (lit "Coder") ++ lit "}".

Definition update_alias (body : UpdateBody) : result (option str) Refusal :=
  match body with
  | UbUnreadable err => Err (RfField (lit "body") err)
  | UbNotAnObject => Err (RfField (lit "body") (lit "send a JSON object such as " ++ alias_example))
  | UbFields fields =>
      match find_first (fun f => negb (bool_decide (f.1 = lit "alias"))) fields with
      | Some (other, _) => Err (RfField other (lit "only `alias` can be changed on an installed model"))
      | None =>
          match find_first (fun f => bool_decide (f.1 = lit "alias")) fields with
          | None => Err (RfField (lit "alias") (lit "nothing to change: send " ++ alias_example ++ lit ", or {" ++ quoted (lit "alias") ++ lit ": null} to clear it"))
          | Some (_, FvNull) => Ok None
          | Some (_, FvString alias) => Ok (Some alias)
          | Some (_, FvOther) => Err (RfField (lit "alias") (lit "an alias is a string, or null to clear it"))
          end
      end
  end.

Definition update (saves : bool) (d : Disk) (name : str) (body : UpdateBody) (n : GatewayNames)
    : result CatalogRow Refusal * GatewayNames :=
  match update_alias body with
  | Err e => (Err e, n)
  | Ok alias =>
      let '(renamed, n) := rename saves name alias n in
      match renamed with
      | Err e => (Err (RfManager e), n)
      | Ok m =>
          (Ok (describe d m (match nm_resident n with Some current => is_record current m | None => false end)), n)
      end
  end.

(** ** Loading, unloading and removing *)

Record LoadBody := mkLoadBody {
  lb_ctx : option u32;
  lb_kv_type : option str;
  lb_threads : option u32;
  lb_ubatch : option u32;
  lb_threads_batch : option u32;
  lb_load_mode : option str;
  lb_force : bool }.

Definition LoadBody_default : LoadBody := mkLoadBody None None None None None None false.

(** [LoadMode::from_name]. *)
Definition mode_from_name (name : str) : option LoadMode :=
  find_first (fun mode => bool_decide (mode_as_str mode = name)) [LMAuto; LMNone; LMMmap; LMMlock; LMMmapMlock].

(** A name that is given has to be one. *)
Definition named {A} (parse : str → option A) (name : option str) (refusal : Refusal)
    : result (option A) Refusal :=
  match parse <$> name with
  | None => Ok None
  | Some (Some a) => Ok (Some a)
  | Some None => Err refusal
  end.

Definition unknown_kv_type : Refusal :=
  RfField (lit "kv_type") (lit "unknown KV cache type; GET /api/v1/gateway lists what this engine accepts").

Definition load_options (body : LoadBody) : result LoadOptions Refusal :=
  let? kv_type := named Ggml.from_name (lb_kv_type body) unknown_kv_type in
  let? load_mode := named mode_from_name (lb_load_mode body)
    (RfField (lit "load_mode") (lit "unknown load mode; GET /api/v1/gateway lists what this engine accepts")) in
  if match lb_ubatch body with Some ubatch => ubatch =? 0 | None => false end
  then Err (RfField (lit "ubatch") (lit "a physical batch size of zero processes nothing"))
  else Ok (mkOptions (lb_ctx body) kv_type (lb_threads body) (lb_ubatch body) (lb_threads_batch body)
             load_mode (lb_force body)).

(** [ErrorReport::capture]. *)
Definition capture (e : ManagerError) : ErrorReport := mkReport (manager_code e) (manager_kind e).

(** [finish]: how a job that adds a model ends. *)
Definition finish (added : result InstalledModel ManagerError) (j : Job) : Job :=
  match added with
  | Ok m => job_set (JobSucceeded (Some (im_id m))) j
  | Err e =>
      match manager_kind e with
      | KCancelled => job_set JobCancelled j
      | _ => job_set (JobFailed (capture e)) j
      end
  end.

(** The task of [load]: [load_model] marks its own success. *)
Definition finish_load (id : str) (loaded : result ResidentModel ManagerError) (j : Job) : Job :=
  match loaded with
  | Ok _ => job_set (JobSucceeded (Some id)) j
  | Err e => job_set (JobFailed (capture e)) j
  end.

(** [remove]: the id, and whether its file is gone. *)
Definition remove (saves deletes : bool) (name : str) (delete_file : bool) (n : GatewayNames) (d : Disk)
    : result (str * bool) Refusal * GatewayNames * Disk :=
  let '(removed, c, d) :=
    manager_remove saves deletes name delete_file (rm_id <$> nm_resident n) (nm_catalog n) d in
  (match removed with
   | Ok removal => Ok (im_id (removed_model removal), file_deleted removal)
   | Err e => Err (RfManager e)
   end, mkNames c (nm_resident n), d).
End control.

(** ** What a load would cost *)

Record HeaderDetail := mkHeaderDetail {
  hd_metadata : ModelMetadata;
  hd_rope_freq_base : option f64;
  hd_sliding_window : option u64;
  hd_tensor_count : u64;
  hd_gguf_version : u32;
  hd_context_presets : list u32;
  hd_missing : list str }.

(** [HeaderDetail::from]. *)
Definition HeaderDetail_from (md : Extracted) : HeaderDetail :=
  mkHeaderDetail (model md) (rope_freq_base md) (sliding_window md) (tensor_count md) (gguf_version md)
    (context_presets_for (md_context_length (model md))) (missing md).

(** [Probed]: read, or the code of why not. *)
Inductive Probed (T : Type) := ProbedRead (reading : T) | ProbedUnavailable (code : str).
#[global] Arguments ProbedRead {T} reading.
#[global] Arguments ProbedUnavailable {T} code.

Record DetailOptions := mkDetailOptions {
  do_n_ctx : option u32;
  do_kv_type : option GgmlType;
  do_ubatch : option u32 }.

(** The parameters [describe_file] begins with. *)
Definition described_base (defaults : RuntimeDefaults) (asked : DetailOptions) (mc : Machine) : RuntimeParams :=
  let cache_type := default (rd_kv_type defaults) (do_kv_type asked) in
  let d := RuntimeParams_default in
  let base := mkParams (n_ctx d) (n_batch d) (n_ubatch d) 1 cache_type cache_type
                (Some (default (mc_default_threads mc) (rd_threads defaults))) (threads_batch d) (poll d)
                (cache_reuse d) (cpu_range d) (cpu_strict d) (load_mode d) in
  match do_ubatch asked with
  | Some ubatch => if 0 <? ubatch then with_ubatch base ubatch else base
  | None => base
  end.

Definition describe_file (defaults : RuntimeDefaults) (asked : DetailOptions) (mc : Machine)
    (path : str) (d : Disk)
    : option HeaderDetail * option (Probed Estimate) * option ContextSource :=
  match read_header path d with
  | Err _ => (None, None, None)
  | Ok md =>
      let detail := HeaderDetail_from md in
      match mc_snapshot mc with
      | Err code => (Some detail, Some (ProbedUnavailable code), None)
      | Ok snapshot =>
          let base := described_base defaults asked mc in
          let budget := Budget_of snapshot in
          let chosen_slots := choose_concurrency ComputeModel_headless (rd_concurrency defaults)
                         (mc_logical_cores mc) (Some (model md)) base budget in
          let base := with_parallel base (slots chosen_slots) in
          let chosen := choose_context (do_n_ctx asked) (mc_default_ctx mc) (model md) base budget
                          ComputeModel_headless in
          let fitted := with_context base (cc_n_ctx chosen) in
          (Some detail, Some (ProbedRead (estimate (mc_estimator mc md fitted) (model md) fitted snapshot)),
           Some (cc_source chosen))
      end
  end.

Record DetailQuery := mkDetailQuery {
  dq_ctx : option u32;
  dq_kv_type : option str;
  dq_ubatch : option u32 }.

Record ModelDetail := mkModelDetail {
  det_row : CatalogRow;
  det_header : option HeaderDetail;
  det_estimate : option (Probed Estimate);
  det_context_source : option ContextSource }.

(** [GET /api/v1/models/{id}]. *)
Definition model_detail `{LowerCase} (defaults : RuntimeDefaults) (mc : Machine) (name : str) (query : DetailQuery)
    (d : Disk) (n : GatewayNames) : result ModelDetail Refusal :=
  let? kv_type := named Ggml.from_name (dq_kv_type query) unknown_kv_type in
  match catalog_resolve (nm_catalog n) name with
  | None => Err (RfManager (MeCatalog (UnknownModel name)))
  | Some m =>
      let row := describe d m (slug_is_loaded (nm_resident n) m) in
      if negb (is_present d m) then Ok (mkModelDetail row None None None)
      else
        let '(header, e, source) :=
          describe_file defaults (mkDetailOptions (dq_ctx query) kv_type (dq_ubatch query)) mc (im_path m) d in
        Ok (mkModelDetail row header e source)
  end.

(** ** What a load would cost is what it costs

    What [model_detail] shows of a model is what [load_model] decides by, for
    the same question, on a gateway with nothing to give up for it. *)

Section cost.
Context `{LowerCase} `{J : Json}.

Lemma described_base_is_base defaults o mc asked :
  lo_kv_type o = do_kv_type asked → lo_ubatch o = do_ubatch asked → lo_threads o = None →
  lo_threads_batch o = None → lo_load_mode o = None →
  (∀ ubatch, do_ubatch asked = Some ubatch → 0 < ubatch) →
  described_base defaults asked mc = base_params defaults o mc ∧
  load_mode (described_base defaults asked mc) = None.
Proof.
  intros Hk Hu Ht Htb Hm Hpos. unfold described_base, base_params. rewrite Hk, Hu, Ht, Htb, Hm.
  destruct (do_ubatch asked) as [u|]; [|done]. specialize (Hpos u eq_refl).
  by rewrite (proj2 (Z.ltb_lt _ _)) by lia.
Qed.

Definition preview_agrees (force : bool) (det : option (Probed Estimate))
    (r : result (RuntimeParams * option Estimate) ManagerError) : Prop :=
  match det, r with
  | Some (ProbedRead e), Ok (_, judged) =>
      judged = Some e ∧ (force = false → is_admissible (verdict e) = true)
  | Some (ProbedRead e), Err (MeInsufficient _ _ _ e') => e' = e ∧ force = false ∧ verdict e = Insufficient
  | Some (ProbedUnavailable _), Ok (_, judged) => judged = None ∧ force = true
  | Some (ProbedUnavailable code), Err (MeMemoryProbe code') => code' = code ∧ force = false
  | _, _ => False
  end.

Lemma described_is_judged defaults o mc asked path d id md :
  read_header path d = Ok md →
  lo_n_ctx o = do_n_ctx asked → lo_kv_type o = do_kv_type asked → lo_ubatch o = do_ubatch asked →
  lo_threads o = None → lo_threads_batch o = None → lo_load_mode o = None →
  (∀ ubatch, do_ubatch asked = Some ubatch → 0 < ubatch) →
  let '(header, e, source) := describe_file defaults asked mc path d in
  header = Some (HeaderDetail_from md) ∧ preview_agrees (lo_force o) e (judge defaults o mc None id md).
Proof.
  intros Hr Hn Hk Hu Ht Htb Hm Hpos.
  destruct (described_base_is_base defaults o mc asked Hk Hu Ht Htb Hm Hpos) as [Hb Hl].
  unfold describe_file, judge. rewrite Hr, <- Hn, <- Hb. destruct (mc_snapshot mc) as [snapshot|code].
  - split; [done|]. unfold estimate.
    change (reclaiming (Budget_of snapshot) (reclaimable None (mc_usage mc))) with (Budget_of snapshot).
    set (base := with_parallel _ _). set (fitted := with_context _ _). set (e := estimate_against _ _ _ _).
    assert (Hlocks : locks fitted = false).
    { unfold locks. change (load_mode fitted) with (load_mode (described_base defaults asked mc)). by rewrite Hl. }
    rewrite Hlocks. cbn [andb]. destruct (verdict e) eqn:Ev, (lo_force o) eqn:Ef; simpl; rewrite ?Ev; done.
  - split; [done|]. by destruct (lo_force o).
Qed.

(** C23: the price on the screen is the price of the load.  For a model and a
    context, a cache type and a batch, on a gateway with nothing resident: what
    [GET] refuses, the load refuses alike, a batch of zero apart, which only the
    load refuses; a file that is missing or unreadable has no estimate and does
    not load; and otherwise the estimate shown is the one the load is judged by,
    it is admitted or refused by its verdict, and where this machine's memory
    could not be read, the load says the same unless it is forced. *)
Theorem preview_is_the_load defaults mc name query force d n m g :
  catalog_resolve (nm_catalog n) name = Some m →
  mg_busy g = false → mg_catalog g = nm_catalog n → mg_resident g = None →
  (∀ ubatch, dq_ubatch query = Some ubatch → 0 ≤ ubatch) →
  match model_detail defaults mc name query d n,
        load_options (mkLoadBody (dq_ctx query) (dq_kv_type query) None (dq_ubatch query) None None force) with
  | Err e, Err e' => e' = e ∧ refusal_status e = 400
  | Err _, Ok _ => False
  | Ok _, Err _ => dq_ubatch query = Some 0
  | Ok det, Ok o =>
      row_model (det_row det) = m ∧
      match det_header det, det_estimate det, (load_begin defaults o mc name d g).1 with
      | None, None, Err (MeFileMissing id path) => id = im_id m ∧ path = im_path m ∧ row_state (det_row det) ≠ lit "available"
      | None, None, Err (MeCatalog e) => read_header (im_path m) d = Err e
      | Some header, shown, Err e =>
          (∃ md, read_header (im_path m) d = Ok md ∧ header = HeaderDetail_from md) ∧
          preview_agrees force shown (Err e)
      | Some header, shown, Ok t =>
          header = HeaderDetail_from (lr_metadata (lt_request t)) ∧
          preview_agrees force shown (Ok (lr_runtime (lt_request t), lt_judged t))
      | _, _, _ => False
      end
  end.
Proof.
  intros Hm Hbusy Hcat Hres Hpos. unfold model_detail, load_options. simpl.
  destruct (named Ggml.from_name (dq_kv_type query) unknown_kv_type) as [kv|e] eqn:Ekv; simpl; cycle 1.
  { split; [done|]. unfold named in Ekv. destruct (_ <$> _) as [[?|]|]; try done. by injection Ekv as <-. }
  rewrite Hm. set (row := describe d m _).
  destruct (match dq_ubatch query with Some u => u =? 0 | None => false end) eqn:Eu.
  { assert (dq_ubatch query = Some 0) by (destruct (dq_ubatch query) as [u|]; [by apply Z.eqb_eq in Eu as ->|done]).
    destruct (is_present d m); simpl; [|done]. by destruct (describe_file _ _ _ _ _) as [[??]?]. }
  assert (Hu : ∀ ubatch, dq_ubatch query = Some ubatch → 0 < ubatch).
  { intros u E. specialize (Hpos u E). rewrite E in Eu. apply Z.eqb_neq in Eu. lia. }
  unfold load_begin. rewrite Hbusy, Hcat, Hm, Hres. unfold is_present.
  destruct (d !! im_path m) as [bytes|] eqn:Ed; simpl; cycle 1.
  { split_and!; try done. unfold row, describe. simpl. destruct (slug_is_loaded _ _); [done|].
    unfold is_present. rewrite Ed. done. }
  set (asked := mkDetailOptions _ _ _). set (o := mkOptions _ _ _ _ _ _ _).
  destruct (read_header (im_path m) d) as [md|e] eqn:Er.
  - pose proof (described_is_judged defaults o mc asked (im_path m) d (im_id m) md Er
      eq_refl eq_refl eq_refl eq_refl eq_refl eq_refl Hu) as Hd.
    destruct (describe_file defaults asked mc (im_path m) d) as [[header shown] source].
    destruct Hd as [-> Hd]. split; [done|]. simpl.
    destruct (judge defaults o mc None (im_id m) md) as [[p judged]|e]; simpl; [done|]. split; [by exists md|done].
  - unfold describe_file. rewrite Er. split; [done|]. simpl. done.
Qed.
End cost.

(** ** A new name is everywhere at once *)

Section renaming.
Context `{LowerCase}.

Lemma with_alias_twice a b m : with_alias a (with_alias b m) = with_alias a m.
Proof. done. Qed.

Lemma with_alias_same m : with_alias (im_alias m) m = m.
Proof. by destruct m. Qed.

(** Every alias is one that could be given. *)
Definition valid_aliases (l : list InstalledModel) : Prop :=
  ∀ m a, m ∈ l → im_alias m = Some a → validate_alias a = Ok a.

Definition valid_catalog (c : CatalogStore) : Prop := valid_aliases (cs_models c) ∧ valid_aliases (cs_file c).

Lemma validate_alias_again raw a : validate_alias raw = Ok a → validate_alias a = Ok a.
Proof.
  intros Hv. destruct (validate_alias_Ok raw a Hv) as [Ha _]. rewrite <- Hv. unfold validate_alias.
  by rewrite Ha, trim_idemp.
Qed.

Lemma valid_put r l : valid_aliases l → (∀ a, im_alias r = Some a → validate_alias a = Ok a) →
  valid_aliases (put r l).
Proof.
  intros Hl Hr. induction l as [|m l IH]; intros x a; simpl.
  - intros ->%list_elem_of_singleton. apply Hr.
  - assert (valid_aliases l) by (intros y b Hy; apply Hl; by right).
    destruct (str_cmp _ _); rewrite !elem_of_cons.
    + intros [->|Hx]; [apply Hr|]. apply Hl. by right.
    + intros [->|Hx]; [apply Hr|]. apply Hl. by apply elem_of_cons.
    + intros [->|Hx]; [apply Hl; by left|]. by apply IH.
Qed.

Lemma valid_save works c c' : valid_catalog c → catalog_save works c = Ok c' → valid_catalog c'.
Proof.
  intros [Hm Hf]. unfold catalog_save. case_bool_decide; [by intros [= <-]|].
  destruct works; [|done]. by intros [= <-].
Qed.

Lemma valid_alter id f c :
  valid_catalog c → (∀ m a, m ∈ cs_models c → im_alias (f m) = Some a → validate_alias a = Ok a) →
  valid_catalog (alter id f c).
Proof.
  intros [Hm Hf] Hv. split; [|done]. intros m a. simpl. intros (x & -> & Hx)%list_elem_of_fmap.
  case_bool_decide; [by apply Hv|by apply Hm].
Qed.

Lemma set_alias_cases c id alias c' :
  catalog_set_alias c id alias = Ok c' →
  ∃ given, c' = alter id (with_alias given) c ∧
    match alias with
    | None => given = None
    | Some raw => ∃ a, given = Some a ∧ validate_alias raw = Ok a
    end.
Proof.
  unfold catalog_set_alias. destruct (contains_id c id); simpl; [|done]. destruct alias as [raw|].
  - unfold check_alias. destruct (validate_alias raw) as [a|]; [|done].
    destruct (find_first _ _); [done|]. destruct (find_first _ _); [done|]. intros [= <-]. eauto.
  - intros [= <-]. by exists None.
Qed.

Lemma valid_step c c' : valid_catalog c → catalog_step c c' → valid_catalog c'.
Proof.
  intros Hv. destruct 1 as [saves now c s r c' Ht Hl Hc|c id alias c' Hc|c id m c' Hc|c id n now
    |works c c' Hc|c c' Hc].
  - revert Hc. unfold commit. destruct (sn_id s) as [id|].
    + destruct (ensure_id_unaliased c id); [|by intros [= _ <-]]. set (rec := with_alias _ _).
      assert (Hp : valid_catalog (catalog_replace rec c)).
      { destruct Hv as [Hm Hf]. split; [|done]. apply valid_put; [done|]. intros b Hb.
        unfold rec in Hb. simpl in Hb. apply bind_Some in Hb as (old & Ho & Hb).
        apply find_first_Some in Ho as [Ho _]. by apply (Hm old). }
      destruct (catalog_save saves _) eqn:Es; intros [= _ <-]; [by eapply valid_save|done].
    + destruct (by_digest c _); [by intros [= _ <-]|]. unfold catalog_insert.
      destruct (contains_id c _); [by intros [= _ <-]|].
      set (c1 := set_models _ c). assert (Hp : valid_catalog c1).
      { destruct Hv as [Hm Hf]. split; [|done]. by apply valid_put. }
      destruct (catalog_save saves _) eqn:Es; intros [= _ <-]; [by eapply valid_save|done].
  - apply set_alias_cases in Hc as (given & -> & Hg). apply valid_alter; [done|]. intros m x _. simpl. intros ->.
    destruct alias as [raw|]; [|done]. destruct Hg as (b & [= ->] & Hb). by eapply validate_alias_again.
  - revert Hc. unfold catalog_remove. destruct (catalog_get c id); [|done]. intros [= <- <-].
    destruct Hv as [Hm Hf]. split; [|done]. intros x a Hx. apply Hm. unfold cut in Hx. simpl in Hx.
    apply list_elem_of_In, filter_In in Hx as [Hx _]. by apply list_elem_of_In.
  - apply valid_alter; [done|]. intros m a Hm. simpl. by apply (proj1 Hv).
  - by eapply valid_save.
  - injection Hc as <-. destruct Hv as [_ Hf]. split; [|done]. simpl.
    assert (Hgen : ∀ l acc, valid_aliases acc → valid_aliases l → valid_aliases (foldl (λ l m, put m l) acc l)).
    { induction l as [|m l IH]; intros acc Ha Hl; simpl; [done|]. apply IH; [|intros x b Hx; apply Hl; by right].
      apply valid_put; [done|]. intros a. apply Hl. by left. }
    apply Hgen; [by intros ? ? ?%not_elem_of_nil|done].
Qed.

Lemma catalog_reachable `{!LowerAscii} path c :
  rtc catalog_step (mkCatalog path [] []) c → Sound c ∧ valid_catalog c.
Proof.
  intros Hr. assert (Hs0 : Sound (mkCatalog path [] []) ∧ valid_catalog (mkCatalog path [] [])).
  { repeat split; simpl; try constructor; try (intros ???; set_solver); set_solver. }
  induction Hr as [|c0 c1 c2 Hstep _ IH]; [done|]. apply IH. destruct Hs0.
  split; [by eapply Sound_step|by eapply valid_step].
Qed.

Lemma get_member c m : Named (cs_models c) → m ∈ cs_models c → catalog_get c (im_id m) = Some m.
Proof.
  intros Hn Hm. unfold catalog_get.
  destruct (find_first_is_Some (fun x => bool_decide (im_id x = im_id m)) (cs_models c) m) as [x Hx];
    [done|by apply bool_decide_eq_true|].
  rewrite Hx. f_equal. apply find_first_Some in Hx as [Hx He%bool_decide_eq_true].
  by eapply sorted_same_id; [apply Hn|..].
Qed.

(** A record is all that its id alters. *)
Lemma alter_one c m f : Named (cs_models c) → m ∈ cs_models c →
  alter (im_id m) f c
    = set_models ((fun x => if bool_decide (im_id x = im_id m) then f m else x) <$> cs_models c) c.
Proof.
  intros Hn Hm. unfold alter. f_equal. apply list_fmap_ext. intros i x Hx%list_elem_of_lookup_2.
  case_bool_decide as He; [|done]. f_equal. by eapply sorted_same_id; [apply Hn|..].
Qed.

Lemma resolve_member c name m : catalog_resolve c name = Some m → m ∈ cs_models c.
Proof.
  unfold catalog_resolve, by_alias, catalog_get. destruct (ModelSelector_parse _) as [|s]; [done|].
  destruct (find_first (holds_alias s) _) as [x|] eqn:E; [intros [= ->]; by apply find_first_Some in E as [? _]|].
  by intros [? _]%find_first_Some.
Qed.

(** Giving a record back the alias it had leaves the catalog as it was. *)
Lemma alias_put_back c m given :
  Named (cs_models c) → valid_catalog c → m ∈ cs_models c →
  catalog_set_alias (alter (im_id m) (with_alias given) c) (im_id m) (im_alias m) = Ok c.
Proof.
  intros Hn Hv Hm. set (c' := alter _ _ c).
  assert (Hback : alter (im_id m) (with_alias (im_alias m)) c' = c).
  { unfold alter. simpl. rewrite <- list_fmap_compose. destruct c as [path l file]. unfold set_models. simpl in *.
    f_equal. rewrite <- (list_fmap_id l) at 2. apply list_fmap_ext. intros i x Hx%list_elem_of_lookup_2.
    unfold compose. destruct (decide (im_id x = im_id m)) as [He|He].
    - rewrite (bool_decide_eq_true_2 (im_id x = im_id m)) by done. simpl.
      rewrite (bool_decide_eq_true_2 (im_id x = im_id m)), with_alias_twice by done.
      rewrite (sorted_same_id l x m (nm_sorted _ Hn) Hx Hm He). apply with_alias_same.
    - rewrite !(bool_decide_eq_false_2 (im_id x = im_id m)) by done. done. }
  assert (Hc' : ∀ x, x ∈ cs_models c' → ∃ y, y ∈ cs_models c ∧ im_id x = im_id y ∧ (im_id y ≠ im_id m → x = y)).
  { intros x (y & -> & Hy)%list_elem_of_fmap. exists y. split; [done|]. by case_bool_decide. }
  assert (Hin : contains_id c' (im_id m) = true).
  { apply contains_spec. exists (with_alias given m). split; [|done]. unfold c'. rewrite (alter_one c m) by done.
    apply list_elem_of_fmap. exists m. by rewrite bool_decide_eq_true_2. }
  unfold catalog_set_alias. rewrite Hin. cbn [negb].
  destruct (im_alias m) as [a|] eqn:Ea; [|by rewrite Hback]. unfold check_alias. rewrite (proj1 Hv m a Hm Ea).
  destruct (find_first (fun x => same_name (im_id x) a) _) as [x|] eqn:Ei.
  { apply find_first_Some in Ei as [Hx Hs]. apply Hc' in Hx as (y & Hy & He & _).
    destruct (nm_ids _ Hn m y a Hm Hy Ea). rewrite <- He. by apply same_name_spec. }
  destruct (find_first (fun other => _ && _) _) as [x|] eqn:Eo; [|by rewrite Hback].
  apply find_first_Some in Eo as [Hx [Hne Hh]%andb_true_iff]. apply negb_true_iff, bool_decide_eq_false in Hne.
  apply Hc' in Hx as (y & Hy & He & Hsame). rewrite He in Hne.
  rewrite Hsame in Hh by congruence. unfold holds_alias in Hh. destruct (im_alias y) as [b|] eqn:Eb; [|done].
  destruct Hne. f_equal. f_equal. symmetry. eapply (nm_aliases _ Hn m y a b); eauto. symmetry. by apply same_name_spec.
Qed.

Definition renamed (alias : option str) (old : InstalledModel) (given : option str) (c c' : CatalogStore) : Prop :=
  old ∈ cs_models c ∧
  match alias with None => given = None | Some raw => given = Some (trim raw) ∧ validate_alias raw = Ok (trim raw) end ∧
  cs_models c' = (fun x => if bool_decide (im_id x = im_id old) then with_alias given old else x) <$> cs_models c ∧
  (cs_path c ≠ [] → cs_file c' = cs_models c').

Lemma manager_set_alias_cases saves name alias c :
  Sound c → valid_catalog c →
  match manager_set_alias saves name alias c with
  | (Err _, c') => c' = c
  | (Ok m, c') => ∃ old given, catalog_resolve c name = Some old ∧ m = with_alias given old ∧
      renamed alias old given c c' ∧ Sound c'
  end.
Proof.
  intros Hs Hv. pose proof Hs as [Hn _]. unfold manager_set_alias.
  destruct (catalog_resolve c name) as [old|] eqn:Er; [|done]. pose proof (resolve_member _ _ _ Er) as Hold.
  rewrite (get_member c old Hn Hold). simpl.
  destruct (catalog_set_alias c (im_id old) alias) as [changed|e] eqn:Ec; [|done].
  pose proof (Sound_alias _ _ _ _ Hs Ec) as Hs'.
  apply set_alias_cases in Ec as (given & -> & Hg). destruct (catalog_save saves _) as [saved|e] eqn:Esave; cycle 1.
  { by rewrite alias_put_back. }
  destruct (Sound_save _ _ _ Hs' Esave) as [Hs'' Hsaved]. exists old, given.
  assert (Hmem : with_alias given old ∈ cs_models (alter (im_id old) (with_alias given) c)).
  { rewrite (alter_one _ old) by done. simpl. apply list_elem_of_fmap. exists old. by rewrite bool_decide_eq_true_2. }
  pose proof (get_member _ _ (proj1 Hs') Hmem) as Hget. simpl in Hget.
  split; [done|]. split; [by rewrite Hget|]. split; [|done]. split; [done|]. split_and!.
  - destruct alias as [raw|]; [|done]. destruct Hg as (a & -> & Ha).
    destruct (validate_alias_Ok _ _ Ha) as [-> _]. done.
  - rewrite Hsaved, (alter_one _ old) by done. done.
  - intros Hp. revert Esave. unfold catalog_save. rewrite bool_decide_eq_false_2 by exact Hp.
    destruct saves; [|done]. by intros [= <-].
Qed.

(** C15: a new name is everywhere, or nowhere.  From the catalog of a first run,
    after whatever was added, renamed, removed, loaded and read back: renaming
    a model through the API gives the record its name resolves to the alias that
    was asked for, trimmed, or none; every other record is as it was; the file,
    where there is one, holds the same; the model that runs, if it is that one,
    goes by the new name from then on, and any other keeps its own; and the
    alias resolves to that record.  A refusal, a failed save included, leaves
    every name as it was. *)
Theorem renaming_is_everywhere_or_nowhere `{!LowerAscii} path c saves d name body resident :
  rtc catalog_step (mkCatalog path [] []) c →
  match update saves d name body (mkNames c resident) with
  | (Err _, n) => n = mkNames c resident
  | (Ok row, n) =>
      ∃ old given, catalog_resolve c name = Some old ∧ row_model row = with_alias given old ∧
        (given = None ∧ update_alias body = Ok None ∨
         ∃ raw, update_alias body = Ok (Some raw) ∧ given = Some (trim raw) ∧
           catalog_resolve (nm_catalog n) raw = Some (row_model row)) ∧
        cs_models (nm_catalog n)
          = (fun m => if bool_decide (im_id m = im_id old) then row_model row else m) <$> cs_models c ∧
        (cs_path c ≠ [] → cs_file (nm_catalog n) = cs_models (nm_catalog n)) ∧
        nm_resident n = (fun r => if is_record r old then resident_with_alias given r else r) <$> resident ∧
        (∀ r, nm_resident n = Some r → is_record r old = true →
           public_id r = default (mid (rm_id r)) given ∧ row_state row = lit "loaded")
  end.
Proof.
  intros Hr. destruct (catalog_reachable _ _ Hr) as [Hs Hv]. unfold update.
  destruct (update_alias body) as [alias|e] eqn:Eb; [|done]. unfold rename. simpl.
  pose proof (manager_set_alias_cases saves name alias c Hs Hv) as Hcases.
  destruct (manager_set_alias saves name alias c) as [[m|e] c'] eqn:Em; [|by subst c'].
  destruct Hcases as (old & given & Hold & -> & (Hin & Hg & Hmodels & Hfile) & Hs').
  exists old, given. simpl. split_and!; [done|done| |done|done| |].
  - destruct alias as [raw|]; [right|by left]. destruct Hg as [-> Hvalid]. exists raw. split_and!; [done|done|].
    apply resolve_answers; [apply Hs'| |].
    + destruct (validate_alias_Ok _ _ Hvalid) as (_ & Hne & _ & Hres & _).
      unfold ModelSelector_parse. simpl. rewrite Hres, bool_decide_eq_false_2 by done. done.
    + split; [rewrite Hmodels; apply list_elem_of_fmap; exists old; by rewrite bool_decide_eq_true_2|].
      left. unfold holds_alias. simpl. apply same_name_spec. unfold lookup_key. by rewrite trim_idemp.
  - unfold adopt_alias. destruct resident as [r|]; [|done]. simpl.
    change (is_record r (with_alias given old)) with (is_record r old). by destruct (is_record r old).
  - unfold adopt_alias. destruct resident as [r|]; simpl; [|done].
    change (is_record r (with_alias given old)) with (is_record r old). destruct (is_record r old) eqn:Ei; simpl.
    + intros r' [= <-] _. split; [done|]. unfold describe.
      change (is_record (resident_with_alias given r) (with_alias given old)) with (is_record r old). by rewrite Ei.
    + intros r' [= <-]. congruence.
Qed.
End renaming.

(** ** Examples *)

Section demo.
#[local] Existing Instance ascii_case.

Definition spacious : Machine :=
  mkMachine 4 8 (Ok (mkSnapshot (2 ^ 34) (2 ^ 33) (2 ^ 32) 0 0)) None None (fun _ _ => ComputeModel_headless).

Definition demo_names : GatewayNames := mkNames (mkCatalog [] [demo_model] []) None.

Lemma preview_is_the_load_witness :
  match model_detail RuntimeDefaults_default spacious (lit "lfm2-1.2b-q4_k_m")
          (mkDetailQuery (Some 4096) (Some (lit "q8_0")) (Some 256)) demo_disk demo_names,
        load_options (mkLoadBody (Some 4096) (Some (lit "q8_0")) None (Some 256) None None true) with
  | Ok det, Ok o =>
      match det_header det, det_estimate det,
        (load_begin RuntimeDefaults_default o spacious (lit "lfm2-1.2b-q4_k_m") demo_disk demo_gateway).1 with
      | Some header, shown, Ok t =>
          header = HeaderDetail_from (lr_metadata (lt_request t)) ∧
          preview_agrees true shown (Ok (lr_runtime (lt_request t), lt_judged t))
      | _, _, _ => False
      end
  | _, _ => False
  end.
Proof.
  pose proof (preview_is_the_load RuntimeDefaults_default spacious (lit "lfm2-1.2b-q4_k_m")
    (mkDetailQuery (Some 4096) (Some (lit "q8_0")) (Some 256)) true demo_disk demo_names demo_model demo_gateway
    ltac:(vm_compute; reflexivity) eq_refl eq_refl eq_refl ltac:(intros u [= <-]; lia)) as Hp.
  revert Hp. vm_compute. tauto.
Defined.

Lemma renaming_is_everywhere_or_nowhere_witness :
  let c := demo_c1 in
  let resident := Some (mkResident (mkModelId (lit "lfm2-1.2b@4k")) None 1 4096 [] None None None None None
                          (lit "/elsewhere") RuntimeParams_default) in
  match update true ∅ (lit "lfm2-1.2b") (UbFields [(lit "alias", FvString (lit " Coder "))]) (mkNames c resident) with
  | (Err _, n) => n = mkNames c resident
  | (Ok row, n) =>
      ∃ old given, catalog_resolve c (lit "lfm2-1.2b") = Some old ∧ row_model row = with_alias given old ∧
        (given = None ∧ update_alias (UbFields [(lit "alias", FvString (lit " Coder "))]) = Ok None ∨
         ∃ raw, update_alias (UbFields [(lit "alias", FvString (lit " Coder "))]) = Ok (Some raw) ∧
           given = Some (trim raw) ∧ catalog_resolve (nm_catalog n) raw = Some (row_model row)) ∧
        cs_models (nm_catalog n)
          = (fun m => if bool_decide (im_id m = im_id old) then row_model row else m) <$> cs_models c ∧
        (cs_path c ≠ [] → cs_file (nm_catalog n) = cs_models (nm_catalog n)) ∧
        nm_resident n = (fun r => if is_record r old then resident_with_alias given r else r) <$> resident ∧
        (∀ r, nm_resident n = Some r → is_record r old = true →
           public_id r = default (mid (rm_id r)) given ∧ row_state row = lit "loaded")
  end.
Proof.
  intros c resident. subst c.
  apply (@renaming_is_everywhere_or_nowhere ascii_case ascii_lower_ascii (lit "/c.json") demo_c1).
  apply rtc_once. eapply (step_commit true 7 _ (demo_scan (Some (lit "lfm2-1.2b")) (lit "aa"))).
  - intros id [= <-]. apply slugged_text, (bool_decide_unpack _). vm_compute. exact I.
  - vm_compute; reflexivity.
  - vm_compute; reflexivity.
Defined.

Example demo_rename :
  match update true ∅ (lit "lfm2-1.2b") (UbFields [(lit "alias", FvString (lit " Coder "))]) (mkNames demo_c1 None) with
  | (Ok row, n) => im_alias (row_model row) = Some (lit "Coder") ∧ row_state row = lit "missing"
  | _ => False
  end.
Proof. vm_compute. split; reflexivity. Qed.

(** The model that was served by its path is what runs and what the record of
    that file is, and the list says it is not loaded. *)
Theorem served_by_path_is_not_listed :
  let c := mkCatalog [] [demo_model] [] in
  is_record served_by_path demo_model = true ∧
  (row_state <$> models demo_disk (Some served_by_path) c) = [lit "available"] ∧
  match update true demo_disk (im_id demo_model) (UbFields [(lit "alias", FvNull)]) (mkNames c (Some served_by_path)) with
  | (Ok row, _) => row_state row = lit "loaded"
  | _ => False
  end.
Proof. vm_compute. split_and!; reflexivity. Qed.

(** A download that is cancelled ends as cancelled, and a load as failed. *)
Theorem cancelled_load_is_failed :
  let e := MeBackend Cancelled in
  manager_kind e = KCancelled ∧
  job_state (finish (Err e) (Job_new 1 JkDownload 0)) = JobCancelled ∧
  job_state (finish_load (lit "m") (Err e) (Job_new 1 JkLoad 0)) = JobFailed (capture e).
Proof. done. Qed.
End demo.
