(* ===== verification/Bench.v ===== *)
(** * Measuring an engine

    [crates/lightweight-bench/src]: what a benchmark records ([record.rs]), its
    errors ([error.rs]), the saved runs ([store.rs]) and the runner
    ([runner.rs]), with the plans of [crates/lightweight-cli/src/bench.rs] and
    [crates/lightweight-gateway/src/benchmark.rs].

    The engine is the class [BenchWorld]: an environment that counts the tokens of
    a prompt and answers the generations that are started together, each with
    what was observed around it.  The benchmark directory is the list of files
    that [read_dir] gives; the format of a saved run is the class [RunFormat]. *)

From Stdlib Require Import SpecFloat.
From stdpp Require Import base gmap strings numbers list.
From S2P Require Import Prelude Scheduler Names Utf8 Net Ggml Frames Float64 Estimator Metadata Web.
From S2P Require Import Rewriter Keys Responses Generation Download Catalog Supervisor Classifier.
From S2P Require Import Capability Chat Engine Backend Manager ManagerTheorems Jobs.

(** ** Arithmetic *)

Definition f64_sub : f64 → f64 → f64 := SFsub 53 1024.

(** [x.round() as u64]: half away from zero, clamped. *)
Definition round_to_u64 (x : f64) : u64 :=
  match x with
  | S754_finite false m e =>
      Z.min (if 0 <=? e then Zpos m * 2 ^ e else (2 * Zpos m + 2 ^ (- e)) / (2 * 2 ^ (- e))) U64_MAX
  | S754_infinity false => U64_MAX
  | _ => 0
  end.

(** ** What is recorded *)

Record MachineFingerprint := mkMachineFp {
  mf_cpu_model : option str;
  mf_physical_cores : u32;
  mf_logical_cores : u32;
  mf_isa_features : list str;
  mf_total_memory : Bytes;
  mf_os : str;
  mf_architecture : str }.

Definition machine_matches (a b : MachineFingerprint) : bool :=
  bool_decide (mf_cpu_model a = mf_cpu_model b)
  && (mf_physical_cores a =? mf_physical_cores b)
  && (mf_logical_cores a =? mf_logical_cores b)
  && bool_decide (mf_isa_features a = mf_isa_features b)
  && bool_decide (mf_architecture a = mf_architecture b)
  && bool_decide (mf_os a = mf_os b).

Record EngineFingerprint := mkEngineFp {
  ef_backend : str;
  ef_build : option str;
  ef_ggml_variant : option str }.

Definition engine_matches (a b : EngineFingerprint) : bool :=
  bool_decide (ef_backend a = ef_backend b)
  && bool_decide (ef_build a = ef_build b)
  && bool_decide (ef_ggml_variant a = ef_ggml_variant b).

Record ModelFingerprint := mkModelFp {
  mp_id : str;
  mp_architecture : str;
  mp_quantization : str;
  mp_parameters : option u64 }.

Inductive Scenario := ColdPrefill | CachedPrefill | Decode | ConcurrentDecode.
#[export] Instance Scenario_eq_dec : EqDecision Scenario.
Proof. solve_decision. Defined.

Definition SCENARIOS : list Scenario := [ColdPrefill; CachedPrefill; Decode].

Definition scenario_str (s : Scenario) : str :=
  match s with
  | ColdPrefill => lit "cold_prefill"
  | CachedPrefill => lit "cached_prefill"
  | Decode => lit "decode"
  | ConcurrentDecode => lit "concurrent_decode"
  end.

Record Prediction := mkPrediction {
  pn_weights : Bytes;
  pn_kv_cache : Bytes;
  pn_compute : Bytes;
  pn_overhead : Bytes;
  pn_total : Bytes;
  pn_confidence : Confidence }.

Definition prediction_of (e : Estimate) : Prediction :=
  mkPrediction (e_weights e) (e_kv_cache e) (e_compute e) (e_overhead e) (e_total e) (Estimator.confidence e).

Definition exact (p : Prediction) : u64 := sat_add64 (pn_weights p) (pn_kv_cache p).

Definition exact_within (p : Prediction) (peak : PeakKind) (params : RuntimeParams) : u64 :=
  let counts_weights := match peak with
                        | ResidentSet => true
                        | Footprint => match load_mode params with Some m => locks_weights m | None => false end
                        end in
  if counts_weights then exact p else pn_kv_cache p.

Record Sample := mkSample {
  sa_scenario : Scenario;
  sa_params : RuntimeParams;
  sa_threads : u32;
  sa_repetition : u32;
  sa_prompt_tokens : u32;
  sa_cached_tokens : u32;
  sa_prefilled_tokens : u32;
  sa_generated_tokens : u32;
  sa_prefill_ms : option f64;
  sa_decode_ms : option f64;
  sa_time_to_first_token_ms : option u64;
  sa_wall_ms : u64;
  sa_engine_ticks : option u64;
  sa_machine_ticks : option u64;
  sa_rss : option Bytes;
  sa_peak_rss : option Bytes;
  sa_peak_kind : PeakKind;
  sa_predicted : option Prediction;
  sa_busy_slots_per_decode : option f64 }.

Definition cores_used (s : Sample) (logical_cores : u32) : option f64 :=
  let! engine := sa_engine_ticks s in
  let! machine := sa_machine_ticks s in
  if (machine =? 0) || (logical_cores =? 0) then None
  else Some (f64_div (f64_of engine) (f64_div (f64_of machine) (f64_of logical_cores))).

Definition prefill_tokens_per_second (s : Sample) : option f64 :=
  let! ms := sa_prefill_ms s in
  if f64_gt ms (f64_of 0) && (0 <? sa_prefilled_tokens s)
  then Some (f64_div (f64_mul (f64_of (sa_prefilled_tokens s)) (f64_of 1000)) ms) else None.

Definition decode_tokens_per_second (s : Sample) : option f64 :=
  let! ms := sa_decode_ms s in
  if f64_gt ms (f64_of 0) && (1 <? sa_generated_tokens s)
  then Some (f64_div (f64_mul (f64_of (sa_generated_tokens s)) (f64_of 1000)) ms) else None.

Record BenchmarkRun := mkBenchmarkRun {
  br_id : str;
  br_at_unix : u64;
  br_machine : MachineFingerprint;
  br_engine : EngineFingerprint;
  br_model : ModelFingerprint;
  br_samples : list Sample }.

(** ** What can go wrong *)

Inductive BenchError :=
| BeEngine (detail : str)
| BePromptSize (requested achieved : u32)
| BePromptTooLarge (requested n_ctx : u32)
| BeNothingMeasured
| BeWrite (source : str)
| BeEncode (detail : str)
| BeRead (detail : str)
| BeMalformedId (id : str)
| BeNoSuchRun (id : str)
| BeBusy (seconds : u32).

Definition bench_code (e : BenchError) : str :=
  match e with
  | BeEngine _ => lit "benchmark_engine_failed"
  | BePromptSize _ _ => lit "benchmark_prompt_size"
  | BePromptTooLarge _ _ => lit "benchmark_prompt_too_large"
  | BeNothingMeasured => lit "benchmark_nothing_measured"
  | BeWrite _ => lit "benchmark_not_saved"
  | BeEncode _ => lit "benchmark_not_encoded"
  | BeRead _ => lit "benchmark_not_read"
  | BeMalformedId _ => lit "malformed_benchmark_id"
  | BeNoSuchRun _ => lit "unknown_benchmark"
  | BeBusy _ => lit "server_busy"
  end.

Definition bench_kind (e : BenchError) : ErrorKind :=
  match e with
  | BePromptSize _ _ | BePromptTooLarge _ _ | BeMalformedId _ => KInvalidRequest
  | BeNoSuchRun _ => KNotFound
  | BeBusy _ => KUnavailable
  | _ => KInternal
  end.

(** ** Saved runs *)

Class RunFormat := {
  run_bytes : BenchmarkRun → result (list byte) str;
  run_parse : list byte → option BenchmarkRun }.

(** A file of the directory: when it was modified, where that can be read, and
    what reading it gives. *)
Record RunEntry := mkRunEntry { en_modified : option Duration; en_bytes : result (list byte) str }.

Abbreviation Directory := (list (str * RunEntry)).

Definition LIST_LIMIT : nat := 200.
Definition ID_LENGTH : nat := 16.

(** [format!("{:016x}", nanos as u64)]. *)
Definition new_run_id (nanos : Z) : str :=
  (fun i => hex_digit (Z.land (Z.shiftr (nanos mod 2 ^ 64) (4 * i)) 15)) <$> reverse (seqZ 0 16).

Definition run_id_is_well_formed (id : str) : bool := (length id =? ID_LENGTH)%nat && forallb is_hex id.

(** The file of an id, which [path_for] gives. *)
Definition run_file (id : str) : result str BenchError :=
  if run_id_is_well_formed id then Ok (id ++ lit ".json") else Err (BeMalformedId id).

Definition file_lookup (name : str) (d : Directory) : option RunEntry :=
  snd <$> find_first (fun f => bool_decide (f.1 = name)) d.

(** What replaces the file of that name, or adds it. *)
Definition file_write (name : str) (e : RunEntry) (d : Directory) : Directory :=
  List.filter (fun f => negb (bool_decide (f.1 = name))) d ++ [(name, e)].

(** The id of a file name that [list] does not pass over. *)
Definition run_file_id (name : str) : option str :=
  let! i := rposition 46 name in
  let stem := take i name in
  if bool_decide (drop (S i) name = lit "json") && run_id_is_well_formed stem then Some stem else None.

Section store.
Context `{RunFormat}.

(** [failed] is why the file is not written. *)
Definition store_save (r : BenchmarkRun) (now : Duration) (failed : option str) (d : Directory)
    : result str BenchError * Directory :=
  match run_file (br_id r) with
  | Err e => (Err e, d)
  | Ok name =>
      match run_bytes r with
      | Err detail => (Err (BeEncode detail), d)
      | Ok bytes =>
          match failed with
          | Some source => (Err (BeWrite source), d)
          | None => (Ok name, file_write name (mkRunEntry (Some now) (Ok (bytes ++ [10]))) d)
          end
      end
  end.

Definition store_get (id : str) (d : Directory) : result BenchmarkRun BenchError :=
  match run_file id with
  | Err e => Err e
  | Ok name =>
      match file_lookup name d with
      | None => Err (BeNoSuchRun id)
      | Some f =>
          match en_bytes f with
          | Err detail => Err (BeRead detail)
          | Ok bytes =>
              ok_or (run_parse bytes) (BeRead (lit "the file did not parse as a benchmark run"))
          end
      end
  end.

(** Newest first. *)
Definition store_list (d : Directory) : list BenchmarkRun :=
  let candidates := List.filter (fun f => bool_decide (is_Some (run_file_id f.1))) d in
  let when (f : str * RunEntry) := default 0 (en_modified f.2) in
  let candidates := sort_by (fun a b => when b <? when a) candidates in
  omap (fun f => match en_bytes f.2 with Ok bytes => run_parse bytes | Err _ => None end) (take LIST_LIMIT candidates).

End store.

(** ** Driving the engine *)

Definition FILLER : str := lit "the quick brown fox jumps over the lazy dog ".
Definition SIZING_ROUNDS : nat := 8.
Definition SIZING_TOLERANCE : f64 := f64_div (f64_of 5) (f64_of 100).

Record RunPlan := mkRunPlan {
  pl_prompt_tokens : u32;
  pl_generate_tokens : u32;
  pl_repetitions : u32;
  pl_scenarios : list Scenario;
  pl_concurrent : u32 }.

Definition RunPlan_default : RunPlan := mkRunPlan 512 32 3 SCENARIOS 1.

Record SizedPrompt := mkSized { sz_text : str; sz_tokens : u32 }.

Definition with_lead (p : SizedPrompt) (seed : u32) : str :=
  lit "Run " ++ decimal seed ++ lit ". " ++ sz_text p.

(** The runner: what it measures by, and what was predicted of it. *)
Record Runner := mkRunner {
  ru_params : RuntimeParams;
  ru_threads : u32;
  ru_prediction : option Prediction }.

Definition predicting (p : Prediction) (r : Runner) : Runner := mkRunner (ru_params r) (ru_threads r) (Some p).

(** What is observed around a generation: the engine's and the machine's
    counters before and after, the events with the milliseconds at which each
    arrives, and the time it takes in all. *)
Record Observation := mkObservation {
  ob_before : option ResourceSnapshot;
  ob_after : option ResourceSnapshot;
  ob_machine_before : option u64;
  ob_machine_after : option u64;
  ob_events : result (list (u64 * result GenerationEvent str)) str;
  ob_wall_ms : u64;
  ob_busy_slots : option f64 }.

Definition ticks_between (before after : option ResourceSnapshot) : option u64 :=
  let! before := before in
  let! before := ru_cpu_ticks before in
  let! after := after in
  let! after := ru_cpu_ticks after in
  ticks_since after before.

(** What the loop of [one_with] has found. *)
Record Heard := mkHeard { hd_first : option u64; hd_timings : option Timings; hd_generated : u32 }.

Fixpoint hear (h : Heard) (events : list (u64 * result GenerationEvent str)) : result Heard BenchError :=
  match events with
  | [] => Ok h
  | (now, event) :: events =>
      let first := match hd_first h with Some t => Some t | None => Some now end in
      match event with
      | Ok (ContentDelta _) => hear (mkHeard first (hd_timings h) (hd_generated h + 1)) events
      | Ok (ReasoningDelta _) => hear (mkHeard first (hd_timings h) (hd_generated h)) events
      | Ok (TimingsMeasured measured) => hear (mkHeard (hd_first h) (Some measured) (hd_generated h)) events
      | Ok _ => hear h events
      | Err detail => Err (BeEngine detail)
      end
  end.

(** The sample of [one_with], of what was observed. *)
Definition sample_of (r : Runner) (s : Scenario) (repetition prompt_tokens : u32) (o : Observation)
    : result Sample BenchError :=
  match ob_events o with
  | Err detail => Err (BeEngine detail)
  | Ok events =>
      let? h := hear (mkHeard None None 0) events in
      let timing {A} (f : Timings → A) (d : A) := match hd_timings h with Some t => f t | None => d end in
      Ok (mkSample s (ru_params r) (ru_threads r) repetition prompt_tokens
            (timing cached_n 0) (timing prompt_n 0) (timing predicted_n (hd_generated h))
            (prompt_ms <$> hd_timings h) (predicted_ms <$> hd_timings h)
            (hd_first h) (ob_wall_ms o) (ticks_between (ob_before o) (ob_after o))
            (let! before := ob_machine_before o in
             let! after := ob_machine_after o in checked_sub after before)
            (ru_rss <$> ob_after o) (ru_peak_rss <$> ob_after o)
            (match ob_after o with Some usage => ru_peak_kind usage | None => ResidentSet end)
            (ru_prediction r) (ob_busy_slots o))
  end.

(** [try_join_all]: the results in the order they were asked for, or the first
    failure there is, by when each ends. *)
Definition first_failure {A E} (l : list (u64 * result A E)) : option E :=
  head (omap (fun x => match x.2 with Err e => Some e | Ok _ => None end)
          (sort_by (fun a b => a.1 <? b.1) l)).

Definition try_join_all {A E} (l : list (u64 * result A E)) : result (list A) E :=
  match first_failure l with
  | Some e => Err e
  | None => Ok (omap (fun x => match x.2 with Ok a => Some a | Err _ => None end) l)
  end.

(** [next] of the sizer, for a prompt of [words] that was counted. *)
Definition next_words (ceiling words : usize) (target counted : u32) : usize :=
  let ratio := f64_div (f64_of target) (f64_of (Z.max counted 1)) in
  Z.min (round_to_u64 (f64_max (f64_of (round_to_u64 (f64_mul (f64_of words) ratio))) (f64_of 1))) ceiling.

Definition size_error (counted target : u32) : f64 :=
  f64_div (SFabs (f64_sub (f64_of counted) (f64_of target))) (f64_of (Z.max target 1)).

Definition filler_of (words : usize) : str :=
  concat (replicate (Z.to_nat (Z.max words 1 / 9 + 1)) FILLER).

Definition words_ceiling (target : u32) : usize := Z.max (Z.min (target * 4) U64_MAX) 16.

Section runner.
Context `{Json}.

(** The engine and what is around it. *)
Class BenchWorld (W : Type) := {
  count_tokens : GenerationRequest → W → result u32 str * W;
  generate_together : list GenerationRequest → W → list Observation * W }.
Context {W : Type} `{BenchWorld W}.

(** [Runner::request]. *)
Definition bench_request (prompt : str) (max_tokens : u32) : GenerationRequest :=
  let g := with_prompt (PromptChat [mkChatMessage RoleUser prompt None None []]) in
  mkGeneration (gr_prompt g) (gr_tools g) (gr_tool_choice g) (gr_parallel_tool_calls g)
    (Some max_tokens)
    (mkSampling (Some (f64_of 0)) None None None None None None (Some 7) [])
    (gr_reasoning g) (gr_template_options g).

Definition count (prompt : str) (w : W) : result u32 BenchError * W :=
  match count_tokens (bench_request prompt 1) w with
  | (Ok n, w) => (Ok n, w)
  | (Err detail, w) => (Err (BeEngine detail), w)
  end.

(** The rounds of [sized_prompt], with the closest prompt so far. *)
Fixpoint size_rounds (rounds : nat) (target : u32) (words : usize) (best : option (u32 * str))
    (previous : option u32) (w : W) : result (option (u32 * str)) BenchError * W :=
  match rounds with
  | O => (Ok best, w)
  | S rounds =>
      let prompt := filler_of words in
      match count prompt w with
      | (Err e, w) => (Err e, w)
      | (Ok counted, w) =>
          let closer := match best with
                        | None => true
                        | Some (previous, _) => Z.abs (counted - target) <? Z.abs (previous - target)
                        end in
          let best := if closer then Some (counted, prompt) else best in
          if f64_le (size_error counted target) SIZING_TOLERANCE then (Ok best, w)
          else if bool_decide (previous = Some counted) then (Ok best, w)
          else
            let next := next_words (words_ceiling target) words target counted in
            if next =? words then (Ok best, w)
            else size_rounds rounds target next best (Some counted) w
      end
  end.

Definition sized_prompt (target : u32) (w : W) : result SizedPrompt BenchError * W :=
  match size_rounds SIZING_ROUNDS target (Z.min (Z.max target 1) (words_ceiling target)) None None w with
  | (Err e, w) => (Err e, w)
  | (Ok best, w) =>
      (match best with
       | Some (counted, prompt) =>
           if f64_le (size_error counted target) (f64_mul SIZING_TOLERANCE (f64_of 4))
           then Ok (mkSized prompt counted) else Err (BePromptSize target counted)
       | None => Err BeNothingMeasured
       end, w)
  end.

(** The prompts of a repetition of a scenario, those of one repetition being
    started together, and how much each may generate. *)
Definition scenario_prompts (s : Scenario) (repetition : u32) (plan : RunPlan) (sized : SizedPrompt)
    : list str * u32 :=
  match s with
  | ColdPrefill => ([with_lead sized repetition], 1)
  | CachedPrefill => ([sz_text sized], 1)
  | Decode => ([sz_text sized], pl_generate_tokens plan)
  | ConcurrentDecode =>
      let clients := Z.max (pl_concurrent plan) 1 in
      ((fun client => with_lead sized
          (sat_add32 (sat_add32 (Z.min (repetition * clients) U32_MAX) client) 1)) <$> seqZ 0 clients,
       pl_generate_tokens plan)
  end.

(** A repetition: [one], and [all_at_once] of several clients. *)
Definition repetition_samples (r : Runner) (plan : RunPlan) (s : Scenario) (sized : SizedPrompt)
    (repetition : u32) (w : W) : result (list Sample) BenchError * W :=
  let '(prompts, max_tokens) := scenario_prompts s repetition plan sized in
  let '(observed, w) := generate_together ((fun p => bench_request p max_tokens) <$> prompts) w in
  (try_join_all ((fun o => (ob_wall_ms o, sample_of r s repetition (sz_tokens sized) o)) <$> observed), w).

(** The repetitions of a scenario, and the scenarios of a plan; each carries on
    from the samples there are. *)
Fixpoint repeat_scenario (r : Runner) (plan : RunPlan) (s : Scenario) (sized : SizedPrompt)
    (repetitions : list Z) (samples : list Sample) (w : W) : result (list Sample) BenchError * W :=
  match repetitions with
  | [] => (Ok samples, w)
  | repetition :: repetitions =>
      match repetition_samples r plan s sized repetition w with
      | (Err e, w) => (Err e, w)
      | (Ok more, w) => repeat_scenario r plan s sized repetitions (samples ++ more) w
      end
  end.

Definition scenario_target (s : Scenario) (plan : RunPlan) : u32 :=
  match s with Decode => Z.min (pl_prompt_tokens plan) 64 | _ => pl_prompt_tokens plan end.

Fixpoint run_scenarios (r : Runner) (plan : RunPlan) (scenarios : list Scenario) (samples : list Sample)
    (w : W) : result (list Sample) BenchError * W :=
  match scenarios with
  | [] => (Ok samples, w)
  | s :: scenarios =>
      match sized_prompt (scenario_target s plan) w with
      | (Err e, w) => (Err e, w)
      | (Ok sized, w) =>
          match repeat_scenario r plan s sized (seqZ 0 (pl_repetitions plan)) samples w with
          | (Err e, w) => (Err e, w)
          | (Ok samples, w) => run_scenarios r plan scenarios samples w
          end
      end
  end.

Definition run_plan (r : Runner) (plan : RunPlan) (w : W) : result (list Sample) BenchError * W :=
  if n_ctx (ru_params r) <=? pl_prompt_tokens plan
  then (Err (BePromptTooLarge (pl_prompt_tokens plan) (n_ctx (ru_params r))), w)
  else
    match run_scenarios r plan (pl_scenarios plan) [] w with
    | (Ok [], w) => (Err BeNothingMeasured, w)
    | res => res
    end.

(** ** The gateway's benchmark *)

Record BenchmarkBody := mkBenchmarkBody {
  bb_prompt_tokens : option u32;
  bb_generate_tokens : option u32;
  bb_repeat : option u32 }.

Definition body_plan (b : BenchmarkBody) : RunPlan :=
  mkRunPlan (default 256 (bb_prompt_tokens b)) (default 16 (bb_generate_tokens b))
    (default 2 (bb_repeat b)) SCENARIOS 1.

(** [benchmark::run]: [permitted] is whether a slot was got, [queue_timeout] in
    seconds, [nanos] and [now] the times its id and the rest are made at,
    [failed] why its file is not written. *)
Definition gateway_run `{RunFormat} (m : ResidentModel) (machine : MachineFingerprint)
    (engine : EngineFingerprint) (body : BenchmarkBody) (permitted : bool) (queue_timeout nanos now : Z)
    (failed : option str) (d : Directory) (w : W) : result str BenchError * Directory * W :=
  if negb permitted then (Err (BeBusy (Z.min queue_timeout U32_MAX)), d, w)
  else
    let params := rm_effective m in
    match run_plan (mkRunner params (default 0 (threads params)) None) (body_plan body) w with
    | (Err e, w) => (Err e, d, w)
    | (Ok samples, w) =>
        let r := mkBenchmarkRun (new_run_id nanos) (now / 1000000000) machine engine
                   (mkModelFp (mid (rm_id m)) (rm_architecture m)
                      (default (lit "unknown") (rm_quantization m)) (rm_param_count m)) samples in
        match store_save r now failed d with
        | (Err e, d) => (Err e, d, w)
        | (Ok _, d) => (Ok (br_id r), d, w)
        end
    end.

(** How the job of [run_benchmark] ends. *)
Definition benchmark_job_end (res : result str BenchError) : JobState :=
  match res with
  | Ok id => JobSucceeded (Some id)
  | Err e => JobFailed (mkReport (bench_code e) (bench_kind e))
  end.

End runner.

(** ** Saved runs *)

Lemma hex_digit_is_hex d : 0 ≤ d < 16 → is_hex (hex_digit d) = true.
Proof.
  intros Hd. apply (elem_forallb (fun d => is_hex (hex_digit d)) (seqZ 0 16)); [|by vm_compute].
  apply elem_of_seqZ. lia.
Qed.

(** An id the store makes is one it takes. *)
Lemma new_run_id_is_well_formed nanos : run_id_is_well_formed (new_run_id nanos) = true.
Proof.
  unfold run_id_is_well_formed, new_run_id. apply andb_true_iff. split; [by rewrite length_fmap|].
  apply forallb_forall. intros c Hc. apply list_elem_of_In, list_elem_of_fmap in Hc as (i & -> & _).
  apply hex_digit_is_hex. rewrite (Z.land_ones _ 4) by lia. apply Z.mod_pos_bound. lia.
Qed.

Lemma file_lookup_write name e d name' :
  file_lookup name' (file_write name e d) = if decide (name = name') then Some e else file_lookup name' d.
Proof.
  unfold file_lookup, file_write. induction d as [|[n f] d IH]; simpl.
  { case_bool_decide as Hn; case_decide; simpl in *; congruence. }
  destruct (decide (n = name)) as [->|Hne].
  - rewrite bool_decide_eq_true_2 by done. simpl. rewrite IH. case_decide; [done|].
    by rewrite bool_decide_eq_false_2.
  - rewrite bool_decide_eq_false_2 by done. simpl. case_bool_decide as Hn; [|apply IH].
    rewrite decide_False by congruence. done.
Qed.

(** A run that was saved is the one that is found, and every other file is as it
    was; one that was refused leaves the directory alone. *)
Lemma saved_run_is_found `{RunFormat} r now failed d :
  (∀ bytes, run_bytes r = Ok bytes → run_parse (bytes ++ [10]) = Some r) →
  let '(res, d') := store_save r now failed d in
  match res with
  | Ok name => store_get (br_id r) d' = Ok r ∧ name = br_id r ++ lit ".json" ∧ failed = None ∧
      ∀ name', name' ≠ name → file_lookup name' d' = file_lookup name' d
  | Err _ => d' = d
  end.
Proof.
  intros Hp. unfold store_save, store_get. destruct (run_file (br_id r)) as [name|e] eqn:Hn; [|done].
  destruct (run_bytes r) as [bytes|detail] eqn:Hb; [|done]. destruct failed as [source|]; [done|]. simpl.
  rewrite file_lookup_write, decide_True by done. simpl. rewrite (Hp bytes) by done. split_and!; [done| |done|].
  - unfold run_file in Hn. destruct (run_id_is_well_formed _); [|done]. by injection Hn.
  - intros name' Hne. by rewrite file_lookup_write, decide_False.
Qed.

(** ** The size of a prompt *)

Section runs.
Context `{Json} {W : Type} `{!BenchWorld W}.

(** A sequence of counts: what each prompt of so many words came to. *)
Fixpoint counts (l : list (usize * u32)) (w : W) : option W :=
  match l with
  | [] => Some w
  | (words, n) :: l =>
      match count (filler_of words) w with
      | (Ok m, w') => if m =? n then counts l w' else None
      | (Err _, _) => None
      end
  end.

Lemma sizing_counts_app l l' w w' : counts l w = Some w' → counts (l ++ l') w = counts l' w'.
Proof.
  revert w. induction l as [|[words n] l IH]; intros w; simpl; [by intros [= ->]|].
  destruct (count _ w) as [[m|e] w1]; [|done]. destruct (m =? n); [apply IH|done].
Qed.

(** The closest of what was counted. *)
Definition closest (target : u32) (l : list (usize * u32)) (best : option (u32 * str)) : Prop :=
  match best with
  | None => l = []
  | Some (n, prompt) => (∃ words, (words, n) ∈ l ∧ prompt = filler_of words) ∧
      ∀ words m, (words, m) ∈ l → Z.abs (n - target) ≤ Z.abs (m - target)
  end.

Definition sizing (target : u32) (w : W) (l : list (usize * u32)) (w' : W) : Prop :=
  counts l w = Some w' ∧ Forall (λ x, x.1 ≤ words_ceiling target) l.

Lemma closest_snoc target l best words n :
  closest target l best →
  closest target (l ++ [(words, n)])
    (if match best with None => true | Some (p, _) => Z.abs (n - target) <? Z.abs (p - target) end
     then Some (n, filler_of words) else best).
Proof.
  destruct best as [[p prompt]|]; simpl.
  - intros [(x & Hx & ->) Hmin]. destruct (Z.ltb_spec (Z.abs (n - target)) (Z.abs (p - target))); simpl; split.
    + exists words. split; [set_solver|done].
    + intros y m [Hy|Hy]%elem_of_app; [specialize (Hmin _ _ Hy); lia|].
      apply list_elem_of_singleton in Hy as [= -> ->]. lia.
    + exists x. split; [set_solver|done].
    + intros y m [Hy|Hy]%elem_of_app; [by eapply Hmin|]. apply list_elem_of_singleton in Hy as [= -> ->]. lia.
  - intros ->. simpl. split; [exists words; split; [set_solver|done]|].
    intros y m Hy. apply list_elem_of_singleton in Hy as [= -> ->]. lia.
Qed.

Lemma next_words_le ceiling words target counted : next_words ceiling words target counted ≤ ceiling.
Proof. unfold next_words. lia. Qed.

Lemma size_rounds_spec rounds target words best previous w0 l w :
  sizing target w0 l w → closest target l best → words ≤ words_ceiling target → l ≠ [] ∨ (0 < rounds)%nat →
  match size_rounds rounds target words best previous w with
  | (Ok best, w') => ∃ l', sizing target w0 l' w' ∧ closest target l' best ∧ best ≠ None ∧
      (length l' ≤ length l + rounds)%nat
  | (Err e, _) => ∃ detail, e = BeEngine detail
  end.
Proof.
  revert words best previous l w. induction rounds as [|rounds IH]; intros words best previous l w [Hc Hf] Hb Hw Hl;
    simpl.
  { exists l. split; [done|]. split; [done|]. split; [|lia]. destruct Hl as [Hl|]; [|lia]. intros ->. by apply Hl, Hb. }
  destruct (count (filler_of words) w) as [[counted|e] w'] eqn:Ec.
  2: { unfold count in Ec. destruct (count_tokens _ w) as [[|detail] ?]; [done|]. injection Ec as <- _. eauto. }
  set (best' := if match best with None => true | Some (p, _) => _ end then _ else best).
  assert (Hs : sizing target w0 (l ++ [(words, counted)]) w').
  { split; [rewrite (sizing_counts_app _ _ _ _ Hc); simpl; by rewrite Ec, Z.eqb_refl|].
    apply Forall_app. split; [done|]. by apply Forall_singleton. }
  pose proof (closest_snoc target l best words counted Hb) as Hb'. fold best' in Hb'.
  assert (Hdone : ∃ l', sizing target w0 l' w' ∧ closest target l' best' ∧ best' ≠ None ∧
                    (length l' ≤ length l + S rounds)%nat).
  { exists (l ++ [(words, counted)]). split_and!; [done|done| |rewrite length_app; simpl; lia].
    intros E. rewrite E in Hb'. simpl in Hb'. by destruct l. }
  destruct (f64_le _ _); [done|]. case_bool_decide; [done|]. destruct (_ =? words); [done|].
  specialize (IH (next_words (words_ceiling target) words target counted) best' (Some counted) _ w' Hs Hb'
    (next_words_le _ _ _ _)).
  destruct (size_rounds rounds _ _ best' _ w') as [[b|e] w2].
  - destruct IH as (l' & H1 & H2 & H3 & H4); [left; by destruct l|]. exists l'. split_and!; [done..|].
    rewrite length_app in H4. simpl in H4. lia.
  - apply IH. left. by destruct l.
Qed.

(** Sizing a prompt asks the engine at most eight times, never for more text
    than the ceiling allows, and gives the closest of what it counted, with the
    very count it was given; or refuses with that count where it is more than a
    fifth off, or because the engine did. *)
Lemma sized_prompt_spec target w :
  match sized_prompt target w with
  | (Ok sized, w') => ∃ l, sizing target w l w' ∧ (length l ≤ SIZING_ROUNDS)%nat ∧
      closest target l (Some (sz_tokens sized, sz_text sized)) ∧
      f64_le (size_error (sz_tokens sized) target) (f64_mul SIZING_TOLERANCE (f64_of 4)) = true
  | (Err (BePromptSize t n), w') => t = target ∧ ∃ l text, sizing target w l w' ∧ closest target l (Some (n, text)) ∧
      f64_le (size_error n target) (f64_mul SIZING_TOLERANCE (f64_of 4)) = false
  | (Err e, _) => ∃ detail, e = BeEngine detail
  end.
Proof.
  unfold sized_prompt.
  pose proof (size_rounds_spec SIZING_ROUNDS target (Z.min (Z.max target 1) (words_ceiling target)) None None w [] w)
    as Hs.
  destruct (size_rounds _ _ _ _ _ w) as [[best|e] w'].
  - destruct Hs as (l & H1 & H2 & H3 & H4); [split; [done|constructor]|done|lia|right; unfold SIZING_ROUNDS; lia|].
    destruct best as [[n text]|]; [|done]. destruct (f64_le _ _) eqn:El.
    + exists l. simpl in H4. by split_and!.
    + split; [done|]. by exists l, text.
  - destruct Hs as [detail ->]; [split; [done|constructor]|done|lia|right; unfold SIZING_ROUNDS; lia|eauto].
Qed.

Lemma length_filler_of words : Z.of_nat (length (filler_of words)) = 44 * (Z.max words 1 / 9 + 1).
Proof.
  unfold filler_of. assert (0 ≤ Z.max words 1 / 9) by (apply Z.div_pos; lia).
  rewrite <-(Z2Nat.id (Z.max words 1 / 9 + 1)) at 2 by lia.
  generalize (Z.to_nat (Z.max words 1 / 9 + 1)). intros n. induction n as [|n IH]; [done|].
  change (concat (replicate (S n) FILLER)) with (FILLER ++ concat (replicate n FILLER)).
  rewrite length_app, Nat2Z.inj_add, IH. change (length FILLER) with 44%nat. lia.
Qed.

(** ** What a run measures *)

Lemma try_join_all_Ok {A E} (l : list (u64 * result A E)) xs :
  try_join_all l = Ok xs → Forall2 (λ x a, x.2 = Ok a) l xs.
Proof.
  unfold try_join_all, first_failure.
  assert (Hperm := sort_by_Permutation (λ a b : u64 * result A E, a.1 <? b.1) l).
  set (fail := fun x : u64 * result A E => match x.2 with Err e => Some e | Ok _ => None end).
  destruct (omap fail (sort_by _ l)) as [|e es] eqn:Ho; [|done]. simpl. intros [= <-].
  assert (Hall : Forall (λ x : u64 * result A E, fail x = None) l).
  { rewrite <-Hperm. clear Hperm. induction (sort_by _ l) as [|x k IH]; constructor; simpl in Ho.
    - by destruct (fail x).
    - apply IH. by destruct (fail x). }
  clear Ho Hperm. induction Hall as [|[t [a|e]] l Hx _ IH]; simpl; [constructor| |done]. by constructor.
Qed.

Lemma sample_of_Ok r s repetition tokens o x :
  sample_of r s repetition tokens o = Ok x →
  (sa_scenario x, sa_repetition x, sa_prompt_tokens x) = (s, repetition, tokens) ∧
  (sa_params x, sa_threads x, sa_predicted x) = (ru_params r, ru_threads r, ru_prediction r).
Proof.
  unfold sample_of. destruct (ob_events o) as [events|]; [|done].
  destruct (hear _ events) as [h|]; [|done]. simpl. by intros [= <-].
Qed.

(** How many clients a repetition of a scenario has. *)
Definition clients (s : Scenario) (plan : RunPlan) : nat :=
  match s with ConcurrentDecode => Z.to_nat (Z.max (pl_concurrent plan) 1) | _ => 1%nat end.

Lemma length_scenario_prompts s i plan sized : length (scenario_prompts s i plan sized).1 = clients s plan.
Proof. destruct s; try done. simpl. by rewrite length_fmap, length_seqZ. Qed.

(** What a plan asks for: of every scenario in turn, every repetition, once for
    each client. *)
Definition planned (plan : RunPlan) (scenarios : list Scenario) : list (Scenario * u32) :=
  concat ((fun s => concat ((fun i => replicate (clients s plan) (s, i)) <$> seqZ 0 (pl_repetitions plan)))
            <$> scenarios).

(** A sample was taken by the runner, of a prompt that is close to its target. *)
Definition taken_by (r : Runner) (plan : RunPlan) (x : Sample) : Prop :=
  (sa_params x, sa_threads x, sa_predicted x) = (ru_params r, ru_threads r, ru_prediction r) ∧
  f64_le (size_error (sa_prompt_tokens x) (scenario_target (sa_scenario x) plan))
    (f64_mul SIZING_TOLERANCE (f64_of 4)) = true.

Definition labels (l : list Sample) : list (Scenario * u32) := (fun x => (sa_scenario x, sa_repetition x)) <$> l.

Context (answers : ∀ l w, length (generate_together l w).1 = length l).
Context (r : Runner) (plan : RunPlan).

Lemma repetition_samples_Ok s sized i w xs w' :
  f64_le (size_error (sz_tokens sized) (scenario_target s plan)) (f64_mul SIZING_TOLERANCE (f64_of 4)) = true →
  repetition_samples r plan s sized i w = (Ok xs, w') →
  labels xs = replicate (clients s plan) (s, i) ∧ Forall (taken_by r plan) xs.
Proof.
  intros Hsz. unfold repetition_samples. pose proof (length_scenario_prompts s i plan sized) as Hlen.
  destruct (scenario_prompts s i plan sized) as [prompts m]. simpl in Hlen.
  pose proof (answers ((fun p => bench_request p m) <$> prompts) w) as Ha.
  destruct (generate_together _ w) as [observed w1]. simpl in Ha. rewrite length_fmap, Hlen in Ha.
  intros [= Hj <-]. apply try_join_all_Ok in Hj. rewrite <-Ha. clear Ha Hlen.
  revert xs Hj. induction observed as [|o l IH]; intros xs Hj; csimpl in *; inversion Hj as [|? x ? xs' Hx Hxs]; subst;
    [by split|]. simpl in Hx. apply sample_of_Ok in Hx as [[= H1 H2 H3] Hx].
  destruct (IH _ Hxs) as [IH1 IH2]. csimpl. rewrite IH1, H1, H2. split; [done|]. constructor; [|done].
  split; [done|]. by rewrite H1, H3.
Qed.

Lemma repeat_scenario_Ok s sized reps samples w xs w' :
  f64_le (size_error (sz_tokens sized) (scenario_target s plan)) (f64_mul SIZING_TOLERANCE (f64_of 4)) = true →
  repeat_scenario r plan s sized reps samples w = (Ok xs, w') → Forall (taken_by r plan) samples →
  labels xs = labels samples ++ concat ((fun i => replicate (clients s plan) (s, i)) <$> reps) ∧
  Forall (taken_by r plan) xs.
Proof.
  intros Hsz. revert samples w. induction reps as [|i reps IH]; intros samples w; simpl.
  { intros [= <- <-] Hs. by rewrite (right_id_L [] (++)). }
  destruct (repetition_samples r plan s sized i w) as [[more|e] w1] eqn:E; [|done]. intros Hr Hs.
  destruct (repetition_samples_Ok _ _ _ _ _ _ Hsz E) as [Hl Hm].
  destruct (IH _ _ Hr) as [IH1 IH2]; [by apply Forall_app|]. split; [|done]. rewrite IH1. unfold labels in *.
  by rewrite fmap_app, Hl, <-(assoc_L (++)).
Qed.

Lemma run_scenarios_Ok scenarios samples w xs w' :
  run_scenarios r plan scenarios samples w = (Ok xs, w') → Forall (taken_by r plan) samples →
  labels xs = labels samples ++ planned plan scenarios ∧ Forall (taken_by r plan) xs.
Proof.
  revert samples w. induction scenarios as [|s l IH]; intros samples w; simpl.
  { intros [= <- <-] Hs. unfold planned. simpl. by rewrite (right_id_L [] (++)). }
  pose proof (sized_prompt_spec (scenario_target s plan) w) as Hz.
  destruct (sized_prompt _ w) as [[sized|e] w1]; [|done]. destruct Hz as (_ & _ & _ & _ & Hz).
  destruct (repeat_scenario _ _ _ _ _ _ w1) as [[more|e] w2] eqn:E; [|done]. intros Hr Hs.
  destruct (repeat_scenario_Ok _ _ _ _ _ _ _ Hz E Hs) as [H1 H2]. destruct (IH _ _ Hr H2) as [IH1 IH2].
  split; [|done]. rewrite IH1, H1. unfold planned. simpl. by rewrite <-(assoc_L (++)).
Qed.

(** A benchmark that succeeds measured its plan and nothing else: for every
    scenario in order, every repetition, one sample for each of its clients, all
    with the parameters, the threads and the prediction the runner was given, of
    prompts whose counted length is within a fifth of what was asked for; and
    what was asked for fits the context. *)
Theorem a_run_measures_its_plan w samples w' :
  run_plan r plan w = (Ok samples, w') →
  pl_prompt_tokens plan < n_ctx (ru_params r) ∧ samples ≠ [] ∧
  ((fun x => (sa_scenario x, sa_repetition x)) <$> samples) = planned plan (pl_scenarios plan) ∧
  ∀ x, x ∈ samples →
    (sa_params x, sa_threads x, sa_predicted x) = (ru_params r, ru_threads r, ru_prediction r) ∧
    f64_le (size_error (sa_prompt_tokens x) (scenario_target (sa_scenario x) plan))
      (f64_mul SIZING_TOLERANCE (f64_of 4)) = true.
Proof.
  unfold run_plan. destruct (Z.leb_spec (n_ctx (ru_params r)) (pl_prompt_tokens plan)) as [|Hfits]; [done|].
  destruct (run_scenarios _ _ _ _ w) as [[l|e] w1] eqn:E; [|done].
  apply run_scenarios_Ok in E as [Hl Ht]; [|constructor]. destruct l as [|x l]; [done|]. intros [= <- <-].
  split_and!; [done|done|exact Hl|]. by apply Forall_forall.
Qed.

End runs.

(** Each client and repetition is given an opening of its own, so that "no two
    generations anywhere in the run share a prefix"; but the numbers begin where
    those of the cold prompts do, which are made of the same text: from the
    second repetition on a client opens as a cold prompt did. *)
Theorem a_client_opens_as_a_cold_prompt_did plan sized :
  scenario_target ColdPrefill plan = scenario_target ConcurrentDecode plan ∧
  ∃ prompt, (scenario_prompts ColdPrefill 1 plan sized).1 = [prompt] ∧
    prompt ∈ (scenario_prompts ConcurrentDecode 0 plan sized).1.
Proof.
  split; [done|]. exists (with_lead sized 1). split; [done|]. simpl. apply list_elem_of_fmap. exists 0.
  split; [by rewrite Z.mul_0_l|]. apply elem_of_seqZ. lia.
Qed.

(** ** A run *)

Section demo.
#[local] Existing Instance silent_json.

(** An engine that counts words, and says one. *)
#[local] Instance word_engine : BenchWorld () := {|
  count_tokens g w :=
    (Ok (foldr (fun m n => Z.of_nat (length (List.filter (Z.eqb 32) (cm_content m))) + n) 0 (request_messages g)), w);
  generate_together l w :=
    ((fun _ => mkObservation None None None None
                 (Ok [(5, Ok (ContentDelta (lit "a")));
                      (9, Ok (TimingsMeasured (mkTimings 60 (f64_of 30) 2 (f64_of 4) 3)))]) 9 None) <$> l, w) |}.

Definition word_runner : Runner := mkRunner RuntimeParams_default 4 None.
Definition word_plan : RunPlan := mkRunPlan 100 8 2 [ColdPrefill; ConcurrentDecode] 3.

Definition word_run : option (list Sample) :=
  match run_plan word_runner word_plan () with (Ok l, _) => Some l | (Err _, _) => None end.

Example word_run_measures :
  ((fun s => (sa_scenario s, sa_repetition s, sa_prompt_tokens s, sa_prefilled_tokens s, sa_generated_tokens s)) <$>
    default [] word_run) =
  [(ColdPrefill, 0, 99, 60, 2); (ColdPrefill, 1, 99, 60, 2);
   (ConcurrentDecode, 0, 99, 60, 2); (ConcurrentDecode, 0, 99, 60, 2); (ConcurrentDecode, 0, 99, 60, 2);
   (ConcurrentDecode, 1, 99, 60, 2); (ConcurrentDecode, 1, 99, 60, 2); (ConcurrentDecode, 1, 99, 60, 2)].
Proof. vm_compute. reflexivity. Qed.

Lemma a_run_measures_its_plan_witness :
  ∃ samples, word_run = Some samples ∧ length samples = 8%nat ∧
    ((fun x => (sa_scenario x, sa_repetition x)) <$> samples) = planned word_plan (pl_scenarios word_plan).
Proof.
  assert (Hlen : (length <$> word_run) = Some 8%nat) by (vm_compute; reflexivity). unfold word_run in *.
  destruct (run_plan word_runner word_plan ()) as [[samples|e] w'] eqn:E; [|discriminate Hlen].
  exists samples. injection Hlen as Hlen. split; [reflexivity|]. split; [exact Hlen|].
  pose proof (a_run_measures_its_plan (W := ()) (fun l w => length_fmap _ l) word_runner word_plan ()
    samples w' E) as (_ & _ & Hl & _). exact Hl.
Defined.

End demo.
