(* ===== verification/Calibration.v ===== *)
(** * What a machine has measured of itself

    [crates/lightweight-bench/src]: the fits of [fit.rs] and the rules of
    [apply.rs] by which one is spent; with the lookup of
    [crates/lightweight-gateway/src/state.rs] and what
    [crates/lightweight-cli/src/bench.rs] does with the runs it makes.

    The calibration file is what reading it gives; the keys a newer build wrote
    are left out.  A [BTreeMap] is an association list in the order of its keys. *)

From Stdlib Require Import Sorted SpecFloat.
From stdpp Require Import base gmap strings numbers list.
From S2P Require Import Prelude Scheduler Names Utf8 Net Ggml Frames Float64 Estimator Metadata Web.
From S2P Require Import Rewriter Keys Responses Generation Download Catalog Install Supervisor.
From S2P Require Import Classifier Engine Backend Manager Bench.
From S2P Require Import Chat MetadataTheorems CatalogTheorems ManagerTheorems.

(** ** Fits *)

Record BucketKey := mkBucket {
  bk_architecture : str;
  bk_quantization : str;
  bk_n_ctx : u32;
  bk_n_parallel : u32;
  bk_cache_type_k : str;
  bk_cache_type_v : str }.
#[global] Instance BucketKey_eq_dec : EqDecision BucketKey.
Proof. solve_decision. Defined.

Record ResidualPoint := mkPoint { pt_n_ubatch : u32; pt_residual : u64; pt_peak_rss : Bytes }.

Record Fit := mkFit {
  ft_at_unix : u64;
  ft_machine : MachineFingerprint;
  ft_engine : EngineFingerprint;
  ft_bucket : BucketKey;
  ft_compute_bytes_per_ubatch : option f64;
  ft_overhead_bytes : option f64;
  ft_max_residual : u64;
  ft_r_squared : option f64;
  ft_points : list ResidualPoint }.

Abbreviation Calibration := (list Fit).

(** A fit of some machine, engine and bucket. *)
Definition describes (machine : MachineFingerprint) (engine : EngineFingerprint) (bucket : BucketKey)
    (f : Fit) : bool :=
  machine_matches (ft_machine f) machine && engine_matches (ft_engine f) engine
  && bool_decide (ft_bucket f = bucket).

Definition find_fit (machine : MachineFingerprint) (engine : EngineFingerprint) (bucket : BucketKey)
    (c : Calibration) : option Fit := find_first (describes machine engine bucket) c.

Definition insert_fit (f : Fit) (c : Calibration) : Calibration :=
  List.filter (fun existing => negb (describes (ft_machine f) (ft_engine f) (ft_bucket f) existing)) c ++ [f].

(** ** A line through what was measured *)

Record LineFit := mkLine { slope : f64; intercept : f64; r_squared : f64 }.

Definition f64_sum (l : list f64) : f64 := foldl f64_add f64_0 l.

(** The largest residual of each batch size. *)
Fixpoint note_peak (x : u32) (y : u64) (l : list (u32 * u64)) : list (u32 * u64) :=
  match l with
  | [] => [(x, Z.max 0 y)]
  | (x', y') :: l =>
      if x <? x' then (x, Z.max 0 y) :: (x', y') :: l
      else if x =? x' then (x', Z.max y' y) :: l else (x', y') :: note_peak x y l
  end.

Definition peaks (points : list ResidualPoint) : list (u32 * u64) :=
  foldl (fun l p => note_peak (pt_n_ubatch p) (pt_residual p) l) [] points.

Definition regress (points : list ResidualPoint) : option LineFit :=
  let peaks := peaks points in
  if (length peaks <? 2)%nat then None
  else
    let n := f64_of (Z.of_nat (length peaks)) in
    let mean_x := f64_div (f64_sum ((fun p => f64_of p.1) <$> peaks)) n in
    let mean_y := f64_div (f64_sum ((fun p => f64_of p.2) <$> peaks)) n in
    let '(covariance, variance) :=
      foldl (fun '(c, v) p =>
        let dx := f64_sub (f64_of p.1) mean_x in
        (f64_add c (f64_mul dx (f64_sub (f64_of p.2) mean_y)), f64_add v (f64_mul dx dx)))
        (f64_0, f64_0) peaks in
    if SFeqb variance f64_0 then None
    else
      let slope := f64_div covariance variance in
      let intercept := f64_sub mean_y (f64_mul slope mean_x) in
      let residual_sum :=
        f64_sum ((fun p => let error := f64_sub (f64_of p.2) (f64_add (f64_mul slope (f64_of p.1)) intercept) in
                           f64_mul error error) <$> peaks) in
      let total_sum :=
        f64_sum ((fun p => let deviation := f64_sub (f64_of p.2) mean_y in f64_mul deviation deviation) <$> peaks) in
      Some (mkLine slope intercept
              (if SFeqb total_sum f64_0 then f64_1 else f64_sub f64_1 (f64_div residual_sum total_sum))).

(** ** Fitting a run *)

(** The point a sample makes, in its bucket. *)
Definition sample_point (r : BenchmarkRun) (s : Sample) : option (BucketKey * ResidualPoint) :=
  let! prediction := sa_predicted s in
  let! peak := sa_peak_rss s in
  let! residual := checked_sub peak (exact_within prediction (sa_peak_kind s) (sa_params s)) in
  let p := sa_params s in
  Some (mkBucket (mp_architecture (br_model r)) (mp_quantization (br_model r)) (n_ctx p) (n_parallel p)
          (type_name (cache_type_k p)) (type_name (cache_type_v p)),
        mkPoint (n_ubatch p) residual peak).

Definition then_by (a b : comparison) : comparison := match a with Eq => b | _ => a end.

(** The order of keys, field by field. *)
Definition bucket_cmp (a b : BucketKey) : comparison :=
  then_by (str_cmp (bk_architecture a) (bk_architecture b))
  (then_by (str_cmp (bk_quantization a) (bk_quantization b))
  (then_by (bk_n_ctx a ?= bk_n_ctx b)
  (then_by (bk_n_parallel a ?= bk_n_parallel b)
  (then_by (str_cmp (bk_cache_type_k a) (bk_cache_type_k b))
     (str_cmp (bk_cache_type_v a) (bk_cache_type_v b)))))).

Fixpoint push_point (k : BucketKey) (p : ResidualPoint) (l : list (BucketKey * list ResidualPoint))
    : list (BucketKey * list ResidualPoint) :=
  match l with
  | [] => [(k, [p])]
  | (k', ps) :: l =>
      match bucket_cmp k k' with
      | Lt => (k, [p]) :: (k', ps) :: l
      | Eq => (k', ps ++ [p]) :: l
      | Gt => (k', ps) :: push_point k p l
      end
  end.

Definition buckets (r : BenchmarkRun) : list (BucketKey * list ResidualPoint) :=
  foldl (fun l s => match sample_point r s with Some (k, p) => push_point k p l | None => l end) [] (br_samples r).

Definition fit_bucket (r : BenchmarkRun) (b : BucketKey * list ResidualPoint) : Fit :=
  let '(bucket, points) := b in
  let line := regress points in
  mkFit (br_at_unix r) (br_machine r) (br_engine r) bucket (slope <$> line) (intercept <$> line)
    (foldr Z.max 0 (pt_residual <$> points)) (r_squared <$> line) points.

Definition fit_run (r : BenchmarkRun) : list Fit := fit_bucket r <$> buckets r.

(** ** Spending a fit *)

Definition MIN_UBATCH_VALUES : nat := 3.
Definition MIN_R_SQUARED : f64 := f64_div (f64_of 95) (f64_of 100).

Inductive Untrusted :=
| NoFit
| TooFewUbatchValues (have : nat)
| NoSlope
| NotAffine (r : f64)
| NoGoodnessOfFit
| NegativeTerm
| ShapeUnknown
| SlopeBelowLogits.

Record Calibrated := mkCalibrated {
  cal_compute_model : ComputeModel;
  cal_fit_at_unix : u64;
  cal_floor_raised_by : Bytes }.

Definition bucket_for (md : Extracted) (p : RuntimeParams) : BucketKey :=
  mkBucket (architecture md) (quantization_label md) (n_ctx p) (n_parallel p)
    (type_name (cache_type_k p)) (type_name (cache_type_v p)).

(** Rounded, and never below zero. *)
Definition bytes_of (x : f64) : Bytes :=
  if negb (is_finite x) || f64_le x (f64_of 0) then 0 else round_to_u64 x.

(** How far above the line a point is. *)
Definition above (slope intercept : f64) (p : ResidualPoint) : f64 :=
  f64_sub (f64_of (pt_residual p)) (f64_add (f64_mul slope (f64_of (pt_n_ubatch p))) intercept).

Definition shortfall (slope intercept : f64) (points : list ResidualPoint) : f64 :=
  foldl (fun m p => f64_max m (above slope intercept p)) f64_0 points.

Definition apply (f : Fit) (m : ModelMetadata) (base : ComputeModel) : result Calibrated Untrusted :=
  let ubatch_values := remove_dups (pt_n_ubatch <$> ft_points f) in
  if (length ubatch_values <? MIN_UBATCH_VALUES)%nat then Err (TooFewUbatchValues (length ubatch_values))
  else
    match ft_compute_bytes_per_ubatch f, ft_overhead_bytes f with
    | Some slope, Some intercept =>
        match ft_r_squared f with
        | None => Err NoGoodnessOfFit
        | Some r =>
            if f64_lt r MIN_R_SQUARED then Err (NotAffine r)
            else if f64_lt slope f64_0 || f64_lt intercept f64_0 then Err NegativeTerm
            else
              match vocab_size m, embedding_length m with
              | Some vocab, Some embedding =>
                  let vocab := f64_of vocab in
                  let embedding := f64_of embedding in
                  let ffn := f64_of (default 0 (feed_forward_length m)) in
                  if SFeqb embedding f64_0 then Err ShapeUnknown
                  else
                    let logits := f64_mul vocab (f64_of 4) in
                    let shape :=
                      f64_add (f64_mul (f64_mul (activation_factor base) embedding) (f64_of 4))
                        (f64_mul (f64_mul (scratch_factor base) (f64_max embedding ffn)) (f64_of 4)) in
                    if f64_le shape f64_0 then Err ShapeUnknown
                    else
                      let fitted := f64_sub slope logits in
                      if f64_lt fitted f64_0 then Err SlopeBelowLogits
                      else
                        let scale := f64_div fitted shape in
                        let short := shortfall slope intercept (ft_points f) in
                        Ok (mkCalibrated
                              (mkComputeModel (f64_mul (activation_factor base) scale)
                                 (f64_mul (scratch_factor base) scale) (bytes_of (f64_add intercept short))
                                 (host_overhead base) true)
                              (ft_at_unix f) (bytes_of short))
              | _, _ => Err ShapeUnknown
              end
        end
    | _, _ => Err NoSlope
    end.

Definition compute_model_for (c : Calibration) (machine : MachineFingerprint) (engine : EngineFingerprint)
    (md : Extracted) (p : RuntimeParams) (base : ComputeModel) : result Calibrated Untrusted :=
  match find_fit machine engine (bucket_for md p) c with
  | None => Err NoFit
  | Some f => apply f (model md) base
  end.

Inductive CalibrationOutcome := Applied (c : Calibrated) | Rejected (u : Untrusted) | Unreadable (err : str).

(** [estimator_for]: the coefficients, and why; the file as reading it goes. *)
Definition estimator_for (file : result Calibration str) (machine : MachineFingerprint)
    (engine : EngineFingerprint) (md : Extracted) (p : RuntimeParams) (base : ComputeModel)
    : ComputeModel * CalibrationOutcome :=
  match file with
  | Err err => (base, Unreadable err)
  | Ok c =>
      match compute_model_for c machine engine md p base with
      | Ok calibrated => (cal_compute_model calibrated, Applied calibrated)
      | Err u => (base, Rejected u)
      end
  end.

(** [CalibrationLookup::estimator_for]; [None] is a gateway with no data
    directory. *)
Definition lookup_estimator (file : option (result Calibration str)) (machine : MachineFingerprint)
    (engine : EngineFingerprint) (md : Extracted) (p : RuntimeParams) : ComputeModel * CalibrationOutcome :=
  match file with
  | None => (ComputeModel_headless, Rejected NoFit)
  | Some file => estimator_for file machine engine md p ComputeModel_headless
  end.

(** [CalibrationLookup] as the estimator of the machine's loads. *)
Definition calibrated_machine (file : option (result Calibration str)) (machine : MachineFingerprint)
    (engine : EngineFingerprint) (mc : Machine) : Machine :=
  mkMachine (mc_default_threads mc) (mc_logical_cores mc) (mc_snapshot mc) (mc_default_ctx mc) (mc_usage mc)
    (fun md p => (lookup_estimator file machine engine md p).1).

(** ** The command *)

Record BenchOptions := mkBenchOptions {
  bo_n_ctx : option u32;
  bo_threads : option u32;
  bo_prompt_tokens : u32;
  bo_generate_tokens : u32;
  bo_repetitions : u32;
  bo_ubatch : list u32;
  bo_parallel : list u32;
  bo_fit : bool }.

Inductive BenchFailure :=
| BfMemory (err : str)
| BfDoesNotFit (short : Bytes)
| BfLoad (err : str)
| BfBench (e : BenchError)
| BfUnload (err : str)
| BfNothing
| BfCalibration (err : str).

(** Slots on the outside. *)
Definition sweep (o : BenchOptions) : list (u32 * u32) :=
  concat ((fun slots => (fun ubatch => (slots, ubatch)) <$> bo_ubatch o) <$> bo_parallel o).

Definition bucket_plan (o : BenchOptions) (slots : u32) : RunPlan :=
  mkRunPlan (bo_prompt_tokens o) (bo_generate_tokens o) (bo_repetitions o)
    (SCENARIOS ++ (if 1 <? slots then [ConcurrentDecode] else [])) slots.

Section command.
Context `{Json} {W : Type} `{!BenchWorld W}.

(** The machine and the engine the command brings, of the type of cache and the
    threads it is given. *)
Class CommandWorld := {
  probe_memory : W → result MemorySnapshot str * W;
  load_engine : RuntimeParams → W → result RuntimeParams str * W;
  unload_engine : W → result () str * W }.
Context `{!CommandWorld}.

Definition params_for (o : BenchOptions) (md : Extracted) (cache_type : GgmlType) (default_threads ubatch slots : u32)
    (w : W) : result RuntimeParams BenchFailure * W :=
  let d := RuntimeParams_default in
  let params := mkParams (n_ctx d) (Z.max (n_batch d) ubatch) ubatch (Z.max slots 1) cache_type cache_type
                  (Some (default default_threads (bo_threads o))) (threads_batch d) (poll d) (cache_reuse d)
                  (cpu_range d) (cpu_strict d) (load_mode d) in
  match probe_memory w with
  | (Err err, w) => (Err (BfMemory err), w)
  | (Ok snapshot, w) =>
      let n := match bo_n_ctx o with
               | Some requested => requested
               | None => default (n_ctx params)
                           (largest_safe_context ComputeModel_headless (model md) params snapshot None)
               end in
      (Ok (with_context params n), w)
  end.

Definition measure_bucket (md : Extracted) (params : RuntimeParams) (plan : RunPlan) (w : W)
    : result (list Sample) BenchFailure * W :=
  match probe_memory w with
  | (Err err, w) => (Err (BfMemory err), w)
  | (Ok snapshot, w) =>
      let e := estimate ComputeModel_headless (model md) params snapshot in
      if negb (is_admissible (verdict e)) then (Err (BfDoesNotFit (Estimator.shortfall e)), w)
      else
        match load_engine params w with
        | (Err err, w) => (Err (BfLoad err), w)
        | (Ok effective, w) =>
            let runner := predicting (prediction_of e) (mkRunner effective (default 0 (threads effective)) None) in
            match run_plan runner plan w with
            | (Err e, w) => (Err (BfBench e), w)
            | (Ok samples, w) =>
                match unload_engine w with
                | (Err err, w) => (Err (BfUnload err), w)
                | (Ok _, w) => (Ok samples, w)
                end
            end
        end
  end.

Fixpoint measure_sweep (o : BenchOptions) (md : Extracted) (cache_type : GgmlType) (default_threads : u32)
    (l : list (u32 * u32)) (samples : list Sample) (w : W) : result (list Sample) BenchFailure * W :=
  match l with
  | [] => (Ok samples, w)
  | (slots, ubatch) :: l =>
      match params_for o md cache_type default_threads ubatch slots w with
      | (Err e, w) => (Err e, w)
      | (Ok params, w) =>
          match measure_bucket md params (bucket_plan o slots) w with
          | (Err e, w) => (Err e, w)
          | (Ok more, w) => measure_sweep o md cache_type default_threads l (samples ++ more) w
          end
      end
  end.

Definition insert_fits (fits : list Fit) (c : Calibration) : Calibration :=
  foldl (fun c f => insert_fit f c) c fits.

(** What the command has of where it runs: [nanos] and [now] are the times a
    run's id and the rest are made at; how saving the run and the calibration
    go, [None] being well. *)
Record BenchSetting := mkBenchSetting {
  bs_default_threads : u32;
  bs_machine : MachineFingerprint;
  bs_engine : EngineFingerprint;
  bs_model_name : str;
  bs_nanos : Z;
  bs_now : Z;
  bs_unsaved : option str;
  bs_calibration_unsaved : option str }.

(** [bench::run]: the run that was saved and the fits that were, with the
    directory of runs and the calibration file after it. *)
Definition bench_run `{RunFormat} (b : BenchSetting) (o : BenchOptions) (md : Extracted) (cache_type : GgmlType)
    (d : Directory) (file : result Calibration str) (w : W)
    : result (BenchmarkRun * list Fit) BenchFailure * Directory * result Calibration str * W :=
  match measure_sweep o md cache_type (bs_default_threads b) (sweep o) [] w with
  | (Err e, w) => (Err e, d, file, w)
  | (Ok [], w) => (Err BfNothing, d, file, w)
  | (Ok samples, w) =>
      let r := mkBenchmarkRun (new_run_id (bs_nanos b)) (bs_now b / 1000000000) (bs_machine b) (bs_engine b)
                 (mkModelFp (bs_model_name b) (architecture md) (quantization_label md) (param_count md))
                 samples in
      match store_save r (bs_now b) (bs_unsaved b) d with
      | (Err e, d) => (Err (BfBench e), d, file, w)
      | (Ok _, d) =>
          if bo_fit o
          then
            match file with
            | Err err => (Err (BfCalibration err), d, file, w)
            | Ok c =>
                let fits := fit_run r in
                match bs_calibration_unsaved b with
                | Some err => (Err (BfCalibration err), d, file, w)
                | None => (Ok (r, fits), d, Ok (insert_fits fits c), w)
                end
            end
          else (Ok (r, []), d, file, w)
      end
  end.

End command.

(** ** What holds of the calibration

    A load finds the measurement that was made of it, and one it has not earned
    changes nothing. *)

(** ** Orders of keys *)

Class Ordering {A} (P : A → Prop) (c : A → A → comparison) : Prop := {
  ord_refl x : c x x = Eq;
  ord_eq x y : P x → P y → c x y = Eq → x = y;
  ord_antisym x y : c y x = CompOpp (c x y);
  ord_trans x y z : P x → P y → P z → c x y = Lt → c y z = Lt → c x z = Lt }.

#[local] Instance Z_ordering : Ordering (λ _, True) Z.compare.
Proof.
  split; intros *.
  - apply Z.compare_refl.
  - intros _ _. apply Z.compare_eq.
  - apply Z.compare_antisym.
  - intros _ _ _. rewrite !Z.compare_lt_iff. lia.
Qed.

#[local] Instance str_ordering : Ordering text str_cmp.
Proof.
  split; intros *.
  - apply str_cmp_refl.
  - intros Hx Hy. by apply str_cmp_Eq.
  - apply bytes_cmp_antisym.
  - intros _ _ _ H1 H2. unfold str_cmp in *. eapply bytes_cmp_trans; [done|by rewrite H2].
Qed.

(** A string that does not vary. *)
#[local] Instance fixed_ordering s : Ordering (eq s) str_cmp.
Proof.
  split; intros *; [apply str_cmp_refl|by intros <- <-|apply bytes_cmp_antisym|].
  intros <- <- <-. by rewrite str_cmp_refl.
Qed.

(** One part of a key, and then another. *)
Section pairs.
Context {A B} (P : A → Prop) (Q : B → Prop) (c : A → A → comparison) (d : B → B → comparison).
Context `{!Ordering P c, !Ordering Q d}.

Lemma pair_ordering :
  Ordering (λ x, P x.1 ∧ Q x.2) (λ x y, then_by (c x.1 y.1) (d x.2 y.2)).
Proof.
  split.
  - intros [x1 x2]. simpl. by rewrite !ord_refl.
  - intros [x1 x2] [y1 y2] [??] [??]. simpl in *. destruct (c x1 y1) eqn:E; [|done..]. simpl. intros Ed.
    apply ord_eq in E, Ed; [by subst|done..].
  - intros [x1 x2] [y1 y2]. simpl. rewrite (ord_antisym (c := c) x1 y1), (ord_antisym (c := d) x2 y2). by destruct (c x1 y1).
  - intros [x1 x2] [y1 y2] [z1 z2] [??] [??] [??]. simpl in *.
    destruct (c x1 y1) eqn:E; [| |done]; simpl.
    + apply ord_eq in E as <-; [|done..]. destruct (c x1 z1) eqn:E1; simpl; [|done..].
      by apply ord_trans.
    + intros _. destruct (c y1 z1) eqn:E1; [| |done]; simpl; intros ?.
      * apply ord_eq in E1 as <-; [|done..]. by rewrite E.
      * by rewrite (ord_trans x1 y1 z1).
Qed.

End pairs.

(** ** The buckets of a run *)

Definition key_parts (k : BucketKey) : str * (str * (u32 * (u32 * (str * str)))) :=
  (bk_architecture k, (bk_quantization k, (bk_n_ctx k, (bk_n_parallel k, (bk_cache_type_k k, bk_cache_type_v k))))).

Lemma key_parts_inj k k' : key_parts k = key_parts k' → k = k'.
Proof. by destruct k, k'; intros [= -> -> -> -> -> ->]. Qed.

(** A key of a run: what the model is does not vary, and the types are named. *)
Definition key_of (r : BenchmarkRun) (k : BucketKey) : Prop :=
  mp_architecture (br_model r) = bk_architecture k ∧ mp_quantization (br_model r) = bk_quantization k
  ∧ True ∧ True ∧ text (bk_cache_type_k k) ∧ text (bk_cache_type_v k).

#[local] Instance key_ordering r : Ordering (key_of r) bucket_cmp.
Proof.
  pose proof (pair_ordering text text str_cmp str_cmp) as H5.
  pose proof (pair_ordering (λ _, True) _ Z.compare _ (Ordering1 := H5)) as H4.
  pose proof (pair_ordering (λ _, True) _ Z.compare _ (Ordering1 := H4)) as H3.
  pose proof (pair_ordering (eq (mp_quantization (br_model r))) _ str_cmp _ (Ordering1 := H3)) as H2.
  pose proof (pair_ordering (eq (mp_architecture (br_model r))) _ str_cmp _ (Ordering1 := H2)) as H1.
  split; intros *.
  - exact (@ord_refl _ _ _ H1 (key_parts x)).
  - intros Hx Hy He. apply key_parts_inj. exact (@ord_eq _ _ _ H1 (key_parts x) (key_parts y) Hx Hy He).
  - exact (@ord_antisym _ _ _ H1 (key_parts x) (key_parts y)).
  - exact (@ord_trans _ _ _ H1 (key_parts x) (key_parts y) (key_parts z)).
Qed.

Lemma type_name_text t : text (type_name t).
Proof. apply Forall_forall. intros c Hc. apply (elem_forallb is_char (type_name t)); [done|by destruct t]. Qed.

Lemma sample_point_key r s k p : sample_point r s = Some (k, p) → key_of r k.
Proof.
  unfold sample_point, key_of. intros H. destruct (sa_predicted s); [|done]. simpl in H.
  destruct (sa_peak_rss s); [|done]. simpl in H. destruct (checked_sub _ _); [|done].
  injection H as <- <-. split_and!; [done..|apply type_name_text|apply type_name_text].
Qed.

(** What [push_point] does to the entry of every key, in an ordered map. *)
Section push.
Context (r : BenchmarkRun).
Abbreviation entries := (list (BucketKey * list ResidualPoint)).

Definition key_lt (a b : BucketKey * list ResidualPoint) : Prop := bucket_cmp a.1 b.1 = Lt.

Definition proper_map (l : entries) : Prop :=
  StronglySorted key_lt l ∧ Forall (λ e, key_of r e.1 ∧ e.2 ≠ []) l.

Definition entry (k : BucketKey) (l : entries) : list ResidualPoint :=
  default [] (snd <$> find_first (fun e => bool_decide (e.1 = k)) l).

Lemma entry_cons k e l : entry k (e :: l) = if decide (e.1 = k) then e.2 else entry k l.
Proof. unfold entry. simpl. case_bool_decide; by case_decide. Qed.

Lemma entry_fresh k l : (∀ e, e ∈ l → e.1 ≠ k) → entry k l = [].
Proof.
  induction l as [|e l IH]; intros H; [done|]. rewrite entry_cons, decide_False by (apply H; left).
  apply IH. intros e' He'. apply H. by right.
Qed.

Lemma below_all k k' l :
  key_of r k → key_of r k' → StronglySorted key_lt l → Forall (λ e, key_of r e.1 ∧ e.2 ≠ []) l →
  bucket_cmp k k' = Lt → Forall (λ e, bucket_cmp k' e.1 = Lt) l → ∀ e, e ∈ l → e.1 ≠ k.
Proof.
  intros Hk Hk' _ Hf Hlt Hall e He <-. rewrite Forall_forall in Hall. specialize (Hall e He).
  rewrite (ord_antisym (P := key_of r)), Hlt in Hall. done.
Qed.

Lemma push_point_keys (Q : BucketKey → Prop) k p l :
  Q k → Forall (λ e, Q e.1) l → Forall (λ e, Q e.1) (push_point k p l).
Proof.
  intros Hk. induction 1 as [|[k' ps] l Hk' Hl IH]; simpl; [by repeat constructor|].
  destruct (bucket_cmp k k'); by repeat constructor.
Qed.

Lemma push_point_spec k p l :
  key_of r k → proper_map l →
  proper_map (push_point k p l) ∧
  ∀ k', entry k' (push_point k p l) = entry k' l ++ (if decide (k = k') then [p] else []).
Proof.
  intros Hk. induction l as [|[k1 ps] l IH]; intros [Hs Hf]; simpl.
  { split; [split; [by constructor|by apply Forall_singleton]|]. intros k'. rewrite entry_cons. simpl. by case_decide. }
  apply StronglySorted_inv in Hs as [Hs Hlt]. apply Forall_cons in Hf as [[Hk1 Hps] Hf].
  destruct (bucket_cmp k k1) eqn:E.
  - apply (ord_eq (P := key_of r)) in E as <-; [|done..]. split.
    { split; [by constructor|]. constructor; [|done]. split; [done|]. simpl. by destruct ps. }
    intros k'. rewrite !entry_cons. simpl. case_decide; [done|]. by rewrite (right_id_L [] (++)).
  - split.
    { split; [|constructor; [done|by constructor]]. constructor; [by constructor|]. constructor; [done|].
      rewrite Forall_forall in Hlt |- *. rewrite Forall_forall in Hf. intros e He.
      apply (ord_trans (P := key_of r) _ k1); [done..|by apply (Hf e He)|done|by apply Hlt]. }
    intros k'. rewrite entry_cons. simpl. case_decide as Hd; [|by rewrite (right_id_L [] (++))]. subst k'.
    rewrite entry_fresh; [done|]. intros e [->|He]%elem_of_cons; simpl.
    + intros ->. by rewrite (ord_refl (P := key_of r)) in E.
    + by apply (below_all k k1 l).
  - destruct (IH (conj Hs Hf)) as [[Hs' Hf'] He]. split.
    { split; [|by constructor]. constructor; [done|].
      apply (push_point_keys (λ k, bucket_cmp k1 k = Lt)); [|done].
      by rewrite (ord_antisym (P := key_of r) k k1), E. }
    intros k'. rewrite !entry_cons. simpl. case_decide as Hd; [|by apply He]. subst k'.
    rewrite decide_False; [by rewrite (right_id_L [] (++))|]. intros ->.
    by rewrite (ord_refl (P := key_of r)) in E.
Qed.

(** The points of the samples of a key, in the order they were taken. *)
Definition points_of (k : BucketKey) (l : list Sample) : list ResidualPoint :=
  omap (fun s => let! '(k', p) := sample_point r s in if decide (k' = k) then Some p else None) l.

Lemma buckets_spec : proper_map (buckets r) ∧ ∀ k, entry k (buckets r) = points_of k (br_samples r).
Proof.
  unfold buckets. set (step := fun l s => _).
  enough (Hgen : ∀ l acc, proper_map acc →
    proper_map (foldl step acc l) ∧ ∀ k, entry k (foldl step acc l) = entry k acc ++ points_of k l).
  { apply (Hgen (br_samples r) []). by split; constructor. }
  induction l as [|s l IH]; intros acc Hacc; simpl; [split; [done|]; intros k; by rewrite (right_id_L [] (++))|].
  assert (Hstep : proper_map (step acc s) ∧ ∀ k, entry k (step acc s) = entry k acc ++ points_of k [s]).
  { unfold step, points_of. simpl. destruct (sample_point r s) as [[k0 p]|] eqn:E; simpl.
    - destruct (push_point_spec k0 p acc) as [Hp He]; [by eapply sample_point_key|done|].
      split; [done|]. intros k. rewrite He. by case_decide.
    - split; [done|]. intros k. by rewrite (right_id_L [] (++)). }
  destruct Hstep as [Hp He]. destruct (IH _ Hp) as [Hp' He']. split; [done|]. intros k.
  rewrite He', He, <-(assoc_L (++)). f_equal. unfold points_of. simpl.
  by destruct (let! '(k', p) := _ in _).
Qed.

Lemma keys_apart l e e' : proper_map l → e ∈ l → e' ∈ l → e.1 = e'.1 → e = e'.
Proof.
  intros [Hs _]. induction Hs as [|x l Hs IH Hx]; [by intros ?%not_elem_of_nil|].
  rewrite Forall_forall in Hx. intros [->|He]%elem_of_cons [->|He']%elem_of_cons Heq; auto.
  - apply Hx in He'. unfold key_lt in He'. by rewrite Heq, (ord_refl (P := key_of r)) in He'.
  - apply Hx in He. unfold key_lt in He. by rewrite Heq, (ord_refl (P := key_of r)) in He.
Qed.

(** A run is fitted bucket by bucket: each key that a sample has, once, with
    the points of all of its samples. *)
Lemma elem_of_buckets k ps : (k, ps) ∈ buckets r ↔ ps = points_of k (br_samples r) ∧ ps ≠ [].
Proof.
  destruct buckets_spec as [Hp He]. rewrite <-He. unfold entry. split.
  - intros Hin. destruct (find_first_is_Some (fun e => bool_decide (e.1 = k)) (buckets r) (k, ps)) as [e Hf];
      [done|by apply bool_decide_eq_true|].
    rewrite Hf. simpl. apply find_first_Some in Hf as [Hi Hk%bool_decide_eq_true].
    rewrite (keys_apart _ _ _ Hp Hi Hin Hk). split; [done|].
    destruct Hp as [_ Hf]. rewrite Forall_forall in Hf. by apply (Hf (k, ps)).
  - intros [-> Hne]. destruct (find_first _ _) as [[k' ps]|] eqn:Hf; [|done].
    apply find_first_Some in Hf as [Hi Hk%bool_decide_eq_true]. simpl in *. by subst.
Qed.

End push.

Arguments points_of r k l : assert.

(** ** Finding a fit *)

Definition hardware (m : MachineFingerprint) : option str * u32 * u32 * list str * str * str :=
  (mf_cpu_model m, mf_physical_cores m, mf_logical_cores m, mf_isa_features m, mf_architecture m, mf_os m).

Lemma machine_matches_spec a b : machine_matches a b = true ↔ hardware a = hardware b.
Proof.
  unfold machine_matches, hardware. rewrite !andb_true_iff, !bool_decide_eq_true, !Z.eqb_eq.
  split; [by intros [[[[[-> ->] ->] ->] ->] ->]|by intros [= -> -> -> -> -> ->]].
Qed.

Lemma engine_matches_spec a b : engine_matches a b = true ↔ a = b.
Proof.
  unfold engine_matches. rewrite !andb_true_iff, !bool_decide_eq_true. destruct a, b; simpl.
  split; [by intros [[-> ->] ->]|by intros [= -> -> ->]].
Qed.

Lemma describes_spec m e k f :
  describes m e k f = true ↔ hardware (ft_machine f) = hardware m ∧ ft_engine f = e ∧ ft_bucket f = k.
Proof.
  unfold describes. rewrite !andb_true_iff, machine_matches_spec, engine_matches_spec, bool_decide_eq_true. tauto.
Qed.

Lemma find_first_app {A} (p : A → bool) l l' :
  find_first p (l ++ l') = match find_first p l with Some x => Some x | None => find_first p l' end.
Proof. induction l as [|x l IH]; simpl; [done|]. by destruct (p x). Qed.

Lemma find_first_filter {A} (p q : A → bool) l :
  (∀ x, p x = true → q x = true) → find_first p (List.filter q l) = find_first p l.
Proof.
  intros H. induction l as [|x l IH]; simpl; [done|]. destruct (q x) eqn:Eq; simpl; [by rewrite IH|].
  destruct (p x) eqn:Ep; [|done]. by rewrite H in Eq.
Qed.

Lemma find_insert m e k f c :
  find_fit m e k (insert_fit f c) = if describes m e k f then Some f else find_fit m e k c.
Proof.
  unfold find_fit, insert_fit. rewrite find_first_app. simpl.
  destruct (describes m e k f) eqn:E.
  - destruct (find_first _ (List.filter _ c)) as [f'|] eqn:Hf; [|done]. exfalso.
    apply find_first_Some in Hf as [Hin Hd]. apply list_elem_of_In, filter_In in Hin as [_ Hn].
    apply negb_true_iff in Hn. apply describes_spec in E as (E1 & E2 & E3), Hd as (D1 & D2 & D3).
    rewrite (proj2 (describes_spec _ _ _ _)) in Hn; [done|]. split_and!; congruence.
  - rewrite find_first_filter; [by destruct (find_first _ c)|]. intros f' Hd.
    apply negb_true_iff, not_true_is_false. intros D. apply not_true_iff_false in E. apply E.
    apply describes_spec in Hd as (E1 & E2 & E3), D as (D1 & D2 & D3). apply describes_spec.
    split_and!; congruence.
Qed.

Lemma find_insert_fits m e k fits c :
  find_fit m e k (insert_fits fits c) =
  match find_first (describes m e k) (reverse fits) with Some f => Some f | None => find_fit m e k c end.
Proof.
  unfold insert_fits. revert c. induction fits as [|f fits IH]; intros c; simpl; [done|].
  rewrite IH, reverse_cons, find_first_app, find_insert. simpl.
  destruct (find_first _ (reverse fits)); [done|]. by destruct (describes m e k f).
Qed.

Lemma find_run m e k r c p :
  hardware (br_machine r) = hardware m → br_engine r = e → p ∈ points_of r k (br_samples r) →
  find_fit m e k (insert_fits (fit_run r) c) = Some (fit_bucket r (k, points_of r k (br_samples r))).
Proof.
  intros Hm He Hp. rewrite find_insert_fits. set (ps := points_of r k (br_samples r)) in *.
  assert (Hb : (k, ps) ∈ buckets r).
  { apply elem_of_buckets. split; [done|]. intros E. rewrite E in Hp. by apply not_elem_of_nil in Hp. }
  destruct (find_first_is_Some (describes m e k) (reverse (fit_run r)) (fit_bucket r (k, ps))) as [f Hf].
  - apply elem_of_reverse, list_elem_of_fmap. eauto.
  - by apply describes_spec.
  - rewrite Hf. f_equal. apply find_first_Some in Hf as [Hi Hd%describes_spec].
    apply elem_of_reverse, list_elem_of_fmap in Hi as [[k' ps'] [-> Hi]]. simpl in Hd.
    destruct Hd as (_ & _ & <-). f_equal. f_equal. apply elem_of_buckets in Hi as [-> _]. done.
Qed.

(** ** What a load is judged by *)

(** A fit that may be spent on a load of [md] with [p]. *)
Record earned (c : Calibration) (machine : MachineFingerprint) (engine : EngineFingerprint) (md : Extracted)
    (p : RuntimeParams) (f : Fit) : Prop := {
  er_listed : f ∈ c;
  er_machine : hardware (ft_machine f) = hardware machine;
  er_engine : ft_engine f = engine;
  er_bucket : ft_bucket f = bucket_for md p;
  er_sizes : (MIN_UBATCH_VALUES ≤ length (remove_dups (pt_n_ubatch <$> ft_points f)))%nat;
  er_line : ∃ slope intercept r,
    ft_compute_bytes_per_ubatch f = Some slope ∧ ft_overhead_bytes f = Some intercept ∧
    ft_r_squared f = Some r ∧ f64_lt r MIN_R_SQUARED = false ∧
    f64_lt slope f64_0 = false ∧ f64_lt intercept f64_0 = false }.

Lemma apply_Ok f m base k :
  apply f m base = Ok k →
  (MIN_UBATCH_VALUES ≤ length (remove_dups (pt_n_ubatch <$> ft_points f)))%nat ∧
  (∃ slope intercept r,
    ft_compute_bytes_per_ubatch f = Some slope ∧ ft_overhead_bytes f = Some intercept ∧
    ft_r_squared f = Some r ∧ f64_lt r MIN_R_SQUARED = false ∧
    f64_lt slope f64_0 = false ∧ f64_lt intercept f64_0 = false) ∧
  measured (cal_compute_model k) = true ∧ host_overhead (cal_compute_model k) = host_overhead base ∧
  cal_fit_at_unix k = ft_at_unix f.
Proof.
  unfold apply. destruct (Nat.ltb_spec (length (remove_dups (pt_n_ubatch <$> ft_points f))) MIN_UBATCH_VALUES);
    [done|].
  destruct (ft_compute_bytes_per_ubatch f) as [slope|], (ft_overhead_bytes f) as [intercept|]; try done.
  destruct (ft_r_squared f) as [r|]; [|done]. destruct (f64_lt r _) eqn:Er; [done|].
  destruct (f64_lt slope f64_0 || f64_lt intercept f64_0) eqn:En; [done|]. apply orb_false_iff in En as [En1 En2].
  destruct (vocab_size m), (embedding_length m); try done.
  destruct (SFeqb _ _); [done|]. destruct (f64_le _ _); [done|].
  destruct (f64_lt (f64_sub _ _) f64_0); [done|].
  intros Hk. injection Hk as Hk. subst k. simpl. split_and!; [done|by exists slope, intercept, r|done..].
Qed.

Lemma compute_model_for_Ok c machine engine md p base k :
  compute_model_for c machine engine md p base = Ok k →
  ∃ f, earned c machine engine md p f ∧ apply f (model md) base = Ok k.
Proof.
  unfold compute_model_for. destruct (find_fit _ _ _ c) as [f|] eqn:Hf; [|done]. intros Ha. exists f. split; [|done].
  apply find_first_Some in Hf as [Hin (Hm & He & Hb)%describes_spec]. apply apply_Ok in Ha as (Hs & Hl & _). done.
Qed.

Lemma lookup_estimator_cases file machine engine md p :
  let '(cm, outcome) := lookup_estimator file machine engine md p in
  match outcome with
  | Applied k => cm = cal_compute_model k ∧
      ∃ c f, file = Some (Ok c) ∧ earned c machine engine md p f ∧
        apply f (model md) ComputeModel_headless = Ok k
  | Rejected _ => cm = ComputeModel_headless
  | Unreadable err => cm = ComputeModel_headless ∧ file = Some (Err err)
  end.
Proof.
  unfold lookup_estimator. destruct file as [[c|err]|]; [|done..]. simpl.
  destruct (compute_model_for _ _ _ _ _ _) as [k|u] eqn:E; [|done]. split; [done|].
  apply compute_model_for_Ok in E as (f & He & Ha). eauto.
Qed.

Lemma estimate_Measured cm m p b : Estimator.confidence (estimate_against cm m p b) = Measured → measured cm = true.
Proof.
  unfold estimate_against. destruct (md_weight_bytes m) as [w|], (kv_cache_bytes m p) as [kv g1],
    (compute_bytes cm m p) as [n g2]; simpl; [|done]. destruct (g1 ++ g2); [|done]. by destruct (measured cm).
Qed.

Lemma judge_estimator defaults o mc resident id md cms :
  (∀ p, mc_estimator mc md p = cms md p) →
  judge defaults o mc resident id md
  = judge defaults o (mkMachine (mc_default_threads mc) (mc_logical_cores mc) (mc_snapshot mc) (mc_default_ctx mc)
                        (mc_usage mc) cms) resident id md.
Proof.
  intros H. unfold judge. simpl. destruct (mc_snapshot mc); [|done]. by rewrite H.
Qed.

(** C24: a calibration may tighten a load's estimate, and may never cost a load.
    Where the file is missing or cannot be read, or no fit in it may be spent
    on the load, the load is judged exactly as with the shipped coefficients,
    refusals included.  And an estimate that says it was measured rests on a fit
    in the file, of this hardware, this engine build and this very bucket, with
    at least three batch sizes, a line that accounts for the spread and no
    negative term. *)
Theorem only_an_earned_fit_is_spent defaults o mc resident id md file machine engine :
  let calibrated := calibrated_machine file machine engine mc in
  let shipped := calibrated_machine None machine engine mc in
  ((∀ p c f, file = Some (Ok c) → ¬ earned c machine engine md p f) →
   judge defaults o calibrated resident id md = judge defaults o shipped resident id md) ∧
  ∀ p e, judge defaults o calibrated resident id md = Ok (p, Some e) →
    (Estimator.confidence e = Measured → ∃ c f, file = Some (Ok c) ∧ earned c machine engine md p f) ∧
    host_overhead (lookup_estimator file machine engine md p).1 = host_overhead ComputeModel_headless.
Proof.
  intros calibrated shipped. split.
  - intros Hno. apply (judge_estimator _ _ calibrated _ _ _ (mc_estimator shipped)). intros p. simpl.
    pose proof (lookup_estimator_cases file machine engine md p) as Hc.
    destruct (lookup_estimator file machine engine md p) as [cm [k|u|err]]; simpl.
    + destruct Hc as (_ & c & f & Hf & He & _). by destruct (Hno p c f).
    + done.
    + by destruct Hc.
  - intros p e Hj. pose proof (judge_cases defaults o calibrated resident id md) as Hc. rewrite Hj in Hc.
    destruct Hc as (_ & _ & _ & Hb). unfold judged_by in Hb. simpl in Hb.
    pose proof (lookup_estimator_cases file machine engine md p) as Hl.
    destruct (lookup_estimator file machine engine md p) as [cm outcome]. simpl in *. split.
    + destruct (mc_snapshot mc); [|done]. destruct Hb as (He & _). rewrite He. intros Hm%estimate_Measured.
      destruct outcome as [k|u|err]; [|by rewrite Hl in Hm|by destruct Hl as [-> _]].
      destruct Hl as (_ & c & f & Hf & Hr & _). eauto.
    + destruct outcome as [k|u|err]; [|by rewrite Hl|by destruct Hl as [-> _]].
      destruct Hl as (-> & c & f & _ & _ & Ha). by apply apply_Ok in Ha as (_ & _ & _ & -> & _).
Qed.

(** ** From a benchmark to a load *)

Lemma sample_key r s k pt md p :
  sample_point r s = Some (k, pt) →
  mp_architecture (br_model r) = architecture md → mp_quantization (br_model r) = quantization_label md →
  n_ctx p = n_ctx (sa_params s) → n_parallel p = n_parallel (sa_params s) →
  cache_type_k p = cache_type_k (sa_params s) → cache_type_v p = cache_type_v (sa_params s) →
  bucket_for md p = k.
Proof.
  unfold sample_point, bucket_for. intros Hs Ha Hq -> -> -> ->. destruct (sa_predicted s); [|done]. simpl in Hs.
  destruct (sa_peak_rss s); [|done]. simpl in Hs. destruct (checked_sub _ _); [|done].
  injection Hs as <- <-. by rewrite Ha, Hq.
Qed.

Lemma elem_of_points r k l s pt : s ∈ l → sample_point r s = Some (k, pt) → pt ∈ points_of r k l.
Proof.
  intros Hs Hp. unfold points_of. apply list_elem_of_omap. exists s. split; [done|]. rewrite Hp. simpl.
  by rewrite decide_True.
Qed.

Lemma max_residual_above r k ps q : q ∈ ps → pt_residual q ≤ ft_max_residual (fit_bucket r (k, ps)).
Proof.
  unfold fit_bucket. cbn [ft_max_residual]. induction ps as [|x ps IH]; [by intros ?%not_elem_of_nil|].
  intros [->|Hq]%elem_of_cons; csimpl; [lia|]. specialize (IH Hq). lia.
Qed.

Section command.
Context `{Json} `{RunFormat} {W : Type} `{!BenchWorld W} `{!CommandWorld (W := W)}.

Lemma bench_run_fitted b o md cache_type d file w r fits d' file' w' :
  bench_run b o md cache_type d file w = (Ok (r, fits), d', file', w') → bo_fit o = true →
  br_machine r = bs_machine b ∧ br_engine r = bs_engine b ∧ mp_architecture (br_model r) = architecture md ∧
  mp_quantization (br_model r) = quantization_label md ∧ br_at_unix r = bs_now b / 1000000000 ∧
  fits = fit_run r ∧ ∃ c, file = Ok c ∧ file' = Ok (insert_fits fits c).
Proof.
  unfold bench_run. intros Hrun Hfit. rewrite Hfit in Hrun.
  destruct (measure_sweep _ _ _ _ _ _ _) as [[[|s l]|e] w1]; [done| |done].
  destruct (store_save _ _ _ _) as [[name|e] d1]; [|done]. destruct file as [c|err]; [|done].
  destruct (bs_calibration_unsaved b); [done|]. injection Hrun as <- <- <- <- <-. simpl. eauto 10.
Qed.

(** C25: what [bench --fit] measures is what the load path finds.  After a run
    that succeeds, a load of the same model on the same hardware and engine,
    with the context, slots and cache types of any usable sample of the run, is
    judged by one fit: the one made of exactly that bucket's samples, with that
    sample's point among them and its largest residual over each of theirs.  A
    key the run did not measure finds what it found before. *)
Theorem a_load_finds_its_measurement b o md cache_type d file w r fits d' file' w' machine engine :
  bench_run b o md cache_type d file w = (Ok (r, fits), d', file', w') → bo_fit o = true →
  machine_matches (bs_machine b) machine = true → engine_matches (bs_engine b) engine = true →
  ∃ c c', file = Ok c ∧ file' = Ok c' ∧
  (∀ s k pt p, s ∈ br_samples r → sample_point r s = Some (k, pt) →
    n_ctx p = n_ctx (sa_params s) → n_parallel p = n_parallel (sa_params s) →
    cache_type_k p = cache_type_k (sa_params s) → cache_type_v p = cache_type_v (sa_params s) →
    ∃ f, f ∈ fits ∧ pt ∈ ft_points f ∧ ft_points f = points_of r k (br_samples r) ∧
      (∀ q, q ∈ ft_points f → pt_residual q ≤ ft_max_residual f) ∧
      ∀ base, compute_model_for c' machine engine md p base = apply f (model md) base) ∧
  ∀ k, points_of r k (br_samples r) = [] →
    find_fit machine engine k c' = find_fit machine engine k c.
Proof.
  intros Hrun Hfit Hm%machine_matches_spec He%engine_matches_spec.
  destruct (bench_run_fitted _ _ _ _ _ _ _ _ _ _ _ _ Hrun Hfit)
    as (Hbm & Hbe & Hba & Hbq & _ & -> & c & -> & ->).
  exists c, (insert_fits (fit_run r) c). split; [done|]. split; [done|]. split.
  - intros s k pt p Hs Hp H1 H2 H3 H4. pose proof (elem_of_points r k _ _ _ Hs Hp) as Hpt.
    rewrite <-Hbm in Hm. rewrite <-Hbe in He. exists (fit_bucket r (k, points_of r k (br_samples r))). split_and!.
    + apply list_elem_of_fmap. eexists. split; [done|]. apply elem_of_buckets. split; [done|].
      intros E. rewrite E in Hpt. by apply not_elem_of_nil in Hpt.
    + done.
    + done.
    + intros q Hq. by apply max_residual_above.
    + intros base. unfold compute_model_for. rewrite (sample_key r s k pt md p) by done.
      by rewrite (find_run machine engine k r c pt).
  - intros k Hk. rewrite find_insert_fits.
    destruct (find_first _ _) as [f|] eqn:Hf; [|done]. exfalso.
    apply find_first_Some in Hf as [Hi (_ & _ & Hb)%describes_spec].
    apply elem_of_reverse, list_elem_of_fmap in Hi as [[k' ps] [-> Hi]]. simpl in Hb. subst k'.
    apply elem_of_buckets in Hi as [-> Hne]. done.
Qed.

End command.

(** ** A sweep, and what is loaded after it *)

Section demo.
#[local] Existing Instance silent_json.

Definition small_model : Extracted :=
  mkExtracted (lit "llama") true None
    (mkMetadata (Some 4096) (Some 2) (Some 64) (Some 128) (Some 2) (Some [2]) (Some 32) (Some 32) (Some 1000)
       (Some 10000000))
    None None (mkTokenizer None None None None None None None None None false None) None
    (mkMix None []) 0 None 3 32 [].

Definition small_snapshot : MemorySnapshot := mkSnapshot (2 ^ 34) (2 ^ 33) (2 ^ 32) 0 0.

(** What an engine of each batch size takes beyond what is computed exactly. *)
Definition beyond (ubatch : u32) : u64 :=
  if ubatch =? 128 then 100001044 else if ubatch =? 256 then 105000482 else 115002029.

Definition small_usage (p : RuntimeParams) : ResourceSnapshot :=
  let e := estimate ComputeModel_headless (model small_model) p small_snapshot in
  let peak := exact (prediction_of e) + beyond (n_ubatch p) in
  mkResources peak peak ResidentSet None None.

(** An engine that counts words, and answers with one; the state is what it was
    launched with. *)
#[local] Instance word_engine : BenchWorld RuntimeParams := {|
  count_tokens g w :=
    (Ok (foldr (fun m n => Z.of_nat (length (List.filter (Z.eqb 32) (cm_content m))) + n) 0 (request_messages g)), w);
  generate_together l w :=
    ((fun _ => mkObservation None (Some (small_usage w)) None None
                 (Ok [(5, Ok (ContentDelta (lit "a")));
                      (9, Ok (TimingsMeasured (mkTimings 60 (f64_of 30) 1 (f64_of 4) 0)))]) 9 None) <$> l, w) |}.

#[local] Instance word_command : CommandWorld (W := RuntimeParams) := {|
  probe_memory w := (Ok small_snapshot, w);
  load_engine p w := (Ok p, p);
  unload_engine w := (Ok tt, w) |}.

#[local] Instance deaf_format : RunFormat := {| run_bytes _ := Ok [123; 125]; run_parse _ := None |}.

Definition this_machine : MachineFingerprint :=
  mkMachineFp (Some (lit "A Processor")) 4 8 [lit "avx2"] (2 ^ 34) (lit "linux") (lit "x86_64").
Definition this_engine : EngineFingerprint := mkEngineFp (lit "llama.cpp") (Some (lit "b10590")) (Some (lit "haswell")).

Definition small_setting : BenchSetting :=
  mkBenchSetting 4 this_machine this_engine (lit "small") (2 ^ 60 + 5) 1750000000000000000 None None.

Definition small_options : BenchOptions := mkBenchOptions (Some 2048) None 64 8 1 [128; 256; 512] [1] true.

Definition small_bench :=
  bench_run small_setting small_options small_model F16 [] (Ok []) RuntimeParams_default.

Definition small_fits : list Fit := match small_bench.1.1.1 with Ok (_, fits) => fits | Err _ => [] end.
Definition small_run : option BenchmarkRun := match small_bench.1.1.1 with Ok (r, _) => Some r | Err _ => None end.

Example small_bench_fits :
  (sa_scenario <$> (from_option br_samples [] small_run)) =
    [ColdPrefill; CachedPrefill; Decode; ColdPrefill; CachedPrefill; Decode; ColdPrefill; CachedPrefill; Decode] ∧
  (br_id <$> small_run) = Some (lit "1000000000000005") ∧
  (remove_dups (pt_residual <$> (small_fits ≫= ft_points))) = [100001044; 105000482; 115002029].
Proof. vm_compute. split_and!; reflexivity. Qed.

(** A load of the same shape as the fourth sample, with the calibration of the
    sweep. *)
Definition small_params : RuntimeParams :=
  mkParams 2048 2048 256 1 F16 F16 (Some 4) None None None None false None.

Definition small_sample : option (BenchmarkRun * Sample * BucketKey * ResidualPoint) :=
  let! r := small_run in
  let! s := br_samples r !! 3%nat in
  let! '(k, pt) := sample_point r s in Some (r, s, k, pt).

Definition shape (p : RuntimeParams) : u32 * u32 * GgmlType * GgmlType :=
  (n_ctx p, n_parallel p, cache_type_k p, cache_type_v p).

Example small_sample_shape :
  (fun '(r, s, k, pt) => (shape (sa_params s), pt_residual pt)) <$> small_sample
  = Some (shape small_params, 105000482).
Proof. vm_compute. reflexivity. Qed.

Lemma small_sample_cases r s k pt :
  small_sample = Some (r, s, k, pt) →
  small_bench = (Ok (r, small_fits), small_bench.1.1.2, small_bench.1.2, small_bench.2) ∧
  s ∈ br_samples r ∧ sample_point r s = Some (k, pt).
Proof.
  unfold small_sample, small_run, small_fits. destruct small_bench as [[[[[r0 fits]|e] d'] file'] w']; simpl; [|done].
  destruct (br_samples r0 !! 3%nat) as [s0|] eqn:Hs; simpl; [|done].
  destruct (sample_point r0 s0) as [[k0 pt0]|] eqn:Hp; simpl; [|done]. intros [= <- <- <- <-].
  split_and!; [done|by eapply list_elem_of_lookup_2|done].
Qed.

Lemma a_load_finds_its_measurement_witness :
  ∃ r s k pt f c', small_sample = Some (r, s, k, pt) ∧
    f ∈ small_fits ∧ pt ∈ ft_points f ∧ pt_residual pt = 105000482 ∧
    compute_model_for c' this_machine this_engine small_model small_params ComputeModel_headless
    = apply f (model small_model) ComputeModel_headless.
Proof.
  pose proof small_sample_shape as Hshape.
  destruct small_sample as [[[[r s] k] pt]|] eqn:E; [|discriminate Hshape].
  destruct (small_sample_cases r s k pt E) as (Hb & Hs & Hp). injection Hshape as H1 H2 H3 H4 H5.
  destruct (a_load_finds_its_measurement small_setting small_options small_model F16 [] (Ok [])
    RuntimeParams_default r small_fits _ _ _ this_machine this_engine Hb eq_refl
    ltac:(vm_compute; reflexivity) ltac:(vm_compute; reflexivity)) as (c & c' & _ & _ & Hfind & _).
  destruct (Hfind s k pt small_params Hs Hp (eq_sym H1) (eq_sym H2) (eq_sym H3) (eq_sym H4))
    as (f & Hf & Hpt & _ & _ & Ha).
  exists r, s, k, pt, f, c'. split_and!; [reflexivity|exact Hf|exact Hpt|exact H5|apply Ha].
Defined.

Definition small_calibration : option (result Calibration str) := Some small_bench.1.2.

Definition small_machine : Machine :=
  mkMachine 4 8 (Ok small_snapshot) None None (fun _ _ => ComputeModel_headless).

Definition small_load : LoadOptions := mkOptions (Some 2048) None None None None None false.

Definition small_judged : option (RuntimeParams * Estimate) :=
  match judge RuntimeDefaults_default small_load
          (calibrated_machine small_calibration this_machine this_engine small_machine) None (lit "small") small_model with
  | Ok (p, Some e) => Some (p, e)
  | _ => None
  end.

Example small_judged_Measured : ((fun x => Estimator.confidence x.2) <$> small_judged) = Some Measured.
Proof. vm_compute. reflexivity. Qed.

Lemma small_judged_cases p e :
  small_judged = Some (p, e) →
  judge RuntimeDefaults_default small_load
    (calibrated_machine small_calibration this_machine this_engine small_machine) None (lit "small") small_model
  = Ok (p, Some e).
Proof. unfold small_judged. destruct (judge _ _ _ _ _ _) as [[p' [e'|]]|]; [|done..]. by intros [= -> ->]. Qed.

Lemma only_an_earned_fit_is_spent_witness :
  (∃ p e c f, small_judged = Some (p, e) ∧ Estimator.confidence e = Measured ∧
    small_calibration = Some (Ok c) ∧ earned c this_machine this_engine small_model p f) ∧
  judge RuntimeDefaults_default small_load
    (calibrated_machine (Some (Err (lit "damaged"))) this_machine this_engine small_machine) None (lit "small") small_model
  = judge RuntimeDefaults_default small_load
      (calibrated_machine None this_machine this_engine small_machine) None (lit "small") small_model.
Proof.
  split.
  - pose proof small_judged_Measured as Hm. destruct small_judged as [[p e]|] eqn:E; [|discriminate Hm].
    injection Hm as Hm. exists p, e.
    destruct (proj1 (proj2 (only_an_earned_fit_is_spent RuntimeDefaults_default small_load small_machine None
      (lit "small") small_model small_calibration this_machine this_engine) p e (small_judged_cases p e E)) Hm)
      as (c & f & Hc & Hf).
    exists c, f. split_and!; [reflexivity|exact Hm|exact Hc|exact Hf].
  - refine (proj1 (only_an_earned_fit_is_spent RuntimeDefaults_default small_load small_machine None (lit "small")
      small_model (Some (Err (lit "damaged"))) this_machine this_engine) _). by intros p c f [=].
Defined.

(** The comment of [apply] says that raising the intercept by the largest
    shortfall makes the model right about every sample it was fitted from: the
    terms are cut and rounded apart, and the estimate of the smallest engine of
    this sweep is a byte short of what that engine took. *)
Theorem a_fit_falls_short_of_its_own_sample :
  let p := with_ubatch (with_context RuntimeParams_default 2048) 128 in
  ∃ k, (lookup_estimator small_calibration this_machine this_engine small_model p).2 = Applied k ∧
    (compute_bytes (cal_compute_model k) (model small_model) p).1 + engine_baseline (cal_compute_model k)
    = beyond 128 - 1.
Proof.
  intros p. destruct (lookup_estimator small_calibration this_machine this_engine small_model p).2 as [k|u|err] eqn:E.
  - exists k. split; [done|].
    assert (H : match (lookup_estimator small_calibration this_machine this_engine small_model p).2 with
                | Applied k => (compute_bytes (cal_compute_model k) (model small_model) p).1
                               + engine_baseline (cal_compute_model k) =? beyond 128 - 1
                | _ => false
                end = true) by (vm_compute; reflexivity).
    rewrite E in H. by apply Z.eqb_eq.
  - exfalso. revert E. vm_compute. discriminate.
  - exfalso. revert E. vm_compute. discriminate.
Qed.

End demo.
