(* ===== verification/Trace.v ===== *)
(** * What is recorded of a request

    [crates/lightweight-router/src/trace.rs], the labels of
    [crates/lightweight-router/src/metrics.rs] a request is counted under, and
    the trace blocks of [fallback.rs].  A label is kept as the constructor
    whose [as_str] spells it, a measured time as the duration it was computed
    from.

    [RoutingTrace] keeps what it says of one route in a record of its own
    ([RouteTrace]): a request that moves to another route starts that part
    over and keeps the rest. *)

From stdpp Require Import base gmap strings numbers list.
From S2P Require Import Prelude Names Domain Capability Select Fallback Budget Float64 Classifier.
From S2P Require Import Scoring Affinity.

(** ** Outcomes *)

(** [metrics::Outcome]. *)
Inductive RequestOutcome :=
| OutOk | OutClientError | OutServerError | OutUnavailable | OutBudgetExhausted.

#[export] Instance RequestOutcome_eq_dec : EqDecision RequestOutcome.
Proof. solve_decision. Defined.

Definition EXHAUSTED : str := lit "request_budget_exhausted".

Definition outcome_str (o : RequestOutcome) : str :=
  match o with
  | OutOk => lit "ok"
  | OutClientError => lit "client_error"
  | OutServerError => lit "server_error"
  | OutUnavailable => lit "unavailable"
  | OutBudgetExhausted => EXHAUSTED
  end.

Definition outcome_of_status (status : u16) : RequestOutcome :=
  if (200 <=? status) && (status <=? 399) then OutOk
  else if (400 <=? status) && (status <=? 499) then OutClientError
  else OutServerError.

(** The label a trace ends under: an outcome, or one of the two that are
    never counted in [router_requests_total]. *)
Inductive EndLabel := Ended (o : RequestOutcome) | Interrupted | Cancelled.

Definition end_str (e : EndLabel) : str :=
  match e with
  | Ended o => outcome_str o
  | Interrupted => lit "interrupted"
  | Cancelled => lit "cancelled"
  end.

(** ** The blocks of a trace *)

Inductive AffinityWord := AffinityNone | AffinityHit | AffinityMiss | AffinityReassigned.

Record SessionTrace := mkSessionTrace {
  ss_fingerprint : str;
  ss_affinity : AffinityWord;
  ss_sticky : option DeploymentId;
  ss_reassignment : option Reassignment }.

Record ClassifierTrace := mkClassifierTrace {
  ct_provider : ProviderKind;
  ct_route : option RouteName;
  ct_model : option str;
  ct_outcome : ClassifierOutcome;
  ct_chosen : option RouteName;
  ct_confidence : option f64;
  ct_request_id : str;
  ct_input_truncated : bool }.

Inductive AttemptOutcome := AttCommitted | AttFailed | AttOverflow | AttExhausted.

Record AttemptTrace := mkAttempt {
  at_route : RouteName;
  at_deployment : DeploymentId;
  at_reason : RoutingReason;
  at_outcome : AttemptOutcome;
  at_status : option u16;
  at_response : option Duration }.

Record OverflowStep := mkOverflowStep {
  os_deployment : DeploymentId;
  os_context : option u32 }.

Record OverflowTrace := mkOverflow {
  ot_estimated : option u32;
  ot_too_small : list OverflowStep;
  ot_answered : option u32 }.

(** What a route attempt of a fallback chain came to. *)
Inductive HopReason := HopFallback (r : FallbackReason) | HopContext | HopBudget.

Record FallbackAttemptTrace := mkHop {
  hop_route : RouteName;
  hop_committed : bool;
  hop_reason : option HopReason }.

Record FallbackTrace := mkFallbackTrace {
  ft_initial : RouteName;
  ft_final : RouteName;
  ft_exhausted : bool;
  ft_attempts : list FallbackAttemptTrace }.

(** ** The trace *)

Record RouteTrace := mkRouteTrace {
  tr_route : RouteName;
  tr_policy : option RoutePolicy;
  tr_session : option SessionTrace;
  tr_deployments : nat;
  tr_available : nat;
  tr_capable : nat;
  tr_unavailable : list (DeploymentId * UnavailableReason);
  tr_unfit : list (DeploymentId * list CapabilityGap);
  tr_selected : option (DeploymentId * RoutingReason);
  tr_final : option DeploymentId;
  tr_overflow : option OverflowTrace;
  tr_routing : Duration }.

Definition RouteTrace_new (route : RouteName) (policy : option RoutePolicy) (deployments : nat)
    : RouteTrace :=
  mkRouteTrace route policy None deployments 0 0 [] [] None None None 0.

Record RoutingTrace := mkTrace {
  tr_request_id : str;
  tr_received_at : u64;
  tr_requested : RouteName;
  tr_auto_rule : option str;
  tr_auto_fallback : bool;
  tr_classifier : option ClassifierTrace;
  tr_scoring : option ScoringTrace;
  tr_fallback : option FallbackTrace;
  tr_budget : option BudgetTrace;
  tr_endpoint : Endpoint;
  tr_stream : bool;
  tr_attempts : list AttemptTrace;
  tr_estimated : option u32;
  tr_actual : option u32;
  tr_ttft : option Duration;
  tr_duration : Duration;
  tr_status : option u16;
  tr_outcome : EndLabel;
  on_route : RouteTrace }.

(** [RoutingTrace::new], [received_at] being the clock's unix seconds. *)
Definition RoutingTrace_new (request_id : str) (route : RouteName) (endpoint : Endpoint)
    (policy : option RoutePolicy) (received_at : u64) : RoutingTrace :=
  mkTrace request_id received_at route None false None None None None endpoint false [] None None
    None 0 None Cancelled (RouteTrace_new route policy 0).

(** Assignments to one field. *)
Definition set_route (f : RouteTrace → RouteTrace) (t : RoutingTrace) : RoutingTrace :=
  mkTrace (tr_request_id t) (tr_received_at t) (tr_requested t) (tr_auto_rule t)
    (tr_auto_fallback t) (tr_classifier t) (tr_scoring t) (tr_fallback t) (tr_budget t)
    (tr_endpoint t) (tr_stream t) (tr_attempts t) (tr_estimated t) (tr_actual t) (tr_ttft t)
    (tr_duration t) (tr_status t) (tr_outcome t) (f (on_route t)).

Definition set_auto (rule : option str) (fallback : bool) (requested : RouteName)
    (t : RoutingTrace) : RoutingTrace :=
  mkTrace (tr_request_id t) (tr_received_at t) requested rule
    fallback (tr_classifier t) (tr_scoring t) (tr_fallback t) (tr_budget t)
    (tr_endpoint t) (tr_stream t) (tr_attempts t) (tr_estimated t) (tr_actual t) (tr_ttft t)
    (tr_duration t) (tr_status t) (tr_outcome t) (on_route t).

Definition set_read (classifier : option ClassifierTrace) (scoring : option ScoringTrace)
    (stream : bool) (t : RoutingTrace) : RoutingTrace :=
  mkTrace (tr_request_id t) (tr_received_at t) (tr_requested t) (tr_auto_rule t)
    (tr_auto_fallback t) classifier scoring (tr_fallback t) (tr_budget t)
    (tr_endpoint t) stream (tr_attempts t) (tr_estimated t) (tr_actual t) (tr_ttft t)
    (tr_duration t) (tr_status t) (tr_outcome t) (on_route t).

Definition set_fallback (f : option FallbackTrace) (t : RoutingTrace) : RoutingTrace :=
  mkTrace (tr_request_id t) (tr_received_at t) (tr_requested t) (tr_auto_rule t)
    (tr_auto_fallback t) (tr_classifier t) (tr_scoring t) f (tr_budget t)
    (tr_endpoint t) (tr_stream t) (tr_attempts t) (tr_estimated t) (tr_actual t) (tr_ttft t)
    (tr_duration t) (tr_status t) (tr_outcome t) (on_route t).

Definition set_budget (b : option BudgetTrace) (t : RoutingTrace) : RoutingTrace :=
  mkTrace (tr_request_id t) (tr_received_at t) (tr_requested t) (tr_auto_rule t)
    (tr_auto_fallback t) (tr_classifier t) (tr_scoring t) (tr_fallback t) b
    (tr_endpoint t) (tr_stream t) (tr_attempts t) (tr_estimated t) (tr_actual t) (tr_ttft t)
    (tr_duration t) (tr_status t) (tr_outcome t) (on_route t).

Definition push_attempt (a : AttemptTrace) (t : RoutingTrace) : RoutingTrace :=
  mkTrace (tr_request_id t) (tr_received_at t) (tr_requested t) (tr_auto_rule t)
    (tr_auto_fallback t) (tr_classifier t) (tr_scoring t) (tr_fallback t) (tr_budget t)
    (tr_endpoint t) (tr_stream t) (tr_attempts t ++ [a]) (tr_estimated t) (tr_actual t)
    (tr_ttft t) (tr_duration t) (tr_status t) (tr_outcome t) (on_route t).

Definition set_tokens (estimated actual : option u32) (ttft : option Duration)
    (t : RoutingTrace) : RoutingTrace :=
  mkTrace (tr_request_id t) (tr_received_at t) (tr_requested t) (tr_auto_rule t)
    (tr_auto_fallback t) (tr_classifier t) (tr_scoring t) (tr_fallback t) (tr_budget t)
    (tr_endpoint t) (tr_stream t) (tr_attempts t) estimated actual ttft
    (tr_duration t) (tr_status t) (tr_outcome t) (on_route t).

Definition set_end (duration : Duration) (status : option u16) (outcome : EndLabel)
    (t : RoutingTrace) : RoutingTrace :=
  mkTrace (tr_request_id t) (tr_received_at t) (tr_requested t) (tr_auto_rule t)
    (tr_auto_fallback t) (tr_classifier t) (tr_scoring t) (tr_fallback t) (tr_budget t)
    (tr_endpoint t) (tr_stream t) (tr_attempts t) (tr_estimated t) (tr_actual t) (tr_ttft t)
    duration status outcome (on_route t).

Definition set_session (s : option SessionTrace) (t : RouteTrace) : RouteTrace :=
  mkRouteTrace (tr_route t) (tr_policy t) s (tr_deployments t) (tr_available t) (tr_capable t)
    (tr_unavailable t) (tr_unfit t) (tr_selected t) (tr_final t) (tr_overflow t) (tr_routing t).
Definition set_label (route : RouteName) (t : RouteTrace) : RouteTrace :=
  mkRouteTrace route (tr_policy t) (tr_session t) (tr_deployments t) (tr_available t)
    (tr_capable t) (tr_unavailable t) (tr_unfit t) (tr_selected t) (tr_final t) (tr_overflow t)
    (tr_routing t).
Definition set_deployments (n : nat) (t : RouteTrace) : RouteTrace :=
  mkRouteTrace (tr_route t) (tr_policy t) (tr_session t) n (tr_available t) (tr_capable t)
    (tr_unavailable t) (tr_unfit t) (tr_selected t) (tr_final t) (tr_overflow t) (tr_routing t).
Definition set_plan (available capable : nat) (unavailable : list (DeploymentId * UnavailableReason))
    (unfit : list (DeploymentId * list CapabilityGap))
    (selected : option (DeploymentId * RoutingReason)) (t : RouteTrace) : RouteTrace :=
  mkRouteTrace (tr_route t) (tr_policy t) (tr_session t) (tr_deployments t) available capable
    unavailable unfit selected (tr_final t) (tr_overflow t) (tr_routing t).
Definition set_final (d : option DeploymentId) (t : RouteTrace) : RouteTrace :=
  mkRouteTrace (tr_route t) (tr_policy t) (tr_session t) (tr_deployments t) (tr_available t)
    (tr_capable t) (tr_unavailable t) (tr_unfit t) (tr_selected t) d (tr_overflow t)
    (tr_routing t).
Definition set_overflow (o : option OverflowTrace) (t : RouteTrace) : RouteTrace :=
  mkRouteTrace (tr_route t) (tr_policy t) (tr_session t) (tr_deployments t) (tr_available t)
    (tr_capable t) (tr_unavailable t) (tr_unfit t) (tr_selected t) (tr_final t) o (tr_routing t).
Definition set_routing (d : Duration) (t : RouteTrace) : RouteTrace :=
  mkRouteTrace (tr_route t) (tr_policy t) (tr_session t) (tr_deployments t) (tr_available t)
    (tr_capable t) (tr_unavailable t) (tr_unfit t) (tr_selected t) (tr_final t) (tr_overflow t) d.

(** ** The ring of recent traces *)

Record TraceBook := mkTraceBook { tb_capacity : usize; tb_traces : list RoutingTrace }.

Definition TraceBook_new (capacity : usize) : TraceBook := mkTraceBook capacity [].

(** The [while] of [push]: the oldest goes until there is room. *)
Fixpoint drop_oldest (fuel : nat) (capacity : usize) (l : list RoutingTrace) : list RoutingTrace :=
  match fuel with
  | O => l
  | S fuel => if capacity <=? Z.of_nat (length l) then drop_oldest fuel capacity (tail l) else l
  end.

Definition trace_push (b : TraceBook) (t : RoutingTrace) : TraceBook :=
  if tb_capacity b =? 0 then b
  else mkTraceBook (tb_capacity b)
         (drop_oldest (length (tb_traces b)) (tb_capacity b) (tb_traces b) ++ [t]).

(** Newest first. *)
Definition trace_recent (b : TraceBook) (limit : usize) : list RoutingTrace :=
  take (Z.to_nat limit) (reverse (tb_traces b)).

Definition trace_len (b : TraceBook) : usize := Z.of_nat (length (tb_traces b)).

(** The length of the ring is fuel enough for the loop. *)
Lemma drop_oldest_spec fuel capacity l :
  0 < capacity → (length l ≤ fuel)%nat →
  drop_oldest fuel capacity l = drop (length l - (Z.to_nat capacity - 1)) l.
Proof.
  intros Hc. revert l. induction fuel as [|fuel IH]; intros l Hf; simpl.
  { destruct l; simpl in *; [done|lia]. }
  destruct (Z.leb_spec capacity (Z.of_nat (length l))) as [H|H].
  - destruct l as [|x l]; simpl in *; [lia|]. rewrite IH by lia.
    replace (S (length l) - (Z.to_nat capacity - 1))%nat
      with (S (length l - (Z.to_nat capacity - 1))) by lia. done.
  - replace (length l - (Z.to_nat capacity - 1))%nat with 0%nat by lia. done.
Qed.

(** The ring of traces holds exactly the last ones.  After any sequence of
    pushes into a ring of a capacity of at least one, asking for the recent
    traces gives the last [min limit capacity] pushed, newest first; a ring of
    no capacity keeps nothing. *)
Theorem trace_ring_is_recent capacity ts limit :
  0 ≤ capacity → 0 ≤ limit →
  trace_recent (foldl trace_push (TraceBook_new capacity) ts) limit =
  take (Z.to_nat (Z.min limit capacity)) (reverse ts).
Proof.
  intros Hc Hl. unfold trace_recent.
  assert (H : foldl trace_push (TraceBook_new capacity) ts
              = mkTraceBook capacity (drop (length ts - Z.to_nat capacity) ts)).
  { induction ts as [|t ts IH] using rev_ind; [done|]. rewrite foldl_app, IH. simpl.
    unfold trace_push. cbn [tb_capacity tb_traces]. rewrite length_app. simpl.
    destruct (Z.eqb_spec capacity 0) as [->|Hne].
    { rewrite !drop_ge; [done|rewrite ?length_app; simpl; lia..]. }
    f_equal. rewrite drop_oldest_spec by lia. rewrite length_drop, drop_drop.
    rewrite drop_app_le by lia. f_equal. f_equal. lia. }
  rewrite H. cbn [tb_traces]. rewrite Z2Nat.inj_min by lia. rewrite <-take_take. f_equal.
  destruct (decide (Z.to_nat capacity ≤ length ts)%nat) as [Hle|Hgt]; last first.
  { replace (length ts - Z.to_nat capacity)%nat with 0%nat by lia.
    rewrite take_ge; [done|]. rewrite length_reverse. lia. }
  rewrite <-(take_drop (length ts - Z.to_nat capacity) ts) at 3.
  rewrite reverse_app, take_app_le, take_ge; [done|..];
    rewrite length_reverse, length_drop; lia.
Qed.

Lemma trace_ring_is_recent_witness :
  let t id := RoutingTrace_new (lit id) (mkRouteName (lit "Coder")) ChatCompletions None 0 in
  trace_recent (foldl trace_push (TraceBook_new 2) [t "a"; t "b"; t "c"]%string) 10
  = [t "c"; t "b"]%string.
Proof. apply (trace_ring_is_recent 2); lia. Defined.
