(* ===== verification/World.v ===== *)
(** * The router a request runs in

    What every handler of [crates/lightweight-router/src/proxy.rs] works on:
    the configured router, the books it shares with every other task, and the
    effects a request has on them; then the [Tracker] of a request.

    The runtime has many threads, so between any two accesses of this request
    to a shared book the other tasks may have changed them all.  An access is
    one step ([atomically]): the book's own lock or atomic makes it so.  What
    the others do ([others]), what the clocks show and what nodes answer are
    the environment ([Env]), numbered by a count of the steps taken.

    What the request tells the metrics, the trace ring and the nodes is
    appended to a log ([events]): counters only grow, and nothing reads them
    to decide.  Log lines are left out. *)

From stdpp Require Import base gmap strings numbers list.
From S2P Require Import Prelude Names Utf8 Domain Health Capability Load Select Rewriter Fallback.
From S2P Require Import Affinity Budget Classifier Scoring AutoRoute Responses Trace.

(** ** What nodes answer *)

(** How a body ends: complete, broken off, or never, as far as this request
    is there to see it. *)
Inductive BodyEnd := BodyComplete | BodyBroken | BodyStalls.

Record UpstreamBody := mkBody {
  chunks : list (list byte);
  ending : BodyEnd }.

Record UpstreamResponse := mkUpstream {
  up_status : u16;
  up_headers : HeaderMap;
  up_body : UpstreamBody }.

(** [send().await]: [unreachable] is [is_connect() || is_timeout()], and the
    reason is [describe_transport]'s. *)
Inductive Sending :=
| SendFails (unreachable : bool) (reason : str)
| SendAnswers (r : UpstreamResponse)
| SendPends.

(** The request a node is sent; [payload] is the JSON object. *)
Record UpstreamRequest (O : Type) := mkSend {
  url : str;
  send_content_type : str;
  send_request_id : str;
  send_accept : option (list byte);
  send_authorization : option str;
  payload : O }.
Arguments mkSend {O} url send_content_type send_request_id send_accept send_authorization payload.
Arguments url {O} u.
Arguments send_content_type {O} u.
Arguments send_request_id {O} u.
Arguments send_accept {O} u.
Arguments send_authorization {O} u.
Arguments payload {O} u.

(** ** Events *)

(** The label of a request that reached no route. *)
Definition UNKNOWN_ROUTE : RouteName := mkRouteName (lit "_unknown").

Inductive Metric :=
| MEnter | MLeave
| MRequest (route : RouteName) (o : RequestOutcome)
| MObserveRequest (route : RouteName) (policy : option RoutePolicy) (d : Duration)
| MPlanning (route : RouteName) (policy : option RoutePolicy) (d : Duration)
| MEstimate (route : RouteName) (estimated actual : u32)
| MTtft (route : RouteName) (policy : option RoutePolicy) (d : Duration)
| MUpstreamTtft (route : RouteName) (d : DeploymentId) (t : Duration)
| MUpstreamResponse (route : RouteName) (d : DeploymentId) (t : Duration)
| MUpstreamDuration (route : RouteName) (d : DeploymentId) (t : Duration)
| MDecision (route : RouteName) (policy : RoutePolicy) (reason : RoutingReason)
| MFailover (route : RouteName)
| MOverflowFailover (route : RouteName)
| MCapabilityFiltered (route : RouteName) (g : CapabilityGap)
| MCapabilityMismatch (route : RouteName)
| MAffinityHit (route : RouteName)
| MAffinityMiss (route : RouteName)
| MAffinityReassigned (route : str) (why : Reassignment)
| MHistory (route : RouteName) (o : RouteObservation)
| MCrossRoute (from to : RouteName) (why : FallbackReason)
| MCrossRouteExhausted (initial : RouteName) (last : FallbackReason)
| MClassification (p : ProviderKind) (o : ClassifierOutcome) (chosen : option RouteName)
| MScoring (reason : ScoringReason) (winner : RouteName) (overrode : bool)
| MAutoDecision (rule : str) (route : RouteName) (fallback : bool)
| MBudgetExhausted (stage : Stage)
| MBudgetRemaining (d : Duration).

Inductive Event (O : Type) :=
| EvMetric (m : Metric)
| EvTrace (t : RoutingTrace)
| EvSend (d : DeploymentId) (r : UpstreamRequest O).
Arguments EvMetric {O} m.
Arguments EvTrace {O} t.
Arguments EvSend {O} d r.

(** ** State *)

(** Of [RouterState], what the configuration fixes. *)
Record RouterState := mkState {
  topology : Topology;
  probe_interval : Duration;
  request_budget : option Duration;
  auto : option AutoRoute }.

(** And the books; with them the live leases of the other tasks, which no book
    holds: each is in the request or the stream that took it, and nothing here
    reads them. *)
Record Shared := mkShared {
  sh_health : HealthBook;
  sh_selector : Selector LoadBook;
  sh_affinity : AffinityBook;
  sh_history : HistoryBook;
  sh_status : StatusInner;
  sh_elsewhere : list Lease }.

Record Env := mkEnv {
  clock : nat → Instant;
  unix_clock : nat → u64;
  others : nat → Shared → Shared;
  sending : nat → Sending;
  provider_answers : nat → option (Polled (result Verdict ClassifierOutcome)) }.

Record World (O : Type) := mkWorld {
  shared : Shared;
  steps : nat;
  events : list (Event O) }.
Arguments mkWorld {O} shared steps events.
Arguments shared {O} w.
Arguments steps {O} w.
Arguments events {O} w.

(** ** Effects *)

Section effects.
Context {O : Type} (E : Env).

Definition M (A : Type) : Type := World O → A * World O.

Definition ret {A} (a : A) : M A := fun w => (a, w).
Definition bind {A B} (m : M A) (k : A → M B) : M B := fun w => let '(a, w) := m w in k a w.

(** A step of the environment, and what it shows. *)
Definition look {A} (f : nat → A) : M A :=
  fun w => (f (steps w), mkWorld (shared w) (S (steps w)) (events w)).

(** [Instant::now()] and [SystemTime::now()]. *)
Definition now : M Instant := look (clock E).
Definition unix_now : M u64 := look (unix_clock E).

Definition atomically {A} (f : Shared → A * Shared) : M A :=
  fun w => let '(a, s) := f (others E (steps w) (shared w)) in
           (a, mkWorld s (S (steps w)) (events w)).

Definition event (e : Event O) : M unit :=
  fun w => (tt, mkWorld (shared w) (steps w) (events w ++ [e])).
Definition metric (m : Metric) : M unit := event (EvMetric m).
End effects.

Notation "'let*' x ':=' c1 'in' c2" := (bind c1 (fun x => c2))
  (at level 10, x binder, c1 at level 100, c2 at level 200)
  : rust_scope.
Notation "c1 ';*' c2" := (bind c1 (fun _ => c2))
  (at level 63, right associativity) : rust_scope.

Section shared_books.
Context {O : Type} (E : Env) `{LowerCase} `{MapIter} `{Exp2}.

Definition with_health (f : HealthBook → HealthBook) : M (O:=O) unit :=
  atomically E (fun s => (tt, mkShared (f (sh_health s)) (sh_selector s) (sh_affinity s)
                                (sh_history s) (sh_status s) (sh_elsewhere s))).
Definition with_selector {A} (f : Selector LoadBook → A * Selector LoadBook) : M (O:=O) A :=
  atomically E (fun s => let '(a, x) := f (sh_selector s) in
                         (a, mkShared (sh_health s) x (sh_affinity s) (sh_history s) (sh_status s)
                                (sh_elsewhere s))).
Definition with_affinity {A} (f : AffinityBook → A * AffinityBook) : M (O:=O) A :=
  atomically E (fun s => let '(a, x) := f (sh_affinity s) in
                         (a, mkShared (sh_health s) (sh_selector s) x (sh_history s) (sh_status s)
                                (sh_elsewhere s))).
Definition with_history {A} (f : HistoryBook → A * HistoryBook) : M (O:=O) A :=
  atomically E (fun s => let '(a, x) := f (sh_history s) in
                         (a, mkShared (sh_health s) (sh_selector s) (sh_affinity s) x (sh_status s)
                                (sh_elsewhere s))).
Definition with_status (f : StatusInner → StatusInner) : M (O:=O) unit :=
  atomically E (fun s => (tt, mkShared (sh_health s) (sh_selector s) (sh_affinity s)
                                (sh_history s) (f (sh_status s)) (sh_elsewhere s))).
Definition read_health : M (O:=O) HealthBook := atomically E (fun s => (sh_health s, s)).
Definition read_history : M (O:=O) HistoryBook := atomically E (fun s => (sh_history s, s)).

(** A lease is taken on the load book of the selector, and dropped there. *)
Definition take_lease (d : DeploymentId) : M (O:=O) Lease :=
  with_selector (fun s => let '(l, b) := acquire (load s) d in (l, mkSelector (cursors s) b)).
Definition release (l : Lease) : M (O:=O) unit :=
  with_selector (fun s => (tt, mkSelector (cursors s) (drop_lease (load s) l))).
Definition release_opt (l : option Lease) : M (O:=O) unit :=
  match l with Some l => release l | None => ret tt end.

(** [budget::expired]: the clock is read only against a budget. *)
Definition expired (b : option RequestBudget) : M (O:=O) bool :=
  match b with
  | Some b => let* t := now E in ret (expired_at b t)
  | None => ret false
  end.

(** ** The tracker of a request *)

Record Tracker := mkTracker {
  tk_trace : RoutingTrace;
  received : Instant;
  tk_route : RouteName;
  tk_policy : option RoutePolicy;
  nested : bool;
  tk_observation : option RouteObservation;
  tk_budget : option RequestBudget;
  unobserved : bool }.

(** [Tracker::new]. *)
Definition Tracker_new (request_id : str) (route : RouteName) (policy : option RoutePolicy)
    (endpoint : Endpoint) (received : Instant) (nested : bool) (budget : option RequestBudget)
    : M (O:=O) Tracker :=
  let* at_ := unix_now E in
  ret (mkTracker (RoutingTrace_new request_id route endpoint policy at_) received route policy
         nested None budget false).

Definition on_trace (f : RoutingTrace → RoutingTrace) (t : Tracker) : Tracker :=
  mkTracker (f (tk_trace t)) (received t) (tk_route t) (tk_policy t) (nested t)
    (tk_observation t) (tk_budget t) (unobserved t).
Definition set_observation (o : option RouteObservation) (t : Tracker) : Tracker :=
  mkTracker (tk_trace t) (received t) (tk_route t) (tk_policy t) (nested t) o (tk_budget t)
    (unobserved t).
Definition set_unobserved (t : Tracker) : Tracker :=
  mkTracker (tk_trace t) (received t) (tk_route t) (tk_policy t) (nested t) (tk_observation t)
    (tk_budget t) true.

Definition observe_route (route : RouteName) (o : RouteObservation) (nested : bool)
    : M (O:=O) unit :=
  if nested then ret tt
  else
    let* t := now E in
    let* u := unix_now E in
    let* recorded := with_history (fun h => observe_history h route o t u) in
    if recorded then metric (MHistory route o) else ret tt.

(** [Tracker::finish], which consumes the tracker here: [finished] makes every
    later call, the one of [Drop] included, return at once. *)
Definition tracker_finish (t : Tracker) (status : option u16) (outcome : EndLabel)
    : M (O:=O) unit :=
  let* at_ := now E in
  let elapsed := saturating_duration_since at_ (received t) in
  metric (MObserveRequest (tk_route t) (tk_policy t) elapsed) ;*
  (match tr_estimated (tk_trace t), tr_actual (tk_trace t) with
   | Some estimated, Some actual => metric (MEstimate (tk_route t) estimated actual)
   | _, _ => ret tt
   end) ;*
  (if negb (unobserved t)
   then observe_route (tk_route t)
          (default (of_outcome (end_str outcome)) (tk_observation t)) (nested t)
   else ret tt) ;*
  let trace := set_end elapsed status outcome (tk_trace t) in
  let* trace :=
    match tk_budget t, tr_budget trace with
    | Some b, None => let* at_ := now E in ret (set_budget (Some (trace_ended b at_)) trace)
    | _, _ => ret trace
    end in
  event (EvTrace trace).

(** [Tracker::retarget]. *)
Definition retarget (r : Route) (t : Tracker) : Tracker :=
  mkTracker
    (set_route (fun _ => RouteTrace_new (route_name r) (Some (policy r))
                           (length (route_deployments r))) (tk_trace t))
    (received t) (route_name r) (Some (policy r)) (nested t) None (tk_budget t) false.

(** [Tracker::unattempted]. *)
Definition unattempted (label : RouteName) (t : Tracker) : Tracker :=
  mkTracker (set_route (set_label label) (tk_trace t)) (received t) label (tk_policy t) (nested t)
    (tk_observation t) (tk_budget t) true.
End shared_books.
