(* ===== verification/Relay.v ===== *)
(** * Relaying a committed answer

    The end of [crates/lightweight-router/src/proxy.rs]: what a committed
    response holds until its body is over ([InFlight]), putting the route's
    name on it ([commit]) and relaying a stream ([relay]).  A client may stop
    reading at any point: that drops the stream, and with it what it holds. *)

From stdpp Require Import base gmap strings numbers list.
From S2P Require Import Prelude Names Utf8 Domain Load Select Frames Rewriter Affinity Budget.
From S2P Require Import Classifier Scoring Responses Trace World.

(** [upstream_done] and the [finished] of the tracker make the second call of
    what ends a request do nothing; the model ends it once ([held_end]). *)
Record InFlight := mkHeld {
  held_active : bool;
  held_lease : Lease;
  held_tracker : Tracker;
  held_sent : Instant;
  held_deployment : DeploymentId;
  held_status : u16 }.

Definition set_tracker (t : Tracker) (h : InFlight) : InFlight :=
  mkHeld (held_active h) (held_lease h) t (held_sent h) (held_deployment h) (held_status h).
Definition set_status (s : u16) (h : InFlight) : InFlight :=
  mkHeld (held_active h) (held_lease h) (held_tracker h) (held_sent h) (held_deployment h) s.

(** A stream being relayed: what is left of the upstream body. *)
Record RelayState := mkRelay {
  upstream : UpstreamBody;
  rewriter : FrameRewriter;
  held : InFlight }.

(** One poll of the relayed stream. *)
Inductive RelayOut :=
| RelayItem (out : list byte) (next : option RelayState)
| RelayOver
| RelayPending (s : RelayState).

Section relay.
Context {O : Type} (E : Env) `{LowerCase} `{MapIter} `{Exp2} {J : Json} `{!JsonNumbers J}.

(** [InFlight::saw]. *)
Definition held_saw (h : InFlight) (r : FrameRewriter) : M (O:=O) InFlight :=
  let t := held_tracker h in
  let* t :=
    if negb (bool_decide (is_Some (tr_ttft (tk_trace t)))) && generated r then
      let* at_ := now E in
      let ttft := saturating_duration_since at_ (received t) in
      metric (MTtft (tk_route t) (tk_policy t) ttft) ;*
      let* at_ := now E in
      metric (MUpstreamTtft (tk_route t) (held_deployment h)
                (saturating_duration_since at_ (held_sent h))) ;*
      ret (on_trace (fun x => set_tokens (tr_estimated x) (tr_actual x) (Some ttft) x) t)
    else ret t in
  let t := match rw_prompt_tokens r with
           | Some tokens =>
               on_trace (fun x => set_tokens (tr_estimated x) (Some tokens) (tr_ttft x) x) t
           | None => t
           end in
  ret (set_tracker t h).

(** [InFlight::end], and [Drop] with [Cancelled]: the measurements and the
    trace, then the fields go in the order they are declared. *)
Definition held_end (h : InFlight) (outcome : EndLabel) : M (O:=O) unit :=
  let* at_ := now E in
  metric (MUpstreamDuration (tk_route (held_tracker h)) (held_deployment h)
            (saturating_duration_since at_ (held_sent h))) ;*
  tracker_finish E (held_tracker h) (Some (held_status h)) outcome ;*
  (if held_active h then metric MLeave else ret tt) ;*
  release E (held_lease h).

(** The loop of [relay]: read until something can be sent on. *)
Fixpoint relay_chunks (cs : list (list byte)) (e : BodyEnd) (r : FrameRewriter) (h : InFlight)
    : M (O:=O) RelayOut :=
  match cs with
  | chunk :: cs =>
      let '(r, out) := push r chunk in
      let* h := held_saw h r in
      if finished r then
        held_end h Interrupted ;* ret (RelayItem out None)
      else if negb (bool_decide (out = [])) then
        ret (RelayItem out (Some (mkRelay (mkBody cs e) r h)))
      else relay_chunks cs e r h
  | [] =>
      match e with
      | BodyBroken =>
          let '(r, out) := abort r in
          held_end h Interrupted ;*
          ret (if negb (bool_decide (out = [])) then RelayItem out None else RelayOver)
      | BodyComplete =>
          let '(r, out) := finish r in
          let* h := held_saw h r in
          held_end h (if saw_done r then Ended OutOk else Interrupted) ;*
          ret (if negb (bool_decide (out = [])) then RelayItem out None else RelayOver)
      | BodyStalls => ret (RelayPending (mkRelay (mkBody [] BodyStalls) r h))
      end
  end.

Definition relay_next (s : RelayState) : M (O:=O) RelayOut :=
  relay_chunks (chunks (upstream s)) (ending (upstream s)) (rewriter s) (held s).

(** A client that polls at most [polls] times and then goes away; one whose
    stream stalls goes away too.  What it was sent. *)
Fixpoint relay_to (polls : nat) (s : RelayState) : M (O:=O) (list byte) :=
  match polls with
  | 0%nat => held_end (held s) Cancelled ;* ret []
  | S polls =>
      let* o := relay_next s in
      match o with
      | RelayItem out (Some s) => let* rest := relay_to polls s in ret (out ++ rest)
      | RelayItem out None => ret out
      | RelayOver => ret []
      | RelayPending s => held_end (held s) Cancelled ;* ret []
      end
  end.

(** ** Committing *)

Definition upstream_unreadable {S} : Response S :=
  json_error 502
    (server_error (lit "the upstream node's response could not be read") (lit "upstream_failed")).

(** Reading a body whole: [None] while it stalls, and then whether it could
    be read. *)
Definition read_whole (b : UpstreamBody) : option (option (list byte)) :=
  match ending b with
  | BodyComplete => Some (Some (concat (chunks b)))
  | BodyBroken => Some None
  | BodyStalls => None
  end.

(** The body of a response as [axum::body] reads it. *)
Definition read_body (b : Body UpstreamBody) : option (option (Body RelayState)) :=
  match b with
  | Whole bytes => Some (Some (Whole bytes))
  | Envelope e => Some (Some (Envelope e))
  | Streamed u => option_map (option_map Whole) (read_whole u)
  end.

Definition is_event_stream (headers : HeaderMap) : bool :=
  match headers !! CONTENT_TYPE ≫= to_str with
  | Some value => starts_with (lit "text/event-stream") value
  | None => false
  end.

Definition as_upstream (b : Body UpstreamBody) : UpstreamBody :=
  match b with
  | Streamed u => u
  | Whole bytes => mkBody [bytes] BodyComplete
  | Envelope _ => mkBody [] BodyComplete
  end.

(** A success is rewritten to the route's name.  An envelope is the router's
    own error, never a success. *)
Definition rename_body (status : u16) (route : RouteName) (b : Body RelayState) (h : InFlight)
    : Body RelayState * InFlight :=
  match b with
  | Whole bytes =>
      if is_success_status status then
        let '(rewritten, tokens) := rewrite_body_measuring (from_slice bytes) (route_str route) in
        (match rewritten with Some text => Whole (utf8_encode text) | None => Whole bytes end,
         set_tracker
           (on_trace (fun x => set_tokens (tr_estimated x) tokens (tr_ttft x) x) (held_tracker h)) h)
      else (b, h)
  | _ => (b, h)
  end.

(** [commit]; [None] when the client goes away before a whole body is read. *)
Definition commit (r : Response UpstreamBody) (route : RouteName) (h : InFlight)
    : M (O:=O) (option (Response RelayState)) :=
  if is_event_stream (resp_headers r) && is_success_status (resp_status r) then
    ret (Some (mkResponse (resp_status r) (resp_headers r)
           (Streamed (mkRelay (as_upstream (resp_body r)) (FrameRewriter_new (route_str route)) h))
           (resp_marked r)))
  else
    match read_body (resp_body r) with
    | None => held_end h Cancelled ;* ret None
    | Some None =>
        held_end (set_status 502 h) (Ended OutServerError) ;* ret (Some upstream_unreadable)
    | Some (Some b) =>
        let '(b, h) := rename_body (resp_status r) route b h in
        held_end h (Ended (outcome_of_status (resp_status r))) ;*
        ret (Some (mkResponse (resp_status r) (delete CONTENT_LENGTH (resp_headers r)) b
                     (resp_marked r)))
    end.
End relay.
