(* ===== verification/Proxy.v ===== *)
(** * Trying a route's deployments

    [crates/lightweight-router/src/proxy.rs], [attempt_one] to
    [attempt_route]: one logical route's plan walked until a deployment
    answers, every refusal told apart, every slot given back.

    A call that is dropped - its client went away while it waited - is the
    result [Gone]: what it held is dropped with it. *)

From stdpp Require Import base gmap strings numbers list.
From S2P Require Import Prelude Names Utf8 Domain Health Capability Load Select Rewriter Fallback.
From S2P Require Import Affinity Budget Classifier Scoring Responses Trace World Relay.

(** ** Attempts *)

Definition REFUSAL_LIMIT : usize := 64 * 1024.
Definition CONTEXT_OVERFLOW : str := lit "context_length_exceeded".

Definition endpoint_path (e : Endpoint) : str :=
  match e with
  | ChatCompletions => lit "/v1/chat/completions"
  | Completions => lit "/v1/completions"
  end.

Record Refusal := mkRefusal {
  ref_status : u16;
  ref_content_type : option (list byte);
  ref_retry_after : option (list byte);
  ref_body : list byte }.

Inductive Attempt :=
| Committed (r : Response UpstreamBody)
| Next (refusal : option Refusal)
| ContextOverflow (refusal : Refusal).

Record SentInfo := mkSent {
  sent_at : Instant;
  sent_head : option Duration;
  sent_status : option u16 }.

(** The headers of an answer that are passed on, by name. *)
Definition passed_headers (h : HeaderMap) : HeaderMap :=
  foldl (fun m name => match h !! name with Some v => <[name := v]> m | None => m end) ∅
    [CONTENT_TYPE; CACHE_CONTROL; RETRY_AFTER].

Definition insert_opt (name : str) (v : option (list byte)) (m : HeaderMap) : HeaderMap :=
  match v with Some v => <[name := v]> m | None => m end.

Definition refusal_response {S} (r : Refusal) : Response S :=
  mkResponse (ref_status r)
    (insert_opt RETRY_AFTER (ref_retry_after r) (insert_opt CONTENT_TYPE (ref_content_type r) ∅))
    (Whole (ref_body r)) false.

Definition into_response (r : UpstreamResponse) (status : u16) : Response UpstreamBody :=
  mkResponse status (passed_headers (up_headers r)) (Streamed (up_body r)) false.

(** [read_bounded]; [None] while the body stalls short of the limit. *)
Fixpoint read_upto (cs : list (list byte)) (e : BodyEnd) (collected : list byte)
    : option (list byte) :=
  match cs with
  | chunk :: cs =>
      let room := sat_sub REFUSAL_LIMIT (Z.of_nat (length collected)) in
      let collected := collected ++ take (Z.to_nat (Z.min (Z.of_nat (length chunk)) room)) chunk in
      if REFUSAL_LIMIT <=? Z.of_nat (length collected) then Some collected
      else read_upto cs e collected
  | [] => match e with BodyStalls => None | _ => Some collected end
  end.

Definition read_bounded (b : UpstreamBody) : option (list byte) := read_upto (chunks b) (ending b) [].

Section errors.
Context {J : Json}.

Definition error_code (body : list byte) : option str :=
  let! value := (let! text := utf8_decode body in from_str text) in
  let! error := value_get value (lit "error") in
  let! code := value_get error (lit "code") in
  as_string code.

(** [bad_request]; [Pending] while its body stalls. *)
Definition bad_request (r : UpstreamResponse) : Polled Attempt :=
  let headers := passed_headers (up_headers r) in
  match read_whole (up_body r) with
  | None => Pending
  | Some None => Done (Committed upstream_unreadable)
  | Some (Some body) =>
      if bool_decide (error_code body = Some CONTEXT_OVERFLOW)
      then Done (ContextOverflow (mkRefusal (up_status r) (headers !! CONTENT_TYPE)
                                    (headers !! RETRY_AFTER) body))
      else Done (Committed (mkResponse (up_status r) headers (Whole body) false))
  end.
End errors.

(** ** Ends of a route *)

Record RouteFailure := mkFailure {
  fail_response : Response RelayState;
  fail_outcome : RequestOutcome;
  fail_observation : option RouteObservation;
  fail_reason : option FallbackReason;
  fail_route : RouteName;
  fail_tracker : Tracker }.

Inductive RouteEnd :=
| RouteCommitted (r : Response RelayState)
| RouteFailed (f : RouteFailure)
| RouteBudget (t : Tracker) (before_first_attempt : bool)
| Gone.

(** What the loop over the candidates carries from one to the next. *)
Record Walk (O : Type) := mkWalk {
  wk_tracker : Tracker;
  wk_request : O;
  wk_reservation : option Lease;
  wk_refusal : option Refusal;
  wk_too_small : option u32;
  wk_after_overflow : bool;
  wk_sticky_failed : option Reassignment;
  wk_attempts : nat }.
Arguments mkWalk {O} wk_tracker wk_request wk_reservation wk_refusal wk_too_small
  wk_after_overflow wk_sticky_failed wk_attempts.
Arguments wk_tracker {O} w.
Arguments wk_request {O} w.
Arguments wk_reservation {O} w.
Arguments wk_refusal {O} w.
Arguments wk_too_small {O} w.
Arguments wk_after_overflow {O} w.
Arguments wk_sticky_failed {O} w.
Arguments wk_attempts {O} w.

(** How one turn of the loop ends: [continue], [break] or [return]. *)
Inductive Turn (O : Type) :=
| TurnNext (w : Walk O)
| TurnBreak (w : Walk O)
| TurnReturn (e : RouteEnd) (w : Walk O).
Arguments TurnNext {O} w.
Arguments TurnBreak {O} w.
Arguments TurnReturn {O} e w.

Section proxy.
Context `{LowerCase} `{MapIter} `{Exp2} `{SessionHash} `{StrDebug} {J : Json} `{!JsonNumbers J}.
Context (E : Env) (st : RouterState).

Local Abbreviation M := (M (O:=Object)).

(** ** One attempt *)

(** What a refusal of a kind the router may move on from means. *)
Definition judge_refusal (r : UpstreamResponse) (node : NodeId) (body : list byte) : M Attempt :=
  let refusal := mkRefusal (up_status r) (up_headers r !! CONTENT_TYPE)
                   (up_headers r !! RETRY_AFTER) body in
  if up_status r =? 404 then
    if bool_decide (error_code body = Some (lit "model_not_found")) then
      with_health E (fun b => forget_model b node) ;* ret (Next None)
    else ret (Committed (refusal_response refusal))
  else ret (Next (Some refusal)).

(** [attempt_one]; an object always serialises.  [Pending] is a node that has
    not yet sent what is waited for. *)
Definition attempt_one (endpoint : Endpoint) (headers : HeaderMap) (request_id : str)
    (route : RouteName) (node : Node) (c : Candidate) (request : Object)
    : M (Polled (Attempt * SentInfo)) :=
  let* at_ := now E in
  event (EvSend (cand_deployment c)
    (mkSend (Domain.endpoint node (endpoint_path endpoint)) (lit "application/json") request_id
       (headers !! lit "accept") (header_value (auth node)) request)) ;*
  let* answer := look (sending E) in
  match answer with
  | SendPends => ret Pending
  | SendFails unreachable reason =>
      (if unreachable then
         let* t := unix_now E in
         with_health E (fun b => record b (node_id node) (Failure (lit "request: " ++ reason)) t)
       else ret tt) ;*
      ret (Done (Next None, mkSent at_ None None))
  | SendAnswers r =>
      let* t := now E in
      let head := saturating_duration_since t at_ in
      let sent := mkSent at_ (Some head) (Some (up_status r)) in
      metric (MUpstreamResponse route (cand_deployment c) head) ;*
      let status := up_status r in
      if status =? 400 then
        ret (match bad_request r with Done a => Done (a, sent) | Pending => Pending end)
      else if negb (existsb (Z.eqb status) [404; 502; 503; 504]) then
        ret (Done (Committed (into_response r status), sent))
      else
        match read_bounded (up_body r) with
        | None => ret Pending
        | Some body => let* a := judge_refusal r (node_id node) body in ret (Done (a, sent))
        end
  end.

(** [budget::bound] around it; [None] when the client goes away first. *)
Definition bounded {A} (b : option RequestBudget) (m : M (Polled A)) : M (option (Bound A)) :=
  let* p := m in
  match p with
  | Done a => ret (Some (Completed a))
  | Pending =>
      match b with
      | Some b => let* t := now E in ret (bound (Some b) t Pending)
      | None => ret None
      end
  end.

(** ** Sessions *)

(** [headers.get(name)] as text. *)
Definition header_text (headers : HeaderMap) (name : str) : option str :=
  headers !! name ≫= to_str.

Definition session_of (route : RouteName) (headers : HeaderMap) : M (option AffinityKey) :=
  with_affinity E (fun b => (session (affinity_policy b) route (header_text headers), b)).

Definition lookup_sticky (key : option AffinityKey) : M (option DeploymentId) :=
  match key with
  | Some key => let* t := now E in with_affinity E (fun b => lookup_at b key t)
  | None => ret None
  end.

Definition on_session (f : SessionTrace → SessionTrace) (t : Tracker) : Tracker :=
  on_trace (set_route (fun r => set_session (f <$> tr_session r) r)) t.

(** [settle_affinity]. *)
Definition settle_affinity (key : AffinityKey) (planned : option Sticky)
    (sticky_failed : option Reassignment) (answered : DeploymentId) (t : Tracker) : M Tracker :=
  let reassigned := match planned, sticky_failed with
                    | Some Hit, Some reason => Some reason
                    | Some (Broken reason), _ => Some reason
                    | _, _ => None
                    end in
  match reassigned with
  | Some reason =>
      let* at_ := now E in
      with_affinity E (fun b => (tt, reassign_at b key answered at_)) ;*
      metric (MAffinityReassigned (key_route key) reason) ;*
      ret (on_session (fun s => mkSessionTrace (ss_fingerprint s) AffinityReassigned (ss_sticky s)
                                  (Some reason)) t)
  | None =>
      let* at_ := now E in
      let* _ := with_affinity E (fun b => establish_at b key answered at_) in ret t
  end.

(** [record_unfit]. *)
Fixpoint record_gaps (route : RouteName) (gaps : list CapabilityGap) : M unit :=
  match gaps with
  | [] => ret tt
  | g :: gaps => metric (MCapabilityFiltered route g) ;* record_gaps route gaps
  end.
Definition record_unfit (route : RouteName) (unfit : list (DeploymentId * list CapabilityGap))
    : M unit :=
  record_gaps route (mjoin (snd <$> unfit)).

(** ** The walk *)

Section walk.
Context (endpoint : Endpoint) (headers : HeaderMap) (request_id : str) (route : Route)
  (needs : RequestRequirements) (active : bool) (budget : option RequestBudget)
  (session : option AffinityKey) (plan : Plan)
  (observed : gmap DeploymentId DeploymentObservation).

Definition context_of (c : Candidate) : option u32 :=
  context_length <$> observed !! cand_deployment c.

Definition larger_than (c : Candidate) (floor : option u32) : bool :=
  match floor with
  | None => true
  | Some floor => match context_of c with Some context => floor <? context | None => false end
  end.

(** The slot of an attempt: the one the plan reserved for the first choice,
    or one of its own. *)
Definition lease_for (attempt : nat) (c : Candidate) (reservation : option Lease) : M Lease :=
  match reservation with
  | Some l => if bool_decide (attempt = 0%nat) then ret l
              else release E l ;* take_lease E (cand_deployment c)
  | None => take_lease E (cand_deployment c)
  end.

Definition attempt_trace (c : Candidate) (reason : RoutingReason) (outcome : AttemptOutcome)
    (sent : option SentInfo) : Tracker → Tracker :=
  on_trace (push_attempt (mkAttempt (route_name route) (cand_deployment c) reason outcome
              (sent ≫= sent_status) (sent ≫= sent_head))).

Definition is_sticky (attempt : nat) : bool := bool_decide (attempt = 0%nat) && is_hit plan.

(** After [Attempt::Next]. *)
Definition after_next (attempt : nat) (rest : list Candidate) (refusal : option Refusal)
    (w : Walk Object) : M (Turn Object) :=
  let w := mkWalk (wk_tracker w) (wk_request w) (wk_reservation w)
             (match refusal with Some _ => refusal | None => wk_refusal w end)
             (wk_too_small w) false
             (if is_sticky attempt then Some StickyFailed else wk_sticky_failed w)
             (wk_attempts w) in
  if existsb (fun next => larger_than next (wk_too_small w)) rest then
    let* spent := expired E budget in
    if spent then ret (TurnReturn (RouteBudget (wk_tracker w) false) w)
    else metric (MFailover (route_name route)) ;* ret (TurnNext w)
  else ret (TurnNext w).

Definition note_overflow (c : Candidate) (t : Tracker) : Tracker :=
  on_trace (set_route (fun r =>
    let o := default (mkOverflow (Capability.prompt_tokens needs) [] None) (tr_overflow r) in
    set_overflow (Some (mkOverflow (ot_estimated o)
      (ot_too_small o ++ [mkOverflowStep (cand_deployment c) (context_of c)]) (ot_answered o))) r)) t.

(** After [Attempt::ContextOverflow]. *)
Definition after_overflow (attempt : nat) (c : Candidate) (rest : list Candidate)
    (refusal : Refusal) (w : Walk Object) : M (Turn Object) :=
  let too_small := Some (Z.max (default U32_MAX (context_of c)) (default 0 (wk_too_small w))) in
  let w' after := mkWalk (note_overflow c (wk_tracker w)) (wk_request w) (wk_reservation w)
             (Some refusal) too_small after
             (if is_sticky attempt then Some StickyContextOverflow else wk_sticky_failed w)
             (wk_attempts w) in
  match find_first (fun next => larger_than next too_small) rest with
  | None => ret (TurnBreak (w' (wk_after_overflow w)))
  | Some _ =>
      let* spent := expired E budget in
      if spent then
        ret (TurnReturn (RouteBudget (wk_tracker (w' (wk_after_overflow w))) false)
               (w' (wk_after_overflow w)))
      else
        metric (MFailover (route_name route)) ;* metric (MOverflowFailover (route_name route)) ;*
        ret (TurnNext (w' true))
  end.

Definition note_answered (after : bool) (c : Candidate) (t : Tracker) : Tracker :=
  if after then
    on_trace (set_route (fun r => set_overflow
      ((fun o => mkOverflow (ot_estimated o) (ot_too_small o) (context_of c)) <$> tr_overflow r) r)) t
  else t.

(** The budget's last word, at the commit. *)
Definition note_budget (t : Tracker) : M Tracker :=
  match budget with
  | Some b =>
      let* at_ := now E in
      let t := on_trace (set_budget (Some (trace_committed b at_))) t in
      (if nested t then ret tt
       else let* at_ := now E in metric (MBudgetRemaining (remaining_at b at_))) ;*
      ret t
  | None => ret t
  end.

(** After [Attempt::Committed]. *)
Definition after_commit (c : Candidate) (reason : RoutingReason) (r : Response UpstreamBody)
    (sent : SentInfo) (lease : Lease) (w : Walk Object) : M (Turn Object) :=
  let status := resp_status r in
  let t := note_answered (wk_after_overflow w) c (wk_tracker w) in
  let* t := match session with
            | Some key =>
                if is_success_status status
                then settle_affinity key (plan_sticky plan) (wk_sticky_failed w)
                       (cand_deployment c) t
                else ret t
            | None => ret t
            end in
  let t := on_trace (set_route (set_final (Some (cand_deployment c)))) t in
  metric (MRequest (route_name route) (outcome_of_status status)) ;*
  metric (MDecision (route_name route) (plan_policy plan) reason) ;*
  let* t := note_budget t in
  let held := mkHeld active lease t (sent_at sent) (cand_deployment c) status in
  let* answer := commit E r (route_name route) held in
  ret (TurnReturn (match answer with Some r => RouteCommitted r | None => Gone end) w).

(** The attempt at one candidate, started. *)
Definition try_candidate (attempt : nat) (c : Candidate) (node : Node) (reason : RoutingReason)
    (rest : list Candidate) (w : Walk Object) : M (Turn Object) :=
  let* lease := lease_for attempt c (wk_reservation w) in
  let request := object_insert (lit "model") (of_string (cand_remote_model c)) (wk_request w) in
  let* b := bounded budget
              (attempt_one endpoint headers request_id (route_name route) node c request) in
  let walk_with t := mkWalk t request None (wk_refusal w) (wk_too_small w) (wk_after_overflow w)
                       (wk_sticky_failed w) (S (wk_attempts w)) in
  let traced outcome sent := attempt_trace c reason outcome sent (wk_tracker w) in
  match b with
  | None =>
      release E lease ;* tracker_finish E (wk_tracker w) None Cancelled ;*
      (if active then metric MLeave else ret tt) ;*
      ret (TurnReturn Gone (walk_with (wk_tracker w)))
  | Some Cut =>
      let t := traced AttExhausted None in
      release E lease ;* ret (TurnReturn (RouteBudget t false) (walk_with t))
  | Some (Completed (Next refusal, sent)) =>
      release E lease ;*
      after_next attempt rest refusal (walk_with (traced AttFailed (Some sent)))
  | Some (Completed (ContextOverflow refusal, sent)) =>
      release E lease ;*
      after_overflow attempt c rest refusal (walk_with (traced AttOverflow (Some sent)))
  | Some (Completed (Committed r, sent)) =>
      after_commit c reason r sent lease (walk_with (traced AttCommitted (Some sent)))
  end.

(** One turn of the loop. *)
Definition turn (attempt : nat) (c : Candidate) (rest : list Candidate) (w : Walk Object)
    : M (Turn Object) :=
  if negb (larger_than c (wk_too_small w)) then ret (TurnNext w)
  else
    match decision plan attempt with
    | None => ret (TurnBreak w)
    | Some d =>
        match find_node (topology st) (cand_node c) with
        | None => ret (TurnNext w)
        | Some node =>
            let reason := if wk_after_overflow w then ContextOverflowFailover else dec_reason d in
            let* spent := expired E budget in
            if spent then
              ret (TurnReturn (RouteBudget (wk_tracker w) (bool_decide (wk_attempts w = 0%nat))) w)
            else try_candidate attempt c node reason rest w
        end
    end.

(** The loop: how the route ended, if it did, and what is left. *)
Fixpoint walk (attempt : nat) (cs : list Candidate) (w : Walk Object)
    : M (option RouteEnd * Walk Object) :=
  match cs with
  | [] => ret (None, w)
  | c :: rest =>
      let* t := turn attempt c rest w in
      match t with
      | TurnNext w => walk (S attempt) rest w
      | TurnBreak w => ret (None, w)
      | TurnReturn e w => ret (Some e, w)
      end
  end.
End walk.

(** ** One route *)

(** What a route whose plan is used up ends with. *)
Definition walk_failure (route : Route) (w : Walk Object) : RouteFailure :=
  match wk_refusal w with
  | Some refusal =>
      let unready := existsb (Z.eqb (ref_status refusal)) [502; 503; 504] in
      let exhausted :=
        unready && negb (bool_decide (is_Some (tr_overflow (on_route (tk_trace (wk_tracker w)))))) in
      mkFailure (refusal_response refusal) (outcome_of_status (ref_status refusal))
        (if unready then Some ObsUnavailable else None)
        (if exhausted then Some ReasonExhausted else None) (route_name route) (wk_tracker w)
  | None =>
      mkFailure (routing_failure (RouteUnavailable (route_name route)) (probe_interval st))
        OutUnavailable None (Some ReasonUnavailable) (route_name route) (wk_tracker w)
  end.

(** The refusal of a route that could not be planned. *)
Definition plan_failure (route : Route) (failure : RoutingFailure) (t : Tracker)
    : M RouteFailure :=
  let response := routing_failure failure (probe_interval st) in
  match failure with
  | CapabilityMismatch _ _ unfit =>
      record_unfit (route_name route) unfit ;*
      metric (MCapabilityMismatch (route_name route)) ;*
      let t := on_trace (set_route (fun r =>
                 set_plan (length unfit) (tr_capable r) (tr_unavailable r) unfit (tr_selected r) r)) t in
      ret (mkFailure response OutClientError (Some ObsCapabilityMismatch)
             (Some ReasonCapabilityMismatch) (route_name route) t)
  | RouteUnavailable _ =>
      ret (mkFailure response OutUnavailable None (Some ReasonUnavailable) (route_name route) t)
  | _ => ret (mkFailure response OutUnavailable None None (route_name route) t)
  end.

(** The plan as the trace and the affinity metrics show it. *)
Definition note_plan (route : Route) (plan : Plan) (session : option AffinityKey) (t : Tracker)
    : M Tracker :=
  let capable := length (plan_candidates plan) in
  let t := on_trace (set_route (fun r =>
             set_plan (capable + length (plan_unfit plan))%nat capable (plan_skipped plan)
               (plan_unfit plan)
               ((fun d => (dec_deployment d, dec_reason d)) <$> decision plan 0) r)) t in
  match session with
  | Some _ =>
      metric (if is_hit plan then MAffinityHit (route_name route)
              else MAffinityMiss (route_name route)) ;*
      ret (on_session (fun s => mkSessionTrace (ss_fingerprint s)
                         (if is_hit plan then AffinityHit else AffinityMiss)
                         (ss_sticky s) (ss_reassignment s)) t)
  | None => ret t
  end.

(** [attempt_route]: how the route ended, and the request as it was left. *)
Definition attempt_route (endpoint : Endpoint) (headers : HeaderMap) (request : Object)
    (request_id : str) (route : Route) (needs : RequestRequirements) (t : Tracker) (active : bool)
    (planning_started : Instant) (budget : option RequestBudget) : M (RouteEnd * Object) :=
  let* key := session_of (route_name route) headers in
  let* sticky := lookup_sticky key in
  let t := match key with
           | Some key => on_trace (set_route (set_session
               (Some (mkSessionTrace (fingerprint key) AffinityNone sticky None)))) t
           | None => t
           end in
  let* observed := read_health E in
  let* book := read_health E in
  let* planned := with_selector E (fun s =>
    plan_with_affinity s (topology st) route (hb_nodes book) (hb_deployments observed) needs
      sticky) in
  match planned with
  | Err failure =>
      let* at_ := now E in
      let routing := saturating_duration_since at_ planning_started in
      let t := on_trace (set_route (set_routing routing)) t in
      metric (MPlanning (route_name route) (Some (policy route)) routing) ;*
      let* f := plan_failure route failure t in
      ret (RouteFailed f, request)
  | Ok plan =>
      record_unfit (route_name route) (plan_unfit plan) ;*
      let* at_ := now E in
      let routing := saturating_duration_since at_ planning_started in
      let t := on_trace (set_route (set_routing routing)) t in
      metric (MPlanning (route_name route) (Some (policy route)) routing) ;*
      let* t := note_plan route plan key t in
      let* '(e, w) :=
        walk endpoint headers request_id route needs active budget key plan
          (hb_deployments observed) 0 (plan_candidates plan)
          (mkWalk t request (reservation plan) None None false None 0) in
      release_opt E (wk_reservation w) ;*
      ret (default (RouteFailed (walk_failure route w)) e, wk_request w)
  end.
End proxy.
