(* ===== verification/Forward.v ===== *)
(** * Forwarding one request

    The top of [crates/lightweight-router/src/proxy.rs]: [forward_as],
    [route_request], [resolve_auto], and how a request that nothing answered
    ends ([conclude_chain], [exhaust]).

    Reading the body beyond the model it names is the gateway's
    ([requirements::extract] and the text of [ClassificationInput::read]):
    both are parameters.  So is what asking a provider came to; [None] there
    is a client that went away while its request was being classified. *)

From stdpp Require Import base gmap strings numbers list.
From S2P Require Import Prelude Names Utf8 Domain Health Capability Load Select Rewriter Fallback.
From S2P Require Import Affinity Budget Classifier Scoring AutoRoute Responses Trace World Relay.
From S2P Require Import Proxy.

(** [Value::is_null], [as_bool], and the text of [serde_json]'s error. *)
Class JsonScalars (J : Json) := {
  is_null : Value → bool;
  as_bool : Value → option bool;
  json_error_text : list byte → str }.

(** ** Request ids

    [crates/lightweight-gateway/src/request_id.rs]. *)

Definition MAX_REQUEST_ID : usize := 128.

Definition usable_id (id : str) : bool :=
  negb (bool_decide (id = [])) && (Z.of_nat (length id) <=? MAX_REQUEST_ID)
  && forallb is_ascii_graphic id.

Definition from_headers (headers : HeaderMap) : option str :=
  let! value := headers !! REQUEST_ID_HEADER ≫= to_str in
  let id := trim value in
  if usable_id id then Some id else None.

(** [request_id::echo], and the end of [forward_as]: a text that is no header
    value is not echoed. *)
Definition echo {S} (r : Response S) (id : str) : Response S :=
  match to_str id with
  | Some value => insert_header REQUEST_ID_HEADER value r
  | None => r
  end.

(** ** Parsing *)

Section parse.
Context {J : Json} `{!JsonNumbers J} `{!JsonScalars J}.

Definition refuse_body {S} (message code : str) : Response S :=
  json_error 400 (invalid_request message code).

Definition parse {S} (body : list byte) : result Object (Response S) :=
  match from_slice body with
  | None => Err (refuse_body (lit "the request body is not valid JSON: " ++ json_error_text body)
                   (lit "invalid_json"))
  | Some value =>
      match as_object value with
      | None => Err (refuse_body (lit "the request body must be a JSON object")
                       (lit "invalid_request_body"))
      | Some object =>
          match object_get object (lit "model") with
          | Some model =>
              if negb (bool_decide (is_Some (as_string model))) && negb (is_null model)
              then Err (json_error 400 (with_param
                     (invalid_request
                        (lit "`model` must be a string naming one of the models GET /v1/models lists")
                        (lit "invalid_request_body"))
                     (lit "model")))
              else Ok object
          | None => Ok object
          end
      end
  end.

Definition requested_model (request : Object) : option str :=
  object_get request (lit "model") ≫= as_string.

Definition wants_stream (request : Object) : bool :=
  bool_decide (object_get request (lit "stream") ≫= as_bool = Some true).
End parse.

Definition auto_route_name : RouteName := mkRouteName AUTO_ROUTE.

(** [classifier_trace]; the measured time is left out. *)
Definition classifier_trace (c : Classification) (k : RouteClassifier) : ClassifierTrace :=
  mkClassifierTrace (cl_provider c) (provider_route (provider k))
    (match (cl_verdict c ≫= verdict_model) with
     | Some model => Some model
     | None => provider_model (provider k)
     end)
    (cl_outcome c) (verdict_route <$> cl_verdict c) (confidence <$> cl_verdict c)
    (cl_request_id c) (cl_input_truncated c).

(** ** Resolving [Auto] *)

Inductive AutoStop :=
| Refused (r : Response RelayState)
| AutoExhausted (c : Classification) (rule : option str)
| AutoGone.

Record AutoResolution := mkResolution {
  res_route : result Route RoutingFailure;
  res_needs : RequestRequirements;
  res_rule : option str;
  res_classification : option (Classification * Duration);
  res_scoring : option ScoringTrace }.

Section forward.
Context `{LowerCase} `{MapIter} `{Exp2} `{SessionHash} `{StrDebug} {J : Json} `{!JsonNumbers J}
  `{!JsonScalars J}.
Context (E : Env) (st : RouterState).
Context (extract : Endpoint → list byte → result RequestRequirements (Response RelayState))
  (body_text : Endpoint → list byte → str).

Local Abbreviation M := (M (O:=Object)).

(** One classification, and how long it took. *)
Definition ask_classifier (k : RouteClassifier) (endpoint : Endpoint) (body : list byte)
    (needs : RequestRequirements) (request_id : str) (budget : option RequestBudget)
    : M (option (Classification * Duration)) :=
  let input := read_input endpoint (body_text endpoint body) needs
                 (max_input_chars (classifier_limits k)) in
  let* started := now E in
  let* answer := look (provider_answers E) in
  match answer with
  | None => ret None
  | Some answer =>
      let c := classify k (in_truncated input) request_id budget started answer in
      let* ended := now E in
      ret (Some (c, saturating_duration_since ended started))
  end.

(** The classification the decision asks for: [None] when the client went
    away; none for a request that is a classification itself. *)
Definition classify_for (a : AutoRoute) (d : AutoDecision) (endpoint : Endpoint)
    (body : list byte) (needs : RequestRequirements) (request_id : str) (nested : bool)
    (budget : option RequestBudget) : M (option (option (Classification * Duration))) :=
  match (if ad_classify d then classifier a else None) with
  | None => ret (Some None)
  | Some k =>
      if nested then ret (Some (Some (Classification_nested (provider_kind (provider k)), 0)))
      else let* c := ask_classifier k endpoint body needs request_id budget in
           ret (Some <$> c)
  end.

(** Adaptive scoring of a classification, when it is on. *)
Definition score_for (a : AutoRoute) (c : option (Classification * Duration))
    : M (option ScoringDecision) :=
  match c, classifier a, scoring a with
  | Some (c, _), Some k, Some s =>
      if scoring_enabled s then
        let* t := now E in
        let* h := read_history E in
        let d := scoring_decide s h k t c in
        metric (MScoring (st_reason (sd_trace d)) (sd_route d) (st_overrode (sd_trace d))) ;*
        ret (Some d)
      else ret None
  | _, _, _ => ret None
  end.

(** The route a classification, scored or not, leaves the request with. *)
Definition resolved_route (a : AutoRoute) (d : AutoDecision)
    (c : option (Classification * Duration)) (s : option ScoringDecision) : RouteName :=
  match s, c, classifier a with
  | Some s, _, _ => sd_route s
  | None, Some (c, _), Some k => classified_route c k
  | _, _, _ => ad_route d
  end.

Definition resolve_auto (a : AutoRoute) (endpoint : Endpoint) (body : list byte)
    (request_id : str) (planning_started : Instant) (nested : bool)
    (budget : option RequestBudget) : M (result AutoResolution AutoStop) :=
  match extract endpoint body with
  | Err refusal =>
      let* at_ := now E in
      metric (MPlanning auto_route_name None (saturating_duration_since at_ planning_started)) ;*
      metric (MRequest auto_route_name OutClientError) ;*
      ret (Err (Refused refusal))
  | Ok needs =>
      let d := auto_decide a needs in
      let* c := classify_for a d endpoint body needs request_id nested budget in
      match c with
      | None => ret (Err AutoGone)
      | Some c =>
          if bool_decide ((cl_outcome ∘ fst) <$> c = Some RequestBudgetExhausted) then
            match c with
            | Some (c, _) =>
                metric (MClassification (cl_provider c) (cl_outcome c) None) ;*
                ret (Err (AutoExhausted c (ad_rule d)))
            | None => ret (Err AutoGone)
            end
          else
            let* s := score_for a c in
            (match c, classifier a with
             | Some (c, _), Some k =>
                 let* t := unix_now E in
                 with_status E (fun s => record_outcome s (cl_outcome c) t) ;*
                 metric (MClassification (cl_provider c) (cl_outcome c)
                           (if bool_decide (cl_outcome c = Chosen)
                            then Some (classified_route c k) else None))
             | _, _ => ret tt
             end) ;*
            let resolved := resolved_route a d c s in
            metric (MAutoDecision (rule_label d) resolved (is_fallback d)) ;*
            ret (Ok (mkResolution
                   (ok_or (find_route (topology st) resolved)
                      (UnknownRoute (route_str resolved)))
                   needs (ad_rule d) c (sd_trace <$> s)))
      end
  end.

(** ** Ends without an answer *)

Definition budget_exhausted_response (configured : Duration) : Response RelayState :=
  let r := json_error 504 (server_error
             (lit "The router's pre-commit request budget of " ++ decimal (configured / 1000000)
              ++ lit " ms ran out before a response started.") EXHAUSTED) in
  mkResponse (resp_status r) (resp_headers r) (resp_body r) true.

Definition exhaust (t : Tracker) (stage : Stage) (next : option RouteName)
    : M (Response RelayState) :=
  match tk_budget t with
  | None =>
      tracker_finish E t None (Ended OutServerError) ;*
      ret (json_error 500 (server_error (lit "the request ended unexpectedly")
                             (lit "internal_error")))
  | Some b =>
      (if nested t then ret tt else metric (MBudgetExhausted stage)) ;*
      metric (MRequest (tk_route t) OutBudgetExhausted) ;*
      let* at_ := now E in
      let t := on_trace (set_budget (Some (trace_exhausted b at_ stage (route_str <$> next)))) t in
      tracker_finish E t (Some 504) (Ended OutBudgetExhausted) ;*
      ret (budget_exhausted_response (configured b))
  end.

(** [RouteFailure::conclude]. *)
Definition conclude (f : RouteFailure) : M (Response RelayState) :=
  metric (MRequest (fail_route f) (fail_outcome f)) ;*
  tracker_finish E (set_observation (fail_observation f) (fail_tracker f))
    (Some (resp_status (fail_response f))) (Ended (fail_outcome f)) ;*
  ret (fail_response f).

Definition failed_hop (route : RouteName) (reason : option HopReason) : FallbackAttemptTrace :=
  mkHop route false reason.

Definition with_fallback_trace (f : FallbackTrace) (t : Tracker) : Tracker :=
  on_trace (set_fallback (Some f)) t.

(** [conclude_chain]. *)
Definition conclude_chain (initial : Route) (hops : list FallbackAttemptTrace) (f : RouteFailure)
    : M (Response RelayState) :=
  match hops with
  | [] => conclude f
  | _ =>
      let exhausted := bool_decide (is_Some (fail_reason f)) in
      let reason :=
        match fail_reason f with
        | Some r => Some (HopFallback r)
        | None => if bool_decide (is_Some (tr_overflow (on_route (tk_trace (fail_tracker f)))))
                  then Some HopContext else None
        end in
      (match fail_reason f with
       | Some last => metric (MCrossRouteExhausted (route_name initial) last)
       | None => ret tt
       end) ;*
      conclude (mkFailure (fail_response f) (fail_outcome f) (fail_observation f) (fail_reason f)
        (fail_route f)
        (with_fallback_trace
           (mkFallbackTrace (route_name initial) (fail_route f) exhausted
              (hops ++ [failed_hop (fail_route f) reason])) (fail_tracker f)))
  end.

(** What history observes of a failed route. *)
Definition observation_of (f : RouteFailure) : RouteObservation :=
  default (of_outcome (outcome_str (fail_outcome f))) (fail_observation f).

(** [attempts.last_mut()], told that the budget ended it. *)
Definition end_last_hop (t : Tracker) : Tracker :=
  on_trace (fun x => set_fallback ((fun f =>
    mkFallbackTrace (ft_initial f) (ft_final f) (ft_exhausted f)
      (match List.rev (ft_attempts f) with
       | last :: before => List.rev before ++ [mkHop (hop_route last) false (Some HopBudget)]
       | [] => []
       end)) <$> tr_fallback x) x) t.

(** A route the budget stopped. *)
Definition stopped_by_budget (route : Route) (is_auto on_fallback before_first : bool)
    (t : Tracker) : M (Response RelayState) :=
  if on_fallback then
    let t := end_last_hop t in
    exhaust (if before_first then set_unobserved t else t) StageCrossRoute None
  else if before_first then
    exhaust (unattempted (if is_auto then auto_route_name else route_name route) t)
      StageRoutePlanning (Some (route_name route))
  else exhaust t StageSameRoute None.

(** What the client gets, and whether its active-request guard is still the
    handler's to drop. *)
Definition Answer : Type := option (Response RelayState) * bool.

(** The loop over the routes: the initial one, then those of the frozen
    plan. *)
Section chain.
Context (endpoint : Endpoint) (headers : HeaderMap) (request_id : str)
  (needs : RequestRequirements) (is_auto nested : bool) (budget : option RequestBudget)
  (initial : Route).

(** The next route of the plan, if the failure may move on to one. *)
Definition next_route (f : RouteFailure) (remaining : list RouteName)
    : option (FallbackReason * Route * list RouteName) :=
  match fail_reason f, remaining with
  | Some reason, name :: remaining =>
      (fun r => (reason, r, remaining)) <$> find_route (topology st) name
  | _, _ => None
  end.

(** Between a failed route and the next: the budget's refusal to go on. *)
Definition refuse_next (f : RouteFailure) (reason : FallbackReason) (next : Route)
    (hops : list FallbackAttemptTrace) : M (Response RelayState) :=
  let t := set_observation (Some (observation_of f)) (fail_tracker f) in
  let hops := hops ++ [failed_hop (fail_route f) (Some (HopFallback reason))] in
  exhaust (with_fallback_trace (mkFallbackTrace (route_name initial) (fail_route f) false hops) t)
    StageCrossRoute (Some (route_name next)).

(** The move to the next route. *)
Definition move_on (f : RouteFailure) (reason : FallbackReason) (next : Route)
    (hops : list FallbackAttemptTrace) : M Tracker :=
  observe_route E (fail_route f) (observation_of f) nested ;*
  metric (MCrossRoute (fail_route f) (route_name next) reason) ;*
  ret (with_fallback_trace
         (mkFallbackTrace (route_name initial) (route_name next) false
            (hops ++ [mkHop (route_name next) true None]))
         (retarget next (fail_tracker f))).

Fixpoint route_loop (remaining : list RouteName) (route : Route)
    (hops : list FallbackAttemptTrace) (request : Object) (t : Tracker)
    (planning_started : Instant) : M Answer :=
  let* '(e, request) :=
    attempt_route E st endpoint headers request request_id route needs t true planning_started
      budget in
  match e with
  | RouteCommitted r => ret (Some r, false)
  | Gone => ret (None, false)
  | RouteBudget t before_first =>
      let* r := stopped_by_budget route is_auto (negb (bool_decide (hops = []))) before_first t in
      ret (Some r, true)
  | RouteFailed f =>
      match remaining with
      | name :: remaining' =>
          match next_route f remaining with
          | Some (reason, next, _) =>
              let* spent := expired E budget in
              if spent then let* r := refuse_next f reason next hops in ret (Some r, true)
              else
                let hops := hops ++ [failed_hop (fail_route f) (Some (HopFallback reason))] in
                let* t := move_on f reason next hops in
                let* planning_started := now E in
                route_loop remaining' next hops request t planning_started
          | None => let* r := conclude_chain initial hops f in ret (Some r, true)
          end
      | [] => let* r := conclude_chain initial hops f in ret (Some r, true)
      end
  end.
End chain.

(** ** One request *)

(** The resolution of a request: the route, and for [Auto] what was read and
    decided on the way. *)
Definition resolve (endpoint : Endpoint) (body : list byte) (request_id : str)
    (requested : option str) (planning_started : Instant) (nested : bool)
    (budget : option RequestBudget)
    : M (result (result Route RoutingFailure * option AutoResolution) (AutoRoute * AutoStop)) :=
  match auto st with
  | Some a =>
      if claims a requested then
        let* r := resolve_auto a endpoint body request_id planning_started nested budget in
        match r with
        | Ok r => ret (Ok (res_route r, Some r))
        | Err stop => ret (Err (a, stop))
        end
      else ret (Ok (resolve_route (topology st) requested, None))
  | None => ret (Ok (resolve_route (topology st) requested, None))
  end.

(** The request the budget ended while it was classified. *)
Definition exhausted_classifying (a : AutoRoute) (c : Classification) (rule : option str)
    (request_id : str) (endpoint : Endpoint) (request : Object) (received : Instant)
    (nested : bool) (budget : option RequestBudget) : M (Response RelayState) :=
  let* t := Tracker_new E request_id auto_route_name None endpoint received nested budget in
  let t := set_unobserved t in
  let t := on_trace (fun x => set_read ((fun k => classifier_trace c k) <$> classifier a) None
                                (wants_stream request)
                                (set_auto rule (tr_auto_fallback x) auto_route_name x)) t in
  exhaust t StageClassifier None.

(** What the trace says of how the route was chosen. *)
Definition note_resolution (route : Route) (r : option AutoResolution) (request : Object)
    (t : Tracker) : Tracker :=
  let k := match auto st with Some a => classifier a | None => None end in
  let t := match r with
           | Some r => on_trace (set_auto (res_rule r) (negb (bool_decide (is_Some (res_rule r))))
                                   auto_route_name) t
           | None => t
           end in
  on_trace (fun x =>
    set_route (set_deployments (length (route_deployments route)))
      (set_read
         (match r ≫= res_classification, k with
          | Some (c, _), Some k => Some (classifier_trace c k)
          | _, _ => None
          end)
         (r ≫= res_scoring) (wants_stream request) x)) t.

(** The routes an [Auto] request may move to, frozen. *)
Definition fallback_plan (route : Route) (is_auto nested : bool) : list RouteName :=
  match auto st with
  | Some a => if is_auto && negb nested then chain (cross_route_fallback a) (route_name route)
              else []
  | None => []
  end.

(** From a route on. *)
Definition on_resolved (route : Route) (r : option AutoResolution) (endpoint : Endpoint)
    (headers : HeaderMap) (body : list byte) (request : Object) (request_id : str)
    (received planning_started : Instant) (nested : bool) (budget : option RequestBudget)
    : M Answer :=
  let* t := Tracker_new E request_id (route_name route) (Some (policy route)) endpoint received
              nested budget in
  let is_auto := bool_decide (is_Some r) in
  let t := note_resolution route r request t in
  let extracted := match r with Some r => Ok (res_needs r) | None => extract endpoint body end in
  match extracted with
  | Err refusal =>
      let* at_ := now E in
      let routing := saturating_duration_since at_ planning_started in
      metric (MPlanning (route_name route) (Some (policy route)) routing) ;*
      metric (MRequest (route_name route) OutClientError) ;*
      tracker_finish E (on_trace (set_route (set_routing routing)) t)
        (Some (resp_status refusal)) (Ended OutClientError) ;*
      ret (Some refusal, true)
  | Ok needs =>
      let t := on_trace (fun x => set_tokens (Capability.prompt_tokens needs) (tr_actual x)
                                    (tr_ttft x) x) t in
      let* spent := expired E budget in
      if spent then
        let* r := stopped_by_budget route is_auto false true t in ret (Some r, true)
      else
        route_loop endpoint headers request_id needs is_auto nested budget route
          (fallback_plan route is_auto nested) route [] request t planning_started
  end.

Definition route_request (endpoint : Endpoint) (headers : HeaderMap) (body : list byte)
    (request_id : str) (received : Instant) (nested : bool) (budget : option RequestBudget)
    : M Answer :=
  match parse body with
  | Err refusal => metric (MRequest UNKNOWN_ROUTE OutClientError) ;* ret (Some refusal, true)
  | Ok request =>
      let* planning_started := now E in
      let* resolution := resolve endpoint body request_id (requested_model request)
                           planning_started nested budget in
      match resolution with
      | Err (_, Refused refusal) => ret (Some refusal, true)
      | Err (a, AutoExhausted c rule) =>
          let* r := exhausted_classifying a c rule request_id endpoint request received nested
                      budget in
          ret (Some r, true)
      | Err (_, AutoGone) => ret (None, true)
      | Ok (Err failure, r) =>
          let* at_ := now E in
          let planning_started :=
            planning_started + default 0 (snd <$> (r ≫= res_classification)) in
          metric (MPlanning UNKNOWN_ROUTE None (saturating_duration_since at_ planning_started)) ;*
          metric (MRequest UNKNOWN_ROUTE OutClientError) ;*
          ret (Some (routing_failure failure (probe_interval st)), true)
      | Ok (Ok route, r) =>
          on_resolved route r endpoint headers body request request_id received
            (planning_started + default 0 (snd <$> (r ≫= res_classification))) nested budget
      end
  end.

(** [forward_as]; [fresh] is what [generate_request_id] draws.  [None] is a
    client that went away before it was answered. *)
Definition forward_as (endpoint : Endpoint) (headers : HeaderMap) (body : list byte)
    (nested : bool) (inherited : option RequestBudget) (fresh : str)
    : M (option (Response RelayState)) :=
  let* received := now E in
  let* budget :=
    if nested then ret inherited
    else match request_budget st with
         | Some configured => let* t := now E in ret (Some (budget_start configured t))
         | None => ret None
         end in
  metric MEnter ;*
  let request_id := default fresh (from_headers headers) in
  let* '(response, active) :=
    route_request endpoint headers body request_id received nested budget in
  (if (active : bool) then metric MLeave else ret tt) ;*
  ret ((fun r => echo r request_id) <$> response).

(** [forward]. *)
Definition forward (endpoint : Endpoint) (headers : HeaderMap) (body : list byte) (fresh : str)
    : M (option (Response RelayState)) :=
  forward_as endpoint headers body false None fresh.
End forward.
