(* ===== verification/WorldLogic.v ===== *)
(** * Reasoning about a request's effects

    Two logics for the actions of [World.v].  [wp] speaks of what an action
    returns and of the events it appends that matter to the properties
    ([Mark]), whatever the books hold; [triple] speaks of the whole world. *)

From stdpp Require Import base gmap strings numbers list.
From S2P Require Import Prelude Names Domain Health Load Select Fallback Affinity Budget Scoring.
From S2P Require Import Responses Trace World.

(** ** Marks *)

Inductive Mark (O : Type) :=
| Entered
| Left
| Counted (route : RouteName) (o : RequestOutcome)
| Traced (t : RoutingTrace)
| Sent (d : DeploymentId) (r : UpstreamRequest O)
| Moved (from to : RouteName) (why : FallbackReason).
Arguments Entered {O}.
Arguments Left {O}.
Arguments Counted {O} route o.
Arguments Traced {O} t.
Arguments Sent {O} d r.
Arguments Moved {O} from to why.

Definition mark {O} (e : Event O) : option (Mark O) :=
  match e with
  | EvMetric MEnter => Some Entered
  | EvMetric MLeave => Some Left
  | EvMetric (MRequest route o) => Some (Counted route o)
  | EvMetric (MCrossRoute from to why) => Some (Moved from to why)
  | EvMetric _ => None
  | EvTrace t => Some (Traced t)
  | EvSend d r => Some (Sent d r)
  end.

Definition marks {O} (es : list (Event O)) : list (Mark O) := omap mark es.

Section logic.
Context {O : Type}.
Implicit Types (w : World O) (ms : list (Mark O)).

(** ** What an action returns and marks *)

Definition wp {A} (m : M (O:=O) A) (Q : A → list (Mark O) → Prop) : Prop :=
  ∀ w, ∃ ms, marks (events (m w).2) = marks (events w) ++ ms ∧ Q (m w).1 ms.

(** The same from one world, where what is read there matters. *)
Definition wp_at {A} w (m : M (O:=O) A) (Q : A → list (Mark O) → Prop) : Prop :=
  ∃ ms, marks (events (m w).2) = marks (events w) ++ ms ∧ Q (m w).1 ms.

Lemma wp_at_all {A} (m : M A) Q : wp m Q ↔ ∀ w, wp_at w m Q.
Proof. done. Qed.

Lemma wp_at_mono {A} w (m : M A) (Q R : A → list (Mark O) → Prop) :
  wp_at w m Q → (∀ a ms, Q a ms → R a ms) → wp_at w m R.
Proof. intros (ms & Hms & Hq) HQ. exists ms. eauto. Qed.

Lemma wp_mono {A} (m : M A) (Q R : A → list (Mark O) → Prop) :
  wp m Q → (∀ a ms, Q a ms → R a ms) → wp m R.
Proof. intros Hm HQ w. destruct (Hm w) as (ms & Hms & Hq). eauto. Qed.

Lemma wp_ret {A} (a : A) (Q : A → list (Mark O) → Prop) : Q a [] → wp (ret a) Q.
Proof. intros HQ w. exists []. by rewrite app_nil_r. Qed.

Lemma wp_bind {A B} (m : M A) (k : A → M B) (Q : B → list (Mark O) → Prop) :
  wp m (λ a ms, wp (k a) (λ b ms', Q b (ms ++ ms'))) → wp (bind m k) Q.
Proof.
  intros Hm w. destruct (Hm w) as (ms & Hms & Hk). unfold bind.
  destruct (m w) as [a w1]. cbn [fst snd] in *. destruct (Hk w1) as (ms' & Hms' & Hq).
  exists (ms ++ ms'). by rewrite Hms', Hms, app_assoc.
Qed.

(** The two together, for a call whose behaviour is a lemma. *)
Lemma wp_call {A B} (m : M A) (k : A → M B) (P : A → list (Mark O) → Prop)
    (Q : B → list (Mark O) → Prop) :
  wp m P → (∀ a ms, P a ms → wp (k a) (λ b ms', Q b (ms ++ ms'))) → wp (bind m k) Q.
Proof. intros Hm Hk. by eapply wp_bind, wp_mono. Qed.

Lemma wp_look {A} (f : nat → A) (Q : A → list (Mark O) → Prop) :
  (∀ n, Q (f n) []) → wp (look f) Q.
Proof. intros HQ w. exists []. rewrite app_nil_r. split; [done|]. apply HQ. Qed.

Lemma wp_atomically {A} E (f : Shared → A * Shared) (Q : A → list (Mark O) → Prop) :
  (∀ s, Q (f s).1 []) → wp (atomically E f) Q.
Proof.
  intros HQ w. unfold atomically. exists []. rewrite app_nil_r.
  specialize (HQ (others E (steps w) (shared w))). by destruct (f _).
Qed.

Lemma wp_event (e : Event O) (Q : unit → list (Mark O) → Prop) :
  Q tt (marks [e]) → wp (event e) Q.
Proof. intros HQ w. exists (marks [e]). unfold event, marks. cbn [events snd]. by rewrite omap_app. Qed.

(** An action none of whose events is marked. *)
Definition silent {A} (m : M (O:=O) A) : Prop := wp m (λ _ ms, ms = []).

Lemma silent_bind {A B} (m : M A) (k : A → M B) :
  silent m → (∀ a, silent (k a)) → silent (bind m k).
Proof.
  intros Hm Hk. eapply wp_call; [exact Hm|]. intros a ms ->. eapply wp_mono; [apply Hk|].
  by intros b ms ->.
Qed.

Lemma wp_silent {A B} (m : M A) (k : A → M B) (Q : B → list (Mark O) → Prop) :
  silent m → (∀ a, wp (k a) Q) → wp (bind m k) Q.
Proof.
  intros Hm Hk. eapply wp_call; [exact Hm|]. intros a ms ->. eapply wp_mono; [apply Hk|].
  by intros b ms'.
Qed.

(** A silent action at the head: the rest runs from the world it leaves. *)
Lemma wp_at_silent {A B} w (m : M A) (k : A → M B) (Q : B → list (Mark O) → Prop) :
  silent m → wp_at (m w).2 (k (m w).1) Q → wp_at w (bind m k) Q.
Proof.
  intros Hm (ms & Hms & Hq). destruct (Hm w) as (ms0 & Hms0 & ->).
  rewrite app_nil_r in Hms0. exists ms. unfold bind. destruct (m w) as [a w1].
  cbn [fst snd] in *. by rewrite <-Hms0.
Qed.

Lemma silent_ret {A} (a : A) : silent (ret a).
Proof. by apply wp_ret. Qed.
Lemma silent_look {A} (f : nat → A) : silent (look f).
Proof. by apply wp_look. Qed.
Lemma silent_atomically {A} E (f : Shared → A * Shared) : silent (atomically E f).
Proof. by apply wp_atomically. Qed.
Lemma silent_metric m : mark (O:=O) (EvMetric m) = None → silent (metric m).
Proof. intros Hm. apply wp_event. unfold marks. cbn -[mark]. by rewrite Hm. Qed.

(** ** The whole world *)

Definition triple {A} (P : World O → Prop) (m : M (O:=O) A) (Q : A → World O → Prop) : Prop :=
  ∀ w, P w → Q (m w).1 (m w).2.

Lemma triple_ret {A} (a : A) (P : World O → Prop) (Q : A → World O → Prop) :
  (∀ w, P w → Q a w) → triple P (ret a) Q.
Proof. intros H w Hw. by apply H. Qed.

Lemma triple_bind {A B} (m : M A) (k : A → M B) P (R : A → World O → Prop) Q :
  triple P m R → (∀ a, triple (R a) (k a) Q) → triple P (bind m k) Q.
Proof.
  intros Hm Hk w Hw. specialize (Hm w Hw). unfold bind. destruct (m w) as [a w'].
  cbn [fst snd] in Hm. by apply Hk.
Qed.

Lemma triple_conseq {A} (m : M A) (P P' : World O → Prop) (Q Q' : A → World O → Prop) :
  triple P' m Q' → (∀ w, P w → P' w) → (∀ a w, Q' a w → Q a w) → triple P m Q.
Proof. intros Hm HP HQ w Hw. by apply HQ, Hm, HP. Qed.

(** What [wp] knows of a result, known of it in the world too. *)
Lemma triple_wp {A} (m : M A) P (Q : A → World O → Prop) (R : A → list (Mark O) → Prop) :
  triple P m Q → wp m R → triple P m (λ a w, Q a w ∧ ∃ ms, R a ms).
Proof. intros Ht Hm w Hw. destruct (Hm w) as (ms & _ & HR). split; [by apply Ht|by exists ms]. Qed.
End logic.

Create HintDb silent.
#[export] Hint Resolve silent_ret silent_look silent_atomically : silent.
#[export] Hint Extern 1 (silent (metric _)) => (apply silent_metric; reflexivity) : silent.
#[export] Hint Extern 1 (silent (now _)) => apply silent_look : silent.
#[export] Hint Extern 1 (silent (unix_now _)) => apply silent_look : silent.

(** Silence of an action that is written out. *)
Ltac silence :=
  repeat match goal with
  | |- silent (bind _ _) => apply silent_bind; [|intros ?]
  | |- silent (let '_ := ?x in _) => destruct x
  | |- silent (match ?x with _ => _ end) => destruct x
  | |- silent _ => solve [auto with silent]
  end.

(** Steps over what is silent at the head of an action. *)
Ltac wp_skip := apply wp_silent; [solve [silence]|intros ?].

Section shared_actions.
Context {O : Type} (E : Env) `{LowerCase} `{MapIter} `{Exp2}.

Lemma silent_take_lease d : silent (O:=O) (take_lease E d).
Proof. apply silent_atomically. Qed.
Lemma silent_release l : silent (O:=O) (release E l).
Proof. apply silent_atomically. Qed.
Lemma silent_release_opt l : silent (O:=O) (release_opt E l).
Proof. destruct l; [apply silent_release|apply silent_ret]. Qed.
Lemma silent_expired b : silent (O:=O) (expired E b).
Proof. unfold expired. silence. Qed.
Lemma silent_observe_route route o nested : silent (O:=O) (observe_route E route o nested).
Proof. unfold observe_route. silence. apply silent_atomically. Qed.

(** A tracker finishes with one trace, under the status and outcome given, and
    every attempt it recorded. *)
Lemma wp_tracker_finish t status outcome :
  wp (O:=O) (tracker_finish E t status outcome)
    (λ _ ms, ∃ tr, ms = [Traced tr] ∧ tr_outcome tr = outcome ∧ tr_status tr = status ∧
       tr_attempts tr = tr_attempts (tk_trace t)).
Proof.
  unfold tracker_finish. wp_skip. wp_skip. wp_skip.
  apply wp_silent; [destruct (unobserved t); simpl; auto using silent_observe_route, silent_ret|].
  intros _. eapply wp_call with (P := λ tr ms, ms = [] ∧ tr_outcome tr = outcome ∧
    tr_status tr = status ∧ tr_attempts tr = tr_attempts (tk_trace t)).
  - cbv zeta. destruct (tk_budget t) as [b|]; [|by apply wp_ret].
    case_match; [by apply wp_ret|]. apply wp_bind, wp_look. intros n. by apply wp_ret.
  - intros tr ms (-> & Ho & Hs & Ha). apply wp_event. exists tr. auto.
Qed.
End shared_actions.

#[export] Hint Resolve silent_take_lease silent_release silent_release_opt silent_expired
  silent_observe_route : silent.
