(* ===== verification/ProxyTheorems.v ===== *)
(** * What trying a route does

    The marks every piece of [Proxy.v] leaves, up to one attempt at a route:
    which nodes are asked, in which order, how each attempt ends and what is
    counted. *)

From stdpp Require Import base gmap strings numbers list.
From S2P Require Import Prelude Names Utf8 Domain Health Capability Load Select SelectTheorems.
From S2P Require Import Rewriter Fallback Affinity Budget Classifier Scoring Responses Trace World.
From S2P Require Import WorldLogic Relay Proxy.

(** ** Relays and commits *)

Section relays.
Context {O : Type} (E : Env) `{LowerCase} `{MapIter} `{Exp2} {J : Json} `{!JsonNumbers J}.

(** What ends a committed request: one trace, with every attempt, and the
    guard of the active gauge. *)
Definition Closed (h : InFlight) (ms : list (Mark O)) : Prop :=
  ∃ tr, ms = Traced tr :: (if held_active h then [Left] else []) ∧
    tr_attempts tr = tr_attempts (tk_trace (held_tracker h)).

Lemma wp_held_end h outcome :
  wp (O:=O) (held_end E h outcome) (λ _ ms, ∃ tr,
    ms = Traced tr :: (if held_active h then [Left] else []) ∧
    tr_outcome tr = outcome ∧ tr_status tr = Some (held_status h) ∧
    tr_attempts tr = tr_attempts (tk_trace (held_tracker h))).
Proof.
  unfold held_end. wp_skip. wp_skip. eapply wp_call; [apply wp_tracker_finish|].
  intros _ ms (tr & -> & Ho & Hs & Ha).
  eapply wp_call with (P := λ _ ms, ms = if held_active h then [Left] else []).
  - destruct (held_active h); [by apply wp_event|by apply wp_ret].
  - intros _ ms ->. eapply wp_mono; [apply silent_release|]. intros _ ms ->.
    rewrite app_nil_r. eauto.
Qed.

Lemma wp_closed h outcome : wp (O:=O) (held_end E h outcome) (λ _ ms, Closed h ms).
Proof.
  eapply wp_mono; [apply wp_held_end|]. intros _ ms (tr & -> & _ & _ & Ha). by exists tr.
Qed.

(** The tracker of a request once committed, up to what the body shows. *)
Definition same_request (h h' : InFlight) : Prop :=
  held_active h' = held_active h ∧ held_lease h' = held_lease h ∧
  held_status h' = held_status h ∧ held_deployment h' = held_deployment h ∧
  tr_attempts (tk_trace (held_tracker h')) = tr_attempts (tk_trace (held_tracker h)).

Lemma Closed_same h h' ms : same_request h h' → Closed h' ms → Closed h ms.
Proof. intros (Ha & _ & _ & _ & Ht) (tr & -> & Htr). exists tr. by rewrite Ha, <-Ht. Qed.

Lemma rename_body_same status route b h : same_request h (rename_body status route b h).2.
Proof.
  unfold rename_body. destruct b; try done. destruct (is_success_status _); [|done].
  by destruct (rewrite_body_measuring _ _).
Qed.

Lemma rename_body_plain status route u b h s :
  read_body u = Some (Some b) → (rename_body status route b h).1 ≠ Streamed s.
Proof.
  intros Hb. unfold rename_body. destruct b as [|?|x]; [|done|].
  - destruct (is_success_status _); [|done]. destruct (rewrite_body_measuring _ _) as [[]]; done.
  - exfalso. destruct u as [| |v]; simpl in Hb; simplify_eq.
    by destruct (read_whole v) as [[]|]; simplify_eq/=.
Qed.

(** What a commit leaves: a stream still holding the request, or a request
    that is over. *)
Definition commit_marks (h : InFlight) (r : option (Response RelayState))
    (ms : list (Mark O)) : Prop :=
  match r with
  | Some r => match resp_body r with
              | Streamed s => ms = [] ∧ held s = h
              | _ => Closed h ms
              end
  | None => Closed h ms
  end.

Lemma wp_commit r route h : wp (O:=O) (commit E r route h) (commit_marks h).
Proof.
  unfold commit. case_match; [by apply wp_ret|].
  destruct (read_body (resp_body r)) as [[b|]|] eqn:Hb.
  - pose proof (rename_body_same (resp_status r) route b h) as Hs.
    assert (Hns : ∀ s, (rename_body (resp_status r) route b h).1 ≠ Streamed s)
      by (intros s; by eapply rename_body_plain).
    destruct (rename_body _ _ _ _) as [b' h']. cbn [fst snd] in *.
    eapply wp_call; [apply wp_closed|]. intros [] ms Hms. apply wp_ret. rewrite app_nil_r.
    simpl. destruct b'; try (by eapply Closed_same). exfalso. by eapply Hns.
  - eapply wp_call; [apply wp_closed|]. intros [] ms Hms. apply wp_ret. by rewrite app_nil_r.
  - eapply wp_call; [apply wp_closed|]. intros [] ms Hms. apply wp_ret. by rewrite app_nil_r.
Qed.
End relays.

(** ** Attempts *)

Section attempts.
Context `{LowerCase} `{MapIter} `{Exp2} `{SessionHash} `{StrDebug} {J : Json} `{!JsonNumbers J}.
Context (E : Env) (st : RouterState).

Lemma silent_settle key planned failed d t :
  silent (O:=Object) (settle_affinity E key planned failed d t).
Proof. unfold settle_affinity. silence; try apply silent_atomically. Qed.

Lemma silent_record_unfit route unfit : silent (O:=Object) (record_unfit route unfit).
Proof. unfold record_unfit. induction (mjoin _) as [|g gs IH]; simpl; silence. Qed.

Lemma silent_judge r node body : silent (O:=Object) (judge_refusal E r node body).
Proof. unfold judge_refusal. silence. apply silent_atomically. Qed.

(** The one request an attempt sends. *)
Definition send_of (endpoint : Endpoint) (headers : HeaderMap) (request_id : str) (node : Node)
    (request : Object) : UpstreamRequest Object :=
  mkSend (Domain.endpoint node (endpoint_path endpoint)) (lit "application/json") request_id
    (headers !! lit "accept") (header_value (auth node)) request.

Lemma wp_attempt_one endpoint headers id route node c request :
  wp (attempt_one E endpoint headers id route node c request)
    (λ _ ms, ms = [Sent (cand_deployment c) (send_of endpoint headers id node request)]).
Proof.
  unfold attempt_one. wp_skip. apply wp_bind, wp_event.
  match goal with |- wp ?m _ => assert (Hm : silent m) end; last first.
  { eapply wp_mono; [exact Hm|]. by intros ? ? ->. }
  silence; try apply silent_atomically. apply silent_judge.
Qed.

Lemma wp_bounded {A} b (m : M (Polled A)) ms0 :
  wp m (λ _ ms, ms = ms0) →
  wp (O:=Object) (bounded E b m) (λ r ms, ms = ms0 ∧ (r = Some Cut → b ≠ None)).
Proof.
  intros Hm. eapply wp_call; [exact Hm|]. intros p ms ->.
  destruct p as [a|]; [by apply wp_ret; rewrite app_nil_r|].
  destruct b as [b|]; [|by apply wp_ret; rewrite app_nil_r].
  apply wp_bind, wp_look. intros n. apply wp_ret. by rewrite app_nil_r.
Qed.

Section walks.
Context (endpoint : Endpoint) (headers : HeaderMap) (request_id : str) (route : Route)
  (needs : RequestRequirements) (active : bool) (budget : option RequestBudget)
  (session : option AffinityKey) (plan : Plan)
  (observed : gmap DeploymentId DeploymentObservation).

Implicit Types w : Walk Object.

Definition tried w : list AttemptTrace := tr_attempts (tk_trace (wk_tracker w)).

(** The floor of the contexts worth trying after an attempt. *)
Definition floor_after (floor : option u32) (c : Candidate) (o : AttemptOutcome) : option u32 :=
  match o with
  | AttOverflow => Some (Z.max (default U32_MAX (context_of observed c)) (default 0 floor))
  | _ => floor
  end.

(** The walk [w'] is [w] after one attempt at [c], which ended as [o]. *)
Record Attempted (c : Candidate) (o : AttemptOutcome) w w' : Prop := {
  at_attempts : ∃ a, tried w' = tried w ++ [a] ∧ at_route a = route_name route ∧
    at_deployment a = cand_deployment c ∧ at_outcome a = o;
  at_request : wk_request w' =
    object_insert (lit "model") (of_string (cand_remote_model c)) (wk_request w);
  at_count : wk_attempts w' = S (wk_attempts w);
  at_reservation : wk_reservation w' = None;
  at_budget : tk_budget (wk_tracker w') = tk_budget (wk_tracker w) }.

Definition Tried (c : Candidate) (o : AttemptOutcome) w w' : Prop :=
  Attempted c o w w' ∧ wk_too_small w' = floor_after (wk_too_small w) c o.

(** How a turn that did not commit may end, in the walk [w']. *)
Definition carries_on (t : Turn Object) w' : Prop :=
  t = TurnNext w' ∨ (t = TurnReturn (RouteBudget (wk_tracker w') false) w' ∧ budget ≠ None).

(** Only a budget refuses. *)
Lemma wp_expired : wp (O:=Object) (expired E budget) (λ b ms, ms = [] ∧ (b = true → budget ≠ None)).
Proof.
  unfold expired. destruct budget as [b|]; [|by apply wp_ret].
  apply wp_bind, wp_look. intros n. by apply wp_ret.
Qed.

Lemma wp_after_next attempt c rest refusal w w1 :
  Tried c AttFailed w w1 →
  wp (O:=Object) (after_next E route budget plan observed attempt rest refusal w1)
    (λ t ms, ms = [] ∧ ∃ w', Tried c AttFailed w w' ∧ carries_on t w').
Proof.
  intros HT1. unfold after_next, carries_on.
  match goal with |- context [mkWalk ?a ?b ?c' ?d ?e ?f ?g ?h] =>
    set (w' := mkWalk a b c' d e f g h) end.
  assert (HT : Tried c AttFailed w w') by (destruct HT1 as [[] ?]; by split).
  clearbody w'. case_match; [|by apply wp_ret; eauto].
  eapply wp_call; [apply wp_expired|]. intros spent ms [-> Hs].
  destruct spent; [by apply wp_ret; eauto 8|]. wp_skip. apply wp_ret; eauto.
Qed.

Lemma tried_note_overflow c r t :
  tr_attempts (tk_trace (note_overflow needs observed c t)) = tr_attempts (tk_trace t) ∧
  tr_attempts (tk_trace (note_answered observed r c t)) = tr_attempts (tk_trace t).
Proof. by destruct r. Qed.

Lemma wp_after_overflow attempt c rest refusal w w1 :
  Attempted c AttOverflow w w1 → wk_too_small w1 = wk_too_small w →
  wp (O:=Object) (after_overflow E route needs budget plan observed attempt c rest refusal w1)
    (λ t ms, ms = [] ∧ ∃ w', Tried c AttOverflow w w' ∧ (carries_on t w' ∨ t = TurnBreak w')).
Proof.
  intros HA Hf. unfold after_overflow, carries_on. cbv zeta.
  match goal with |- context [mkWalk ?a ?b ?c' ?d ?e _ ?g ?h] =>
    set (w' := λ f, mkWalk a b c' d e f g h) end.
  assert (HT : ∀ f, Tried c AttOverflow w (w' f)).
  { intros f. destruct HA. split; [by split|]. simpl. by rewrite Hf. }
  case_match; [|apply wp_ret; by eauto 6].
  eapply wp_call; [apply wp_expired|]. intros spent ms [-> Hs].
  destruct spent; [apply wp_ret; by eauto 9|]. wp_skip. wp_skip. apply wp_ret; eauto 8.
Qed.

Lemma tried_note_budget t :
  wp (O:=Object) (note_budget E budget t) (λ t' ms, ms = [] ∧
    tr_attempts (tk_trace t') = tr_attempts (tk_trace t)).
Proof.
  unfold note_budget. destruct budget as [b|]; [|by apply wp_ret].
  wp_skip. cbv zeta. wp_skip. by apply wp_ret.
Qed.

Lemma wp_settle key planned failed d t :
  wp (O:=Object) (settle_affinity E key planned failed d t) (λ t' ms, ms = [] ∧
    tr_attempts (tk_trace t') = tr_attempts (tk_trace t)).
Proof.
  unfold settle_affinity. cbv zeta. case_match.
  - wp_skip. apply wp_silent; [apply silent_atomically|intros _]. wp_skip. by apply wp_ret.
  - wp_skip. apply wp_silent; [apply silent_atomically|intros _]. by apply wp_ret.
Qed.

(** The marks of a commit: the request is counted, once; then it is over, or
    held by the stream. *)
Definition committed_marks (t : Turn Object) w' (ms : list (Mark Object)) : Prop :=
  ∃ h o ms', ms = Counted (route_name route) o :: ms' ∧
    held_active h = active ∧ tr_attempts (tk_trace (held_tracker h)) = tried w' ∧
    ((∃ r, t = TurnReturn (RouteCommitted r) w' ∧ commit_marks h (Some r) ms') ∨
     (t = TurnReturn Gone w' ∧ commit_marks h None ms')).

Lemma wp_after_commit c reason r sent lease w w' :
  Attempted c AttCommitted w w' →
  wp (O:=Object) (after_commit E route active budget session plan observed c reason r sent lease w')
    (λ t ms, committed_marks t w' ms).
Proof.
  intros _. unfold after_commit. cbv zeta.
  eapply wp_call with (P := λ t ms, ms = [] ∧ tr_attempts (tk_trace t) = tried w').
  { destruct session; [|by apply wp_ret; destruct (wk_after_overflow w')].
    case_match; [|by apply wp_ret; destruct (wk_after_overflow w')].
    eapply wp_mono; [apply wp_settle|]. intros t ms [-> ->]. by destruct (wk_after_overflow w'). }
  intros t ms [-> Ht]. eapply wp_bind, wp_event. wp_skip.
  eapply wp_call; [apply tried_note_budget|]. intros t' ms [-> Ht'].
  eapply wp_call; [apply wp_commit|]. intros answer ms Hans. apply wp_ret.
  rewrite app_nil_r. eexists _, _, ms. split; [done|]. split; [|split; [|destruct answer; eauto]].
  - done.
  - simpl. rewrite Ht'. exact Ht.
Qed.

(** ** One turn *)

(** The turn's marks, in full. *)
Definition the_send (c : Candidate) (node : Node) w : Mark Object :=
  Sent (cand_deployment c) (send_of endpoint headers request_id node
    (object_insert (lit "model") (of_string (cand_remote_model c)) (wk_request w))).

(** What an attempt at [c] comes to. *)
Inductive attempt_result (c : Candidate) w : Turn Object → list (Mark Object) → Prop :=
| result_refused o t w' :
    Tried c o w w' → o = AttFailed ∨ o = AttOverflow →
    carries_on t w' ∨ t = TurnBreak w' ∧ o = AttOverflow → attempt_result c w t []
| result_cut w' :
    Tried c AttExhausted w w' → budget ≠ None →
    attempt_result c w (TurnReturn (RouteBudget (wk_tracker w') false) w') []
| result_committed t w' ms :
    Tried c AttCommitted w w' → committed_marks t w' ms → attempt_result c w t ms
| result_gone w' tr :
    tr_attempts tr = tried w → wk_reservation w' = None →
    attempt_result c w (TurnReturn Gone w') (Traced tr :: if active then [Left] else []).

Lemma wp_try_candidate attempt c node reason rest w :
  wp (O:=Object)
    (try_candidate E endpoint headers request_id route needs active budget session plan observed
       attempt c node reason rest w)
    (λ t ms, ∃ ms', ms = the_send c node w :: ms' ∧ attempt_result c w t ms').
Proof.
  unfold try_candidate. apply wp_silent.
  { unfold lease_for. silence. }
  intros lease. cbv zeta. eapply wp_call; [apply wp_bounded, wp_attempt_one|].
  intros b ms [-> Hcut]. destruct b as [[[[r|refusal|refusal] sent]|]|].
  - eapply wp_mono; [apply (wp_after_commit c _ _ _ _ w)|].
    + split; [eexists; by split_and!|done..].
    + intros t ms Hms. eexists. split; [done|]. eapply result_committed; [|exact Hms].
      split; [|done]. split; [eexists; by split_and!|done..].
  - wp_skip. eapply wp_mono; [eapply (wp_after_next _ c _ _ w)|].
    + split; [|done]. split; [eexists; by split_and!|done..].
    + intros t ms (-> & w' & HT & Ht). eexists. split; [done|]. eapply result_refused; eauto.
  - wp_skip. eapply wp_mono; [eapply (wp_after_overflow _ c _ _ w)|].
    + split; [eexists; by split_and!|done..].
    + done.
    + intros t ms (-> & w' & HT & Ht). eexists. split; [done|].
      eapply result_refused; [exact HT|by right|]. destruct Ht; eauto.
  - wp_skip. apply wp_ret. eexists. split; [done|].
    match goal with |- attempt_result _ _ (TurnReturn _ ?w') _ => apply (result_cut c w w') end; [|by apply Hcut].
    split; [|done]. split; [eexists; by split_and!|done..].
  - wp_skip. eapply wp_call; [apply wp_tracker_finish|]. intros _ ms (tr & -> & _ & _ & Ha).
    eapply wp_call with (P := λ _ ms, ms = if active then [Left] else []).
    { destruct active; [by apply wp_event|by apply wp_ret]. }
    intros _ ms ->. apply wp_ret. eexists. rewrite !app_nil_r. split; [done|].
    by apply result_gone.
Qed.

(** One turn: passed over, stopped before it began, or an attempt. *)
Inductive turned (attempt : nat) (c : Candidate) w : Turn Object → list (Mark Object) → Prop :=
| turned_over : turned attempt c w (TurnNext w) []
| turned_off : plan_candidates plan !! attempt = None → turned attempt c w (TurnBreak w) []
| turned_spent :
    budget ≠ None →
    turned attempt c w
      (TurnReturn (RouteBudget (wk_tracker w) (bool_decide (wk_attempts w = 0%nat))) w) []
| turned_tried node t ms :
    larger_than observed c (wk_too_small w) = true →
    find_node (topology st) (cand_node c) = Some node →
    attempt_result c w t ms → turned attempt c w t (the_send c node w :: ms).

Lemma wp_turn attempt c rest w :
  wp (O:=Object)
    (turn E st endpoint headers request_id route needs active budget session plan observed attempt
       c rest w)
    (turned attempt c w).
Proof.
  unfold turn. destruct (larger_than observed c _) eqn:Hl; simpl; [|apply wp_ret; constructor].
  destruct (decision plan attempt) as [d|] eqn:Hd; last first.
  { apply wp_ret. constructor. unfold decision in Hd. by destruct (plan_candidates plan !! attempt). }
  destruct (find_node _ _) as [node|] eqn:Hn; [|apply wp_ret; constructor].
  eapply wp_call; [apply wp_expired|]. intros spent ms [-> Hs].
  destruct spent; [apply wp_ret; constructor; auto|].
  eapply wp_mono; [apply wp_try_candidate|]. intros t ms (ms' & -> & Ht). by eapply turned_tried.
Qed.

(** ** The whole walk, as a relation *)

Inductive walked : nat → list Candidate → Walk Object → option RouteEnd → Walk Object →
    list (Mark Object) → Prop :=
| walked_end i w : walked i [] w None w []
| walked_next i c cs w w1 e w' ms1 ms2 :
    turned i c w (TurnNext w1) ms1 → walked (S i) cs w1 e w' ms2 →
    walked i (c :: cs) w e w' (ms1 ++ ms2)
| walked_break i c cs w w' ms :
    turned i c w (TurnBreak w') ms → walked i (c :: cs) w None w' ms
| walked_return i c cs w w' e ms :
    turned i c w (TurnReturn e w') ms → walked i (c :: cs) w (Some e) w' ms.

Lemma wp_walk i cs w :
  wp (O:=Object)
    (walk E st endpoint headers request_id route needs active budget session plan observed i cs w)
    (λ r ms, walked i cs w r.1 r.2 ms).
Proof.
  revert i w. induction cs as [|c cs IH]; intros i w; simpl; [apply wp_ret; constructor|].
  eapply wp_call; [apply wp_turn|]. intros t ms Ht. destruct t as [w1|w1|e w1].
  - eapply wp_mono; [apply IH|]. intros r ms' Hr. by eapply walked_next.
  - apply wp_ret. rewrite app_nil_r. by apply walked_break.
  - apply wp_ret. rewrite app_nil_r. by apply walked_return.
Qed.

(** *** Who is asked *)

Definition sent_to (ms : list (Mark Object)) : list DeploymentId :=
  omap (λ m, match m with Sent d _ => Some d | _ => None end) ms.

Definition last_traced (ms : list (Mark Object)) : option (list AttemptTrace) :=
  last (omap (λ m, match m with Traced tr => Some (tr_attempts tr) | _ => None end) ms).

Definition counted (ms : list (Mark Object)) : list (RouteName * RequestOutcome) :=
  omap (λ m, match m with Counted r o => Some (r, o) | _ => None end) ms.

Definition traces_of (ms : list (Mark Object)) : list RoutingTrace :=
  omap (λ m, match m with Traced tr => Some tr | _ => None end) ms.

Definition left_of (ms : list (Mark Object)) : nat :=
  length (omap (λ m, match m with Left => Some tt | _ => None end) ms).

(** The attempts on record when a route has ended. *)
Definition attempts_of (e : RouteEnd) (ms : list (Mark Object)) : option (list AttemptTrace) :=
  match e with
  | RouteFailed f => Some (tr_attempts (tk_trace (fail_tracker f)))
  | RouteBudget t _ => Some (tr_attempts (tk_trace t))
  | RouteCommitted r =>
      match resp_body r with
      | Streamed s => Some (tr_attempts (tk_trace (held_tracker (held s))))
      | _ => last_traced ms
      end
  | Gone => last_traced ms
  end.

Definition end_attempts (e : option RouteEnd) w (ms : list (Mark Object))
    : option (list AttemptTrace) :=
  match e with
  | None => Some (tried w)
  | Some e => attempts_of e ms
  end.

(** Attempts at increasing contexts: nothing is tried that is not known to be
    larger than what has overflowed. *)
Fixpoint climbs (floor : option u32) (log : list (Candidate * AttemptOutcome)) : Prop :=
  match log with
  | [] => True
  | (c, o) :: log => larger_than observed c floor = true ∧ climbs (floor_after floor c o) log
  end.

(** The trace of an attempt at a candidate. *)
Definition traces (co : Candidate * AttemptOutcome) (a : AttemptTrace) : Prop :=
  at_route a = route_name route ∧ at_deployment a = cand_deployment co.1 ∧ at_outcome a = co.2.

(** Whether the request goes on after an attempt. *)
Definition goes_on (o : AttemptOutcome) : Prop := o = AttFailed ∨ o = AttOverflow.

Lemma marks_app_omap {A} (f : Mark Object → option A) ms1 ms2 :
  omap f (ms1 ++ ms2) = omap f ms1 ++ omap f ms2.
Proof. apply omap_app. Qed.

Lemma last_traced_app ms1 ms2 : is_Some (last_traced ms2) → last_traced (ms1 ++ ms2) = last_traced ms2.
Proof.
  unfold last_traced. rewrite omap_app, last_app. intros [x ->]. done.
Qed.

(** *** What is counted *)

(** Nothing counted, traced or let go of. *)
Definition uncounted (ms : list (Mark Object)) : Prop :=
  counted ms = [] ∧ traces_of ms = [] ∧ left_of ms = 0%nat.

(** Over and done with: one trace, and the guard dropped. *)
Definition concluded (ms : list (Mark Object)) : Prop :=
  length (traces_of ms) = 1%nat ∧ left_of ms = if active then 1%nat else 0%nat.

(** What a route's end leaves counted. *)
Definition end_counts (e : option RouteEnd) (ms : list (Mark Object)) : Prop :=
  match e with
  | None | Some (RouteBudget _ _) => uncounted ms
  | Some (RouteFailed _) => False
  | Some (RouteCommitted r) =>
      (∃ o, counted ms = [(route_name route, o)]) ∧
      match resp_body r with
      | Streamed s => traces_of ms = [] ∧ left_of ms = 0%nat ∧ held_active (held s) = active
      | _ => concluded ms
      end
  | Some Gone => (length (counted ms) ≤ 1)%nat ∧ concluded ms
  end.

Lemma uncounted_app ms1 ms2 e : uncounted ms1 → end_counts e ms2 → end_counts e (ms1 ++ ms2).
Proof.
  intros (Hc1 & Ht1 & Hl1).
  assert (Hc : counted (ms1 ++ ms2) = counted ms2) by (unfold counted in *; by rewrite omap_app, Hc1).
  assert (Ht : traces_of (ms1 ++ ms2) = traces_of ms2)
    by (unfold traces_of in *; by rewrite omap_app, Ht1).
  assert (Hl : left_of (ms1 ++ ms2) = left_of ms2)
    by (unfold left_of in *; by rewrite omap_app, length_app, Hl1).
  unfold end_counts, uncounted, concluded. by rewrite Hc, Ht, Hl.
Qed.

Lemma Closed_counts h ms : Closed h ms → held_active h = active → counted ms = [] ∧ concluded ms.
Proof. intros (tr & -> & _) Ha. rewrite Ha. unfold concluded. by destruct active. Qed.

Lemma committed_counts t w' ms :
  committed_marks t w' ms → ∃ e, t = TurnReturn e w' ∧ end_counts (Some e) ms.
Proof.
  intros (h & o & ms' & -> & Ha & _ & [(r & -> & Hr)|(-> & Hr)]); eexists; (split; [done|]);
    simpl in Hr |- *.
  - destruct (resp_body r).
    + destruct (Closed_counts _ _ Hr Ha) as [Hc Hd]. split; [|exact Hd]. exists o. csimpl.
      unfold counted in *. simpl. by rewrite Hc.
    + destruct (Closed_counts _ _ Hr Ha) as [Hc Hd]. split; [|exact Hd]. exists o. csimpl.
      unfold counted in *. simpl. by rewrite Hc.
    + destruct Hr as [-> ->]. eauto.
  - destruct (Closed_counts _ _ Hr Ha) as [Hc Hd]. split; [|exact Hd].
    unfold counted in *. simpl. rewrite Hc. simpl. lia.
Qed.

Lemma turned_counts i c w t ms :
  turned i c w t ms →
  match t with TurnReturn e _ => end_counts (Some e) ms | _ => uncounted ms end.
Proof.
  intros Ht. destruct Ht as [| | |node t ms Hl Hn Hr]; [done..|].
  assert (Hs : uncounted [the_send c node w]) by done.
  change (the_send c node w :: ms) with ([the_send c node w] ++ ms).
  destruct Hr as [o t w' HT Ho Ht|w' HT Hb|t w' ms HT Hc|w' tr Htr Hres].
  - destruct Ht as [[->|[-> _]]|[-> _]]; done.
  - done.
  - destruct (committed_counts _ _ _ Hc) as (e & -> & He). by apply (uncounted_app _ _ (Some e)).
  - apply (uncounted_app _ _ (Some Gone)); [done|]. split; [destruct active; simpl; lia|].
    unfold concluded. by destruct active.
Qed.

Lemma walked_counts i cs w e w' ms : walked i cs w e w' ms → end_counts e ms.
Proof.
  induction 1 as [|i c cs w w1 e w' ms1 ms2 Ht _ IH|i c cs w w' ms Ht|i c cs w w' e ms Ht];
    [done|..]; apply turned_counts in Ht; [|exact Ht..]. by apply uncounted_app.
Qed.

(** *** What is tried *)

(** How the outcomes of a route's attempts end. *)
Definition outcomes_of (e : option RouteEnd) (os : list AttemptOutcome) : Prop :=
  match e with
  | None => Forall goes_on os
  | Some (RouteFailed _) => False
  | Some (RouteBudget _ _) =>
      Forall goes_on os ∨ ∃ l, os = l ++ [AttExhausted] ∧ Forall goes_on l
  | Some (RouteCommitted _) => ∃ l, os = l ++ [AttCommitted] ∧ Forall goes_on l
  | Some Gone => Forall goes_on os ∨ ∃ l, os = l ++ [AttCommitted] ∧ Forall goes_on l
  end.

(** What is on record of a walk: the attempts, in the order of the plan, at
    contexts that climb; nodes are asked in that order, one more at the end
    when the client went away while one was asked. *)
Record logged (cs : list Candidate) w (e : option RouteEnd) w' (ms : list (Mark Object))
    (log : list (Candidate * AttemptOutcome)) (new : list AttemptTrace) : Prop := {
  log_order : log.*1 `sublist_of` cs;
  log_climbs : climbs (wk_too_small w) log;
  log_traces : Forall2 traces log new;
  log_end : end_attempts e w' ms = Some (tried w ++ new);
  log_outcomes : outcomes_of e log.*2;
  log_sent : sent_to ms = cand_deployment <$> log.*1 ∨
    ∃ c, e = Some Gone ∧ log.*1 ++ [c] `sublist_of` cs ∧
      sent_to ms = cand_deployment <$> log.*1 ++ [c] }.
Lemma goes_on_committed e os o :
  goes_on o → outcomes_of e os → outcomes_of e (o :: os).
Proof.
  intros Ho. unfold outcomes_of.
  assert (Hl : ∀ x, (∃ l, os = l ++ [x] ∧ Forall goes_on l) → ∃ l, o :: os = l ++ [x] ∧ Forall goes_on l).
  { intros x (l & -> & Hl). exists (o :: l). split; [done|by constructor]. }
  destruct e as [[]|]; auto; intros [|]; auto.
Qed.

(** A turn that goes on leaves at most one attempt more. *)
Lemma turned_next i c w w1 ms :
  turned i c w (TurnNext w1) ms →
  w1 = w ∧ ms = [] ∨
  ∃ o node, goes_on o ∧ Tried c o w w1 ∧ ms = [the_send c node w] ∧
    larger_than observed c (wk_too_small w) = true.
Proof.
  inversion 1 as [| | |node t ms' Hl Hn Hr]; subst; [by left|]. right.
  inversion Hr as [o t w' HT Ho Ht| |t w' ms HT Hc|]; subst.
  - exists o, node. destruct Ht as [[[= ->]|[? _]]|[? _]]; [by auto|done..].
  - destruct Hc as (? & ? & ? & _ & _ & _ & [(? & ? & _)|(? & _)]); done.
Qed.

Lemma turned_break_inv i c w w1 ms :
  turned i c w (TurnBreak w1) ms →
  w1 = w ∧ ms = [] ∨
  ∃ node, Tried c AttOverflow w w1 ∧ ms = [the_send c node w] ∧
    larger_than observed c (wk_too_small w) = true.
Proof.
  inversion 1 as [| | |node t ms' Hl Hn Hr]; subst; [by left|]. right.
  inversion Hr as [o t w' HT Ho Ht| |t w' ms HT Hc|]; subst.
  - exists node. destruct Ht as [[?|[? _]]|[[= ->] ->]]; done.
  - destruct Hc as (? & ? & ? & _ & _ & _ & [(? & ? & _)|(? & _)]); done.
Qed.

(** The end of a walk, one attempt further on. *)
Lemma end_attempts_app e w ms1 ms2 :
  is_Some (end_attempts e w ms2) → end_attempts e w (ms1 ++ ms2) = end_attempts e w ms2.
Proof.
  destruct e as [[r|f|t b|]|]; simpl; auto using last_traced_app.
  destruct (resp_body r); auto using last_traced_app.
Qed.

Lemma sent_to_app ms1 ms2 : sent_to (ms1 ++ ms2) = sent_to ms1 ++ sent_to ms2.
Proof. apply omap_app. Qed.

Lemma logged_skip c cs w e w' ms log new :
  logged cs w e w' ms log new → logged (c :: cs) w e w' ms log new.
Proof.
  intros [Ho Hc Ht He Hos Hs]. split; auto; [by constructor|].
  destruct Hs as [|(x & -> & Hx & Hs)]; [by left|]. right. exists x. split_and!; [done| |done].
  by constructor.
Qed.

Lemma logged_next c cs o node w w1 e w' ms log new :
  goes_on o → Tried c o w w1 → larger_than observed c (wk_too_small w) = true →
  logged cs w1 e w' ms log new →
  ∃ a, logged (c :: cs) w e w' ([the_send c node w] ++ ms) ((c, o) :: log) (a :: new).
Proof.
  intros Hgo [[(a & Ha & Hr & Hd & Hout) _ _ _ _] Hfl] Hl [Ho Hc Ht He Hos Hs].
  exists a. split.
  - by constructor.
  - split; [done|]. by rewrite <-Hfl.
  - by constructor.
  - rewrite end_attempts_app by eauto. rewrite He, Ha, <-app_assoc. done.
  - by apply goes_on_committed.
  - rewrite sent_to_app. destruct Hs as [->|(x & -> & Hx & ->)]; [by left|]. right.
    exists x. split_and!; [done|by constructor|done].
Qed.

Lemma logged_none cs w : logged cs w None w [] [] [].
Proof.
  split; [apply sublist_nil_l|done|done|simpl; by rewrite app_nil_r|by constructor|by left].
Qed.

(** What a commit or the client's leaving puts on record. *)
Lemma committed_logged c cs node w t w' ms :
  Tried c AttCommitted w w' → larger_than observed c (wk_too_small w) = true →
  committed_marks t w' ms →
  ∃ e a, t = TurnReturn e w' ∧
    logged (c :: cs) w (Some e) w' (the_send c node w :: ms) [(c, AttCommitted)] [a].
Proof.
  intros [[(a & Ha & Hr & Hd & Hout) _ _ _ _] _] Hl (h & o & ms' & -> & Hact & Htr & Hcase).
  assert (Hend : ∀ msx, Closed h msx → sent_to msx = [] ∧
    last_traced (the_send c node w :: Counted (route_name route) o :: msx) = Some (tried w ++ [a])).
  { intros msx (tr & -> & Hat). rewrite <-Ha, <-Htr, <-Hat. by destruct (held_active h). }
  destruct Hcase as [(r & -> & Hms)|[-> Hms]].
  - exists (RouteCommitted r), a. split; [done|].
    assert (Hboth : sent_to ms' = [] ∧ end_attempts (Some (RouteCommitted r)) w'
      (the_send c node w :: Counted (route_name route) o :: ms') = Some (tried w ++ [a])).
    { simpl in Hms |- *. destruct (resp_body r); [by apply Hend..|].
      destruct Hms as [-> ->]. by rewrite Htr, Ha. }
    destruct Hboth as [Hs He]. split; [by apply sublist_skip, sublist_nil_l|done
      |by apply Forall2_cons|exact He|by exists []|].
    left. change (_ :: _ :: ms') with ([the_send c node w; Counted (route_name route) o] ++ ms').
    by rewrite sent_to_app, Hs.
  - exists Gone, a. split; [done|]. destruct (Hend _ Hms) as [Hs He].
    split; [by apply sublist_skip, sublist_nil_l|done|by repeat constructor|exact He
      |by right; exists []|].
    left. change (_ :: _ :: ms') with ([the_send c node w; Counted (route_name route) o] ++ ms').
    by rewrite sent_to_app, Hs.
Qed.

Lemma turned_return_logged i c cs w w' e ms :
  turned i c w (TurnReturn e w') ms →
  ∃ log new, logged (c :: cs) w (Some e) w' ms log new.
Proof.
  inversion 1 as [| | |node t ms' Hl Hn Hr]; subst.
  { exists [], []. split; [apply sublist_nil_l|done|done|simpl; by rewrite app_nil_r
      |left; by constructor|by left]. }
  inversion Hr as [o t w1 HT Ho Ht|w1 HT Hb|t w1 ms1 HT Hc|w1 tr Htr Hres]; subst.
  { assert (He : e = RouteBudget (wk_tracker w1) false ∧ w' = w1).
    { destruct Ht as [[?|[Ht _]]|[? _]]; [done| |done]. by injection Ht. }
    destruct He as [-> ->].
    destruct HT as [[(a & Ha & Hr' & Hd & Hout) _ _ _ _] Hfl].
    exists [(c, o)], [a]. split; [by apply sublist_skip, sublist_nil_l|done|by apply Forall2_cons
      |simpl; by rewrite <-Ha|left; by apply Forall_singleton|by left]. }
  - destruct HT as [[(a & Ha & Hr' & Hd & Hout) _ _ _ _] Hfl].
    exists [(c, AttExhausted)], [a]. split; [by apply sublist_skip, sublist_nil_l|done
      |by apply Forall2_cons|simpl; by rewrite <-Ha|right; by exists []|by left].
  - destruct (committed_logged c cs node _ _ _ _ HT Hl Hc) as (e' & a & [= -> ->] & Hlog). eauto.
  - exists [], []. split; [apply sublist_nil_l|done|done|..|left; by constructor|].
    + simpl. rewrite app_nil_r, <-Htr. by destruct active.
    + right. exists c. split_and!; [done|by apply sublist_skip, sublist_nil_l|by destruct active].
Qed.

Lemma walked_logged i cs w e w' ms :
  walked i cs w e w' ms → ∃ log new, logged cs w e w' ms log new.
Proof.
  induction 1 as [i w|i c cs w w1 e w' ms1 ms2 Ht _ (log & new & IH)|i c cs w w' ms Ht
    |i c cs w w' e ms Ht].
  - exists [], []. apply logged_none.
  - destruct (turned_next _ _ _ _ _ Ht) as [[-> ->]|(o & node & Ho & HT & -> & Hl)].
    + exists log, new. by apply logged_skip.
    + destruct (logged_next _ _ _ node _ _ _ _ _ _ _ Ho HT Hl IH) as [a Ha]. eauto.
  - destruct (turned_break_inv _ _ _ _ _ Ht) as [[-> ->]|(node & HT & -> & Hl)].
    + exists [], []. apply logged_none.
    + destruct (logged_next c cs AttOverflow node w w' None w' [] [] []) as [a Ha];
        [by right|done|done|apply logged_none|]. eauto.
  - by eapply turned_return_logged.
Qed.

Lemma walked_first i cs w e w' ms t :
  walked i cs w e w' ms → e = Some (RouteBudget t true) → wk_attempts w = 0%nat ∧ sent_to ms = [].
Proof.
  induction 1 as [i w|i c cs w w1 e w' ms1 ms2 Ht _ IH|i c cs w w' ms Ht|i c cs w w' e ms Ht]; [done|..].
  - intros ->. destruct (turned_next _ _ _ _ _ Ht) as [[-> ->]|(o & node & Ho & [[_ _ Hc _ _] _] & _)];
      [by apply IH|]. destruct (IH eq_refl) as [Hz _]. lia.
  - done.
  - intros [= ->]. inversion Ht as [| | |node t' ms' Hl Hn Hr]; subst.
    + split; [|done].
      match goal with Hz : bool_decide _ = true |- _ => by apply bool_decide_eq_true in Hz end.
    + inversion Hr as [o t1 w1 HT Ho Hc| |t1 w1 ms1 HT Hc|]; subst.
      * destruct Hc as [[?|[? _]]|[? _]]; done.
      * destruct Hc as (? & ? & ? & _ & _ & _ & [(? & ? & _)|(? & _)]); done.
Qed.

(** The budget stays the request's own, and nothing else stops a route. *)
Lemma turned_budget i c w t ms :
  turned i c w t ms →
  match t with
  | TurnNext w' | TurnBreak w' => tk_budget (wk_tracker w') = tk_budget (wk_tracker w)
  | TurnReturn (RouteBudget t _) _ => tk_budget t = tk_budget (wk_tracker w) ∧ budget ≠ None
  | TurnReturn (RouteFailed _) _ => False
  | TurnReturn _ _ => True
  end.
Proof.
  intros Ht. destruct Ht as [| | |node t ms Hl Hn Hr]; try done.
  destruct Hr as [o t w' [[_ _ _ _ Hb] _] Ho Ht|w' [[_ _ _ _ Hb] _] Hbud|t w' ms HT Hc|w' tr Htr Hres].
  - destruct Ht as [[->|[-> ?]]|[-> _]]; done.
  - done.
  - destruct Hc as (? & ? & ? & _ & _ & _ & [(? & -> & _)|(-> & _)]); done.
  - done.
Qed.

Lemma walked_budget i cs w e w' ms :
  walked i cs w e w' ms →
  match e with
  | None => tk_budget (wk_tracker w') = tk_budget (wk_tracker w)
  | Some (RouteBudget t _) => tk_budget t = tk_budget (wk_tracker w) ∧ budget ≠ None
  | Some (RouteFailed _) => False
  | Some _ => True
  end.
Proof.
  induction 1 as [i w|i c cs w w1 e w' ms1 ms2 Ht _ IH|i c cs w w' ms Ht|i c cs w w' e ms Ht];
    [done|..]; apply turned_budget in Ht; [|exact Ht..].
  destruct e as [[]|]; try done; by rewrite <-Ht.
Qed.

(** What a mark says of who is asked. *)
Definition addressed (cs : list Candidate) (request : Object) (m : Mark Object) : Prop :=
  match m with
  | Sent d r => ∃ c node request',
      c ∈ cs ∧ cand_deployment c = d ∧ find_node (topology st) (cand_node c) = Some node ∧
      r = send_of endpoint headers request_id node
            (object_insert (lit "model") (of_string (cand_remote_model c)) request') ∧
      (request' = request ∨ ∃ c' request'', c' ∈ cs ∧
         request' = object_insert (lit "model") (of_string (cand_remote_model c')) request'')
  | _ => True
  end.

Lemma turned_addressed i c cs w t ms m :
  turned i c w t ms → m ∈ ms → addressed (c :: cs) (wk_request w) m.
Proof.
  intros Ht Hm. destruct Ht as [| | |node t ms Hl Hn Hr]; try by apply not_elem_of_nil in Hm.
  apply elem_of_cons in Hm as [->|Hm].
  { exists c, node, (wk_request w). split_and!; try done; [by left|by left]. }
  assert (Hc : ∀ h msx, Closed h msx → m ∈ msx → addressed (c :: cs) (wk_request w) m).
  { intros h msx (tr & -> & _). destruct (held_active h).
    - intros [->|[->|[]%not_elem_of_nil]%elem_of_cons]%elem_of_cons; done.
    - intros ->%list_elem_of_singleton. done. }
  destruct Hr as [| |t w' ms HT (h & o & ms' & -> & _ & _ & Hcase)|w' tr Htr Hres].
  - by apply not_elem_of_nil in Hm.
  - by apply not_elem_of_nil in Hm.
  - apply elem_of_cons in Hm as [->|Hm]; [done|].
    destruct Hcase as [(r & _ & Hms)|[_ Hms]]; simpl in Hms; [|by eapply Hc].
    destruct (resp_body r); [by eapply Hc..|]. destruct Hms as [-> _].
    by apply not_elem_of_nil in Hm.
  - destruct active.
    + apply elem_of_cons in Hm as [->|Hm%list_elem_of_singleton]; [done|by subst].
    + apply list_elem_of_singleton in Hm. by subst.
Qed.

Lemma walked_addressed i cs w e w' ms m :
  walked i cs w e w' ms → m ∈ ms → addressed cs (wk_request w) m.
Proof.
  induction 1 as [i w|i c cs w w1 e w' ms1 ms2 Ht _ IH|i c cs w w' ms Ht|i c cs w w' e ms Ht];
    intros Hm; [by apply not_elem_of_nil in Hm|..]; [|by eapply turned_addressed..].
  apply elem_of_app in Hm as [Hm|Hm]; [by eapply turned_addressed|]. specialize (IH Hm).
  destruct m as [| | | |d r|]; try done. destruct IH as (c' & node & rq & Hc & Hd & Hn & -> & Hrq).
  exists c', node, rq. split_and!; try done; [by right|].
  destruct Hrq as [->|(c'' & rq' & Hc'' & ->)]; [|right; exists c'', rq'; split; [by right|done]].
  destruct (turned_next _ _ _ _ _ Ht) as [[-> ->]|(o & n & _ & [[_ Hreq _ _ _] _] & _)]; [by left|].
  right. exists c, (wk_request w). split; [by left|done].
Qed.
End walks.

(** ** One attempt at a route *)

Section routes.
Context (endpoint : Endpoint) (headers : HeaderMap) (request : Object) (request_id : str)
  (route : Route) (needs : RequestRequirements) (t : Tracker) (active : bool)
  (planning_started : Instant) (budget : option RequestBudget).

(** An answer that is not a relayed stream. *)
Definition plain (r : Response RelayState) : Prop := ∀ s, resp_body r ≠ Streamed s.

Lemma plain_routing_failure f d : plain (routing_failure f d).
Proof. by destruct f. Qed.

Lemma plain_walk_failure w : plain (fail_response (walk_failure st route w)).
Proof. unfold walk_failure. destruct (wk_refusal w); [done|]. apply plain_routing_failure. Qed.

(** The same request, as far as its attempts and its budget go. *)
Definition alike (t1 t2 : Tracker) : Prop :=
  tr_attempts (tk_trace t2) = tr_attempts (tk_trace t1) ∧ tk_budget t2 = tk_budget t1.

Lemma wp_note_plan plan key t0 :
  wp (O:=Object) (note_plan route plan key t0)
    (λ t' ms, ms = [] ∧ alike t0 t').
Proof.
  unfold note_plan. cbv zeta. destruct key; [|by apply wp_ret].
  apply wp_silent; [by destruct (is_hit plan); auto with silent|]. intros _. by apply wp_ret.
Qed.

Lemma wp_plan_failure failure t0 :
  wp (O:=Object) (plan_failure st route failure t0) (λ f ms, ms = [] ∧
    fail_route f = route_name route ∧ plain (fail_response f) ∧ alike t0 (fail_tracker f)).
Proof.
  unfold plan_failure. cbv zeta.
  destruct failure; try (apply wp_ret; split_and!; try done; apply plain_routing_failure).
  apply wp_silent; [apply silent_record_unfit|]. intros _. wp_skip. by apply wp_ret.
Qed.

(** What [attempt_route] came to: a route that could not be planned, or a walk
    of its plan. *)
Definition route_attempted (r : RouteEnd * Object) (ms : list (Mark Object)) (s : Selector LoadBook)
    (hb ob : HealthBook) (sticky : option DeploymentId) : Prop :=
  match (plan_with_affinity s (topology st) route (hb_nodes hb) (hb_deployments ob) needs sticky).1
  with
  | Err failure => ms = [] ∧ ∃ f, r = (RouteFailed f, request) ∧ fail_route f = route_name route ∧
      plain (fail_response f) ∧ alike t (fail_tracker f)
  | Ok plan => ∃ t' e w',
      alike t t' ∧
      walked endpoint headers request_id route active budget plan (hb_deployments ob) 0
        (plan_candidates plan) (mkWalk t' request (reservation plan) None None false None 0)
        e w' ms ∧
      r = (default (RouteFailed (walk_failure st route w')) e, wk_request w')
  end.

(** What the attempt finds when it starts in the world [w]: the sticky
    deployment of its session; then, one access after another, with the other
    tasks in between, the deployments' observations, the nodes' status and the
    selector. *)
Record Findings := mkFindings {
  found_sticky : option DeploymentId;
  found_observed : HealthBook;
  found_book : HealthBook;
  found_selector : Selector LoadBook }.

Definition findings (w : World Object) : Findings :=
  let '(key, w) := session_of E (route_name route) headers w in
  let '(sticky, w) := lookup_sticky E key w in
  let s1 := others E (steps w) (shared w) in
  let s2 := others E (S (steps w)) s1 in
  let s3 := others E (S (S (steps w))) s2 in
  mkFindings sticky (sh_health s1) (sh_health s2) (sh_selector s3).

Definition found_attempted (f : Findings) (r : RouteEnd * Object) (ms : list (Mark Object)) : Prop :=
  route_attempted r ms (found_selector f) (found_book f) (found_observed f) (found_sticky f).

(** An attempt plans from what it finds. *)
Lemma wp_attempt_found w :
  wp_at w
    (attempt_route E st endpoint headers request request_id route needs t active planning_started
       budget)
    (found_attempted (findings w)).
Proof.
  unfold attempt_route, findings, found_attempted.
  apply wp_at_silent; [apply silent_atomically|].
  destruct (session_of E (route_name route) headers w) as [key w1]. cbn [fst snd].
  apply wp_at_silent; [unfold lookup_sticky; silence; apply silent_atomically|].
  destruct (lookup_sticky E key w1) as [sticky w2]. cbn [fst snd].
  cbv zeta. set (t0 := match key with Some key => _ | None => t end).
  assert (Ht0 : alike t t0) by by destruct key.
  clearbody t0. clear w w1.
  apply wp_at_silent; [apply silent_atomically|]. apply wp_at_silent; [apply silent_atomically|].
  apply wp_at_silent; [apply silent_atomically|]. unfold read_health, with_selector, atomically.
  cbn [fst snd shared steps found_selector found_book found_observed found_sticky].
  set (s1 := others E (steps w2) (shared w2)). set (s2 := others E (S (steps w2)) s1).
  set (s3 := others E (S (S (steps w2))) s2).
  destruct (plan_with_affinity (sh_selector s3) (topology st) route (hb_nodes (sh_health s2))
    (hb_deployments (sh_health s1)) needs sticky) as [p s'] eqn:Hp.
  cbn [fst snd]. match goal with |- wp_at ?w _ _ => generalize w end. apply wp_at_all.
  apply (f_equal fst) in Hp. cbn [fst] in Hp. unfold route_attempted. rewrite Hp.
  destruct p as [plan|failure].
  - apply wp_silent; [apply silent_record_unfit|intros _]. wp_skip. wp_skip.
    eapply wp_call; [apply wp_note_plan|]. intros t1 ms [-> Ht1].
    eapply wp_call; [apply wp_walk|]. intros [e w'] ms Hw. wp_skip. apply wp_ret.
    rewrite app_nil_r. exists t1, e, w'. split; [|done]. destruct Ht0, Ht1; simpl in *. split; congruence.
  - wp_skip. wp_skip. eapply wp_call; [apply wp_plan_failure|]. intros f ms (-> & Hf & Hpl & Hft).
    apply wp_ret. split; [done|]. exists f. split_and!; [done..|]. destruct Ht0, Hft; simpl in *. split; congruence.
Qed.

(** Where what it finds does not matter. *)
Lemma wp_attempt_route :
  wp (attempt_route E st endpoint headers request request_id route needs t active planning_started
        budget)
    (λ r ms, ∃ s hb ob sticky, route_attempted r ms s hb ob sticky).
Proof.
  apply wp_at_all. intros w. eapply wp_at_mono; [apply wp_attempt_found|].
  intros r ms Ha. by do 4 eexists.
Qed.
End routes.
End attempts.
