(* ===== verification/ProxyDemo.v ===== *)
(** * A small router, for concrete examples

    The demo topology of [Domain.v] with both nodes up, a client that names no
    session, and environments in which the nodes answer what an example says.
    JSON is a toy that knows a few texts. *)

From stdpp Require Import base gmap strings numbers list.
From Stdlib Require Import SpecFloat.
From S2P Require Import Prelude Names Utf8 Domain Health Capability Load Select SelectTheorems.
From S2P Require Import Float64 Rewriter Fallback Affinity Budget Classifier Scoring AutoRoute.
From S2P Require Import Responses Trace World Relay Proxy Forward.

(** Strings and objects, read from a few known texts. *)
#[warnings="-register-all"] Inductive Toy := ToyString (s : str) | ToyObject (o : list (str * Toy)).

Definition toy_object (key : string) (v : Toy) : Toy := ToyObject [(lit key, v)].
Definition toy_code (code : string) : Toy := toy_object "error" (toy_object "code" (ToyString (lit code))).

Definition toy_texts : list (str * Toy) :=
  [(lit "for Coder", toy_object "model" (ToyString (lit "Coder")));
   (lit "for Auto", toy_object "model" (ToyString (lit "Auto")));
   (lit "an answer", toy_object "model" (ToyString (lit "Qwen")));
   (lit "too long", toy_code "context_length_exceeded");
   (lit "no such model", toy_code "model_not_found")].

#[export] Instance toy_json : Json := {
  Value := Toy;
  Object := list (str * Toy);
  from_str s := snd <$> find_first (fun kv => bool_decide (kv.1 = s)) toy_texts;
  to_string v := match v with ToyString s => s | ToyObject _ => lit "rewritten" end;
  as_object v := match v with ToyObject o => Some o | _ => None end;
  as_string v := match v with ToyString s => Some s | _ => None end;
  as_items _ := None;
  value_as_u64 _ := None;
  of_object := ToyObject;
  of_string := ToyString;
  empty_object := [];
  object_get o k := snd <$> find_first (fun kv => bool_decide (fst kv = k)) o;
  object_insert k v o := (k, v) :: List.filter (fun kv => negb (bool_decide (fst kv = k))) o }.
#[export] Instance toy_numbers : JsonNumbers toy_json := fun _ => None.
#[export] Instance toy_scalars : JsonScalars toy_json :=
  { is_null _ := false; as_bool _ := None; json_error_text _ := [] }.
#[export] Instance demo_case : LowerCase := ascii_case.
#[export] Instance demo_iter : MapIter := by_key.
#[export] Instance demo_exp2 : Exp2 := fun _ => f64_1.
#[export] Instance demo_hash : SessionHash := fun s => Z.of_nat (length s).
#[export] Instance demo_debug : StrDebug := fun s => [34] ++ s ++ [34].

(** Seconds tick by with every step. *)
Definition demo_env (sends : nat → Sending) : Env :=
  mkEnv (fun n => from_secs (Z.of_nat n)) (fun _ => 0) (fun _ s => s) sends (fun _ => None).

(** The nodes answer in turn: the first sends come before step [k]. *)
Definition first_then (k : nat) (a b : Sending) (n : nat) : Sending :=
  if (n <? k)%nat then a else b.

Definition answer (status : u16) (body : string) : Sending :=
  SendAnswers (mkUpstream status ∅ (mkBody [lit body] BodyComplete)).

Definition unready : Sending := answer 503 "".
Definition answered : Sending := answer 200 "an answer".
Definition too_long : Sending := answer 400 "too long".
Definition refused_connection : Sending := SendFails true (lit "could not connect").

Definition demo_shared (p : RoutePolicy) : Shared :=
  mkShared (both_up p) (Selector_new (demo_topology p))
    (AffinityBook_new demo_affinity) (HistoryBook_new [mkRouteName (lit "Coder")] None)
    (mkStatusInner None None) [].

Definition demo_world (p : RoutePolicy) : World Object := mkWorld (demo_shared p) 0 [].

Definition demo_state (p : RoutePolicy) (budget : option Duration) : RouterState :=
  mkState (demo_topology p) (from_secs 5) budget None.

(** A chat without tools; 100 tokens or so. *)
Definition short_chat : RequestRequirements :=
  mkNeeds (Some ChatCompletions) false TCUnspecified false (Some 100) None.

Definition demo_extract (e : Endpoint) (body : list byte)
    : result RequestRequirements (Response RelayState) := Ok short_chat.

Definition demo_tracker (p : RoutePolicy) (budget : option RequestBudget) : Tracker :=
  mkTracker (RoutingTrace_new (lit "r-1") (mkRouteName (lit "Coder")) ChatCompletions (Some p) 0) 0
    (mkRouteName (lit "Coder")) (Some p) false None budget false.

(** One attempt at the route. *)
Definition demo_attempt (sends : nat → Sending) (budget : option RequestBudget)
    : (RouteEnd * Object) * World Object :=
  attempt_route (demo_env sends) (demo_state Priority None) ChatCompletions ∅ [] (lit "r-1")
    (demo_route Priority) short_chat (demo_tracker Priority budget) true 0 budget
    (demo_world Priority).

(** A whole request. *)
Definition demo_forward (sends : nat → Sending) (budget : option Duration)
    : option (Response RelayState) * World Object :=
  forward (demo_env sends) (demo_state Priority budget) demo_extract (fun _ _ => [])
    ChatCompletions ∅ (lit "for Coder") (lit "rtr-1") (demo_world Priority).

(** A second route, on the tower alone, which [Auto] may fall back on. *)
Definition backup : RouteName := mkRouteName (lit "Backup").
Definition coder : RouteName := mkRouteName (lit "Coder").

Definition auto_state : RouterState :=
  mkState
    (mkTopology (nodes (demo_topology Priority)) (deployments (demo_topology Priority))
       [demo_route Priority; mkRoute backup Priority [on_tower] None None] (Some 0%nat))
    (from_secs 5) None
    (Some (mkAutoRoute true coder [] None None (mkFallback [(coder, [backup])]))).

(** A request the rules of [Auto] left on Coder. *)
Definition on_coder : AutoResolution :=
  mkResolution (Ok (demo_route Priority)) short_chat None None None.
