(* ===== verification/ForwardTheorems.v ===== *)
(** * The properties of forwarding

    What [Proxy.v] and [Forward.v] promise of every request, whatever the
    other tasks do to the shared books, whatever the clocks show and whatever
    the nodes answer. *)

From stdpp Require Import base gmap strings numbers list.
From S2P Require Import Prelude Names Utf8 Domain Health Capability Load Select SelectTheorems.
From S2P Require Import Float64 Rewriter Fallback Affinity Budget Classifier Scoring AutoRoute.
From S2P Require Import Responses Trace World WorldLogic Relay Proxy ProxyTheorems Forward.
From S2P Require Import ProxyDemo.

(** ** Plans *)

(** A candidate of a plan is a deployment of the route, on the node its
    topology says, up and without a gap. *)
Record Planned `{LowerCase} (t : Topology) (r : Route) (book : gmap NodeId NodeStatus)
    (seen : gmap DeploymentId DeploymentObservation) (needs : RequestRequirements)
    (c : Candidate) (d : Deployment) (n : Node) : Prop := {
  planned_route : cand_deployment c ∈ route_deployments r;
  planned_deployment : find_deployment t (cand_deployment c) = Some d;
  planned_node : find_node t (deployment_node d) = Some n;
  planned_on : cand_node c = node_id n;
  planned_model : cand_remote_model c = remote_model d;
  planned_up : availability n d (default NodeStatus_default (book !! node_id n)) = Available;
  planned_fit : gaps needs (seen !! cand_deployment c) = [] }.

Section plans.
Context `{LowerCase} {L : Type} `{Load.InFlight L} (s : Selector L) (t : Topology) (r : Route)
  (book : gmap NodeId NodeStatus) (seen : gmap DeploymentId DeploymentObservation)
  (needs : RequestRequirements) (sticky : option DeploymentId) (p : Plan).
Hypothesis planned : (plan_with_affinity s t r book seen needs sticky).1 = Ok p.

Lemma plan_candidate c : c ∈ plan_candidates p → ∃ d n, Planned t r book seen needs c d n.
Proof.
  destruct (plan_with_affinity s t r book seen needs sticky) as [q s'] eqn:Hp.
  simpl in planned. subst q.
  destruct (plan_Permutation _ _ _ _ _ _ _ _ _ Hp) as (e0 & e & He0 & He & Hperm).
  apply eligible_fields in He0 as (Hc0 & _). apply filter_Ok in He as [Hce _].
  rewrite Hperm, Hce. intros Hc. apply list_elem_of_In, filter_In in Hc as [Hc Hs].
  rewrite <-list_elem_of_In, Hc0 in Hc. apply elem_of_sort_out in Hc as (i & id & Hi & Hcon).
  apply consider_inl in Hcon as (Hid & _ & d & n & Hd & Hn & Ha & Heq).
  exists d, n. apply serves_gaps in Hs.
  split; rewrite ?Hid in *; try done; [by eapply list_elem_of_lookup_2|by rewrite Heq..].
Qed.

Lemma plan_nodup : NoDup (route_deployments r) → NoDup (cand_deployment <$> plan_candidates p).
Proof.
  destruct (plan_with_affinity s t r book seen needs sticky) as [q s'] eqn:Hp.
  simpl in planned. subst q. intros Hr.
  destruct (plan_Permutation _ _ _ _ _ _ _ _ _ Hp) as (e0 & e & He0 & He & Hperm).
  apply eligible_fields in He0 as (Hc0 & _). apply filter_Ok in He as [Hce _].
  rewrite Hperm, Hce. eapply sublist_NoDup; [|apply fmap_sublist, filter_sublist].
  rewrite Hc0. by apply sort_out_nodup.
Qed.
End plans.

(** ** One route *)

Section route.
Context `{LowerCase} `{MapIter} `{Exp2} `{SessionHash} `{StrDebug} {J : Json} `{!JsonNumbers J}.
Context (E : Env) (st : RouterState).
Context (endpoint : Endpoint) (headers : HeaderMap) (request : Object) (request_id : str)
  (route : Route) (needs : RequestRequirements) (t : Tracker) (active : bool)
  (planning_started : Instant) (budget : option RequestBudget).

Abbreviation the_attempt :=
  (attempt_route E st endpoint headers request request_id route needs t active planning_started
     budget).

Lemma sent_elem (ms : list (Mark Object)) d : d ∈ sent_to ms ↔ ∃ r, Sent d r ∈ ms.
Proof.
  unfold sent_to. rewrite list_elem_of_omap. split.
  - intros ([] & Hm & Hd); simplify_eq. eauto.
  - intros [r Hm]. eauto.
Qed.

(** What the attempt finds, started in [w]: see [findings]. *)
Abbreviation the_findings := (findings E headers route).

(** C20: a request only goes where its plan says.  Take the observations, the
    node statuses, the selector and the sticky deployment as the shared books
    show them when the attempt comes to read each, the other tasks having had
    their turn before every read.  If no plan can be made of them the attempt
    asks no one.  Otherwise the deployments it sends the request to are
    distinct and in the order of that plan, and each is one of the route's
    that was up by those statuses and had no capability gap by those
    observations. *)
Theorem attempts_follow_the_plan w :
  WellFormed (topology st) → route ∈ routes (topology st) →
  let f := the_findings w in
  wp_at w the_attempt (λ _ ms, NoDup (sent_to ms) ∧
    match (plan_with_affinity (found_selector f) (topology st) route (hb_nodes (found_book f))
             (hb_deployments (found_observed f)) needs (found_sticky f)).1 with
    | Ok plan => sent_to ms `sublist_of` cand_deployment <$> plan_candidates plan ∧
        ∀ d, d ∈ sent_to ms → d ∈ route_deployments route ∧
          gaps needs (hb_deployments (found_observed f) !! d) = [] ∧
          ∃ dep n, find_deployment (topology st) d = Some dep ∧
            find_node (topology st) (deployment_node dep) = Some n ∧
            availability n dep
              (default NodeStatus_default (hb_nodes (found_book f) !! node_id n)) = Available
    | Err _ => sent_to ms = []
    end).
Proof.
  intros HW Hr f. eapply wp_at_mono; [apply wp_attempt_found|]. fold f.
  intros a ms Ha. unfold found_attempted, route_attempted in Ha.
  destruct (plan_with_affinity _ _ _ _ _ _ _).1 as [plan|fl] eqn:Hp; last first.
  { destruct Ha as [-> _]. by split; [constructor|]. }
  destruct Ha as (t' & e & w' & _ & Hw & _).
  assert (Hsub : sent_to ms `sublist_of` cand_deployment <$> plan_candidates plan).
  { destruct (walked_logged _ _ _ _ _ _ _ _ _ _ _ _ _ _ _ Hw) as (log & new & [Ho _ _ _ _ Hs]).
    destruct Hs as [->|(c & _ & Hc & ->)]; by apply fmap_sublist. }
  split.
  { eapply sublist_NoDup; [|exact Hsub]. eapply plan_nodup; [exact Hp|].
    by apply (wf_route_nodup _ HW). }
  split; [done|]. intros d Hd.
  assert (Hc : d ∈ cand_deployment <$> plan_candidates plan) by by eapply sublist_subseteq.
  apply list_elem_of_fmap in Hc as (c & -> & Hc).
  destruct (plan_candidate _ _ _ _ _ _ _ _ Hp c Hc) as (dep & n & HP). destruct HP.
  split_and!; eauto.
Qed.

(** C30: what a node is sent is the router's own.  Whatever headers the client
    sent, every request that leaves one route attempt goes to the node of a
    deployment of the route, under that node's credential and no other, with
    the id of this request, only the client's Accept header, and the client's
    object with [model] set to that node's own name for it. *)
Theorem sends_carry_the_nodes_own :
  wp the_attempt (λ _ ms, ∀ d r, Sent d r ∈ ms → ∃ dep n object,
    d ∈ route_deployments route ∧ find_deployment (topology st) d = Some dep ∧
    find_node (topology st) (deployment_node dep) = Some n ∧
    url r = Domain.endpoint n (endpoint_path endpoint) ∧
    send_authorization r = header_value (auth n) ∧ send_request_id r = request_id ∧
    send_accept r = headers !! lit "accept" ∧
    payload r = object_insert (lit "model") (of_string (remote_model dep)) object ∧
    (object = request ∨ ∃ d' object', find_deployment (topology st) (deployment_id d') = Some d' ∧
       object = object_insert (lit "model") (of_string (remote_model d')) object')).
Proof.
  eapply wp_mono; [apply wp_attempt_route|].
  intros a ms (s & hb & ob & sticky & Ha) d r Hm. unfold route_attempted in Ha.
  destruct (plan_with_affinity _ _ _ _ _ _ _).1 as [plan|f] eqn:Hp; last first.
  { destruct Ha as [-> _]. by apply not_elem_of_nil in Hm. }
  destruct Ha as (t' & e & w' & _ & Hw & _).
  destruct (walked_addressed _ _ _ _ _ _ _ _ _ _ _ _ _ _ _ _ Hw Hm)
    as (c & node & object & Hc & <- & Hn & -> & Ho).
  destruct (plan_candidate _ _ _ _ _ _ _ _ Hp c Hc) as (dep & n & [Hr Hd Hdn Hon Hmod _ _]).
  rewrite Hon in Hn. pose proof (find_node_Some _ _ _ Hdn) as [_ Hid].
  rewrite Hid in Hn. rewrite Hdn in Hn. injection Hn as <-.
  exists dep, n, object. rewrite Hmod. split_and!; try done.
  destruct Ho as [->|(c' & object' & Hc' & ->)]; [by left|]. right.
  destruct (plan_candidate _ _ _ _ _ _ _ _ Hp c' Hc') as (dep' & n' & [_ Hd' _ _ Hmod' _ _]).
  exists dep', object'. rewrite Hmod'. split; [|done].
  pose proof (find_deployment_Some _ _ _ Hd') as [_ Hid']. by rewrite Hid'.
Qed.

(** What a node's context was when the plan was made. *)
Definition seen_context (ob : HealthBook) (d : DeploymentId) : option u32 :=
  context_length <$> hb_deployments ob !! d.

Lemma climbs_floor route' ob log new floor j a :
  climbs (hb_deployments ob) floor log → Forall2 (traces route') log new → new !! j = Some a →
  match floor with
  | None => True
  | Some f => ∃ x, seen_context ob (at_deployment a) = Some x ∧ f < x
  end.
Proof.
  revert floor new j. induction log as [|[c o] log IH]; intros floor new j Hcl Ht Hj.
  { apply Forall2_nil_inv_l in Ht as ->. done. }
  apply Forall2_cons_inv_l in Ht as (b & new' & (Hr & Hd & Ho) & Ht & ->).
  destruct Hcl as [Hl Hcl]. destruct floor as [f|]; [|done].
  destruct j as [|j]; simpl in Hj; [injection Hj as ->|].
  - unfold larger_than, context_of in Hl. unfold seen_context. rewrite Hd. cbn [fst].
    destruct (hb_deployments ob !! cand_deployment c) as [x|]; simpl in *; [|done].
    exists (context_length x). split; [done|by apply Z.ltb_lt].
  - specialize (IH _ _ _ Hcl Ht Hj). unfold floor_after in IH. destruct o; try done.
    destruct IH as (x & Hx & Hlt). simpl in Hlt. exists x. split; [done|lia].
Qed.

Lemma climbs_overflow route' ob log new floor i j a b :
  climbs (hb_deployments ob) floor log → Forall2 (traces route') log new →
  new !! i = Some a → at_outcome a = AttOverflow → new !! j = Some b → (i < j)%nat →
  ∃ x, seen_context ob (at_deployment b) = Some x ∧
    default U32_MAX (seen_context ob (at_deployment a)) < x.
Proof.
  revert floor new i j. induction log as [|[c o] log IH]; intros floor new i j Hcl Ht Hi Ha Hj Hlt.
  { apply Forall2_nil_inv_l in Ht as ->. done. }
  apply Forall2_cons_inv_l in Ht as (a' & new' & (Hr & Hd & Ho) & Ht & ->).
  destruct Hcl as [Hl Hcl]. destruct j as [|j]; [lia|]. simpl in Ho, Hj.
  destruct i as [|i]; simpl in Hi; [injection Hi as ->|].
  - rewrite Ha in Ho. subst o. destruct (climbs_floor _ _ _ _ _ _ _ Hcl Ht Hj) as (x & Hx & Hlt').
    exists x. split; [done|]. unfold seen_context at 1. rewrite Hd. cbn [fst].
    unfold context_of in Hlt'. lia.
  - eapply (IH _ _ i j); eauto. lia.
Qed.

Lemma traces_fields route' log new :
  Forall2 (traces route') log new →
  at_outcome <$> new = log.*2 ∧ at_deployment <$> new = cand_deployment <$> log.*1.
Proof.
  induction 1 as [|co a log new (_ & Hd & Ho) _ [IH1 IH2]]; [done|].
  csimpl. by rewrite Hd, Ho, IH1, IH2.
Qed.

Lemma no_commit os : last os = Some AttCommitted → Forall goes_on os → False.
Proof.
  intros [l ->]%last_Some. rewrite Forall_app, Forall_singleton. intros [_ [?|?]]; done.
Qed.

(** C27: a route attempt ends at its first answer, and after an overflow only
    climbs.  The attempts it adds to the trace are to deployments in the order
    they were sent to, all of them but one more when the client left while a
    node was asked; every one but the last was refused before answering; the
    last one committed exactly when the route did; and once a node has refused
    the prompt as too long, every later attempt is at a context that the
    observations the attempt read when it planned show to be strictly larger,
    so a node of unknown context ends the walk. *)
Theorem attempts_end_at_the_first_answer w :
  let ob := found_observed (the_findings w) in
  wp_at w the_attempt (λ r ms, ∃ new,
    attempts_of r.1 ms = Some (tr_attempts (tk_trace t) ++ new) ∧
    (sent_to ms = at_deployment <$> new ∨
     ∃ d, r.1 = Gone ∧ sent_to ms = (at_deployment <$> new) ++ [d]) ∧
    (∀ i a, new !! i = Some a → (S i < length new)%nat → goes_on (at_outcome a)) ∧
    (∀ a, last new = Some a → at_outcome a = AttCommitted → r.1 = Gone ∨
       ∃ resp, r.1 = RouteCommitted resp) ∧
    (∀ resp, r.1 = RouteCommitted resp → ∃ a, last new = Some a ∧ at_outcome a = AttCommitted ∧
       sent_to ms = at_deployment <$> new) ∧
    (∀ i j a b, new !! i = Some a → at_outcome a = AttOverflow → new !! j = Some b → (i < j)%nat →
       ∃ x, seen_context ob (at_deployment b) = Some x ∧
         default U32_MAX (seen_context ob (at_deployment a)) < x)).
Proof.
  intros ob. eapply wp_at_mono; [apply wp_attempt_found|].
  intros r ms Ha. unfold found_attempted, route_attempted in Ha. fold ob in Ha.
  destruct (plan_with_affinity _ _ _ _ _ _ _).1 as [plan|f] eqn:Hp; last first.
  { destruct Ha as (-> & f' & -> & _ & _ & Hf & _). exists []. simpl. rewrite Hf, app_nil_r.
    split_and!; try done. by left. }
  destruct Ha as (t' & e & w' & [Ht _] & Hw & ->).
  destruct (walked_logged _ _ _ _ _ _ _ _ _ _ _ _ _ _ _ Hw) as (log & new & [_ Hcl Htr He Hos Hs]).
  exists new.
  assert (Hend : attempts_of (default (RouteFailed (walk_failure st route w')) e) ms
                 = Some (tr_attempts (tk_trace t) ++ new)).
  { unfold tried in He. simpl in He. rewrite Ht in He. destruct e as [e|]; [done|].
    simpl in He |- *. rewrite <-He. unfold walk_failure. by destruct (wk_refusal w'). }
  destruct (traces_fields _ _ _ Htr) as [Hout Hdep].
  split_and!; [done|..].
  - rewrite Hdep. destruct Hs as [->|(c & -> & _ & ->)]; [by left|]. right.
    exists (cand_deployment c). by rewrite fmap_app.
  - intros i a Hi Hlt.
    assert (Ho : log.*2 !! i = Some (at_outcome a)) by (rewrite <-Hout, list_lookup_fmap, Hi; done).
    assert (Hlen : length log.*2 = length new) by (by rewrite <-Hout, length_fmap).
    assert (Hg : ∀ l x, log.*2 = l ++ [x] → Forall goes_on l → goes_on (at_outcome a)).
    { intros l x Hl Hf. rewrite Hl, length_app in Hlen. simpl in Hlen.
      rewrite Hl, lookup_app_l in Ho by lia. by eapply Forall_lookup_1. }
    destruct e as [[]|]; simpl in Hos; try done;
      repeat match goal with
      | H : _ ∨ _ |- _ => destruct H
      | H : ∃ _, _ ∧ Forall goes_on _ |- _ => destruct H as (? & ? & ?)
      end; first [by eapply Forall_lookup_1|by eapply Hg].
  - intros a Hl Ho.
    assert (Hlast : last log.*2 = Some AttCommitted) by (rewrite <-Hout, fmap_last, Hl; simpl; by rewrite Ho).
    destruct e as [[]|]; simpl in Hos |- *; eauto.
    + done.
    + destruct Hos as [Hos|(l & Hl' & _)]; [by destruct (no_commit _ Hlast Hos)|].
      rewrite Hl', last_snoc in Hlast. done.
    + by destruct (no_commit _ Hlast Hos).
  - intros resp Hr. destruct e as [[]|]; simpl in Hr; simplify_eq.
    destruct Hos as (l & Hl & _).
    destruct Hs as [Hs|(c & ? & _)]; [|done]. rewrite Hdep, Hs.
    assert (Hlast : last (at_outcome <$> new) = Some AttCommitted) by by rewrite Hout, Hl, last_snoc.
    rewrite fmap_last in Hlast. destruct (last new) as [a|]; simplify_eq/=. eauto.
  - intros. by eapply climbs_overflow.
Qed.
End route.

(** ** A whole request *)

(** Counted and traced once, and not let go of. *)
Definition once {J : Json} (ms : list (Mark Object)) : Prop :=
  length (counted ms) = 1%nat ∧ length (traces_of ms) = 1%nat ∧ left_of ms = 0%nat.

Section request.
Context `{LowerCase} `{MapIter} `{Exp2} `{SessionHash} `{StrDebug} {J : Json} `{!JsonNumbers J}
  `{!JsonScalars J}.
Context (E : Env) (st : RouterState).
Context (extract : Endpoint → list byte → result RequestRequirements (Response RelayState))
  (body_text : Endpoint → list byte → str).

Implicit Types ms : list (Mark Object).

Lemma counts_app ms1 ms2 :
  length (counted (ms1 ++ ms2)) = (length (counted ms1) + length (counted ms2))%nat ∧
  length (traces_of (ms1 ++ ms2)) = (length (traces_of ms1) + length (traces_of ms2))%nat ∧
  left_of (ms1 ++ ms2) = (left_of ms1 + left_of ms2)%nat.
Proof. unfold counted, traces_of, left_of. by rewrite !omap_app, !length_app. Qed.

(** The same, of a whole list. *)
Definition tally ms : nat * nat * nat :=
  (length (counted ms), length (traces_of ms), left_of ms).

Lemma tally_app ms1 ms2 :
  tally (ms1 ++ ms2) =
  ((tally ms1).1.1 + (tally ms2).1.1, (tally ms1).1.2 + (tally ms2).1.2,
   (tally ms1).2 + (tally ms2).2)%nat.
Proof. unfold tally. destruct (counts_app ms1 ms2) as (-> & -> & ->). done. Qed.

Lemma uncounted_tally ms : uncounted ms ↔ tally ms = (0, 0, 0)%nat.
Proof.
  unfold uncounted, tally. split; [by intros (-> & -> & ->)|].
  intros [= ?%nil_length_inv ?%nil_length_inv ?]. done.
Qed.

(** Where a request's marks add up. *)
Lemma wp_tally {A B} (m : M A) (k : A → M B) x (Q : B → list (Mark Object) → Prop) :
  wp m (λ _ ms, tally ms = x) →
  (∀ a, wp (k a) (λ b ms', ∀ ms, tally ms = x → Q b (ms ++ ms'))) → wp (bind m k) Q.
Proof.
  intros Hm Hk. eapply wp_call; [exact Hm|]. intros a ms Hms. eapply wp_mono; [apply Hk|]. auto.
Qed.

(** *** Ends without an answer *)

Lemma tally_finish t status outcome :
  wp (O:=Object) (tracker_finish E t status outcome) (λ _ ms, tally ms = (0, 1, 0)%nat).
Proof. eapply wp_mono; [apply wp_tracker_finish|]. by intros _ ms (tr & -> & _). Qed.

Lemma wp_exhaust t stage next :
  tk_budget t ≠ None →
  wp (exhaust E t stage next) (λ r ms, tally ms = (1, 1, 0)%nat ∧ plain r).
Proof.
  intros Hb. unfold exhaust. destruct (tk_budget t) as [b|]; [|done].
  apply wp_silent; [by destruct (nested t); auto with silent|intros _].
  apply wp_bind, wp_event. wp_skip. eapply wp_call; [apply tally_finish|].
  intros [] ms Hms. apply wp_ret. rewrite app_nil_r. by rewrite tally_app, Hms.
Qed.

Lemma wp_conclude f :
  wp (conclude E f) (λ r ms, tally ms = (1, 1, 0)%nat ∧ r = fail_response f).
Proof.
  unfold conclude. apply wp_bind, wp_event. eapply wp_call; [apply tally_finish|].
  intros [] ms Hms. apply wp_ret. rewrite app_nil_r. by rewrite tally_app, Hms.
Qed.

Lemma wp_conclude_chain initial hops f :
  wp (conclude_chain E initial hops f) (λ r ms, tally ms = (1, 1, 0)%nat ∧ r = fail_response f).
Proof.
  unfold conclude_chain. destruct hops; [apply wp_conclude|]. cbv zeta.
  apply wp_silent; [by destruct (fail_reason f); auto with silent|intros _].
  eapply wp_mono; [apply wp_conclude|done].
Qed.

Lemma wp_stopped route is_auto on_fallback first t :
  tk_budget t ≠ None →
  wp (stopped_by_budget E route is_auto on_fallback first t)
    (λ r ms, tally ms = (1, 1, 0)%nat ∧ plain r).
Proof.
  intros Hb. unfold stopped_by_budget. cbv zeta.
  repeat case_match; apply wp_exhaust; done.
Qed.

(** *** Answers *)

(** What an answer leaves counted.  [true] is an answer whose request is over
    but for the guard the handler still holds. *)
Definition answer_counts (a : Answer) ms : Prop :=
  match a with
  | (Some r, true) => tally ms = (1, 1, 0)%nat ∧ plain r
  | (Some r, false) =>
      match resp_body r with
      | Streamed s => tally ms = (1, 0, 0)%nat ∧ held_active (held s) = true
      | _ => tally ms = (1, 1, 1)%nat
      end
  | (None, true) => tally ms = (0, 0, 0)%nat
  | (None, false) => ∃ n, (n ≤ 1)%nat ∧ tally ms = (n, 1, 1)%nat
  end.

Lemma answer_counts_app a ms1 ms2 :
  tally ms1 = (0, 0, 0)%nat → answer_counts a ms2 → answer_counts a (ms1 ++ ms2).
Proof.
  intros Hz. unfold answer_counts. rewrite tally_app, Hz.
  by destruct (tally ms2) as [[x y] z]; simpl.
Qed.

(** One route attempt, as far as the chain goes on from it. *)
Definition route_counts (t : Tracker) (budget : option RequestBudget) (e : RouteEnd) ms : Prop :=
  match e with
  | RouteFailed f => tally ms = (0, 0, 0)%nat ∧ tk_budget (fail_tracker f) = tk_budget t ∧
      plain (fail_response f)
  | RouteBudget t' _ => tally ms = (0, 0, 0)%nat ∧ tk_budget t' = tk_budget t ∧ budget ≠ None
  | RouteCommitted r => answer_counts (Some r, false) ms
  | Gone => answer_counts (None, false) ms
  end.

Lemma wp_route_counts endpoint headers request id route needs t started budget :
  wp (attempt_route E st endpoint headers request id route needs t true started budget)
    (λ r ms, route_counts t budget r.1 ms).
Proof.
  eapply wp_mono; [apply wp_attempt_route|].
  intros r ms (s & hb & ob & sticky & Ha). unfold route_attempted in Ha.
  destruct (plan_with_affinity _ _ _ _ _ _ _).1 as [plan|f] eqn:Hp; last first.
  { destruct Ha as (-> & f' & -> & _ & Hpl & _ & Hb). done. }
  destruct Ha as (t' & e & w' & [_ Ht] & Hw & ->).
  pose proof (walked_counts _ _ _ _ _ _ _ _ _ _ _ _ _ _ _ Hw) as Hc.
  pose proof (walked_budget _ _ _ _ _ _ _ _ _ _ _ _ _ _ _ Hw) as Hb.
  destruct e as [[r|f|t1 first|]|]; simpl in *.
  - destruct Hc as ((o & Ho) & Hc). unfold answer_counts, tally. rewrite Ho.
    destruct (resp_body r); [destruct Hc as [-> ->]; done..|].
    by destruct Hc as (-> & -> & ->).
  - done.
  - destruct Hb as [-> Hb]. rewrite <-uncounted_tally. auto.
  - destruct Hc as (Hle & Htr & Hl). exists (length (counted ms)). unfold tally.
    by rewrite Htr, Hl.
  - rewrite <-uncounted_tally. split_and!; [done|..|apply plain_walk_failure].
    unfold walk_failure. destruct (wk_refusal w'); simpl; by rewrite Hb, <-Ht.
Qed.

Lemma wp_route_loop endpoint headers id needs is_auto nested budget initial remaining route hops
    request t started :
  tk_budget t = budget →
  wp (route_loop E st endpoint headers id needs is_auto nested budget initial remaining route hops
        request t started) answer_counts.
Proof.
  revert route hops request t started.
  induction remaining as [|name remaining IH]; intros route hops request t started Hb; cbn [route_loop];
    (eapply wp_call; [apply wp_route_counts|]); intros [e request'] ms He; cbn [fst] in He;
    destruct e as [r|f|t' first|].
  all: try (by apply wp_ret; rewrite app_nil_r).
  all: try (destruct He as (Hms & Hb' & Hn); eapply wp_call;
    [apply wp_stopped; by rewrite Hb', Hb|]; intros r ms' [Hms' Hr]; apply wp_ret;
    rewrite app_nil_r; by apply answer_counts_app).
  all: destruct He as (Hms & Hb' & Hpl).
  { eapply wp_call; [apply wp_conclude_chain|]. intros r ms' [Hms' ->]. apply wp_ret.
    rewrite app_nil_r. by apply answer_counts_app. }
  destruct (next_route _ _ _) as [[[reason next] ?]|]; last first.
  { eapply wp_call; [apply wp_conclude_chain|]. intros r ms' [Hms' ->]. apply wp_ret.
    rewrite app_nil_r. by apply answer_counts_app. }
  eapply wp_call; [apply wp_expired|]. intros spent ms' [-> Hs]. destruct spent.
  - eapply wp_call; [unfold refuse_next; apply wp_exhaust; simpl; rewrite Hb', Hb; auto|].
    intros r ms' [Hms' Hr]. apply wp_ret. rewrite app_nil_r. by apply answer_counts_app.
  - cbv zeta. eapply wp_call with (P := λ t' ms, tally ms = (0, 0, 0)%nat ∧ tk_budget t' = budget).
    { unfold move_on. wp_skip. apply wp_bind, wp_event. apply wp_ret. simpl. by rewrite Hb'. }
    intros t1 ms' [Hms' Ht1]. wp_skip. eapply wp_mono; [by apply IH|].
    intros ans ms'' Hans. apply answer_counts_app; [done|]. apply answer_counts_app; [done|].
    by apply answer_counts_app.
Qed.

(** *** Relays *)

(** What reading a relay to its end, or leaving it, marks. *)
Definition relay_ends (h : InFlight) ms : Prop :=
  tally ms = (0, 1, if held_active h then 1 else 0)%nat.

Lemma Closed_tally h ms : Closed h ms → relay_ends h ms.
Proof. intros (tr & -> & _). unfold relay_ends. by destruct (held_active h). Qed.

Lemma wp_ended h outcome : wp (O:=Object) (held_end E h outcome) (λ _ ms, relay_ends h ms).
Proof. eapply wp_mono; [apply wp_closed|]. intros [] ms. apply Closed_tally. Qed.

Lemma wp_saw h r :
  wp (O:=Object) (held_saw E h r) (λ h' ms, tally ms = (0, 0, 0)%nat ∧ held_active h' = held_active h).
Proof.
  unfold held_saw. cbv zeta. apply wp_silent; [|intros t; by apply wp_ret].
  case_match; [|apply silent_ret]. silence.
Qed.

(** A poll leaves the request held, or ends it. *)
Definition poll_counts (h : InFlight) (o : RelayOut) ms : Prop :=
  match o with
  | RelayItem _ (Some s) | RelayPending s =>
      tally ms = (0, 0, 0)%nat ∧ held_active (held s) = held_active h
  | RelayItem _ None | RelayOver => relay_ends h ms
  end.

Lemma poll_counts_app h h' o ms1 ms2 :
  tally ms1 = (0, 0, 0)%nat → held_active h' = held_active h → poll_counts h' o ms2 →
  poll_counts h o (ms1 ++ ms2).
Proof.
  intros Hz Ha. unfold poll_counts, relay_ends. rewrite tally_app, Hz, Ha.
  by destruct (tally ms2) as [[x y] z]; simpl.
Qed.

Lemma wp_relay_chunks cs e r h : wp (O:=Object) (relay_chunks E cs e r h) (poll_counts h).
Proof.
  revert r h. induction cs as [|c cs IH]; intros r h; simpl.
  - destruct e.
    + destruct (finish r) as [r' out]. eapply wp_call; [apply wp_saw|]. intros h' ms [Hms Ha].
      eapply wp_call; [apply wp_ended|]. intros [] ms' Hms'. apply wp_ret. rewrite app_nil_r.
      eapply poll_counts_app; [done|exact Ha|]. by case_match.
    + destruct (abort r) as [r' out]. eapply wp_call; [apply wp_ended|]. intros [] ms Hms.
      apply wp_ret. rewrite app_nil_r. by case_match.
    + by apply wp_ret.
  - destruct (push r c) as [r' out]. eapply wp_call; [apply wp_saw|]. intros h' ms [Hms Ha].
    destruct (finished r').
    + eapply wp_call; [apply wp_ended|]. intros [] ms' Hms'. apply wp_ret. rewrite app_nil_r.
      by eapply poll_counts_app.
    + case_match; [by apply wp_ret; rewrite app_nil_r|].
      eapply wp_mono; [apply IH|]. intros o ms' Ho. by eapply poll_counts_app.
Qed.

Lemma wp_relay_to polls s :
  wp (O:=Object) (relay_to E polls s) (λ _ ms, relay_ends (held s) ms).
Proof.
  revert s. induction polls as [|polls IH]; intros s; simpl.
  { eapply wp_call; [apply wp_ended|]. intros [] ms Hms. apply wp_ret. by rewrite app_nil_r. }
  eapply wp_call; [apply wp_relay_chunks|]. intros o ms Ho.
  assert (Hmore : ∀ s', tally ms = (0, 0, 0)%nat → held_active (held s') = held_active (held s) →
    ∀ ms', relay_ends (held s') ms' → relay_ends (held s) (ms ++ ms')).
  { intros s' Hz Ha ms'. unfold relay_ends. by rewrite tally_app, Hz, Ha; intros ->. }
  destruct o as [out [s'|]| |s'].
  - destruct Ho as [Hz Ha]. eapply wp_call; [apply IH|]. intros rest ms' Hms'. apply wp_ret.
    rewrite app_nil_r. by eapply Hmore.
  - apply wp_ret. by rewrite app_nil_r.
  - apply wp_ret. by rewrite app_nil_r.
  - destruct Ho as [Hz Ha]. eapply wp_call; [apply wp_ended|]. intros [] ms' Hms'. apply wp_ret.
    rewrite app_nil_r. by eapply Hmore.
Qed.

(** *** Resolution *)

Section resolving.
Context (budget : option RequestBudget).
Hypothesis refusals : ∀ endpoint body r, extract endpoint body = Err r → plain r.
Hypothesis providers :
  budget = None → ∀ n, provider_answers E n ≠ Some (Done (Err RequestBudgetExhausted)).

Lemma classify_exhausted k truncated id now answer n :
  provider_answers E n = Some answer →
  cl_outcome (classify k truncated id budget now answer) = RequestBudgetExhausted → budget ≠ None.
Proof.
  intros Hn Hout ->. specialize (providers eq_refl n). revert Hout. unfold classify. simpl.
  destruct answer as [[v|o]|]; simpl; [by destruct (f64_lt _ _)|congruence|done].
Qed.

Lemma wp_classify_for a d endpoint body needs id nested :
  wp (classify_for E body_text a d endpoint body needs id nested budget)
    (λ c ms, ms = [] ∧ (∀ c' dur, c = Some (Some (c', dur)) →
       cl_outcome c' = RequestBudgetExhausted → budget ≠ None)).
Proof.
  unfold classify_for. destruct (if ad_classify d then _ else _) as [k|]; [|by apply wp_ret].
  destruct nested.
  { apply wp_ret. split; [done|]. intros c' dur [= <- _]. done. }
  unfold ask_classifier. apply wp_bind. wp_skip. apply wp_bind, wp_look. intros n.
  destruct (provider_answers E n) as [answer|] eqn:Hn; last by apply wp_ret, wp_ret.
  cbv zeta. wp_skip. apply wp_ret, wp_ret. split; [done|]. intros c' dur [= <- _].
  by eapply classify_exhausted.
Qed.

(** What a resolution leaves counted. *)
Definition stop_counts (s : AutoStop) ms : Prop :=
  match s with
  | Refused r => tally ms = (1, 0, 0)%nat ∧ plain r
  | AutoExhausted _ _ => tally ms = (0, 0, 0)%nat ∧ budget ≠ None
  | AutoGone => tally ms = (0, 0, 0)%nat
  end.

Definition resolution_counts {A B} (r : result A (B * AutoStop)) ms : Prop :=
  match r with
  | Ok _ => tally ms = (0, 0, 0)%nat
  | Err (_, s) => stop_counts s ms
  end.

Lemma wp_resolve_auto a endpoint body id started nested :
  wp (resolve_auto E st extract body_text a endpoint body id started nested budget)
    (λ r ms, match r with Ok _ => tally ms = (0, 0, 0)%nat | Err s => stop_counts s ms end).
Proof.
  unfold resolve_auto. destruct (extract endpoint body) as [needs|r] eqn:Hex; last first.
  { wp_skip. wp_skip. apply wp_bind, wp_event. apply wp_ret. split; [done|]. by eapply refusals. }
  cbv zeta. eapply wp_call; [apply wp_classify_for|]. intros c ms [-> Hb].
  destruct c as [c|]; [|by apply wp_ret]. case_bool_decide as Hout.
  - destruct c as [[c dur]|]; [|done]. simpl in Hout. injection Hout as Hout.
    wp_skip. apply wp_ret. split; [done|]. by eapply Hb.
  - apply wp_silent.
    { unfold score_for. silence. apply silent_atomically. }
    intros s. apply wp_silent.
    { silence. apply silent_atomically. }
    intros _. wp_skip. by apply wp_ret.
Qed.

Lemma wp_resolve endpoint body id requested started nested :
  wp (resolve E st extract body_text endpoint body id requested started nested budget)
    resolution_counts.
Proof.
  unfold resolve. destruct (auto st) as [a|]; [|by apply wp_ret].
  case_match; [|by apply wp_ret]. eapply wp_call; [apply wp_resolve_auto|].
  intros [r|r] ms Hr; apply wp_ret; simpl in *; by rewrite app_nil_r.
Qed.

(** *** From a route on *)

(** An answer to a request that may have ended before it had a trace. *)
Definition request_counts (a : Answer) ms : Prop :=
  match a with
  | (Some r, true) => plain r ∧ ∃ n, (n ≤ 1)%nat ∧ tally ms = (1, n, 0)%nat
  | _ => answer_counts a ms
  end.

Lemma answer_request a ms : answer_counts a ms → request_counts a ms.
Proof. destruct a as [[r|] []]; try done. intros [Hms Hr]. split; [done|]. exists 1%nat. auto. Qed.

Lemma request_counts_app a ms1 ms2 :
  tally ms1 = (0, 0, 0)%nat → request_counts a ms2 → request_counts a (ms1 ++ ms2).
Proof.
  intros Hz. destruct a as [[r|] []]; try by apply answer_counts_app.
  simpl. intros (Hr & n & Hn & Hms). split; [done|]. exists n. by rewrite tally_app, Hz, Hms.
Qed.

Lemma wp_tracker_new id route policy endpoint received nested :
  wp (O:=Object) (Tracker_new E id route policy endpoint received nested budget)
    (λ t ms, ms = [] ∧ tk_budget t = budget).
Proof. unfold Tracker_new. apply wp_bind, wp_look. intros n. by apply wp_ret. Qed.

Lemma wp_on_resolved route r endpoint headers body request id received started nested :
  wp (on_resolved E st extract route r endpoint headers body request id received started nested
        budget) request_counts.
Proof.
  unfold on_resolved. eapply wp_call; [apply wp_tracker_new|]. intros t ms [-> Ht]. cbv zeta.
  set (t' := note_resolution _ _ _ _ _).
  assert (Hb : tk_budget t' = budget) by by destruct r.
  clearbody t'.
  assert (Hex : ∀ refusal, (match r with Some r => Ok (res_needs r) | None => extract endpoint body end)
                           = Err refusal → plain refusal).
  { destruct r; [done|]. intros refusal. by apply refusals. }
  destruct (match r with Some r => _ | None => _ end) as [needs|refusal].
  - eapply wp_call; [apply wp_expired|]. intros spent ms [-> Hs]. destruct spent.
    + eapply wp_call; [apply wp_stopped; simpl; rewrite Hb; auto|]. intros resp ms [Hms Hr].
      apply wp_ret. rewrite app_nil_r. split; [done|]. exists 1%nat. auto.
    + eapply wp_mono; [by apply wp_route_loop|]. intros ans ms Hans. by apply answer_request.
  - wp_skip. wp_skip. apply wp_bind, wp_event. eapply wp_call; [apply tally_finish|].
    intros [] ms Hms. apply wp_ret. split; [by apply Hex|]. exists 1%nat.
    rewrite app_nil_r. by rewrite !tally_app, Hms.
Qed.

Lemma wp_route_request endpoint headers body id received nested :
  wp (route_request E st extract body_text endpoint headers body id received nested budget)
    request_counts.
Proof.
  unfold route_request. destruct (parse body) as [request|refusal] eqn:Hp; last first.
  { apply wp_bind, wp_event. apply wp_ret. split; [|by exists 0%nat; split; [lia|]].
    unfold parse, refuse_body in Hp. repeat case_match; by simplify_eq. }
  wp_skip. eapply wp_call; [apply wp_resolve|]. intros [[[route|failure] r]|[au stop]] ms Hms.
  - eapply wp_mono; [apply wp_on_resolved|]. intros ans ms' Hans. by apply request_counts_app.
  - wp_skip. wp_skip. apply wp_bind, wp_event. apply wp_ret. split; [apply plain_routing_failure|].
    exists 0%nat. split; [lia|]. by rewrite !tally_app, Hms.
  - destruct stop as [refusal|c rule|].
    + destruct Hms as [Hms Hr]. apply wp_ret. rewrite app_nil_r. split; [done|].
      exists 0%nat. split; [lia|done].
    + destruct Hms as [Hms Hb]. eapply wp_call with (P := λ r ms, tally ms = (1, 1, 0)%nat ∧ plain r).
      { unfold exhausted_classifying. eapply wp_call; [apply wp_tracker_new|]. intros t ms' [-> Ht].
        cbv zeta. eapply wp_mono; [apply wp_exhaust; simpl; by rewrite Ht|]. done. }
      intros resp ms' [Hms' Hr]. apply wp_ret. split; [done|]. exists 1%nat. split; [lia|].
      rewrite app_nil_r. by rewrite !tally_app, Hms, Hms'.
    + apply wp_ret. by rewrite app_nil_r.
Qed.
End resolving.

(** A client that is answered and, if the answer streams, polls it at most
    [polls] times: whether it was answered. *)
Definition serve (endpoint : Endpoint) (headers : HeaderMap) (body : list byte) (fresh : str)
    (polls : nat) : M (O:=Object) bool :=
  let* r := forward E st extract body_text endpoint headers body fresh in
  match r with
  | Some r =>
      match resp_body r with
      | Streamed s => let* _ := relay_to E polls s in ret true
      | _ => ret true
      end
  | None => ret false
  end.

Lemma tally_once n l ms (b : bool) :
  (n ≤ 1)%nat → (l ≤ 1)%nat → (b = true → n = 1%nat) → tally ms = (n, l, 1%nat) →
  left_of ms = 1%nat ∧ (length (traces_of ms) ≤ 1)%nat ∧ (length (counted ms) ≤ 1)%nat ∧
  (b = true → length (counted ms) = 1%nat).
Proof. intros Hn Hl Hb [= -> -> ->]. auto. Qed.

(** C5: every request is counted once.  Whether it is refused, answered whole,
    streamed to the end, cut off by the node or abandoned by the client at any
    point, exactly one active-request guard is dropped for it, at most one
    trace is written, and it is counted in [router_requests_total] at most
    once - exactly once if the client was answered.  (The gateway's refusals
    are whole bodies, and a provider only reports an exhausted budget where
    there is one.) *)
Theorem request_is_counted_once endpoint headers body fresh polls :
  (∀ e b r, extract e b = Err r → plain r) →
  (request_budget st = None →
     ∀ n, provider_answers E n ≠ Some (Done (Err RequestBudgetExhausted))) →
  wp (serve endpoint headers body fresh polls) (λ answered ms,
    left_of ms = 1%nat ∧ (length (traces_of ms) ≤ 1)%nat ∧ (length (counted ms) ≤ 1)%nat ∧
    (answered = true → length (counted ms) = 1%nat)).
Proof.
  intros Hex Hpr. unfold serve, forward, forward_as. apply wp_bind. wp_skip.
  eapply wp_call with (P := λ b ms, ms = [] ∧
    (b = None → ∀ n, provider_answers E n ≠ Some (Done (Err RequestBudgetExhausted)))).
  { destruct (request_budget st); [|by apply wp_ret; auto].
    apply wp_bind, wp_look. intros n. by apply wp_ret. }
  intros budget ms [-> Hb]. apply wp_bind, wp_event. cbv zeta.
  eapply wp_call; [by apply wp_route_request|]. intros [r held] ms Hms.
  eapply wp_call with (P := λ _ ms, tally ms = (0, 0, if held then 1 else 0)%nat).
  { destruct held; [by apply wp_event|by apply wp_ret]. }
  intros [] ms' Hms'. apply wp_ret. rewrite app_nil_r.
  assert (Hsum : ∀ x n l k ms2, tally x = (0, 0, 0)%nat → tally ms = (n, l, k)%nat →
    tally (x ++ (ms ++ ms') ++ ms2) = (n + (tally ms2).1.1, l + (tally ms2).1.2,
      k + ((if held then 1 else 0) + (tally ms2).2))%nat).
  { intros x n l k ms2 Hx Hm. rewrite !tally_app, Hx, Hm, Hms'. simpl. f_equal; [f_equal|]; lia. }
  assert (Hend : ∀ b n l k, (n ≤ 1)%nat → (l ≤ 1)%nat → (b = true → n = 1%nat) →
    tally ms = (n, l, k)%nat → (k + if held then 1 else 0)%nat = 1%nat →
    wp (ret b) (λ b ms2, let ms := marks [EvMetric MEnter] ++ (ms ++ ms') ++ ms2 in
      left_of ms = 1%nat ∧ (length (traces_of ms) ≤ 1)%nat ∧ (length (counted ms) ≤ 1)%nat ∧
      (b = true → length (counted ms) = 1%nat))).
  { intros b n l k Hn Hl Hbn Hm Hk. apply wp_ret. apply (tally_once n l); try done.
    rewrite (Hsum _ n l k) by done. unfold tally. simpl. rewrite !Nat.add_0_r. by rewrite Hk. }
  destruct r as [r|]; cbn [fmap option_fmap option_map].
  - assert (Hbody : resp_body (echo r (default fresh (from_headers headers))) = resp_body r).
    { unfold echo. by destruct (to_str _). }
    rewrite Hbody. destruct held; simpl in Hms.
    + destruct Hms as (Hr & n & Hn & Hms).
      destruct (resp_body r) as [| |s] eqn:Hrb; [| |by destruct (Hr s)];
        eapply wp_mono; [by eapply (Hend true 1%nat n 0%nat)|done|by eapply (Hend true 1%nat n 0%nat)|done].
    + destruct (resp_body r) as [| |s].
      * eapply wp_mono; [by eapply (Hend true 1%nat 1%nat 1%nat)|done].
      * eapply wp_mono; [by eapply (Hend true 1%nat 1%nat 1%nat)|done].
      * destruct Hms as [Hms Ha]. eapply wp_call; [apply wp_relay_to|]. intros out ms2 Hms2.
        unfold relay_ends in Hms2. rewrite Ha in Hms2.
        apply wp_ret. rewrite app_nil_r. apply (tally_once 1%nat 1%nat); auto.
        rewrite !tally_app, Hms, Hms', Hms2. done.
  - destruct held; simpl in Hms.
    + eapply wp_mono; [by eapply (Hend false 0%nat 0%nat 0%nat); auto|done].
    + destruct Hms as (n & Hn & Hms).
      eapply wp_mono; [by eapply (Hend false n 1%nat 1%nat); auto|done].
Qed.

(** *** The chain of routes *)

(** The moves from route to route. *)
Definition moved_of ms : list (RouteName * RouteName) :=
  omap (λ m, match m with Moved from to _ => Some (from, to) | _ => None end) ms.

(** An action that moves the request nowhere. *)
Definition still {A} (m : M (O:=Object) A) : Prop := wp m (λ _ ms, moved_of ms = []).

Lemma moved_app ms1 ms2 : moved_of (ms1 ++ ms2) = moved_of ms1 ++ moved_of ms2.
Proof. apply omap_app. Qed.

Lemma still_bind {A B} (m : M A) (k : A → M B) : still m → (∀ a, still (k a)) → still (bind m k).
Proof.
  intros Hm Hk. eapply wp_call; [exact Hm|]. intros a ms Hms. eapply wp_mono; [apply Hk|].
  intros b ms' Hms'. by rewrite moved_app, Hms, Hms'.
Qed.

Lemma still_silent {A} (m : M A) : silent m → still m.
Proof. intros Hm. eapply wp_mono; [exact Hm|]. by intros a ms ->. Qed.

Lemma still_finish t status outcome : still (tracker_finish E t status outcome).
Proof. eapply wp_mono; [apply wp_tracker_finish|]. by intros _ ms (tr & -> & _). Qed.

Lemma still_request route o : still (metric (MRequest route o)).
Proof. by apply wp_event. Qed.

Lemma still_exhaust t stage next : still (exhaust E t stage next).
Proof.
  unfold exhaust. destruct (tk_budget t) as [b|].
  - apply still_bind; [apply still_silent; destruct (nested t); auto with silent|intros _].
    apply still_bind; [apply still_request|intros _].
    apply still_bind; [by apply still_silent, silent_look|intros n].
    apply still_bind; [apply still_finish|intros _]. by apply wp_ret.
  - apply still_bind; [apply still_finish|intros _]. by apply wp_ret.
Qed.

Lemma still_conclude_chain initial hops f : still (conclude_chain E initial hops f).
Proof.
  assert (Hc : ∀ g, still (conclude E g)).
  { intros g. unfold conclude. apply still_bind; [apply still_request|intros _].
    apply still_bind; [apply still_finish|intros _]. by apply wp_ret. }
  unfold conclude_chain. destruct hops; [apply Hc|]. cbv zeta.
  apply still_bind; [apply still_silent; destruct (fail_reason f); auto with silent|intros _]. apply Hc.
Qed.

Lemma still_stopped route is_auto on_fallback first t :
  still (stopped_by_budget E route is_auto on_fallback first t).
Proof. unfold stopped_by_budget. cbv zeta. repeat case_match; apply still_exhaust. Qed.

Lemma Closed_unmoved h ms : Closed h ms → moved_of ms = [].
Proof. intros (tr & -> & _). by destruct (held_active h). Qed.

Lemma turned_unmoved endpoint headers id route active budget plan ob i c w t ms :
  turned st endpoint headers id route active budget plan ob i c w t ms → moved_of ms = [].
Proof.
  intros Ht. destruct Ht as [| | |node t ms Hl Hn Hr]; try done. simpl.
  destruct Hr as [| |t w' ms HT (h & o & ms' & -> & _ & _ & Hcase)|w' tr Htr Hres]; try done.
  - destruct Hcase as [(r & _ & Hms)|[_ Hms]]; simpl in Hms |- *; [|by eapply Closed_unmoved].
    destruct (resp_body r); [by eapply Closed_unmoved..|]. by destruct Hms as [-> _].
  - by destruct active.
Qed.

Lemma walked_unmoved endpoint headers id route active budget plan ob i cs w e w' ms :
  walked st endpoint headers id route active budget plan ob i cs w e w' ms → moved_of ms = [].
Proof.
  induction 1 as [i w|i c cs w w1 e w' ms1 ms2 Ht _ IH|i c cs w w' ms Ht|i c cs w w' e ms Ht]; [done|..];
    apply turned_unmoved in Ht; [|done..]. by rewrite moved_app, Ht, IH.
Qed.

Lemma wp_route_unmoved endpoint headers request id route needs t active started budget :
  wp (attempt_route E st endpoint headers request id route needs t active started budget)
    (λ r ms, moved_of ms = [] ∧ ∀ f, r.1 = RouteFailed f → fail_route f = route_name route).
Proof.
  eapply wp_mono; [apply wp_attempt_route|].
  intros r ms (s & hb & ob & sticky & Ha). unfold route_attempted in Ha.
  destruct (plan_with_affinity _ _ _ _ _ _ _).1 as [plan|f] eqn:Hp.
  - destruct Ha as (t' & e & w' & _ & Hw & ->). split; [by eapply walked_unmoved|].
    pose proof (walked_counts _ _ _ _ _ _ _ _ _ _ _ _ _ _ _ Hw) as Hc.
    destruct e as [[]|]; simpl in *; intros f0; try done. intros [= <-].
    unfold walk_failure. by destruct (wk_refusal w').
  - destruct Ha as (-> & f' & -> & Hf & _). split; [done|]. by intros ? [= <-].
Qed.

(** A path along the plan: each move starts where the last one ended. *)
Definition follows (start : RouteName) (plan : list RouteName)
    (moves : list (RouteName * RouteName)) : Prop :=
  ∃ k, moves.*2 = take k plan ∧ moves.*1 = take (length moves) (start :: take k plan).

Lemma follows_nil start plan : follows start plan [].
Proof. exists 0%nat. by rewrite take_0. Qed.

Lemma follows_cons start next plan moves :
  follows next plan moves → follows start (next :: plan) ((start, next) :: moves).
Proof. intros (k & Ht & Hf). exists (S k). csimpl. split; [by rewrite Ht|by rewrite Hf]. Qed.

Lemma next_route_spec f name remaining reason next rest :
  next_route st f (name :: remaining) = Some (reason, next, rest) →
  fail_reason f = Some reason ∧ route_name next = name.
Proof.
  unfold next_route. destruct (fail_reason f) as [r|]; [|done].
  destruct (find_route (topology st) name) as [x|] eqn:Hx; [|done]. intros [= <- <- <-].
  apply find_first_Some in Hx as [_ Hx]. by apply bool_decide_eq_true in Hx.
Qed.

Lemma wp_route_chain endpoint headers id needs is_auto nested budget initial remaining route hops
    request t started :
  wp (route_loop E st endpoint headers id needs is_auto nested budget initial remaining route hops
        request t started)
    (λ _ ms, follows (route_name route) remaining (moved_of ms)).
Proof.
  revert route hops request t started.
  induction remaining as [|name remaining IH]; intros route hops request t started; cbn [route_loop];
    (eapply wp_call; [apply wp_route_unmoved|]); intros [e request'] ms [Hms Hf]; cbn [fst] in Hf;
    destruct e as [r|f|t' first|].
  all: try (apply wp_ret; rewrite app_nil_r, Hms; apply follows_nil).
  all: try (eapply wp_call; [apply still_stopped|]; intros r ms' Hms'; apply wp_ret;
    rewrite app_nil_r, moved_app, Hms; cbn beta in Hms'; rewrite Hms'; apply follows_nil).
  all: specialize (Hf f eq_refl).
  { eapply wp_call; [apply still_conclude_chain|]; intros r ms' Hms'; apply wp_ret.
    rewrite app_nil_r, moved_app, Hms. cbn beta in Hms'. rewrite Hms'. apply follows_nil. }
  destruct (next_route _ _ _) as [[[reason next] ?]|] eqn:Hn; last first.
  { eapply wp_call; [apply still_conclude_chain|]; intros r ms' Hms'; apply wp_ret.
    rewrite app_nil_r, moved_app, Hms. cbn beta in Hms'. rewrite Hms'. apply follows_nil. }
  apply next_route_spec in Hn as [_ Hn]. wp_skip. case_match.
  - eapply wp_call; [apply still_exhaust|]. intros r ms' Hms'. apply wp_ret.
    rewrite app_nil_r, moved_app, Hms. cbn beta in Hms'. rewrite Hms'. apply follows_nil.
  - cbv zeta. eapply wp_call with (P := λ _ ms, moved_of ms = [(route_name route, name)]).
    { unfold move_on. wp_skip. apply wp_bind, wp_event. apply wp_ret. simpl. by rewrite Hf, Hn. }
    intros t1 ms' Hms'. wp_skip. eapply wp_mono; [apply IH|].
    intros ans ms'' Hans. rewrite !moved_app, Hms, Hms'. rewrite Hn in Hans. by apply follows_cons.
Qed.

(** C29: an [Auto] request moves along its frozen chain and nowhere else.  From
    the route a request resolved to, the routes it moves to are a prefix of
    that route's own list, in order, each move leaving the route it was at; a
    request that named its route, or is itself a classification, never moves;
    and where no list is longer than the three a validated section allows, it
    is tried on at most four routes. *)
Theorem fallback_follows_the_chain route r endpoint headers body request id received started nested
    budget :
  (∀ a, auto st = Some a →
     Z.of_nat (length (chain (cross_route_fallback a) (route_name route))) ≤ MAX_FALLBACK_ROUTES) →
  wp (on_resolved E st extract route r endpoint headers body request id received started nested
        budget)
    (λ _ ms, follows (route_name route) (fallback_plan st route (bool_decide (is_Some r)) nested)
               (moved_of ms) ∧
       (r = None ∨ nested = true → moved_of ms = []) ∧
       Z.of_nat (length (moved_of ms)) ≤ 3).
Proof.
  intros Hmax.
  assert (Hend : ∀ ms, follows (route_name route)
      (fallback_plan st route (bool_decide (is_Some r)) nested) (moved_of ms) →
    follows (route_name route) (fallback_plan st route (bool_decide (is_Some r)) nested)
      (moved_of ms) ∧ (r = None ∨ nested = true → moved_of ms = []) ∧
    Z.of_nat (length (moved_of ms)) ≤ 3).
  { intros ms (k & Hto & Hfrom). split; [by exists k|].
    assert (Hlen : length (moved_of ms) = length (take k (fallback_plan st route (bool_decide (is_Some r)) nested)))
      by by rewrite <-Hto, length_fmap.
    rewrite length_take in Hlen. unfold fallback_plan in Hlen. split.
    - intros Hn. apply nil_length_inv. rewrite Hlen.
      destruct (auto st); [|simpl; lia]. destruct Hn as [-> | ->]; simpl; [lia|].
      rewrite andb_false_r. simpl. lia.
    - destruct (auto st) as [a|]; [|simpl in Hlen; lia]. specialize (Hmax a eq_refl).
      unfold MAX_FALLBACK_ROUTES in Hmax. destruct (_ && _); simpl in Hlen; lia. }
  eapply wp_mono; [|intros a ms; apply Hend].
  unfold on_resolved. eapply wp_call; [apply wp_tracker_new|]. intros t ms0 [-> _]. cbv zeta.
  destruct (match r with Some r => _ | None => _ end).
  - wp_skip. case_match; [|apply wp_route_chain].
    eapply wp_call; [apply still_stopped|]. intros resp ms Hms. apply wp_ret.
    rewrite app_nil_r, !moved_app. cbn beta in Hms. rewrite Hms. apply follows_nil.
  - wp_skip. wp_skip. apply wp_bind, wp_event. eapply wp_call; [apply still_finish|].
    intros [] ms Hms. apply wp_ret. rewrite app_nil_r, !moved_app. cbn beta in Hms. rewrite Hms.
    apply follows_nil.
Qed.
End request.

(** ** Concrete requests *)

(** Two nodes that are not ready: the request is sent to both, in the order of
    the plan. *)
Lemma attempts_follow_the_plan_witness :
  ∃ ms, marks (events (demo_attempt (fun _ => unready) None).2) = ms ∧
    sent_to ms = [on_laptop; on_tower] ∧ NoDup (sent_to ms) ∧
    hb_nodes (found_book (findings (demo_env (fun _ => unready)) ∅ (demo_route Priority)
                (demo_world Priority))) = hb_nodes (both_up Priority).
Proof.
  destruct (attempts_follow_the_plan (demo_env (fun _ => unready)) (demo_state Priority None)
    ChatCompletions ∅ empty_object (lit "r-1") (demo_route Priority) short_chat
    (demo_tracker Priority None) true 0 None (demo_world Priority) (demo_wf Priority)
    ltac:(by apply list_elem_of_singleton)) as (ms & Hms & Hnd & _).
  exists ms. split; [exact Hms|]. split; [|split; [exact Hnd|done]].
  change (marks (events (demo_attempt (fun _ => unready) None).2) = ms) in Hms.
  rewrite <-Hms. vm_compute. reflexivity.
Defined.

(** A request answered at once, counted ok. *)
Lemma request_is_counted_once_witness :
  ∃ ms, marks (events (serve (demo_env (fun _ => answered)) (demo_state Priority None)
      demo_extract (fun _ _ => []) ChatCompletions ∅ (lit "for Coder") (lit "rtr-1") 1
      (demo_world Priority)).2) = ms ∧
    left_of ms = 1%nat ∧ counted ms = [(mkRouteName (lit "Coder"), OutOk)].
Proof.
  destruct (request_is_counted_once (demo_env (fun _ => answered)) (demo_state Priority None)
    demo_extract (fun _ _ => []) ChatCompletions ∅ (lit "for Coder") (lit "rtr-1") 1
    ltac:(done) ltac:(done) (demo_world Priority)) as (ms & Hms & Hl & _).
  exists ms. simpl marks in Hms. split; [exact Hms|]. split; [exact Hl|].
  rewrite app_nil_l in Hms. rewrite <-Hms. vm_compute. reflexivity.
Defined.

(** Nothing is ready: a request for [Auto] moves on to its one fallback. *)
Lemma fallback_follows_the_chain_witness :
  ∃ ms, marks (events (on_resolved (demo_env (fun _ => unready)) auto_state demo_extract
      (demo_route Priority) (Some on_coder) ChatCompletions ∅ [] empty_object (lit "rtr-1") 0 0 false
      None (demo_world Priority)).2) = ms ∧
    moved_of ms = [(coder, backup)] ∧ Z.of_nat (length (moved_of ms)) ≤ 3.
Proof.
  destruct (fallback_follows_the_chain (demo_env (fun _ => unready)) auto_state demo_extract
    (demo_route Priority) (Some on_coder) ChatCompletions ∅ [] empty_object (lit "rtr-1") 0 0 false
    None) with (w := demo_world Priority) as (ms & Hms & _ & _ & Hlen).
  { intros a [= <-]. vm_compute. discriminate. }
  exists ms. split; [exact Hms|]. split; [|exact Hlen].
  rewrite app_nil_l in Hms. rewrite <-Hms. vm_compute. reflexivity.
Defined.
