(* ===== verification/LeaseTheorems.v ===== *)
(** * Slots are given back

    The leases of [Load.v] followed through [Proxy.v] and [Forward.v], while
    other tasks take and give back slots of their own between any two steps.
    [Owes own] says of the shared books that every counter is the number of
    live leases on it: those this request holds ([own]), and those the other
    tasks hold ([sh_elsewhere]), which they take and give back as they go. *)

From stdpp Require Import base gmap strings numbers list.
From S2P Require Import Prelude Names Utf8 Domain Health Capability Load Select SelectTheorems.
From S2P Require Import Rewriter Fallback Affinity Budget Classifier Scoring AutoRoute Responses.
From S2P Require Import Trace World WorldLogic Relay Proxy ProxyTheorems Forward ProxyDemo.
From S2P Require Import ForwardTheorems.

(** ** Owing slots *)

Definition Owes (own : list Lease) (s : Shared) : Prop :=
  Balanced (mkInUse (load (sh_selector s)) (own ++ sh_elsewhere s)) ∧
  Z.of_nat (length own) < 2 ^ 62 ∧ Z.of_nat (length (sh_elsewhere s)) < 2 ^ 63.

(** What the others do between two steps: they may take slots and give back
    slots of their own, and the books stay the account of the leases that are
    then live.  They do not give back this request's. *)
Definition fair (E : Env) : Prop := ∀ n s own, Owes own s → Owes own (others E n s).

Lemma holding_perm d ls ls' : ls ≡ₚ ls' → holding d ls = holding d ls'.
Proof. induction 1; rewrite ?holding_cons in *; lia || congruence. Qed.

Lemma Balanced_perm b ls ls' :
  ls ≡ₚ ls' → Balanced (mkInUse b ls) → Balanced (mkInUse b ls').
Proof. intros Hp HB d. specialize (HB d). simpl in *. by rewrite <-(holding_perm d _ _ Hp). Qed.

Section owing.
Context (s : Shared) (own : list Lease).

Definition with_load (b : LoadBook) : Shared :=
  mkShared (sh_health s) (mkSelector (cursors (sh_selector s)) b) (sh_affinity s) (sh_history s)
    (sh_status s) (sh_elsewhere s).

Lemma Owes_acquire b' l d :
  acquire (load (sh_selector s)) d = (l, b') → Z.of_nat (length own) < 2 ^ 61 →
  Owes own s → Owes (l :: own) (with_load b').
Proof.
  intros Ha Hl (HB & _ & Hf). split; [|simpl; lia].
  change (acquire ?x ?y) with (book_acquire x y) in Ha.
  pose proof (Balanced_step _ _ (use_acquire (load (sh_selector s)) (own ++ sh_elsewhere s) d)) as Hs.
  rewrite Ha in Hs. apply Hs; [|done]. simpl. rewrite length_app. lia.
Qed.

Lemma Owes_release l :
  Owes (l :: own) s → Owes own (with_load (drop_lease (load (sh_selector s)) l)).
Proof.
  intros (HB & Hl & Hf). simpl in Hl. split; [|simpl; lia].
  apply (Balanced_step _ _ (use_drop (load (sh_selector s)) (l :: own ++ sh_elsewhere s) 0 l eq_refl));
    [|done]. simpl. rewrite length_app. lia.
Qed.

(** Only the counters and the leases elsewhere matter. *)
Lemma Owes_same s' :
  load (sh_selector s') = load (sh_selector s) → sh_elsewhere s' = sh_elsewhere s →
  Owes own s → Owes own s'.
Proof. unfold Owes. by intros -> ->. Qed.
End owing.

(** ** Actions that move no slot *)

Section actions.
Context {O : Type} (E : Env) `{LowerCase} `{MapIter} `{Exp2}.
Hypothesis fairly : fair E.

Definition owing (own : list Lease) (w : World O) : Prop := Owes own (shared w).

(** From owing [own] to owing what the result says. *)
Definition keeps {A} (own : list Lease) (m : M (O:=O) A) (own' : A → list Lease) : Prop :=
  triple (owing own) m (λ a, owing (own' a)).

Definition neutral {A} (m : M (O:=O) A) : Prop := ∀ own, keeps own m (λ _, own).

Lemma keeps_bind {A B} own (m : M A) own1 (k : A → M B) own2 :
  keeps own m own1 → (∀ a, keeps (own1 a) (k a) own2) → keeps own (bind m k) own2.
Proof. apply triple_bind. Qed.

Lemma keeps_neutral {A B} own (m : M A) (k : A → M B) own2 :
  neutral m → (∀ a, keeps own (k a) own2) → keeps own (bind m k) own2.
Proof. intros Hm Hk. by eapply keeps_bind. Qed.

(** The same, where [wp] knows more of what the first action returns. *)
Lemma keeps_knowing {A B} own (m : M A) own1 (R : A → Prop) (k : A → M B) own2 :
  keeps own m own1 → wp m (λ a _, R a) → (∀ a, R a → keeps (own1 a) (k a) own2) →
  keeps own (bind m k) own2.
Proof.
  intros Hm HR Hk. eapply triple_bind; [by eapply triple_wp|].
  intros a w [Hw (_ & Ha)]. by apply Hk.
Qed.

Lemma keeps_ret {A} own own' (a : A) : own' a = own → keeps own (ret a) own'.
Proof. intros Ho w Hw. simpl. by rewrite Ho. Qed.

Lemma neutral_bind {A B} (m : M A) (k : A → M B) :
  neutral m → (∀ a, neutral (k a)) → neutral (bind m k).
Proof. intros Hm Hk own. eapply keeps_neutral; [done|]. intros a. apply Hk. Qed.

Lemma neutral_ret {A} (a : A) : neutral (ret a).
Proof. intros own. by apply keeps_ret. Qed.
Lemma neutral_look {A} (f : nat → A) : neutral (look f).
Proof. by intros own w Hw. Qed.
Lemma neutral_event e : neutral (event e).
Proof. by intros own w Hw. Qed.

(** A step on the books that ends with what it owes. *)
Lemma keeps_atomically {A} own (f : Shared → A * Shared) own' :
  (∀ s, Owes own s → Owes (own' (f s).1) (f s).2) → keeps own (atomically E f) own'.
Proof.
  intros Hf w Hw. specialize (Hf _ (fairly (steps w) _ _ Hw)). unfold atomically.
  by destruct (f _).
Qed.

Lemma neutral_atomically {A} (f : Shared → A * Shared) :
  (∀ s, load (sh_selector (f s).2) = load (sh_selector s) ∧
    sh_elsewhere (f s).2 = sh_elsewhere s) → neutral (atomically E f).
Proof.
  intros Hf own. apply keeps_atomically. intros s. destruct (Hf s). by apply Owes_same.
Qed.

Lemma keeps_take own d :
  Z.of_nat (length own) < 2 ^ 61 → keeps own (take_lease E d) (λ l, l :: own).
Proof.
  intros Hl. apply keeps_atomically. intros s Hs.
  destruct (acquire (load (sh_selector s)) d) as [l b'] eqn:Ha. by eapply (Owes_acquire s).
Qed.

Lemma keeps_release own l : keeps (l :: own) (release E l) (λ _, own).
Proof. apply keeps_atomically. intros s. apply Owes_release. Qed.

(** An optional lease, held or not. *)
Definition of_opt (l : option Lease) : list Lease := match l with Some l => [l] | None => [] end.

Lemma keeps_release_opt l : keeps (of_opt l) (release_opt E l) (λ _, []).
Proof. destruct l as [l|]; [by apply keeps_release|by apply keeps_ret]. Qed.
End actions.

Create HintDb neutral.
#[export] Hint Resolve neutral_ret neutral_look neutral_event : neutral.
#[export] Hint Extern 1 (neutral (metric _)) => apply neutral_event : neutral.
#[export] Hint Extern 1 (neutral (now _)) => apply neutral_look : neutral.
#[export] Hint Extern 1 (neutral (unix_now _)) => apply neutral_look : neutral.

(** Neutrality of an action that is written out. *)
Ltac keep :=
  repeat match goal with
  | |- neutral (bind _ _) => apply neutral_bind; [|intros ?]
  | |- neutral (let '_ := ?x in _) => destruct x
  | |- neutral (match ?x with _ => _ end) => destruct x
  | |- neutral (with_health _ _) => unfold with_health
  | |- neutral (with_affinity _ _) => unfold with_affinity
  | |- neutral (with_history _ _) => unfold with_history
  | |- neutral (with_status _ _) => unfold with_status
  | |- neutral (read_health _) => unfold read_health
  | |- neutral (read_history _) => unfold read_history
  | |- neutral (atomically _ _) => apply neutral_atomically; [done|intros ?]
  | |- load _ = load _ ∧ _ => split; repeat case_match; done
  | |- neutral _ => solve [auto with neutral]
  end.

Section shared_actions.
Context {O : Type} (E : Env) `{LowerCase} `{MapIter} `{Exp2} {J : Json} `{!JsonNumbers J}.
Hypothesis fairly : fair E.

Lemma neutral_expired b : neutral (O:=O) (expired E b).
Proof. unfold expired. keep. Qed.

Lemma neutral_observe route o nested : neutral (O:=O) (observe_route E route o nested).
Proof. unfold observe_route. keep. Qed.

Lemma neutral_finish t status outcome : neutral (O:=O) (tracker_finish E t status outcome).
Proof. unfold tracker_finish. cbv zeta. keep. all: apply neutral_observe. Qed.

Lemma keeps_held_end h outcome :
  keeps (O:=O) [held_lease h] (held_end E h outcome) (λ _, []).
Proof.
  unfold held_end. eapply keeps_neutral; [keep|intros ?]. eapply keeps_neutral; [keep|intros ?].
  eapply keeps_neutral; [apply neutral_finish|intros ?].
  eapply keeps_neutral; [keep|intros ?]. by apply keeps_release.
Qed.

(** What a committed answer still holds. *)
Definition held_by (r : option (Response RelayState)) : list Lease :=
  match r with
  | Some r => match resp_body r with Streamed s => [held_lease (held s)] | _ => [] end
  | None => []
  end.

Lemma keeps_commit r route h : keeps (O:=O) [held_lease h] (commit E r route h) held_by.
Proof.
  unfold commit. case_match; [by apply keeps_ret|].
  destruct (read_body (resp_body r)) as [[b|]|] eqn:Hb.
  - destruct (rename_body _ _ _ _) as [b' h'] eqn:Hr.
    pose proof (rename_body_same (resp_status r) route b h) as (_ & Hl & _).
    rewrite Hr in Hl. simpl in Hl.
    eapply keeps_bind; [rewrite <-Hl; apply keeps_held_end|]. intros ?. apply keeps_ret. simpl.
    destruct b' as [| |s]; try done. exfalso.
    apply (rename_body_plain (resp_status r) route _ b h s Hb). by rewrite Hr.
  - eapply keeps_bind; [apply (keeps_held_end (set_status 502 h))|]. intros ?. by apply keeps_ret.
  - eapply keeps_bind; [apply keeps_held_end|]. intros ?. by apply keeps_ret.
Qed.

Lemma neutral_saw h r : neutral (O:=O) (held_saw E h r).
Proof. unfold held_saw. cbv zeta. keep. Qed.
End shared_actions.

(** ** Planning *)

(** A plan reserves a slot on its first candidate, or none. *)
Lemma plan_reserves `{LowerCase} (s : Selector LoadBook) t r book seen needs sticky :
  let '(planned, s') := plan_with_affinity s t r book seen needs sticky in
  match planned with
  | Ok p => (reservation p = None ∧ load s' = load s) ∨
      ∃ d, reservation p = Some (acquire (load s) d).1 ∧ load s' = (acquire (load s) d).2
  | Err _ => s' = s
  end.
Proof.
  unfold plan_with_affinity. destruct (let? e := _ in _) as [e|f]; [|done].
  assert (Hr : ∀ l p, (reservation (reserve l p).1 = None ∧ (reserve l p).2 = l) ∨
    ∃ d, reservation (reserve l p).1 = Some (acquire l d).1 ∧ (reserve l p).2 = (acquire l d).2).
  { intros l p. unfold reserve. destruct (plan_candidates p) as [|c cs]; [by left|]. right.
    exists (cand_deployment c). by destruct (acquire l (cand_deployment c)). }
  assert (Hpol : ∀ b, let '(planned, s') := (let '(p, cs) := policy_order s r (route_state s t r) e seen in
      let '(p, l) := reserve (load s) p in (Ok (with_sticky p b), mkSelector cs l)) in
    match (planned : result Plan RoutingFailure) with
    | Ok p => (reservation p = None ∧ load s' = load s) ∨
        ∃ d, reservation p = Some (acquire (load s) d).1 ∧ load s' = (acquire (load s) d).2
    | Err _ => s' = s
    end).
  { intros b. destruct (policy_order _ _ _ _ _) as [p cs]. pose proof (Hr (load s) p) as Hp.
    by destruct (reserve (load s) p). }
  destruct (sticky_standing e <$> sticky) as [[i|why]|]; try apply Hpol.
  unfold plan_sticky_hit. cbv zeta.
  match goal with |- context [reserve ?l ?p] => pose proof (Hr l p) as Hp; by destruct (reserve l p) end.
Qed.

(** ** Attempts *)

Section attempts.
Context `{LowerCase} `{MapIter} `{Exp2} `{SessionHash} `{StrDebug} {J : Json} `{!JsonNumbers J}.
Context (E : Env) (st : RouterState).
Hypothesis fairly : fair E.

Lemma neutral_attempt_one endpoint headers id route node c request :
  neutral (attempt_one E endpoint headers id route node c request).
Proof. unfold attempt_one, judge_refusal. cbv zeta. keep. Qed.

Lemma neutral_bounded {A} b (m : M (Polled A)) : neutral m → neutral (O:=Object) (bounded E b m).
Proof. intros Hm. unfold bounded. apply neutral_bind; [done|]. intros ?. keep. Qed.

Lemma neutral_settle key planned failed d t :
  neutral (O:=Object) (settle_affinity E key planned failed d t).
Proof. unfold settle_affinity. cbv zeta. keep. Qed.

Lemma neutral_unfit route unfit : neutral (O:=Object) (record_unfit route unfit).
Proof. unfold record_unfit. induction (mjoin _); simpl; keep. Qed.

(** What a route that ended still holds. *)
Definition end_holds (e : RouteEnd) : list Lease :=
  match e with RouteCommitted r => held_by (Some r) | _ => [] end.

Definition walk_holds (w : Walk Object) : list Lease := of_opt (wk_reservation w).

Definition turn_holds (t : Turn Object) : list Lease :=
  match t with
  | TurnNext w | TurnBreak w => walk_holds w
  | TurnReturn e w => walk_holds w ++ end_holds e
  end.

Lemma keeps_lease_for attempt c reservation :
  keeps (O:=Object) (of_opt reservation) (lease_for E attempt c reservation) (λ l, [l]).
Proof.
  destruct reservation as [l|]; simpl; [|apply keeps_take; [done|simpl; lia]].
  case_match; [by apply keeps_ret|].
  eapply keeps_bind; [by apply keeps_release|]. intros ?.
  apply keeps_take; [done|simpl; lia].
Qed.

Section walks.
Context (endpoint : Endpoint) (headers : HeaderMap) (request_id : str) (route : Route)
  (needs : RequestRequirements) (active : bool) (budget : option RequestBudget)
  (session : option AffinityKey) (plan : Plan)
  (observed : gmap DeploymentId DeploymentObservation).

Lemma keeps_turn_ret t w :
  wk_reservation w = None →
  t = TurnNext w ∨ t = TurnBreak w ∨ (∃ tk b, t = TurnReturn (RouteBudget tk b) w) ∨
    t = TurnReturn Gone w →
  keeps (O:=Object) [] (ret t) turn_holds.
Proof.
  intros Hw Ht. apply keeps_ret.
  destruct Ht as [->|[->|[(tk & b & ->)| ->]]]; unfold turn_holds, walk_holds; simpl; by rewrite Hw.
Qed.

Lemma keeps_after_next attempt rest refusal w :
  wk_reservation w = None →
  keeps (O:=Object) [] (after_next E route budget plan observed attempt rest refusal w) turn_holds.
Proof.
  intros Hw. unfold after_next. case_match; [|by eapply keeps_turn_ret; [|by left]].
  eapply keeps_neutral; [apply neutral_expired|intros spent].
  destruct spent; [by eapply keeps_turn_ret; [|eauto 8]|].
  eapply keeps_neutral; [keep|intros ?]. eapply keeps_turn_ret; [|by left]; exact Hw.
Qed.

Lemma keeps_after_overflow attempt c rest refusal w :
  wk_reservation w = None →
  keeps (O:=Object) []
    (after_overflow E route needs budget plan observed attempt c rest refusal w) turn_holds.
Proof.
  intros Hw. unfold after_overflow. cbv zeta.
  case_match; [|by eapply keeps_turn_ret; [|by right; left]].
  eapply keeps_neutral; [apply neutral_expired|intros spent].
  destruct spent; [by eapply keeps_turn_ret; [|eauto 8]|].
  eapply keeps_neutral; [keep|intros ?]. eapply keeps_neutral; [keep|intros ?].
  eapply keeps_turn_ret; [|by left]; exact Hw.
Qed.

Lemma keeps_after_commit c reason r sent lease w :
  wk_reservation w = None →
  keeps (O:=Object) [lease]
    (after_commit E route active budget session plan observed c reason r sent lease w) turn_holds.
Proof.
  intros Hw. unfold after_commit. cbv zeta.
  eapply keeps_neutral; [keep; apply neutral_settle|intros t].
  eapply keeps_neutral; [keep|intros ?]. eapply keeps_neutral; [keep|intros ?].
  eapply keeps_neutral; [unfold note_budget; keep|intros t'].
  eapply keeps_bind; [by apply (keeps_commit E fairly r (route_name route)
    (mkHeld active lease t' (sent_at sent) (cand_deployment c) (resp_status r)))|].
  intros answer. apply keeps_ret. unfold turn_holds, walk_holds. rewrite Hw. by destruct answer.
Qed.

Lemma keeps_try attempt c node reason rest w :
  keeps (O:=Object) (walk_holds w)
    (try_candidate E endpoint headers request_id route needs active budget session plan observed
       attempt c node reason rest w) turn_holds.
Proof.
  unfold try_candidate. eapply keeps_bind; [apply keeps_lease_for|]. intros lease. cbv zeta.
  eapply keeps_neutral; [apply neutral_bounded, neutral_attempt_one|].
  intros [[[[r|refusal|refusal] sent]|]|].
  - by apply keeps_after_commit.
  - eapply keeps_bind; [by apply keeps_release|]. intros ?. by apply keeps_after_next.
  - eapply keeps_bind; [by apply keeps_release|]. intros ?. by apply keeps_after_overflow.
  - eapply keeps_bind; [by apply keeps_release|]. intros ?.
    eapply keeps_turn_ret; [|eauto 8]; done.
  - eapply keeps_bind; [by apply keeps_release|]. intros ?.
    eapply keeps_neutral; [by apply neutral_finish|intros ?]. eapply keeps_neutral; [keep|intros ?].
    eapply keeps_turn_ret; [|eauto 8]; done.
Qed.

Lemma keeps_turn attempt c rest w :
  keeps (O:=Object) (walk_holds w)
    (turn E st endpoint headers request_id route needs active budget session plan observed attempt
       c rest w) turn_holds.
Proof.
  unfold turn. destruct (negb _); [by apply keeps_ret|].
  destruct (decision plan attempt); [|by apply keeps_ret].
  destruct (find_node _ _); [|by apply keeps_ret]. cbv zeta.
  eapply keeps_neutral; [apply neutral_expired|intros spent].
  destruct spent; [|apply keeps_try]. apply keeps_ret. unfold turn_holds. apply app_nil_r.
Qed.

(** What a walk leaves held. *)
Definition left_held (r : option RouteEnd * Walk Object) : list Lease :=
  walk_holds r.2 ++ match r.1 with Some e => end_holds e | None => [] end.

Lemma keeps_walk i cs w :
  keeps (O:=Object) (walk_holds w)
    (walk E st endpoint headers request_id route needs active budget session plan observed i cs w)
    left_held.
Proof.
  revert i w. induction cs as [|c cs IH]; intros i w; simpl.
  { apply keeps_ret. apply app_nil_r. }
  eapply keeps_bind; [apply keeps_turn|]. intros [w'|w'|e w']; simpl.
  - apply IH.
  - apply keeps_ret. apply app_nil_r.
  - by apply keeps_ret.
Qed.
End walks.

Lemma keeps_plan route hb ob needs sticky :
  keeps (O:=Object) []
    (with_selector E (λ s, plan_with_affinity s (topology st) route hb ob needs sticky))
    (λ r, match r with Ok p => of_opt (reservation p) | Err _ => [] end).
Proof.
  apply keeps_atomically; [done|]. intros s Hs.
  pose proof (plan_reserves (sh_selector s) (topology st) route hb ob needs sticky) as Hp.
  destruct (plan_with_affinity _ _ _ _ _ _ _) as [[p|f] s']; simpl.
  - destruct Hp as [[-> Hl]|(d & -> & Hl)]; [by apply (Owes_same s)|].
    destruct (acquire (load (sh_selector s)) d) as [l b'] eqn:Ha.
    apply (Owes_same (with_load s b')); [done..|]. by apply (Owes_acquire s [] b' l d).
  - by apply (Owes_same s); rewrite ?Hp.
Qed.

Lemma keeps_release_then own l : (length own ≤ 1)%nat →
  keeps (O:=Object) (of_opt l ++ own) (release_opt E l) (λ _, own).
Proof. intros Ho. destruct l; [by apply keeps_release|by apply keeps_ret]. Qed.

Lemma keeps_attempt_route endpoint headers request id route needs t active started budget :
  keeps (O:=Object) []
    (attempt_route E st endpoint headers request id route needs t active started budget)
    (λ r, end_holds r.1).
Proof.
  unfold attempt_route. eapply keeps_neutral; [unfold session_of; keep|intros key].
  eapply keeps_neutral; [unfold lookup_sticky; keep|intros sticky]. cbv zeta.
  eapply keeps_neutral; [keep|intros ob]. eapply keeps_neutral; [keep|intros hb].
  eapply keeps_bind; [apply keeps_plan|]. intros [plan|failure].
  - eapply keeps_neutral; [apply neutral_unfit|intros ?]. eapply keeps_neutral; [keep|intros ?].
    eapply keeps_neutral; [keep|intros ?].
    eapply keeps_neutral; [unfold note_plan; cbv zeta; keep|intros t'].
    eapply keeps_bind; [apply (keeps_walk endpoint headers id route needs active budget key plan
      (hb_deployments ob) 0 (plan_candidates plan) (mkWalk _ _ (reservation plan) _ _ _ _ _))|].
    intros [e w']. unfold left_held, walk_holds. cbn [fst snd].
    eapply keeps_bind; [apply keeps_release_then|].
    { destruct e as [[r| | |]|]; simpl; try lia. destruct (resp_body r); simpl; lia. }
    intros ?. apply keeps_ret. simpl. by destruct e.
  - eapply keeps_neutral; [keep|intros ?]. eapply keeps_neutral; [keep|intros ?].
    eapply keeps_neutral; [unfold plan_failure; cbv zeta; keep; apply neutral_unfit|intros f].
    by apply keeps_ret.
Qed.
End attempts.

(** ** Requests *)

Section requests.
Context `{LowerCase} `{MapIter} `{Exp2} `{SessionHash} `{StrDebug} {J : Json} `{!JsonNumbers J}
  `{!JsonScalars J}.
Context (E : Env) (st : RouterState).
Context (extract : Endpoint → list byte → result RequestRequirements (Response RelayState))
  (body_text : Endpoint → list byte → str).
Hypothesis fairly : fair E.

(** An action that answers, holding what its answer holds. *)
Definition answering (m : M (O:=Object) (Response RelayState)) : Prop :=
  keeps [] m (λ r, held_by (Some r)).

Lemma answering_neutral {A} (m : M (O:=Object) A) k :
  neutral m → (∀ a, answering (k a)) → answering (bind m k).
Proof. apply keeps_neutral. Qed.

Lemma answering_ret r : plain r → answering (ret r).
Proof. intros Hr. apply keeps_ret. simpl. destruct (resp_body r) as [| |s] eqn:Hs; try done. by destruct (Hr s). Qed.

Lemma answering_exhaust t stage next : answering (exhaust E t stage next).
Proof.
  unfold exhaust. destruct (tk_budget t).
  - repeat (apply answering_neutral; [keep; by apply neutral_finish|intros ?]). by apply answering_ret.
  - apply answering_neutral; [by apply neutral_finish|intros ?]. by apply answering_ret.
Qed.

Lemma answering_conclude f : plain (fail_response f) → answering (conclude E f).
Proof.
  intros Hf. unfold conclude. apply answering_neutral; [keep|intros ?].
  apply answering_neutral; [by apply neutral_finish|intros ?]. by apply answering_ret.
Qed.

Lemma answering_conclude_chain initial hops f :
  plain (fail_response f) → answering (conclude_chain E initial hops f).
Proof.
  intros Hf. unfold conclude_chain. destruct hops; [by apply answering_conclude|]. cbv zeta.
  apply answering_neutral; [keep|intros ?]. by apply answering_conclude.
Qed.

Lemma answering_stopped route is_auto on_fallback first t :
  answering (stopped_by_budget E route is_auto on_fallback first t).
Proof. unfold stopped_by_budget. cbv zeta. repeat case_match; apply answering_exhaust. Qed.

Lemma neutral_tracker_new id route policy endpoint received nested budget :
  neutral (O:=Object) (Tracker_new E id route policy endpoint received nested budget).
Proof. unfold Tracker_new. keep. Qed.

Lemma neutral_move_on nested initial f reason next hops :
  neutral (O:=Object) (move_on E nested initial f reason next hops).
Proof. unfold move_on. keep. by apply neutral_observe. Qed.

(** What the client is answered, from such an action. *)
Lemma keeps_answer m (held : bool) :
  answering m → keeps [] (let* r := m in ret (Some r, held)) (λ a : Answer, held_by a.1).
Proof. intros Hm. eapply keeps_bind; [exact Hm|]. intros r. by apply keeps_ret. Qed.

(** A route's end: the response of a failure is the router's own. *)
Lemma route_fails_plainly endpoint headers request id route needs t active started budget :
  wp (attempt_route E st endpoint headers request id route needs t active started budget)
    (λ r _, ∀ f, r.1 = RouteFailed f → plain (fail_response f)).
Proof.
  eapply wp_mono; [apply wp_attempt_route|]. intros r ms (s & hb & ob & sticky & Ha).
  unfold route_attempted in Ha. destruct (plan_with_affinity _ _ _ _ _ _ _).1.
  - destruct Ha as (t' & e & w' & _ & Hwk & ->).
    pose proof (walked_counts _ _ _ _ _ _ _ _ _ _ _ _ _ _ _ Hwk) as Hc.
    destruct e as [[]|]; simpl in *; intros f0; try done. intros [= <-]. apply plain_walk_failure.
  - destruct Ha as (_ & f' & -> & _ & Hp & _). by intros ? [= <-].
Qed.

Lemma keeps_route_loop endpoint headers id needs is_auto nested budget initial remaining route hops
    request t started :
  keeps []
    (route_loop E st endpoint headers id needs is_auto nested budget initial remaining route hops
       request t started) (λ a, held_by a.1).
Proof.
  revert route hops request t started.
  induction remaining as [|name remaining IH]; intros route hops request t started; cbn [route_loop];
    (eapply keeps_knowing; [by apply keeps_attempt_route|apply route_fails_plainly|]);
    intros [[r|f|t' first|] request'] Hf; cbn [fst end_holds].
  1,4,5,8: by apply keeps_ret.
  2,4: apply keeps_answer, answering_stopped.
  all: specialize (Hf f eq_refl).
  { by apply keeps_answer, answering_conclude_chain. }
  destruct (next_route _ _ _) as [[[reason next] ?]|];
    [|by apply keeps_answer, answering_conclude_chain].
  eapply keeps_neutral; [apply neutral_expired|intros spent]. destruct spent.
  - apply keeps_answer. apply answering_exhaust.
  - cbv zeta. eapply keeps_neutral; [apply neutral_move_on|intros t1].
    eapply keeps_neutral; [keep|intros at_]. apply IH.
Qed.

Hypothesis extract_plain : ∀ e b r, extract e b = Err r → plain r.

Lemma keeps_plain own (r : Response RelayState) held :
  plain r → own = [] → keeps (O:=Object) own (ret (Some r, held) : M (O:=Object) Answer) (λ a, held_by a.1).
Proof.
  intros Hr ->. apply keeps_ret. simpl. destruct (resp_body r) as [| |s] eqn:Hs; try done.
  by destruct (Hr s).
Qed.

Lemma keeps_on_resolved route r endpoint headers body request id received started nested budget :
  keeps []
    (on_resolved E st extract route r endpoint headers body request id received started nested
       budget) (λ a, held_by a.1).
Proof.
  unfold on_resolved. eapply keeps_neutral; [apply neutral_tracker_new|intros t]. cbv zeta.
  destruct (match r with Some r => Ok (res_needs r) | None => _ end) as [needs|refusal] eqn:He.
  - eapply keeps_neutral; [apply neutral_expired|intros spent]. destruct spent.
    + apply keeps_answer, answering_stopped.
    + apply keeps_route_loop.
  - eapply keeps_neutral; [keep|intros at_]. eapply keeps_neutral; [keep|intros ?].
    eapply keeps_neutral; [keep|intros ?]. eapply keeps_neutral; [by apply neutral_finish|intros ?].
    apply keeps_plain; [|done]. destruct r; [done|]. by eapply extract_plain.
Qed.

(** A resolution moves no slot, and refuses only with what [extract] said. *)
Lemma neutral_resolve endpoint body id requested started nested budget :
  neutral (O:=Object)
    (resolve E st extract body_text endpoint body id requested started nested budget).
Proof.
  unfold resolve, resolve_auto, classify_for, ask_classifier, score_for. cbv zeta. keep.
Qed.

Lemma resolve_refuses endpoint body id requested started nested budget :
  wp (O:=Object) (resolve E st extract body_text endpoint body id requested started nested budget)
    (λ r _, ∀ a refusal, r = Err (a, Refused refusal) → plain refusal).
Proof.
  unfold resolve. destruct (auto st) as [a|]; [|by apply wp_ret].
  destruct (claims a requested); [|by apply wp_ret].
  eapply wp_call with (P := λ r _, ∀ refusal, r = Err (Refused refusal) → plain refusal).
  - unfold resolve_auto. destruct (extract endpoint body) as [needs|r] eqn:Hex.
    + cbv zeta. apply wp_silent; [unfold classify_for, ask_classifier; silence|intros [c|]];
        [|by apply wp_ret].
      case_bool_decide; [destruct c as [[c d]|]; [wp_skip|]; by apply wp_ret|].
      apply wp_silent; [unfold score_for; silence; apply silent_atomically|intros ?].
      apply wp_silent; [silence; apply silent_atomically|intros _]. wp_skip. by apply wp_ret.
    + wp_skip. wp_skip. apply wp_bind, wp_event, wp_ret. intros ? [= <-]. by eapply extract_plain.
  - intros [r|r] ms Hr; apply wp_ret; [done|]. intros ? ? [= <- ->]. by apply Hr.
Qed.

Lemma keeps_route_request endpoint headers body id received nested budget :
  keeps []
    (route_request E st extract body_text endpoint headers body id received nested budget)
    (λ a, held_by a.1).
Proof.
  unfold route_request. destruct (parse body) as [request|refusal] eqn:Hp; last first.
  { eapply keeps_neutral; [keep|intros ?]. apply keeps_plain; [|done].
    unfold parse, refuse_body in Hp. repeat case_match; by simplify_eq. }
  eapply keeps_neutral; [keep|intros started].
  eapply keeps_knowing; [apply neutral_resolve|apply resolve_refuses|].
  intros [[[route|failure] r]|[a [refusal|c rule|]]] Hr.
  - apply keeps_on_resolved.
  - eapply keeps_neutral; [keep|intros at_]. eapply keeps_neutral; [keep|intros ?].
    eapply keeps_neutral; [keep|intros ?]. apply keeps_plain; [|done]. apply plain_routing_failure.
  - apply keeps_plain; [|done]. by eapply Hr.
  - apply keeps_answer. unfold exhausted_classifying.
    apply answering_neutral; [apply neutral_tracker_new|intros t]. apply answering_exhaust.
  - by apply keeps_ret.
Qed.

Lemma keeps_forward endpoint headers body fresh :
  keeps [] (forward E st extract body_text endpoint headers body fresh) held_by.
Proof.
  unfold forward, forward_as. eapply keeps_neutral; [keep|intros received].
  eapply keeps_neutral; [keep|intros budget]. eapply keeps_neutral; [keep|intros ?]. cbv zeta.
  eapply keeps_bind; [apply keeps_route_request|]. intros [r held]. cbn [fst].
  eapply keeps_neutral; [keep|intros ?]. apply keeps_ret.
  destruct r as [r|]; [|done]. cbn [fmap option_fmap option_map held_by]. unfold echo.
  by destruct (to_str _).
Qed.

(** *** Streams *)

Lemma saw_lease h r : wp (O:=Object) (held_saw E h r) (λ h' _, held_lease h' = held_lease h).
Proof.
  unfold held_saw. cbv zeta. apply wp_silent; [|intros t; by apply wp_ret].
  case_match; [|apply silent_ret]. silence.
Qed.

(** What a poll leaves held. *)
Definition out_holds (o : RelayOut) : list Lease :=
  match o with
  | RelayItem _ (Some s) | RelayPending s => [held_lease (held s)]
  | RelayItem _ None | RelayOver => []
  end.

Lemma keeps_closed {A} h outcome (a : A) own :
  own a = [] →
  keeps (O:=Object) [held_lease h] (held_end E h outcome ;* ret a)%rust own.
Proof.
  intros Ha. eapply keeps_bind; [by apply keeps_held_end|]. intros ?. by apply keeps_ret.
Qed.

Lemma keeps_relay_chunks cs e r h :
  keeps (O:=Object) [held_lease h] (relay_chunks E cs e r h) out_holds.
Proof.
  revert r h. induction cs as [|c cs IH]; intros r h; simpl.
  - destruct e.
    + destruct (finish r) as [r' out].
      eapply keeps_knowing; [by apply neutral_saw|apply saw_lease|]. intros h' Hl. rewrite <-Hl.
      apply keeps_closed. by case_match.
    + destruct (abort r) as [r' out]. apply keeps_closed. by case_match.
    + by apply keeps_ret.
  - destruct (push r c) as [r' out].
    eapply keeps_knowing; [by apply neutral_saw|apply saw_lease|]. intros h' Hl. rewrite <-Hl.
    destruct (finished r'); [by apply keeps_closed|].
    case_match; [by apply keeps_ret|]. apply IH.
Qed.

Lemma keeps_relay_to polls s :
  keeps (O:=Object) [held_lease (held s)] (relay_to E polls s) (λ _, []).
Proof.
  revert s. induction polls as [|polls IH]; intros s; simpl; [by apply keeps_closed|].
  eapply keeps_bind; [apply keeps_relay_chunks|].
  intros [out [s'|]| |s']; cbn [out_holds]; [|by apply keeps_ret..|by apply keeps_closed].
  eapply keeps_bind; [apply IH|]. intros rest. by apply keeps_ret.
Qed.

Lemma keeps_serve endpoint headers body fresh polls :
  keeps [] (serve E st extract body_text endpoint headers body fresh polls) (λ _, []).
Proof.
  unfold serve. eapply keeps_bind; [apply keeps_forward|].
  intros [r|]; cbn [held_by]; [|by apply keeps_ret].
  destruct (resp_body r) as [| |s]; [by apply keeps_ret..|].
  eapply keeps_bind; [apply keeps_relay_to|]. intros ?. by apply keeps_ret.
Qed.
End requests.

(** C2: every slot is given back.  Whatever other requests take and give back
    between any two of its steps, and however it ends - refused, failed over,
    moved to another route, out of budget, broken off by the node, or left by
    its client at any point - a request that has been handled leaves every
    deployment's count of requests in flight at exactly the live leases the
    others hold by then; and once its handler has returned, the count is theirs
    and one slot of this request if its answer is still streaming, theirs alone
    otherwise.  The others are asked only to keep the count themselves: what
    they take they hold until they give it back, and they do not give back this
    request's.  (The gateway's refusals are whole bodies.) *)
Theorem every_slot_is_given_back `{LowerCase} `{MapIter} `{Exp2} `{SessionHash} `{StrDebug}
    {J : Json} `{!JsonNumbers J} `{!JsonScalars J} E st extract body_text endpoint headers body fresh
    polls (w : World Object) :
  fair E → (∀ e b r, extract e b = Err r → plain r) → Owes [] (shared w) →
  Owes [] (shared (serve E st extract body_text endpoint headers body fresh polls w).2) ∧
  let '(r, w') := forward E st extract body_text endpoint headers body fresh w in
  Owes (held_by r) (shared w').
Proof.
  intros HE Hx Hw. split; [by apply (keeps_serve E st extract body_text HE Hx)|].
  pose proof (keeps_forward E st extract body_text HE Hx endpoint headers body fresh w Hw) as Hf.
  by destruct (forward _ _ _ _ _ _ _ _ w).
Qed.

(** Other tasks, on the deployments of the demonstration: between any two steps
    they take a slot, or give back one they hold, of whichever node the step
    says. *)
Definition take_elsewhere (d : DeploymentId) (s : Shared) : Shared :=
  let '(l, b) := acquire (load (sh_selector s)) d in
  mkShared (sh_health s) (mkSelector (cursors (sh_selector s)) b) (sh_affinity s) (sh_history s)
    (sh_status s) (l :: sh_elsewhere s).

Definition give_elsewhere (s : Shared) : Shared :=
  match sh_elsewhere s with
  | [] => s
  | l :: ls =>
      mkShared (sh_health s) (mkSelector (cursors (sh_selector s)) (drop_lease (load (sh_selector s)) l))
        (sh_affinity s) (sh_history s) (sh_status s) ls
  end.

Definition busy (n : nat) (s : Shared) : Shared :=
  if (length (sh_elsewhere s) <? 3)%nat && negb (n mod 3 =? 2)%nat
  then take_elsewhere (if Nat.even n then on_tower else on_laptop) s
  else give_elsewhere s.

Definition busy_env (sends : nat → Sending) : Env :=
  mkEnv (clock (demo_env sends)) (unix_clock (demo_env sends)) busy sends
    (provider_answers (demo_env sends)).

Lemma give_elsewhere_owes own s : Owes own s → Owes own (give_elsewhere s).
Proof.
  unfold give_elsewhere. destruct (sh_elsewhere s) as [|l ls] eqn:He; [done|].
  unfold Owes. rewrite He. intros (HB & Ho & Hf). simpl in Hf. split; [|simpl; lia]. simpl.
  eapply Balanced_perm in HB; [|symmetry; apply Permutation_middle].
  apply (Balanced_step _ _ (use_drop (load (sh_selector s)) (l :: own ++ ls) 0 l eq_refl)); [|done].
  simpl. rewrite length_app. lia.
Qed.

Lemma busy_fair sends : fair (busy_env sends).
Proof.
  intros n s own Hs. simpl. unfold busy.
  destruct (_ <? 3)%nat eqn:Hl; [apply Nat.ltb_lt in Hl; destruct (negb _)|]; simpl;
    [|by apply give_elsewhere_owes..].
  destruct Hs as (HB & Ho & Hf). unfold take_elsewhere.
  generalize (if Nat.even n then on_tower else on_laptop). intros d.
  destruct (acquire (load (sh_selector s)) d) as [l b] eqn:Ha.
  split; [|simpl; lia]. simpl. eapply Balanced_perm; [apply Permutation_middle|].
  change (acquire ?x ?y) with (book_acquire x y) in Ha.
  pose proof (Balanced_step _ _ (use_acquire (load (sh_selector s)) (own ++ sh_elsewhere s) d)) as Hs.
  rewrite Ha in Hs. apply Hs; [|done]. simpl. rewrite length_app. lia.
Qed.

(** Both nodes refuse, and meanwhile the other tasks take slots and give some
    back; what is counted at the end is what they hold. *)
Definition busy_served : World Object :=
  (serve (busy_env (fun _ => unready)) (demo_state Priority None) demo_extract
     (fun _ _ => []) ChatCompletions ∅ (lit "for Coder") (lit "rtr-1") 1 (demo_world Priority)).2.

Lemma every_slot_is_given_back_witness :
  Owes [] (shared busy_served) ∧
  length (sent_to (marks (events busy_served))) = 2%nat ∧
  length (sh_elsewhere (shared busy_served)) = 2%nat ∧
  (length (sh_elsewhere (busy 2 (busy 1 (busy 0 (demo_shared Priority))))) <
   length (sh_elsewhere (busy 1 (busy 0 (demo_shared Priority)))))%nat.
Proof.
  split; [|vm_compute; repeat split; lia].
  apply (every_slot_is_given_back (busy_env (fun _ => unready)) (demo_state Priority None)
    demo_extract (fun _ _ => [])); [apply busy_fair|done|].
  split; [|done]. intros d. simpl. by repeat (rewrite lookup_insert; case_decide).
Defined.
